(* ===== verification/_CoqProject ===== *)
-Q . S2P
Prelude.v
Result.v
Cxx.v
Sha256.v
ChunkId.v
Time.v
Logger.v
Config.v
PathValidator.v
Queue.v
IChunkStore.v
Posix.v
LocalDisk.v
DiskRules.v
DiskLayout.v
DiskEffects.v
DiskTheorems.v
DiskContract.v
DiskSafety.v
DiskDurability.v
DiskCounters.v
Programs.v
Threads.v
ThreadRules.v
ThreadOps.v
ThreadCoupling.v
ThreadTheorems.v
Grounded.v
Listing.v
FaultStore.v
FaultThreads.v
FaultHistory.v
Proto.v
Greeter.v
Service.v
ServiceRules.v
ServiceTheorems.v
NodeTheorems.v
Requests.v
Handlers.v
NodeThreads.v
NodeHistory.v
Lives.v
Main.v
NodeExamples.v
