(* ===== verification/Prelude.v ===== *)
(** * NimbusFS: verification development

    NimbusFS is a distributed file system in C++ at an early milestone: a
    library of common facilities ([libs/common]), a storage node that keeps
    content-addressed chunks on a local disk and serves them over gRPC
    ([services/storage_node]), a demo service ([services/greeter_demo]), and
    stubs for what is to come. A chunk is named by the SHA-256 of its bytes;
    the node promises that what it gives back is what was put in, or an
    error. This development models the code of those parts, function by
    function, and proves what makes them correct.

    ** How the program is embedded

    A function that only computes is a Rocq function. C++ control flow is the
    type [outcome] of this file: a value, an exception, a thread that never
    returns, or a crash of the machine in the middle. A function with effects
    is a computation [M S A] on an explicit state [S]; [scoped] runs a
    destructor on the normal and on the exceptional way out. [Result] values,
    which the code uses for expected errors, stay values. Machine integers are
    [Z] with their wrap-around ([wrap64]) or their range ([in_int64]) written
    out; bytes are [Byte.byte]; strings are lists of 8-bit characters.
    Proofs about effects use weakest preconditions ([wp]), which speak of
    every outcome, so a theorem never assumes that the code returns.

    What is not under src/ is a parameter, given by a class, with what the
    code relies on as a second class of laws: OpenSSL's EVP interface
    ([Sha256.Evp], [EvpLaws]), the operating system ([Posix.Platform], a
    schedule that says for every system call whether it succeeds, fails,
    transfers less, or is where the machine crashes), UUIDs
    ([Logger.UuidSource]), the steady clock and remote nodes
    ([Proto.SteadyClock], [Proto.Peers]), nlohmann's JSON and [std::stod]
    ([Config.Nlohmann]). Theorems hold for every instance; each class has a
    small concrete instance ([toy_...]) at which the witnesses evaluate.

    ** The parts

    - [Prelude] (this file): outcomes, the state monad, [wp] and its rules,
      crash freedom with its tactic and hint database, integers and bytes.
    - [Result], [Cxx]: [result.h]; the standard library functions used
      ([std::stoi], [std::stoll], [substr], [path::stem], ...).
    - [Sha256]: [sha256.cpp]. The digest does not depend on how the input was
      cut; hexadecimal round trip; what [FromHexString] really accepts.
    - [ChunkId]: [chunk_id.cpp]. [Parse] accepts exactly the printed forms of
      valid identifiers; which error it reports; the hash is lossless.
    - [Time]: [clock.cpp], [lease.cpp], [protocol_version.cpp]. Expiry against
      a clock; where the signed arithmetic is defined.
    - [Logger]: [logger.cpp], [uuid.cpp]. Correlation-id scopes nest and
      restore, exceptions included.
    - [Config]: [config_schema.cpp], [config.cpp]. Schemas keep the last
      declaration; what a validated configuration guarantees to the getters;
      cluster invariants come from the file only; overrides are not checked,
      and setting a variable changes the fields of exactly one name.
    - [PathValidator]: [path_validator.cpp]. The accepted paths, the first
      error, the display form.
    - [Queue]: [bounded_blocking_queue.h]. Each critical section is a
      function; threads, two condition variables, spurious wake-ups and
      timeouts are a step relation, and the invariant is by induction on
      reachability: bounded, first in first out, no wake-up lost, shutdown
      drains. Steps are labelled with what happens in them, so that runs can
      be counted: producers and consumers finish.
    - [IChunkStore]: [i_chunk_store.h] as a class of operations, and
      [ChunkStoreContract], the abstract specification: a finite map from
      identifiers to bytes, and what each operation may do to it.
    - [Posix], [LocalDisk]: the system calls on a file tree with synced and
      unsynced files and entries, and [local_disk_chunk_store.cpp] on top, call by call.
      [DiskRules], [DiskLayout], [DiskEffects], [DiskTheorems] are its proof
      library; [DiskTheorems] also has that identifiers stay well formed
      through every function that makes one. [DiskContract] shows that the
      store refines the contract; [DiskSafety] that reads are verified, [Put]
      is atomic, crashes and power losses never leave a corrupt chunk, and
      locks and descriptors are given back; [DiskDurability] that chunks in
      shards that have reached the disk survive a power loss; [DiskCounters]
      that the statistics are exact; the last three also what goes wrong.
    - [Programs], [Threads], [ThreadRules], [ThreadOps], [ThreadCoupling],
      [ThreadTheorems]: the disk store under many threads. [Programs] cuts
      every operation at its actions (a system call, a lock, a counter) and
      proves that, run alone, the pieces are the operation of [LocalDisk].
      [Threads] lets a pool of threads run such programs action by action in
      any order, with exclusive stripes and crashes inside any action, and
      beside it an atomic store on which a call takes effect at one instant;
      what the threads run is a [Client] interface. [ThreadRules] is a
      rely-guarantee logic for such programs, [ThreadOps] the proof of every
      operation in it, [ThreadCoupling] the simulation for any client so
      proved, [ThreadTheorems] the client that calls the store directly: it is
      linearizable, what a crash leaves, what a quiet pool leaves, that calls
      terminate, and that a chunk nobody is putting survives a power loss
      whatever else is under way (the ghost state of [ThreadRules] says which
      chunk a thread has published and not yet synced).
    - [Grounded], [Listing]: no system call of the store leaves an entry
      without its directory; on that rests the walk of [ListAllChunkIds],
      which takes no lock, beside such a pool, entry by entry. The pool cannot
      tell; a chunk that is there all the time is listed exactly once, nothing
      is listed that never was there, and the walk ends once the others pause.
    - [FaultStore]: [fault_injecting_chunk_store.cpp], over any store: which
      calls a fault hits, and that without one the contract is kept.
      [FaultThreads] is the decorator among threads, over any delegate given
      by its steps: which calls a fault hits in any interleaving and what the
      delegate sees. [FaultHistory] describes the decorator without its
      members, by the history of what it was told and what it decided, and
      proves that around the disk store it refines that description around
      the atomic store.
    - [Proto], [Service]: the messages of [storage_node.proto] and the
      handlers of [storage_node_service_impl.cpp] and [capability_token.cpp].
      [ServiceRules] and [ServiceTheorems] verify them against
      [ChunkStoreContract], so for every store that keeps it.
      [NodeTheorems] gives the outcome of each request, the limits, and the
      round trips (upload and download, replication between nodes);
      [Requests] treats all six handlers at once (availability, version
      check); [NodeExamples] runs a node over the disk store.
    - [Handlers], [NodeThreads], [NodeHistory]: the node under many threads.
      [Handlers] cuts the six handlers at their actions, over the programs of
      the store, and proves that, run alone, they are the handlers of
      [Service]. [NodeThreads] says what each call asks of the store and what
      it replies (its plan), proves every handler safe, and concludes with the
      results of [ThreadCoupling] that the node is linearizable and serves
      every call, its messages arriving when they please: a thread that waits
      for its peer holds no stripe, so a client that stalls stops nobody. [NodeHistory] draws a consequence for clients: an upload
      that was acknowledged is found by every later download until somebody
      asks for its deletion, and, if its shard had reached the disk, after a
      power loss at any later moment.
    - [Lives]: the data directory outlives the processes on it. A life is a
      constructor, calls in threads, and an end: in good order, a kill, or a
      power cut that takes contents, files and directories that were not
      synced. Any number of lives from a new machine on leave a directory the
      next constructor accepts, with nothing in it but what was uploaded; a
      chunk whose upload was acknowledged once is there, and delivered, in
      every later life, if its shard directory, and its own entry where the
      chunk was there already, had reached the disk before; and a way to lose
      one without a failure when they had not.
    - [Main]: the entry points of the node and of the demo, and the node as a
      process: what stops the start, and that a started node serves until it
      is signalled and then stops.
    - [Greeter]: the handler and the client of the demo, and one call between
      the two processes.

    Names follow the source; where one C++ function is cut into several
    definitions (a loop, the part after a guard), the pieces carry its name
    as a prefix or are named after what they do ([Put_file], [SendFrames]).

    ** Bounds and fuel

    Recursion is structural wherever the code loops over a list.
    [Service.SendFrames] sends at least one byte per turn and has the length
    of the data as fuel; [PathValidator.ValidateLoop] moves by at least one
    character and has the length of the path. That the fuel is enough is part
    of what is proved: the theorems about these functions equate them with
    definitions that have none. [Main] polls for a signal with the number of
    polls as fuel, and its theorem says after which poll it returns. No call
    of a thread on the store takes more than 24 actions ([Threads.longest],
    counted program by program), so a run has at most 26 steps for each call
    that was made, and one more. A handler takes at most 32 actions, its
    operation of the store included, hence 34 steps for each call, and one
    for each message on a stream, of which the trace tells. A run of [Push] and [Pop] on the queue has at most four steps for each
    call and three for each spurious wake-up. The
    handlers' theorems assume a limit below 2^63 and streams whose total size
    fits in 64 bits, as memory does.

    ** What is not modelled

    - Running out of memory, and gRPC and protobuf themselves: transport,
      deadlines, unknown enumerators, message size limits.
    - The constructor of the disk store among threads: no thread has the store
      before it is made. Two processes on one data directory at the same time;
      [Lives] has them one after the other. The operations, the listing, the
      decorator, the handlers and the queue are modelled among threads; an
      action there is one system call, so two threads never write one file
      half and half. What a client sends and what a remote node answers is
      fixed with the call; when each message arrives is not. The decorator's
      own listing is modelled for one thread ([FaultStore]); no handler lists.
    - After a power loss a deleted chunk may come back; the theorems claim
      integrity of what is found and durability of what was acknowledged,
      not durability of deletions, nor of the first chunk of a shard, which
      the code does not make durable ([DiskDurability.first_of_shard_not_durable]). A directory whose own entry was not synced may
      be gone with all it holds: so it is in [Lives.outage];
      [DiskSafety.reboot] keeps it, empty.
    - spdlog's filtering, sinks and rotation; the Windows branches; patterns
      of [std::regex] beyond one bracket expression.
    - The configuration and logger functions that the entry points call and
      the repository does not define, and gRPC's server: parameters of
      [Main]. Requests that arrive between two polls of the entry point are
      served one after the other there. Paths of the data directory relative
      to the working directory.
    - The stubs of the applications, the coordinator, the metadata service and
      the client library, which hold no logic.

    As written, [Put] of the disk store locks a stripe twice and so cannot
    succeed with an ordinary mutex ([DiskSafety.Put_relocks_its_stripe]). The
    theorems about what [Put] does after that point are about a mutex its
    owner may lock again; that assumption is explicit ([reliable],
    [RelockReenters]) and the safety theorems do not need it. The theorems on
    threads make the same assumption ([ThreadCoupling.fair]), and that the
    two status queries of the store ([exists] and [file_size]) do not fail: the
    code takes their failure for a missing file. That is no formality: with a
    failing query [Get] answers NotFound for a chunk that is there, [Delete]
    answers Ok and deletes nothing, and [Put] counts a chunk twice
    ([DiskCounters.counters_drift]). Every theorem about threads, calls of the
    node in threads, and lives says so with its hypothesis [fair].

    ** What is left

    Everything under src/ that has logic is modelled. What could still be
    added lies in code the repository only calls: gRPC's deadlines on a peer
    that stalls, and the drift of the system's clock against the steady one.
    What remains of the code itself are declarations, include directives,
    comments, Windows branches and calls of spdlog, which a definition would
    not translate but only repeat. *)

From Stdlib Require Export Strings.Byte Strings.Ascii Strings.String.
From stdpp Require Export base tactics numbers list strings gmap sets pretty.

(** ** Outcomes of C++ code

    A C++ function returns a value, throws, never returns because its thread
    blocks, or is cut short by a crash of the machine. *)

Inductive exn :=
  | logic_error (what : string)
  | runtime_error (what : string)
  | invalid_argument
  | out_of_range
  | system_error (what : string)
  | filesystem_error (what : string).

#[export] Instance exn_eq_dec : EqDecision exn.
Proof. solve_decision. Defined.

Inductive outcome (A : Type) :=
  | Done (a : A)
  | Throws (e : exn)
  | Blocks
  | Crashed.
Arguments Done {A} _.
Arguments Throws {A} _.
Arguments Blocks {A}.
Arguments Crashed {A}.

#[export] Instance outcome_ret : MRet outcome := @Done.

#[export] Instance outcome_bind : MBind outcome := λ A B f m,
  match m with
  | Done a => f a
  | Throws e => Throws e
  | Blocks => Blocks
  | Crashed => Crashed
  end.

(** ** The state monad of the stateful components *)

Definition M (S A : Type) : Type := S → outcome A * S.

#[export] Instance M_ret {S} : MRet (M S) := λ A a s, (Done a, s).

#[export] Instance M_bind {S} : MBind (M S) := λ A B f m s,
  match m s with
  | (Done a, s') => f a s'
  | (Throws e, s') => (Throws e, s')
  | (Blocks, s') => (Blocks, s')
  | (Crashed, s') => (Crashed, s')
  end.

Definition lift {S A} (o : outcome A) : M S A := λ s, (o, s).
Definition gets {S A} (f : S → A) : M S A := λ s, (Done (f s), s).
Definition state {S A} (f : S → outcome A * S) : M S A := f.
Definition modify {S} (f : S → S) : M S unit := λ s, (Done tt, f s).

(** Running a computation on a component of the state. *)
Definition zoom {S T A} (get : S → T) (set : T → S → S) (m : M T A) : M S A :=
  λ s, let '(o, t) := m (get s) in (o, set t s).

(** A block with a local object whose destructor is [fin]: it runs when the
    block is left by a return or by an exception, not when the thread blocks
    inside or the machine crashes. *)
Definition scoped {S A} (fin : M S unit) (body : M S A) : M S A := λ s,
  match body s with
  | (Done a, s') => (fin ≫= λ _, mret a) s'
  | (Throws e, s') => (fin ≫= λ _, lift (Throws e)) s'
  | (Blocks, s') => (Blocks, s')
  | (Crashed, s') => (Crashed, s')
  end.

(** ** Weakest preconditions

    [wp m Q s]: running [m] from [s] ends in an outcome and a state that
    satisfy [Q], whatever the outcome is. *)

Definition wp {S A} (m : M S A) (Q : outcome A → S → Prop) (s : S) : Prop :=
  Q (m s).1 (m s).2.

#[global] Arguments wp {S A} m Q s : simpl never.

Lemma wp_run {S A} (m : M S A) Q s o s' : m s = (o, s') → wp m Q s → Q o s'.
Proof. unfold wp. by intros ->. Qed.

Lemma wp_elim {S A} (m : M S A) Q s : wp m Q s → ∃ o s', m s = (o, s') ∧ Q o s'.
Proof. unfold wp. destruct (m s) as [o s']. by exists o, s'. Qed.

Lemma wp_mono {S A} (m : M S A) (Q Q' : outcome A → S → Prop) s :
  wp m Q s → (∀ o s', Q o s' → Q' o s') → wp m Q' s.
Proof. unfold wp. auto. Qed.

Lemma wp_ret {S A} (a : A) Q (s : S) : Q (Done a) s → wp (mret a) Q s.
Proof. done. Qed.

Lemma wp_bind {S A B} (m : M S A) (f : A → M S B) Q s :
  wp m (λ o s', match o with
                | Done a => wp (f a) Q s'
                | Throws e => Q (Throws e) s'
                | Blocks => Q Blocks s'
                | Crashed => Q Crashed s'
                end) s →
  wp (m ≫= f) Q s.
Proof. unfold wp, mbind, M_bind. destruct (m s) as [[] ?]; done. Qed.

Lemma wp_lift {S A} (o : outcome A) Q (s : S) : Q o s → wp (lift o) Q s.
Proof. done. Qed.

Lemma wp_modify {S} (f : S → S) Q (s : S) : Q (Done tt) (f s) → wp (modify f) Q s.
Proof. done. Qed.

Lemma wp_gets {S A} (f : S → A) Q (s : S) : Q (Done (f s)) s → wp (gets f) Q s.
Proof. done. Qed.

Lemma wp_zoom {S T A} (get : S → T) set (m : M T A) Q s :
  wp m (λ o t, Q o (set t s)) (get s) → wp (zoom get set m) Q s.
Proof. unfold wp, zoom. by destruct (m (get s)). Qed.

Lemma wp_scoped {S A} (fin : M S unit) (body : M S A) Q s :
  wp body (λ o s', match o with
                   | Done a => wp (fin ≫= λ _, mret a) Q s'
                   | Throws e => wp (fin ≫= λ _, lift (Throws e)) Q s'
                   | Blocks => Q Blocks s'
                   | Crashed => Q Crashed s'
                   end) s →
  wp (scoped fin body) Q s.
Proof. unfold wp, scoped. destruct (body s) as [[] ?]; done. Qed.

Lemma M_bind_done {S A B} (m : M S A) (f : A → M S B) s a s' :
  m s = (Done a, s') → (m ≫= f) s = f a s'.
Proof. intros E. unfold mbind, M_bind. by rewrite E. Qed.

(** ** Computations that cannot crash *)

Create HintDb crash_free.

Definition crash_free {S A} (m : M S A) : Prop := ∀ s, (m s).1 ≠ Crashed.

Lemma crash_free_ret {S A} (a : A) : crash_free (S:=S) (mret a).
Proof. done. Qed.

Lemma crash_free_bind {S A B} (m : M S A) (f : A → M S B) :
  crash_free m → (∀ a, crash_free (f a)) → crash_free (m ≫= f).
Proof.
  intros Hm Hf s. specialize (Hm s). unfold mbind, M_bind. destruct (m s) as [[] s']; try done. apply Hf.
Qed.

Lemma crash_free_lift {S A} (o : outcome A) : o ≠ Crashed → crash_free (S:=S) (lift o).
Proof. by intros Ho s. Qed.

Lemma crash_free_gets {S A} (f : S → A) : crash_free (gets f).
Proof. done. Qed.

Lemma crash_free_modify {S} (f : S → S) : crash_free (modify f).
Proof. done. Qed.

Lemma crash_free_state {S A} (f : S → outcome A * S) : (∀ s, (f s).1 ≠ Crashed) → crash_free (state f).
Proof. done. Qed.

Lemma crash_free_zoom {S T A} (get : S → T) set (m : M T A) : crash_free m → crash_free (zoom get set m).
Proof. intros Hm s. specialize (Hm (get s)). unfold zoom. by destruct (m (get s)) as [[] ?]. Qed.

Lemma crash_free_scoped {S A} (fin : M S unit) (body : M S A) :
  crash_free fin → crash_free body → crash_free (scoped fin body).
Proof.
  intros Hfin Hb s. specialize (Hb s). unfold scoped. destruct (body s) as [[] s']; try done;
    unfold mbind, M_bind; specialize (Hfin s'); by destruct (fin s') as [[] ?].
Qed.

(** Goes through a program, one construct at a time; matches are cut on what
    they examine; the hint database holds the components' own lemmas. *)
Ltac crash_free_step :=
  lazymatch goal with
  | |- crash_free (mret _) => apply crash_free_ret
  | |- crash_free (gets _) => apply crash_free_gets
  | |- crash_free (modify _) => apply crash_free_modify
  | |- crash_free (mbind _ _) => apply crash_free_bind; [|intros ?]
  | |- crash_free (zoom _ _ _) => apply crash_free_zoom
  | |- crash_free (scoped _ _) => apply crash_free_scoped
  | |- crash_free (lift (Throws _)) => apply crash_free_lift; discriminate
  | |- crash_free (match ?x with _ => _ end) => destruct x
  | |- crash_free (let _ := _ in _) => cbv zeta
  | |- crash_free _ => eauto with crash_free
  end.

Ltac crash_free := repeat crash_free_step.

(** ** Sums over finite maps *)

Definition map_sum {K} `{Countable K} {A} (f : A → Z) (m : gmap K A) : Z := map_fold (λ _ a n, f a + n)%Z 0%Z m.

Section MapSum.
Context {K} `{Countable K} {A : Type} (f : A → Z).
Implicit Types m : gmap K A.

Lemma map_sum_empty : map_sum f (∅ : gmap K A) = 0%Z.
Proof. apply map_fold_empty. Qed.

Lemma map_sum_insert m i a : m !! i = None → map_sum f (<[i := a]> m) = (f a + map_sum f m)%Z.
Proof. intros Hi. unfold map_sum. rewrite map_fold_insert_L; [done| |done]. intros. lia. Qed.

Lemma map_sum_delete m i a : m !! i = Some a → map_sum f m = (f a + map_sum f (delete i m))%Z.
Proof.
  intros Hi. rewrite <- (map_sum_insert (delete i m) i a) by apply lookup_delete_eq. by rewrite insert_delete_id.
Qed.

Lemma map_sum_update m i a b : m !! i = Some a → map_sum f (<[i := b]> m) = (map_sum f m - f a + f b)%Z.
Proof.
  intros Hi. rewrite <- (insert_delete_eq m i b), map_sum_insert by apply lookup_delete_eq.
  rewrite (map_sum_delete m i a Hi). lia.
Qed.

End MapSum.

(** ** Machine integers *)

Definition wrap64 (z : Z) : Z := (z `mod` 2 ^ 64)%Z.

Lemma wrap64_range z : (0 ≤ wrap64 z < 2 ^ 64)%Z.
Proof. unfold wrap64. apply Z.mod_pos_bound. lia. Qed.

Lemma wrap64_small z : (0 ≤ z < 2 ^ 64)%Z → wrap64 z = z.
Proof. intros H. unfold wrap64. by apply Z.mod_small. Qed.

(** Joining a byte to a value whose low eight bits are clear. *)
Lemma lor_add_256 h b : (0 ≤ b < 256)%Z → Z.lor (h * 256) b = (h * 256 + b)%Z.
Proof.
  intros Hb. assert (Z.land (h * 256) b = 0%Z) as Hz.
  { apply Z.bits_inj'. intros n Hn. rewrite Z.land_spec, Z.bits_0.
    change 256%Z with (2 ^ 8)%Z. destruct (Z.lt_ge_cases n 8) as [?|?].
    - by rewrite Z.mul_pow2_bits_low by lia.
    - rewrite (Z.bits_above_log2 b), andb_false_r; [done|lia|].
      destruct (Z.eq_dec b 0%Z) as [->|?]; [cbn; lia|].
      apply Z.lt_le_trans with 8%Z; [|done]. apply Z.log2_lt_pow2; lia. }
  by rewrite <- Z.lxor_lor, <- Z.add_nocarry_lxor.
Qed.

Definition int32_min : Z := -2147483648.
Definition int32_max : Z := 2147483647.
Definition int64_min : Z := -9223372036854775808.
Definition int64_max : Z := 9223372036854775807.

Definition in_int32 (z : Z) : bool := (int32_min <=? z)%Z && (z <=? int32_max)%Z.
Definition in_int64 (z : Z) : bool := (int64_min <=? z)%Z && (z <=? int64_max)%Z.

(** ** Bytes

    [std::byte] is [byte]; [static_cast<std::byte>(i)] keeps the low eight
    bits of [i]. *)

Definition byte_to_Z (b : byte) : Z := Z.of_N (Byte.to_N b).

Definition byte_of_Z (z : Z) : byte :=
  match Byte.of_N (Z.to_N (z `mod` 256)) with
  | Some b => b
  | None => x00
  end.

#[export] Instance byte_eq_dec : EqDecision byte := Byte.byte_eq_dec.

#[export] Instance byte_countable : Countable byte :=
  inj_countable Byte.to_N Byte.of_N Byte.of_to_N.

Lemma byte_to_Z_range b : (0 ≤ byte_to_Z b < 256)%Z.
Proof.
  unfold byte_to_Z. pose proof (Byte.to_N_bounded b). lia.
Qed.

Lemma byte_of_to_Z b : byte_of_Z (byte_to_Z b) = b.
Proof.
  unfold byte_of_Z. rewrite Z.mod_small by apply byte_to_Z_range.
  unfold byte_to_Z. by rewrite N2Z.id, Byte.of_to_N.
Qed.

Lemma byte_to_of_Z z : byte_to_Z (byte_of_Z z) = (z `mod` 256)%Z.
Proof.
  unfold byte_to_Z, byte_of_Z.
  pose proof (Z.mod_pos_bound z 256 ltac:(lia)) as Hb.
  destruct (Byte.of_N (Z.to_N (z `mod` 256))) as [b|] eqn:E.
  - apply Byte.to_of_N in E. rewrite E. lia.
  - apply Byte.of_N_None_iff in E. lia.
Qed.
