(* ===== verification/Result.v ===== *)
(** * [nimbus::common::Result]

    Models [libs/common/include/nimbus/common/result.h]: the two-armed result
    every fallible operation returns, its constructors and its accessors,
    which throw [std::logic_error] on the wrong arm. *)

From S2P Require Import Prelude.

Inductive Result (T E : Type) :=
  | Ok (value : T)
  | Err (error : E).
Arguments Ok {T E} _.
Arguments Err {T E} _.

#[export] Instance Result_eq_dec `{EqDecision T, EqDecision E} : EqDecision (Result T E).
Proof. solve_decision. Defined.

Definition IsOk {T E} (r : Result T E) : bool :=
  match r with Ok _ => true | Err _ => false end.

Definition Value {T E} (r : Result T E) : outcome T :=
  match r with
  | Ok v => Done v
  | Err _ => Throws (logic_error "Called Value() on an error Result")
  end.

Definition Error {T E} (r : Result T E) : outcome E :=
  match r with
  | Ok _ => Throws (logic_error "Called Error() on an ok Result")
  | Err e => Done e
  end.

Lemma IsOk_true {T E} (r : Result T E) : IsOk r = true ↔ ∃ v, r = Ok v.
Proof. destruct r; naive_solver. Qed.

(** The guard [IsOk] is exactly what keeps the accessors from throwing. *)
Lemma Value_Done_iff {T E} (r : Result T E) : (∃ v, Value r = Done v) ↔ IsOk r = true.
Proof. destruct r; naive_solver. Qed.

Lemma Error_Done_iff {T E} (r : Result T E) : (∃ e, Error r = Done e) ↔ IsOk r = false.
Proof. destruct r; naive_solver. Qed.
