(* ===== verification/Cxx.v ===== *)
(** * The C++ standard library functions the program calls

    Character classification in the "C" locale, [std::stoi] / [std::stoll]
    with their whitespace, sign and [0x] prefix, [std::string::substr] and
    the hexadecimal formatting of an [ostream]. *)

From S2P Require Import Prelude.

Local Open Scope Z_scope.

Definition code (c : ascii) : Z := Z.of_N (N_of_ascii c).
Definition chr (z : Z) : ascii := ascii_of_N (Z.to_N z).

Definition is_digit (c : ascii) : bool := (48 <=? code c) && (code c <=? 57).
Definition is_upper (c : ascii) : bool := (65 <=? code c) && (code c <=? 90).
Definition is_lower (c : ascii) : bool := (97 <=? code c) && (code c <=? 122).
Definition is_xdigit (c : ascii) : bool :=
  is_digit c || ((65 <=? code c) && (code c <=? 70)) || ((97 <=? code c) && (code c <=? 102)).
Definition is_space (c : ascii) : bool := (code c =? 32) || ((9 <=? code c) && (code c <=? 13)).
Definition to_upper (c : ascii) : ascii := if is_lower c then chr (code c - 32) else c.
Definition to_lower (c : ascii) : ascii := if is_upper c then chr (code c + 32) else c.

Fixpoint string_map (f : ascii → ascii) (s : string) : string :=
  match s with
  | EmptyString => EmptyString
  | String c s' => String (f c) (string_map f s')
  end.

Fixpoint string_forallb (f : ascii → bool) (s : string) : bool :=
  match s with
  | EmptyString => true
  | String c s' => f c && string_forallb f s'
  end.

(** [s.substr(pos, n)]: throws [std::out_of_range] when [pos > s.size()]. *)
Definition substr (s : string) (pos n : nat) : outcome string :=
  if (String.length s <? pos)%nat then Throws out_of_range
  else Done (String.substring pos n s).

(** ** [strtol] and the [sto*] family *)

Definition digit_value (base : Z) (c : ascii) : option Z :=
  let v := if is_digit c then code c - 48
           else if is_lower c then code c - 87
           else if is_upper c then code c - 55
           else base in
  if v <? base then Some v else None.

Fixpoint scan_digits (base acc : Z) (pos : nat) (s : string) : Z * nat :=
  match s with
  | String c s' =>
      match digit_value base c with
      | Some v => scan_digits base (acc * base + v) (S pos) s'
      | None => (acc, pos)
      end
  | EmptyString => (acc, pos)
  end.

Fixpoint skip_space (pos : nat) (s : string) : nat * string :=
  match s with
  | String c s' => if is_space c then skip_space (S pos) s' else (pos, s)
  | EmptyString => (pos, s)
  end.

Definition scan_sign (pos : nat) (s : string) : Z * nat * string :=
  match s with
  | String c s' =>
      if Ascii.eqb c "-" then (-1, S pos, s')
      else if Ascii.eqb c "+" then (1, S pos, s')
      else (1, pos, s)
  | EmptyString => (1, pos, s)
  end.

(** The [0x] prefix counts only in front of a hexadecimal digit; otherwise
    the subject sequence is the single [0]. *)
Definition scan_prefix (base : Z) (pos : nat) (s : string) : nat * string :=
  match s with
  | String z (String x (String d s')) =>
      if (base =? 16) && Ascii.eqb z "0" && (Ascii.eqb x "x" || Ascii.eqb x "X") && is_xdigit d
      then (S (S pos), String d s') else (pos, s)
  | _ => (pos, s)
  end.

(** The value and the number of characters used; [None]: no conversion. *)
Definition strto (base : Z) (s : string) : option (Z * nat) :=
  let '(p0, s0) := skip_space 0 s in
  let '(sign, p1, s1) := scan_sign p0 s0 in
  let '(p2, s2) := scan_prefix base p1 s1 in
  let '(v, p3) := scan_digits base 0 p2 s2 in
  if (p3 =? p2)%nat then None else Some (sign * v, p3).

Definition stoi (s : string) (base : Z) : outcome (Z * nat) :=
  match strto base s with
  | None => Throws invalid_argument
  | Some (v, pos) => if in_int32 v then Done (v, pos) else Throws out_of_range
  end.

Definition stoll (s : string) : outcome Z :=
  match strto 10 s with
  | None => Throws invalid_argument
  | Some (v, pos) => if in_int64 v then Done v else Throws out_of_range
  end.

(** ** [oss << std::hex << std::setw(2) << std::setfill('0') << i] *)

Definition hex_digit (d : Z) : ascii := if d <? 10 then chr (d + 48) else chr (d + 87).

Definition hex2 (b : byte) : string :=
  String (hex_digit (byte_to_Z b / 16)) (String (hex_digit (byte_to_Z b `mod` 16)) EmptyString).

(** ** [std::filesystem::path] on POSIX *)

(** [d / f] on path strings: [f] is appended after a separator, unless it is
    absolute. *)
Definition path_append (d f : string) : string :=
  match f with
  | String "/" _ => f
  | _ =>
      if String.eqb d "" then f
      else if String.eqb (String.substring (String.length d - 1) 1 d) "/" then d +:+ f
      else d +:+ "/" +:+ f
  end.

(** The part of a file name before its last dot, and from it on. *)
Fixpoint split_last_dot (s : string) : option (string * string) :=
  match s with
  | EmptyString => None
  | String c s' =>
      match split_last_dot s' with
      | Some (a, b) => Some (String c a, b)
      | None => if Ascii.eqb c "." then Some ("", s) else None
      end
  end.

(** [path::stem] and [path::extension] of a file name: a name that starts
    with its only dot, [.] and [..] have no extension. *)
Definition stem_extension (name : string) : string * string :=
  if String.eqb name "." || String.eqb name ".." then (name, "")
  else match split_last_dot name with
  | Some (EmptyString, _) | None => (name, "")
  | Some (st, ext) => (st, ext)
  end.

Definition stem (name : string) : string := (stem_extension name).1.
Definition extension (name : string) : string := (stem_extension name).2.

(** ** Facts *)

Lemma scan_digits_pos base acc pos s : (pos ≤ (scan_digits base acc pos s).2)%nat.
Proof.
  revert acc pos. induction s as [|c s IH]; intros acc pos; cbn; [done|].
  destruct (digit_value base c); cbn; [|done]. etrans; [|apply IH]. lia.
Qed.

Lemma length_string_map f s : String.length (string_map f s) = String.length s.
Proof. induction s; cbn; congruence. Qed.

Lemma append_cons c s t : String c s +:+ t = String c (s +:+ t).
Proof. done. Qed.

Lemma append_empty_l t : EmptyString +:+ t = t.
Proof. done. Qed.

#[export] Hint Rewrite append_cons append_empty_l : cxx.

(** Induction on the first string of an append. *)
Ltac string_app_induction s :=
  induction s as [|? s IH]; autorewrite with cxx; cbn; [try done | rewrite ?IH; try done].

Lemma string_forallb_app f s t :
  string_forallb f (s +:+ t) = string_forallb f s && string_forallb f t.
Proof. string_app_induction s. by rewrite andb_assoc. Qed.

Lemma length_string_app s t : String.length (s +:+ t) = (String.length s + String.length t)%nat.
Proof. string_app_induction s. Qed.

Lemma substring_app_r s t n : String.substring (String.length s) n (s +:+ t) = String.substring 0 n t.
Proof. string_app_induction s. Qed.

Lemma substring_app_l s t : String.substring 0 (String.length s) (s +:+ t) = s.
Proof. string_app_induction s. by destruct t. Qed.

Lemma append_assoc s t u : (s +:+ t) +:+ u = s +:+ (t +:+ u).
Proof. string_app_induction s. Qed.

Lemma append_empty_r s : s +:+ "" = s.
Proof. string_app_induction s. Qed.

(** Equality of characters is equality of their codes. *)
Lemma code_inj c d : code c = code d → c = d.
Proof.
  unfold code. intros H. apply N2Z.inj in H.
  by rewrite <- (ascii_N_embedding c), <- (ascii_N_embedding d), H.
Qed.

Lemma eqb_code c d : Ascii.eqb c d = (code c =? code d).
Proof.
  destruct (Ascii.eqb_spec c d) as [->|Hne].
  - by rewrite Z.eqb_refl.
  - symmetry. apply Z.eqb_neq. intros H. by apply Hne, code_inj.
Qed.

Lemma eqb_minus c : Ascii.eqb c "-" = (code c =? 45).
Proof. apply eqb_code. Qed.

Lemma eqb_plus c : Ascii.eqb c "+" = (code c =? 43).
Proof. apply eqb_code. Qed.

Lemma code_range c : 0 <= code c < 256.
Proof. unfold code. pose proof (N_ascii_bounded c). lia. Qed.

Lemma code_chr z : 0 <= z < 256 → code (chr z) = z.
Proof.
  intros H. unfold code, chr. rewrite N_ascii_embedding; lia.
Qed.

(** The numeric value of a hexadecimal digit, and its characterisation. *)
Definition xval (c : ascii) : Z :=
  if is_digit c then code c - 48 else if is_lower c then code c - 87 else code c - 55.

Ltac char_cases :=
  unfold is_xdigit, is_digit, is_upper, is_lower, is_space in *;
  repeat match goal with
  | H : context [Z.leb ?a ?b] |- _ => destruct (Z.leb_spec a b); cbn in H
  | H : context [Z.eqb ?a ?b] |- _ => destruct (Z.eqb_spec a b); cbn in H
  | H : context [Z.ltb ?a ?b] |- _ => destruct (Z.ltb_spec a b); cbn in H
  | |- context [Z.leb ?a ?b] => destruct (Z.leb_spec a b); cbn
  | |- context [Z.eqb ?a ?b] => destruct (Z.eqb_spec a b); cbn
  | |- context [Z.ltb ?a ?b] => destruct (Z.ltb_spec a b); cbn
  end; try done; try lia.

Lemma digit_value_16 c : digit_value 16 c = if is_xdigit c then Some (xval c) else None.
Proof. unfold digit_value, xval. char_cases. Qed.

Lemma xval_range c : is_xdigit c = true → 0 <= xval c < 16.
Proof. unfold xval. intros H. char_cases. Qed.

Lemma hex_digit_is_xdigit d : 0 <= d < 16 → is_xdigit (hex_digit d) = true ∧ is_upper (hex_digit d) = false.
Proof.
  intros H. unfold hex_digit. destruct (Z.ltb_spec d 10);
    unfold is_xdigit, is_digit, is_upper; rewrite code_chr by lia; split; char_cases.
Qed.

Lemma xval_hex_digit d : 0 <= d < 16 → xval (hex_digit d) = d.
Proof.
  intros H. unfold xval, hex_digit. destruct (Z.ltb_spec d 10);
    unfold is_digit, is_lower; rewrite code_chr by lia; char_cases.
Qed.

Lemma hex_digit_xval c : is_xdigit c = true → is_upper c = false → hex_digit (xval c) = c.
Proof.
  intros Hx Hu. unfold hex_digit, xval. apply code_inj.
  pose proof (code_range c). char_cases; rewrite code_chr by lia; lia.
Qed.

Lemma xdigit_not_space c : is_xdigit c = true → is_space c = false.
Proof. intros H. char_cases. Qed.

Lemma space_not_xdigit c : is_space c = true → is_xdigit c = false.
Proof. intros H. char_cases. Qed.

Lemma xdigit_not_sign c : is_xdigit c = true → Ascii.eqb c "-" = false ∧ Ascii.eqb c "+" = false.
Proof. rewrite eqb_minus, eqb_plus. intros H. char_cases. Qed.

Lemma in_int32_spec z : in_int32 z = true ↔ int32_min <= z <= int32_max.
Proof. unfold in_int32. rewrite andb_true_iff, !Z.leb_le. done. Qed.

Lemma in_int64_spec z : in_int64 z = true ↔ int64_min <= z <= int64_max.
Proof. unfold in_int64. rewrite andb_true_iff, !Z.leb_le. done. Qed.

Ltac strto_fin := repeat first [done | lia | f_equal].

(** [std::stoi] on a two-character string in base 16, in closed form: a
    blank or a sign may stand in for the first digit. *)
Lemma strto_pair a b :
  strto 16 (String a (String b "")) =
    if is_xdigit a then
      if is_xdigit b then Some (16 * xval a + xval b, 2%nat) else Some (xval a, 1%nat)
    else if is_xdigit b then
      if is_space a || Ascii.eqb a "+" then Some (xval b, 2%nat)
      else if Ascii.eqb a "-" then Some (- xval b, 2%nat)
      else None
    else None.
Proof.
  unfold strto. cbn [skip_space scan_sign scan_prefix scan_digits].
  destruct (is_space a) eqn:Sa.
  - rewrite (space_not_xdigit a) by done.
    destruct (is_xdigit b) eqn:Xb.
    + rewrite (xdigit_not_space b) by done. cbn [scan_sign].
      destruct (xdigit_not_sign b Xb) as [-> ->].
      cbn -[Z.mul Z.add]. rewrite digit_value_16, Xb. strto_fin.
    + destruct (is_space b) eqn:Sb; cbn -[Z.mul Z.add]; [done|].
      destruct (Ascii.eqb b "-") eqn:?; cbn -[Z.mul Z.add]; [done|].
      destruct (Ascii.eqb b "+") eqn:?; cbn -[Z.mul Z.add]; [done|].
      rewrite digit_value_16, Xb. strto_fin.
  - cbn [scan_sign orb]. destruct (is_xdigit a) eqn:Xa.
    + assert (Ascii.eqb a "-" = false ∧ Ascii.eqb a "+" = false) as [-> ->]
        by (rewrite eqb_minus, eqb_plus; split; char_cases).
      cbn -[Z.mul Z.add]. rewrite digit_value_16, Xa. rewrite digit_value_16.
      destruct (is_xdigit b); cbn -[Z.mul Z.add]; strto_fin.
    + destruct (Ascii.eqb a "-") eqn:Ea; cbn -[Z.mul Z.add].
      * apply Ascii.eqb_eq in Ea as ->. cbn -[Z.mul Z.add].
        rewrite digit_value_16. destruct (is_xdigit b); cbn -[Z.mul Z.add]; [|done].
        strto_fin.
      * destruct (Ascii.eqb a "+") eqn:Ea'; cbn -[Z.mul Z.add]; rewrite digit_value_16.
        -- destruct (is_xdigit b); cbn -[Z.mul Z.add]; [|done]. strto_fin.
        -- rewrite Xa. by destruct (is_xdigit b).
Qed.

Lemma strto_pair_bound a b v pos :
  strto 16 (String a (String b "")) = Some (v, pos) → -16 < v < 256.
Proof.
  rewrite strto_pair. intros H.
  destruct (is_xdigit a) eqn:Xa, (is_xdigit b) eqn:Xb;
    try pose proof (xval_range a Xa); try pose proof (xval_range b Xb);
    repeat case_match; simplify_eq; lia.
Qed.

Lemma stoi_pair a b :
  stoi (String a (String b "")) 16 =
    match strto 16 (String a (String b "")) with
    | None => Throws invalid_argument
    | Some r => Done r
    end.
Proof.
  unfold stoi. destruct (strto _ _) as [[v pos]|] eqn:E; [|done].
  apply strto_pair_bound in E.
  rewrite (proj2 (in_int32_spec v)); [done|]. unfold int32_min, int32_max. lia.
Qed.

(** ** File names *)

Lemma split_last_dot_app s t a b :
  split_last_dot t = Some (a, b) → split_last_dot (s +:+ t) = Some (s +:+ a, b).
Proof.
  intros Ht. induction s as [|c s IH]; autorewrite with cxx; [done|]. cbn. by rewrite IH.
Qed.

Lemma split_last_dot_none t : string_forallb (λ c, negb (Ascii.eqb c ".")) t = true → split_last_dot t = None.
Proof.
  induction t as [|c t IH]; cbn; [done|]. rewrite andb_true_iff, negb_true_iff.
  intros [-> Ht]. by rewrite IH.
Qed.

(** A name of at least one character followed by an extension. *)
Lemma stem_extension_app s t :
  s ≠ "" → split_last_dot t = Some ("", t) → (String.length t > 1)%nat → stem_extension (s +:+ t) = (s, t).
Proof.
  intros Hs Ht Hl. unfold stem_extension.
  assert ((String.length (s +:+ t) > 2)%nat) as Hlen.
  { rewrite length_string_app. destruct s; [done|]. cbn. lia. }
  destruct (String.eqb_spec (s +:+ t) ".") as [E|_]; [rewrite E in Hlen; cbn in Hlen; lia|].
  destruct (String.eqb_spec (s +:+ t) "..") as [E|_]; [rewrite E in Hlen; cbn in Hlen; lia|].
  cbn [orb]. rewrite (split_last_dot_app _ _ _ _ Ht), append_empty_r. by destruct s.
Qed.
