(* ===== verification/Sha256.v ===== *)
(** * [nimbus::common::Sha256]

    Models [libs/common/src/sha256.cpp]. OpenSSL's EVP interface is not part
    of the repository: it is the parameter [Evp], and what the code relies on
    (a digest of 32 bytes that does not depend on how the input was split)
    is [EvpLaws]. *)

From S2P Require Import Prelude Result Cxx.

Local Open Scope Z_scope.

(** ** The EVP interface (parameter) *)

Class Evp := {
  evp_ctx : Type;
  EVP_MD_CTX_new : option evp_ctx;                       (** [None]: null *)
  EVP_DigestInit_ex : evp_ctx → option evp_ctx;          (** [None]: not 1 *)
  EVP_DigestUpdate : evp_ctx → list byte → option evp_ctx;
  EVP_DigestFinal_ex : evp_ctx → option (list byte)
}.

(** Feeding pieces one after the other. *)
Fixpoint evp_updates `{Evp} (c : evp_ctx) (pieces : list (list byte)) : option evp_ctx :=
  match pieces with
  | [] => Some c
  | p :: ps => c' ← EVP_DigestUpdate c p; evp_updates c' ps
  end.

Class EvpLaws `{Evp} := {
  (** None of the four calls fails. *)
  evp_new_init : ∃ c c0, EVP_MD_CTX_new = Some c ∧ EVP_DigestInit_ex c = Some c0;
  evp_update_total c p : is_Some (EVP_DigestUpdate c p);
  evp_final_total c : ∃ d, EVP_DigestFinal_ex c = Some d ∧ length d = 32%nat;
  (** The digest depends on the concatenation of the pieces only. *)
  evp_pieces c ps qs c1 c2 :
    evp_updates c ps = Some c1 → evp_updates c qs = Some c2 → concat ps = concat qs →
    EVP_DigestFinal_ex c1 = EVP_DigestFinal_ex c2
}.

Section Sha256.
Context `{Evp}.

(** ** The streaming object *)

Record Sha256 := MkSha256 { ctx : evp_ctx; finalized_ : bool }.

Definition Impl : outcome evp_ctx :=
  match EVP_MD_CTX_new with
  | None => Throws (runtime_error "Failed to create EVP_MD_CTX")
  | Some c =>
      match EVP_DigestInit_ex c with
      | None => Throws (runtime_error "Failed to init SHA256")
      | Some c0 => Done c0
      end
  end.

Definition Sha256_new : outcome Sha256 :=
  c ← Impl; Done (MkSha256 c false).

Definition Update (data : list byte) : M Sha256 unit := λ h,
  if finalized_ h then (Throws (logic_error "Called Update after Finalize"), h)
  else match data with
  | [] => (Done tt, h)
  | _ =>
      match EVP_DigestUpdate (ctx h) data with
      | None => (Throws (runtime_error "Failed to update SHA256"), h)
      | Some c => (Done tt, MkSha256 c (finalized_ h))
      end
  end.

Definition Finalize : M Sha256 (list byte) := λ h,
  if finalized_ h then (Throws (logic_error "Called Finalize twice"), h)
  else
    let h' := MkSha256 (ctx h) true in
    match EVP_DigestFinal_ex (ctx h) with
    | None => (Throws (runtime_error "Failed to finalize SHA256"), h')
    | Some digest => (Done digest, h')
    end.

Definition HashBytes (data : list byte) : outcome (list byte) :=
  hasher ← Sha256_new;
  ((Update data ≫= λ _, Finalize) hasher).1.

End Sha256.

(** ** Hexadecimal form *)

Inductive HashError := InvalidHexLength | InvalidHexCharacter.

Fixpoint ToHexString (digest : list byte) : string :=
  match digest with
  | [] => ""
  | b :: digest' => hex2 b +:+ ToHexString digest'
  end.

(** The loop over [i] with [n] iterations left. *)
Fixpoint FromHexLoop (hex : string) (i n : nat) : Result (list byte) HashError :=
  match n with
  | O => Ok []
  | S n' =>
      match (byte_str ← substr hex (i * 2) 2; stoi byte_str 16) with
      | Done (b, pos) =>
          if negb (pos =? 2)%nat then Err InvalidHexCharacter
          else match FromHexLoop hex (S i) n' with
               | Ok digest => Ok (byte_of_Z b :: digest)
               | Err e => Err e
               end
      | _ => Err InvalidHexCharacter
      end
  end.

Definition FromHexString (hex : string) : Result (list byte) HashError :=
  if negb (String.length hex =? 64)%nat then Err InvalidHexLength
  else FromHexLoop hex 0 32.

(** ** Reference decoder

    The value the loop assigns to one pair of characters, in closed form, and
    the decoder that consumes the string two characters at a time. *)

Definition pair_byte (a b : ascii) : option byte :=
  if is_xdigit b then
    if is_xdigit a then Some (byte_of_Z (16 * xval a + xval b))
    else if is_space a || Ascii.eqb a "+" then Some (byte_of_Z (xval b))
    else if Ascii.eqb a "-" then Some (byte_of_Z (- xval b))
    else None
  else None.

Fixpoint decode_pairs (s : string) : option (list byte) :=
  match s with
  | EmptyString => Some []
  | String a (String b s') =>
      v ← pair_byte a b; vs ← decode_pairs s'; Some (v :: vs)
  | String _ EmptyString => None
  end.

Lemma substr_pair pre a b s i :
  String.length pre = (i * 2)%nat →
  substr (pre +:+ String a (String b s)) (i * 2) 2 = Done (String a (String b "")).
Proof.
  intros Hl. unfold substr. rewrite length_string_app. cbn [String.length].
  destruct (Nat.ltb_spec (String.length pre + S (S (String.length s))) (i * 2)) as [?|_]; [lia|].
  rewrite <- Hl, substring_app_r. cbn. by destruct s.
Qed.

Lemma FromHexLoop_step pre a b s i n :
  String.length pre = (i * 2)%nat →
  FromHexLoop (pre +:+ String a (String b s)) i (S n) =
    match pair_byte a b with
    | None => Err InvalidHexCharacter
    | Some v =>
        match FromHexLoop (pre +:+ String a (String b s)) (S i) n with
        | Ok vs => Ok (v :: vs)
        | Err e => Err e
        end
    end.
Proof.
  intros Hl. cbn [FromHexLoop]. rewrite substr_pair by done.
  unfold mbind, outcome_bind. rewrite stoi_pair, strto_pair. unfold pair_byte.
  destruct (is_xdigit a) eqn:Xa, (is_xdigit b) eqn:Xb; cbn [negb Nat.eqb]; try done.
  destruct (is_space a || Ascii.eqb a "+"); cbn [negb Nat.eqb]; [done|].
  by destruct (Ascii.eqb a "-").
Qed.

Lemma FromHexLoop_decode n pre s i :
  String.length pre = (i * 2)%nat → String.length s = (n * 2)%nat →
  FromHexLoop (pre +:+ s) i n =
    match decode_pairs s with Some vs => Ok vs | None => Err InvalidHexCharacter end.
Proof.
  revert pre s i. induction n as [|n IH]; intros pre s i Hp Hs.
  - by destruct s.
  - destruct s as [|a [|b s]]; cbn in Hs; try lia.
    rewrite FromHexLoop_step by done. cbn [decode_pairs].
    destruct (pair_byte a b) as [v|]; cbn; [|done].
    specialize (IH (pre +:+ String a (String b "")) s (S i)).
    rewrite append_assoc in IH. autorewrite with cxx in IH.
    rewrite length_string_app in IH. cbn in IH.
    rewrite IH by lia. by destruct (decode_pairs s).
Qed.

Lemma FromHexString_eq s :
  FromHexString s =
    if (String.length s =? 64)%nat
    then match decode_pairs s with Some vs => Ok vs | None => Err InvalidHexCharacter end
    else Err InvalidHexLength.
Proof.
  unfold FromHexString. destruct (Nat.eqb_spec (String.length s) 64) as [Hl|]; cbn; [|done].
  apply (FromHexLoop_decode 32 "" s 0); done.
Qed.

(** ** Encoding and decoding *)

Lemma byte_div_mod b : (0 ≤ byte_to_Z b / 16 < 16) ∧ (0 ≤ byte_to_Z b `mod` 16 < 16).
Proof.
  pose proof (byte_to_Z_range b). split.
  - split; [apply Z.div_pos|apply Z.div_lt_upper_bound]; lia.
  - apply Z.mod_pos_bound. lia.
Qed.

Lemma pair_byte_hex2 b :
  pair_byte (hex_digit (byte_to_Z b / 16)) (hex_digit (byte_to_Z b `mod` 16)) = Some b.
Proof.
  destruct (byte_div_mod b) as [Hh Hl]. unfold pair_byte.
  rewrite (proj1 (hex_digit_is_xdigit _ Hh)), (proj1 (hex_digit_is_xdigit _ Hl)).
  rewrite !xval_hex_digit by done.
  rewrite <- Z.div_mod by lia. by rewrite byte_of_to_Z.
Qed.

Lemma decode_ToHexString digest : decode_pairs (ToHexString digest) = Some digest.
Proof.
  induction digest as [|b digest IH]; [done|].
  cbn [ToHexString hex2]. unfold hex2. autorewrite with cxx.
  cbn [decode_pairs]. rewrite pair_byte_hex2, IH. done.
Qed.

Lemma ToHexString_inj d d' : ToHexString d = ToHexString d' → d = d'.
Proof.
  intros Heq. assert (Some d = Some d') as [= ->]; [|done].
  by rewrite <- (decode_ToHexString d), <- (decode_ToHexString d'), Heq.
Qed.

Lemma length_ToHexString digest : String.length (ToHexString digest) = (2 * length digest)%nat.
Proof.
  induction digest as [|b digest IH]; [done|].
  cbn [ToHexString]. rewrite length_string_app, IH. cbn. lia.
Qed.

(** Lower-case hexadecimal digits only. *)
Definition is_lower_xdigit (c : ascii) : bool := is_xdigit c && negb (is_upper c).

Lemma hex2_lower b : string_forallb is_lower_xdigit (hex2 b) = true.
Proof.
  destruct (byte_div_mod b) as [Hh Hl]. unfold hex2, is_lower_xdigit. cbn [string_forallb].
  destruct (hex_digit_is_xdigit _ Hh) as [-> ->], (hex_digit_is_xdigit _ Hl) as [-> ->]. done.
Qed.

Lemma ToHexString_lower digest : string_forallb is_lower_xdigit (ToHexString digest) = true.
Proof.
  induction digest as [|b digest IH]; [done|].
  cbn [ToHexString]. by rewrite string_forallb_app, hex2_lower, IH.
Qed.

Lemma pair_byte_lower a b :
  is_lower_xdigit a = true → is_lower_xdigit b = true →
  ∃ v, pair_byte a b = Some v ∧ hex2 v = String a (String b "").
Proof.
  unfold is_lower_xdigit. rewrite !andb_true_iff, !negb_true_iff. intros [Xa La] [Xb Lb].
  unfold pair_byte. rewrite Xa, Xb. eexists; split; [done|]. unfold hex2.
  pose proof (xval_range a Xa). pose proof (xval_range b Xb).
  rewrite byte_to_of_Z, (Z.mod_small _ 256) by lia.
  rewrite <- (Z.div_unique_pos (16 * xval a + xval b) 16 (xval a) (xval b)) by lia.
  rewrite <- (Z.mod_unique_pos (16 * xval a + xval b) 16 (xval a) (xval b)) by lia.
  by rewrite !hex_digit_xval by done.
Qed.

(** On lower-case hexadecimal strings the decoder inverts [ToHexString]. *)
Lemma decode_pairs_lower n s :
  String.length s = (n * 2)%nat → string_forallb is_lower_xdigit s = true →
  ∃ vs, decode_pairs s = Some vs ∧ length vs = n ∧ ToHexString vs = s.
Proof.
  revert s. induction n as [|n IH]; intros s Hl Hx.
  - destruct s; [|done]. by exists [].
  - destruct s as [|a [|b s]]; cbn in Hl; try lia.
    cbn [string_forallb] in Hx. rewrite !andb_true_iff in Hx. destruct Hx as (Ha & Hb & Hs).
    destruct (pair_byte_lower a b Ha Hb) as (v & Ev & Hv).
    destruct (IH s) as (vs & Evs & Hlen & Hhex); [lia|done|].
    exists (v :: vs). cbn [decode_pairs ToHexString]. rewrite Ev, Evs, Hv, Hhex. cbn.
    split; [done|]. split; [by rewrite Hlen|]. by autorewrite with cxx.
Qed.

(** ** Properties of the hexadecimal form *)

(** Encoding a 32-byte digest and decoding it again gives the digest
    back. *)
Theorem FromHexString_ToHexString (digest : list byte) :
  length digest = 32%nat → FromHexString (ToHexString digest) = Ok digest.
Proof.
  intros Hl. rewrite FromHexString_eq, length_ToHexString, Hl, decode_ToHexString. done.
Qed.

Lemma FromHexString_ToHexString_witness :
  FromHexString (ToHexString (replicate 32 xab)) = Ok (replicate 32 xab).
Proof. apply FromHexString_ToHexString. reflexivity. Defined.

(** What [FromHexString] accepts. The loop over [std::stoi] is the
    decoder that reads the string two characters at a time, and the two
    characters of a pair are two hexadecimal digits of either case, or a
    blank or a sign followed by one hexadecimal digit, the minus sign
    negating it modulo 256. Everything else is [InvalidHexCharacter], and a
    length other than 64 is [InvalidHexLength]. *)
Theorem FromHexString_accepts (s : string) :
  FromHexString s =
    (if (String.length s =? 64)%nat
     then match decode_pairs s with Some vs => Ok vs | None => Err InvalidHexCharacter end
     else Err InvalidHexLength)
  ∧ ∀ a b, pair_byte a b =
      if is_xdigit b then
        if is_xdigit a then Some (byte_of_Z (16 * xval a + xval b))
        else if is_space a || Ascii.eqb a "+" then Some (byte_of_Z (xval b))
        else if Ascii.eqb a "-" then Some (byte_of_Z (- xval b))
        else None
      else None.
Proof. split; [apply FromHexString_eq|done]. Qed.

Fixpoint string_repeat (n : nat) (s : string) : string :=
  match n with O => "" | S n' => s +:+ string_repeat n' s end.

(** Strings that are not hexadecimal are accepted: 32 times a blank and
    a digit, or 32 times [-1], decode without an error. *)
Theorem FromHexString_accepts_non_hex :
  FromHexString (string_repeat 32 " 7") = Ok (replicate 32 x07) ∧
  FromHexString (string_repeat 32 "-1") = Ok (replicate 32 xff) ∧
  string_forallb is_xdigit (string_repeat 32 " 7") = false ∧
  string_forallb is_xdigit (string_repeat 32 "-1") = false.
Proof. repeat split; vm_compute; reflexivity. Qed.

(** ** Properties of the streaming object *)

Section Streaming.
Context `{EvpLaws}.

Fixpoint Updates (pieces : list (list byte)) : M Sha256 unit :=
  match pieces with
  | [] => mret tt
  | p :: ps => Update p ≫= λ _, Updates ps
  end.

(** A fresh hasher, the pieces one after the other, then [Finalize]. *)
Definition HashPieces (pieces : list (list byte)) : outcome (list byte) :=
  hasher ← Sha256_new; ((Updates pieces ≫= λ _, Finalize) hasher).1.

(** [Update] returns early on an empty span; no piece it hands on is empty. *)
Definition non_empty (pieces : list (list byte)) : list (list byte) :=
  filter (λ p, p ≠ []) pieces.

Lemma concat_non_empty ps : concat (non_empty ps) = concat ps.
Proof.
  induction ps as [|p ps IH]; [done|]. unfold non_empty in *. rewrite filter_cons.
  case_decide as Hp; cbn; [by rewrite IH|].
  assert (p = []) as -> by (destruct p; naive_solver). done.
Qed.

Lemma evp_updates_total c ps : is_Some (evp_updates c ps).
Proof.
  revert c. induction ps as [|p ps IH]; intros c; cbn; [by eexists|].
  destruct (evp_update_total c p) as [c' ->]. cbn. apply IH.
Qed.

Lemma Updates_run ps c c' :
  evp_updates c (non_empty ps) = Some c' →
  Updates ps (MkSha256 c false) = (Done tt, MkSha256 c' false).
Proof.
  revert c. induction ps as [|p ps IH]; intros c Hc.
  - unfold non_empty in Hc. cbn in *. by simplify_eq.
  - unfold non_empty in *. rewrite filter_cons in Hc. cbn [Updates]. unfold mbind, M_bind.
    case_decide as Hp.
    + cbn in Hc. destruct (EVP_DigestUpdate c p) as [c1|] eqn:E; cbn in Hc; [|done].
      assert (Update p (MkSha256 c false) = (Done tt, MkSha256 c1 false)) as ->.
      { unfold Update. cbn. destruct p; [done|]. by rewrite E. }
      by apply IH.
    + assert (p = []) as -> by (destruct p; naive_solver). cbn. by apply IH.
Qed.

Lemma HashPieces_done ps :
  ∃ c0 c1 d, Impl = Done c0 ∧ evp_updates c0 (non_empty ps) = Some c1 ∧
    EVP_DigestFinal_ex c1 = Some d ∧ length d = 32%nat ∧ HashPieces ps = Done d.
Proof.
  destruct evp_new_init as (c & c0 & Hn & Hi).
  destruct (evp_updates_total c0 (non_empty ps)) as [c1 Hc1].
  destruct (evp_final_total c1) as (d & Hd & Hl).
  exists c0, c1, d.
  assert (Impl = Done c0) as HI by (unfold Impl; by rewrite Hn, Hi).
  split_and!; try done. unfold HashPieces, Sha256_new. rewrite HI. cbn.
  rewrite (M_bind_done _ _ _ _ _ (Updates_run _ _ _ Hc1)).
  unfold Finalize. cbn. by rewrite Hd.
Qed.

Lemma HashBytes_pieces data : HashBytes data = HashPieces [data].
Proof.
  unfold HashBytes, HashPieces. destruct Sha256_new as [h| | |]; cbn; try done.
  unfold mbind, M_bind. by destruct (Update data h) as [[] ?].
Qed.

Lemma HashBytes_done data : ∃ d, HashBytes data = Done d ∧ length d = 32%nat.
Proof.
  rewrite HashBytes_pieces. destruct (HashPieces_done [data]) as (? & ? & d & ? & ? & ? & ? & ?).
  eauto.
Qed.

(** C37: Chunking independence. A fresh hasher fed any pieces, empty ones
    included, and finalised returns a digest of 32 bytes, the one [HashBytes]
    computes for the concatenation of the pieces. *)
Theorem Update_chunking (pieces : list (list byte)) :
  ∃ d, HashPieces pieces = Done d ∧ length d = 32%nat ∧ HashBytes (concat pieces) = Done d.
Proof.
  destruct (HashPieces_done pieces) as (c0 & c1 & d & HI & Hu & Hd & Hl & Hr).
  destruct (HashPieces_done [concat pieces]) as (c0' & c1' & d' & HI' & Hu' & Hd' & Hl' & Hr').
  rewrite HI in HI'. simplify_eq.
  exists d. split_and!; try done. rewrite HashBytes_pieces, Hr'. f_equal.
  assert (Some d' = Some d); [|by simplify_eq].
  rewrite <- Hd, <- Hd'. eapply evp_pieces; eauto. rewrite !concat_non_empty. cbn. by rewrite app_nil_r.
Qed.

(** The object cannot be used after [Finalize]: [Update], even with an
    empty span, and a second [Finalize] throw [std::logic_error] and leave it
    unchanged. *)
Theorem Finalize_once (h : Sha256) (data : list byte) :
  let h' := (Finalize h).2 in
  finalized_ h' = true ∧
  Update data h' = (Throws (logic_error "Called Update after Finalize"), h') ∧
  Finalize h' = (Throws (logic_error "Called Finalize twice"), h').
Proof.
  assert (finalized_ (Finalize h).2 = true) as Hf.
  { unfold Finalize. destruct (finalized_ h) eqn:E; cbn; [done|].
    by destruct (EVP_DigestFinal_ex (ctx h)). }
  cbn zeta. generalize dependent (Finalize h).2. intros h' Hf.
  unfold Update, Finalize. by rewrite Hf.
Qed.

End Streaming.

(** ** A concrete EVP for the witnesses: the digest is the input cut or
    padded to 32 bytes. *)

Definition toy_digest (data : list byte) : list byte := take 32 (data ++ replicate 32 x00).

Definition toy_evp : Evp :=
  {| evp_ctx := list byte;
     EVP_MD_CTX_new := Some [];
     EVP_DigestInit_ex c := Some [];
     EVP_DigestUpdate c p := Some (c ++ p);
     EVP_DigestFinal_ex c := Some (toy_digest c) |}.

Lemma toy_updates c ps : @evp_updates toy_evp c ps = Some (c ++ concat ps).
Proof.
  revert c. induction ps as [|p ps IH]; intros c; cbn.
  - by rewrite app_nil_r.
  - rewrite IH. by rewrite app_assoc.
Qed.

Lemma toy_digest_length data : length (toy_digest data) = 32%nat.
Proof. unfold toy_digest. rewrite length_take, length_app, length_replicate. lia. Qed.

Lemma toy_evp_laws : @EvpLaws toy_evp.
Proof.
  split.
  - exists [], []. done.
  - intros c p. by eexists.
  - intros c. exists (toy_digest c). split; [done|]. apply toy_digest_length.
  - intros c ps qs c1 c2 H1 H2 Heq. rewrite toy_updates in H1, H2. simplify_eq. by rewrite Heq.
Qed.

Lemma Update_chunking_witness :
  ∃ d, @HashPieces toy_evp [[x61; x62]; []; [x63]] = Done d ∧ length d = 32%nat ∧
       @HashBytes toy_evp [x61; x62; x63] = Done d.
Proof. exact (@Update_chunking toy_evp toy_evp_laws [[x61; x62]; []; [x63]]). Defined.
