(* ===== verification/ChunkId.v ===== *)
(** * [nimbus::storage_node::ChunkId]

    Models [services/storage_node/src/chunk_id.cpp]: the validated wrapper
    around the 64-character lower-case hexadecimal form of a SHA-256 digest.
    The constructor is private, so every value comes from [Parse] or
    [FromDigest]; [valid] is the class invariant both establish. *)

From S2P Require Import Prelude Result Cxx Sha256.

Local Open Scope Z_scope.

Module ChunkId.

Inductive ParseError := WrongLength | InvalidHexCharacter | NotLowercase.

#[global] Instance ParseError_eq_dec : EqDecision ParseError.
Proof. solve_decision. Defined.

Record t := Mk { digest_ : list byte; hex_ : string }.

#[global] Instance t_eq_dec : EqDecision t.
Proof. solve_decision. Defined.

Definition ToHexString (id : t) : string := hex_ id.
Definition RawDigest (id : t) : list byte := digest_ id.

(** The loop over the characters: the first offending one decides. *)
Fixpoint check_chars (s : string) : Result unit ParseError :=
  match s with
  | EmptyString => Ok tt
  | String c s' =>
      if negb (is_xdigit c) then Err InvalidHexCharacter
      else if is_upper c then Err NotLowercase
      else check_chars s'
  end.

Definition Parse (hex_string : string) : Result t ParseError :=
  if negb (String.length hex_string =? 64)%nat then Err WrongLength
  else match check_chars hex_string with
  | Err e => Err e
  | Ok _ =>
      match FromHexString hex_string with
      | Err _ => Err InvalidHexCharacter
      | Ok digest => Ok (Mk digest hex_string)
      end
  end.

Definition FromDigest (digest : list byte) : t := Mk digest (Sha256.ToHexString digest).

(** [size_t] is 64 bits: the shift drops what leaves the word. *)
Definition hash_step (hash_val : Z) (b : byte) : Z :=
  Z.lor (wrap64 (Z.shiftl hash_val 8)) (byte_to_Z b).

Definition Hash (id : t) : Z := fold_left hash_step (take 8 (RawDigest id)) 0.

(** ** Class invariant *)

Definition valid (id : t) : Prop :=
  length (digest_ id) = 32%nat ∧ hex_ id = Sha256.ToHexString (digest_ id).

#[global] Instance valid_dec id : Decision (valid id).
Proof. unfold valid. apply _. Defined.

Lemma valid_hex_length id : valid id → String.length (hex_ id) = 64%nat.
Proof. intros [Hl ->]. by rewrite length_ToHexString, Hl. Qed.

Lemma valid_hex_lower id : valid id → string_forallb is_lower_xdigit (hex_ id) = true.
Proof. intros [_ ->]. apply ToHexString_lower. Qed.

(** The hexadecimal form identifies a chunk. *)
Lemma valid_hex_inj id id' : valid id → valid id' → hex_ id = hex_ id' → id = id'.
Proof.
  destruct id as [d h], id' as [d' h']. intros [Hl Hh] [Hl' Hh'] Heq. cbn in *. subst.
  apply ToHexString_inj in Heq as ->. done.
Qed.

Lemma check_chars_ok s :
  check_chars s = Ok tt ↔ string_forallb is_lower_xdigit s = true.
Proof.
  induction s as [|c s IH]; cbn; [done|]. unfold is_lower_xdigit at 1.
  destruct (is_xdigit c), (is_upper c); cbn; naive_solver.
Qed.

Lemma check_chars_err s e :
  check_chars s = Err e ↔
    ∃ pre c post, s = pre +:+ String c post ∧ string_forallb is_lower_xdigit pre = true ∧
      ((e = InvalidHexCharacter ∧ is_xdigit c = false) ∨
       (e = NotLowercase ∧ is_xdigit c = true ∧ is_upper c = true)).
Proof.
  induction s as [|c s IH]; cbn [check_chars].
  - split; [done|]. intros (pre & c & post & Hs & _). by destruct pre.
  - split.
    + intros H. destruct (is_xdigit c) eqn:Xc; cbn in H.
      * destruct (is_upper c) eqn:Uc.
        -- simplify_eq. exists "", c, s. naive_solver.
        -- apply IH in H as (pre & c' & post & -> & Hpre & H).
           exists (String c pre), c', post. autorewrite with cxx. split; [done|].
           split; [|done]. cbn. unfold is_lower_xdigit at 1. by rewrite Xc, Uc, Hpre.
      * simplify_eq. exists "", c, s. naive_solver.
    + intros ([|c0 pre] & c' & post & Hs & Hpre & H).
      * autorewrite with cxx in Hs. simplify_eq.
        destruct H as [[-> Xc]|(-> & Xc & Uc)]; rewrite Xc; cbn; [done|]. by rewrite Uc.
      * autorewrite with cxx in Hs. simplify_eq. cbn in Hpre.
        unfold is_lower_xdigit at 1 in Hpre. rewrite !andb_true_iff, negb_true_iff in Hpre.
        destruct Hpre as [[Xc Uc] Hpre]. rewrite Xc, Uc. cbn. apply IH. eauto 10.
Qed.

Lemma check_chars_unit s (u : unit) : check_chars s = Ok u → check_chars s = Ok tt.
Proof. by destruct u. Qed.

Lemma Parse_ok s id : Parse s = Ok id ↔ valid id ∧ hex_ id = s.
Proof.
  unfold Parse. destruct (Nat.eqb_spec (String.length s) 64) as [Hl|Hl]; cbn.
  - destruct (check_chars s) as [u|e] eqn:Ec.
    + apply check_chars_unit, check_chars_ok in Ec.
      destruct (decode_pairs_lower 32 s Hl Ec) as (vs & Hd & Hlen & Hhex).
      rewrite FromHexString_eq, Hl, Hd. cbn. split.
      * intros [= <-]. by repeat split.
      * intros [Hv <-]. destruct id as [d h]. destruct Hv as [Hv1 Hv2]. cbn in *. subst h.
        by apply ToHexString_inj in Hv2 as ->.
    + split; [done|]. intros [Hv <-]. apply valid_hex_lower, check_chars_ok in Hv. congruence.
  - split; [done|]. intros [Hv <-]. apply valid_hex_length in Hv. lia.
Qed.

Lemma FromDigest_valid digest : length digest = 32%nat → valid (FromDigest digest).
Proof. by split. Qed.

(** ** The hash functor *)

Definition be_value (bs : list byte) : Z := fold_left (λ h b, h * 256 + byte_to_Z b) bs 0.

Lemma hash_step_eq h b : 0 <= h < 2 ^ 56 → hash_step h b = h * 256 + byte_to_Z b.
Proof.
  intros Hh. unfold hash_step. pose proof (byte_to_Z_range b).
  rewrite Z.shiftl_mul_pow2 by lia. rewrite wrap64_small by lia.
  change (2 ^ 8) with 256. by rewrite lor_add_256.
Qed.

Lemma fold_hash_step bs h k :
  0 <= h < 2 ^ (8 * k) → 0 <= k → k + Z.of_nat (length bs) <= 8 →
  fold_left hash_step bs h = fold_left (λ h b, h * 256 + byte_to_Z b) bs h
  ∧ 0 <= fold_left hash_step bs h < 2 ^ (8 * (k + Z.of_nat (length bs))).
Proof.
  revert h k. induction bs as [|b bs IH]; intros h k Hh Hk Hlen.
  - cbn [fold_left length Z.of_nat]. split; [done|]. by rewrite Z.add_0_r.
  - cbn [fold_left length] in *. rewrite Nat2Z.inj_succ in *.
    assert (2 ^ (8 * k) <= 2 ^ 56) by (apply Z.pow_le_mono_r; lia).
    rewrite hash_step_eq by lia. pose proof (byte_to_Z_range b).
    assert (2 ^ (8 * (k + 1)) = 2 ^ (8 * k) * 256) as Hp.
    { replace (8 * (k + 1)) with (8 * k + 8) by lia. rewrite Z.pow_add_r by lia. done. }
    destruct (IH (h * 256 + byte_to_Z b) (k + 1)) as [IH1 IH2]; [lia|lia|lia|].
    split; [done|]. replace (k + Z.succ (Z.of_nat (length bs))) with (k + 1 + Z.of_nat (length bs)) by lia.
    done.
Qed.

Lemma Hash_be id : Hash id = be_value (take 8 (digest_ id)) ∧ 0 <= Hash id < 2 ^ 64.
Proof.
  unfold Hash, be_value, RawDigest.
  destruct (fold_hash_step (take 8 (digest_ id)) 0 0) as [H1 H2]; [lia|lia| |].
  - rewrite length_take. lia.
  - split; [done|]. split; [lia|]. eapply Z.lt_le_trans; [apply H2|].
    apply Z.pow_le_mono_r; [lia|]. rewrite length_take. lia.
Qed.

Lemma be_value_snoc bs b : be_value (bs ++ [b]) = be_value bs * 256 + byte_to_Z b.
Proof. unfold be_value. by rewrite fold_left_app. Qed.

Lemma Hash_low_byte id b : digest_ id !! 7%nat = Some b → Hash id `mod` 256 = byte_to_Z b.
Proof.
  intros Hb. rewrite (proj1 (Hash_be id)), (take_S_r _ _ _ Hb), be_value_snoc.
  rewrite Z.add_comm, Z.mod_add by lia. apply Z.mod_small, byte_to_Z_range.
Qed.

(** ** Properties *)

(** C25: [Parse] accepts exactly the hexadecimal forms of valid identifiers.
    It returns [id] on [s] if and only if [id] satisfies the class invariant
    (32 digest bytes whose lower-case hexadecimal form is [hex_]) and [s] is
    that form; so [Parse] inverts [ToHexString], and what it returns prints
    back as its input. *)
Theorem Parse_iff (s : string) (id : t) :
  Parse s = Ok id ↔ valid id ∧ ToHexString id = s.
Proof. apply Parse_ok. Qed.

(** Every error of [Parse]. A length other than 64 is [WrongLength];
    otherwise the first character that is not a lower-case hexadecimal digit
    decides: [NotLowercase] when it is one of [A]..[F], [InvalidHexCharacter]
    when it is no hexadecimal digit. The decoder behind [Parse] never
    fails. *)
Theorem Parse_error (s : string) (e : ParseError) :
  Parse s = Err e ↔
    if (String.length s =? 64)%nat then
      ∃ pre c post, s = pre +:+ String c post ∧ string_forallb is_lower_xdigit pre = true ∧
        ((e = InvalidHexCharacter ∧ is_xdigit c = false) ∨
         (e = NotLowercase ∧ is_xdigit c = true ∧ is_upper c = true))
    else e = WrongLength.
Proof.
  unfold Parse. destruct (Nat.eqb_spec (String.length s) 64) as [Hl|Hl]; cbn; [|naive_solver].
  rewrite <- check_chars_err. destruct (check_chars s) as [u|e'] eqn:Ec; [|naive_solver].
  apply check_chars_unit, check_chars_ok in Ec.
  destruct (decode_pairs_lower 32 s Hl Ec) as (vs & Hd & _).
  by rewrite FromHexString_eq, Hl, Hd.
Qed.

(** The hash is the big-endian value of the first eight digest bytes,
    a [size_t] with no bit lost in the shifts. *)
Theorem Hash_value (id : t) :
  Hash id = be_value (take 8 (RawDigest id)) ∧ 0 <= Hash id < 2 ^ 64.
Proof. apply Hash_be. Qed.

(** ** Witnesses *)

Definition sample : t := FromDigest (replicate 32 xab).

End ChunkId.
