(* ===== verification/Time.v ===== *)
(** * Clocks, leases and protocol versions

    Models [libs/common/src/clock.cpp], [lease.cpp] and
    [protocol_version.cpp]. A [system_clock] time point or duration is a
    64-bit signed count of nanoseconds; an addition that leaves the range is
    undefined behaviour in C++, so the arithmetic is partial: [None] is
    "undefined". *)

From S2P Require Import Prelude Result.

Local Open Scope Z_scope.

Definition duration_add (a b : Z) : option Z :=
  if in_int64 (a + b) then Some (a + b) else None.

Lemma duration_add_some a b : in_int64 (a + b) = true → duration_add a b = Some (a + b).
Proof. unfold duration_add. by intros ->. Qed.

(** ** [FakeClock] *)

Module FakeClock.

Record t := Mk { current_ : Z }.

Definition Now (c : t) : Z := current_ c.
Definition Advance (c : t) (by_ : Z) : option t := Mk <$> duration_add (current_ c) by_.
Definition SetTo (c : t) (when : Z) : t := Mk when.

(** Advancing step by step. *)
Fixpoint AdvanceAll (c : t) (steps : list Z) : option t :=
  match steps with
  | [] => Some c
  | d :: ds => c' ← Advance c d; AdvanceAll c' ds
  end.

End FakeClock.

(** ** [Lease] *)

Module Lease.

Record t := Mk { issued_at_ : Z; ttl_ : Z }.

Definition IssueNow (ttl now : Z) : t := Mk now ttl.

Definition IssuedAt (l : t) : Z := issued_at_ l.
Definition ExpiresAt (l : t) : option Z := duration_add (issued_at_ l) (ttl_ l).

(** [now > issued_at_ + ttl_ + clock_skew_tolerance], summed left to right. *)
Definition IsExpired (l : t) (now clock_skew_tolerance : Z) : option bool :=
  e ← duration_add (issued_at_ l) (ttl_ l);
  e' ← duration_add e clock_skew_tolerance;
  Some (e' <? now).

End Lease.

(** ** [CheckProtocolVersion] *)

Definition kCurrentProtocolVersion : Z := 1.

Inductive ProtocolVersionError := Unsupported.

Definition CheckProtocolVersion (received_version min_supported max_supported : Z) :
  Result unit ProtocolVersionError :=
  if (received_version <? min_supported) || (max_supported <? received_version)
  then Err Unsupported else Ok tt.

Lemma CheckProtocolVersion_ok v lo hi :
  CheckProtocolVersion v lo hi = Ok tt ↔ lo <= v <= hi.
Proof.
  unfold CheckProtocolVersion.
  destruct (Z.ltb_spec v lo), (Z.ltb_spec hi v); cbn; split; intros; try done; lia.
Qed.

Lemma CheckProtocolVersion_current v :
  IsOk (CheckProtocolVersion v kCurrentProtocolVersion kCurrentProtocolVersion) =
  bool_decide (v = kCurrentProtocolVersion).
Proof.
  case_bool_decide as E.
  - subst. done.
  - apply not_true_is_false. rewrite IsOk_true. intros [[] H].
    apply CheckProtocolVersion_ok in H. unfold kCurrentProtocolVersion in *. lia.
Qed.

(** ** Properties *)

(** A lease issued on a clock. When the clock is advanced by any steps
    and no sum leaves the 64-bit range, [IsExpired] holds exactly when the
    time passed since the issue exceeds [ttl + tolerance]; at the boundary
    itself the lease is still valid, and once expired it stays expired under
    further non-negative steps. *)
Theorem IsExpired_on_clock (ttl tol : Z) (c c1 c2 : FakeClock.t) (ds es : list Z) :
  in_int64 (FakeClock.Now c + ttl) = true →
  in_int64 (FakeClock.Now c + ttl + tol) = true →
  FakeClock.AdvanceAll c ds = Some c1 → FakeClock.AdvanceAll c1 es = Some c2 →
  Forall (λ d, 0 <= d) es →
  let l := Lease.IssueNow ttl (FakeClock.Now c) in
  Lease.IsExpired l (FakeClock.Now c1) tol = Some (ttl + tol <? foldr Z.add 0 ds) ∧
  (Lease.IsExpired l (FakeClock.Now c1) tol = Some true →
   Lease.IsExpired l (FakeClock.Now c2) tol = Some true).
Proof.
  assert (∀ xs a b, FakeClock.AdvanceAll a xs = Some b →
            FakeClock.Now b = FakeClock.Now a + foldr Z.add 0 xs) as Hadv.
  { induction xs as [|x xs IH]; intros a b Hab; cbn in *; simplify_eq; [lia|].
    unfold FakeClock.Advance, duration_add in Hab.
    destruct (in_int64 _); cbn in Hab; [|done]. apply IH in Hab as ->. unfold FakeClock.Now. cbn. lia. }
  intros H1 H2 Hc1 Hc2 Hpos. cbn. unfold Lease.IsExpired, Lease.IssueNow. cbn.
  rewrite (duration_add_some _ _ H1). cbn. rewrite (duration_add_some _ _ H2). cbn.
  rewrite (Hadv _ _ _ Hc2), (Hadv _ _ _ Hc1).
  assert (0 <= foldr Z.add 0 es) by (clear -Hpos; induction Hpos; cbn; lia).
  split.
  - f_equal. destruct (Z.ltb_spec (ttl + tol) (foldr Z.add 0 ds)) as [?|?];
      [apply Z.ltb_lt|apply Z.ltb_ge]; lia.
  - intros [= Hlt]. apply Z.ltb_lt in Hlt. f_equal. apply Z.ltb_lt. lia.
Qed.

Lemma IsExpired_on_clock_witness :
  let l := Lease.IssueNow 10 100 in
  Lease.IsExpired l 112 2 = Some (10 + 2 <? 5 + (7 + 0)) ∧
  (Lease.IsExpired l 112 2 = Some true → Lease.IsExpired l 113 2 = Some true).
Proof.
  apply (IsExpired_on_clock 10 2 (FakeClock.Mk 100) (FakeClock.Mk 112) (FakeClock.Mk 113) [5; 7] [1]);
    [reflexivity..|]. repeat constructor; lia.
Defined.

(** [IsExpired] and [ExpiresAt] are defined exactly when the sums they
    form stay in the signed 64-bit range; in particular a lease with the
    largest duration as its time to live, issued after the epoch, has no
    defined expiry. *)
Theorem IsExpired_defined (l : Lease.t) (now tol : Z) :
  (is_Some (Lease.IsExpired l now tol) ↔
     in_int64 (Lease.issued_at_ l + Lease.ttl_ l) = true ∧
     in_int64 (Lease.issued_at_ l + Lease.ttl_ l + tol) = true) ∧
  (is_Some (Lease.ExpiresAt l) ↔ in_int64 (Lease.issued_at_ l + Lease.ttl_ l) = true) ∧
  Lease.ExpiresAt (Lease.IssueNow int64_max 1) = None.
Proof.
  unfold Lease.IsExpired, Lease.ExpiresAt, duration_add. split_and!; [| |done].
  - destruct (in_int64 (_ + Lease.ttl_ l)); cbn; [|split; [by intros []|naive_solver]].
    destruct (in_int64 _); cbn; split; try naive_solver; by intros [].
  - destruct (in_int64 _); split; try naive_solver; by intros [].
Qed.
