(* ===== verification/Logger.v ===== *)
(** * Logging, correlation ids and UUIDs

    Models [libs/common/src/logger.cpp] and [uuid.cpp]. What spdlog does with
    a message (filtering by level, patterns, files) is not part of the
    repository: the model records the calls made to it, in order. The UUID
    generator of [stduuid] is the parameter [uuid_at]: the n-th UUID drawn. *)

From S2P Require Import Prelude Cxx.

Module LogLevel.
Inductive t := Trace | Debug | Info | Warn | Error | Critical.
End LogLevel.

(** spdlog's level enumeration, as far as the code names it. *)
Inductive spdlog_level := spd_trace | spd_debug | spd_info | spd_warn | spd_err | spd_critical.

Definition ToSpdlogLevel (level : LogLevel.t) : spdlog_level :=
  match level with
  | LogLevel.Trace => spd_trace
  | LogLevel.Debug => spd_debug
  | LogLevel.Info => spd_info
  | LogLevel.Warn => spd_warn
  | LogLevel.Error => spd_err
  | LogLevel.Critical => spd_critical
  end.

Record LogField := { key : string; value : string }.

Record LoggerConfig := {
  component_name : string;
  log_directory : string;
  level : LogLevel.t;
  rotation_max_bytes : Z;
  rotation_max_files : Z
}.

(** The member initialisers of [LoggerConfig]. *)
Definition default_config (name : string) : LoggerConfig :=
  {| component_name := name; log_directory := ""; level := LogLevel.Info;
     rotation_max_bytes := 100 * 1024 * 1024; rotation_max_files := 5 |}.

(** ** The constructor *)

Inductive Sink :=
  | stdout_color_sink_mt
  | rotating_file_sink_mt (file : string) (max_bytes max_files : Z).

Record spd_logger := {
  spd_name : string;
  spd_sinks : list Sink;
  spd_pattern : string;
  spd_level : spdlog_level
}.

(** [Logger::Impl]; [None]: a null pointer. *)
Record Impl := {
  op_logger : option spd_logger;
  audit_logger : option spd_logger;
  impl_component_name : string
}.

Definition file_sink (config : LoggerConfig) (name : string) : Sink :=
  rotating_file_sink_mt (path_append (log_directory config) name)
    (rotation_max_bytes config) (rotation_max_files config).

(** The directories the constructor creates and the object it builds. *)
Definition Logger_new (config : LoggerConfig) : list string * Impl :=
  let has_dir := negb (String.eqb (log_directory config) "") in
  let op_sinks :=
    stdout_color_sink_mt ::
    (if has_dir then [file_sink config (component_name config +:+ ".log")] else []) in
  (if has_dir then [log_directory config] else [],
   {| op_logger := Some
        {| spd_name := component_name config;
           spd_sinks := op_sinks;
           spd_pattern := "[%Y-%m-%d %H:%M:%S.%e] [%^%l%$] [%n] %v";
           spd_level := ToSpdlogLevel (level config) |};
      audit_logger :=
        if has_dir then Some
          {| spd_name := component_name config +:+ "_audit";
             spd_sinks := [file_sink config (component_name config +:+ "_audit.log")];
             spd_pattern := "[%Y-%m-%d %H:%M:%S.%e] %v";
             spd_level := spd_info |}
        else None;
      impl_component_name := component_name config |}).

(** ** The life of the object

    [impl_] is a [std::unique_ptr]: [None] is null. A move empties the source,
    and the destructor dereferences without asking: [None] as its result is
    undefined behaviour. Otherwise it flushes the loggers there are. *)

Definition Logger_move (other : option Impl) : option Impl * option Impl := (other, None).

Definition Logger_destroy (impl_ : option Impl) : option (list spd_logger) :=
  match impl_ with
  | Some i => Some (option_list (op_logger i) ++ option_list (audit_logger i))
  | None => None
  end.

(** Both objects of a move are destroyed in the end: the new one as the old
    one would have been, the old one with undefined behaviour. *)
Lemma moved_logger_destroyed (config : LoggerConfig) :
  let '(target, source) := Logger_move (Some (Logger_new config).2) in
  Logger_destroy source = None ∧
  length <$> Logger_destroy target = Some (if String.eqb (log_directory config) "" then 1 else 2).
Proof. cbn. by destruct (String.eqb _ _). Qed.

(** ** The state of a thread that logs

    [t_correlation_id] is thread-local; the two loggers and the UUID
    generator are the effects the other components share. *)

Record Runtime := {
  impl_ : Impl;
  t_correlation_id : string;
  op_lines : list (spdlog_level * string);
  audit_lines : list string;
  uuids_drawn : nat
}.

Definition set_correlation_id (cid : string) (r : Runtime) : Runtime :=
  {| impl_ := impl_ r; t_correlation_id := cid; op_lines := op_lines r;
     audit_lines := audit_lines r; uuids_drawn := uuids_drawn r |}.

Definition add_op_line (l : spdlog_level * string) (r : Runtime) : Runtime :=
  {| impl_ := impl_ r; t_correlation_id := t_correlation_id r; op_lines := op_lines r ++ [l];
     audit_lines := audit_lines r; uuids_drawn := uuids_drawn r |}.

Definition add_audit_line (l : string) (r : Runtime) : Runtime :=
  {| impl_ := impl_ r; t_correlation_id := t_correlation_id r; op_lines := op_lines r;
     audit_lines := audit_lines r ++ [l]; uuids_drawn := uuids_drawn r |}.

Definition draw_uuid (r : Runtime) : Runtime :=
  {| impl_ := impl_ r; t_correlation_id := t_correlation_id r; op_lines := op_lines r;
     audit_lines := audit_lines r; uuids_drawn := S (uuids_drawn r) |}.

(** ** Formatting *)

(** The loop over the fields, with the flag [first]. *)
Fixpoint FormatFields_loop (first : bool) (fields : list LogField) (result : string) : string :=
  match fields with
  | [] => result
  | f :: fs =>
      let result := if first then result else result +:+ ", " in
      FormatFields_loop false fs (result +:+ (key f +:+ "=" +:+ value f))
  end.

Definition FormatFields (fields : list LogField) : string :=
  match fields with
  | [] => ""
  | _ => FormatFields_loop true fields " {" +:+ "}"
  end.

Definition FormatOpMessage (cid message : string) (fields : list LogField) : string :=
  let corr_part := if String.eqb cid "" then "" else "[" +:+ cid +:+ "] " in
  corr_part +:+ message +:+ FormatFields fields.

(** [Logger::Trace] .. [Logger::Critical]. *)
Definition log (lvl : LogLevel.t) (message : string) (fields : list LogField) : M Runtime unit :=
  λ r, match op_logger (impl_ r) with
       | Some _ =>
           (Done tt, add_op_line (ToSpdlogLevel lvl, FormatOpMessage (t_correlation_id r) message fields) r)
       | None => (Done tt, r)
       end.

Definition Audit (actor action resource result : string) (extra_fields : list LogField) : M Runtime unit :=
  λ r, match audit_logger (impl_ r) with
       | Some _ =>
           (Done tt, add_audit_line ("actor=" +:+ actor +:+ " action=" +:+ action +:+ " resource=" +:+ resource
             +:+ " result=" +:+ result +:+ FormatFields extra_fields) r)
       | None => (Done tt, r)
       end.

(** ** Components that hold a logger *)

Class HasRuntime (S : Type) := {
  runtime : S → Runtime;
  set_runtime : Runtime → S → S;
  runtime_set r s : runtime (set_runtime r s) = r;
  set_runtime_set r r' s : set_runtime r (set_runtime r' s) = set_runtime r s;
  set_runtime_get s : set_runtime (runtime s) s = s
}.

#[export] Instance Runtime_runtime : HasRuntime Runtime.
Proof. refine {| runtime r := r; set_runtime r _ := r |}; done. Defined.

Definition on_runtime {S A} `{HasRuntime S} (m : M Runtime A) : M S A := zoom runtime set_runtime m.

Section Calls.
Context {S : Type} `{HasRuntime S}.

Definition Debug (message : string) : M S unit := on_runtime (log LogLevel.Debug message []).
Definition Info (message : string) : M S unit := on_runtime (log LogLevel.Info message []).
Definition Warn (message : string) : M S unit := on_runtime (log LogLevel.Warn message []).
Definition LogError (message : string) : M S unit := on_runtime (log LogLevel.Error message []).

(** [ScopedCorrelationId]: the object holds the previous value, which its
    destructor puts back. *)
Definition WithCorrelationId (correlation_id : string) : M S string :=
  on_runtime (λ r, (Done (t_correlation_id r), set_correlation_id correlation_id r)).

Definition ScopedCorrelationId_destroy (previous_value : string) : M S unit :=
  on_runtime (modify (set_correlation_id previous_value)).

(** [auto scope = logger_->WithCorrelationId(id);] followed by the rest of
    the block: the destructor runs when the block is left by a return or by
    an exception. *)
Definition with_scope {A} (correlation_id : string) (body : M S A) : M S A :=
  WithCorrelationId correlation_id ≫= λ previous_value,
  scoped (ScopedCorrelationId_destroy previous_value) body.

End Calls.

(** ** UUIDs *)

Class UuidSource := { uuid_at : nat → string }.

Definition GenerateUuidV4 {S} `{HasRuntime S, UuidSource} : M S string :=
  on_runtime (λ r, (Done (uuid_at (uuids_drawn r)), draw_uuid r)).

(** The documented form of a version-4 UUID in its canonical spelling. *)
Definition uuid_char (i : nat) (c : ascii) : bool :=
  if bool_decide (i ∈ [8; 13; 18; 23]) then Ascii.eqb c "-"
  else if (i =? 14) then Ascii.eqb c "4"
  else if (i =? 19) then Ascii.eqb c "8" || Ascii.eqb c "9" || Ascii.eqb c "a" || Ascii.eqb c "b"
  else is_xdigit c && negb (is_upper c).

Fixpoint uuid_chars (i : nat) (s : string) : bool :=
  match s with
  | EmptyString => true
  | String c s' => uuid_char i c && uuid_chars (S i) s'
  end.

Class UuidLaws `{UuidSource} := {
  uuid_format n : String.length (uuid_at n) = 36 ∧ uuid_chars 0 (uuid_at n) = true
}.

(** A generator for the witnesses: the same UUID every time. *)
Definition toy_uuid : UuidSource := {| uuid_at _ := "6fa459ea-ee8a-4ca4-894e-db77e160355e" |}.

Lemma toy_uuid_laws : @UuidLaws toy_uuid.
Proof. by split. Qed.

Lemma uuid_char_no_dot i c : uuid_char i c = true → Ascii.eqb c "." = false.
Proof.
  unfold uuid_char. intros H. destruct (Ascii.eqb_spec c ".") as [->|]; [|done].
  repeat case_match; done.
Qed.

Lemma uuid_no_dot `{UuidLaws} n : string_forallb (λ c, negb (Ascii.eqb c ".")) (uuid_at n) = true.
Proof.
  destruct (uuid_format n) as [_ Hu]. revert Hu. generalize 0. generalize (uuid_at n).
  intros s. induction s as [|c s IH]; intros i; cbn; [done|]. rewrite !andb_true_iff, negb_true_iff.
  intros [Hc Hs]. split; [by eapply uuid_char_no_dot|by eapply IH].
Qed.

(** ** Properties *)

(** What a thread does with the logger: messages, nested scopes, and leaving
    early by an exception. *)
Inductive script :=
  | SEnd
  | SThrow (e : exn)
  | SLog (lvl : LogLevel.t) (message : string) (fields : list LogField) (k : script)
  | SScope (correlation_id : string) (body k : script).

Fixpoint run_script (p : script) : M Runtime unit :=
  match p with
  | SEnd => mret tt
  | SThrow e => lift (Throws e)
  | SLog lvl message fields k => log lvl message fields ≫= λ _, run_script k
  | SScope cid body k => with_scope cid (run_script body) ≫= λ _, run_script k
  end.

(** The lines it should produce when the innermost enclosing scope has the
    identifier [cid], and whether it ends with an exception. *)
Fixpoint script_lines (cid : string) (p : script) : list (spdlog_level * string) * option exn :=
  match p with
  | SEnd => ([], None)
  | SThrow e => ([], Some e)
  | SLog lvl message fields k =>
      let '(ls, e) := script_lines cid k in
      ((ToSpdlogLevel lvl, FormatOpMessage cid message fields) :: ls, e)
  | SScope cid' body k =>
      let '(ls, e) := script_lines cid' body in
      match e with
      | Some e => (ls, Some e)
      | None => let '(ls', e') := script_lines cid k in (ls ++ ls', e')
      end
  end.

Definition add_op_lines (ls : list (spdlog_level * string)) (r : Runtime) : Runtime :=
  {| impl_ := impl_ r; t_correlation_id := t_correlation_id r; op_lines := op_lines r ++ ls;
     audit_lines := audit_lines r; uuids_drawn := uuids_drawn r |}.

Lemma add_op_lines_nil r : add_op_lines [] r = r.
Proof. destruct r. unfold add_op_lines. cbn. by rewrite app_nil_r. Qed.

Definition script_outcome (e : option exn) : outcome unit :=
  match e with Some e => Throws e | None => Done tt end.

(** C38: Correlation-id scopes. Whatever the nesting of scopes, the messages
    in between and the point where an exception leaves them, every line
    carries the identifier of its innermost enclosing scope, in program
    order, and afterwards the thread's correlation id is what it was before:
    the scopes restore it on the normal and on the exceptional way out. *)
Theorem scopes_restore (p : script) (r : Runtime) :
  is_Some (op_logger (impl_ r)) →
  run_script p r =
    (script_outcome (script_lines (t_correlation_id r) p).2,
     add_op_lines (script_lines (t_correlation_id r) p).1 r).
Proof.
  revert r. induction p as [|e|lvl message fields k IH|cid body IHb k IHk]; intros r Hr; cbn [run_script script_lines].
  - by rewrite add_op_lines_nil.
  - by rewrite add_op_lines_nil.
  - destruct Hr as [l Hl]. unfold log, mbind, M_bind. rewrite Hl. rewrite IH by (by eexists).
    cbn. destruct (script_lines (t_correlation_id r) k) as [ls o]. cbn.
    f_equal. unfold add_op_lines. cbn. by rewrite <- app_assoc.
  - unfold with_scope, WithCorrelationId, on_runtime, zoom, scoped, mbind, M_bind. cbn.
    rewrite IHb by done. cbn.
    destruct (script_lines cid body) as [ls [e|]]; cbn; [done|].
    change (ScopedCorrelationId_destroy _ _) with
      (Done (A:=unit) tt, add_op_lines ls r). 
    rewrite IHk by done. cbn.
    destruct (script_lines (t_correlation_id r) k) as [ls' o]. cbn.
    f_equal. unfold add_op_lines. cbn. by rewrite <- app_assoc.
Qed.

Definition sample_runtime : Runtime :=
  {| impl_ := (Logger_new (default_config "test")).2; t_correlation_id := "";
     op_lines := []; audit_lines := []; uuids_drawn := 0 |}.

Definition sample_script : script :=
  SScope "ID-123"
    (SLog LogLevel.Info "Inside scope 1" []
      (SScope "ID-456" (SLog LogLevel.Info "Inside scope 2" [] SEnd)
        (SLog LogLevel.Info "Back to scope 1" [] SEnd)))
    (SLog LogLevel.Info "Outside scope" [{| key := "key1"; value := "val1" |}] (SThrow out_of_range)).

Lemma scopes_restore_witness :
  run_script sample_script sample_runtime =
    (Throws out_of_range,
     add_op_lines
       [(spd_info, "[ID-123] Inside scope 1"); (spd_info, "[ID-456] Inside scope 2");
        (spd_info, "[ID-123] Back to scope 1"); (spd_info, "Outside scope {key1=val1}")]
       sample_runtime).
Proof. exact (scopes_restore sample_script sample_runtime (ex_intro _ _ eq_refl)). Defined.
