(* ===== verification/Config.v ===== *)
(** * Configuration

    Models [libs/common/src/config_schema.cpp] and [config.cpp]: the schema
    with its two ordered maps, loading, validation, the environment overrides
    and the typed getters. The JSON library (nlohmann) and [std::stod] are
    parameters, with the documented behaviour of its type tests and
    conversions as laws. *)

From Stdlib Require Import Sorting.Sorted.
From S2P Require Import Prelude Result Cxx.

Local Open Scope Z_scope.

Inductive ConfigFieldType := TString | TInt64 | TDouble | TBool.

#[export] Instance ConfigFieldType_eq_dec : EqDecision ConfigFieldType.
Proof. solve_decision. Defined.

Module ConfigSection.
Inductive t := ClusterInvariant | NodeLocal.

#[global] Instance t_eq_dec : EqDecision t.
Proof. solve_decision. Defined.
End ConfigSection.

Record ConfigFieldSpec := { type : ConfigFieldType; required : bool }.

(** ** [ConfigSchema]

    A [std::map<std::string, ConfigFieldSpec>] is the list of its entries in
    the order it is iterated in: by key, bytes compared as unsigned. *)
Definition SpecMap : Type := list (string * ConfigFieldSpec).

(** [m[key] = spec]. *)
Fixpoint map_set (key : string) (spec : ConfigFieldSpec) (m : SpecMap) : SpecMap :=
  match m with
  | [] => [(key, spec)]
  | (k, s) :: m' =>
      match String.compare key k with
      | Lt => (key, spec) :: m
      | Eq => (k, spec) :: m'
      | Gt => (k, s) :: map_set key spec m'
      end
  end.

Fixpoint map_find (key : string) (m : SpecMap) : option ConfigFieldSpec :=
  match m with
  | [] => None
  | (k, s) :: m' => if String.eqb key k then Some s else map_find key m'
  end.

Record ConfigSchema := {
  cluster_invariant_specs_ : SpecMap;
  node_local_specs_ : SpecMap
}.

Definition ConfigSchema_new : ConfigSchema := {| cluster_invariant_specs_ := []; node_local_specs_ := [] |}.

Definition RequireClusterInvariant (key : string) (ty : ConfigFieldType) (s : ConfigSchema) : ConfigSchema :=
  {| cluster_invariant_specs_ := map_set key {| type := ty; required := true |} (cluster_invariant_specs_ s);
     node_local_specs_ := node_local_specs_ s |}.

Definition RequireNodeLocal (key : string) (ty : ConfigFieldType) (s : ConfigSchema) : ConfigSchema :=
  {| cluster_invariant_specs_ := cluster_invariant_specs_ s;
     node_local_specs_ := map_set key {| type := ty; required := true |} (node_local_specs_ s) |}.

Definition OptionalClusterInvariant (key : string) (ty : ConfigFieldType) (s : ConfigSchema) : ConfigSchema :=
  {| cluster_invariant_specs_ := map_set key {| type := ty; required := false |} (cluster_invariant_specs_ s);
     node_local_specs_ := node_local_specs_ s |}.

Definition OptionalNodeLocal (key : string) (ty : ConfigFieldType) (s : ConfigSchema) : ConfigSchema :=
  {| cluster_invariant_specs_ := cluster_invariant_specs_ s;
     node_local_specs_ := map_set key {| type := ty; required := false |} (node_local_specs_ s) |}.

(** ** The JSON library and [std::stod] *)

Inductive Parsed (J : Type) :=
  | Value_of (j : J)
  | parse_error (what : string)
  | other_error (e : exn).
Arguments Value_of {J}.
Arguments parse_error {J}.
Arguments other_error {J}.

Class Nlohmann := {
  json : Type;
  double : Type;
  json_parse : string → Parsed json;
  contains : json → string → bool;
  at_key : json → string → json;
  is_string : json → bool;
  is_number_integer : json → bool;
  is_number_float : json → bool;
  is_number : json → bool;
  is_boolean : json → bool;
  get_string : json → outcome string;
  get_int64 : json → outcome Z;
  get_double : json → outcome double;
  get_bool : json → outcome bool;
  stod : string → outcome double
}.

(** A number is an integer or a float; [get] gives a value where the type
    test says so; [stod] returns or throws. *)
Class NlohmannLaws `{Nlohmann} := {
  is_number_spec j : is_number j = is_number_integer j || is_number_float j;
  get_string_ok j : is_string j = true → ∃ v, get_string j = Done v;
  get_int64_ok j : is_number_integer j = true → ∃ v, get_int64 j = Done v;
  get_double_ok j : is_number j = true → ∃ v, get_double j = Done v;
  get_bool_ok j : is_boolean j = true → ∃ v, get_bool j = Done v;
  stod_returns s : (∃ v, stod s = Done v) ∨ (∃ e, stod s = Throws e)
}.

(** ** The environment

    [environ]: the strings [NAME=VALUE] of the process. *)
Definition Environ : Type := list string.

(** [s.find(p) == 0]. *)
Definition starts_with (p s : string) : bool := String.prefix p s.

Definition HasClusterInvariantEnvOverrides (environ : Environ) : bool :=
  existsb (starts_with "NIMBUS_CLUSTER_") environ.

Definition ToUpperAndUnderscore (input : string) : string :=
  string_map to_upper (string_map (λ c, if Ascii.eqb c "." then "_"%char else c) input).

(** [s.c_str()], read as a C string. *)
Fixpoint c_str (s : string) : string :=
  match s with
  | EmptyString => EmptyString
  | String c s' => if Ascii.eqb c zero then EmptyString else String c (c_str s')
  end.

(** [std::getenv]: the rest of the first entry that starts with [name=]. *)
Fixpoint getenv (name : string) (environ : Environ) : option string :=
  match environ with
  | [] => None
  | e :: environ' =>
      if starts_with (name +:+ "=") e
      then Some (String.substring (String.length name + 1) (String.length e - String.length name - 1) e)
      else getenv name environ'
  end.

(** ** [Config] *)

Module ConfigErrorCode.
Inductive t :=
  | FileNotFound | MalformedJson | SchemaValidationFailed | ClusterInvariantEnvOverrideAttempted
  | KeyNotFound | TypeMismatch.

#[global] Instance t_eq_dec : EqDecision t.
Proof. solve_decision. Defined.
End ConfigErrorCode.

Record ConfigError := MkConfigError {
  code : ConfigErrorCode.t;
  message : string;
  validation_errors : list string
}.

Definition section_name (section : ConfigSection.t) : string :=
  match section with
  | ConfigSection.ClusterInvariant => "cluster_invariant"
  | ConfigSection.NodeLocal => "node_local"
  end.

Definition GetEnvOverride (environ : Environ) (section : ConfigSection.t) (path : string) : option string :=
  match section with
  | ConfigSection.ClusterInvariant => None
  | ConfigSection.NodeLocal => getenv (c_str ("NIMBUS_NODE_" +:+ ToUpperAndUnderscore path)) environ
  end.

Section Config.
Context `{Nlohmann}.

Record Config := { data_ : json }.

(** [read path]: the contents of the file, if it can be opened. *)
Definition LoadFromFile (environ : Environ) (read : string → option string) (path : string) :
  outcome (Result Config ConfigError) :=
  if HasClusterInvariantEnvOverrides environ then
    Done (Err (MkConfigError ConfigErrorCode.ClusterInvariantEnvOverrideAttempted
      "Attempted to override a cluster invariant configuration via environment variables" []))
  else
    match read path with
    | None => Done (Err (MkConfigError ConfigErrorCode.FileNotFound ("Configuration file not found: " +:+ path) []))
    | Some file =>
        match json_parse file with
        | Value_of j => Done (Ok {| data_ := j |})
        | parse_error what => Done (Err (MkConfigError ConfigErrorCode.MalformedJson ("Malformed JSON: " +:+ what) []))
        | other_error e => Throws e
        end
    end.

(** [data_.contains(section_name) && data_[section_name].contains(key)]. *)
Definition has_key (c : Config) (section : string) (key : string) : bool :=
  contains (data_ c) section && contains (at_key (data_ c) section) key.

(** The [switch] on the declared type. *)
Definition type_matches (ty : ConfigFieldType) (jval : json) : bool :=
  match ty with
  | TString => is_string jval
  | TInt64 => is_number_integer jval
  | TDouble => is_number_float jval || is_number_integer jval
  | TBool => is_boolean jval
  end.

Definition expected (ty : ConfigFieldType) : string :=
  match ty with
  | TString => "expected string"
  | TInt64 => "expected int64"
  | TDouble => "expected double"
  | TBool => "expected boolean"
  end.

(** One iteration of [validate_section]: the errors it appends. *)
Definition validate_field (environ : Environ) (c : Config) (section : ConfigSection.t)
  (key : string) (spec : ConfigFieldSpec) : list string :=
  let has_env :=
    match section with
    | ConfigSection.NodeLocal => bool_decide (is_Some (GetEnvOverride environ section key))
    | ConfigSection.ClusterInvariant => false
    end in
  if has_env then []
  else if negb (has_key c (section_name section) key) then
    if required spec then ["Missing required key: " +:+ section_name section +:+ "." +:+ key] else []
  else
    let jval := at_key (at_key (data_ c) (section_name section)) key in
    if type_matches (type spec) jval then []
    else ["Type mismatch for " +:+ section_name section +:+ "." +:+ key +:+ ": " +:+ expected (type spec)].

Fixpoint validate_section (environ : Environ) (c : Config) (specs : SpecMap) (section : ConfigSection.t)
  (errors : list string) : list string :=
  match specs with
  | [] => errors
  | (key, spec) :: specs' =>
      validate_section environ c specs' section (errors ++ validate_field environ c section key spec)
  end.

Definition Validate (environ : Environ) (schema : ConfigSchema) (c : Config) : Result unit ConfigError :=
  let errors := validate_section environ c (cluster_invariant_specs_ schema) ConfigSection.ClusterInvariant [] in
  let errors := validate_section environ c (node_local_specs_ schema) ConfigSection.NodeLocal errors in
  match errors with
  | [] => Ok tt
  | _ => Err (MkConfigError ConfigErrorCode.SchemaValidationFailed "Schema validation failed" errors)
  end.

(** ** The getters *)

Definition KeyNotFound_error (path : string) : ConfigError :=
  MkConfigError ConfigErrorCode.KeyNotFound ("Key not found: " +:+ path) [].

Definition TypeMismatch_error (msg : string) : ConfigError := MkConfigError ConfigErrorCode.TypeMismatch msg [].

Definition GetString (environ : Environ) (c : Config) (section : ConfigSection.t) (path : string) :
  outcome (Result string ConfigError) :=
  match GetEnvOverride environ section path with
  | Some env_val => Done (Ok env_val)
  | None =>
      let section_name := section_name section in
      if negb (has_key c section_name path) then Done (Err (KeyNotFound_error path))
      else
        let j := at_key (at_key (data_ c) section_name) path in
        if negb (is_string j) then Done (Err (TypeMismatch_error "Type mismatch, expected string"))
        else v ← get_string j; Done (Ok v)
  end.

Definition GetInt64 (environ : Environ) (c : Config) (section : ConfigSection.t) (path : string) :
  outcome (Result Z ConfigError) :=
  match GetEnvOverride environ section path with
  | Some env_val =>
      match stoll env_val with
      | Done v => Done (Ok v)
      | Throws _ => Done (Err (TypeMismatch_error "Env var could not be parsed as int64"))
      | Blocks => Blocks
      | Crashed => Crashed
      end
  | None =>
      let section_name := section_name section in
      if negb (has_key c section_name path) then Done (Err (KeyNotFound_error path))
      else
        let j := at_key (at_key (data_ c) section_name) path in
        if negb (is_number_integer j) then Done (Err (TypeMismatch_error "Type mismatch, expected int64"))
        else v ← get_int64 j; Done (Ok v)
  end.

Definition GetDouble (environ : Environ) (c : Config) (section : ConfigSection.t) (path : string) :
  outcome (Result double ConfigError) :=
  match GetEnvOverride environ section path with
  | Some env_val =>
      match stod env_val with
      | Done v => Done (Ok v)
      | Throws _ => Done (Err (TypeMismatch_error "Env var could not be parsed as double"))
      | Blocks => Blocks
      | Crashed => Crashed
      end
  | None =>
      let section_name := section_name section in
      if negb (has_key c section_name path) then Done (Err (KeyNotFound_error path))
      else
        let j := at_key (at_key (data_ c) section_name) path in
        if negb (is_number j) then Done (Err (TypeMismatch_error "Type mismatch, expected double"))
        else v ← get_double j; Done (Ok v)
  end.

Definition GetBool (environ : Environ) (c : Config) (section : ConfigSection.t) (path : string) :
  outcome (Result bool ConfigError) :=
  match GetEnvOverride environ section path with
  | Some env_val =>
      let lower := string_map to_lower env_val in
      if String.eqb lower "true" || String.eqb lower "1" then Done (Ok true)
      else if String.eqb lower "false" || String.eqb lower "0" then Done (Ok false)
      else Done (Err (TypeMismatch_error "Env var could not be parsed as bool"))
  | None =>
      let section_name := section_name section in
      if negb (has_key c section_name path) then Done (Err (KeyNotFound_error path))
      else
        let j := at_key (at_key (data_ c) section_name) path in
        if negb (is_boolean j) then Done (Err (TypeMismatch_error "Type mismatch, expected bool"))
        else v ← get_bool j; Done (Ok v)
  end.

(** The overloads with a default value: one body, for the four types. *)
Definition or_default {T} (get : outcome (Result T ConfigError)) (default_value : T) : outcome T :=
  res ← get; if IsOk res then Value res else Done default_value.

Definition GetString_or (environ : Environ) (c : Config) (section : ConfigSection.t) (path : string)
  (default_value : string) : outcome string := or_default (GetString environ c section path) default_value.

Definition GetInt64_or (environ : Environ) (c : Config) (section : ConfigSection.t) (path : string)
  (default_value : Z) : outcome Z := or_default (GetInt64 environ c section path) default_value.

Definition GetDouble_or (environ : Environ) (c : Config) (section : ConfigSection.t) (path : string)
  (default_value : double) : outcome double := or_default (GetDouble environ c section path) default_value.

Definition GetBool_or (environ : Environ) (c : Config) (section : ConfigSection.t) (path : string)
  (default_value : bool) : outcome bool := or_default (GetBool environ c section path) default_value.

End Config.

(** ** Properties of the schema *)

(** A declaration: one of the four methods. *)
Record declaration := { decl_section : ConfigSection.t; decl_key : string; decl_spec : ConfigFieldSpec }.

Definition declare (d : declaration) (s : ConfigSchema) : ConfigSchema :=
  match decl_section d, required (decl_spec d) with
  | ConfigSection.ClusterInvariant, true => RequireClusterInvariant (decl_key d) (type (decl_spec d)) s
  | ConfigSection.ClusterInvariant, false => OptionalClusterInvariant (decl_key d) (type (decl_spec d)) s
  | ConfigSection.NodeLocal, true => RequireNodeLocal (decl_key d) (type (decl_spec d)) s
  | ConfigSection.NodeLocal, false => OptionalNodeLocal (decl_key d) (type (decl_spec d)) s
  end.

Definition specs_of (s : ConfigSchema) (section : ConfigSection.t) : SpecMap :=
  match section with
  | ConfigSection.ClusterInvariant => cluster_invariant_specs_ s
  | ConfigSection.NodeLocal => node_local_specs_ s
  end.

(** The last declaration of a key in a section. *)
Fixpoint last_declared (ds : list declaration) (section : ConfigSection.t) (key : string) : option ConfigFieldSpec :=
  match ds with
  | [] => None
  | d :: ds' =>
      match last_declared ds' section key with
      | Some spec => Some spec
      | None => if bool_decide (decl_section d = section) && String.eqb key (decl_key d)
                then Some (decl_spec d) else None
      end
  end.

Definition key_lt (a b : string * ConfigFieldSpec) : Prop := String.compare a.1 b.1 = Lt.

Lemma compare_refl s : String.compare s s = Eq.
Proof. pose proof (String.compare_antisym s s). by destruct (String.compare s s). Qed.

Lemma map_set_HdRel a key spec m :
  String.compare a.1 key = Lt → HdRel key_lt a m → HdRel key_lt a (map_set key spec m).
Proof.
  intros Hlt Hm. destruct m as [|[k s] m]; cbn; [by constructor|].
  destruct (String.compare key k); inversion Hm; by constructor.
Qed.

Lemma map_set_sorted key spec m : Sorted key_lt m → Sorted key_lt (map_set key spec m).
Proof.
  induction m as [|[k s] m IH]; intros Hm; cbn; [by repeat constructor|].
  apply Sorted_inv in Hm as [Hm Hk]. destruct (String.compare key k) eqn:E.
  - constructor; [done|]. destruct m; constructor. by inversion Hk.
  - by repeat constructor.
  - constructor; [by apply IH|]. apply map_set_HdRel; [|done]. cbn. by rewrite String.compare_antisym, E.
Qed.

Lemma map_find_set key key' spec m :
  map_find key' (map_set key spec m) = if String.eqb key' key then Some spec else map_find key' m.
Proof.
  induction m as [|[k s] m IH]; cbn; [done|]. destruct (String.compare key k) eqn:E; cbn.
  - apply String.compare_eq_iff in E as ->. by destruct (String.eqb key' k).
  - done.
  - rewrite IH. destruct (String.eqb_spec key' k) as [->|]; [|done].
    destruct (String.eqb_spec k key) as [->|]; [|done]. by rewrite compare_refl in E.
Qed.

Lemma specs_of_declare d s section :
  specs_of (declare d s) section =
    if bool_decide (decl_section d = section) then map_set (decl_key d) (decl_spec d) (specs_of s section)
    else specs_of s section.
Proof. destruct d as [[] k [ty []]], section; done. Qed.

Lemma map_find_In key spec m : map_find key m = Some spec → In (key, spec) m.
Proof.
  induction m as [|[k s] m IH]; cbn; [done|].
  destruct (String.eqb_spec key k) as [->|]; intros Hf; [left; congruence|right; auto].
Qed.

(** A schema holds, for each section, the last declaration of every key
    declared in it and nothing else, whatever the order of the four kinds of
    declarations; its maps stay strictly sorted by key, the order in which
    [Validate] reports problems. *)
Theorem schema_last_declaration (ds : list declaration) (section : ConfigSection.t) (key : string) :
  let schema := foldl (λ s d, declare d s) ConfigSchema_new ds in
  map_find key (specs_of schema section) = last_declared ds section key ∧
  Sorted key_lt (specs_of schema section).
Proof.
  cbn zeta. assert (∀ s, Sorted key_lt (specs_of s section) →
    map_find key (specs_of (foldl (λ s d, declare d s) s ds) section) =
      match last_declared ds section key with Some spec => Some spec | None => map_find key (specs_of s section) end ∧
    Sorted key_lt (specs_of (foldl (λ s d, declare d s) s ds) section)) as Hall.
  { induction ds as [|d ds IH]; intros s Hs; cbn; [done|].
    assert (Sorted key_lt (specs_of (declare d s) section)) as Hs'.
    { rewrite specs_of_declare. case_bool_decide; [by apply map_set_sorted|done]. }
    destruct (IH _ Hs') as [-> ?]. split; [|done].
    destruct (last_declared ds section key); [done|]. rewrite specs_of_declare.
    case_bool_decide; cbn; [|done]. rewrite map_find_set. by destruct (String.eqb key (decl_key d)). }
  destruct (Hall ConfigSchema_new) as [-> ?]; [by destruct section; constructor|].
  split; [|done]. by destruct (last_declared ds section key), section.
Qed.

(** ** Properties of validation and of the getters *)

(** What a getter reads, whatever its type. *)
Inductive field_value {D : Type} := VString (v : string) | VInt64 (v : Z) | VDouble (v : D) | VBool (v : bool).
Arguments field_value : clear implicits.

Section Reading.
Context `{NlohmannLaws}.

Definition map_ok {A B E} (f : A → B) (o : outcome (Result A E)) : outcome (Result B E) :=
  r ← o; Done (match r with Ok v => Ok (f v) | Err e => Err e end).

(** The getter of a declared type. *)
Definition read_as (environ : Environ) (c : Config) (section : ConfigSection.t) (ty : ConfigFieldType) (key : string) :
  outcome (Result (field_value double) ConfigError) :=
  match ty with
  | TString => map_ok VString (GetString environ c section key)
  | TInt64 => map_ok VInt64 (GetInt64 environ c section key)
  | TDouble => map_ok VDouble (GetDouble environ c section key)
  | TBool => map_ok VBool (GetBool environ c section key)
  end.

(** A field the schema is content with. *)
Definition field_ok (environ : Environ) (c : Config) (section : ConfigSection.t) (key : string) (spec : ConfigFieldSpec) : Prop :=
  is_Some (GetEnvOverride environ section key) ∨
  (has_key c (section_name section) key = false ∧ required spec = false) ∨
  (has_key c (section_name section) key = true ∧
   type_matches (type spec) (at_key (at_key (data_ c) (section_name section)) key) = true).

Lemma validate_field_ok environ c section key spec :
  validate_field environ c section key spec = [] ↔ field_ok environ c section key spec.
Proof.
  unfold validate_field, field_ok.
  assert (match section with
          | ConfigSection.NodeLocal => bool_decide (is_Some (GetEnvOverride environ section key))
          | ConfigSection.ClusterInvariant => false
          end = bool_decide (is_Some (GetEnvOverride environ section key))) as ->.
  { destruct section; [|done]. symmetry. apply bool_decide_eq_false. by intros [? ?]. }
  case_bool_decide; [naive_solver|].
  destruct (has_key _ _ _), (required spec), (type_matches _ _); naive_solver.
Qed.

Lemma validate_section_flat environ c specs section errors :
  validate_section environ c specs section errors =
    errors ++ flat_map (λ ks, validate_field environ c section ks.1 ks.2) specs.
Proof.
  revert errors. induction specs as [|[key spec] specs IH]; intros errors; cbn; [by rewrite app_nil_r|].
  by rewrite IH, <- app_assoc.
Qed.

(** Validation succeeds when there is nothing to report in either section. *)
Lemma Validate_flat environ schema c :
  Validate environ schema c =
    let errors :=
      flat_map (λ ks, validate_field environ c ConfigSection.ClusterInvariant ks.1 ks.2) (cluster_invariant_specs_ schema) ++
      flat_map (λ ks, validate_field environ c ConfigSection.NodeLocal ks.1 ks.2) (node_local_specs_ schema) in
    match errors with
    | [] => Ok tt
    | _ => Err (MkConfigError ConfigErrorCode.SchemaValidationFailed "Schema validation failed" errors)
    end.
Proof. unfold Validate. by rewrite !validate_section_flat. Qed.

Lemma flat_map_nil {A B} (f : A → list B) l : flat_map f l = [] ↔ ∀ a, In a l → f a = [].
Proof.
  induction l as [|a l IH]; cbn; [naive_solver|]. split.
  - intros [Ha Hl]%app_eq_nil. intros b [<-|Hb]; [done|]. by apply IH.
  - intros Hall. rewrite (Hall a) by auto. apply IH. auto.
Qed.

Lemma Validate_ok environ schema c :
  Validate environ schema c = Ok tt ↔
  ∀ section key spec, In (key, spec) (specs_of schema section) → field_ok environ c section key spec.
Proof.
  rewrite Validate_flat. cbv zeta. set (errors := flat_map _ _ ++ flat_map _ _).
  transitivity (errors = []); [by destruct errors|]. unfold errors. split.
  - intros [Hc Hn]%app_eq_nil section key spec Hin. apply validate_field_ok.
    rewrite flat_map_nil in Hc, Hn. destruct section; [by apply (Hc (key, spec))|by apply (Hn (key, spec))].
  - intros Hall.
    assert (∀ section, flat_map (λ ks, validate_field environ c section ks.1 ks.2) (specs_of schema section) = []) as Hnil.
    { intros section. apply flat_map_nil. intros [key spec] Hin. by apply validate_field_ok, Hall. }
    pose proof (Hnil ConfigSection.ClusterInvariant) as Hc. pose proof (Hnil ConfigSection.NodeLocal) as Hn.
    cbn [specs_of] in Hc, Hn. by rewrite Hc, Hn.
Qed.

Lemma stoll_returns s : (∃ v, stoll s = Done v) ∨ (∃ e, stoll s = Throws e).
Proof. unfold stoll. destruct (strto 10 s) as [[v p]|]; [destruct (in_int64 v)|]; eauto. Qed.

(** Without an override a field of the right type is read from the file. *)
Lemma read_as_file environ c section ty key :
  GetEnvOverride environ section key = None → has_key c (section_name section) key = true →
  type_matches ty (at_key (at_key (data_ c) (section_name section)) key) = true →
  ∃ v, ∀ environ', GetEnvOverride environ' section key = None → read_as environ' c section ty key = Done (Ok v).
Proof.
  intros Hno Hkey Hty. destruct ty; cbn in Hty.
  - destruct (get_string_ok _ Hty) as [v Hv]. exists (VString v). intros environ' E. cbn. unfold GetString.
    rewrite E, Hkey. cbn. by rewrite Hty, Hv.
  - destruct (get_int64_ok _ Hty) as [v Hv]. exists (VInt64 v). intros environ' E. cbn. unfold GetInt64.
    rewrite E, Hkey. cbn. by rewrite Hty, Hv.
  - rewrite orb_comm, <- is_number_spec in Hty. destruct (get_double_ok _ Hty) as [v Hv].
    exists (VDouble v). intros environ' E. cbn. unfold GetDouble. rewrite E, Hkey. cbn. by rewrite Hty, Hv.
  - destruct (get_bool_ok _ Hty) as [v Hv]. exists (VBool v). intros environ' E. cbn. unfold GetBool.
    rewrite E, Hkey. cbn. by rewrite Hty, Hv.
Qed.

Lemma read_as_missing environ c section ty key :
  GetEnvOverride environ section key = None → has_key c (section_name section) key = false →
  read_as environ c section ty key = Done (Err (KeyNotFound_error key)).
Proof.
  intros Hno Hkey. destruct ty; cbn; unfold GetString, GetInt64, GetDouble, GetBool; by rewrite Hno, Hkey.
Qed.

(** With an override the file is not looked at: a string is always there,
    anything else may not parse. *)
Lemma read_as_override environ c section ty key v :
  GetEnvOverride environ section key = Some v →
  ∃ r, read_as environ c section ty key = Done r ∧
    match r with Ok _ => True | Err e => code e = ConfigErrorCode.TypeMismatch ∧ ty ≠ TString end.
Proof.
  intros Hv. destruct ty; cbn; unfold GetString, GetInt64, GetDouble, GetBool; rewrite Hv; cbn.
  - by eexists.
  - destruct (stoll_returns v) as [[? ->]|[? ->]]; cbn; by eexists.
  - destruct (stod_returns v) as [[? ->]|[? ->]]; cbn; by eexists.
  - repeat case_match; cbn; by eexists.
Qed.

(** C29: what validation buys. Once a configuration has been validated,
    reading a declared field with the getter of its declared type returns,
    and it gives a value except in two cases: an optional field that neither
    the file nor the environment has ([KeyNotFound]), and a node-local field
    whose override does not parse ([TypeMismatch]), which validation does not
    look into. *)
Theorem validated_reads (environ : Environ) (schema : ConfigSchema) (c : Config)
  (section : ConfigSection.t) (key : string) (spec : ConfigFieldSpec) :
  Validate environ schema c = Ok tt →
  map_find key (specs_of schema section) = Some spec →
  ∃ r, read_as environ c section (type spec) key = Done r ∧
    match r with
    | Ok _ => True
    | Err e =>
        (code e = ConfigErrorCode.KeyNotFound ∧ required spec = false ∧
         GetEnvOverride environ section key = None ∧ has_key c (section_name section) key = false) ∨
        (code e = ConfigErrorCode.TypeMismatch ∧ type spec ≠ TString ∧
         section = ConfigSection.NodeLocal ∧ is_Some (GetEnvOverride environ section key))
    end.
Proof.
  intros Hval Hfind. pose proof (proj1 (Validate_ok _ _ _) Hval _ _ _ (map_find_In _ _ _ Hfind)) as Hok.
  destruct (GetEnvOverride environ section key) as [v|] eqn:E.
  - destruct (read_as_override environ c section (type spec) key v E) as ([?|e] & Hr & He);
      (eexists; split; [exact Hr|]); [done|]. destruct He. right. by destruct section; eauto.
  - destruct Hok as [[? ?]|[[Hno Hreq]|[Hkey Hty]]]; [congruence| |].
    + eexists. split; [by apply read_as_missing|]. left. done.
    + destruct (read_as_file _ _ _ _ _ E Hkey Hty) as [v Hv]. eexists. split; [by apply Hv|done].
Qed.

(** C36: cluster invariants come from the file and from nowhere else. If a
    configuration was loaded and validated, no environment variable begins
    with [NIMBUS_CLUSTER_], the data is what the file parses to, and every
    required cluster field has one value, which its getter returns in every
    environment the process may have later. *)
Theorem cluster_invariants_fixed (environ : Environ) (read : string → option string) (path : string)
  (schema : ConfigSchema) (c : Config) (key : string) (spec : ConfigFieldSpec) :
  LoadFromFile environ read path = Done (Ok c) →
  Validate environ schema c = Ok tt →
  map_find key (cluster_invariant_specs_ schema) = Some spec → required spec = true →
  Forall (λ e, starts_with "NIMBUS_CLUSTER_" e = false) environ ∧
  (∃ file, read path = Some file ∧ json_parse file = Value_of (data_ c)) ∧
  ∃ v, ∀ environ', read_as environ' c ConfigSection.ClusterInvariant (type spec) key = Done (Ok v).
Proof.
  intros Hload Hval Hfind Hreq. unfold LoadFromFile in Hload.
  destruct (HasClusterInvariantEnvOverrides environ) eqn:Henv; [done|].
  destruct (read path) as [file|]; [|done]. destruct (json_parse file) as [j| |] eqn:Hj; try done.
  injection Hload as <-. split; [|split].
  - apply Forall_forall. intros e He. apply not_true_is_false. intros Hp.
    apply not_true_iff_false in Henv. apply Henv, existsb_exists. exists e.
    split; [by apply list_elem_of_In|done].
  - by exists file.
  - destruct (proj1 (Validate_ok _ _ _) Hval ConfigSection.ClusterInvariant key spec (map_find_In _ _ _ Hfind))
      as [[? ?]|[[_ ?]|[Hkey Hty]]]; [done|congruence|].
    destruct (read_as_file environ _ ConfigSection.ClusterInvariant _ _ eq_refl Hkey Hty) as [v Hv].
    exists v. intros environ'. by apply Hv.
Qed.

(** Validation and overrides. Setting further node-local overrides never
    makes a valid configuration invalid, whatever their values, because
    validation only asks whether there is an override; what the integer getter
    then makes of the value is the longest decimal prefix after blanks and a
    sign (what follows is ignored), and [TypeMismatch] when there is none or
    it is out of range, even if the file has a good value. *)
Theorem override_unchecked (environ environ' : Environ) (schema : ConfigSchema) (c : Config) (key v : string) :
  Validate environ schema c = Ok tt →
  (∀ k, is_Some (GetEnvOverride environ ConfigSection.NodeLocal k) →
        is_Some (GetEnvOverride environ' ConfigSection.NodeLocal k)) →
  GetEnvOverride environ' ConfigSection.NodeLocal key = Some v →
  Validate environ' schema c = Ok tt ∧
  GetInt64 environ' c ConfigSection.NodeLocal key =
    Done (match strto 10 v with
          | Some (n, _) =>
              if in_int64 n then Ok n else Err (TypeMismatch_error "Env var could not be parsed as int64")
          | None => Err (TypeMismatch_error "Env var could not be parsed as int64")
          end).
Proof.
  intros Hval Hmore Hv. split.
  - apply Validate_ok. intros section k spec Hin. pose proof (proj1 (Validate_ok _ _ _) Hval _ _ _ Hin) as Hok.
    destruct Hok as [Henv|Hok]; [left|by right]. destruct section; [by destruct Henv|by apply Hmore].
  - unfold GetInt64, stoll. rewrite Hv. destruct (strto 10 v) as [[n pos]|]; [by destruct (in_int64 n)|done].
Qed.

(** ** What one variable overrides *)

(** What a getter makes of the value of a variable. *)
Definition from_override (ty : ConfigFieldType) (v : string) : outcome (Result (field_value double) ConfigError) :=
  match ty with
  | TString => Done (Ok (VString v))
  | TInt64 => Done (match stoll v with
      | Done n => Ok (VInt64 n)
      | _ => Err (TypeMismatch_error "Env var could not be parsed as int64")
      end)
  | TDouble => Done (match stod v with
      | Done d => Ok (VDouble d)
      | _ => Err (TypeMismatch_error "Env var could not be parsed as double")
      end)
  | TBool =>
      let lower := string_map to_lower v in
      Done (if String.eqb lower "true" || String.eqb lower "1" then Ok (VBool true)
            else if String.eqb lower "false" || String.eqb lower "0" then Ok (VBool false)
            else Err (TypeMismatch_error "Env var could not be parsed as bool"))
  end.

Lemma read_as_from_override environ c section ty key v :
  GetEnvOverride environ section key = Some v → read_as environ c section ty key = from_override ty v.
Proof.
  intros Hv. destruct ty; cbn; unfold GetString, GetInt64, GetDouble, GetBool; rewrite Hv; cbn; try done.
  - by destruct (stoll_returns v) as [[? ->]|[? ->]].
  - by destruct (stod_returns v) as [[? ->]|[? ->]].
  - by repeat case_match.
Qed.

(** A getter looks at the environment through its own variable only. *)
Lemma read_as_same environ environ' c section ty key :
  GetEnvOverride environ section key = GetEnvOverride environ' section key →
  read_as environ c section ty key = read_as environ' c section ty key.
Proof. intros E. destruct ty; cbn; unfold GetString, GetInt64, GetDouble, GetBool; by rewrite E. Qed.

(** A name a variable can have. *)
Fixpoint plain_name (s : string) : bool :=
  match s with
  | EmptyString => true
  | String c s' => negb (Ascii.eqb c zero) && negb (Ascii.eqb c "=") && plain_name s'
  end.

Lemma c_str_plain s : plain_name s = true → c_str s = s.
Proof.
  induction s as [|c s IH]; [done|]. cbn. rewrite !andb_true_iff, !negb_true_iff. intros [[-> _] Hs]. by rewrite IH.
Qed.

Lemma starts_with_cons a b s s' :
  starts_with (String a s) (String b s') = Ascii.eqb a b && starts_with s s'.
Proof.
  unfold starts_with. change (String.prefix (String a s) (String b s'))
    with (if ascii_dec a b then String.prefix s s' else false).
  by destruct (ascii_dec a b), (Ascii.eqb_spec a b).
Qed.

(** Of two names the one with [=] behind it starts the entry of the other
    exactly when they are the same. *)
Lemma starts_with_name n n' v :
  plain_name n = true → plain_name n' = true →
  starts_with (n +:+ "=") (n' +:+ String "=" v) = String.eqb n n'.
Proof.
  revert n'. induction n as [|c n IH]; intros [|c' n']; cbn [plain_name String.eqb];
    rewrite ?append_cons, ?append_empty_l, starts_with_cons, ?andb_true_iff, ?negb_true_iff.
  - by destruct v.
  - intros _ [[_ Hc] _]. by rewrite Ascii.eqb_sym, Hc.
  - intros [[_ Hc] _] _. by rewrite Hc.
  - intros [_ Hn] [_ Hn']. rewrite (IH _ Hn Hn'). by destruct (Ascii.eqb c c').
Qed.

Lemma value_after_name n v :
  String.substring (String.length n + 1) (String.length (n +:+ String "=" v) - String.length n - 1) (n +:+ String "=" v) = v.
Proof.
  assert (n +:+ String "=" v = (n +:+ "=") +:+ v) as -> by by rewrite append_assoc.
  assert (String.length n + 1 = String.length (n +:+ "="))%nat as -> by by rewrite length_string_app.
  rewrite substring_app_r, !length_string_app. cbn [String.length].
  replace (_ - _ - _)%nat with (String.length v) by lia.
  rewrite <- (append_empty_r v) at 2. by rewrite substring_app_l.
Qed.

Definition variable (key : string) : string := "NIMBUS_NODE_" +:+ ToUpperAndUnderscore key.

(** C35: What setting a variable does. With [NIMBUS_NODE_<NAME>=v] in front
    of the environment the getters read [v], parsed by the type asked for,
    for exactly the node-local keys that are spelled <NAME> in capitals with
    underscores for dots, whatever the file says; every other field, and every
    cluster invariant, reads as before. Keys that differ in case, or in dots
    and underscores, cannot be overridden apart. *)
Theorem override_sets_exactly (environ : Environ) (c : Config) (section : ConfigSection.t) (ty : ConfigFieldType)
  (key key' v : string) :
  plain_name (variable key) = true → plain_name (variable key') = true →
  read_as ((variable key +:+ "=" +:+ v) :: environ) c section ty key' =
    match section with
    | ConfigSection.NodeLocal =>
        if String.eqb (variable key') (variable key) then from_override ty v
        else read_as environ c section ty key'
    | ConfigSection.ClusterInvariant => read_as environ c section ty key'
    end.
Proof.
  intros Hk Hk'. change ("=" +:+ v) with (String "=" v).
  destruct section; [by apply read_as_same|].
  assert (GetEnvOverride ((variable key +:+ String "=" v) :: environ) ConfigSection.NodeLocal key' =
    if String.eqb (variable key') (variable key) then Some v else GetEnvOverride environ ConfigSection.NodeLocal key') as E.
  { unfold GetEnvOverride. fold (variable key'). rewrite (c_str_plain _ Hk'). cbn [getenv].
    rewrite (starts_with_name _ _ _ Hk' Hk). destruct (String.eqb_spec (variable key') (variable key)) as [->|]; [|done].
    by rewrite value_after_name. }
  destruct (String.eqb _ _); [by apply read_as_from_override|by apply read_as_same].
Qed.

End Reading.

(** ** A run *)

(** JSON values for the witnesses; the parser knows one document. *)
Inductive tree :=
  | TreeObject (members : list (string * tree))
  | TreeString (v : string)
  | TreeInteger (v : Z)
  | TreeFloat (v : Z)
  | TreeBoolean (v : bool).

Fixpoint tree_find (key : string) (members : list (string * tree)) : option tree :=
  match members with
  | [] => None
  | (k, j) :: members' => if String.eqb key k then Some j else tree_find key members'
  end.

Definition tree_member (j : tree) (key : string) : option tree :=
  match j with TreeObject members => tree_find key members | _ => None end.

Definition type_error : exn := runtime_error "type_error".

Definition sample_tree : tree :=
  TreeObject [("cluster_invariant", TreeObject [("cluster_port", TreeInteger 8080)]);
              ("node_local", TreeObject [("threads", TreeInteger 8)])].

Definition toy_json : Nlohmann := {|
  json := tree;
  double := Z;
  json_parse file := if String.eqb file "sample" then Value_of sample_tree else parse_error "unexpected end of input";
  contains j key := bool_decide (is_Some (tree_member j key));
  at_key j key := default j (tree_member j key);
  is_string j := match j with TreeString _ => true | _ => false end;
  is_number_integer j := match j with TreeInteger _ => true | _ => false end;
  is_number_float j := match j with TreeFloat _ => true | _ => false end;
  is_number j := match j with TreeInteger _ | TreeFloat _ => true | _ => false end;
  is_boolean j := match j with TreeBoolean _ => true | _ => false end;
  get_string j := match j with TreeString v => Done v | _ => Throws type_error end;
  get_int64 j := match j with TreeInteger v => Done v | _ => Throws type_error end;
  get_double j := match j with TreeInteger v | TreeFloat v => Done v | _ => Throws type_error end;
  get_bool j := match j with TreeBoolean v => Done v | _ => Throws type_error end;
  stod s := stoll s
|}.

Lemma toy_json_laws : @NlohmannLaws toy_json.
Proof.
  split.
  - by intros [].
  - intros []; naive_solver.
  - intros []; naive_solver.
  - intros []; naive_solver.
  - intros []; naive_solver.
  - exact stoll_returns.
Qed.

Definition sample_schema : ConfigSchema :=
  RequireNodeLocal "threads" TInt64
    (OptionalNodeLocal "node_name" TString (RequireClusterInvariant "cluster_port" TInt64 ConfigSchema_new)).

Definition sample_config : @Config toy_json := @Build_Config toy_json sample_tree.

Definition sample_environ : Environ := ["PATH=/bin"; "NIMBUS_NODE_THREADS=12 threads"].

Definition sample_read (path : string) : option string :=
  if String.eqb path "config.json" then Some "sample" else None.

Lemma validated_reads_witness :
  ∃ r, @read_as toy_json [] sample_config ConfigSection.NodeLocal TInt64 "threads" = Done r ∧
    match r with Ok _ => True | Err _ => False end.
Proof.
  destruct (@validated_reads toy_json toy_json_laws [] sample_schema sample_config
    ConfigSection.NodeLocal "threads" {| type := TInt64; required := true |} eq_refl eq_refl) as (r & E & Hr).
  exists r. split; [exact E|]. destruct r as [v|e]; [exact I|].
  destruct Hr as [(_ & Hreq & _)|(_ & _ & _ & Henv)]; [discriminate Hreq|]. destruct Henv as [v Hv]. discriminate Hv.
Defined.

Lemma cluster_invariants_fixed_witness :
  ∃ v, ∀ environ',
    @read_as toy_json environ' sample_config ConfigSection.ClusterInvariant TInt64 "cluster_port" = Done (Ok v).
Proof.
  exact (proj2 (proj2 (@cluster_invariants_fixed toy_json toy_json_laws sample_environ sample_read "config.json"
    sample_schema sample_config "cluster_port" {| type := TInt64; required := true |}
    eq_refl eq_refl eq_refl eq_refl))).
Defined.

Lemma override_unchecked_witness :
  @Validate toy_json sample_environ sample_schema sample_config = Ok tt ∧
  @GetInt64 toy_json sample_environ sample_config ConfigSection.NodeLocal "threads" = Done (Ok 12).
Proof.
  destruct (@override_unchecked toy_json [] sample_environ sample_schema sample_config "threads" "12 threads"
    eq_refl (λ k, ltac:(intros [? [=]])) eq_refl) as [Hv Hg].
  split; [exact Hv|]. rewrite Hg. vm_compute. reflexivity.
Defined.

Lemma override_sets_exactly_witness :
  @read_as toy_json ["NIMBUS_NODE_THREADS=5"] sample_config ConfigSection.NodeLocal TInt64 "threads" = Done (Ok (VInt64 5)) ∧
  @read_as toy_json ["NIMBUS_NODE_THREADS=5"] sample_config ConfigSection.NodeLocal TString "node_name" =
    @read_as toy_json [] sample_config ConfigSection.NodeLocal TString "node_name".
Proof.
  split.
  - exact (@override_sets_exactly toy_json toy_json_laws [] sample_config ConfigSection.NodeLocal TInt64 "threads" "threads" "5" eq_refl eq_refl).
  - exact (@override_sets_exactly toy_json toy_json_laws [] sample_config ConfigSection.NodeLocal TString "threads" "node_name" "5" eq_refl eq_refl).
Defined.

(** With an override that is no number the same configuration still
    validates, but the field cannot be read any more. *)
Example override_hides_the_file :
  @Validate toy_json ["NIMBUS_NODE_THREADS=many"] sample_schema sample_config = Ok tt ∧
  @GetInt64 toy_json ["NIMBUS_NODE_THREADS=many"] sample_config ConfigSection.NodeLocal "threads" =
    Done (Err (TypeMismatch_error "Env var could not be parsed as int64")) ∧
  @GetInt64 toy_json [] sample_config ConfigSection.NodeLocal "threads" = Done (Ok 8).
Proof. by vm_compute. Qed.
