(* ===== verification/PathValidator.v ===== *)
(** * [nimbus::common::PathValidator]

    Models [libs/common/src/path_validator.cpp]: the checks on an absolute
    path, in the order the code makes them, and the display form. Of
    [std::regex] the model has the bracket expressions the configuration is
    made of (the default is one); a pattern outside that fragment has no
    model ([None]). *)

From S2P Require Import Prelude Result Cxx.

Inductive PathValidationError :=
  | NotAbsolute | ContainsParentTraversal | ContainsNullByte | ComponentTooLong
  | PathTooLong | InvalidCharacter | EmptyComponent.

#[export] Instance PathValidationError_eq_dec : EqDecision PathValidationError.
Proof. solve_decision. Defined.

Record PathValidatorConfig := MkPathConfig {
  max_component_length : Z;
  max_path_length : Z;
  allowed_character_pattern : string
}.

(** The member initialisers; the backslash escapes the hyphen. *)
Definition default_path_config : PathValidatorConfig := MkPathConfig 255 4096 "[A-Za-z0-9._\- ]".

(** ** Bracket expressions *)

Definition is_alnum (c : ascii) : bool := is_digit c || is_upper c || is_lower c.

(** What follows the opening bracket: single characters, escaped punctuation
    and ranges, up to the closing bracket that ends the pattern. *)
Fixpoint parse_items (s : string) : option (list (ascii * ascii)) :=
  match s with
  | EmptyString => None
  | String c rest =>
      if Ascii.eqb c "]" then (if String.eqb rest "" then Some [] else None)
      else if Ascii.eqb c "\" then
        match rest with
        | String d rest' => if is_alnum d then None else cons (d, d) <$> parse_items rest'
        | EmptyString => None
        end
      else
        match rest with
        | String h (String d rest') =>
            if Ascii.eqb h "-" && negb (Ascii.eqb d "]") then
              if Ascii.eqb d "\" then None else cons (c, d) <$> parse_items rest'
            else cons (c, c) <$> parse_items rest
        | _ => cons (c, c) <$> parse_items rest
        end
  end.

Definition in_items (items : list (ascii * ascii)) (c : ascii) : bool :=
  existsb (λ ab, (code ab.1 <=? code c)%Z && (code c <=? code ab.2)%Z) items.

(** The characters a pattern of the form [[...]] or [[^...]] matches. *)
Definition compile (pattern : string) : option (ascii → bool) :=
  match pattern with
  | String "[" (String "^" rest) => (λ items c, negb (in_items items c)) <$> parse_items rest
  | String "[" rest => in_items <$> parse_items rest
  | _ => None
  end.

(** ** The validator *)

Record PathValidator := MkPathValidator {
  config_ : PathValidatorConfig;
  allowed : ascii → bool
}.

(** The constructor compiles [^(pattern)+$]. *)
Definition PathValidator_new (config : PathValidatorConfig) : option PathValidator :=
  MkPathValidator config <$> compile (allowed_character_pattern config).

(** [regex_match(s, ^(pattern)+$)]: one or more matching characters. *)
Definition regex_match (v : PathValidator) (s : string) : bool :=
  negb (String.eqb s "") && string_forallb (allowed v) s.

(** [path.substr(start, count)], [None] standing for [npos]. *)
Definition component_at (path : string) (start : nat) (stop : option nat) : string :=
  String.substring start (match stop with None => String.length path - start | Some e => e - start end) path.

(** The loop over the components; [fuel] bounds the iterations. *)
Fixpoint ValidateLoop (fuel : nat) (v : PathValidator) (path : string) (start : nat) : Result unit PathValidationError :=
  match fuel with
  | O => Ok tt
  | S fuel' =>
      if (start <? String.length path) then
        let stop := String.index start "/" path in
        let component := component_at path start stop in
        if String.eqb component "" then Err EmptyComponent
        else if (max_component_length (config_ v) <? Z.of_nat (String.length component))%Z then Err ComponentTooLong
        else if String.eqb component ".." then Err ContainsParentTraversal
        else if negb (regex_match v component) then Err InvalidCharacter
        else match stop with
        | None => Ok tt
        | Some e => ValidateLoop fuel' v path (S e)
        end
      else Ok tt
  end.

Definition Validate (v : PathValidator) (path : string) : Result unit PathValidationError :=
  if match path with String c _ => negb (Ascii.eqb c "/") | EmptyString => true end then Err NotAbsolute
  else if (max_path_length (config_ v) <? Z.of_nat (String.length path))%Z then Err PathTooLong
  else if negb (string_forallb (λ c, negb (Ascii.eqb c "000")) path) then Err ContainsNullByte
  else if String.eqb path "/" then Ok tt
  else ValidateLoop (String.length path) v path 1.

(** The loop of [NormalizeForDisplay]: [back] is the last character pushed. *)
Fixpoint NormalizeLoop (back : ascii) (rest : string) : string :=
  match rest with
  | EmptyString => EmptyString
  | String c rest' =>
      if Ascii.eqb c "/" && Ascii.eqb back "/" then NormalizeLoop back rest'
      else String c (NormalizeLoop c rest')
  end.

Definition NormalizeForDisplay (path : string) : string :=
  match path with
  | EmptyString => EmptyString
  | String c rest => String c (NormalizeLoop c rest)
  end.

(** ** Components

    The pieces between slashes, and the check of one piece. *)

Fixpoint split_slash (s : string) : string * list string :=
  match s with
  | EmptyString => (EmptyString, [])
  | String c s' =>
      let '(w, ws) := split_slash s' in
      if Ascii.eqb c "/" then (EmptyString, w :: ws) else (String c w, ws)
  end.

Definition pieces (s : string) : list string := (split_slash s).1 :: (split_slash s).2.

Definition check_component (v : PathValidator) (component : string) : Result unit PathValidationError :=
  if String.eqb component "" then Err EmptyComponent
  else if (max_component_length (config_ v) <? Z.of_nat (String.length component))%Z then Err ComponentTooLong
  else if String.eqb component ".." then Err ContainsParentTraversal
  else if negb (string_forallb (allowed v) component) then Err InvalidCharacter
  else Ok tt.

(** The first error among the components; an empty last piece (the path ends
    in a slash) is not looked at. *)
Fixpoint check_pieces (v : PathValidator) (ws : list string) : Result unit PathValidationError :=
  match ws with
  | [] => Ok tt
  | [w] => if String.eqb w "" then Ok tt else check_component v w
  | w :: ws' => match check_component v w with Ok _ => check_pieces v ws' | Err e => Err e end
  end.

(** ** The loop is the check of the pieces *)

Definition no_slash (s : string) : bool := string_forallb (λ c, negb (Ascii.eqb c "/")) s.

Lemma pieces_cases s :
  (pieces s = [s] ∧ no_slash s = true) ∨
  (∃ w r, s = w +:+ String "/" r ∧ no_slash w = true ∧ pieces s = w :: pieces r).
Proof.
  induction s as [|c s IH]; [by left|]. unfold pieces, no_slash in *. cbn.
  destruct (split_slash s) as [w0 ws0] eqn:E. cbn in IH.
  destruct (Ascii.eqb_spec c "/") as [->|Hc]; cbn.
  - right. exists "", s. by rewrite E.
  - destruct IH as [[Heq Hns]|(w & r & -> & Hns & Heq)].
    + injection Heq as -> ->. by left.
    + right. exists (String c w), r. injection Heq as -> ->.
      split; [by autorewrite with cxx|]. split; [|done]. cbn.
      by destruct (Ascii.eqb_spec c "/").
Qed.

Lemma index_app pre s :
  String.index (String.length pre) "/" (pre +:+ s) = (λ k, String.length pre + k) <$> String.index 0 "/" s.
Proof.
  induction pre as [|c pre IH]; autorewrite with cxx; cbn [String.length].
  - by destruct (String.index 0 "/" s).
  - cbn. rewrite IH. by destruct (String.index 0 "/" s).
Qed.

Lemma prefix_slash c s : String.prefix "/" (String c s) = Ascii.eqb c "/".
Proof.
  by destruct c as [[] [] [] [] [] [] [] []], s.
Qed.

Lemma index_slash w r : no_slash w = true → String.index 0 "/" (w +:+ String "/" r) = Some (String.length w).
Proof.
  unfold no_slash. induction w as [|c w IH]; autorewrite with cxx; intros Hns.
  - cbn. by destruct r.
  - cbn in Hns. apply andb_true_iff in Hns as [Hc Hw].
    change (String.index 0 "/" (String c ?x)) with
      (if String.prefix "/" (String c x) then Some 0 else match String.index 0 "/" x with Some n => Some (S n) | None => None end).
    rewrite prefix_slash. apply negb_true_iff in Hc. by rewrite Hc, IH.
Qed.

Lemma index_no_slash s : no_slash s = true → String.index 0 "/" s = None.
Proof.
  unfold no_slash. induction s as [|c s IH]; [done|]. intros Hns. cbn in Hns. apply andb_true_iff in Hns as [Hc Hs].
  change (String.index 0 "/" (String c s)) with
    (if String.prefix "/" (String c s) then Some 0 else match String.index 0 "/" s with Some n => Some (S n) | None => None end).
  rewrite prefix_slash. apply negb_true_iff in Hc. by rewrite Hc, IH.
Qed.

Lemma component_no_slash pre s : component_at (pre +:+ s) (String.length pre) None = s.
Proof.
  unfold component_at. rewrite length_string_app.
  replace (String.length pre + String.length s - String.length pre) with (String.length s) by lia.
  rewrite substring_app_r. pose proof (substring_app_l s "") as Hs. by rewrite append_empty_r in Hs.
Qed.

Lemma component_slash pre w r :
  component_at (pre +:+ (w +:+ r)) (String.length pre) (Some (String.length pre + String.length w)) = w.
Proof.
  unfold component_at. replace (String.length pre + String.length w - String.length pre) with (String.length w) by lia.
  rewrite substring_app_r. apply substring_app_l.
Qed.

(** One piece: the conditions of the loop body. *)
Lemma check_component_eq v w : String.eqb w "" = false →
  check_component v w =
    (if (max_component_length (config_ v) <? Z.of_nat (String.length w))%Z then Err ComponentTooLong
     else if String.eqb w ".." then Err ContainsParentTraversal
     else if negb (regex_match v w) then Err InvalidCharacter else Ok tt).
Proof. intros Hw. unfold check_component, regex_match. by rewrite Hw. Qed.

Lemma ValidateLoop_pieces fuel v pre s :
  String.length s ≤ fuel →
  ValidateLoop fuel v (pre +:+ s) (String.length pre) = check_pieces v (pieces s).
Proof.
  revert pre s. induction fuel as [|fuel IH]; intros pre s Hl.
  - destruct s; [done|cbn in Hl; lia].
  - cbn [ValidateLoop]. rewrite length_string_app. destruct (Nat.ltb_spec (String.length pre) (String.length pre + String.length s)) as [Hlt|Hge].
    2: { destruct s; [done|cbn in Hge; lia]. }
    rewrite index_app. destruct (pieces_cases s) as [[Hp Hns]|(w & r & -> & Hns & Hp)].
    + rewrite index_no_slash by done. cbn [fmap option_fmap option_map]. rewrite component_no_slash, Hp.
      cbn [check_pieces]. destruct (String.eqb s "") eqn:Hs.
      * apply String.eqb_eq in Hs. subst. cbn in Hlt. lia.
      * by rewrite check_component_eq by done.
    + rewrite index_slash by done. cbn [fmap option_fmap option_map]. rewrite component_slash, Hp.
      assert (check_pieces v (w :: pieces r) = match check_component v w with Ok _ => check_pieces v (pieces r) | Err e => Err e end) as -> by done.
      destruct (String.eqb w "") eqn:Hw; [unfold check_component; by rewrite Hw|].
      rewrite check_component_eq by done.
      destruct (_ <? _)%Z; [done|]. destruct (String.eqb w ".."); [done|]. destruct (negb _); [done|].
      rewrite <- (IH (pre +:+ (w +:+ "/")) r).
      * rewrite !append_assoc. autorewrite with cxx. f_equal. rewrite !length_string_app. cbn. lia.
      * rewrite length_string_app in Hl. cbn in Hl. lia.
Qed.

(** ** What is accepted *)

(** The components of a path below its leading slash. *)
Fixpoint named (ws : list string) : list string :=
  match ws with
  | [] => []
  | [w] => if String.eqb w "" then [] else [w]
  | w :: ws' => w :: named ws'
  end.

Definition components (rest : string) : list string := named (pieces rest).

Definition good_component (v : PathValidator) (w : string) : Prop :=
  w ≠ "" ∧ w ≠ ".." ∧ (Z.of_nat (String.length w) ≤ max_component_length (config_ v))%Z ∧
  string_forallb (allowed v) w = true.

Definition no_nul (s : string) : bool := string_forallb (λ c, negb (Ascii.eqb c "000")) s.

Lemma check_component_ok v w : check_component v w = Ok tt ↔ good_component v w.
Proof.
  unfold check_component, good_component.
  destruct (String.eqb_spec w ""), (Z.ltb_spec (max_component_length (config_ v)) (Z.of_nat (String.length w))),
    (String.eqb_spec w ".."), (string_forallb (allowed v) w); cbn; split; intros; try done; try lia; naive_solver lia.
Qed.

Lemma check_pieces_ok v ws : check_pieces v ws = Ok tt ↔ Forall (good_component v) (named ws).
Proof.
  induction ws as [|w [|w' ws] IH]; [done| |].
  - cbn. destruct (String.eqb w ""); [done|]. rewrite Forall_singleton. apply check_component_ok.
  - assert (named (w :: w' :: ws) = w :: named (w' :: ws)) as -> by done.
    assert (check_pieces v (w :: w' :: ws) = match check_component v w with
      | Ok _ => check_pieces v (w' :: ws) | Err e => Err e end) as -> by done.
    rewrite Forall_cons, <- check_component_ok, <- IH.
    destruct (check_component v w) as [[]|e]; [tauto|]. by split; [|intros []].
Qed.

(** The checks on an absolute path, the loop replaced by the check of the
    pieces. *)
Lemma Validate_pieces v rest :
  Validate v (String "/" rest) =
    (if (max_path_length (config_ v) <? Z.of_nat (S (String.length rest)))%Z then Err PathTooLong
     else if negb (no_nul rest) then Err ContainsNullByte
     else check_pieces v (pieces rest)).
Proof.
  unfold Validate. cbn [String.length]. destruct (_ <? _)%Z; [done|].
  change (string_forallb (λ c, negb (Ascii.eqb c "000")) (String "/" rest)) with (no_nul rest).
  destruct (no_nul rest); [|done]. cbn [negb].
  destruct (String.eqb_spec (String "/" rest) "/") as [Heq|Hne].
  - injection Heq as ->. done.
  - change (String "/" rest) with ("/" +:+ rest). apply (ValidateLoop_pieces _ v "/" rest). lia.
Qed.

(** ** The display form *)

Fixpoint no_double_slash (s : string) : bool :=
  match s with
  | String a (String b _ as s') => negb (Ascii.eqb a "/" && Ascii.eqb b "/") && no_double_slash s'
  | _ => true
  end.

Lemma no_double_cons a b s :
  no_double_slash (String a (String b s)) = negb (Ascii.eqb a "/" && Ascii.eqb b "/") && no_double_slash (String b s).
Proof. done. Qed.

Lemma NormalizeLoop_none back s : no_double_slash (String back (NormalizeLoop back s)) = true.
Proof.
  revert back. induction s as [|c s IH]; intros back; cbn; [done|].
  destruct (Ascii.eqb c "/" && Ascii.eqb back "/") eqn:E; [apply IH|].
  cbn [no_double_slash]. rewrite (andb_comm (Ascii.eqb back "/")), E. apply IH.
Qed.

Lemma NormalizeLoop_id back s : no_double_slash (String back s) = true → NormalizeLoop back s = s.
Proof.
  revert back. induction s as [|c s IH]; intros back; cbn [NormalizeLoop]; [done|].
  cbn [no_double_slash]. rewrite andb_true_iff, negb_true_iff. intros [Hd Hs].
  rewrite (andb_comm (Ascii.eqb c "/")), Hd. by rewrite IH.
Qed.

(** A path of non-empty components has no double slash. *)
Lemma no_double_word a w r :
  Ascii.eqb a "/" = false → no_slash w = true →
  no_double_slash (String a (w +:+ String "/" r)) = no_double_slash (String "/" r).
Proof.
  revert a. unfold no_slash. induction w as [|c w IH]; intros a Ha Hw; autorewrite with cxx.
  - cbn. rewrite Ha. done.
  - cbn in Hw. apply andb_true_iff in Hw as [Hc Hw]. apply negb_true_iff in Hc.
    rewrite no_double_cons, Ha. by apply IH.
Qed.

Lemma no_double_end a w : Ascii.eqb a "/" = false → no_slash w = true → no_double_slash (String a w) = true.
Proof.
  revert a. unfold no_slash. induction w as [|c w IH]; intros a Ha Hw; [done|].
  cbn in Hw. apply andb_true_iff in Hw as [Hc Hw]. apply negb_true_iff in Hc. rewrite no_double_cons, Ha. by apply IH.
Qed.

Lemma accepted_no_double v s : check_pieces v (pieces s) = Ok tt → no_double_slash (String "/" s) = true.
Proof.
  remember (String.length s) as n eqn:Hn. revert s Hn. induction (lt_wf n) as [n _ IH]. intros s -> Hok.
  destruct (pieces_cases s) as [[_ Hns]|(w & r & -> & Hns & Hp)].
  - destruct s as [|c s]; [done|]. unfold no_slash in Hns. cbn in Hns. apply andb_true_iff in Hns as [Hc Hs].
    apply negb_true_iff in Hc. rewrite no_double_cons, Hc. by apply no_double_end.
  - rewrite Hp in Hok.
    assert (check_pieces v (w :: pieces r) = match check_component v w with Ok _ => check_pieces v (pieces r) | Err e => Err e end) as Heq by done.
    rewrite Heq in Hok. destruct (check_component v w) as [[]|e] eqn:Hw; [|done].
    apply check_component_ok in Hw as [Hne _]. destruct w as [|c w]; [done|].
    unfold no_slash in Hns. cbn in Hns. apply andb_true_iff in Hns as [Hc Hs]. apply negb_true_iff in Hc.
    autorewrite with cxx. rewrite no_double_cons, Hc, no_double_word by done.
    eapply (IH (String.length r)); [|done|done]. rewrite length_string_app. cbn. lia.
Qed.

(** ** Theorems *)

(** C28: exactly these paths are accepted: absolute, within the length limit,
    without a NUL, and made of components that are non-empty, within their
    limit, made of allowed characters and different from [..] (one trailing
    slash is allowed). *)
Theorem Validate_accepts (v : PathValidator) (path : string) :
  Validate v path = Ok tt ↔
  ∃ rest, path = String "/" rest ∧ (Z.of_nat (String.length path) ≤ max_path_length (config_ v))%Z ∧
    no_nul path = true ∧ Forall (good_component v) (components rest).
Proof.
  split.
  - destruct path as [|c rest]; [done|]. destruct (Ascii.eqb_spec c "/") as [->|Hc].
    2: { unfold Validate. destruct (Ascii.eqb_spec c "/"); done. }
    rewrite Validate_pieces. destruct (Z.ltb_spec (max_path_length (config_ v)) (Z.of_nat (S (String.length rest)))); [done|].
    destruct (no_nul rest) eqn:Hn; [|done]. cbn [negb]. rewrite check_pieces_ok. intros Hok.
    exists rest. by split_and!.
  - intros (rest & -> & Hl & Hn & Hok). rewrite Validate_pieces. cbn [String.length] in Hl.
    destruct (Z.ltb_spec (max_path_length (config_ v)) (Z.of_nat (S (String.length rest)))); [lia|].
    change (no_nul (String "/" rest)) with (no_nul rest) in Hn. rewrite Hn. cbn [negb].
    by apply check_pieces_ok.
Qed.

(** The error reported is that of the first check that fails, in the
    order: absolute, length, NUL, then component by component from the left:
    empty, too long, [..], characters. *)
Theorem Validate_first_error (v : PathValidator) (path : string) :
  Validate v path =
    match path with
    | String "/" rest =>
        if (max_path_length (config_ v) <? Z.of_nat (S (String.length rest)))%Z then Err PathTooLong
        else if negb (no_nul rest) then Err ContainsNullByte
        else check_pieces v (pieces rest)
    | _ => Err NotAbsolute
    end.
Proof.
  destruct path as [|c rest]; [done|]. destruct (Ascii.eqb_spec c "/") as [->|Hc]; [apply Validate_pieces|].
  unfold Validate. destruct (Ascii.eqb_spec c "/"); [done|]. cbn [negb].
  by destruct c as [[] [] [] [] [] [] [] []].
Qed.

(** The display form never shows two slashes in a row, normalising twice
    changes nothing, and a path the validator accepts is its own display
    form. *)
Theorem NormalizeForDisplay_canonical (v : PathValidator) (path : string) :
  no_double_slash (NormalizeForDisplay path) = true ∧
  NormalizeForDisplay (NormalizeForDisplay path) = NormalizeForDisplay path ∧
  (Validate v path = Ok tt → NormalizeForDisplay path = path).
Proof.
  destruct path as [|c rest]; [done|]. cbn [NormalizeForDisplay]. split; [apply NormalizeLoop_none|]. split.
  - by rewrite (NormalizeLoop_id c) by apply NormalizeLoop_none.
  - destruct (Ascii.eqb_spec c "/") as [->|Hc].
    + rewrite Validate_pieces. destruct (_ <? _)%Z; [done|]. destruct (negb _); [done|].
      intros Hok%accepted_no_double. by rewrite NormalizeLoop_id.
    + unfold Validate. destruct (Ascii.eqb_spec c "/"); [done|]. done.
Qed.

(** ** The default configuration *)

Definition default_validator : PathValidator :=
  match PathValidator_new default_path_config with
  | Some v => v
  | None => MkPathValidator default_path_config (λ _, false)
  end.

Lemma default_allowed c :
  allowed default_validator c =
    is_alnum c || Ascii.eqb c "." || Ascii.eqb c "_" || Ascii.eqb c "-" || Ascii.eqb c " ".
Proof. by destruct c as [[] [] [] [] [] [] [] []]. Qed.

(** The default pattern means what it looks like: letters, digits, dot,
    underscore, hyphen and space, and nothing else (the escaped hyphen makes
    no range); a path is refused as soon as a component leaves that set. *)
Theorem default_pattern (c : ascii) (component : string) :
  (∃ v, PathValidator_new default_path_config = Some v ∧
     allowed v c = is_alnum c || Ascii.eqb c "." || Ascii.eqb c "_" || Ascii.eqb c "-" || Ascii.eqb c " " ∧
     (good_component v component ↔
        component ≠ "" ∧ component ≠ ".." ∧ (String.length component ≤ 255)%nat ∧
        string_forallb (λ c, is_alnum c || Ascii.eqb c "." || Ascii.eqb c "_" || Ascii.eqb c "-" || Ascii.eqb c " ") component = true)).
Proof.
  exists default_validator. split; [done|]. split; [apply default_allowed|].
  assert (string_forallb (allowed default_validator) component = string_forallb
    (λ c, is_alnum c || Ascii.eqb c "." || Ascii.eqb c "_" || Ascii.eqb c "-" || Ascii.eqb c " ") component) as Heq.
  { clear c. induction component as [|c w IH]; cbn [string_forallb]; [done|]. by rewrite default_allowed, IH. }
  unfold good_component. rewrite Heq. change (max_component_length (config_ default_validator)) with 255%Z.
  split; intros (? & ? & ? & ?); split_and!; try done; lia.
Qed.

Lemma NormalizeForDisplay_canonical_witness :
  NormalizeForDisplay "/a//b///c" = "/a/b/c" ∧
  Validate default_validator "/deep/with.special-chars_and spaces/" = Ok tt ∧
  NormalizeForDisplay "/deep/with.special-chars_and spaces/" = "/deep/with.special-chars_and spaces/".
Proof.
  split; [reflexivity|]. split; [reflexivity|].
  exact (proj2 (proj2 (NormalizeForDisplay_canonical default_validator "/deep/with.special-chars_and spaces/")) eq_refl).
Defined.
