(* ===== verification/Queue.v ===== *)
(** * [nimbus::common::BoundedBlockingQueue]

    Models [libs/common/include/nimbus/common/bounded_blocking_queue.h]. What
    a method does while it holds the mutex is one function of the queue; the
    threads, the two condition variables and the interleavings of the critical
    sections are a step relation labelled with events. *)

From S2P Require Import Prelude Result.
From stdpp Require Import relations.

Module BoundedBlockingQueue.

Inductive QueueError := ShutDown | Timeout.

Section Queue.
Context {T : Type}.

Record Queue := MkQueue { items_ : list T; capacity_ : nat; shutdown_ : bool }.

Definition new (capacity : nat) : outcome Queue :=
  if (capacity =? 0) then Throws (logic_error "BoundedBlockingQueue capacity cannot be zero")
  else Done (MkQueue [] capacity false).

(** ** Critical sections

    The calls in progress, the replies, and the signal a section sends before
    it unlocks. [None]: the predicate of the wait does not hold, the thread
    sleeps on the condition variable. *)

Inductive call := CallPush (item : T) | CallPop | CallTryPush (item : T) | CallTryPop.

Inductive reply :=
  | ReplyPush (r : Result unit QueueError)
  | ReplyPop (o : option T)
  | ReplyTryPop (r : Result (option T) QueueError).

Inductive signal := no_signal | not_empty_notify_one | not_full_notify_one.

Definition not_full (q : Queue) : bool := shutdown_ q || (length (items_ q) <? capacity_ q).
Definition not_empty (q : Queue) : bool := shutdown_ q || negb (match items_ q with [] => true | _ => false end).

(** [push] of the underlying queue, and [front] with [pop]. *)
Definition push_item (item : T) (q : Queue) : Queue := MkQueue (items_ q ++ [item]) (capacity_ q) (shutdown_ q).
Definition pop_item (q : Queue) : option (T * Queue) :=
  match items_ q with
  | [] => None
  | item :: rest => Some (item, MkQueue rest (capacity_ q) (shutdown_ q))
  end.

Definition Push (item : T) (q : Queue) : option (Result unit QueueError * Queue * signal) :=
  if negb (not_full q) then None
  else if shutdown_ q then Some (Err ShutDown, q, no_signal)
  else Some (Ok tt, push_item item q, not_empty_notify_one).

Definition empty (q : Queue) : bool := match items_ q with [] => true | _ => false end.

(** Past both tests the queue has a front. *)
Definition Pop (q : Queue) : option (option T * Queue * signal) :=
  if negb (not_empty q) then None
  else if shutdown_ q && empty q then Some (None, q, no_signal)
  else match pop_item q with
  | None => Some (None, q, no_signal)
  | Some (item, q') => Some (Some item, q', not_full_notify_one)
  end.

(** [wait_for] gives the value of the predicate when the time is up:
    [expired] tells that it is. *)
Definition TryPush (item : T) (expired : bool) (q : Queue) : option (Result unit QueueError * Queue * signal) :=
  if negb (not_full q) then (if expired then Some (Err Timeout, q, no_signal) else None)
  else if shutdown_ q then Some (Err ShutDown, q, no_signal)
  else Some (Ok tt, push_item item q, not_empty_notify_one).

Definition TryPop (expired : bool) (q : Queue) : option (Result (option T) QueueError * Queue * signal) :=
  if negb (not_empty q) then (if expired then Some (Err Timeout, q, no_signal) else None)
  else if shutdown_ q && empty q then Some (Ok None, q, no_signal)
  else match pop_item q with
  | None => Some (Ok None, q, no_signal)
  | Some (item, q') => Some (Ok (Some item), q', not_full_notify_one)
  end.

Definition Shutdown (q : Queue) : Queue := MkQueue (items_ q) (capacity_ q) true.

Definition SizeApprox (q : Queue) : nat := length (items_ q).

Definition section (c : call) (expired : bool) (q : Queue) : option (reply * Queue * signal) :=
  match c with
  | CallPush item => '(r, q', s) ← Push item q; Some (ReplyPush r, q', s)
  | CallPop => '(o, q', s) ← Pop q; Some (ReplyPop o, q', s)
  | CallTryPush item => '(r, q', s) ← TryPush item expired q; Some (ReplyPush r, q', s)
  | CallTryPop => '(r, q', s) ← TryPop expired q; Some (ReplyTryPop r, q', s)
  end.

(** ** Threads

    A call is awake (it competes for the mutex and will evaluate its
    predicate) or asleep on the condition variable of its kind. *)

Definition is_pop (c : call) : bool := match c with CallPop | CallTryPop => true | _ => false end.
Definition is_timed (c : call) : bool := match c with CallTryPush _ | CallTryPop => true | _ => false end.

Record Sys := MkSys {
  queue : Queue;
  awake : list (call * bool);      (** with its time expired or not *)
  asleep : list call;
  pushed : list T;                 (** all items accepted so far, in order *)
  popped : list T                  (** all items handed out so far, in order *)
}.

Definition initial (q : Queue) : Sys := MkSys q [] [] [] [].

(** Who waits on the condition variable a signal is for: [not_empty_] is for
    the poppers. *)
Definition wakes (s : signal) (c : call) : bool :=
  match s with
  | no_signal => false
  | not_empty_notify_one => is_pop c
  | not_full_notify_one => negb (is_pop c)
  end.

(** [notify_one]: one of the waiting threads, if there is any. *)
Inductive notified (s : signal) (l : list call) (w : list (call * bool)) : list call → list (call * bool) → Prop :=
  | notify_nobody : Forall (λ c, wakes s c = false) l → notified s l w l w
  | notify_somebody l1 c l2 : l = l1 ++ c :: l2 → wakes s c = true → notified s l w (l1 ++ l2) ((c, false) :: w).

Definition accepted (c : call) (r : reply) : list T :=
  match c, r with
  | CallPush item, ReplyPush (Ok _) | CallTryPush item, ReplyPush (Ok _) => [item]
  | _, _ => []
  end.

Definition handed_out (r : reply) : list T :=
  match r with
  | ReplyPop (Some item) | ReplyTryPop (Ok (Some item)) => [item]
  | _ => []
  end.

(** What happens in a step. *)
Inductive event := Called (c : call) | Returned (c : call) (r : reply) | Waits | Spurious | Expired | ShutsDown.

Inductive step : event → Sys → Sys → Prop :=
  (** a thread calls a method *)
  | step_call c q w l ps os :
      step (Called c) (MkSys q w l ps os) (MkSys q ((c, false) :: w) l ps os)
  (** an awake thread gets the mutex and finishes its call *)
  | step_return c e r q q' s w1 w2 w' l l' ps os :
      section c e q = Some (r, q', s) → notified s l (w1 ++ w2) l' w' →
      step (Returned c r) (MkSys q (w1 ++ (c, e) :: w2) l ps os)
           (MkSys q' w' l' (ps ++ accepted c r) (os ++ handed_out r))
  (** an awake thread gets the mutex and has to wait *)
  | step_wait c e q w1 w2 l ps os :
      section c e q = None →
      step Waits (MkSys q (w1 ++ (c, e) :: w2) l ps os) (MkSys q (w1 ++ w2) (c :: l) ps os)
  (** a spurious wake-up *)
  | step_spurious c q w l1 l2 ps os :
      step Spurious (MkSys q w (l1 ++ c :: l2) ps os) (MkSys q ((c, false) :: w) (l1 ++ l2) ps os)
  (** the time of a waiting [TryPush] or [TryPop] is up *)
  | step_expire c q w l1 l2 ps os :
      is_timed c = true →
      step Expired (MkSys q w (l1 ++ c :: l2) ps os) (MkSys q ((c, true) :: w) (l1 ++ l2) ps os)
  (** ... possibly when it has been notified but does not have the mutex *)
  | step_expire_awake c e q w1 w2 l ps os :
      is_timed c = true →
      step Expired (MkSys q (w1 ++ (c, e) :: w2) l ps os) (MkSys q (w1 ++ (c, true) :: w2) l ps os)
  (** [Shutdown] notifies everybody *)
  | step_shutdown q w l ps os :
      step ShutsDown (MkSys q w l ps os) (MkSys (Shutdown q) (w ++ map (λ c, (c, false)) l) [] ps os).

(** The runs of a queue, with what happened, and the states they reach. *)
Inductive run (capacity : nat) : list event → Sys → Prop :=
  | run_start q : new capacity = Done q → run capacity [] (initial q)
  | run_step tr s e s' : run capacity tr s → step e s s' → run capacity (tr ++ [e]) s'.

Definition reachable (capacity : nat) (s : Sys) : Prop := ∃ tr, run capacity tr s.

(** ** The invariant *)

Definition count_awake (pop : bool) (w : list (call * bool)) : nat :=
  length (filter (λ ce, is_pop ce.1 = pop) w).

Definition some_asleep (pop : bool) (l : list call) : Prop := Exists (λ c, is_pop c = pop) l.

Record inv (capacity : nat) (s : Sys) : Prop := {
  inv_capacity : capacity_ (queue s) = capacity ∧ 0 < capacity;
  inv_bound : length (items_ (queue s)) ≤ capacity;
  inv_fifo : pushed s = popped s ++ items_ (queue s);
  (** enough poppers are awake for the items that are there *)
  inv_poppers : some_asleep true (asleep s) →
    shutdown_ (queue s) = false ∧ length (items_ (queue s)) ≤ count_awake true (awake s);
  (** enough pushers are awake for the room that is there *)
  inv_pushers : some_asleep false (asleep s) →
    shutdown_ (queue s) = false ∧ capacity - length (items_ (queue s)) ≤ count_awake false (awake s)
}.

Lemma count_awake_app pop w1 w2 : count_awake pop (w1 ++ w2) = count_awake pop w1 + count_awake pop w2.
Proof. unfold count_awake. by rewrite filter_app, length_app. Qed.

Lemma count_awake_cons pop c e w :
  count_awake pop ((c, e) :: w) = (if bool_decide (is_pop c = pop) then 1 else 0) + count_awake pop w.
Proof. unfold count_awake. rewrite filter_cons. cbn. by repeat case_decide; case_bool_decide. Qed.

Lemma some_asleep_app pop l1 c l2 :
  some_asleep pop (l1 ++ c :: l2) ↔ is_pop c = pop ∨ some_asleep pop (l1 ++ l2).
Proof. unfold some_asleep. rewrite !Exists_app, Exists_cons. tauto. Qed.

(** What a finished section has done: nothing, an item in, or an item out. *)
Inductive section_did (c : call) (q q' : Queue) (s : signal) (inn out : list T) : Prop :=
  | did_nothing : q' = q → s = no_signal → inn = [] → out = [] →
      (shutdown_ q = false → if is_pop c then items_ q = [] else capacity_ q ≤ length (items_ q)) →
      section_did c q q' s inn out
  | did_push item : is_pop c = false → q' = push_item item q → s = not_empty_notify_one → inn = [item] → out = [] →
      shutdown_ q = false → length (items_ q) < capacity_ q → section_did c q q' s inn out
  | did_pop item rest : is_pop c = true → items_ q = item :: rest →
      q' = MkQueue rest (capacity_ q) (shutdown_ q) → s = not_full_notify_one → inn = [] → out = [item] →
      section_did c q q' s inn out.

Lemma not_full_false q : not_full q = false → shutdown_ q = false ∧ capacity_ q ≤ length (items_ q).
Proof. unfold not_full. rewrite orb_false_iff, Nat.ltb_ge. done. Qed.

Lemma not_full_true q : not_full q = true → shutdown_ q = false → length (items_ q) < capacity_ q.
Proof. unfold not_full. intros Hf Hs. rewrite Hs in Hf. by apply Nat.ltb_lt in Hf. Qed.

Lemma not_empty_false q : not_empty q = false → shutdown_ q = false ∧ items_ q = [].
Proof. unfold not_empty. rewrite orb_false_iff, negb_false_iff. intros [? ?]. by destruct (items_ q). Qed.

Lemma not_empty_front q :
  not_empty q = true → shutdown_ q && empty q = false → ∃ item rest, items_ q = item :: rest.
Proof.
  unfold not_empty, empty. destruct (shutdown_ q), (items_ q) as [|item rest]; cbn; intros; try done; by exists item, rest.
Qed.

Lemma section_some c e q r q' s :
  section c e q = Some (r, q', s) → section_did c q q' s (accepted c r) (handed_out r).
Proof.
  destruct c as [item| |item|]; cbn [section]; unfold Push, Pop, TryPush, TryPop.
  1,3: destruct (not_full q) eqn:Hf; cbn [negb];
    [destruct (shutdown_ q) eqn:Hs|destruct (not_full_false q Hf); try destruct e];
    intros Heq; simplify_eq/=.
  1,3: apply did_nothing; cbn; congruence.
  1,2: eapply did_push; eauto using not_full_true.
  1: by apply did_nothing.
  1,2: destruct (not_empty q) eqn:Hf; cbn [negb];
    [destruct (shutdown_ q && empty q) eqn:Hs|destruct (not_empty_false q Hf); try destruct e];
    intros Heq; simplify_eq/=.
  1,3: apply andb_true_iff in Hs as [Hs _]; apply did_nothing; cbn; congruence.
  1,2: destruct (not_empty_front q Hf Hs) as (x & rest & Hi); unfold pop_item in Heq; rewrite Hi in Heq;
    simplify_eq/=; by eapply did_pop.
  apply did_nothing; done.
Qed.

Lemma section_none c e q :
  section c e q = None → shutdown_ q = false ∧ if is_pop c then items_ q = [] else capacity_ q ≤ length (items_ q).
Proof.
  destruct c as [item| |item|]; cbn [section is_pop]; unfold Push, Pop, TryPush, TryPop.
  1,3: destruct (not_full q) eqn:Hf; cbn [negb]; [by destruct (shutdown_ q)|intros _; by apply not_full_false].
  all: destruct (not_empty q) eqn:Hf; cbn [negb]; [|intros _; by apply not_empty_false].
  all: destruct (shutdown_ q && empty q) eqn:Hs; [done|].
  all: destruct (not_empty_front q Hf Hs) as (x & rest & Hi); unfold pop_item; by rewrite Hi.
Qed.

(** The sleepers a signal leaves, and those it wakes. *)
Lemma notified_asleep s l w l' w' pop :
  notified s l w l' w' → some_asleep pop l' → some_asleep pop l.
Proof. intros [|l1 c l2 -> _] Hs; [done|]. apply some_asleep_app. by right. Qed.

Lemma notified_awake s l w l' w' pop : notified s l w l' w' → count_awake pop w ≤ count_awake pop w'.
Proof. intros [|l1 c l2 -> _]; [done|]. rewrite count_awake_cons. lia. Qed.

Lemma notified_one s l w l' w' pop :
  notified s l w l' w' → (∀ c, wakes s c = bool_decide (is_pop c = pop)) → some_asleep pop l' →
  S (count_awake pop w) ≤ count_awake pop w'.
Proof.
  intros [Hnone|l1 c l2 -> Hc] Hw Hs.
  - exfalso. unfold some_asleep in Hs. apply Exists_exists in Hs as (c & Hin & Hp).
    rewrite Forall_forall in Hnone. specialize (Hnone c Hin). rewrite Hw, bool_decide_true in Hnone by done. done.
  - rewrite count_awake_cons, <- Hw, Hc. done.
Qed.

Lemma inv_return capacity c e q r q' s w1 w2 w' l l' ps os :
  section c e q = Some (r, q', s) → notified s l (w1 ++ w2) l' w' →
  inv capacity (MkSys q (w1 ++ (c, e) :: w2) l ps os) →
  inv capacity (MkSys q' w' l' (ps ++ accepted c r) (os ++ handed_out r)).
Proof.
  intros Hsec Hn [[Hcap Hpos] Hb Hf Hp Hq]. cbn [queue awake asleep pushed popped] in *. subst ps.
  assert (∀ pop, count_awake pop (w1 ++ (c, e) :: w2) =
    (if bool_decide (is_pop c = pop) then 1 else 0) + count_awake pop (w1 ++ w2)) as Hcount.
  { intros pop. rewrite !count_awake_app, count_awake_cons. lia. }
  rewrite Hcount in Hp, Hq. pose proof (notified_awake _ _ _ _ _ true Hn). pose proof (notified_awake _ _ _ _ _ false Hn).
  pose proof (notified_asleep _ _ _ _ _ true Hn). pose proof (notified_asleep _ _ _ _ _ false Hn).
  destruct (section_some _ _ _ _ _ _ Hsec) as [-> -> -> -> Hno|item Hc -> -> -> -> Hsd Hlt|item rest Hc Hi -> -> -> ->];
    rewrite ?app_nil_r; split; cbn [queue awake asleep pushed popped push_item items_ capacity_ shutdown_].
  - done.
  - done.
  - done.
  - intros Hs. destruct Hp as [Hsd Hle]; [auto|]. split; [done|]. specialize (Hno Hsd).
    destruct (is_pop c); [rewrite Hno; cbn; lia|]. rewrite bool_decide_false in Hle by done. lia.
  - intros Hs. destruct Hq as [Hsd Hle]; [auto|]. split; [done|]. specialize (Hno Hsd).
    destruct (is_pop c); [rewrite bool_decide_false in Hle by done; lia|]. lia.
  - done.
  - rewrite length_app. cbn. lia.
  - by rewrite app_assoc.
  - intros Hs. destruct Hp as [_ Hle]; [auto|]. split; [done|].
    rewrite bool_decide_false in Hle by (by rewrite Hc). rewrite length_app. cbn.
    pose proof (notified_one _ _ _ _ _ true Hn ltac:(by intros []) Hs). lia.
  - intros Hs. destruct Hq as [_ Hle]; [auto|]. split; [done|].
    rewrite bool_decide_true in Hle by done. rewrite length_app. cbn. lia.
  - done.
  - rewrite Hi in Hb. cbn in Hb. lia.
  - rewrite Hi, <- app_assoc. done.
  - intros Hs. destruct Hp as [Hsd Hle]; [auto|]. split; [done|].
    rewrite bool_decide_true, Hi in Hle by done. cbn in Hle. lia.
  - intros Hs. destruct Hq as [Hsd Hle]; [auto|]. split; [done|].
    rewrite bool_decide_false, Hi in Hle by (by rewrite Hc). cbn in Hle.
    pose proof (notified_one _ _ _ _ _ false Hn ltac:(by intros []) Hs). lia.
Qed.

Lemma inv_wait capacity c e q w1 w2 l ps os :
  section c e q = None → inv capacity (MkSys q (w1 ++ (c, e) :: w2) l ps os) →
  inv capacity (MkSys q (w1 ++ w2) (c :: l) ps os).
Proof.
  intros [Hsd Hcond]%section_none [[Hcap Hpos] Hb Hf Hp Hq]. cbn [queue awake asleep pushed popped] in *.
  rewrite !count_awake_app, count_awake_cons in Hp, Hq. unfold some_asleep in *.
  split; cbn [queue awake asleep pushed popped]; try done; rewrite count_awake_app; unfold some_asleep; rewrite Exists_cons; intros Hs; (split; [done|]).
  - destruct (is_pop c) eqn:Hc; [rewrite Hcond; cbn; lia|].
    destruct Hs as [?|Hs]; [done|]. destruct (Hp Hs) as [_ Hle]. rewrite bool_decide_false in Hle by done. lia.
  - destruct (is_pop c) eqn:Hc; [|lia].
    destruct Hs as [?|Hs]; [done|]. destruct (Hq Hs) as [_ Hle]. rewrite bool_decide_false in Hle by done. lia.
Qed.

(** A sleeper that wakes up by itself only helps. *)
Lemma inv_wake capacity c b q w l1 l2 ps os :
  inv capacity (MkSys q w (l1 ++ c :: l2) ps os) → inv capacity (MkSys q ((c, b) :: w) (l1 ++ l2) ps os).
Proof.
  intros [Hcap Hb Hf Hp Hq]. cbn [queue awake asleep pushed popped] in *.
  split; cbn [queue awake asleep pushed popped]; try done; rewrite count_awake_cons; intros Hs.
  - destruct Hp as [? ?]; [apply some_asleep_app; by right|]. split; [done|lia].
  - destruct Hq as [? ?]; [apply some_asleep_app; by right|]. split; [done|lia].
Qed.

Lemma inv_step capacity e s s' : inv capacity s → step e s s' → inv capacity s'.
Proof.
  intros Hinv Hstep. destruct Hstep.
  - destruct Hinv as [Hcap Hb Hf Hp Hq]. cbn [queue awake asleep pushed popped] in *.
    split; cbn [queue awake asleep pushed popped]; try done; rewrite count_awake_cons; intros Hs.
    + destruct (Hp Hs). split; [done|lia].
    + destruct (Hq Hs). split; [done|lia].
  - by eapply inv_return.
  - by eapply inv_wait.
  - by apply inv_wake.
  - by apply inv_wake.
  - destruct Hinv as [Hcap Hb Hf Hp Hq]. cbn [queue awake asleep pushed popped] in *.
    rewrite !count_awake_app, count_awake_cons in Hp, Hq.
    by split; cbn [queue awake asleep pushed popped]; try done; rewrite count_awake_app, count_awake_cons.
  - destruct Hinv as [Hcap Hb Hf Hp Hq]. cbn [queue awake asleep pushed popped] in *.
    split; cbn [queue awake asleep pushed popped]; try done; by intros ?%Exists_nil.
Qed.

Lemma reachable_inv capacity s : reachable capacity s → inv capacity s.
Proof.
  intros (tr & Hr). induction Hr as [q Hq|tr s e s' Hr IH Hs]; [|by eapply inv_step].
  unfold new in Hq. destruct (Nat.eqb_spec capacity 0) as [|Hpos]; [done|]. injection Hq as <-.
  split; cbn; [split; [done|lia]|lia|done|by intros ?%Exists_nil|by intros ?%Exists_nil].
Qed.

Lemma asleep_all pop l : ¬ some_asleep pop l → Forall (λ c, is_pop c = negb pop) l.
Proof.
  intros Hno. apply Forall_forall. intros c Hin. destruct (decide (is_pop c = pop)) as [Heq|Hne].
  - exfalso. apply Hno, Exists_exists. by exists c.
  - by destruct (is_pop c), pop.
Qed.

Lemma some_asleep_dec pop l : some_asleep pop l ∨ ¬ some_asleep pop l.
Proof. unfold some_asleep. destruct (decide (Exists (λ c, is_pop c = pop) l)); tauto. Qed.

(** ** Theorems *)

(** C27: in every interleaving of pushes, pops, timeouts, spurious wake-ups and
    shutdowns the queue never holds more than its capacity, and what was
    accepted is what was handed out followed by what is still there: nothing
    is lost, duplicated or reordered. *)
Theorem fifo_bounded (capacity : nat) (s : Sys) :
  reachable capacity s →
  length (items_ (queue s)) ≤ capacity ∧ pushed s = popped s ++ items_ (queue s).
Proof. intros Hr. destruct (reachable_inv _ _ Hr). done. Qed.

(** C21: no wake-up is lost, although every section notifies one thread at
    most: as long as a popper sleeps, there are at least as many poppers
    awake as items in the queue, and as long as a pusher sleeps, at least as
    many pushers awake as free places; so when every thread in a call is
    asleep they all wait for the same side, poppers on an empty queue or
    pushers on a full one. *)
Theorem no_lost_wakeup (capacity : nat) (s : Sys) :
  reachable capacity s →
  (some_asleep true (asleep s) → length (items_ (queue s)) ≤ count_awake true (awake s)) ∧
  (some_asleep false (asleep s) → capacity - length (items_ (queue s)) ≤ count_awake false (awake s)) ∧
  (awake s = [] → asleep s ≠ [] →
     shutdown_ (queue s) = false ∧
     (items_ (queue s) = [] ∧ Forall (λ c, is_pop c = true) (asleep s) ∨
      length (items_ (queue s)) = capacity ∧ Forall (λ c, is_pop c = false) (asleep s))).
Proof.
  intros Hr. destruct (reachable_inv _ _ Hr) as [[Hcap Hpos] Hb Hf Hp Hq].
  split; [by intros [_ ?]%Hp|]. split; [by intros [_ ?]%Hq|]. intros Haw Has. rewrite Haw in Hp, Hq. cbn in Hp, Hq.
  destruct (some_asleep_dec true (asleep s)) as [Hs|Hs%asleep_all].
  - destruct (Hp Hs) as [Hsd Hl]. split; [done|]. left. assert (items_ (queue s) = []) as Hnil by (apply nil_length_inv; lia).
    split; [done|]. destruct (some_asleep_dec false (asleep s)) as [Hs'|Hs'%asleep_all]; [|done].
    destruct (Hq Hs') as [_ Hl']. rewrite Hnil in Hl'. cbn in Hl'. lia.
  - assert (some_asleep false (asleep s)) as Hs'.
    { unfold some_asleep. destruct (asleep s) as [|c l]; [done|]. apply Exists_cons. left. by inversion Hs. }
    destruct (Hq Hs') as [Hsd Hl]. split; [done|]. right. split; [lia|done].
Qed.

(** C34: after [Shutdown] nobody sleeps and nobody ever waits again: every
    call in progress or to come finishes its next time in the critical
    section; a push is refused with [ShutDown] and changes nothing, a pop
    still drains what is there, in order, and then gets nothing. *)
Theorem shutdown_drains (capacity : nat) (s : Sys) :
  reachable capacity s → shutdown_ (queue s) = true →
  asleep s = [] ∧
  (∀ c e, is_pop c = false → section c e (queue s) = Some (ReplyPush (Err ShutDown), queue s, no_signal)) ∧
  (∀ e, match items_ (queue s) with
        | [] => Pop (queue s) = Some (None, queue s, no_signal) ∧
                TryPop e (queue s) = Some (Ok None, queue s, no_signal)
        | item :: rest =>
            let q' := MkQueue rest capacity true in
            Pop (queue s) = Some (Some item, q', not_full_notify_one) ∧
            TryPop e (queue s) = Some (Ok (Some item), q', not_full_notify_one)
        end).
Proof.
  intros Hr Hsd. destruct (reachable_inv _ _ Hr) as [[Hcap _] _ _ Hp Hq].
  assert (asleep s = []) as Hno.
  { destruct (asleep s) as [|c l]; [done|]. destruct (is_pop c) eqn:Hc.
    - destruct Hp as [? _]; [by apply Exists_cons; left|congruence].
    - destruct Hq as [? _]; [by apply Exists_cons; left|congruence]. }
  split; [done|]. split.
  - intros c e Hc. destruct c as [item| |item|]; try done; cbn; unfold Push, TryPush, not_full; by rewrite Hsd.
  - intros e. unfold Pop, TryPop, not_empty, empty, pop_item. rewrite Hsd, <- Hcap. cbn.
    by destruct (items_ (queue s)).
Qed.

(** ** Runs of [Push] and [Pop] alone

    No timeouts and no [Shutdown]; threads may wake up spuriously. *)

Definition plain (e : event) : Prop :=
  match e with Called c => is_timed c = false | Expired | ShutsDown => False | _ => True end.

Definition count_events (P : event → bool) (tr : list event) : nat := length (filter (λ e, P e = true) tr).

Definition calls_of (pop : bool) (e : event) : bool :=
  match e with Called c => eqb (is_pop c) pop | _ => false end.
Definition is_call (e : event) : bool := match e with Called _ => true | _ => false end.
Definition is_spurious (e : event) : bool := match e with Spurious => true | _ => false end.

Definition count_asleep (pop : bool) (l : list call) : nat := length (filter (λ c, is_pop c = pop) l).

Lemma count_events_snoc P tr e : count_events P (tr ++ [e]) = count_events P tr + if P e then 1 else 0.
Proof.
  unfold count_events. rewrite filter_app, length_app. f_equal. rewrite filter_cons, filter_nil. by destruct (P e).
Qed.

Lemma count_asleep_app pop l1 l2 : count_asleep pop (l1 ++ l2) = count_asleep pop l1 + count_asleep pop l2.
Proof. unfold count_asleep. by rewrite filter_app, length_app. Qed.

Lemma count_asleep_cons pop c l :
  count_asleep pop (c :: l) = (if eqb (is_pop c) pop then 1 else 0) + count_asleep pop l.
Proof. unfold count_asleep. rewrite filter_cons. by destruct (is_pop c), pop. Qed.

Lemma count_awake_cons' pop c e w : count_awake pop ((c, e) :: w) = (if eqb (is_pop c) pop then 1 else 0) + count_awake pop w.
Proof. rewrite count_awake_cons. by destruct (is_pop c), pop. Qed.

(** Who is in a call of a kind. *)
Definition in_call (pop : bool) (s : Sys) : nat := count_awake pop (awake s) + count_asleep pop (asleep s).

Lemma notified_in_call s l w l' w' pop :
  notified s l w l' w' → count_awake pop w' + count_asleep pop l' = count_awake pop w + count_asleep pop l.
Proof.
  intros [|l1 c l2 -> _]; [done|]. rewrite count_awake_cons', !count_asleep_app, count_asleep_cons. lia.
Qed.

Lemma notified_length s l w l' w' :
  notified s l w l' w' → 3 * length w' + length l' ≤ 3 * length w + length l + 2.
Proof. intros [|l1 c l2 -> _]; [lia|]. rewrite !length_app. cbn. lia. Qed.

Record plain_inv (tr : list event) (s : Sys) : Prop := {
  plain_open : shutdown_ (queue s) = false;
  plain_untimed : Forall (λ ce, is_timed ce.1 = false) (awake s) ∧ Forall (λ c, is_timed c = false) (asleep s);
  plain_pushes : count_events (calls_of false) tr = length (pushed s) + in_call false s;
  plain_pops : count_events (calls_of true) tr = length (popped s) + in_call true s;
  plain_length : length tr + 3 * length (awake s) + length (asleep s) ≤
    4 * count_events is_call tr + 3 * count_events is_spurious tr
}.

(** An open queue answers an untimed call with an item taken or handed out. *)
Lemma section_plain c e q r q' s :
  section c e q = Some (r, q', s) → shutdown_ q = false → is_timed c = false →
  shutdown_ q' = false ∧ length (accepted c r) = (if is_pop c then 0 else 1) ∧ length (handed_out r) = (if is_pop c then 1 else 0).
Proof.
  intros Hsec Hs Ht. destruct c as [item| |item|]; try done; cbn [section] in Hsec; unfold Push, Pop in Hsec; rewrite Hs in Hsec.
  - destruct (not_full q); [|done]. injection Hsec as <- <- <-. by split_and!.
  - unfold not_empty, pop_item in Hsec. rewrite Hs in Hsec. destruct (items_ q) as [|x rest] eqn:Hi; [done|].
    cbn in Hsec. injection Hsec as <- <- <-. by split_and!.
Qed.

Lemma notified_timed s l w l' w' :
  notified s l w l' w' → Forall (λ ce, is_timed ce.1 = false) w → Forall (λ c, is_timed c = false) l →
  Forall (λ ce : call * bool, is_timed ce.1 = false) w' ∧ Forall (λ c, is_timed c = false) l'.
Proof.
  intros [|l1 c l2 -> _] Hw Hl; [done|]. apply Forall_app in Hl as [Hl1 [Hc Hl2]%Forall_cons].
  split; [by apply Forall_cons|by apply Forall_app].
Qed.

Lemma plain_step tr e s s' : plain_inv tr s → plain e → step e s s' → plain_inv (tr ++ [e]) s'.
Proof.
  intros [Hs [Hw Hl] Hpush Hpop Hlen] He Hstep. destruct Hstep as [c q w l ps os|c x r q q' sg w1 w2 w' l l' ps os Hsec Hn
    |c x q w1 w2 l ps os Hsec|c q w l1 l2 ps os|c q w l1 l2 ps os Ht|c x q w1 w2 l ps os Ht|q w l ps os];
    try done; cbn [queue awake asleep pushed popped plain] in *;
    split; cbn [queue awake asleep pushed popped] in *; rewrite ?count_events_snoc; unfold in_call in *;
    cbn [awake asleep calls_of is_call is_spurious] in *; rewrite ?length_app in *; cbn [length] in *.
  - done.
  - by split; [apply Forall_cons|].
  - rewrite Hpush, count_awake_cons'. lia.
  - rewrite Hpop, count_awake_cons'. lia.
  - lia.
  - apply Forall_app in Hw as [_ [Hc _]%Forall_cons]. by destruct (section_plain _ _ _ _ _ _ Hsec Hs Hc).
  - apply Forall_app in Hw as [Hw1 [_ Hw2]%Forall_cons]. eapply notified_timed; [exact Hn|by apply Forall_app|done].
  - apply Forall_app in Hw as [_ [Hc _]%Forall_cons]. destruct (section_plain _ _ _ _ _ _ Hsec Hs Hc) as (_ & Ha & _).
    rewrite Hpush, (notified_in_call _ _ _ _ _ false Hn), Ha, !count_awake_app, count_awake_cons'. destruct (is_pop c); cbn; lia.
  - apply Forall_app in Hw as [_ [Hc _]%Forall_cons]. destruct (section_plain _ _ _ _ _ _ Hsec Hs Hc) as (_ & _ & Ha).
    rewrite Hpop, (notified_in_call _ _ _ _ _ true Hn), Ha, !count_awake_app, count_awake_cons'. destruct (is_pop c); cbn; lia.
  - pose proof (notified_length _ _ _ _ _ Hn) as Hle. rewrite !length_app in Hle. lia.
  - done.
  - apply Forall_app in Hw as [Hw1 [Hc Hw2]%Forall_cons]. by split; [apply Forall_app|apply Forall_cons].
  - rewrite Hpush, count_asleep_cons, !count_awake_app, count_awake_cons'. lia.
  - rewrite Hpop, count_asleep_cons, !count_awake_app, count_awake_cons'. lia.
  - lia.
  - done.
  - apply Forall_app in Hl as [Hl1 [Hc Hl2]%Forall_cons]. by split; [apply Forall_cons|apply Forall_app].
  - rewrite Hpush, count_awake_cons', !count_asleep_app, count_asleep_cons. lia.
  - rewrite Hpop, count_awake_cons', !count_asleep_app, count_asleep_cons. lia.
  - lia.
Qed.

Lemma run_plain capacity tr s : run capacity tr s → Forall plain tr → plain_inv tr s.
Proof.
  induction 1 as [q Hq|tr s e s' Hr IH Hs]; intros Hall.
  - unfold new in Hq. destruct (capacity =? 0); [done|]. injection Hq as <-. split; [done|by split|done|done|done].
  - apply Forall_app in Hall as [Htr [He _]%Forall_cons]. eapply plain_step; [by apply IH|done|done].
Qed.

(** An awake thread can always go on. *)
Lemma awake_goes_on s : awake s ≠ [] → ∃ e s', step e s s' ∧ is_call e = false ∧ plain e.
Proof.
  destruct s as [q [|[c x] w] l ps os]; [done|]. intros _. destruct (section c x q) as [[[r q'] sg]|] eqn:Hsec.
  - assert (∃ l' w', notified sg l w l' w') as (l' & w' & Hn).
    { destruct (decide (Exists (λ c, wakes sg c = true) l)) as [Hex|Hno].
      - apply Exists_exists in Hex as (c' & Hin & Hw). apply list_elem_of_split in Hin as (l1 & l2 & ->).
        eexists _, _. by eapply notify_somebody.
      - exists l, w. apply notify_nobody, Forall_forall. intros c' Hin. apply not_true_is_false. intros Hw.
        apply Hno, Exists_exists. by exists c'. }
    eexists _, _. split; [by apply (step_return c x r q q' sg [] w w' l l')|done].
  - eexists _, _. split; [by apply (step_wait c x q [] w)|done].
Qed.

Lemma count_asleep_all pop l : Forall (λ c, is_pop c = pop) l → count_asleep pop l = length l ∧ count_asleep (negb pop) l = 0.
Proof.
  induction 1 as [|c l Hc _ [IH IH']]; [done|]. rewrite !count_asleep_cons, IH, IH', Hc. by destruct pop.
Qed.

(** C33: Producers and consumers finish. In a run of [Push] and [Pop] with any
    spurious wake-ups, however the threads are scheduled, there are at most
    four steps for each call and three for each spurious wake-up, and an
    awake thread can always go on; and when nobody is awake any more exactly
    those calls are still waiting that have to: the pops for which nothing was
    pushed, or the pushes for which there is no room, and the queue holds what
    is left over, up to its capacity. In particular as many pushes as pops all
    return. *)
Theorem producers_consumers_finish (capacity : nat) (tr : list event) (s : Sys) :
  run capacity tr s → Forall plain tr →
  let pushes := count_events (calls_of false) tr in
  let pops := count_events (calls_of true) tr in
  length tr ≤ 4 * count_events is_call tr + 3 * count_events is_spurious tr ∧
  (awake s ≠ [] → ∃ e s', step e s s' ∧ is_call e = false ∧ plain e) ∧
  (awake s = [] →
     count_asleep true (asleep s) = pops - pushes ∧
     count_asleep false (asleep s) = pushes - pops - capacity ∧
     length (items_ (queue s)) = (pushes - pops) `min` capacity).
Proof.
  intros Hr Hall pushes pops. destruct (run_plain capacity tr s Hr Hall) as [Hs _ Hpush Hpop Hlen].
  split; [lia|]. split; [apply awake_goes_on|]. intros Haw. unfold in_call in *. rewrite Haw in *. fold pushes in Hpush. fold pops in Hpop.
  destruct (reachable_inv capacity s (ex_intro _ tr Hr)) as [[Hcap Hpos] Hb Hf Hp Hq]. rewrite Haw in Hp, Hq.
  apply (f_equal length) in Hf. rewrite length_app in Hf. cbn in *.
  destruct (some_asleep_dec true (asleep s)) as [Ht|Ht], (some_asleep_dec false (asleep s)) as [Hn|Hn].
  - destruct (Hp Ht), (Hq Hn). lia.
  - destruct (Hp Ht) as [_ H0]. apply asleep_all, count_asleep_all in Hn as [Hn1 Hn2]. cbn in *. lia.
  - destruct (Hq Hn) as [_ H0]. apply asleep_all, count_asleep_all in Ht as [Ht1 Ht2]. cbn in *. lia.
  - apply asleep_all, count_asleep_all in Hn as [Hn1 Hn2]. apply asleep_all, count_asleep_all in Ht as [Ht1 Ht2]. cbn in *. lia.
Qed.

End Queue.

(** ** A run: a popper goes to sleep and is woken by a push *)

Definition woken : Sys (T:=nat) :=
  MkSys (MkQueue [7] 1 false) [(CallPop, false)] [] [7] [].

Lemma woken_run : run 1 ([] ++ [Called CallPop] ++ [Waits] ++ [Called (CallPush 7)] ++ [Returned (CallPush 7) (ReplyPush (Ok tt))]) woken.
Proof.
  rewrite !app_assoc. eapply run_step; [eapply run_step; [eapply run_step; [eapply run_step|]|]|].
  - by apply run_start.
  - apply (step_call CallPop).
  - by apply (step_wait CallPop false _ [] []).
  - apply (step_call (CallPush 7)).
  - apply (step_return (CallPush 7) false (ReplyPush (Ok tt)) (MkQueue [] 1 false) (MkQueue [7] 1 false)
      not_empty_notify_one [] [] [(CallPop, false)] [CallPop] [] [] []); [done|].
    by apply (notify_somebody _ _ _ [] CallPop []).
Qed.

Lemma woken_reachable : reachable 1 woken.
Proof. eexists. exact woken_run. Qed.

(** A second pusher finds the queue full and goes to sleep. *)
Definition one_waits : Sys (T:=nat) :=
  MkSys (MkQueue [7] 1 false) [(CallPop, false)] [CallPush 8] [7] [].

Lemma one_waits_reachable : reachable 1 one_waits.
Proof.
  eexists. eapply run_step; [eapply run_step; [exact woken_run|apply (step_call (CallPush 8))]|].
  by apply (step_wait (CallPush 8) false _ [] [(CallPop, false)]).
Qed.

Definition stopped : Sys (T:=nat) :=
  MkSys (MkQueue [7] 1 true) [(CallPop, false); (CallPush 8, false)] [] [7] [].

Lemma stopped_reachable : reachable 1 stopped.
Proof. destruct one_waits_reachable as [tr Hr]. eexists. eapply run_step; [exact Hr|].
  exact (step_shutdown (MkQueue [7] 1 false) [(CallPop, false)] [CallPush 8] [7] []). Qed.

(** The woken popper takes the item: everybody has returned. *)
Definition finished : Sys (T:=nat) := MkSys (MkQueue [] 1 false) [] [] [7] [7].

Definition finished_trace : list event :=
  [Called CallPop; Waits; Called (CallPush 7); Returned (CallPush 7) (ReplyPush (Ok tt)); Returned CallPop (ReplyPop (Some 7))].

Lemma finished_run : run 1 finished_trace finished.
Proof.
  apply (run_step 1 _ _ _ _ woken_run).
  apply (step_return CallPop false (ReplyPop (Some 7)) (MkQueue [7] 1 false) (MkQueue [] 1 false)
    not_full_notify_one [] [] [] [] [] [7] []); [done|]. by apply notify_nobody.
Qed.

Lemma producers_consumers_finish_witness :
  count_events (calls_of false) finished_trace = count_events (calls_of true) finished_trace ∧
  count_asleep true (asleep finished) = 0 ∧ count_asleep false (asleep finished) = 0.
Proof.
  split; [done|].
  destruct (proj2 (proj2 (producers_consumers_finish 1 finished_trace finished finished_run ltac:(by repeat constructor))) eq_refl)
    as (H1 & H2 & _).
  split; [exact H1|exact H2].
Defined.

Lemma fifo_bounded_witness :
  length (items_ (queue woken)) ≤ 1 ∧ pushed woken = popped woken ++ items_ (queue woken).
Proof. exact (fifo_bounded 1 woken woken_reachable). Defined.

Lemma no_lost_wakeup_witness : 1 - length (items_ (queue one_waits)) ≤ count_awake false (awake one_waits).
Proof.
  apply (proj1 (proj2 (no_lost_wakeup 1 one_waits one_waits_reachable))). apply Exists_cons. by left.
Defined.

Lemma shutdown_drains_witness :
  asleep stopped = [] ∧
  section (CallPush 8) false (queue stopped) = Some (ReplyPush (Err ShutDown), queue stopped, no_signal) ∧
  Pop (queue stopped) = Some (Some 7, MkQueue [] 1 true, not_full_notify_one).
Proof.
  destruct (shutdown_drains 1 stopped stopped_reachable eq_refl) as (Hno & Hpush & Hpop).
  split; [exact Hno|]. split; [by apply Hpush|]. exact (proj1 (Hpop false)).
Defined.

End BoundedBlockingQueue.
