(* ===== verification/IChunkStore.v ===== *)
(** * The chunk store interface

    Models [services/storage_node/include/nimbus/storage_node/i_chunk_store.h]:
    the abstract class as a class of operations on a state [S], and the
    contract its clients rely on, stated over an abstract store: a finite map
    from the hexadecimal form of a chunk identifier to the bytes stored. *)

From S2P Require Import Prelude Result Cxx Sha256 ChunkId Logger.

Inductive ChunkStoreError := ChecksumMismatch | CorruptionDetected | NotFound | IoError.

#[export] Instance ChunkStoreError_eq_dec : EqDecision ChunkStoreError.
Proof. solve_decision. Defined.

Record ChunkStoreErrorDetail := Detail { kind : ChunkStoreError; message : string }.

#[export] Instance ChunkStoreErrorDetail_eq_dec : EqDecision ChunkStoreErrorDetail.
Proof. solve_decision. Defined.

Record ChunkStoreStats := Stats { chunk_count : Z; bytes_used : Z; bytes_free : Z }.

(** Module name of the abstract class: the operations are [IChunkStore.Put]
    and so on. *)
Module IChunkStore.

Class Ops (S : Type) := {
  Put : ChunkId.t → list byte → M S (Result unit ChunkStoreErrorDetail);
  Get : ChunkId.t → M S (Result (list byte) ChunkStoreErrorDetail);
  VerifyOnly : ChunkId.t → M S (Result unit ChunkStoreErrorDetail);
  Delete : ChunkId.t → M S (Result unit ChunkStoreErrorDetail);
  Exists : ChunkId.t → M S bool;
  GetStats : M S ChunkStoreStats;
  ListAllChunkIds : M S (list ChunkId.t)
}.

End IChunkStore.

(** ** The contract *)

Abbreviation store := (gmap string (list byte)).

(** Under [io_may_fail] an operation may also end in [IoError] and change
    nothing. *)
Section Contract.
Context `{Evp} (io_may_fail : Prop).

Definition digest_matches (id : ChunkId.t) (data : list byte) : Prop :=
  HashBytes data = Done (ChunkId.RawDigest id).

(** [Put]: a mismatch is reported and changes nothing; otherwise the chunk
    is stored unless it is already there. *)
Definition put_spec (m : store) (id : ChunkId.t) (data : list byte)
  (r : Result unit ChunkStoreErrorDetail) (m' : store) : Prop :=
  match r with
  | Ok _ => digest_matches id data ∧
      m' = match m !! ChunkId.ToHexString id with
           | Some _ => m
           | None => <[ChunkId.ToHexString id := data]> m
           end
  | Err e => m' = m ∧
      ((kind e = ChecksumMismatch ∧ ¬ digest_matches id data) ∨
       (kind e = IoError ∧ digest_matches id data ∧ io_may_fail))
  end.

(** [Get]: only bytes whose digest is the identifier are ever returned. *)
Definition get_spec (m : store) (id : ChunkId.t)
  (r : Result (list byte) ChunkStoreErrorDetail) : Prop :=
  match r with
  | Ok data => m !! ChunkId.ToHexString id = Some data ∧ digest_matches id data
  | Err e =>
      (kind e = NotFound ∧ m !! ChunkId.ToHexString id = None) ∨
      (kind e = CorruptionDetected ∧
        ∃ data, m !! ChunkId.ToHexString id = Some data ∧ ¬ digest_matches id data) ∨
      (kind e = IoError ∧ is_Some (m !! ChunkId.ToHexString id) ∧ io_may_fail)
  end.

Definition forget {T E} (r : Result T E) : Result unit E :=
  match r with Ok _ => Ok tt | Err e => Err e end.

Definition verify_spec (m : store) (id : ChunkId.t) (r : Result unit ChunkStoreErrorDetail) : Prop :=
  ∃ r', get_spec m id r' ∧ r = forget r'.

(** [Delete] succeeds on an absent chunk. *)
Definition delete_spec (m : store) (id : ChunkId.t)
  (r : Result unit ChunkStoreErrorDetail) (m' : store) : Prop :=
  match r with
  | Ok _ => m' = delete (ChunkId.ToHexString id) m
  | Err e => m' = m ∧ kind e = IoError ∧ is_Some (m !! ChunkId.ToHexString id) ∧ io_may_fail
  end.

End Contract.

(** What an implementation promises: on healthy states and valid
    identifiers every operation returns (it neither throws nor blocks), keeps
    the state healthy, has the specified result, and touches the shared
    runtime only by logging and drawing UUIDs: the thread's correlation id is
    the caller's. Only the listing may throw, when I/O may fail. *)

(** The part of the shared runtime an operation may not touch. *)
Definition same_caller {S} `{HasRuntime S} (s s' : S) : Prop :=
  t_correlation_id (runtime s') = t_correlation_id (runtime s) ∧
  impl_ (runtime s') = impl_ (runtime s).

Class ChunkStoreContract (S : Type) `{Evp, HasRuntime S, IChunkStore.Ops S}
  (io_may_fail : Prop) (healthy : S → Prop) (view : S → store) : Prop := {
  healthy_runtime r s : healthy (set_runtime r s) ↔ healthy s;
  view_runtime r s : view (set_runtime r s) = view s;
  put_ok id data s : healthy s → ChunkId.valid id →
    ∃ r s', IChunkStore.Put id data s = (Done r, s') ∧ healthy s' ∧ same_caller s s' ∧
      put_spec io_may_fail (view s) id data r (view s');
  get_ok id s : healthy s → ChunkId.valid id →
    ∃ r s', IChunkStore.Get id s = (Done r, s') ∧ healthy s' ∧ same_caller s s' ∧ view s' = view s ∧
      get_spec io_may_fail (view s) id r;
  verify_ok id s : healthy s → ChunkId.valid id →
    ∃ r s', IChunkStore.VerifyOnly id s = (Done r, s') ∧ healthy s' ∧ same_caller s s' ∧ view s' = view s ∧
      verify_spec io_may_fail (view s) id r;
  delete_ok id s : healthy s → ChunkId.valid id →
    ∃ r s', IChunkStore.Delete id s = (Done r, s') ∧ healthy s' ∧ same_caller s s' ∧
      delete_spec io_may_fail (view s) id r (view s');
  exists_ok id s : healthy s → ChunkId.valid id →
    ∃ s', IChunkStore.Exists id s = (Done (bool_decide (is_Some (view s !! ChunkId.ToHexString id))), s') ∧
      healthy s' ∧ same_caller s s' ∧ view s' = view s;
  stats_ok s : healthy s →
    ∃ st s', IChunkStore.GetStats s = (Done st, s') ∧ healthy s' ∧ same_caller s s' ∧ view s' = view s;
  list_ok s : healthy s →
    ∃ o s', IChunkStore.ListAllChunkIds s = (o, s') ∧ healthy s' ∧ same_caller s s' ∧ view s' = view s ∧
      match o with
      | Done l => NoDup l ∧ ∀ id, id ∈ l ↔ ChunkId.valid id ∧ is_Some (view s !! ChunkId.ToHexString id)
      | Throws _ => io_may_fail
      | _ => False
      end
}.

#[export] Instance same_caller_refl {S} `{HasRuntime S} : Reflexive (same_caller (S:=S)).
Proof. by intros s. Qed.

#[export] Instance same_caller_trans {S} `{HasRuntime S} : Transitive (same_caller (S:=S)).
Proof. unfold same_caller. intros s1 s2 s3. intuition congruence. Qed.
