(* ===== verification/Posix.v ===== *)
(** * The operating system under the chunk store

    [std::filesystem] and the POSIX calls of
    [services/storage_node/src/local_disk_chunk_store.cpp], on a model of a
    file tree, which remembers what has reached the disk: for each file its
    content, and for each directory entry whether it was touched since its
    directory was synced. A path is the list of its components. Every call
    consumes one tick of time and asks the schedule [sys_event] what happens
    to it: it may succeed, fail, transfer fewer bytes than asked, or be the
    point where the machine crashes, before the call takes effect. Theorems
    quantify over all schedules. *)

From S2P Require Import Prelude Cxx.

Abbreviation path := (list string).

(** A file remembers whether its content has reached the disk ([fsync]). *)
Record file := File { content : list byte; durable : bool }.

#[export] Instance file_eq_dec : EqDecision file.
Proof. solve_decision. Defined.

Record Fs := MkFs { files : gmap path file; dirs : gset path }.

Inductive SysCall :=
  | SysExists | SysCreateDirectories | SysOpen | SysWrite | SysFsync | SysClose
  | SysRename | SysRemove | SysFileSize | SysRead | SysSpace | SysIterate.

#[export] Instance SysCall_eq_dec : EqDecision SysCall.
Proof. solve_decision. Defined.

(** [EvShort n]: a transfer of at most [n] bytes; as [EvOk] for calls that
    transfer nothing. *)
Inductive SysEvent := EvOk | EvFail (msg : string) | EvShort (n : nat) | EvCrash.

#[export] Instance SysEvent_eq_dec : EqDecision SysEvent.
Proof. solve_decision. Defined.

(** What [lock()] does on a mutex the calling thread already owns. The C++
    standard leaves it undefined for [std::mutex]; these are the behaviours
    implementations have: block forever (POSIX normal mutex), throw
    [std::system_error] (checked mutex), or go on (a process in which the
    threading library is inactive, or a recursive mutex in its place). *)
Inductive RelockBehaviour := RelockBlocks | RelockThrows | RelockReenters.

Class Platform := {
  sys_event : nat → SysCall → SysEvent;
  space_available : nat → Z;       (** [space(p).available] at a point in time *)
  relock : RelockBehaviour
}.

Inductive OpenFlag := O_RDONLY | O_WRONLY | O_CREAT | O_TRUNC | O_DIRECTORY | O_CLOEXEC.

#[export] Instance OpenFlag_eq_dec : EqDecision OpenFlag.
Proof. solve_decision. Defined.

Definition with_files (g : gmap path file → gmap path file) (f : Fs) : Fs := MkFs (g (files f)) (dirs f).

(** The entries that a change of the tree touches: of every file that is new,
    gone or different, and of every directory that is new or gone. *)
Definition touched (f f' : Fs) : gset path :=
  filter (λ p, files f !! p ≠ files f' !! p) (dom (files f) ∪ dom (files f')) ∪
  (dirs f ∖ dirs f') ∪ (dirs f' ∖ dirs f).

Lemma elem_of_touched f f' p :
  p ∈ touched f f' ↔ files f !! p ≠ files f' !! p ∨ (p ∈ dirs f ∧ p ∉ dirs f') ∨ (p ∈ dirs f' ∧ p ∉ dirs f).
Proof.
  unfold touched. rewrite !elem_of_union, !elem_of_difference, elem_of_filter, elem_of_union, !elem_of_dom.
  split; [naive_solver|]. intros [Hne|[?|?]]; [|naive_solver..].
  destruct (files f !! p) eqn:E, (files f' !! p) eqn:E'; naive_solver.
Qed.

Lemma touched_refl f : touched f f = ∅.
Proof. apply set_eq. intros p. rewrite elem_of_touched. set_solver. Qed.

(** The state: the file tree, the clock of calls, the open descriptors, and
    the directory entries that were touched since their directory was last
    synced. *)
Record Os := MkOs { fs : Fs; now : nat; fds : gmap nat path; next_fd : nat; pending : gset path }.

Definition set_fs (f : Fs) (o : Os) : Os := MkOs f (now o) (fds o) (next_fd o) (pending o ∪ touched (fs o) f).
Definition set_fds (d : gmap nat path) (o : Os) : Os := MkOs (fs o) (now o) d (next_fd o) (pending o).
Definition step_time (o : Os) : Os := MkOs (fs o) (S (now o)) (fds o) (next_fd o) (pending o).

(** ** Paths *)

Definition path_string (p : path) : string := foldr (λ c s, "/" +:+ c +:+ s) "" p.

(** The non-empty prefixes of a path: the directories [create_directories]
    makes. *)
Fixpoint prefixes (p : path) : list path :=
  match p with
  | [] => []
  | c :: p' => [c] :: map (cons c) (prefixes p')
  end.

Definition parent (p : path) : path := take (length p - 1) p.

(** The entries of the directory [p] have reached the disk. *)
Definition settle (p : path) (o : Os) : Os :=
  MkOs (fs o) (now o) (fds o) (next_fd o) (filter (λ q, parent q ≠ p) (pending o)).

Definition file_name (p : path) : string := match last p with Some c => c | None => "" end.

(** ** Calls *)

Section Calls.
Context `{Platform}.

(** What the schedule decides about this call. *)
Definition syscall (c : SysCall) : M Os SysEvent := λ o,
  match sys_event (now o) c with
  | EvCrash => (Crashed, step_time o)
  | e => (Done e, step_time o)
  end.

Definition path_exists (f : Fs) (p : path) : bool :=
  bool_decide (is_Some (files f !! p)) || bool_decide (p ∈ dirs f).

(** The outcome of a [std::filesystem] call with an [error_code] argument:
    a value, or the error's message. *)
Definition ec (A : Type) : Type := A + string.

Definition fs_exists (p : path) : M Os (ec bool) :=
  e ← syscall SysExists;
  match e with
  | EvFail msg => mret (inr msg)
  | _ => gets (λ o, inl (path_exists (fs o) p))
  end.

Definition fs_create_directories (p : path) : M Os (ec unit) :=
  e ← syscall SysCreateDirectories;
  match e with
  | EvFail msg => mret (inr msg)
  | _ => state $ λ o,
      if existsb (λ q, bool_decide (is_Some (files (fs o) !! q))) (prefixes p)
      then (Done (inr "Not a directory"), o)
      else (Done (inl tt), set_fs (MkFs (files (fs o)) (list_to_set (prefixes p) ∪ dirs (fs o))) o)
  end.

Definition fs_file_size (p : path) : M Os (ec nat) :=
  e ← syscall SysFileSize;
  match e with
  | EvFail msg => mret (inr msg)
  | _ => gets (λ o, match files (fs o) !! p with
                    | Some f => inl (length (content f))
                    | None => inr "No such file or directory"
                    end)
  end.

(** [rename]: the new name atomically takes the place of an existing file. *)
Definition fs_rename (src dst : path) : M Os (ec unit) :=
  e ← syscall SysRename;
  match e with
  | EvFail msg => mret (inr msg)
  | _ => state $ λ o,
      match files (fs o) !! src with
      | None => (Done (inr "No such file or directory"), o)
      | Some f =>
          if bool_decide (dst ∈ dirs (fs o)) then (Done (inr "Is a directory"), o)
          else if negb (bool_decide (parent dst ∈ dirs (fs o))) then (Done (inr "No such file or directory"), o)
          else (Done (inl tt), set_fs (with_files (λ m, <[dst := f]> (delete src m)) (fs o)) o)
      end
  end.

(** Whether a directory has entries. *)
Definition has_children (f : Fs) (p : path) : bool :=
  existsb (λ q, bool_decide (p `prefix_of` q) && negb (bool_decide (q = p)))
    ((map_to_list (files f)).*1 ++ elements (dirs f)).

(** [remove]: a file or an empty directory; whether something was removed. *)
Definition fs_remove (p : path) : M Os (ec bool) :=
  e ← syscall SysRemove;
  match e with
  | EvFail msg => mret (inr msg)
  | _ => state $ λ o,
      if bool_decide (p ∈ dirs (fs o)) then
        if has_children (fs o) p then (Done (inr "Directory not empty"), o)
        else (Done (inl true), set_fs (MkFs (files (fs o)) (dirs (fs o) ∖ {[p]})) o)
      else match files (fs o) !! p with
           | None => (Done (inl false), o)
           | Some _ => (Done (inl true), set_fs (with_files (delete p) (fs o)) o)
           end
  end.

Definition fs_space (p : path) : M Os (ec Z) :=
  e ← syscall SysSpace;
  match e with
  | EvFail msg => mret (inr msg)
  | _ => gets (λ o, inl (space_available (now o)))
  end.

(** [recursive_directory_iterator]: the files below a directory, in an order
    the standard leaves open (here: the map's). *)
Definition below (root : path) (f : Fs) : list (path * file) :=
  filter (λ pf, root `prefix_of` pf.1) (map_to_list (files f)).

Definition fs_iterate (root : path) : M Os (ec (list (path * file))) :=
  e ← syscall SysIterate;
  match e with
  | EvFail msg => mret (inr msg)
  | _ => gets (λ o, inl (below root (fs o)))
  end.

(** ** Descriptors: [None] is a negative descriptor *)

Definition new_fd (p : path) : M Os (option nat) := state $ λ o,
  (Done (Some (next_fd o)), MkOs (fs o) (now o) (<[next_fd o := p]> (fds o)) (S (next_fd o)) (pending o)).

Definition can_open (f : Fs) (p : path) (flags : list OpenFlag) : bool :=
  if bool_decide (O_DIRECTORY ∈ flags) then bool_decide (p ∈ dirs f)
  else if bool_decide (p ∈ dirs f) then negb (bool_decide (O_WRONLY ∈ flags))
  else if bool_decide (is_Some (files f !! p)) then true
  else bool_decide (O_CREAT ∈ flags) && bool_decide (parent p ∈ dirs f).

Definition internal_open (p : path) (flags : list OpenFlag) : M Os (option nat) :=
  e ← syscall SysOpen;
  match e with
  | EvFail _ => mret None
  | _ => state $ λ o,
      if can_open (fs o) p flags then
        let created := bool_decide (O_TRUNC ∈ flags) ||
          (bool_decide (O_CREAT ∈ flags) && negb (bool_decide (is_Some (files (fs o) !! p)))) in
        new_fd p (if created then set_fs (with_files (<[p := File [] false]>) (fs o)) o else o)
      else (Done None, o)
  end.

(** [write]: the number of bytes written, [None] for -1. *)
Definition sys_write (fd : nat) (data : list byte) : M Os (option nat) :=
  e ← syscall SysWrite;
  let put n := state $ λ o,
    match fds o !! fd with
    | None => (Done None, o)
    | Some p =>
        match files (fs o) !! p with
        | None => (Done None, o)
        | Some f => (Done (Some (length (take n data))),
            set_fs (with_files (<[p := File (content f ++ take n data) false]>) (fs o)) o)
        end
    end in
  match e with
  | EvFail _ => mret None
  | EvShort n => put n
  | _ => put (length data)
  end.

(** [read] into a buffer of [n] bytes, from the start of the file. *)
Definition sys_read (fd : nat) (n : nat) : M Os (option (list byte)) :=
  e ← syscall SysRead;
  let fetch k := gets (λ o, p ← fds o !! fd; f ← files (fs o) !! p; Some (take k (content f))) in
  match e with
  | EvFail _ => mret None
  | EvShort k => fetch (k `min` n)
  | _ => fetch n
  end.

(** [fsync] of a file or of a directory: whether it succeeded. *)
Definition internal_fsync (fd : nat) : M Os bool :=
  e ← syscall SysFsync;
  match e with
  | EvFail _ => mret false
  | _ => state $ λ o,
      match fds o !! fd with
      | None => (Done false, o)
      | Some p =>
          if bool_decide (p ∈ dirs (fs o)) then (Done true, settle p o)
          else (Done true, set_fs (with_files (alter (λ f, File (content f) true) p) (fs o)) o)
      end
  end.

Definition sys_close (fd : nat) : M Os unit :=
  e ← syscall SysClose;
  modify (λ o, set_fds (delete fd (fds o)) o).

End Calls.

(** Platforms for the witnesses: the calls named by [bad] meet the event [e],
    all others succeed. *)
Definition toy_platform (bad : SysCall → bool) (e : SysEvent) (r : RelockBehaviour) : Platform :=
  {| sys_event _ c := if bad c then e else EvOk; space_available _ := 1000000%Z; relock := r |}.

Definition toy_good : Platform := toy_platform (λ _, false) EvOk RelockReenters.

(** ** [ScopedFd]

    The wrapper holds a descriptor or, released, none; the destructor closes
    what it still holds. *)

Section ScopedFd.
Context `{Platform}.

Definition ScopedFd : Type := option nat.

Definition ScopedFd_release (fd : ScopedFd) : option nat * ScopedFd := (fd, None).

Definition ScopedFd_destroy (fd : ScopedFd) : M Os unit :=
  match fd with Some n => sys_close n | None => mret tt end.

End ScopedFd.
