(* ===== verification/LocalDisk.v ===== *)
(** * [nimbus::storage_node::LocalDiskChunkStore]

    Models [services/storage_node/src/local_disk_chunk_store.cpp] (the POSIX
    side of its conditionals): the sharded layout on disk, the striped locks,
    [Put] through a temporary file and a rename, [Get] with its integrity
    check, [Delete], the counters and the listing. *)

From S2P Require Import Prelude Result Cxx Sha256 ChunkId Logger IChunkStore Posix.

Local Open Scope Z_scope.

Module LocalDisk.

(** The state: the system below, the runtime of the logger, the stripes the
    running thread owns, and the two atomic counters. *)
Record Disk := MkDisk {
  os : Os;
  rt : Runtime;
  held : list Z;
  chunk_count_ : Z;
  bytes_used_ : Z
}.

Definition set_os (o : Os) (s : Disk) : Disk := MkDisk o (rt s) (held s) (chunk_count_ s) (bytes_used_ s).
Definition set_rt (r : Runtime) (s : Disk) : Disk := MkDisk (os s) r (held s) (chunk_count_ s) (bytes_used_ s).
Definition set_held (l : list Z) (s : Disk) : Disk := MkDisk (os s) (rt s) l (chunk_count_ s) (bytes_used_ s).
Definition set_counters (c b : Z) (s : Disk) : Disk := MkDisk (os s) (rt s) (held s) c b.

#[global] Instance Disk_runtime : HasRuntime Disk.
Proof. refine {| runtime := rt; set_runtime := set_rt |}; by intros; repeat destruct select Disk. Defined.

Definition sys {A} (m : M Os A) : M Disk A := zoom os set_os m.

Definition kLockStripeCount : Z := 256.

Definition IoErr {A} (msg : string) : Result A ChunkStoreErrorDetail := Err (Detail IoError msg).

Section LocalDisk.
Context `{Evp, Platform, UuidSource}.
Variable data_root_ : path.

(** ** Locks *)

Definition LockFor (id : ChunkId.t) : Z := ChunkId.Hash id `mod` kLockStripeCount.

Definition lock (stripe : Z) : M Disk unit := state $ λ s,
  if bool_decide (stripe ∈ held s) then
    match relock with
    | RelockBlocks => (Blocks, s)
    | RelockThrows => (Throws (system_error "Resource deadlock avoided"), s)
    | RelockReenters => (Done tt, set_held (stripe :: held s) s)
    end
  else (Done tt, set_held (stripe :: held s) s).

Fixpoint release_one (stripe : Z) (l : list Z) : list Z :=
  match l with
  | [] => []
  | z :: l' => if bool_decide (z = stripe) then l' else z :: release_one stripe l'
  end.

Definition unlock (stripe : Z) : M Disk unit :=
  modify (λ s, set_held (release_one stripe (held s)) s).

Definition lock_guard {A} (stripe : Z) (body : M Disk A) : M Disk A :=
  lock stripe ≫= λ _, scoped (unlock stripe) body.

(** ** Paths *)

Definition ShardDirFor (id : ChunkId.t) : outcome path :=
  let hex := ChunkId.ToHexString id in
  a ← substr hex 0 2;
  b ← substr hex 2 2;
  Done (data_root_ ++ [a; b]).

Definition FinalPathFor (id : ChunkId.t) : outcome path :=
  shard_dir ← ShardDirFor id;
  Done (shard_dir ++ [ChunkId.ToHexString id +:+ ".chunk"]).

(** ** Operations *)

Definition Exists (id : ChunkId.t) : M Disk bool :=
  lock_guard (LockFor id) (
    final_path ← lift (FinalPathFor id);
    r ← sys (fs_exists final_path);
    mret (match r with inl b => b | inr _ => false end)).

Definition fetch_add_counters (size : Z) : M Disk unit :=
  modify (λ s, set_counters (wrap64 (chunk_count_ s + 1)) (wrap64 (bytes_used_ s + size)) s).

Definition fetch_sub_counters (size : Z) : M Disk unit :=
  modify (λ s, set_counters (wrap64 (chunk_count_ s - 1)) (wrap64 (bytes_used_ s - size)) s).

(** From the rename on: the descriptor of the temporary file is closed. *)
Definition Put_publish (id : ChunkId.t) (data : list byte) (shard_dir tmp_path final_path : path) :
  M Disk (Result unit ChunkStoreErrorDetail) :=
  r ← sys (fs_rename tmp_path final_path);
  match r with
  | inr _ =>
      sys (fs_remove tmp_path);;
      mret (IoErr "Failed to atomically rename chunk file")
  | inl _ =>
      dir_fd ← sys (internal_open shard_dir [O_RDONLY; O_DIRECTORY; O_CLOEXEC]);
      (match dir_fd with
       | Some d =>
           synced ← sys (internal_fsync d);
           if negb synced then Warn ("Failed to fsync directory " +:+ path_string shard_dir) else mret tt
       | None => Warn ("Failed to open directory for fsync " +:+ path_string shard_dir)
       end);;
      fetch_add_counters (Z.of_nat (length data));;
      Debug ("Successfully wrote chunk " +:+ ChunkId.ToHexString id);;
      sys (ScopedFd_destroy dir_fd);;
      mret (Ok tt)
  end.

(** With the temporary file open: the result, and what the [ScopedFd] still
    holds when the block is left. *)
Definition Put_file (id : ChunkId.t) (data : list byte) (shard_dir tmp_path final_path : path) (fd : nat) :
  M Disk (Result unit ChunkStoreErrorDetail * ScopedFd) :=
  written ← (match data with
             | [] => mret (Some 0%nat)
             | _ => sys (sys_write fd data)
             end);
  if negb (bool_decide (written = Some (length data))) then
    sys (fs_remove tmp_path);;
    mret (IoErr "Failed to write chunk data", Some fd)
  else
    synced ← sys (internal_fsync fd);
    if negb synced then
      sys (fs_remove tmp_path);;
      mret (IoErr "Failed to fsync temporary file", Some fd)
    else
      let '(n, released) := ScopedFd_release (Some fd) in
      (match n with Some n => sys (sys_close n) | None => mret tt end);;
      r ← Put_publish id data shard_dir tmp_path final_path;
      mret (r, released).

(** The rest of [Put] once the chunk is known to be absent. *)
Definition Put_new (id : ChunkId.t) (data : list byte) : M Disk (Result unit ChunkStoreErrorDetail) :=
  shard_dir ← lift (ShardDirFor id);
  r ← sys (fs_create_directories shard_dir);
  match r with
  | inr msg => mret (IoErr ("Failed to create shard directory: " +:+ msg))
  | inl _ =>
      uuid ← GenerateUuidV4;
      let tmp_path := shard_dir ++ [ChunkId.ToHexString id +:+ ".tmp." +:+ uuid] in
      final_path ← lift (FinalPathFor id);
      fd ← sys (internal_open tmp_path [O_WRONLY; O_CREAT; O_TRUNC; O_CLOEXEC]);
      match fd with
      | None => mret (IoErr "Failed to open temporary file for write")
      | Some n =>
          rf ← Put_file id data shard_dir tmp_path final_path n;
          sys (ScopedFd_destroy rf.2);;
          mret rf.1
      end
  end.

Definition Put (id : ChunkId.t) (data : list byte) : M Disk (Result unit ChunkStoreErrorDetail) :=
  actual_hash ← lift (HashBytes data);
  if negb (bool_decide (actual_hash = ChunkId.RawDigest id)) then
    LogError ("ChecksumMismatch on Put for chunk " +:+ ChunkId.ToHexString id);;
    mret (Err (Detail ChecksumMismatch "Provided chunk data does not match the ChunkId"))
  else
    lock_guard (LockFor id) (
      ex ← Exists id;
      if (ex : bool) then
        Debug ("Chunk already exists, deduplicating: " +:+ ChunkId.ToHexString id);;
        mret (Ok tt)
      else Put_new id data).

(** With the file open: read it whole and compare the digest. *)
Definition Get_read (id : ChunkId.t) (file_size : nat) (fd : nat) :
  M Disk (Result (list byte) ChunkStoreErrorDetail) :=
  bytes_read ← (if (0 <? file_size)%nat then sys (sys_read fd file_size) else mret (Some []));
  match bytes_read with
  | Some data =>
      if negb (length data =? file_size)%nat then mret (IoErr "Failed to read full chunk file")
      else
        actual_hash ← lift (HashBytes data);
        if negb (bool_decide (actual_hash = ChunkId.RawDigest id)) then
          LogError ("CorruptionDetected for chunk " +:+ ChunkId.ToHexString id);;
          mret (Err (Detail CorruptionDetected "Chunk data on disk does not match its ID"))
        else
          Debug ("Successfully read chunk " +:+ ChunkId.ToHexString id);;
          mret (Ok data)
  | None => mret (IoErr "Failed to read full chunk file")
  end.

Definition Get (id : ChunkId.t) : M Disk (Result (list byte) ChunkStoreErrorDetail) :=
  lock_guard (LockFor id) (
    final_path ← lift (FinalPathFor id);
    r ← sys (fs_file_size final_path);
    match r with
    | inr _ => mret (Err (Detail NotFound "Chunk file not found or inaccessible"))
    | inl file_size =>
        fd ← sys (internal_open final_path [O_RDONLY; O_CLOEXEC]);
        match fd with
        | None => mret (IoErr "Failed to open chunk file for read")
        | Some n => scoped (sys (ScopedFd_destroy (Some n))) (Get_read id file_size n)
        end
    end).

Definition VerifyOnly (id : ChunkId.t) : M Disk (Result unit ChunkStoreErrorDetail) :=
  res ← Get id;
  mret (match res with Err e => Err e | Ok _ => Ok tt end).

Definition Delete (id : ChunkId.t) : M Disk (Result unit ChunkStoreErrorDetail) :=
  lock_guard (LockFor id) (
    final_path ← lift (FinalPathFor id);
    r ← sys (fs_file_size final_path);
    match r with
    | inr _ => mret (Ok tt)
    | inl size_before =>
        r ← sys (fs_remove final_path);
        match r with
        | inl true =>
            fetch_sub_counters (Z.of_nat size_before);;
            Debug ("Successfully deleted chunk " +:+ ChunkId.ToHexString id);;
            mret (Ok tt)
        | inl false => mret (IoErr "Failed to delete chunk file: Success")
        | inr msg => mret (IoErr ("Failed to delete chunk file: " +:+ msg))
        end
    end).

Definition GetStats : M Disk ChunkStoreStats :=
  r ← sys (fs_space data_root_);
  gets (λ s, Stats (chunk_count_ s) (bytes_used_ s) (match r with inl free => free | inr _ => 0 end)).

(** ** Scanning the tree *)

Definition is_chunk (p : path) : bool := String.eqb (extension (file_name p)) ".chunk".

(** The throwing overload of [exists]. *)
Definition exists_or_throw (p : path) : M Disk bool :=
  r ← sys (fs_exists p);
  match r with inl b => mret b | inr msg => lift (Throws (filesystem_error msg)) end.

Definition iterate_or_throw (p : path) : M Disk (list (path * file)) :=
  r ← sys (fs_iterate p);
  match r with inl l => mret l | inr msg => lift (Throws (filesystem_error msg)) end.

Fixpoint ListLoop (entries : list (path * file)) (result : list ChunkId.t) : list ChunkId.t :=
  match entries with
  | [] => result
  | (p, _) :: rest =>
      ListLoop rest
        (if is_chunk p then
           match ChunkId.Parse (stem (file_name p)) with
           | Ok id => result ++ [id]
           | Err _ => result
           end
         else result)
  end.

Definition ListAllChunkIds : M Disk (list ChunkId.t) :=
  ex ← exists_or_throw data_root_;
  if negb ex then mret []
  else
    entries ← iterate_or_throw data_root_;
    mret (ListLoop entries []).

(** The counting loop of the constructor; [entry.file_size()] throws. *)
Fixpoint CountLoop (entries : list (path * file)) (count bytes : Z) : M Disk (Z * Z) :=
  match entries with
  | [] => mret (count, bytes)
  | (p, _) :: rest =>
      if is_chunk p then
        r ← sys (fs_file_size p);
        match r with
        | inl size => CountLoop rest (wrap64 (count + 1)) (wrap64 (bytes + Z.of_nat size))
        | inr msg => lift (Throws (filesystem_error msg))
        end
      else CountLoop rest count bytes
  end.

Definition LocalDiskChunkStore : M Disk unit :=
  ex ← exists_or_throw data_root_;
  cb ← (if (ex : bool) then
          entries ← iterate_or_throw data_root_;
          CountLoop entries 0 0
        else
          r ← sys (fs_create_directories data_root_);
          match r with
          | inl _ => mret (0, 0)
          | inr msg => lift (Throws (filesystem_error msg))
          end);
  modify (set_counters cb.1 cb.2).

(** The overrides of the interface. *)
#[local] Instance ops : IChunkStore.Ops Disk :=
  {| IChunkStore.Put := Put;
     IChunkStore.Get := Get;
     IChunkStore.VerifyOnly := VerifyOnly;
     IChunkStore.Delete := Delete;
     IChunkStore.Exists := Exists;
     IChunkStore.GetStats := GetStats;
     IChunkStore.ListAllChunkIds := ListAllChunkIds |}.

End LocalDisk.

End LocalDisk.
