(* ===== verification/DiskRules.v ===== *)
(** * Reasoning about the chunk store's calls

    Weakest-precondition rules for the locks, the logger and every call of
    [Posix], seen from the state of [LocalDisk]; the layout of paths. *)

From S2P Require Import Prelude Result Cxx Sha256 ChunkId Logger IChunkStore Posix LocalDisk.
Import LocalDisk.

(** ** Logging leaves the thread's correlation id and the rest alone *)

Definition logged (r r' : Runtime) : Prop :=
  t_correlation_id r' = t_correlation_id r ∧ impl_ r' = impl_ r ∧ uuids_drawn r' = uuids_drawn r.

Lemma wp_log (m : string) (lvl : LogLevel.t) Q (s : Disk) :
  (∀ r, logged (rt s) r → Q (Done tt) (set_rt r s)) →
  wp (on_runtime (log lvl m [])) Q s.
Proof.
  intros HQ. apply wp_zoom. unfold wp, log. cbn.
  destruct (op_logger (impl_ (rt s))); cbn; by apply HQ.
Qed.

Definition tick (s : Disk) : Disk := set_os (step_time (os s)) s.

Section Rules.
Context `{Evp, Platform, UuidSource}.
Implicit Types s : Disk.

Lemma wp_sys_call {A} c (f : SysEvent → M Os A) Q s :
  (sys_event (now (os s)) c = EvCrash → Q Crashed (tick s)) →
  (∀ e, sys_event (now (os s)) c = e → e ≠ EvCrash → wp (sys (f e)) Q (tick s)) →
  wp (sys (syscall c ≫= f)) Q s.
Proof.
  intros Hc Hd. unfold wp, sys, zoom, syscall, mbind, M_bind in *.
  destruct (sys_event (now (os s)) c) as [|msg|n|] eqn:E; cbn; [..|by apply Hc].
  - specialize (Hd EvOk eq_refl). cbn in Hd. destruct (f EvOk _); by apply Hd.
  - specialize (Hd (EvFail msg) eq_refl). cbn in Hd. destruct (f (EvFail msg) _); by apply Hd.
  - specialize (Hd (EvShort n) eq_refl). cbn in Hd. destruct (f (EvShort n) _); by apply Hd.
Qed.

Lemma wp_sys_state {A} (f : Os → outcome A * Os) Q s :
  Q (f (os s)).1 (set_os (f (os s)).2 s) → wp (sys (state f)) Q s.
Proof. intros HQ. apply wp_zoom. done. Qed.

Lemma wp_sys_gets {A} (f : Os → A) Q s : Q (Done (f (os s))) s → wp (sys (gets f)) Q s.
Proof. intros HQ. apply wp_zoom. unfold wp. cbn. by destruct s. Qed.

Lemma wp_sys_ret {A} (a : A) Q s : Q (Done a) s → wp (sys (mret a)) Q s.
Proof. intros HQ. apply wp_zoom. unfold wp. cbn. by destruct s. Qed.

(** A call failed: the schedule said so. *)
Definition failed s c : Prop := ∃ msg, sys_event (now (os s)) c = EvFail msg.
Definition crashed s c : Prop := sys_event (now (os s)) c = EvCrash.

Ltac sys_cases :=
  apply wp_sys_call; [assumption|];
  intros [|?msg|?n|] ? ?; [| | |done];
  try first [apply wp_sys_ret | apply wp_sys_gets | apply wp_sys_state].

Lemma wp_exists p Q s :
  (crashed s SysExists → Q Crashed (tick s)) →
  (Q (Done (inl (path_exists (fs (os s)) p))) (tick s)) →
  (∀ msg, failed s SysExists → Q (Done (inr msg)) (tick s)) →
  wp (sys (fs_exists p)) Q s.
Proof. intros ? ? Hf. sys_cases; try done. apply Hf. by eexists. Qed.

Lemma wp_file_size p Q s :
  (crashed s SysFileSize → Q Crashed (tick s)) →
  (∀ f, files (fs (os s)) !! p = Some f → Q (Done (inl (length (content f)))) (tick s)) →
  (∀ msg, files (fs (os s)) !! p = None ∨ failed s SysFileSize → Q (Done (inr msg)) (tick s)) →
  wp (sys (fs_file_size p)) Q s.
Proof.
  intros ? Hok Hf. sys_cases; cbn; try (by apply Hf; right; eexists);
    (destruct (files (fs (os s)) !! p) as [f|] eqn:E; [by apply Hok|apply Hf; by left]).
Qed.

(** The state after a change of the file tree. *)
Definition upd_fs (f : Fs) s : Disk := set_os (set_fs f (step_time (os s))) s.

Lemma wp_create_directories p Q s :
  (crashed s SysCreateDirectories → Q Crashed (tick s)) →
  ((∀ q, q ∈ prefixes p → files (fs (os s)) !! q = None) →
     Q (Done (inl tt)) (upd_fs (MkFs (files (fs (os s))) (list_to_set (prefixes p) ∪ dirs (fs (os s)))) s)) →
  (∀ msg, (∃ q f, q ∈ prefixes p ∧ files (fs (os s)) !! q = Some f) ∨ failed s SysCreateDirectories →
     Q (Done (inr msg)) (tick s)) →
  wp (sys (fs_create_directories p)) Q s.
Proof.
  intros ? Hok Hf. sys_cases; cbn; try (by apply Hf; right; eexists);
    (destruct (existsb _ _) eqn:E; cbn;
      [ apply existsb_exists in E as (q & Hq%list_elem_of_In & [f Hp]%bool_decide_eq_true);
        apply Hf; left; by eauto
      | apply Hok; intros q Hq; apply eq_None_not_Some; intros Hs;
        apply not_true_iff_false in E; apply E; apply existsb_exists; exists q;
        split; [by apply list_elem_of_In|by apply bool_decide_eq_true] ]).
Qed.

Lemma wp_rename src dst Q s :
  (crashed s SysRename → Q Crashed (tick s)) →
  (∀ f, files (fs (os s)) !! src = Some f → dst ∉ dirs (fs (os s)) → parent dst ∈ dirs (fs (os s)) →
     Q (Done (inl tt)) (upd_fs (with_files (λ m, <[dst := f]> (delete src m)) (fs (os s))) s)) →
  (∀ msg, files (fs (os s)) !! src = None ∨ dst ∈ dirs (fs (os s)) ∨
     parent dst ∉ dirs (fs (os s)) ∨ failed s SysRename → Q (Done (inr msg)) (tick s)) →
  wp (sys (fs_rename src dst)) Q s.
Proof.
  intros ? Hok Hf. sys_cases; cbn; try (by apply Hf; right; right; right; eexists);
    (destruct (files (fs (os s)) !! src) as [f|] eqn:E; cbn; [|apply Hf; by left];
     case_bool_decide; cbn; [apply Hf; right; by left|];
     case_bool_decide; cbn; [by apply Hok|apply Hf; right; right; by left]).
Qed.

(** Removing a path that is no directory. *)
Lemma wp_remove p Q s :
  p ∉ dirs (fs (os s)) →
  (crashed s SysRemove → Q Crashed (tick s)) →
  (∀ f, files (fs (os s)) !! p = Some f →
     Q (Done (inl true)) (upd_fs (with_files (delete p) (fs (os s))) s)) →
  (files (fs (os s)) !! p = None → Q (Done (inl false)) (tick s)) →
  (∀ msg, failed s SysRemove → Q (Done (inr msg)) (tick s)) →
  wp (sys (fs_remove p)) Q s.
Proof.
  intros Hd ? Hok Hn Hf. sys_cases; cbn; try (by apply Hf; eexists);
    (rewrite bool_decide_false by done;
     destruct (files (fs (os s)) !! p) as [f|] eqn:E; cbn; [by eapply Hok|by apply Hn]).
Qed.

(** The state with a new descriptor. *)
Definition with_fd (p : path) (f : Fs) s : Disk :=
  set_os (MkOs f (S (now (os s))) (<[next_fd (os s) := p]> (fds (os s))) (S (next_fd (os s)))
    (pending (os s) ∪ touched (fs (os s)) f)) s.

Lemma with_fd_same p s :
  with_fd p (fs (os s)) s =
    set_os (MkOs (fs (os s)) (S (now (os s))) (<[next_fd (os s) := p]> (fds (os s))) (S (next_fd (os s))) (pending (os s))) s.
Proof. unfold with_fd. by rewrite touched_refl, (right_id_L ∅ (∪)). Qed.

Lemma wp_open_create p flags Q s :
  O_DIRECTORY ∉ flags → O_WRONLY ∈ flags → O_CREAT ∈ flags → O_TRUNC ∈ flags →
  (crashed s SysOpen → Q Crashed (tick s)) →
  (p ∉ dirs (fs (os s)) → 
     Q (Done (Some (next_fd (os s)))) (with_fd p (with_files (<[p := File [] false]>) (fs (os s))) s)) →
  (p ∈ dirs (fs (os s)) ∨ parent p ∉ dirs (fs (os s)) ∨ failed s SysOpen → Q (Done None) (tick s)) →
  wp (sys (internal_open p flags)) Q s.
Proof.
  intros Hd Hw Hc Ht ? Hok Hf. sys_cases; cbn; try (by apply Hf; right; right; eexists);
    (unfold can_open; rewrite (bool_decide_false (O_DIRECTORY ∈ flags)), (bool_decide_true (O_WRONLY ∈ flags)),
       (bool_decide_true (O_CREAT ∈ flags)), (bool_decide_true (O_TRUNC ∈ flags)) by done; cbn;
     case_bool_decide; cbn; [apply Hf; by left|];
     case_bool_decide; cbn; [by apply Hok|];
     case_bool_decide; cbn; [by apply Hok|apply Hf; right; by left]).
Qed.

Lemma wp_open_read p flags Q s :
  O_DIRECTORY ∉ flags → O_WRONLY ∉ flags → O_CREAT ∉ flags → O_TRUNC ∉ flags →
  (crashed s SysOpen → Q Crashed (tick s)) →
  (p ∈ dirs (fs (os s)) ∨ is_Some (files (fs (os s)) !! p) →
     Q (Done (Some (next_fd (os s)))) (with_fd p (fs (os s)) s)) →
  (files (fs (os s)) !! p = None ∨ failed s SysOpen → Q (Done None) (tick s)) →
  wp (sys (internal_open p flags)) Q s.
Proof.
  rewrite with_fd_same. intros Hd Hw Hc Ht ? Hok Hf. sys_cases; cbn; try (by apply Hf; right; eexists);
    (unfold can_open; rewrite (bool_decide_false (O_DIRECTORY ∈ flags)), (bool_decide_false (O_WRONLY ∈ flags)),
       (bool_decide_false (O_CREAT ∈ flags)), (bool_decide_false (O_TRUNC ∈ flags)) by done; cbn;
     case_bool_decide; cbn; [apply Hok; by left|];
     case_bool_decide as Hs; cbn; [apply Hok; by right|apply Hf; left; by apply eq_None_not_Some]).
Qed.

Lemma wp_open_dir p flags Q s :
  O_DIRECTORY ∈ flags → O_CREAT ∉ flags → O_TRUNC ∉ flags →
  (crashed s SysOpen → Q Crashed (tick s)) →
  (p ∈ dirs (fs (os s)) → Q (Done (Some (next_fd (os s)))) (with_fd p (fs (os s)) s)) →
  (p ∉ dirs (fs (os s)) ∨ failed s SysOpen → Q (Done None) (tick s)) →
  wp (sys (internal_open p flags)) Q s.
Proof.
  rewrite with_fd_same. intros Hd Hc Ht ? Hok Hf. sys_cases; cbn; try (by apply Hf; right; eexists);
    (unfold can_open; rewrite (bool_decide_true (O_DIRECTORY ∈ flags)),
       (bool_decide_false (O_CREAT ∈ flags)), (bool_decide_false (O_TRUNC ∈ flags)) by done; cbn;
     case_bool_decide; cbn; auto).
Qed.

Lemma wp_write fd data p f Q s :
  fds (os s) !! fd = Some p → files (fs (os s)) !! p = Some f →
  (crashed s SysWrite → Q Crashed (tick s)) →
  (∀ n, n = length data ∨ (∃ k, sys_event (now (os s)) SysWrite = EvShort k ∧ n = length (take k data)) →
     Q (Done (Some n)) (upd_fs (with_files (<[p := File (content f ++ take n data) false]>) (fs (os s))) s)) →
  (failed s SysWrite → Q (Done None) (tick s)) →
  wp (sys (sys_write fd data)) Q s.
Proof.
  intros Hfd Hp ? Hok Hf. sys_cases; cbn; rewrite ?Hfd, ?Hp; cbn.
  - rewrite firstn_all. specialize (Hok _ (or_introl eq_refl)). by rewrite firstn_all in Hok.
  - apply Hf. by eexists.
  - specialize (Hok (length (take n data)) ltac:(right; eexists; done)).
    replace (take (length (take n data)) data) with (take n data) in Hok; [done|].
    rewrite length_take. destruct (Nat.le_gt_cases n (length data)).
    + by rewrite Nat.min_l by done.
    + rewrite Nat.min_r, firstn_all by lia. by apply take_ge; lia.
Qed.

Lemma wp_read fd n p f Q s :
  fds (os s) !! fd = Some p → files (fs (os s)) !! p = Some f →
  (crashed s SysRead → Q Crashed (tick s)) →
  (∀ k, k = n ∨ (∃ j, sys_event (now (os s)) SysRead = EvShort j ∧ k = j `min` n) →
     Q (Done (Some (take k (content f)))) (tick s)) →
  (failed s SysRead → Q (Done None) (tick s)) →
  wp (sys (sys_read fd n)) Q s.
Proof.
  intros Hfd Hp ? Hok Hf. sys_cases; cbn; rewrite ?Hfd; cbn; rewrite ?Hp; cbn.
  - apply Hok. by left.
  - apply Hf. by eexists.
  - apply Hok. right. by eexists.
Qed.

Lemma wp_fsync fd p Q s :
  fds (os s) !! fd = Some p → p ∉ dirs (fs (os s)) →
  (crashed s SysFsync → Q Crashed (tick s)) →
  (Q (Done true) (upd_fs (with_files (alter (λ f, File (content f) true) p) (fs (os s))) s)) →
  (failed s SysFsync → Q (Done false) (tick s)) →
  wp (sys (internal_fsync fd)) Q s.
Proof.
  intros Hfd Hd ? Hok Hf. sys_cases; cbn; rewrite ?Hfd; cbn; rewrite ?bool_decide_false by done; try done.
  apply Hf. by eexists.
Qed.

(** Syncing a directory changes nothing but what is pending. *)
Lemma wp_fsync_dir fd p Q s :
  fds (os s) !! fd = Some p → p ∈ dirs (fs (os s)) →
  (crashed s SysFsync → Q Crashed (tick s)) →
  (Q (Done true) (set_os (settle p (step_time (os s))) s)) →
  (failed s SysFsync → Q (Done false) (tick s)) →
  wp (sys (internal_fsync fd)) Q s.
Proof.
  intros Hfd Hd ? Hok Hf. sys_cases; cbn; rewrite ?Hfd; cbn; rewrite ?bool_decide_true by done; try done.
  apply Hf. by eexists.
Qed.

Lemma wp_close fd Q s :
  (crashed s SysClose → Q Crashed (tick s)) →
  (Q (Done tt) (set_os (set_fds (delete fd (fds (os s))) (step_time (os s))) s)) →
  wp (sys (sys_close fd)) Q s.
Proof. intros ? ?. sys_cases; done. Qed.

Lemma wp_uuid Q s :
  Q (Done (uuid_at (uuids_drawn (rt s)))) (set_rt (draw_uuid (rt s)) s) → wp GenerateUuidV4 Q s.
Proof. intros ?. by apply wp_zoom. Qed.

(** ** Locks *)

Lemma release_one_head z l : release_one z (z :: l) = l.
Proof. cbn. by rewrite bool_decide_true. Qed.

(** A lock guard around a block that gives back the locks it takes. *)
Lemma wp_lock_guard {A} z (body : M Disk A) Q s :
  (z ∈ held s → relock = RelockBlocks → Q Blocks s) →
  (z ∈ held s → relock = RelockThrows → Q (Throws (system_error "Resource deadlock avoided")) s) →
  (z ∉ held s ∨ relock = RelockReenters →
   wp body (λ o s',
     match o with
     | Done _ | Throws _ => Q o (set_held (release_one z (held s')) s')
     | _ => Q o s'
     end) (set_held (z :: held s) s)) →
  wp (lock_guard z body) Q s.
Proof.
  intros Hb Ht Hbody. unfold lock_guard. apply wp_bind. unfold lock, wp at 1, state.
  assert (z ∉ held s ∨ relock = RelockReenters → wp (scoped (unlock z) body) Q (set_held (z :: held s) s)) as Hgo.
  { intros Hor. apply wp_scoped. eapply wp_mono; [by apply Hbody|]. by intros [] s'. }
  case_bool_decide as Hin; cbn; [|by apply Hgo; left].
  destruct relock eqn:E; cbn; [by apply Hb|by apply Ht|apply Hgo; by right].
Qed.

End Rules.

(** ** The calls a proof script goes through *)

Ltac wp_log := apply wp_log; intros ?r ?Hlog.
