(* ===== verification/DiskLayout.v ===== *)
(** * The sharded layout on disk

    Where the files of a chunk live, why different chunks and temporary files
    never share a path, the well-formedness of the tree below the data root,
    the abstract store it represents, and what the counters count. *)

From S2P Require Import Prelude Result Cxx Sha256 ChunkId Logger IChunkStore Posix LocalDisk.
Import LocalDisk.

(** ** Generic facts *)

Lemma append_inj_length a b x y :
  String.length a = String.length b → a +:+ x = b +:+ y → a = b ∧ x = y.
Proof.
  revert b. induction a as [|c a IH]; intros [|d b] Hl Heq; cbn in Hl; try done.
  autorewrite with cxx in Heq. injection Heq as -> Heq.
  destruct (IH b) as [-> ->]; [lia|done|done].
Qed.

Lemma parent_snoc (p : path) c : parent (p ++ [c]) = p.
Proof. unfold parent. rewrite length_app. cbn. by rewrite Nat.add_sub, take_app_length. Qed.

Lemma file_name_snoc (p : path) c : file_name (p ++ [c]) = c.
Proof. unfold file_name. by rewrite last_snoc. Qed.

Lemma elem_of_prefixes (q p : path) : q ∈ prefixes p ↔ q ≠ [] ∧ q `prefix_of` p.
Proof.
  revert q. induction p as [|c p IH]; intros q; cbn.
  - split; [by intros ?%elem_of_nil|]. intros [Hq [k Hk]]. by destruct q.
  - rewrite elem_of_cons, list_elem_of_fmap. split.
    + intros [->|(q' & -> & Hq')].
      * split; [done|]. by exists p.
      * apply IH in Hq' as [_ Hq']. split; [done|]. by apply prefix_cons.
    + intros [Hq Hp]. destruct q as [|d q]; [done|].
      pose proof (prefix_cons_inv_1 _ _ _ _ Hp) as ->.
      apply prefix_cons_inv_2 in Hp. destruct q as [|d' q]; [by left|].
      right. eexists. split; [done|]. by apply IH.
Qed.

(** ** Paths of a chunk *)

Section Layout.
Context `{Evp, Platform, UuidSource}.
Variable root : path.

Definition shard_path (h : string) : path := root ++ [String.substring 0 2 h; String.substring 2 2 h].
Definition final_path (h : string) : path := shard_path h ++ [h +:+ ".chunk"].
Definition tmp_path (h uuid : string) : path := shard_path h ++ [h +:+ ".tmp." +:+ uuid].

Lemma ShardDirFor_eq id : ChunkId.valid id →
  ShardDirFor root id = Done (shard_path (ChunkId.ToHexString id)).
Proof.
  intros Hv. pose proof (ChunkId.valid_hex_length id Hv) as Hl.
  unfold ShardDirFor, substr. unfold ChunkId.ToHexString in *. by rewrite Hl.
Qed.

Lemma FinalPathFor_eq id : ChunkId.valid id →
  FinalPathFor root id = Done (final_path (ChunkId.ToHexString id)).
Proof. intros Hv. unfold FinalPathFor. by rewrite ShardDirFor_eq. Qed.

Lemma final_path_inj h h' : final_path h = final_path h' → h = h'.
Proof.
  unfold final_path. intros [_ Heq]%app_inj_2; [|done]. injection Heq as Heq.
  assert (String.length h = String.length h') as Hl.
  { apply (f_equal String.length) in Heq. rewrite !length_string_app in Heq. cbn in Heq. lia. }
  by destruct (append_inj_length _ _ _ _ Hl Heq).
Qed.

Lemma tmp_path_not_final h h' u :
  String.length h = String.length h' → tmp_path h u ≠ final_path h'.
Proof.
  intros Hl. unfold tmp_path, final_path. intros [_ Heq]%app_inj_2; [|done]. injection Heq as Heq.
  by destruct (append_inj_length _ _ _ _ Hl Heq).
Qed.

Lemma parent_final h : parent (final_path h) = shard_path h.
Proof. apply parent_snoc. Qed.

Lemma parent_tmp h u : parent (tmp_path h u) = shard_path h.
Proof. apply parent_snoc. Qed.

Lemma length_shard h : length (shard_path h) = (length root + 2)%nat.
Proof. unfold shard_path. rewrite length_app. done. Qed.

Lemma length_final h : length (final_path h) = (length root + 3)%nat.
Proof. unfold final_path. rewrite length_app, length_shard. cbn. lia. Qed.

Lemma length_tmp h u : length (tmp_path h u) = (length root + 3)%nat.
Proof. unfold tmp_path. rewrite length_app, length_shard. cbn. lia. Qed.

Lemma root_shard h : root `prefix_of` shard_path h.
Proof. by eexists. Qed.

Lemma root_final h : root `prefix_of` final_path h.
Proof. eapply prefix_app_r, root_shard. Qed.

Lemma root_tmp h u : root `prefix_of` tmp_path h u.
Proof. eapply prefix_app_r, root_shard. Qed.

(** A final path is recognised as a chunk and gives its identifier back. *)
Lemma stem_final h : h ≠ "" → stem_extension (file_name (final_path h)) = (h, ".chunk").
Proof.
  intros Hh. unfold final_path. rewrite file_name_snoc.
  apply stem_extension_app; [done|done|cbn; lia].
Qed.

Lemma is_chunk_final h : h ≠ "" → is_chunk (final_path h) = true.
Proof. intros Hh. unfold is_chunk, extension. by rewrite stem_final. Qed.

Lemma is_chunk_tmp `{!UuidLaws} h n : is_chunk (tmp_path h (uuid_at n)) = false.
Proof.
  unfold is_chunk, extension, tmp_path. rewrite file_name_snoc.
  rewrite <- (append_assoc h ".tmp."), (append_assoc h). 
  change (".tmp." +:+ uuid_at n) with (".tmp" +:+ ("." +:+ uuid_at n)).
  rewrite <- append_assoc. destruct (uuid_format n) as [Hl _].
  rewrite stem_extension_app.
  - cbn. apply String.eqb_neq. intros Heq. apply (f_equal String.length) in Heq.
    rewrite length_string_app, Hl in Heq. done.
  - intros Heq. apply (f_equal String.length) in Heq. rewrite length_string_app in Heq. cbn in Heq. lia.
  - change ("." +:+ uuid_at n) with (String "." (uuid_at n)). cbn.
    rewrite split_last_dot_none by apply uuid_no_dot. done.
  - rewrite length_string_app, Hl. cbn. lia.
Qed.

(** ** Well-formed trees

    Below the root, directories are at depth one and two and files at depth
    three; the root and its parents are directories. *)
Record layout (f : Fs) : Prop := {
  layout_nonempty : root ≠ [];
  layout_root q : q ∈ prefixes root → q ∈ dirs f ∧ files f !! q = None;
  layout_files p x : root `prefix_of` p → files f !! p = Some x → length p = (length root + 3)%nat;
  layout_dirs p : root `prefix_of` p → p ∈ dirs f → (length p ≤ length root + 2)%nat
}.

Lemma layout_final_dir f h : layout f → final_path h ∉ dirs f.
Proof.
  intros Hf Hin. pose proof (layout_dirs f Hf _ (root_final h) Hin) as Hl.
  rewrite length_final in Hl. lia.
Qed.

Lemma layout_tmp_dir f h u : layout f → tmp_path h u ∉ dirs f.
Proof.
  intros Hf Hin. pose proof (layout_dirs f Hf _ (root_tmp h u) Hin) as Hl.
  rewrite length_tmp in Hl. lia.
Qed.

Lemma layout_shard_file f h : layout f → files f !! shard_path h = None.
Proof.
  intros Hf. destruct (files f !! shard_path h) as [x|] eqn:E; [|done].
  pose proof (layout_files f Hf _ _ (root_shard h) E) as Hl. rewrite length_shard in Hl. lia.
Qed.

Lemma prefixes_shard_length q h : q ∈ prefixes (shard_path h) → (length q ≤ length root + 2)%nat.
Proof. intros [_ Hq]%elem_of_prefixes. apply prefix_length in Hq. by rewrite length_shard in Hq. Qed.

Lemma layout_shard_prefix f q h : layout f → q ∈ prefixes (shard_path h) → files f !! q = None.
Proof.
  intros Hf Hq. pose proof (prefixes_shard_length _ _ Hq) as Hl.
  apply elem_of_prefixes in Hq as [Hne Hq].
  destruct (files f !! q) as [x|] eqn:E; [|done].
  destruct (decide (root `prefix_of` q)) as [Hr|Hr].
  - pose proof (layout_files f Hf _ _ Hr E). lia.
  - assert (q `prefix_of` root) as Hqr.
    { destruct (prefix_weak_total q root _ Hq (root_shard h)); done. }
    assert (q ∈ prefixes root) as Hin by (by apply elem_of_prefixes).
    destruct (layout_root f Hf _ Hin). congruence.
Qed.

(** Creating the shard directories keeps the layout. *)
Lemma layout_mkdir f h : layout f →
  layout (MkFs (files f) (list_to_set (prefixes (shard_path h)) ∪ dirs f)).
Proof.
  intros Hf. destruct Hf as [Hne Hr Hfi Hd]. split; cbn; [done| |done|].
  - intros q Hq. destruct (Hr q Hq). set_solver.
  - intros p Hp. rewrite elem_of_union, elem_of_list_to_set. intros [?%prefixes_shard_length|?]; [done|eauto].
Qed.

Lemma shard_in_prefixes f h : layout f → shard_path h ∈ prefixes (shard_path h).
Proof.
  intros Hf. apply elem_of_prefixes. split; [|done]. intros Hn.
  apply (f_equal length) in Hn. rewrite length_shard in Hn. cbn in Hn. lia.
Qed.

(** Files may come and go at depth three. *)
Lemma layout_files_change (f : Fs) (fs' : gmap path file) :
  layout f →
  (∀ p, fs' !! p ≠ None → files f !! p ≠ None ∨ (root `prefix_of` p ∧ length p = (length root + 3)%nat)) →
  layout (MkFs fs' (dirs f)).
Proof.
  intros [Hne Hr Hfi Hd] Hch. split; cbn; [done| | |done].
  - intros q Hq. destruct (Hr q Hq) as [Hin Hno]. split; [done|].
    destruct (fs' !! q) as [x|] eqn:E; [|done]. exfalso.
    destruct (Hch q) as [?|[Hp Hl]]; [congruence|done|].
    apply elem_of_prefixes in Hq as [_ Hq]. apply prefix_length in Hq. lia.
  - intros p x Hp Hx. destruct (Hch p) as [Hs|[_ Hl]]; [congruence| |done].
    destruct (files f !! p) as [y|] eqn:E; [|done]. by eapply Hfi.
Qed.

(** ** The abstract store of a tree *)

Definition is_hex_id (h : string) : bool :=
  (String.length h =? 64)%nat && string_forallb is_lower_xdigit h.

Definition view_entry (pf : path * file) : option (string * list byte) :=
  let h := stem (file_name pf.1) in
  if bool_decide (pf.1 = final_path h) && is_hex_id h then Some (h, content pf.2) else None.

Definition view_of (f : Fs) : store := list_to_map (omap view_entry (map_to_list (files f))).

Lemma view_entry_some p x h c :
  view_entry (p, x) = Some (h, c) ↔ p = final_path h ∧ is_hex_id h = true ∧ c = content x.
Proof.
  unfold view_entry. cbn. split.
  - case_bool_decide as Hp; cbn; [|done]. destruct (is_hex_id _) eqn:Hh; [|done].
    intros [= <- <-]. done.
  - intros (-> & Hh & ->).
    assert (h ≠ "") as Hne by (by intros ->).
    unfold stem. rewrite stem_final by done. cbn. by rewrite bool_decide_true, Hh.
Qed.

Lemma view_keys_NoDup (l : list (path * file)) :
  NoDup l.*1 → NoDup (omap view_entry l).*1.
Proof.
  induction l as [|[p x] l IH]; cbn; [constructor|].
  intros [Hnin Hnd]%NoDup_cons. destruct (view_entry (p, x)) as [[h c]|] eqn:E; [|by apply IH].
  cbn. apply NoDup_cons. split; [|by apply IH].
  apply view_entry_some in E as (-> & Hh & ->). intros Hin. apply Hnin.
  apply list_elem_of_fmap in Hin as ([h' c'] & -> & Hin).
  apply list_elem_of_omap in Hin as ([p' x'] & Hin & E').
  apply view_entry_some in E' as (-> & _ & _). cbn in *.
  apply list_elem_of_fmap. by eexists (_, _).
Qed.

Lemma view_lookup f h :
  view_of f !! h = if is_hex_id h then content <$> files f !! final_path h else None.
Proof.
  unfold view_of. apply option_eq. intros c.
  rewrite <- elem_of_list_to_map by (apply view_keys_NoDup, NoDup_fst_map_to_list).
  rewrite list_elem_of_omap. split.
  - intros ([p x] & Hin%elem_of_map_to_list & E).
    apply view_entry_some in E as (-> & -> & ->). by rewrite Hin.
  - destruct (is_hex_id h) eqn:Hh; [|done]. intros (x & Hm & ->)%fmap_Some.
    exists (final_path h, x). rewrite elem_of_map_to_list. split; [done|].
    by apply view_entry_some.
Qed.

Lemma valid_is_hex_id id : ChunkId.valid id → is_hex_id (ChunkId.ToHexString id) = true.
Proof.
  intros Hv. unfold is_hex_id, ChunkId.ToHexString.
  by rewrite (ChunkId.valid_hex_length id Hv), (ChunkId.valid_hex_lower id Hv).
Qed.

Lemma view_lookup_valid f id : ChunkId.valid id →
  view_of f !! ChunkId.ToHexString id = content <$> files f !! final_path (ChunkId.ToHexString id).
Proof. intros Hv. by rewrite view_lookup, valid_is_hex_id. Qed.

Lemma is_hex_id_length h : is_hex_id h = true → String.length h = 64%nat.
Proof. unfold is_hex_id. rewrite andb_true_iff, Nat.eqb_eq. by intros []. Qed.

(** Changes of the tree, seen in the store. *)
Lemma view_ext f f' :
  (∀ h, is_hex_id h = true → files f' !! final_path h = files f !! final_path h) → view_of f' = view_of f.
Proof. intros Hf. apply map_eq. intros h. rewrite !view_lookup. destruct (is_hex_id h) eqn:E; [|done]. by rewrite Hf. Qed.

Lemma view_insert f f' h x :
  is_hex_id h = true → files f' !! final_path h = Some x →
  (∀ h', is_hex_id h' = true → h' ≠ h → files f' !! final_path h' = files f !! final_path h') →
  view_of f' = <[h := content x]> (view_of f).
Proof.
  intros Hh Hx Hf. apply map_eq. intros h'. rewrite lookup_insert. case_decide as Hd.
  - subst. by rewrite view_lookup, Hh, Hx.
  - rewrite !view_lookup. destruct (is_hex_id h') eqn:E; [|done]. rewrite Hf; done.
Qed.

Lemma view_delete f f' h :
  files f' !! final_path h = None →
  (∀ h', is_hex_id h' = true → h' ≠ h → files f' !! final_path h' = files f !! final_path h') →
  view_of f' = delete h (view_of f).
Proof.
  intros Hx Hf. apply map_eq. intros h'. rewrite lookup_delete. case_decide as Hd.
  - subst. rewrite view_lookup, Hx. by destruct (is_hex_id _).
  - rewrite !view_lookup. destruct (is_hex_id h') eqn:E; [|done]. rewrite Hf; done.
Qed.

(** ** What the counters count *)

Definition counted (p : path) : Prop := root `prefix_of` p ∧ is_chunk p = true.

#[local] Instance counted_dec p : Decision (counted p).
Proof. unfold counted. apply _. Defined.

Definition chunk_files (m : gmap path file) : gmap path file := filter (λ pf, counted pf.1) m.

Definition total_bytes (m : gmap path file) : nat := map_fold (λ _ x n, length (content x) + n) 0 m.

Definition counters_ok (s : Disk) : Prop :=
  chunk_count_ s = wrap64 (Z.of_nat (size (chunk_files (files (fs (os s)))))) ∧
  bytes_used_ s = wrap64 (Z.of_nat (total_bytes (chunk_files (files (fs (os s)))))).

Lemma total_bytes_insert p x m :
  m !! p = None → total_bytes (<[p := x]> m) = (length (content x) + total_bytes m)%nat.
Proof. intros Hp. unfold total_bytes. rewrite map_fold_insert_L; [done| |done]. intros. lia. Qed.

Lemma total_bytes_delete p x m :
  m !! p = Some x → total_bytes m = (length (content x) + total_bytes (delete p m))%nat.
Proof.
  intros Hp. rewrite <- (total_bytes_insert p x (delete p m)) by apply lookup_delete_eq.
  by rewrite insert_delete_id.
Qed.

Lemma chunk_files_insert p x m : counted p → chunk_files (<[p := x]> m) = <[p := x]> (chunk_files m).
Proof. intros Hp. unfold chunk_files. by rewrite map_filter_insert_True. Qed.

Lemma chunk_files_delete p m : chunk_files (delete p m) = delete p (chunk_files m).
Proof. unfold chunk_files. apply map_filter_delete. Qed.

Lemma chunk_files_lookup p m : counted p → chunk_files m !! p = m !! p.
Proof.
  intros Hp. unfold chunk_files. destruct (m !! p) as [x|] eqn:E.
  - by apply map_lookup_filter_Some.
  - apply map_lookup_filter_None. by left.
Qed.

(** Paths that are not counted do not matter. *)
Lemma chunk_files_ext m m' : (∀ p, counted p → m' !! p = m !! p) → chunk_files m' = chunk_files m.
Proof.
  intros Hm. apply map_eq. intros p. apply option_eq. intros x.
  unfold chunk_files. rewrite !map_lookup_filter_Some. cbn.
  split; intros [Hp Hc]; (split; [|done]); [by rewrite <- Hm|by rewrite Hm].
Qed.

End Layout.
