(* ===== verification/DiskEffects.v ===== *)
(** * The effect of each store operation on the disk

    One lemma per operation, for every schedule of the system calls: what the
    operation returns and what the tree, the descriptors, the locks and the
    counters are afterwards, failed calls and crashes included. The theorems
    about the store are read off these lemmas. *)

From S2P Require Import Prelude Result Cxx Sha256 ChunkId Logger IChunkStore Posix LocalDisk DiskRules DiskLayout.
Import LocalDisk.

Section Effects.
Context `{Evp, Platform, UuidSource}.
Variable root : path.
Implicit Types s : Disk.

(** Shorthands for the parts of a state. *)
Definition tree s : gmap path file := files (fs (os s)).
Definition dirset s : gset path := dirs (fs (os s)).

(** Some call did not simply succeed. *)
Definition io_fault : Prop := ∃ n c, sys_event n c ≠ EvOk.

Lemma failed_fault s c : failed s c → io_fault.
Proof. intros [msg Hm]. exists (now (os s)), c. by rewrite Hm. Qed.

Lemma crashed_fault s c : crashed s c → io_fault.
Proof. unfold crashed. intros Hm. exists (now (os s)), c. by rewrite Hm. Qed.

(** Descriptors are numbered upwards. *)
Definition fds_ok s : Prop := ∀ n, (next_fd (os s) ≤ n)%nat → fds (os s) !! n = None.

Lemma fds_ok_fresh s : fds_ok s → delete (next_fd (os s)) (fds (os s)) = fds (os s).
Proof. intros Hok. apply delete_id. by apply Hok. Qed.

(** What no operation changes: the correlation id and the logger, the locks
    held on entry and (unless an operation says so) the descriptors. *)
Definition same_thread s s' : Prop :=
  t_correlation_id (rt s') = t_correlation_id (rt s) ∧ impl_ (rt s') = impl_ (rt s) ∧
  held s' = held s.

Definition same_counters s s' : Prop :=
  chunk_count_ s' = chunk_count_ s ∧ bytes_used_ s' = bytes_used_ s.

Definition added_counters (n : Z) s s' : Prop :=
  chunk_count_ s' = wrap64 (chunk_count_ s + 1) ∧ bytes_used_ s' = wrap64 (bytes_used_ s + n).

(** ** [Put_publish] *)

(** The three trees a crash or an error may leave behind: as before, without
    the temporary file, or with the chunk in place, complete and on disk. *)
Definition published s (tmp final : path) (data : list byte) : gmap path file :=
  <[final := File data true]> (delete tmp (tree s)).

Definition publish_post s (tmp final : path) (data : list byte)
  (o : outcome (Result unit ChunkStoreErrorDetail)) s' : Prop :=
  same_thread s s' ∧ dirset s' = dirset s ∧
  match o with
  | Done (Ok _) => tree s' = published s tmp final data ∧ added_counters (Z.of_nat (length data)) s s'
      ∧ fds (os s') = fds (os s) ∧ fds_ok s'
  | Done (Err e) => kind e = IoError ∧ (tree s' = tree s ∨ tree s' = delete tmp (tree s))
      ∧ same_counters s s' ∧ fds (os s') = fds (os s) ∧ fds_ok s' ∧ io_fault
  | Crashed => (tree s' = tree s ∨ tree s' = delete tmp (tree s)) ∨ tree s' = published s tmp final data
  | _ => False
  end.

Ltac finish := unfold same_thread, same_counters, added_counters, logged in *; cbn in *; intuition (eauto; congruence).

Lemma log_thread s r : logged (rt s) r → same_thread s (set_rt r s).
Proof. unfold logged, same_thread. cbn. naive_solver. Qed.

Lemma alter_absent (m : gmap path file) g p : m !! p = None → alter g p m = m.
Proof.
  intros Hp. apply map_eq. intros q. rewrite lookup_alter. case_decide; [|done]. subst. by rewrite Hp.
Qed.

Lemma delete_alter_same (m : gmap path file) g p : delete p (alter g p m) = delete p m.
Proof. rewrite delete_alter. by rewrite decide_True. Qed.

Lemma published_eq s s' (tmp final : path) (data : list byte) :
  delete tmp (tree s') = delete tmp (tree s) → published s' tmp final data = published s tmp final data.
Proof. unfold published. by intros ->. Qed.

Lemma delete_lookup_same (m m' : gmap path file) p q :
  delete p m' = delete p m → p ≠ q → m' !! q = m !! q.
Proof. intros Hd Hne. by rewrite <- (lookup_delete_ne m' p q), Hd, lookup_delete_ne. Qed.

Lemma published_shard s (tmp final shard : path) (data : list byte) :
  tree s !! shard = None → final ≠ shard → published s tmp final data !! shard = None.
Proof. intros Hs Hf. unfold published. rewrite lookup_insert_ne, lookup_delete by done. by case_decide. Qed.

(** Syncing the shard directory: only descriptors and the log change. *)
Definition synced_dir s s' : Prop :=
  same_thread s s' ∧ dirset s' = dirset s ∧ tree s' = tree s ∧ same_counters s s' ∧ fds_ok s'.

Lemma publish_effect (id : ChunkId.t) (data : list byte) (shard tmp final : path) s :
  tree s !! tmp = Some (File data true) → tmp ∉ dirset s → final ∉ dirset s →
  parent final = shard → shard ∈ dirset s → tree s !! shard = None → final ≠ shard →
  fds_ok s →
  wp (Put_publish id data shard tmp final) (publish_post s tmp final data) s.
Proof.
  intros Htmp Htd Hfd Hpar Hsd Hsf Hfs Hok. unfold Put_publish.
  apply wp_bind, wp_rename.
  - intros _. repeat split; auto.
  - intros f Hf _ _. assert (f = File data true) as -> by (unfold tree in Htmp; congruence).
    apply wp_bind, wp_open_dir; [set_solver..| | |].
    + intros _. repeat split; auto.
    + intros _. apply wp_bind. apply wp_bind. eapply wp_fsync_dir.
      { cbn. apply lookup_insert_eq. }
      { done. }
      * intros _. repeat split; auto.
      * cbn. apply wp_ret. apply wp_bind, wp_modify. apply wp_bind. apply wp_log. intros r Hr.
        apply wp_bind. cbn. apply wp_close.
        -- intros _. unfold publish_post. split; [finish|]. split; [done|].
           by right.
        -- apply wp_ret. unfold publish_post. split; [finish|]. split; [done|].
           split; [done|]. split; [finish|]. cbn.
           rewrite delete_insert_id by (by apply Hok).
           split; [done|]. intros n Hn. cbn in *. apply Hok. lia.
      * intros _. cbn. apply wp_log. intros r1 Hr1. apply wp_bind, wp_modify. apply wp_bind. apply wp_log. intros r Hr.
        apply wp_bind. cbn. apply wp_close.
        -- intros _. unfold publish_post. split; [finish|]. split; [done|]. right. done.
        -- apply wp_ret. unfold publish_post. split; [finish|]. split; [done|].
           split; [done|]. split; [finish|]. cbn.
           rewrite delete_insert_id by (by apply Hok).
           split; [done|]. intros n Hn. cbn in *. apply Hok. lia.
    + intros _. apply wp_bind. apply wp_log. intros r1 Hr1. apply wp_bind, wp_modify. apply wp_bind. apply wp_log. intros r Hr.
      apply wp_bind. apply wp_sys_ret. apply wp_ret. unfold publish_post. split; [finish|]. split; [done|].
      split; [done|]. split; [finish|]. done.
  - intros msg Hbad.
    assert io_fault as Hfault.
    { unfold tree, dirset in *. destruct Hbad as [?|[?|[?|?]]]; [congruence|done|congruence|by eapply failed_fault]. }
    apply wp_bind, wp_remove; [done|..].
    + intros _. repeat split; auto.
    + intros f Hf. apply wp_ret. repeat split; auto.
    + cbn. unfold tree in Htmp. congruence.
    + intros msg' Hf. apply wp_ret. repeat split; auto.
Qed.

(** ** [Put_file] *)

(** The directories: as before, or with those down to the shard of [final]. *)
Definition grown (final : path) s s' : Prop :=
  dirset s' = dirset s ∨ dirset s' = list_to_set (prefixes (parent final)) ∪ dirset s.

(** The write path of [Put], from a state [s] before the temporary file. *)
Definition put_post s (tmp final : path) (data : list byte)
  (o : outcome (Result unit ChunkStoreErrorDetail)) s' : Prop :=
  same_thread s s' ∧ grown final s s' ∧
  match o with
  | Done (Ok _) => tree s' = published s tmp final data ∧ added_counters (Z.of_nat (length data)) s s'
      ∧ fds (os s') = fds (os s) ∧ fds_ok s'
  | Done (Err e) => kind e = IoError ∧ delete tmp (tree s') = delete tmp (tree s)
      ∧ same_counters s s' ∧ fds (os s') = fds (os s) ∧ fds_ok s' ∧ io_fault
  | Crashed => delete tmp (tree s') = delete tmp (tree s) ∨ tree s' = published s tmp final data
  | _ => False
  end.

Definition file_post s (tmp final : path) (data : list byte) (fd : nat)
  (o : outcome (Result unit ChunkStoreErrorDetail * ScopedFd)) s' : Prop :=
  same_thread s s' ∧ dirset s' = dirset s ∧
  match o with
  | Done (Ok _, h) => h = None ∧ tree s' = published s tmp final data ∧ added_counters (Z.of_nat (length data)) s s'
      ∧ fds (os s') = delete fd (fds (os s)) ∧ fds_ok s'
  | Done (Err e, h) => kind e = IoError ∧ delete tmp (tree s') = delete tmp (tree s)
      ∧ same_counters s s' ∧ fds_ok s' ∧ io_fault
      ∧ (h = Some fd ∧ fds (os s') = fds (os s) ∨ h = None ∧ fds (os s') = delete fd (fds (os s)))
  | Crashed => delete tmp (tree s') = delete tmp (tree s) ∨ tree s' = published s tmp final data
  | _ => False
  end.

(** Agreement with the state before the temporary file was written. *)
Definition tmp_phase s (tmp : path) s1 : Prop :=
  same_thread s s1 ∧ dirset s1 = dirset s ∧ same_counters s s1 ∧ fds (os s1) = fds (os s) ∧ fds_ok s1 ∧
  delete tmp (tree s1) = delete tmp (tree s).

(** Removing the temporary file after a failed step. *)
Lemma remove_tmp_effect (msg : string) (tmp final : path) (data : list byte) (fd : nat) s s1 x :
  tmp_phase s tmp s1 → tmp ∉ dirset s → tree s1 !! tmp = Some x → io_fault →
  wp (sys (fs_remove tmp);; mret (IoErr msg, Some fd)) (file_post s tmp final data fd) s1.
Proof.
  intros (Hth & Hdir & Hcnt & Hfds & Hok & Htree) Hd Hx Hfault. rewrite <- Hdir in Hd.
  assert (∀ s2, rt s2 = rt s1 → held s2 = held s1 → same_counters s1 s2 → dirset s2 = dirset s1 →
      fds (os s2) = fds (os s1) → next_fd (os s2) = next_fd (os s1) →
      delete tmp (tree s2) = delete tmp (tree s1) →
      file_post s tmp final data fd (Done (IoErr msg, Some fd)) s2 ∧ file_post s tmp final data fd Crashed s2) as Hpost.
  { intros s2 Hrt Hheld Hc2 Hd2 Hf2 Hn2 Ht2.
    assert (same_thread s s2) by (unfold same_thread in *; by rewrite Hrt, Hheld).
    split; (split; [done|]; split; [congruence|]).
    - split_and!; try done; [congruence|finish|..].
      + intros n Hle. rewrite Hf2. apply Hok. lia.
      + left. split; [done|congruence].
    - left. congruence. }
  apply wp_bind, wp_remove; [done|..].
  - intros _. by apply Hpost.
  - intros f Hf. apply wp_ret, Hpost; try done. apply delete_delete_eq.
  - unfold tree in Hx. congruence.
  - intros m _. by apply wp_ret, Hpost.
Qed.

(** Writing the data: the temporary file then holds it all, or there was a
    fault. *)
Definition write_post s (tmp : path) (data : list byte) (o : outcome (option nat)) s1 : Prop :=
  tmp_phase s tmp s1 ∧
  match o with
  | Done w => ∃ c, tree s1 !! tmp = Some (File c false) ∧
      (w = Some (length data) → c = data) ∧ (w ≠ Some (length data) → io_fault)
  | Crashed => True
  | _ => False
  end.

Lemma write_effect (data : list byte) (tmp : path) (fd : nat) s :
  tree s !! tmp = Some (File [] false) → fds_ok s → fds (os s) !! fd = Some tmp →
  wp (match data with [] => mret (Some 0%nat) | _ => sys (sys_write fd data) end) (write_post s tmp data) s.
Proof.
  intros Htmp Hok Hn.
  assert (∀ d, wp (sys (sys_write fd d)) (write_post s tmp d) s) as Hwrite.
  { intros d. eapply wp_write; [done|done|..].
    - intros _. by unfold write_post.
    - intros n Hw. unfold write_post, tmp_phase. split_and!; try done.
      + cbn. apply delete_insert_eq.
      + exists (take n d). split; [cbn; apply lookup_insert_eq|]. split.
        * intros [= ->]. apply firstn_all.
        * intros Hne. destruct Hw as [->|(k & Hk & _)]; [done|].
          eexists _, SysWrite. by rewrite Hk.
    - intros Hf. unfold write_post. split_and!; try done.
      exists []. split; [done|]. split; [done|]. intros _. by eapply failed_fault. }
  destruct data as [|b data]; [|apply Hwrite].
  apply wp_ret. unfold write_post. split_and!; try done. by exists [].
Qed.

(** The descriptor is closed; what is left is the outcome of the publication. *)
Lemma file_post_of_publish (tmp final : path) (data : list byte) (fd : nat) s s2 o s3 :
  same_thread s s2 → dirset s2 = dirset s → same_counters s s2 →
  delete tmp (tree s2) = delete tmp (tree s) → fds (os s2) = delete fd (fds (os s)) →
  publish_post s2 tmp final data o s3 →
  match o with
  | Done r => wp (mret (r, None)) (file_post s tmp final data fd) s3
  | Throws e => file_post s tmp final data fd (Throws e) s3
  | Blocks => file_post s tmp final data fd Blocks s3
  | Crashed => file_post s tmp final data fd Crashed s3
  end.
Proof.
  intros Hth Hdir Hcnt Htree Hfds (Hth3 & Hdir3 & Ho).
  assert (same_thread s s3) as Hth' by finish. rewrite Hdir in Hdir3.
  destruct o as [[u|e]| | |]; try done.
  - apply wp_ret. destruct Ho as (Ht3 & Hc3 & Hf3 & Hok3).
    split; [done|]. split; [done|]. split_and!; try done.
    + rewrite Ht3. by apply published_eq.
    + finish.
    + by rewrite Hf3.
  - apply wp_ret. destruct Ho as (Hk & Ht3 & Hc3 & Hf3 & Hok3 & Hfl).
    split; [done|]. split; [done|]. split_and!; try done.
    + rewrite <- Htree. destruct Ht3 as [->| ->]; [done|apply delete_delete_eq].
    + finish.
    + right. by rewrite Hf3.
  - split; [done|]. split; [done|].
    destruct Ho as [[->| ->]| ->]; [left; done|left; by rewrite delete_delete_eq|right; by apply published_eq].
Qed.

Lemma file_effect (id : ChunkId.t) (data : list byte) (shard tmp final : path) (fd : nat) s :
  tree s !! tmp = Some (File [] false) → tmp ∉ dirset s → final ∉ dirset s →
  parent final = shard → shard ∈ dirset s → tree s !! shard = None → final ≠ shard → tmp ≠ shard →
  fds_ok s → fds (os s) !! fd = Some tmp →
  wp (Put_file id data shard tmp final fd) (file_post s tmp final data fd) s.
Proof.
  intros Htmp Htd Hfd Hpar Hsd Hsf Hfs Hts Hok Hn. unfold Put_file.
  apply wp_bind. eapply wp_mono; [by apply write_effect|].
  intros o s1 ((Hth & Hdir & Hcnt & Hfds & Hok1 & Htree) & Ho).
  assert (tmp_phase s tmp s1) as Hphase by done.
  destruct o as [w| | |]; try done; [|split; [done|]; split; [done|by left]].
  destruct Ho as (c & Hc & Hfull & Hfault).
  destruct (decide (w = Some (length data))) as [->|Hw].
  2: { rewrite bool_decide_false by done. cbn [negb]. eapply remove_tmp_effect; [done|done|done|by apply Hfault]. }
  rewrite bool_decide_true by done. specialize (Hfull eq_refl) as ->. cbn [negb].
  apply wp_bind. eapply wp_fsync; [by rewrite Hfds|by change (tmp ∉ dirset s1); rewrite Hdir|..].
  - intros _. split; [done|]. split; [done|]. by left.
  - cbn [negb ScopedFd_release]. apply wp_bind, wp_close.
    + intros _. split; [done|]. split; [done|]. left.
      rewrite <- Htree. apply delete_alter_same.
    + match goal with |- wp _ _ ?st => set (s2 := st) end.
      assert (delete tmp (tree s2) = delete tmp (tree s)) as Htree2
        by (rewrite <- Htree; apply delete_alter_same).
      assert (fds (os s2) = delete fd (fds (os s))) as Hfds2 by (cbn; by rewrite Hfds).
      assert (fds_ok s2) as Hok2.
      { intros n Hle. rewrite Hfds2, lookup_delete. case_decide; [done|]. rewrite <- Hfds. by apply Hok1. }
      assert (dirset s2 = dirset s) as Hdir2 by done.
      apply wp_bind. eapply wp_mono.
      { apply publish_effect; rewrite ?Hdir2; try done.
        - change (alter (λ f, File (content f) true) tmp (tree s1) !! tmp = Some (File data true)).
          by rewrite lookup_alter_eq, Hc.
        - rewrite <- Hsf. by eapply delete_lookup_same. }
      intros o s3 Hpub.
      exact (file_post_of_publish tmp final data fd s s2 o s3 Hth Hdir2 Hcnt Htree2 Hfds2 Hpub).
  - intros Hf. cbn [negb]. eapply remove_tmp_effect; [done|done|done|by eapply failed_fault].
Qed.

(** ** [Put_new] *)

Definition hex_of (id : ChunkId.t) : string := ChunkId.ToHexString id.
Definition final_of (id : ChunkId.t) : path := final_path root (hex_of id).
Definition tmp_of (id : ChunkId.t) s : path := tmp_path root (hex_of id) (uuid_at (uuids_drawn (rt s))).

(** The block of the temporary file's [ScopedFd] is left: [s4] is the state
    in which the file was opened, [s] the one before. *)
Lemma put_post_of_file (tmp final : path) (data : list byte) s s4 (fd : nat) o s5 :
  same_thread s s4 → same_counters s s4 → grown final s s4 →
  delete tmp (tree s4) = delete tmp (tree s) → delete fd (fds (os s4)) = fds (os s) →
  file_post s4 tmp final data fd o s5 →
  match o with
  | Done rf => wp (sys (ScopedFd_destroy rf.2);; mret rf.1) (put_post s tmp final data) s5
  | Throws e => put_post s tmp final data (Throws e) s5
  | Blocks => put_post s tmp final data Blocks s5
  | Crashed => put_post s tmp final data Crashed s5
  end.
Proof.
  intros Hth Hcnt Hdir Htree Hfds (Hth5 & Hdir5 & Ho).
  assert (same_thread s s5) as Hth' by finish. unfold grown in Hdir. rewrite <- Hdir5 in Hdir.
  destruct o as [[[u|e] h]| | |]; try done; cbn [fst snd].
  - destruct Ho as (-> & Ht5 & Hc5 & Hf5 & Hok5). apply wp_bind, wp_sys_ret, wp_ret.
    split; [done|]. split; [done|]. split_and!; [|finish|congruence|done].
    rewrite Ht5. by apply published_eq.
  - destruct Ho as (Hk & Ht5 & Hc5 & Hok5 & Hfl & [[-> Hf5]|[-> Hf5]]); apply wp_bind.
    + apply wp_close.
      * intros _. split; [done|]. split; [done|]. left. by rewrite <- Htree.
      * apply wp_ret. split; [done|]. split; [done|]. split_and!; try done; [by rewrite <- Htree|finish|..].
        -- cbn. by rewrite Hf5.
        -- intros n Hle. cbn. rewrite lookup_delete. case_decide; [done|]. by apply Hok5.
    + apply wp_sys_ret, wp_ret. split; [done|]. split; [done|].
      split_and!; try done; [by rewrite <- Htree|finish|congruence].
  - split; [done|]. split; [done|]. destruct Ho as [?|Ht5]; [left; congruence|right].
    rewrite Ht5. by apply published_eq.
Qed.

Lemma new_effect (id : ChunkId.t) (data : list byte) s :
  ChunkId.valid id → layout root (fs (os s)) → fds_ok s →
  wp (Put_new root id data) (put_post s (tmp_of id s) (final_of id) data) s.
Proof.
  intros Hv Hlay Hok. unfold Put_new. set (shard := shard_path root (hex_of id)).
  apply wp_bind, wp_lift. rewrite ShardDirFor_eq by done.
  apply wp_bind, wp_create_directories.
  - intros _. split; [done|]. split; [by left|]. by left.
  - intros _. apply wp_bind, wp_uuid. apply wp_bind, wp_lift. rewrite FinalPathFor_eq by done.
    match goal with |- wp _ _ ?st => set (s3 := st) end.
    assert (layout root (fs (os s3))) as Hlay3 by (by apply layout_mkdir).
    change (shard_path root (ChunkId.ToHexString id) ++ _) with (tmp_of id s).
    change (final_path root (ChunkId.ToHexString id)) with (final_of id).
    change (shard_path root (ChunkId.ToHexString id)) with shard.
    assert (shard ∈ dirset s3) as Hsh.
    { unfold dirset. cbn. apply elem_of_union_l, elem_of_list_to_set. by eapply shard_in_prefixes. }
    assert (parent (tmp_of id s) = shard) as Hptmp by apply parent_tmp.
    assert (parent (final_of id) = shard) as Hpfin by apply parent_final.
    assert (grown (final_of id) s s3) as Hdir3 by (right; by rewrite Hpfin).
    assert (final_of id ≠ shard ∧ tmp_of id s ≠ shard) as [Hfs Hts].
    { split; intros Heq; apply (f_equal length) in Heq; revert Heq; unfold shard, final_of, tmp_of;
        rewrite ?length_final, ?length_tmp, length_shard; lia. }
    apply wp_bind, wp_open_create; [set_solver..| | |].
    + intros _. split; [done|]. split; [done|]. by left.
    + intros Hnd. match goal with |- wp _ _ ?st => set (s4 := st) end.
      assert (fds_ok s4) as Hok4.
      { intros n Hle. cbn in *. rewrite lookup_insert_ne by lia. apply Hok. lia. }
      apply wp_bind. eapply wp_mono.
      { apply file_effect; try done.
        - apply lookup_insert_eq.
        - by apply (layout_final_dir root (fs (os s3))).
        - change (<[tmp_of id s := File [] false]> (tree s) !! shard = None).
          rewrite lookup_insert_ne by done. by apply layout_shard_file.
        - apply lookup_insert_eq. }
      intros o s5 Hfile. refine (put_post_of_file _ _ _ s s4 _ o s5 _ _ _ _ _ Hfile); try done.
      * apply delete_insert_eq.
      * cbn. apply delete_insert_id. by apply Hok.
    + intros Hbad. apply wp_ret. split; [done|]. split; [done|]. split_and!; try done.
      destruct Hbad as [Hbad|[Hbad|Hbad]]; [|by rewrite Hptmp in Hbad|by eapply failed_fault].
      by apply (layout_tmp_dir root (fs (os s3))) in Hbad.
  - intros msg Hbad. apply wp_ret. split; [done|]. split; [by left|]. split_and!; try done.
    destruct Hbad as [(q & f & Hq & Hf)|Hbad]; [|by eapply failed_fault].
    rewrite (layout_shard_prefix root _ _ _ Hlay Hq) in Hf. done.
Qed.

(** ** [Exists] *)

(** Nothing but the clock of calls, the log and the locks has moved. *)
Definition quiet s s' : Prop :=
  t_correlation_id (rt s') = t_correlation_id (rt s) ∧ impl_ (rt s') = impl_ (rt s) ∧
  uuids_drawn (rt s') = uuids_drawn (rt s) ∧
  fs (os s') = fs (os s) ∧ fds (os s') = fds (os s) ∧ (next_fd (os s) ≤ next_fd (os s'))%nat ∧
  chunk_count_ s' = chunk_count_ s ∧ bytes_used_ s' = bytes_used_ s.

#[export] Instance quiet_refl : Reflexive quiet.
Proof. by intros s. Qed.

#[export] Instance quiet_trans : Transitive quiet.
Proof. unfold quiet. intros s1 s2 s3 H12 H23. intuition (congruence || lia). Qed.

Lemma quiet_tick s : quiet s (tick s).
Proof. done. Qed.

Lemma quiet_held l s s' : quiet s s' → quiet s (set_held l s').
Proof. done. Qed.

Lemma quiet_rt s s' r : quiet s s' → logged (rt s') r → quiet s (set_rt r s').
Proof. unfold quiet, logged. cbn. intuition (congruence || lia). Qed.

Lemma quiet_fds_ok s s' : quiet s s' → fds_ok s → fds_ok s'.
Proof. intros (_ & _ & _ & _ & Hf & Hn & _) Hok n Hle. rewrite Hf. apply Hok. lia. Qed.

(** A failing status query, as opposed to a crash. *)
Definition stat_fault (c : SysCall) : Prop := ∃ n msg, sys_event n c = EvFail msg.

Lemma failed_stat s c : failed s c → stat_fault c.
Proof. intros [msg Hm]. by eexists _, _. Qed.

Definition relock_failure (o : exn) : Prop :=
  relock = RelockThrows ∧ o = system_error "Resource deadlock avoided".

Definition exists_post (id : ChunkId.t) s (o : outcome bool) s' : Prop :=
  quiet s s' ∧
  match o with
  | Done b => held s' = held s ∧
      (b = bool_decide (is_Some (tree s !! final_of id)) ∨ b = false ∧ stat_fault SysExists)
  | Throws e => LockFor id ∈ held s ∧ relock_failure e ∧ held s' = held s
  | Blocks => LockFor id ∈ held s ∧ relock = RelockBlocks
  | Crashed => ∃ n c, sys_event n c = EvCrash
  end.

Lemma exists_effect (id : ChunkId.t) s :
  ChunkId.valid id → layout root (fs (os s)) →
  wp (Exists root id) (exists_post id s) s.
Proof.
  intros Hv Hlay. unfold Exists. apply wp_lock_guard.
  - intros Hin Hb. by split.
  - intros Hin Ht. by split_and!.
  - intros _. apply wp_bind, wp_lift. rewrite FinalPathFor_eq by done. apply wp_bind.
    change (final_path root (ChunkId.ToHexString id)) with (final_of id).
    assert (path_exists (fs (os s)) (final_of id) = bool_decide (is_Some (tree s !! final_of id))) as Hex.
    { unfold path_exists, tree. rewrite (bool_decide_false (_ ∈ _)) by (by apply layout_final_dir).
      by rewrite orb_false_r. }
    apply wp_exists.
    + intros Hc. split; [done|]. by eexists _, _.
    + apply wp_ret. split; [done|]. split; [apply release_one_head|]. left. exact Hex.
    + intros msg Hf. apply wp_ret. split; [done|]. split; [apply release_one_head|].
      right. split; [done|]. by eapply failed_stat.
Qed.

(** ** [Put] *)

Lemma put_mismatch_effect (id : ChunkId.t) (data : list byte) (d : list byte) s :
  HashBytes data = Done d → d ≠ ChunkId.RawDigest id →
  wp (Put root id data) (λ o s',
    o = Done (Err (Detail ChecksumMismatch "Provided chunk data does not match the ChunkId")) ∧
    quiet s s' ∧ held s' = held s) s.
Proof.
  intros Hd Hne. unfold Put. apply wp_bind, wp_lift. rewrite Hd, bool_decide_false by done. cbn [negb].
  apply wp_bind, wp_log. intros r Hr. apply wp_ret. split_and!; [done|by apply quiet_rt|done].
Qed.

(** The outcome of [Put] on data that match the identifier. *)
Definition match_post (id : ChunkId.t) (data : list byte) s
  (o : outcome (Result unit ChunkStoreErrorDetail)) s' : Prop :=
  match o with
  | Done r => held s' = held s ∧
      ((r = Ok tt ∧ is_Some (tree s !! final_of id) ∧ quiet s s') ∨
       ((tree s !! final_of id = None ∨ stat_fault SysExists) ∧ put_post s (tmp_of id s) (final_of id) data o s'))
  | Crashed => grown (final_of id) s s' ∧
      (delete (tmp_of id s) (tree s') = delete (tmp_of id s) (tree s) ∨
       tree s' = published s (tmp_of id s) (final_of id) data)
  | Blocks => relock = RelockBlocks ∧ quiet s s'
  | Throws e => relock_failure e ∧ quiet s s' ∧ held s' = held s
  end.

(** The lock guard of [Put] is left after the write path has run from [s2]. *)
Lemma match_post_of_put (id : ChunkId.t) (data : list byte) z s s2 o s3 :
  quiet s s2 → held s2 = z :: held s →
  (tree s !! final_of id = None ∨ stat_fault SysExists) →
  put_post s2 (tmp_of id s2) (final_of id) data o s3 →
  match o with
  | Done _ | Throws _ => match_post id data s o (set_held (release_one z (held s3)) s3)
  | _ => match_post id data s o s3
  end.
Proof.
  intros (Hc & Hi & Hu & Hf & Hfd & Hn & Hcc & Hbu) Hheld Habs (Hth & Hdir & Ho).
  assert (tmp_of id s2 = tmp_of id s) as Htmp by (unfold tmp_of; by rewrite Hu). rewrite Htmp in *.
  assert (tree s2 = tree s) as Htree by (unfold tree; by rewrite Hf).
  assert (published s2 (tmp_of id s) (final_of id) data = published s (tmp_of id s) (final_of id) data) as Hpub
    by (apply published_eq; by rewrite Htree).
  destruct o as [r| | |]; try done; cbn [match_post].
  - assert (held s3 = z :: held s) as Hh3 by (destruct Hth as (_ & _ & ->); done).
    assert (release_one z (held s3) = held s) as Hrel by (rewrite Hh3; apply release_one_head).
    split; [done|]. right. split; [done|].
    split; [unfold same_thread in *; cbn; rewrite Hrel; intuition congruence|].
    split; [unfold grown, dirset in *; cbn; by rewrite Hf in Hdir|].
    unfold same_counters, added_counters in *. rewrite Htree, Hpub, Hfd, Hcc, Hbu in Ho. exact Ho.
  - split; [unfold grown, dirset in *; cbn; by rewrite Hf in Hdir|]. rewrite Htree, Hpub in Ho. exact Ho.
Qed.

Lemma put_match_effect (id : ChunkId.t) (data : list byte) s :
  ChunkId.valid id → layout root (fs (os s)) → fds_ok s → LockFor id ∉ held s →
  digest_matches id data →
  wp (Put root id data) (match_post id data s) s.
Proof.
  intros Hv Hlay Hok Hheld Hd. unfold Put. apply wp_bind, wp_lift.
  rewrite Hd, bool_decide_true by done. cbn [negb].
  apply wp_lock_guard; [done|done|]. intros _. apply wp_bind. set (s1 := set_held _ s).
  eapply wp_mono; [by apply exists_effect|].
  intros o s2 (Hq & Ho). assert (quiet s s2) as Hq' by exact Hq.
  destruct o as [b|e| |].
  - destruct Ho as [Hh Hb]. destruct b.
    + apply wp_bind, wp_log. intros r Hr. apply wp_ret. cbn [match_post].
      split; [change (release_one (LockFor id) (held s2) = held s); rewrite Hh; apply release_one_head|]. left.
      split_and!; [done| |by apply (quiet_rt s s2)].
      destruct Hb as [Hb|[? _]]; [|done]. symmetry in Hb. by apply bool_decide_eq_true_1 in Hb.
    + eapply wp_mono; [apply new_effect; [done|by destruct Hq' as (_ & _ & _ & -> & _)|by eapply quiet_fds_ok]|].
      intros o s3 Hput. eapply match_post_of_put; [done|done| |done].
      destruct Hb as [Hb|[_ Hb]]; [|by right]. left.
      apply eq_None_not_Some. symmetry in Hb. by apply bool_decide_eq_false_1 in Hb.
  - destruct Ho as (_ & Hre & Hh). cbn [match_post]. split; [done|]. split; [done|].
    change (release_one (LockFor id) (held s2) = held s). rewrite Hh. apply release_one_head.
  - by destruct Ho.
  - destruct Hq' as (_ & _ & _ & Hf & _). unfold match_post, grown, dirset, tree. rewrite Hf. split; by left.
Qed.

(** ** [Get] and [VerifyOnly] *)

Definition get_post (id : ChunkId.t) s (o : outcome (Result (list byte) ChunkStoreErrorDetail)) s' : Prop :=
  match o with
  | Done r => quiet s s' ∧ held s' = held s ∧
      match r with
      | Ok data => (∃ f, tree s !! final_of id = Some f ∧ content f = data) ∧ digest_matches id data
      | Err e =>
          (kind e = NotFound ∧ (tree s !! final_of id = None ∨ stat_fault SysFileSize)) ∨
          (kind e = CorruptionDetected ∧ ∃ f, tree s !! final_of id = Some f ∧ ¬ digest_matches id (content f)) ∨
          (kind e = IoError ∧ is_Some (tree s !! final_of id) ∧ io_fault)
      end
  | Crashed => fs (os s') = fs (os s)
  | _ => False
  end.

(** Reading an existing file of [file_size] bytes through the descriptor
    [fd] and checking it. *)
Lemma get_read_effect `{!EvpLaws} (id : ChunkId.t) (f : file) (fd : nat) s :
  tree s !! final_of id = Some f → fds (os s) !! fd = Some (final_of id) →
  wp (Get_read id (length (content f)) fd) (λ o s',
    quiet s s' ∧ held s' = held s ∧
    match o with
    | Done (Ok data) => data = content f ∧ digest_matches id data
    | Done (Err e) => (kind e = CorruptionDetected ∧ ¬ digest_matches id (content f)) ∨ (kind e = IoError ∧ io_fault)
    | Crashed => True
    | _ => False
    end) s.
Proof.
  intros Hf Hfd. unfold Get_read. apply wp_bind.
  eapply (wp_mono _ (λ o s', quiet s s' ∧ held s' = held s ∧
    match o with
    | Done (Some data) => data = content f ∨ (length data ≠ length (content f) ∧ io_fault)
    | Done None => io_fault
    | Crashed => True
    | _ => False
    end)).
  { destruct (Nat.ltb_spec 0 (length (content f))) as [?|Hz].
    - eapply wp_read; [done|done|..].
      + intros _. by split_and!.
      + intros k Hk. split_and!; [done|done|].
        destruct (decide (length (content f) ≤ k)) as [?|Hlt]; [left; by apply take_ge|].
        right. destruct Hk as [->|(j & Hj & ->)]; [lia|]. split.
        * rewrite length_take. lia.
        * eexists _, SysRead. by rewrite Hj.
      + intros Hfl. split_and!; [done|done|]. by eapply failed_fault.
    - apply wp_ret. split_and!; [done|done|]. left. destruct (content f); [done|]. cbn in Hz. lia. }
  intros o s1 (Hq & Hh & Ho). destruct o as [[data|]| | |]; try done.
  - destruct (Nat.eqb_spec (length data) (length (content f))) as [Hl|Hl]; cbn [negb].
    + assert (data = content f) as -> by (destruct Ho as [?|[? _]]; done).
      apply wp_bind, wp_lift. destruct (HashBytes_done (content f)) as (d & Hd & _). rewrite Hd.
      case_bool_decide as Hdig; cbn [negb]; apply wp_bind, wp_log; intros r Hr; apply wp_ret.
      * split; [by eapply quiet_rt|]. split; [done|]. split; [done|].
        unfold digest_matches. by rewrite Hd, Hdig.
      * split; [by eapply quiet_rt|]. split; [done|]. left. split; [done|].
        unfold digest_matches. rewrite Hd. congruence.
    + apply wp_ret. split_and!; try done. right. split; [done|]. destruct Ho as [->|[_ ?]]; done.
  - apply wp_ret. split_and!; try done. by right.
Qed.

Lemma get_effect `{!EvpLaws} (id : ChunkId.t) s :
  ChunkId.valid id → layout root (fs (os s)) → fds_ok s → LockFor id ∉ held s →
  wp (Get root id) (get_post id s) s.
Proof.
  intros Hv Hlay Hok Hheld. unfold Get. apply wp_lock_guard; [done|done|]. intros _.
  apply wp_bind, wp_lift. rewrite FinalPathFor_eq by done.
  change (final_path root (ChunkId.ToHexString id)) with (final_of id).
  set (s1 := set_held _ s). assert (∀ l, release_one (LockFor id) (LockFor id :: l) = l) as Hrel
    by (intros l; apply release_one_head).
  apply wp_bind, wp_file_size.
  - done.
  - intros f Hf. apply wp_bind, wp_open_read; [set_solver..| | |].
    + done.
    + intros _. set (s2 := with_fd _ _ _). apply wp_scoped.
      assert (tree s2 !! final_of id = Some f) as Hf2 by exact Hf.
      assert (fds (os s2) !! next_fd (os (tick s1)) = Some (final_of id)) as Hfd2 by apply lookup_insert_eq.
      assert (∀ s3, quiet s2 s3 → held s3 = held s2 →
        (let s4 := set_os (set_fds (delete (next_fd (os (tick s1))) (fds (os s3))) (step_time (os s3))) s3 in
         quiet s (set_held (release_one (LockFor id) (held s4)) s4) ∧
         release_one (LockFor id) (held s4) = held s)) as Hclose.
      { intros s3 (Hc & Hi & Hu & Htr & Hfds & Hn & Hcc & Hbu) Hh. cbn zeta.
        change (release_one (LockFor id) (held (set_os _ s3))) with (release_one (LockFor id) (held s3)).
        rewrite Hh. change (release_one (LockFor id) (held s2)) with (release_one (LockFor id) (LockFor id :: held s)).
        rewrite Hrel. split; [|done]. unfold quiet. cbn in *. split_and!; try done; [|lia].
        rewrite Hfds. apply delete_insert_id. by apply Hok. }
      eapply wp_mono; [by apply (get_read_effect id f)|]. intros o s3 (Hq & Hh & Ho).
      destruct (Hclose s3 Hq Hh) as [Hq4 Hh4].
      assert (fs (os s3) = fs (os s)) as Hfs3 by (by destruct Hq as (_ & _ & _ & ? & _)).
      destruct o as [r| | |]; try done.
      apply wp_bind, wp_close; [done|]. apply wp_ret. split; [done|]. split; [done|].
      destruct r as [data|e].
      * destruct Ho as [-> ?]. split; [by exists f|done].
      * right. destruct Ho as [[? ?]|[? ?]]; [left; by eauto|right; split_and!; try done; by exists f].
    + intros Hbad. apply wp_ret. split; [done|]. split; [apply Hrel|].
      right. right. split; [done|]. split; [by exists f|].
      destruct Hbad as [Hbad|?]; [|by eapply failed_fault]. change (files (fs (os s1)) !! final_of id = None) in Hbad. congruence.
  - intros msg Hbad. apply wp_ret. split; [done|]. split; [apply Hrel|].
    left. split; [done|]. destruct Hbad as [?|?]; [by left|right; by eapply failed_stat].
Qed.

Lemma verify_effect `{!EvpLaws} (id : ChunkId.t) s :
  ChunkId.valid id → layout root (fs (os s)) → fds_ok s → LockFor id ∉ held s →
  wp (VerifyOnly root id) (λ o s',
    match o with
    | Done r => ∃ r', get_post id s (Done r') s' ∧ r = forget r'
    | Crashed => fs (os s') = fs (os s)
    | _ => False
    end) s.
Proof.
  intros Hv Hlay Hok Hheld. unfold VerifyOnly. apply wp_bind.
  eapply wp_mono; [by apply get_effect|]. intros [r| | |] s' Hget; try done.
  apply wp_ret. exists r. split; [done|]. by destruct r.
Qed.

(** ** [Delete] *)

Definition delete_post (id : ChunkId.t) s (o : outcome (Result unit ChunkStoreErrorDetail)) s' : Prop :=
  match o with
  | Done (Ok _) => held s' = held s ∧
      ((quiet s s' ∧ (tree s !! final_of id = None ∨ stat_fault SysFileSize)) ∨
       (∃ f, tree s !! final_of id = Some f ∧ same_thread s s' ∧ dirset s' = dirset s ∧
          tree s' = delete (final_of id) (tree s) ∧ fds (os s') = fds (os s) ∧ fds_ok s' ∧
          chunk_count_ s' = wrap64 (chunk_count_ s - 1) ∧
          bytes_used_ s' = wrap64 (bytes_used_ s - Z.of_nat (length (content f)))))
  | Done (Err e) => held s' = held s ∧ quiet s s' ∧ kind e = IoError ∧ is_Some (tree s !! final_of id) ∧ io_fault
  | Crashed => fs (os s') = fs (os s)
  | _ => False
  end.

Lemma delete_effect (id : ChunkId.t) s :
  ChunkId.valid id → layout root (fs (os s)) → fds_ok s → LockFor id ∉ held s →
  wp (Delete root id) (delete_post id s) s.
Proof.
  intros Hv Hlay Hok Hheld. unfold Delete. apply wp_lock_guard; [done|done|]. intros _.
  apply wp_bind, wp_lift. rewrite FinalPathFor_eq by done.
  change (final_path root (ChunkId.ToHexString id)) with (final_of id).
  set (s1 := set_held _ s). assert (∀ l, release_one (LockFor id) (LockFor id :: l) = l) as Hrel
    by (intros l; apply release_one_head).
  apply wp_bind, wp_file_size.
  - done.
  - intros f Hf. apply wp_bind, wp_remove.
    + by apply (layout_final_dir root (fs (os s))).
    + done.
    + intros f' Hf'. apply wp_bind, wp_modify. apply wp_bind, wp_log. intros r Hr. apply wp_ret.
      split; [apply Hrel|]. right. exists f. split; [exact Hf|].
      split; [unfold same_thread; split_and!; [apply Hr|apply Hr|apply Hrel]|]. split_and!; try done.
    + intros Hn. change (files (fs (os (tick s1)))) with (files (fs (os s1))) in Hn. congruence.
    + intros msg Hfl. apply wp_ret. split; [apply Hrel|]. split; [done|]. split; [done|].
      split; [by exists f|by eapply failed_fault].
  - intros msg Hbad. apply wp_ret. split; [apply Hrel|]. left. split; [done|].
    destruct Hbad as [?|?]; [by left|right; by eapply failed_stat].
Qed.

End Effects.
