(* ===== verification/DiskTheorems.v ===== *)
(** * Invariants of the store on disk

    The well-formedness of the store between two operations ([healthy]) and
    the abstract store it stands for ([view]), and how publishing, deleting
    and leaving files behind act on both: what the refinement, the crash
    theorems and the counters share. *)

From S2P Require Import Prelude Result Cxx Sha256 ChunkId Logger IChunkStore Posix LocalDisk DiskRules DiskLayout DiskEffects.
Import LocalDisk.

Section Theorems.
Context `{Evp, Platform, UuidSource, !EvpLaws, !UuidLaws}.
Variable root : path.
Implicit Types s : Disk.

(** ** Invariants of the tree *)

(** Every file the store counts or lists is the final file of a chunk. *)
Definition placed (m : gmap path file) : Prop :=
  ∀ p x, counted root p → m !! p = Some x → ∃ id, ChunkId.valid id ∧ p = final_of root id.

(** The store's own state between two operations. *)
Record healthy s : Prop := {
  healthy_layout : layout root (fs (os s));
  healthy_fds : fds_ok s;
  healthy_held : held s = [];
  healthy_placed : placed (tree s)
}.

Definition view s : store := view_of root (fs (os s)).

Lemma healthy_not_held s id : healthy s → LockFor id ∉ held s.
Proof. intros [_ _ -> _]. set_solver. Qed.

Lemma hex_length id : ChunkId.valid id → String.length (hex_of id) = 64.
Proof. intros Hv. by apply ChunkId.valid_hex_length. Qed.

Lemma counted_final id : ChunkId.valid id → counted root (final_of root id).
Proof.
  intros Hv. split; [apply root_final|]. apply is_chunk_final.
  intros Hn. pose proof (hex_length id Hv) as Hl. unfold hex_of in Hl, Hn.
  apply (f_equal String.length) in Hn. by rewrite Hl in Hn.
Qed.

Lemma not_counted_tmp id s : ¬ counted root (tmp_of root id s).
Proof. intros [_ Hc]. unfold tmp_of in Hc. by rewrite is_chunk_tmp in Hc. Qed.

Lemma tmp_not_final id id' s :
  ChunkId.valid id → ChunkId.valid id' → tmp_of root id s ≠ final_of root id'.
Proof. intros Hv Hv'. apply tmp_path_not_final. by rewrite !hex_length. Qed.

Lemma final_of_inj id id' :
  ChunkId.valid id → ChunkId.valid id' → final_of root id = final_of root id' → id = id'.
Proof. intros Hv Hv' Heq%final_path_inj. by apply ChunkId.valid_hex_inj. Qed.

(** ** Quiet steps keep everything *)

Lemma quiet_tree s s' : quiet s s' → tree s' = tree s.
Proof. intros (_ & _ & _ & Hf & _). unfold tree. by rewrite Hf. Qed.

Lemma quiet_view s s' : quiet s s' → view s' = view s.
Proof. intros (_ & _ & _ & Hf & _). unfold view. by rewrite Hf. Qed.

Lemma quiet_caller s s' : quiet s s' → same_caller s s'.
Proof. intros (? & ? & _). done. Qed.

Lemma quiet_healthy s s' : quiet s s' → held s' = held s → healthy s → healthy s'.
Proof.
  intros Hq Hh [Hl Hf Hhe Hp]. split.
  - destruct Hq as (_ & _ & _ & -> & _). done.
  - by eapply quiet_fds_ok.
  - congruence.
  - by rewrite (quiet_tree _ _ Hq).
Qed.

(** ** The write path *)

Lemma published_lookup id data s p :
  published s (tmp_of root id s) (final_of root id) data !! p =
    if decide (p = final_of root id) then Some (File data true)
    else if decide (p = tmp_of root id s) then None else tree s !! p.
Proof.
  unfold published. rewrite lookup_insert. destruct (decide (p = final_of root id)) as [->|Hne].
  - by rewrite decide_True.
  - rewrite decide_False by congruence. rewrite lookup_delete.
    destruct (decide (p = tmp_of root id s)) as [->|]; [by rewrite decide_True|by rewrite decide_False by congruence].
Qed.

(** What a [Put] may have done to the tree and the directories, when it is
    left or cut short. *)
Definition put_trees (id : ChunkId.t) (data : list byte) s (m' : gmap path file) : Prop :=
  delete (tmp_of root id s) m' = delete (tmp_of root id s) (tree s) ∨
  m' = published s (tmp_of root id s) (final_of root id) data.

Lemma layout_grown id s s' :
  layout root (fs (os s)) → grown (final_of root id) s s' → layout root (MkFs (tree s) (dirset s')).
Proof.
  intros Hlay [->| ->].
  - unfold tree, dirset. by destruct (fs (os s)).
  - unfold final_of. rewrite parent_final. by apply layout_mkdir.
Qed.

Lemma layout_put id data s s' :
  layout root (fs (os s)) → grown (final_of root id) s s' → put_trees id data s (tree s') →
  layout root (fs (os s')).
Proof.
  intros Hlay Hgr Hm. pose proof (layout_grown id s s' Hlay Hgr) as Hlay'.
  assert (fs (os s') = MkFs (tree s') (dirset s')) as -> by (unfold tree, dirset; by destruct (fs (os s'))).
  apply (layout_files_change root _ _ Hlay'). cbn. intros p Hp.
  destruct (decide (p = tmp_of root id s)) as [->|Hnt].
  { right. split; [apply root_tmp|apply length_tmp]. }
  destruct Hm as [Hm|Hm].
  - left. by rewrite (delete_lookup_same _ _ _ _ Hm) in Hp.
  - rewrite Hm, published_lookup in Hp. destruct (decide (p = final_of root id)) as [->|].
    + right. split; [apply root_final|apply length_final].
    + rewrite decide_False in Hp by done. by left.
Qed.

Lemma placed_put id data s m' :
  ChunkId.valid id → placed (tree s) →
  put_trees id data s m' →
  placed m'.
Proof.
  intros Hv Hpl Hm p x Hc Hp.
  assert (p ≠ tmp_of root id s) as Hnt by (intros ->; by apply (not_counted_tmp id s)).
  destruct Hm as [Hm| ->].
  - rewrite (delete_lookup_same _ _ _ _ Hm) in Hp by done. by eapply Hpl.
  - rewrite published_lookup in Hp. destruct (decide (p = final_of root id)) as [->|]; [by exists id|].
    rewrite decide_False in Hp by done. by eapply Hpl.
Qed.

(** Chunks other than the one being written are untouched. *)
Lemma put_other id id' data s m' :
  ChunkId.valid id → ChunkId.valid id' → id' ≠ id →
  put_trees id data s m' →
  m' !! final_of root id' = tree s !! final_of root id'.
Proof.
  intros Hv Hv' Hne [Hm| ->].
  - eapply delete_lookup_same; [done|]. by apply tmp_not_final.
  - rewrite published_lookup, decide_False, decide_False; [done| |].
    + intros Heq. by apply (tmp_not_final id id' s).
    + intros Heq. by apply Hne, final_of_inj.
Qed.

(** The abstract store after a [Put]: as before, or with the chunk. *)
Lemma view_put_kept id s s' :
  ChunkId.valid id → delete (tmp_of root id s) (tree s') = delete (tmp_of root id s) (tree s) →
  view s' = view s.
Proof.
  intros Hv Hm. apply view_ext. intros h Hh. eapply delete_lookup_same; [exact Hm|].
  apply tmp_path_not_final. by rewrite hex_length, (is_hex_id_length h).
Qed.

Lemma view_put_published id data s s' :
  ChunkId.valid id → tree s' = published s (tmp_of root id s) (final_of root id) data →
  view s' = <[ChunkId.ToHexString id := data]> (view s).
Proof.
  intros Hv Hm. change data with (content (File data true)) at 1. apply view_insert.
  - by apply valid_is_hex_id.
  - change (tree s' !! final_of root id = Some (File data true)).
    by rewrite Hm, published_lookup, decide_True.
  - intros h Hh Hne. change (tree s' !! final_path root h = tree s !! final_path root h).
    rewrite Hm, published_lookup, decide_False, decide_False; [done| |].
    + intros Heq. symmetry in Heq. revert Heq. apply tmp_path_not_final.
      by rewrite hex_length, (is_hex_id_length h).
    + by intros Heq%final_path_inj.
Qed.

(** ** The store is healthy after every operation *)

Lemma put_healthy id data s s' :
  ChunkId.valid id → healthy s → grown (final_of root id) s s' → put_trees id data s (tree s') →
  fds_ok s' → held s' = held s → healthy s'.
Proof.
  intros Hv [Hl Hf Hh Hp] Hgr Hm Hf' Hh'. split; [|done|congruence|].
  - by eapply layout_put.
  - by eapply placed_put.
Qed.

Lemma delete_healthy id s s' :
  healthy s → dirset s' = dirset s → tree s' = delete (final_of root id) (tree s) →
  fds_ok s' → held s' = held s → healthy s'.
Proof.
  intros [Hl Hf Hh Hp] Hdir Hm Hf' Hh'. split; [|done|congruence|].
  - assert (fs (os s') = MkFs (tree s') (dirset s)) as -> by (rewrite <- Hdir; unfold tree, dirset; by destruct (fs (os s'))).
    apply layout_files_change; [done|]. intros p Hne. left. rewrite Hm, lookup_delete in Hne.
    by case_decide.
  - intros p x Hc Hx. rewrite Hm, lookup_delete in Hx. case_decide; [done|]. by eapply Hp.
Qed.

Lemma view_deleted id s s' :
  ChunkId.valid id → tree s' = delete (final_of root id) (tree s) →
  view s' = delete (ChunkId.ToHexString id) (view s).
Proof.
  intros Hv Hm. apply view_delete.
  - change (tree s' !! final_of root id = None). rewrite Hm. apply lookup_delete_eq.
  - intros h Hh Hne. change (tree s' !! final_path root h = tree s !! final_path root h).
    rewrite Hm. apply lookup_delete_ne. unfold final_of, hex_of. by intros Heq%final_path_inj.
Qed.

Lemma view_at id s : ChunkId.valid id →
  view s !! ChunkId.ToHexString id = content <$> tree s !! final_of root id.
Proof. apply view_lookup_valid. Qed.

Lemma view_at_some id s : ChunkId.valid id →
  is_Some (view s !! ChunkId.ToHexString id) ↔ is_Some (tree s !! final_of root id).
Proof. intros Hv. rewrite view_at by done. by rewrite fmap_is_Some. Qed.

End Theorems.

(** ** Identifiers and what is computed from them *)

(** C23: Every [ChunkId] the code can make, by parsing a string or from the
    digest of some bytes, keeps the class invariant (32 bytes and their
    64 lower-case digits); for such an identifier the path functions return
    (no [substr] throws) the file [<root>/ab/cd/<hex>.chunk], which the store
    recognises as a chunk and reads back as this identifier, and the stripe
    is an index of the array of locks. *)
Theorem chunk_ids_well_formed `{Evp, !EvpLaws} (root : path) (id : ChunkId.t) :
  (∃ s, ChunkId.Parse s = Ok id) ∨ (∃ data digest, HashBytes data = Done digest ∧ id = ChunkId.FromDigest digest) →
  let h := ChunkId.ToHexString id in
  let shard := root ++ [String.substring 0 2 h; String.substring 2 2 h] in
  let final := shard ++ [h +:+ ".chunk"] in
  ChunkId.valid id ∧ ShardDirFor root id = Done shard ∧ FinalPathFor root id = Done final ∧
  is_chunk final = true ∧ ChunkId.Parse (stem (file_name final)) = Ok id ∧ (0 ≤ LockFor id < kLockStripeCount)%Z.
Proof.
  intros Hid h shard final.
  assert (ChunkId.valid id) as Hv.
  { destruct Hid as [[s Hs]|(data & d & Hd & ->)]; [by apply ChunkId.Parse_ok in Hs as [? _]|].
    apply ChunkId.FromDigest_valid. destruct (HashBytes_done data) as (d' & Hd' & Hl). congruence. }
  assert (h ≠ "") as Hne.
  { intros Hh. pose proof (ChunkId.valid_hex_length id Hv) as Hl. unfold h, ChunkId.ToHexString in Hh. by rewrite Hh in Hl. }
  split; [done|]. split; [by apply ShardDirFor_eq|]. split; [by apply FinalPathFor_eq|].
  split; [exact (is_chunk_final root h Hne)|]. split.
  - change (ChunkId.Parse (stem_extension (file_name (final_path root h))).1 = Ok id).
    rewrite stem_final by done. by apply ChunkId.Parse_ok.
  - unfold LockFor, kLockStripeCount. apply Z.mod_pos_bound. lia.
Qed.

Lemma chunk_ids_well_formed_witness :
  let id := ChunkId.FromDigest (toy_digest []) in
  @FinalPathFor ["data"] id = Done (["data"; "00"; "00"] ++ [ChunkId.ToHexString id +:+ ".chunk"]) ∧
  (0 ≤ LockFor id < 256)%Z.
Proof.
  intros id.
  destruct (@chunk_ids_well_formed toy_evp toy_evp_laws ["data"] id) as (_ & _ & Hf & _ & _ & Hl).
  - right. exists [], (toy_digest []). split; [by vm_compute|done].
  - split; [|exact Hl]. rewrite Hf. by vm_compute.
Defined.
