(* ===== verification/DiskContract.v ===== *)
(** * The store on disk implements the chunk store's contract

    [LocalDisk] refines [IChunkStore.ChunkStoreContract] when the machine does
    not crash, the two status queries [exists] and [file_size] are reliable
    and a mutex may be locked again by its owner: everything else (open,
    read, write, fsync, rename, remove, mkdir) may fail at any call, and short
    transfers may happen. [DiskSafety] shows what each assumption prevents. *)

From S2P Require Import Prelude Result Cxx Sha256 ChunkId Logger IChunkStore Posix LocalDisk DiskRules DiskLayout DiskEffects DiskTheorems.
Import LocalDisk.

Section Contract.
Context `{Evp, Platform, UuidSource, !EvpLaws, !UuidLaws}.
Variable root : path.
Implicit Types s : Disk.

(** ** Listing *)

Definition list_entry (pf : path * file) : option ChunkId.t :=
  if is_chunk pf.1 then
    match ChunkId.Parse (stem (file_name pf.1)) with Ok id => Some id | Err _ => None end
  else None.

Lemma ListLoop_omap entries result : ListLoop entries result = result ++ omap list_entry entries.
Proof.
  revert result. induction entries as [|[p x] l IH]; intros result; cbn; [by rewrite app_nil_r|].
  rewrite IH. unfold list_entry at 2. cbn. destruct (is_chunk p); [|done].
  destruct (ChunkId.Parse _); [|done]. by rewrite <- app_assoc.
Qed.

Lemma list_entry_final id x : ChunkId.valid id → list_entry (final_of root id, x) = Some id.
Proof.
  intros Hv. unfold list_entry. cbn. destruct (counted_final root id Hv) as [_ ->].
  unfold stem, final_of. rewrite stem_final; cbn.
  - assert (ChunkId.Parse (hex_of id) = Ok id) as ->; [|done]. by apply ChunkId.Parse_ok.
  - intros Hn. pose proof (hex_length id Hv) as Hl. by rewrite Hn in Hl.
Qed.

Lemma list_entry_placed m p x :
  placed root m → root `prefix_of` p → m !! p = Some x →
  ∀ id, list_entry (p, x) = Some id → ChunkId.valid id ∧ p = final_of root id.
Proof.
  intros Hpl Hr Hx id Hid.
  assert (is_chunk p = true) as Hc by (unfold list_entry in Hid; cbn in Hid; by destruct (is_chunk p)).
  destruct (Hpl p x) as (id' & Hv & ->); [done|done|].
  rewrite list_entry_final in Hid by done. by injection Hid as <-.
Qed.

Lemma list_exact s :
  healthy root s →
  NoDup (ListLoop (below root (fs (os s))) []) ∧
  ∀ id, id ∈ ListLoop (below root (fs (os s))) [] ↔
    ChunkId.valid id ∧ is_Some (view root s !! ChunkId.ToHexString id).
Proof.
  intros Hs. pose proof (healthy_placed _ _ Hs) as Hpl. rewrite ListLoop_omap. cbn.
  assert (∀ p x, (p, x) ∈ below root (fs (os s)) ↔ root `prefix_of` p ∧ tree s !! p = Some x) as Hbelow.
  { intros p x. unfold below. by rewrite list_elem_of_filter, elem_of_map_to_list. }
  assert (NoDup (below root (fs (os s)))) as Hnd by apply NoDup_filter, NoDup_map_to_list.
  split.
  - revert Hnd Hbelow. generalize (below root (fs (os s))) as l. intros l Hnd Hbelow.
    assert (∀ p x, (p, x) ∈ l → root `prefix_of` p ∧ tree s !! p = Some x) as Hl by (intros; by apply Hbelow).
    clear Hbelow. induction l as [|[p x] l IH]; cbn; [constructor|].
    apply NoDup_cons in Hnd as [Hnin Hnd].
    assert (NoDup (omap list_entry l)) as Hrest by (apply IH; [done|intros; apply Hl; by right]).
    destruct (list_entry (p, x)) as [id|] eqn:E; [|done]. apply NoDup_cons. split; [|done].
    intros ([p' x'] & Hin & E')%list_elem_of_omap.
    destruct (Hl p x ltac:(by left)) as [Hr Hx]. destruct (Hl p' x' ltac:(by right)) as [Hr' Hx'].
    destruct (list_entry_placed _ _ _ Hpl Hr Hx _ E) as [_ ->].
    destruct (list_entry_placed _ _ _ Hpl Hr' Hx' _ E') as [_ ->].
    apply Hnin. congruence.
  - intros id. rewrite list_elem_of_omap. split.
    + intros ([p x] & [Hr Hx]%Hbelow & E). destruct (list_entry_placed _ _ _ Hpl Hr Hx _ E) as [Hv ->].
      split; [done|]. apply view_at_some; [done|]. by exists x.
    + intros [Hv [x Hx]%view_at_some]; [|done]. exists (final_of root id, x). rewrite Hbelow.
      split; [|by apply list_entry_final]. split; [apply root_final|done].
Qed.

(** ** The operations against their specifications *)

(** The assumptions on the system. *)
Record reliable : Prop := {
  no_crash n c : sys_event n c ≠ EvCrash;
  no_exists_fault : ¬ stat_fault SysExists;
  no_size_fault : ¬ stat_fault SysFileSize;
  reenters : relock = RelockReenters
}.

Hypothesis Hrel : reliable.

Lemma run_wp {A} (m : M Disk A) (Q : outcome A → Disk → Prop) s :
  wp m Q s → crash_free m → ∃ o s', m s = (o, s') ∧ o ≠ Crashed ∧ Q o s'.
Proof. intros Hw Hc. specialize (Hc s). unfold wp in Hw. destruct (m s) as [o s']. by exists o, s'. Qed.

Lemma syscall_crash_free c : crash_free (syscall c).
Proof. intros o. unfold syscall. pose proof (no_crash Hrel (now o) c). by destruct (sys_event _ _). Qed.
#[local] Hint Resolve syscall_crash_free : crash_free.

Lemma state_crash_free {A} (f : Os → outcome A * Os) :
  (∀ o, ∃ a, (f o).1 = Done a) → crash_free (state f).
Proof. intros Hf. apply crash_free_state. intros o. destruct (Hf o) as [a ->]. done. Qed.

(** A state block of a call: every branch returns. *)
Ltac returns := intros ?; cbn; repeat case_match; cbn; by eexists.

Lemma open_crash_free p flags : crash_free (internal_open p flags).
Proof. unfold internal_open. crash_free; apply state_crash_free; returns. Qed.

Lemma write_crash_free fd data : crash_free (sys_write fd data).
Proof. unfold sys_write. crash_free; apply state_crash_free; returns. Qed.

Lemma fsync_crash_free fd : crash_free (internal_fsync fd).
Proof. unfold internal_fsync. crash_free; apply state_crash_free; returns. Qed.

Lemma mkdir_crash_free p : crash_free (fs_create_directories p).
Proof. unfold fs_create_directories. crash_free; apply state_crash_free; returns. Qed.

Lemma rename_crash_free p q : crash_free (fs_rename p q).
Proof. unfold fs_rename. crash_free; apply state_crash_free; returns. Qed.

Lemma remove_crash_free p : crash_free (fs_remove p).
Proof. unfold fs_remove. crash_free; apply state_crash_free; returns. Qed.
#[local] Hint Resolve open_crash_free write_crash_free fsync_crash_free mkdir_crash_free
  rename_crash_free remove_crash_free : crash_free.

Lemma lock_crash_free z : crash_free (lock z).
Proof. intros s. unfold lock, state. by repeat case_match. Qed.

Lemma log_crash_free lvl m fields : crash_free (log lvl m fields).
Proof. intros r. unfold log. by repeat case_match. Qed.
#[local] Hint Resolve lock_crash_free log_crash_free : crash_free.

Lemma hash_crash_free {S} data : crash_free (S:=S) (lift (HashBytes data)).
Proof. apply crash_free_lift. by destruct (HashBytes_done data) as (d & -> & _). Qed.

Lemma shard_crash_free {S} id : crash_free (S:=S) (lift (ShardDirFor root id)).
Proof. apply crash_free_lift. unfold ShardDirFor, substr. by repeat (case_match; cbn). Qed.

Lemma final_crash_free {S} id : crash_free (S:=S) (lift (FinalPathFor root id)).
Proof.
  apply crash_free_lift. unfold FinalPathFor, ShardDirFor, substr. by repeat (case_match; cbn).
Qed.
#[local] Hint Resolve hash_crash_free shard_crash_free final_crash_free : crash_free.

Lemma sys_crash_free {A} (m : M Os A) : crash_free m → crash_free (sys m).
Proof. apply crash_free_zoom. Qed.

Lemma close_crash_free fd : crash_free (sys_close fd).
Proof. unfold sys_close. crash_free. Qed.

Lemma destroy_crash_free fd : crash_free (ScopedFd_destroy fd).
Proof. unfold ScopedFd_destroy. pose proof close_crash_free. crash_free. Qed.

Lemma lock_guard_crash_free {A} z (body : M Disk A) : crash_free body → crash_free (lock_guard z body).
Proof. intros Hb. unfold lock_guard, unlock. crash_free. Qed.

Lemma debug_crash_free m : crash_free (S:=Disk) (Debug m).
Proof. unfold Debug, on_runtime. crash_free. Qed.

Lemma warn_crash_free m : crash_free (S:=Disk) (Warn m).
Proof. unfold Warn, on_runtime. crash_free. Qed.

Lemma error_crash_free m : crash_free (S:=Disk) (LogError m).
Proof. unfold LogError, on_runtime. crash_free. Qed.

Lemma uuid_crash_free : crash_free (S:=Disk) GenerateUuidV4.
Proof. by intros s. Qed.

Lemma exists_call_crash_free p : crash_free (fs_exists p).
Proof. unfold fs_exists. crash_free. Qed.

Lemma size_crash_free p : crash_free (fs_file_size p).
Proof. unfold fs_file_size. crash_free. Qed.

Lemma read_crash_free fd n : crash_free (sys_read fd n).
Proof. unfold sys_read. crash_free. Qed.

Lemma iterate_crash_free p : crash_free (fs_iterate p).
Proof. unfold fs_iterate. crash_free. Qed.
#[local] Hint Resolve sys_crash_free close_crash_free destroy_crash_free lock_guard_crash_free
  debug_crash_free warn_crash_free error_crash_free uuid_crash_free exists_call_crash_free
  size_crash_free read_crash_free iterate_crash_free : crash_free.

Lemma exists_crash_free id : crash_free (Exists root id).
Proof. apply lock_guard_crash_free. crash_free. Qed.

Lemma publish_crash_free id data d t f : crash_free (Put_publish id data d t f).
Proof. unfold Put_publish, fetch_add_counters. crash_free. Qed.
#[local] Hint Resolve exists_crash_free publish_crash_free : crash_free.

Lemma file_crash_free id data d t f fd : crash_free (Put_file id data d t f fd).
Proof. unfold Put_file, ScopedFd_release. crash_free. Qed.
#[local] Hint Resolve file_crash_free : crash_free.

Lemma put_crash_free id data : crash_free (Put root id data).
Proof. unfold Put. crash_free. apply lock_guard_crash_free. unfold Put_new. crash_free. Qed.

Lemma get_crash_free id : crash_free (Get root id).
Proof. apply lock_guard_crash_free. unfold Get_read. crash_free. Qed.

Lemma delete_crash_free id : crash_free (Delete root id).
Proof. apply lock_guard_crash_free. unfold fetch_sub_counters. crash_free. Qed.

Lemma list_crash_free : crash_free (ListAllChunkIds root).
Proof. unfold ListAllChunkIds, exists_or_throw, iterate_or_throw. crash_free. Qed.

Lemma count_crash_free entries c b : crash_free (CountLoop entries c b).
Proof.
  revert c b. induction entries as [|[p x] l IH]; intros c b; cbn [CountLoop]; [crash_free|].
  destruct (is_chunk p); [|apply IH]. crash_free.
Qed.
#[local] Hint Resolve count_crash_free : crash_free.

Lemma ctor_crash_free : crash_free (LocalDiskChunkStore root).
Proof. unfold LocalDiskChunkStore, exists_or_throw, iterate_or_throw. crash_free. Qed.

Lemma put_match_contract id data s :
  healthy root s → ChunkId.valid id → digest_matches id data →
  ∃ r s', Put root id data s = (Done r, s') ∧ healthy root s' ∧ same_caller s s' ∧
    put_spec io_fault (view root s) id data r (view root s').
Proof.
  intros Hs Hv Hd. pose proof Hs as [Hlay Hfd Hheld Hpl].
  destruct (run_wp _ _ _ (put_match_effect root id data s Hv Hlay Hfd (healthy_not_held _ _ id Hs) Hd)
    (put_crash_free id data)) as (o & s' & -> & Hnc & Ho).
  pose proof (reenters Hrel) as Hre.
  destruct o as [r|e| |]; [|by destruct Ho as [[Hr _] _]; rewrite Hre in Hr
    |by destruct Ho as [Hr _]; rewrite Hre in Hr|done].
  exists r, s'. split; [done|].
  destruct Ho as [Hh' [(-> & Hex & Hq)|(Habs & (Hc & Hi & _) & Hgr & Ho)]].
  - split; [by eapply quiet_healthy|]. split; [by eapply quiet_caller|].
    split; [done|]. rewrite (quiet_view _ _ _ Hq). apply (view_at_some root id s Hv) in Hex as [x Hx]. by rewrite Hx.
  - assert (tree s !! final_of root id = None) as Hno by (destruct Habs as [?|[]%no_exists_fault]; done).
    destruct r as [[]|e].
    + destruct Ho as (Ht & _ & _ & Hok). split; [by apply (put_healthy root id data s s' Hv Hs Hgr); [right|..]|].
      split; [done|]. split; [done|]. rewrite view_at, Hno by done. by apply view_put_published.
    + destruct Ho as (Hk & Ht & _ & _ & Hok & Hfl). split; [by apply (put_healthy root id data s s' Hv Hs Hgr); [left|..]|].
      split; [done|]. split; [by apply (view_put_kept root id)|]. by right.
Qed.

Lemma put_contract id data s :
  healthy root s → ChunkId.valid id →
  ∃ r s', Put root id data s = (Done r, s') ∧ healthy root s' ∧ same_caller s s' ∧
    put_spec io_fault (view root s) id data r (view root s').
Proof.
  intros Hs Hv. destruct (HashBytes_done data) as (d & Hd & _).
  destruct (decide (d = ChunkId.RawDigest id)) as [->|Hne]; [by apply put_match_contract|].
  pose proof (put_mismatch_effect root id data d s Hd Hne) as Hw.
  unfold wp in Hw. destruct (Put root id data s) as [o s']. destruct Hw as (Ho & Hq & Hh'). cbn in *. subst o.
  eexists _, s'. split; [done|]. split; [by eapply quiet_healthy|]. split; [by eapply quiet_caller|].
  split; [by apply quiet_view|]. left. split; [done|]. unfold digest_matches. congruence.
Qed.

Lemma get_contract id s :
  healthy root s → ChunkId.valid id →
  ∃ r s', Get root id s = (Done r, s') ∧ healthy root s' ∧ same_caller s s' ∧ view root s' = view root s ∧
    get_spec io_fault (view root s) id r.
Proof.
  intros Hs Hv. pose proof Hs as [Hlay Hfd _ _].
  destruct (run_wp _ _ _ (get_effect root id s Hv Hlay Hfd (healthy_not_held _ _ id Hs))
    (get_crash_free id)) as (o & s' & -> & Hnc & Ho).
  destruct o as [r|e| |]; try done. destruct Ho as (Hq & Hh & Hr). exists r, s'.
  split; [done|]. split; [by eapply quiet_healthy|]. split; [by eapply quiet_caller|].
  split; [by apply quiet_view|]. unfold get_spec. rewrite view_at by done.
  destruct r as [data|e].
  - by destruct Hr as [(f & -> & <-) ?].
  - destruct Hr as [[? [->|Hbad]]|[(? & f & -> & ?)|(? & [f ->] & ?)]].
    + by left.
    + by apply (no_size_fault Hrel) in Hbad.
    + right. left. split; [done|]. by exists (content f).
    + right. right. split_and!; [done|by eexists|done].
Qed.

Lemma verify_contract id s :
  healthy root s → ChunkId.valid id →
  ∃ r s', VerifyOnly root id s = (Done r, s') ∧ healthy root s' ∧ same_caller s s' ∧ view root s' = view root s ∧
    verify_spec io_fault (view root s) id r.
Proof.
  intros Hs Hv. destruct (get_contract id s Hs Hv) as (r & s' & E & Hs' & Hc & Hvw & Hr).
  exists (forget r), s'. unfold VerifyOnly. rewrite (M_bind_done _ _ _ _ _ E).
  split; [by destruct r|]. split; [done|]. split; [done|]. split; [done|]. by exists r.
Qed.

Lemma delete_contract id s :
  healthy root s → ChunkId.valid id →
  ∃ r s', Delete root id s = (Done r, s') ∧ healthy root s' ∧ same_caller s s' ∧
    delete_spec io_fault (view root s) id r (view root s').
Proof.
  intros Hs Hv. pose proof Hs as [Hlay Hfd _ _].
  destruct (run_wp _ _ _ (delete_effect root id s Hv Hlay Hfd (healthy_not_held _ _ id Hs))
    (delete_crash_free id)) as (o & s' & -> & Hnc & Ho).
  destruct o as [[[]|e]|e| |]; try done; eexists _, s'; (split; [done|]).
  - destruct Ho as [Hh [[Hq [Hno|Hbad]]|(f & Hf & (Hc & Hi & _) & Hd & Ht & _ & Hok & _)]].
    + split; [by eapply quiet_healthy|]. split; [by eapply quiet_caller|]. cbn.
      rewrite (quiet_view _ _ _ Hq). symmetry. apply delete_id. by rewrite view_at, Hno.
    + by apply (no_size_fault Hrel) in Hbad.
    + split; [by eapply delete_healthy|]. split; [done|]. by apply view_deleted.
  - destruct Ho as (Hh & Hq & Hk & Hs' & Hfl). split; [by eapply quiet_healthy|].
    split; [by eapply quiet_caller|]. split; [by apply quiet_view|]. by rewrite view_at_some.
Qed.

Lemma exists_contract id s :
  healthy root s → ChunkId.valid id →
  ∃ s', Exists root id s = (Done (bool_decide (is_Some (view root s !! ChunkId.ToHexString id))), s') ∧
    healthy root s' ∧ same_caller s s' ∧ view root s' = view root s.
Proof.
  intros Hs Hv. pose proof Hs as [Hlay Hfd _ _].
  destruct (run_wp _ _ _ (exists_effect root id s Hv Hlay) (exists_crash_free id)) as (o & s' & -> & Hnc & Hq & Ho).
  pose proof (healthy_not_held _ _ id Hs) as Hnh.
  destruct o as [b|e| |]; [|by destruct Ho|by destruct Ho|done]. destruct Ho as [Hh Hb]. exists s'.
  split; [|split; [by eapply quiet_healthy|split; [by eapply quiet_caller|by apply quiet_view]]].
  do 2 f_equal. destruct Hb as [->|[_ Hbad]]; [|by apply (no_exists_fault Hrel) in Hbad].
  apply bool_decide_ext. by rewrite view_at_some.
Qed.

Lemma stats_contract s :
  healthy root s →
  ∃ st s', GetStats root s = (Done st, s') ∧ healthy root s' ∧ same_caller s s' ∧ view root s' = view root s.
Proof.
  intros [? ? ? ?]. unfold GetStats, sys, zoom, fs_space, syscall, gets, mbind, M_bind, mret, M_ret.
  pose proof (no_crash Hrel (now (os s)) SysSpace).
  destruct (sys_event (now (os s)) SysSpace); try done; cbn; eexists _, _; (split; [done|]); by split.
Qed.

Lemma list_contract s :
  healthy root s →
  ∃ o s', ListAllChunkIds root s = (o, s') ∧ healthy root s' ∧ same_caller s s' ∧ view root s' = view root s ∧
    match o with
    | Done l => NoDup l ∧ ∀ id, id ∈ l ↔ ChunkId.valid id ∧ is_Some (view root s !! ChunkId.ToHexString id)
    | Throws _ => io_fault
    | _ => False
    end.
Proof.
  intros Hs. pose proof (list_exact s Hs) as Hex. pose proof Hs as [Hlay _ _ _].
  assert (path_exists (fs (os s)) root = true) as Hroot.
  { unfold path_exists. rewrite orb_true_iff. right. apply bool_decide_eq_true.
    apply (layout_root _ _ Hlay). apply elem_of_prefixes. split; [by apply (layout_nonempty _ _ Hlay)|done]. }
  assert (∀ s', quiet s s' → held s' = held s →
    healthy root s' ∧ same_caller s s' ∧ view root s' = view root s) as Hq.
  { intros s' Hq Hh. split; [by eapply quiet_healthy|]. split; [by eapply quiet_caller|by apply quiet_view]. }
  unfold ListAllChunkIds, exists_or_throw, iterate_or_throw, sys, zoom, fs_exists, fs_iterate, syscall,
    gets, lift, mbind, M_bind, mret, M_ret.
  pose proof (no_crash Hrel (now (os s)) SysExists). pose proof (no_crash Hrel (S (now (os s))) SysIterate).
  destruct (sys_event (now (os s)) SysExists) as [|msg|n|] eqn:E1; try done; cbn.
  2: { eexists _, _. split; [done|]. split_and!; try by apply Hq. exists (now (os s)), SysExists. by rewrite E1. }
  all: rewrite Hroot; cbn;
    destruct (sys_event (S (now (os s))) SysIterate) as [|msg|n'|] eqn:E2; try done; cbn;
    eexists _, _; (split; [done|]); split_and!; try (by apply Hq); try (by apply Hex).
  all: exists (S (now (os s))), SysIterate; by rewrite E2.
Qed.

End Contract.

(** ** The refinement *)

Lemma local_disk_contract `{Evp, Platform, UuidSource, !EvpLaws, !UuidLaws} (root : path) :
  reliable →
  @ChunkStoreContract Disk _ _ (LocalDisk.ops root) io_fault (healthy root) (view root).
Proof.
  intros Hrel. split; cbn.
  - intros r s. split; intros [? ? ? ?]; by split.
  - done.
  - intros id data s Hs Hv. by apply put_contract.
  - intros id s Hs Hv. by apply get_contract.
  - intros id s Hs Hv. by apply verify_contract.
  - intros id s Hs Hv. by apply delete_contract.
  - intros id s Hs Hv. by apply exists_contract.
  - intros s Hs. by apply stats_contract.
  - intros s Hs. by apply list_contract.
Qed.

(** C1: [LocalDiskChunkStore] implements [IChunkStore]: with a SHA-256 that
    works, a machine that does not crash, reliable [exists] and [file_size]
    queries and a mutex its owner may lock again, every operation returns,
    keeps the store well formed, has the result the contract specifies and
    changes the abstract store as specified, whichever of the other system
    calls fail, at whatever point, or transfer less than asked. *)
Theorem local_disk_refines `{Evp, Platform, UuidSource, !EvpLaws, !UuidLaws} (root : path) :
  reliable →
  @ChunkStoreContract Disk _ _ (LocalDisk.ops root) io_fault (healthy root) (view root).
Proof. apply local_disk_contract. Qed.

(** A disk with an empty data root [/data], whatever the platform. *)
Definition fresh_disk : Disk :=
  MkDisk (MkOs (MkFs ∅ {[ ["data"] ]}) 0 ∅ 3 ∅) sample_runtime [] 0 0.

Lemma fresh_healthy : healthy ["data"] fresh_disk.
Proof.
  split.
  - split; [done|..].
    + intros q Hq. apply elem_of_prefixes in Hq as [Hne Hq].
      assert (q = ["data"]) as ->.
      { destruct q as [|c q]; [done|]. pose proof (prefix_cons_inv_1 _ _ _ _ Hq) as ->.
        apply prefix_cons_inv_2, prefix_nil_inv in Hq. by subst. }
      split; [|done]. cbn. set_solver.
    + done.
    + intros p _. cbn. intros ->%elem_of_singleton. cbn. lia.
  - done.
  - done.
  - intros p x _. done.
Qed.

Lemma toy_reliable bad e r :
  e ≠ EvCrash → bad SysExists = false → bad SysFileSize = false → r = RelockReenters →
  @reliable (toy_platform bad e r).
Proof.
  intros He Hx Hf ->. split; try done; cbn.
  - intros n c. by destruct (bad c).
  - intros (n & msg & Hm). cbn in Hm. by rewrite Hx in Hm.
  - intros (n & msg & Hm). cbn in Hm. by rewrite Hf in Hm.
Qed.

(** Applied to a schedule in which every [fsync] fails, and a state. *)
Lemma local_disk_refines_witness :
  let P := toy_platform (λ c, bool_decide (c = SysFsync)) (EvFail "I/O error") RelockReenters in
  healthy ["data"] fresh_disk ∧
  @ChunkStoreContract Disk toy_evp _ (@LocalDisk.ops toy_evp P toy_uuid ["data"]) (@io_fault P)
    (healthy ["data"]) (view ["data"]).
Proof.
  split; [apply fresh_healthy|].
  apply (@local_disk_refines toy_evp _ toy_uuid toy_evp_laws toy_uuid_laws).
  by apply toy_reliable.
Defined.
