(* ===== verification/DiskSafety.v ===== *)
(** * Crashes, corruption and what can go wrong on disk

    Sequences of operations under every schedule of system calls, cut short
    anywhere by a crash: the chunks that are found afterwards are intact.
    Then the price of locking a stripe twice. *)

From S2P Require Import Prelude Result Cxx Sha256 ChunkId Logger IChunkStore Posix LocalDisk DiskRules DiskLayout DiskEffects DiskTheorems DiskContract.
Import LocalDisk.

(** ** Sequences of operations *)

Inductive op :=
  | OpPut (id : ChunkId.t) (data : list byte)
  | OpGet (id : ChunkId.t)
  | OpVerify (id : ChunkId.t)
  | OpDelete (id : ChunkId.t)
  | OpExists (id : ChunkId.t)
  | OpStats
  | OpList.

Definition op_valid (o : op) : Prop :=
  match o with
  | OpPut id _ | OpGet id | OpVerify id | OpDelete id | OpExists id => ChunkId.valid id
  | OpStats | OpList => True
  end.

Section Safety.
Context `{Evp, Platform, UuidSource}.
Variable root : path.
Implicit Types s : Disk.

Definition ignore {A} (m : M Disk A) : M Disk unit := m ≫= λ _, mret tt.

Definition run_op (o : op) : M Disk unit :=
  match o with
  | OpPut id data => ignore (Put root id data)
  | OpGet id => ignore (Get root id)
  | OpVerify id => ignore (VerifyOnly root id)
  | OpDelete id => ignore (Delete root id)
  | OpExists id => ignore (Exists root id)
  | OpStats => ignore (GetStats root)
  | OpList => ignore (ListAllChunkIds root)
  end.

(** A caller that survives exceptions; a blocked thread or a crash ends it. *)
Definition attempt (m : M Disk unit) : M Disk unit := λ s,
  match m s with
  | (Throws _, s') => (Done tt, s')
  | r => r
  end.

Fixpoint run_ops (ops : list op) : M Disk unit :=
  match ops with
  | [] => mret tt
  | o :: ops' => attempt (run_op o) ≫= λ _, run_ops ops'
  end.

(** ** What one operation does to the tree *)

Definition op_change (o : op) s s' : Prop :=
  fs (os s') = fs (os s) ∨
  (∃ id data, o = OpPut id data ∧ digest_matches id data ∧
     grown (final_of root id) s s' ∧ put_trees root id data s (tree s')) ∨
  (∃ id, o = OpDelete id ∧ dirset s' = dirset s ∧ tree s' = delete (final_of root id) (tree s)).

(** What it gives back: the locks and descriptors it took. *)
Definition given_back s s' : Prop := held s' = held s ∧ fds (os s') = fds (os s) ∧ fds_ok s'.

Definition op_post (o : op) s (out : outcome unit) s' : Prop :=
  op_change o s s' ∧
  match out with Done _ | Throws _ => given_back s s' | _ => True end.

Lemma quiet_fs s s' : quiet s s' → fs (os s') = fs (os s).
Proof. by intros (_ & _ & _ & ? & _). Qed.

Lemma quiet_given_back s s' : quiet s s' → held s' = held s → fds_ok s → given_back s s'.
Proof. intros Hq Hh Hok. split; [done|]. split; [by destruct Hq as (_ & _ & _ & _ & ? & _)|by eapply quiet_fds_ok]. Qed.

Lemma wp_ignore {A} (m : M Disk A) Q s :
  wp m (λ o s', Q (match o with Done _ => Done tt | Throws e => Throws e | Blocks => Blocks | Crashed => Crashed end) s') s →
  wp (ignore m) Q s.
Proof. intros Hw. apply wp_bind. eapply wp_mono; [exact Hw|]. by intros [] s'. Qed.

(** A computation that only looks. *)
Definition looks {A} (m : M Disk A) : Prop :=
  ∀ s, quiet s (m s).2 ∧ held (m s).2 = held s.

Lemma looks_bind {A B} (m : M Disk A) (f : A → M Disk B) :
  looks m → (∀ a, looks (f a)) → looks (m ≫= f).
Proof.
  intros Hm Hf s. destruct (Hm s) as [Hq Hh]. unfold mbind, M_bind.
  destruct (m s) as [[a| | |] s']; try done. destruct (Hf a s') as [Hq' Hh']. cbn in *.
  split; [by etrans|congruence].
Qed.

Lemma looks_sys {A} c (f : SysEvent → M Os A) :
  (∀ e o, (f e o).2 = o) → looks (sys (syscall c ≫= f)).
Proof.
  intros Hf s. unfold sys, zoom, syscall, mbind, M_bind.
  destruct (sys_event (now (os s)) c) as [|msg|n|]; [| | |done].
  - pose proof (Hf EvOk (step_time (os s))) as Ho. by destruct (f EvOk _) as [? ?]; cbn in Ho; subst.
  - pose proof (Hf (EvFail msg) (step_time (os s))) as Ho. by destruct (f (EvFail msg) _) as [? ?]; cbn in Ho; subst.
  - pose proof (Hf (EvShort n) (step_time (os s))) as Ho. by destruct (f (EvShort n) _) as [? ?]; cbn in Ho; subst.
Qed.

Lemma looks_ret {A} (a : A) : looks (mret a).
Proof. by intros s. Qed.

Lemma looks_lift {A} (o : outcome A) : looks (lift o).
Proof. by intros s. Qed.

Lemma stats_looks : looks (GetStats root).
Proof. apply looks_bind; [|by intros r s]. apply looks_sys. by intros []. Qed.

Lemma exists_or_throw_looks p : looks (exists_or_throw p).
Proof. apply looks_bind; [apply looks_sys; by intros []|]. intros []; [apply looks_ret|apply looks_lift]. Qed.

Lemma iterate_or_throw_looks p : looks (iterate_or_throw p).
Proof. apply looks_bind; [apply looks_sys; by intros []|]. intros []; [apply looks_ret|apply looks_lift]. Qed.

Lemma list_looks : looks (ListAllChunkIds root).
Proof.
  apply looks_bind; [apply exists_or_throw_looks|]. intros [|]; cbn; [|apply looks_ret].
  apply looks_bind; [apply iterate_or_throw_looks|]. intros l. apply looks_ret.
Qed.

Section Effects.
Context `{!EvpLaws, !UuidLaws}.

Lemma put_op_post id data s :
  healthy root s → ChunkId.valid id → wp (run_op (OpPut id data)) (op_post (OpPut id data) s) s.
Proof.
  intros Hs Hv. apply wp_ignore. destruct (HashBytes_done data) as (d & Hd & _).
  pose proof Hs as [Hlay Hok _ _]. pose proof (healthy_not_held _ _ id Hs) as Hnh.
  destruct (decide (d = ChunkId.RawDigest id)) as [->|Hne].
  - eapply wp_mono; [by apply put_match_effect|]. intros o s' Ho. unfold op_post, op_change.
    destruct o as [r|e| |]; cbn [match_post] in Ho.
    + destruct Ho as [Hh [(_ & _ & Hq)|(_ & _ & Hgr & Ho)]].
      * split; [left; by apply quiet_fs|by apply quiet_given_back].
      * destruct r as [u|e].
        -- destruct Ho as (Ht & _ & Hf & Hok'). split; [|done]. right. left. exists id, data. split_and!; try done. by right.
        -- destruct Ho as (_ & Ht & _ & Hf & Hok' & _). split; [|done]. right. left. exists id, data. split_and!; try done. by left.
    + destruct Ho as (_ & Hq & Hh). split; [left; by apply quiet_fs|by apply quiet_given_back].
    + destruct Ho as (_ & Hq). split; [left; by apply quiet_fs|done].
    + destruct Ho as (Hgr & Ht). split; [|done]. right. left. by exists id, data.
  - eapply wp_mono; [by eapply put_mismatch_effect|]. intros o s' (-> & Hq & Hh).
    split; [left; by apply quiet_fs|by apply quiet_given_back].
Qed.

Lemma get_post_op o id s s' r :
  fds_ok s → get_post root id s (Done r) s' → op_post o s (Done tt) s'.
Proof.
  intros Hok (Hq & Hh & _). split; [left; by apply quiet_fs|by apply quiet_given_back].
Qed.

Lemma delete_op_post id s :
  healthy root s → ChunkId.valid id → wp (run_op (OpDelete id)) (op_post (OpDelete id) s) s.
Proof.
  intros Hs Hv. apply wp_ignore. pose proof Hs as [Hlay Hok _ _].
  eapply wp_mono; [by apply delete_effect; [..|apply (healthy_not_held _ _ id Hs)]|].
  intros [[u|e]|e| |] s' Ho; try done; cbn in Ho.
  - destruct Ho as [Hh [[Hq _]|(f & Hf & Hth & Hd & Ht & Hfd & Hok' & _)]].
    + split; [left; by apply quiet_fs|by apply quiet_given_back].
    + split; [|done]. right. right. by exists id.
  - destruct Ho as (Hh & Hq & _). split; [left; by apply quiet_fs|by apply quiet_given_back].
  - by split; [left|].
Qed.

End Effects.

Lemma looks_post {A} (m : M Disk A) o s : looks m → fds_ok s → wp (ignore m) (op_post o s) s.
Proof.
  intros Hm Hok. apply wp_ignore. unfold wp. destruct (Hm s) as [Hq Hh].
  split; [left; by apply quiet_fs|]. by destruct ((m s).1); try done; apply quiet_given_back.
Qed.

Context `{!EvpLaws, !UuidLaws}.

Lemma op_effect o s : healthy root s → op_valid o → wp (run_op o) (op_post o s) s.
Proof.
  intros Hs Hv. pose proof Hs as [Hlay Hok _ _].
  destruct o as [id data|id|id|id|id| |].
  - by apply put_op_post.
  - apply wp_ignore. eapply wp_mono; [by apply get_effect; [..|apply (healthy_not_held _ _ id Hs)]|].
    intros [r|e| |] s' Ho; try done; [|by split; [left|]].
    by eapply get_post_op.
  - apply wp_ignore. eapply wp_mono; [by apply verify_effect; [..|apply (healthy_not_held _ _ id Hs)]|].
    intros [r|e| |] s' Ho; try done; [|by split; [left|]].
    destruct Ho as (r' & Ho & _). by eapply get_post_op.
  - by apply delete_op_post.
  - apply wp_ignore. eapply wp_mono; [by apply exists_effect|]. intros o s' (Hq & Ho).
    split; [left; by apply quiet_fs|]. destruct o; try done; apply quiet_given_back; try done; apply Ho.
  - apply looks_post; [apply stats_looks|done].
  - apply looks_post; [apply list_looks|done].
Qed.

(** ** Chunks are intact *)

(** Every file the store would serve is on disk and hashes to its name. *)
Definition intact (m : gmap path file) : Prop :=
  ∀ id x, ChunkId.valid id → m !! final_of root id = Some x →
    durable x = true ∧ digest_matches id (content x).

Lemma intact_put id data s m' :
  ChunkId.valid id → digest_matches id data → put_trees root id data s m' → intact (tree s) → intact m'.
Proof.
  intros Hv Hd Hm Hi id' x Hv' Hx. destruct (decide (id' = id)) as [->|Hne].
  - destruct Hm as [Hm|Hm].
    + rewrite (delete_lookup_same _ _ _ _ Hm) in Hx; [by apply Hi|]. by apply tmp_not_final.
    + rewrite Hm, published_lookup, decide_True in Hx by done. by injection Hx as <-.
  - rewrite (put_other root id id' data s) in Hx by done. by apply Hi.
Qed.

(** What holds of the tree between and within operations. *)
Record sound s : Prop := {
  sound_layout : layout root (fs (os s));
  sound_placed : placed root (tree s);
  sound_intact : intact (tree s)
}.

Lemma sound_root s : sound s → root ∈ dirset s.
Proof.
  intros [Hl _ _]. apply (layout_root _ _ Hl). apply elem_of_prefixes. split; [by apply (layout_nonempty _ _ Hl)|done].
Qed.

Lemma sound_change o s s' : op_valid o → op_change o s s' → sound s → sound s'.
Proof.
  intros Hv Hch [Hl Hp Hi].
  destruct Hch as [Hf|[(id & data & -> & Hd & Hgr & Ht)|(id & -> & Hdir & Ht)]].
  - split; unfold tree; by rewrite Hf.
  - cbn in Hv. split; [by eapply layout_put|by eapply placed_put|by eapply intact_put].
  - split.
    + assert (fs (os s') = MkFs (tree s') (dirset s)) as -> by (rewrite <- Hdir; unfold tree, dirset; by destruct (fs (os s'))).
      apply layout_files_change; [done|]. intros p Hne. left. rewrite Ht, lookup_delete in Hne. by case_decide.
    + intros p x Hc Hx. rewrite Ht, lookup_delete in Hx. case_decide; [done|]. by eapply Hp.
    + intros id' x Hv' Hx. rewrite Ht, lookup_delete in Hx. case_decide; [done|]. by apply Hi.
Qed.

(** Sequences of operations: sound at every point where they can stop, and
    healthy where they end. *)
Lemma run_ops_sound ops s :
  Forall op_valid ops → healthy root s → intact (tree s) →
  wp (run_ops ops) (λ out s', sound s' ∧
    match out with Done _ => healthy root s' ∧ fds (os s') = fds (os s) | Throws _ => False | _ => True end) s.
Proof.
  revert s. induction ops as [|o ops IH]; intros s Hall Hs Hi.
  - apply wp_ret. split; [|done]. split; [apply Hs|apply Hs|done].
  - apply Forall_cons in Hall as [Hv Hall]. cbn. apply wp_bind. unfold wp at 1, attempt.
    pose proof (op_effect o s Hs Hv) as Hw. unfold wp in Hw. destruct (run_op o s) as [out s1].
    destruct Hw as [Hch Hout]. cbn [fst snd] in *.
    assert (sound s1) as Hsound by (apply (sound_change o s s1); [done|done|split; [apply Hs|apply Hs|done]]).
    destruct Hsound as [Hl1 Hp1 Hi1]. destruct out; cbn; try done;
      destruct Hout as (Hh & Hf & Hok);
      (eapply wp_mono; [apply IH; [done|split; [done|done|rewrite Hh; apply Hs|done]|done]|]);
      intros [] ? [? Hend]; (split; [done|]); try done; rewrite <- Hf; done.
Qed.

(** ** Losing power

    Files that had not reached the disk may hold anything or be gone, and any
    file may be gone whose directory entry had not been synced; a synced file
    that is still there holds what was synced. *)
Definition power_loss (m m' : gmap path file) : Prop :=
  ∀ p x', m' !! p = Some x' → ∃ x, m !! p = Some x ∧ (durable x = true → content x' = content x ∧ durable x' = true).

Lemma power_loss_refl m : power_loss m m.
Proof. intros p x Hx. by exists x. Qed.

(** The process starts again on what is left: no locks, no descriptors. *)
Definition reboot (m' : gmap path file) s : Disk :=
  MkDisk (MkOs (MkFs m' (dirset s)) (now (os s)) ∅ 0 ∅) sample_runtime [] 0 0.

Lemma reboot_sound m' s : sound s → power_loss (tree s) m' → healthy root (reboot m' s) ∧ intact m'.
Proof.
  intros [Hl Hp Hi] Hloss. split.
  - split; [| |done|].
    + assert (layout root (MkFs (tree s) (dirset s))) as Hl' by (unfold tree, dirset; by destruct (fs (os s))).
      apply (layout_files_change root _ m' Hl'). intros p Hne. left. cbn.
      destruct (m' !! p) as [x'|] eqn:E; [|done]. by destruct (Hloss p x' E) as (x & -> & _).
    + intros n _. apply lookup_empty.
    + intros p x' Hc Hx. destruct (Hloss p x' Hx) as (x & Hx0 & _). by eapply Hp.
  - intros id x' Hv Hx'. destruct (Hloss _ _ Hx') as (x & Hx & Hkeep).
    destruct (Hi id x Hv Hx) as [Hdur Hd]. destruct (Hkeep Hdur) as [-> ?]. done.
Qed.

(** ** [Get] returns only what matches, from any state *)

Lemma wp_any {A} (m : M Disk A) (Q : outcome A → Disk → Prop) s : (∀ o s', Q o s') → wp m Q s.
Proof. intros HQ. apply HQ. Qed.

Definition only_intact (id : ChunkId.t) (o : outcome (Result (list byte) ChunkStoreErrorDetail)) s : Prop :=
  match o with Done (Ok data) => digest_matches id data | _ => True end.

Lemma get_read_intact id size fd s : wp (Get_read id size fd) (only_intact id) s.
Proof.
  unfold Get_read. apply wp_bind, wp_any. intros [[data|]| | |] s1; try done.
  destruct (length data =? size); cbn [negb]; [|done].
  apply wp_bind, wp_lift. destruct (HashBytes data) as [d| | |] eqn:Hd; try done.
  case_bool_decide as Heq; cbn [negb]; apply wp_bind, wp_any; intros [] s2; try done.
  apply wp_ret. unfold only_intact, digest_matches. by rewrite Hd, Heq.
Qed.

Lemma get_intact id s : wp (Get root id) (only_intact id) s.
Proof.
  apply wp_lock_guard; [done|done|]. intros _.
  apply wp_bind, wp_any. intros [p| | |] s1; try done.
  apply wp_bind, wp_any. intros [[size|msg]| | |] s2; try done.
  apply wp_bind, wp_any. intros [[fd|]| | |] s3; try done.
  apply wp_scoped. eapply wp_mono; [apply get_read_intact|].
  intros [r| | |] s4 Ho; try done; apply wp_bind, wp_any; intros [] s5; try done.
Qed.

End Safety.

Section Theorems.
Context `{Evp, Platform, UuidSource}.
Variable root : path.

(** C20: Whatever the state of the disk and whatever the system calls do,
    [Get] never hands out bytes whose SHA-256 is not the chunk's identifier. *)
Theorem Get_integrity (id : ChunkId.t) (data : list byte) (s s' : Disk) :
  Get root id s = (Done (Ok data), s') → HashBytes data = Done (ChunkId.RawDigest id).
Proof. intros E. by apply (wp_run _ _ _ _ _ E (get_intact root id s)). Qed.

Context `{!EvpLaws, !UuidLaws}.

(** Crash safety. After any sequence of operations, cut short at any
    system call by a crash, under any schedule of failures, and after a power
    loss that may destroy whatever was not synced, the store comes back well
    formed and no read ever reports corruption: every chunk is absent or
    intact. *)
Theorem crash_recovery (ops : list op) (s s' : Disk) (out : outcome unit) (m' : gmap path file) :
  Forall op_valid ops → healthy root s → intact root (tree s) →
  run_ops root ops s = (out, s') → power_loss (tree s') m' →
  healthy root (reboot m' s') ∧
  ∀ id, ChunkId.valid id →
    match (Get root id (reboot m' s')).1 with
    | Done (Ok data) => digest_matches id data
    | Done (Err e) => kind e ≠ CorruptionDetected
    | Crashed => True
    | _ => False
    end.
Proof.
  intros Hall Hs Hi E Hloss.
  destruct (wp_run _ _ _ _ _ E (run_ops_sound root ops s Hall Hs Hi)) as [Hsound _].
  destruct (reboot_sound root m' s' Hsound Hloss) as [Hr Hi']. split; [done|]. intros id Hv.
  pose proof Hr as [Hl Hok _ _].
  pose proof (get_effect root id _ Hv Hl Hok (healthy_not_held _ _ id Hr)) as Hw. unfold wp in Hw.
  destruct ((Get root id (reboot m' s')).1) as [[data|e]| | |]; try done.
  - by destruct Hw as (_ & _ & _ & ?).
  - destruct Hw as (_ & _ & [[-> _]|[(-> & f & Hf & Hbad)|[-> _]]]); [done| |done].
    destruct (Hi' id f Hv Hf) as [_ ?]. done.
Qed.

(** C19: [Put] is atomic under every schedule, crashes included: the abstract
    store is as before or holds exactly the new chunk besides; when [Put]
    reports success the chunk is there, and when it reports an error nothing
    has changed. *)
Theorem Put_atomic (id : ChunkId.t) (data : list byte) (s s' : Disk) o :
  healthy root s → ChunkId.valid id → Put root id data s = (o, s') →
  (view root s' = view root s ∨
   digest_matches id data ∧ view root s' = <[ChunkId.ToHexString id := data]> (view root s)) ∧
  match o with
  | Done (Ok _) => is_Some (view root s' !! ChunkId.ToHexString id)
  | Done (Err _) | Throws _ | Blocks => view root s' = view root s
  | Crashed => True
  end.
Proof.
  intros Hs Hv E. destruct (HashBytes_done data) as (d & Hd & _). pose proof Hs as [Hlay Hok _ _].
  destruct (decide (d = ChunkId.RawDigest id)) as [->|Hne].
  - pose proof (wp_run _ _ _ _ _ E (put_match_effect root id data s Hv Hlay Hok (healthy_not_held _ _ id Hs) Hd)) as Ho.
    destruct o as [[u|e]|e| |]; cbn [match_post] in Ho.
    + destruct Ho as [_ [(_ & Hex & Hq)|(_ & _ & _ & Ht & _)]].
      * rewrite (quiet_view _ _ _ Hq). split; [by left|]. by rewrite view_at_some.
      * rewrite (view_put_published root id data s s') by done. split; [by right|].
        rewrite lookup_insert_eq. by eexists.
    + destruct Ho as [_ [(? & _)|(_ & _ & _ & _ & Ht & _)]]; [done|].
      rewrite (view_put_kept root id s s') by done. split; [by left|done].
    + destruct Ho as (_ & Hq & _). rewrite (quiet_view _ _ _ Hq). split; [by left|done].
    + destruct Ho as (_ & Hq). rewrite (quiet_view _ _ _ Hq). split; [by left|done].
    + destruct Ho as (_ & [Ht|Ht]); (split; [|done]).
      * left. by apply (view_put_kept root id).
      * right. split; [done|]. by apply view_put_published.
  - destruct (wp_run _ _ _ _ _ E (put_mismatch_effect root id data d s Hd Hne)) as (-> & Hq & _).
    rewrite (quiet_view _ _ _ Hq). split; [by left|done].
Qed.

(** Every operation gives back what it takes: when it returns or throws,
    the thread holds the locks it held before and the open descriptors are
    those that were open, on every error path. *)
Theorem resources_given_back (o : op) (s s' : Disk) (out : outcome unit) :
  healthy root s → op_valid o → run_op root o s = (out, s') →
  match out with
  | Done _ | Throws _ => held s' = held s ∧ fds (os s') = fds (os s)
  | _ => True
  end.
Proof.
  intros Hs Hv E. destruct (wp_run _ _ _ _ _ E (op_effect root o s Hs Hv)) as [_ Ho].
  destruct out; try done; by destruct Ho as (? & ? & _).
Qed.

(** C39: As written, [Put] on matching data locks its stripe and then calls
    [Exists], which locks it again: with a POSIX mutex the thread waits for
    itself forever, still holding the stripe; with a checked mutex
    [std::system_error] escapes and nothing is stored. No [Put] of a new or
    an existing chunk succeeds. *)
Theorem Put_relocks_its_stripe (id : ChunkId.t) (data : list byte) (s : Disk) :
  LockFor id ∉ held s → digest_matches id data → relock ≠ RelockReenters →
  Put root id data s =
    match relock with
    | RelockThrows => (Throws (system_error "Resource deadlock avoided"), s)
    | _ => (Blocks, set_held (LockFor id :: held s) s)
    end.
Proof.
  intros Hnh Hd Hre. unfold Put, lift, lock_guard, lock, Exists, lock_guard, lock, state, scoped, unlock, modify.
  rewrite Hd. unfold mbind, M_bind. cbn. rewrite bool_decide_true by done. cbn.
  rewrite bool_decide_false by done. cbn. rewrite bool_decide_true by (by left).
  destruct relock; [done| |done]. cbn. rewrite bool_decide_true by done.
  by destruct s.
Qed.

End Theorems.

(** ** Concrete runs *)

Definition sample_data : list byte := [x68; x69].

(** The chunk of [sample_data] under the digest of the witnesses. *)
Definition sample_chunk : ChunkId.t := ChunkId.FromDigest (toy_digest sample_data).

Lemma sample_chunk_valid : ChunkId.valid sample_chunk.
Proof. apply ChunkId.FromDigest_valid, toy_digest_length. Qed.

(** Nothing is intact vacuously: a disk with the chunk already stored. *)
Definition stored_disk : Disk := (@Put toy_evp toy_good toy_uuid ["data"] sample_chunk sample_data fresh_disk).2.

Definition returns_ok {A E} (o : outcome (Result A E)) : bool :=
  match o with Done (Ok _) => true | _ => false end.

Lemma fresh_intact `{Evp} : intact ["data"] (tree fresh_disk).
Proof. intros id x _ Hx. by apply (lookup_empty_Some (M:=gmap path) (final_of ["data"] id) x) in Hx. Qed.

Lemma sample_ops_valid : Forall op_valid [OpPut sample_chunk sample_data; OpGet sample_chunk].
Proof.
  apply Forall_cons_2; [exact sample_chunk_valid|].
  apply Forall_cons_2; [exact sample_chunk_valid|]. exact (Forall_nil_2 _).
Qed.

(** A crash when the directory of the shard is synced, just after the
    rename; nothing that was synced is lost. *)
Definition crash_after_rename : Platform :=
  {| sys_event n c := if bool_decide (c = SysFsync ∧ 5 < n) then EvCrash else EvOk;
     space_available _ := 0%Z; relock := RelockReenters |}.

Lemma crash_recovery_witness :
  let P := crash_after_rename in
  let r := @run_ops toy_evp P toy_uuid ["data"] [OpPut sample_chunk sample_data; OpGet sample_chunk] fresh_disk in
  r.1 = Crashed ∧ is_Some (view ["data"] r.2 !! ChunkId.ToHexString sample_chunk) ∧
  healthy ["data"] (reboot (tree r.2) r.2).
Proof.
  split; [by vm_compute|]. split; [by eapply bool_decide_eq_true_1; vm_compute|].
  refine (proj1 (@crash_recovery toy_evp crash_after_rename toy_uuid ["data"] toy_evp_laws toy_uuid_laws
    [OpPut sample_chunk sample_data; OpGet sample_chunk] fresh_disk _ _ _ _ fresh_healthy fresh_intact
    (surjective_pairing _) _)).
  - exact sample_ops_valid.
  - apply power_loss_refl.
Defined.

Lemma Get_integrity_witness :
  ∃ s', @Get toy_evp toy_good ["data"] sample_chunk stored_disk = (Done (Ok sample_data), s') ∧
    @HashBytes toy_evp sample_data = Done (ChunkId.RawDigest sample_chunk).
Proof.
  assert ((@Get toy_evp toy_good ["data"] sample_chunk stored_disk).1 = Done (Ok sample_data)) as E
    by (by vm_compute).
  destruct (@Get toy_evp toy_good ["data"] sample_chunk stored_disk) as [o s'] eqn:Eq.
  cbn in E. subst o. exists s'. split; [done|].
  exact (@Get_integrity toy_evp toy_good ["data"] sample_chunk sample_data stored_disk s' Eq).
Defined.

Lemma Put_atomic_witness :
  let P := crash_after_rename in
  let r := @Put toy_evp P toy_uuid ["data"] sample_chunk sample_data fresh_disk in
  r.1 = Crashed ∧
  (view ["data"] r.2 = ∅ ∨
   @digest_matches toy_evp sample_chunk sample_data ∧
   view ["data"] r.2 = <[ChunkId.ToHexString sample_chunk := sample_data]> ∅).
Proof.
  split; [by vm_compute|].
  pose proof (@Put_atomic toy_evp crash_after_rename toy_uuid ["data"] toy_evp_laws toy_uuid_laws
    sample_chunk sample_data fresh_disk) as Hput.
  pose proof (Hput _ _ fresh_healthy sample_chunk_valid (surjective_pairing _)) as [Hp _].
  change (view ["data"] fresh_disk) with (∅ : store) in Hp. exact Hp.
Defined.

(** A write that transfers one byte: the error path closes the file. *)
Lemma resources_given_back_witness :
  let P := toy_platform (λ c, bool_decide (c = SysWrite)) (EvShort 1) RelockReenters in
  let r := @run_op toy_evp P toy_uuid ["data"] (OpPut sample_chunk sample_data) fresh_disk in
  r.1 = Done tt ∧ held r.2 = [] ∧ fds (os r.2) = ∅.
Proof.
  intros P r. assert (r.1 = Done tt) as E by (by vm_compute). split; [exact E|].
  exact (@resources_given_back toy_evp P toy_uuid ["data"] toy_evp_laws toy_uuid_laws
    (OpPut sample_chunk sample_data) fresh_disk r.2 (Done tt) fresh_healthy sample_chunk_valid
    (eq_trans (surjective_pairing r) (f_equal (λ o, (o, r.2)) E))).
Defined.

Lemma Put_relocks_its_stripe_witness :
  @Put toy_evp (toy_platform (λ _, false) EvOk RelockBlocks) toy_uuid ["data"] sample_chunk sample_data fresh_disk
    = (Blocks, set_held [LockFor sample_chunk] fresh_disk).
Proof.
  exact (@Put_relocks_its_stripe toy_evp (toy_platform (λ _, false) EvOk RelockBlocks) toy_uuid ["data"]
    sample_chunk sample_data fresh_disk (not_elem_of_nil _) eq_refl ltac:(discriminate)).
Defined.
