(* ===== verification/DiskDurability.v ===== *)
(** * What a power loss leaves of an acknowledged chunk

    [Posix] remembers which directory entries were touched since their
    directory was last synced. Whatever was synced, content and entries alike,
    survives a power loss: so do all chunks of a store whose shard directories
    have reached the disk. [Put] syncs the shard directory but not the
    directories above it, so the first chunks of a new shard do not. *)

From S2P Require Import Prelude Result Cxx Sha256 ChunkId Logger IChunkStore Posix LocalDisk DiskRules DiskLayout DiskEffects DiskTheorems DiskContract DiskSafety.
Import LocalDisk.

Section Durability.
Context `{Evp, Platform, UuidSource, !EvpLaws, !UuidLaws}.
Variable root : path.
Implicit Types (s : Disk) (o : Os) (X : path → Prop).

(** The chunks under consideration. *)
Variable D : ChunkId.t → Prop.
Hypothesis D_valid : ∀ id, D id → ChunkId.valid id.

Abbreviation shard id := (shard_path root (hex_of id)).
Abbreviation final id := (final_of root id).

(** ** Tidy states

    The shard directories of the chunks in [D] are there and have reached the
    disk, and so have the entries of those chunks, but for the paths in [X]. *)

Definition ready o : Prop :=
  ∀ id, D id → ∀ q, q ∈ prefixes (shard id) → q ∈ dirs (fs o) ∧ q ∉ pending o.

Definition settled X o : Prop :=
  ∀ id, D id → ¬ X (final id) → is_Some (files (fs o) !! final id) → final id ∉ pending o.

Definition tidy X o : Prop := ready o ∧ settled X o.

Definition nothing : path → Prop := λ _, False.

(** No [open] and no [fsync] fails. *)
Definition sync_reliable : Prop :=
  ∀ n c msg, c = SysOpen ∨ c = SysFsync → sys_event n c ≠ EvFail msg.

Lemma tidy_step X o o' :
  dirs (fs o) ⊆ dirs (fs o') → (∀ id, ChunkId.valid id → final id ∈ dirs (fs o') → final id ∈ dirs (fs o)) →
  pending o' ⊆ pending o ∪ touched (fs o) (fs o') →
  (∀ p, files (fs o') !! p ≠ files (fs o) !! p →
     p ∉ dirs (fs o) ∧ ((∀ id, ChunkId.valid id → p ≠ final id) ∨ X p ∨ files (fs o') !! p = None)) →
  tidy X o → tidy X o'.
Proof.
  intros Hd Hnew Hp Hf [Hr Hs].
  assert (∀ p, p ∈ pending o' → p ∈ pending o ∨ files (fs o') !! p ≠ files (fs o) !! p ∨
    (p ∈ dirs (fs o') ∧ p ∉ dirs (fs o))) as Hpend.
  { intros p [?|Ht]%Hp%elem_of_union; [by left|].
    apply elem_of_touched in Ht as [Hne|[[? ?]|?]]; [right; left; congruence|set_solver|auto]. }
  split.
  - intros id Hv q Hq. destruct (Hr id Hv q Hq) as [Hin Hnp]. split; [by apply Hd|].
    intros [?|[Hne|[_ ?]]]%Hpend; [done| |done]. by destruct (Hf q Hne).
  - intros id HD HX Hx Hin. pose proof (D_valid id HD) as Hv.
    destruct (decide (files (fs o') !! final id = files (fs o) !! final id)) as [E|Hne].
    + apply Hpend in Hin as [Hin|[?|[Hin Hout]]]; [|done|by apply Hnew in Hin]. rewrite E in Hx. by apply (Hs id HD HX Hx).
    + destruct (Hf _ Hne) as [_ [Hno|[?|Hn]]]; [by apply (Hno id)|done|]. rewrite Hn in Hx. by destruct Hx.
Qed.

Lemma tidy_same X o o' : fs o' = fs o → pending o' = pending o → tidy X o → tidy X o'.
Proof. intros Hf Hp [Hr Hs]. split; unfold ready, settled in *; by rewrite Hf, Hp. Qed.

Lemma tidy_weaken X X' o : (∀ p, X p → X' p) → tidy X o → tidy X' o.
Proof. intros HX [Hr Hs]. split; [done|]. intros id Hv Hn. apply Hs; [done|]. auto. Qed.

(** Changing the file at one path. *)
Lemma tidy_file X s p g :
  p ∉ dirset s → (∀ q, q ≠ p → g (tree s) !! q = tree s !! q) →
  (∀ id, ChunkId.valid id → p ≠ final id) ∨ X p ∨ g (tree s) !! p = None →
  tidy X (os s) → tidy X (os (upd_fs (with_files g (fs (os s))) s)).
Proof.
  intros Hd Hg Hp. apply tidy_step; [done|done|done|]. cbn. intros q Hq.
  destruct (decide (q = p)) as [->|Hne]; [done|]. by destruct Hq; apply Hg.
Qed.

(** What every operation ends with: after a crash the entries in [X] may be
    pending. *)
Definition left_tidy {A} X (o : outcome A) s : Prop :=
  match o with Crashed => tidy X (os s) | _ => tidy nothing (os s) end.

Lemma left_tidy_of {A} X (o : outcome A) s : tidy nothing (os s) → left_tidy X o s.
Proof. intros Ht. destruct o; try done. apply (tidy_weaken nothing); [by intros p []|done]. Qed.

(** ** Computations that leave the tree alone *)

Definition inert {A} (m : M Disk A) : Prop :=
  ∀ s, fs (os (m s).2) = fs (os s) ∧ pending (os (m s).2) = pending (os s).

Lemma inert_ret {A} (a : A) : inert (mret a).
Proof. done. Qed.

Lemma inert_lift {A} (o : outcome A) : inert (lift o).
Proof. done. Qed.

Lemma inert_gets {A} (f : Disk → A) : inert (gets f).
Proof. done. Qed.

Lemma inert_bind {A B} (m : M Disk A) (f : A → M Disk B) : inert m → (∀ a, inert (f a)) → inert (m ≫= f).
Proof.
  intros Hm Hf s. destruct (Hm s) as [E E']. unfold mbind, M_bind. destruct (m s) as [[a|e| |] s']; try done.
  cbn in *. rewrite <- E, <- E'. apply Hf.
Qed.

Lemma inert_scoped {A} (fin : M Disk unit) (m : M Disk A) : inert fin → inert m → inert (scoped fin m).
Proof.
  intros Hfin Hm s. destruct (Hm s) as [E E']. unfold scoped. destruct (m s) as [[a|e| |] s']; try done;
    cbn in *; rewrite <- E, <- E'; by apply inert_bind.
Qed.

Lemma inert_runtime {A} (m : M Runtime A) : inert (on_runtime m).
Proof. intros s. unfold on_runtime, zoom. by destruct (m _). Qed.

Lemma inert_lock_guard {A} z (m : M Disk A) : inert m → inert (lock_guard z m).
Proof.
  intros Hm. apply inert_bind.
  - intros s. unfold lock, state. case_bool_decide; [by destruct relock|done].
  - intros _. by apply inert_scoped.
Qed.

Lemma inert_syscall {A} c (f : SysEvent → M Os A) :
  (∀ e o, fs (f e o).2 = fs o ∧ pending (f e o).2 = pending o) → inert (sys (syscall c ≫= f)).
Proof.
  intros Hf s. unfold sys, zoom, syscall, mbind, M_bind.
  destruct (sys_event (now (os s)) c) as [|msg|n|]; cbn; try done;
    match goal with |- context [f ?e ?o] => destruct (Hf e o); destruct (f e o); cbn in *; by split end.
Qed.

Lemma inert_exists p : inert (sys (fs_exists p)).
Proof. apply inert_syscall. by intros [] o. Qed.

Lemma inert_file_size p : inert (sys (fs_file_size p)).
Proof. apply inert_syscall. by intros [] o. Qed.

Lemma inert_space p : inert (sys (fs_space p)).
Proof. apply inert_syscall. by intros [] o. Qed.

Lemma inert_iterate p : inert (sys (fs_iterate p)).
Proof. apply inert_syscall. by intros [] o. Qed.

Lemma inert_read fd n : inert (sys (sys_read fd n)).
Proof. apply inert_syscall. by intros [] o. Qed.

Lemma inert_close fd : inert (sys (sys_close fd)).
Proof. apply inert_syscall. by intros [] o. Qed.

Lemma inert_open p : inert (sys (internal_open p [O_RDONLY; O_CLOEXEC])).
Proof.
  apply inert_syscall. intros [] o; try done; unfold state; by destruct (can_open (fs o) p [O_RDONLY; O_CLOEXEC]).
Qed.

Lemma inert_wp {A} (m : M Disk A) X s : inert m → tidy nothing (os s) → wp m (left_tidy X) s.
Proof. intros Hm Ht. destruct (Hm s) as [Hf Hp]. apply left_tidy_of. by eapply tidy_same. Qed.

Ltac inert :=
  repeat lazymatch goal with
  | |- inert (lock_guard _ _) => apply inert_lock_guard
  | |- inert (mbind _ _) => apply inert_bind; [|intros ?]
  | |- inert (scoped _ _) => apply inert_scoped
  | |- inert (mret _) => apply inert_ret
  | |- inert (lift _) => apply inert_lift
  | |- inert (gets _) => apply inert_gets
  | |- inert (match ?x with _ => _ end) => destruct x
  | |- inert (sys (fs_exists _)) => apply inert_exists
  | |- inert (sys (fs_file_size _)) => apply inert_file_size
  | |- inert (sys (fs_space _)) => apply inert_space
  | |- inert (sys (fs_iterate _)) => apply inert_iterate
  | |- inert (sys (sys_read _ _)) => apply inert_read
  | |- inert (sys (ScopedFd_destroy (Some _))) => apply inert_close
  | |- inert (sys (internal_open _ _)) => apply inert_open
  | |- inert _ => apply inert_runtime
  end.

Lemma exists_inert id : inert (Exists root id).
Proof. unfold Exists. inert. Qed.

Lemma get_inert id : inert (Get root id).
Proof. unfold Get, Get_read. inert. Qed.

Lemma verify_inert id : inert (VerifyOnly root id).
Proof. apply inert_bind; [apply get_inert|intros ?; apply inert_ret]. Qed.

Lemma stats_inert : inert (GetStats root).
Proof. unfold GetStats. inert. Qed.

Lemma list_inert : inert (ListAllChunkIds root).
Proof. unfold ListAllChunkIds, exists_or_throw, iterate_or_throw. inert. Qed.

Lemma count_inert entries count bytes : inert (CountLoop entries count bytes).
Proof.
  revert count bytes. induction entries as [|[p x] entries IH]; intros count bytes; cbn; [apply inert_ret|].
  destruct (is_chunk p); [|apply IH]. inert. apply IH.
Qed.

(** The constructor only looks, when the root is there. *)
Lemma ctor_looks s :
  path_exists (fs (os s)) root = true →
  wp (LocalDiskChunkStore root) (λ _ s', fs (os s') = fs (os s) ∧ Posix.pending (os s') = Posix.pending (os s)) s.
Proof.
  intros Hroot. unfold LocalDiskChunkStore. apply wp_bind, wp_bind, wp_exists; [done| |by intros].
  rewrite Hroot. apply wp_ret.
  refine (inert_bind (iterate_or_throw root ≫= λ entries, CountLoop entries 0 0) (λ cb, modify (set_counters cb.1 cb.2)) _ _ (tick s)); [|done].
  unfold iterate_or_throw. inert. apply count_inert.
Qed.

(** ** [Put] and [Delete] *)

Section Writers.
Hypothesis reliable_sync : sync_reliable.
Variable id : ChunkId.t.
Hypothesis Hv : ChunkId.valid id.

(** The one entry an interrupted operation may leave pending. *)
Definition new_chunk : path → Prop := λ p, p = final id.

Lemma not_failed s c : c = SysOpen ∨ c = SysFsync → ¬ failed s c.
Proof. intros Hc [msg Hm]. by apply (reliable_sync (now (os s)) c msg Hc). Qed.

(** A path that is no chunk: where [Put] writes. *)
Definition scratch s (t : path) : Prop := t ∉ dirset s ∧ ∀ i, ChunkId.valid i → t ≠ final i.

Lemma remove_scratch {A} t (r : A) s :
  scratch s t → tidy nothing (os s) → wp (sys (fs_remove t);; mret r) (left_tidy new_chunk) s.
Proof.
  intros [Hd Hn] Ht. apply wp_bind, wp_remove; [done|..].
  - intros _. by apply left_tidy_of.
  - intros f _. apply left_tidy_of. apply (tidy_file _ _ t); [done| |by left|done]. intros q Hq. by apply lookup_delete_ne.
  - intros _. by apply left_tidy_of.
  - intros msg _. by apply left_tidy_of.
Qed.

(** After the rename only the entry of the chunk is pending, and syncing the
    directory settles it. *)
Lemma settle_final X o :
  (∀ p, X p → p = final id) → tidy X o → tidy nothing (settle (shard id) o).
Proof.
  intros HX [Hr Hs]. split.
  - intros i Hi q Hq. destruct (Hr i Hi q Hq) as [Hd Hp]. split; [done|]. cbn. rewrite elem_of_filter. tauto.
  - intros i Hi _ Hx. cbn in *. rewrite elem_of_filter. intros [Hne Hin].
    refine (Hs i Hi _ Hx Hin). intros E. apply HX in E. rewrite E in Hne. unfold final_of in Hne. by rewrite parent_final in Hne.
Qed.

Lemma publish_tidy data t s :
  scratch s t → final id ∉ dirset s → shard id ∈ dirset s → tidy nothing (os s) →
  wp (Put_publish id data (shard id) t (final id)) (left_tidy new_chunk) s.
Proof.
  intros Hsc Hfd Hsd Ht. unfold Put_publish. apply wp_bind, wp_rename.
  - intros _. by apply left_tidy_of.
  - intros f _ _ _. set (s1 := upd_fs _ s).
    assert (tidy new_chunk (os s1)) as Ht1.
    { apply (tidy_step _ (os s)); [done|done|done| |by apply (tidy_weaken nothing); [intros p []|]]. cbn. intros p Hp.
      destruct Hsc as [Htd Htf]. destruct (decide (p = final id)) as [->|Hne]; [split; [exact Hfd|right; left; reflexivity]|].
      rewrite lookup_insert_ne in Hp by done. destruct (decide (p = t)) as [->|Hne']; [split; [exact Htd|by left]|].
      by rewrite lookup_delete_ne in Hp. }
    assert (shard id ∈ dirs (fs (os s1))) as Hsd1 by done. clearbody s1.
    apply wp_bind, wp_open_dir; [set_solver..|by intros _| |intros [?|Hf]; [done|by apply not_failed in Hf; [|left]]].
    intros _. rewrite with_fd_same. apply wp_bind, wp_bind. eapply wp_fsync_dir.
    + apply lookup_insert_eq.
    + done.
    + intros _. exact Ht1.
    + apply wp_ret. apply inert_wp;
        [|apply (tidy_same nothing (settle (shard id) (os s1))); [done|done|apply (settle_final new_chunk); [by intros p|exact Ht1]]].
      apply inert_bind; [done|]. intros _. apply inert_bind; [apply inert_runtime|]. intros _.
      apply inert_bind; [apply inert_close|]. intros _. apply inert_ret.
    + intros Hf. by apply not_failed in Hf; [|right].
  - intros msg _. by apply remove_scratch.
Qed.

(** A change of the temporary file. *)
Lemma scratch_file s t g :
  scratch s t → (∀ q, q ≠ t → g (tree s) !! q = tree s !! q) → tidy nothing (os s) →
  tidy nothing (os (upd_fs (with_files g (fs (os s))) s)).
Proof. intros [Hd Hn] Hg. apply (tidy_file _ _ t); [done|done|by left]. Qed.

Lemma file_tidy data t fd s f :
  scratch s t → final id ∉ dirset s → shard id ∈ dirset s → fds (os s) !! fd = Some t → tree s !! t = Some f → tidy nothing (os s) →
  wp (Put_file id data (shard id) t (final id) fd) (left_tidy new_chunk) s.
Proof.
  intros Hsc Hfd Hsd Ho Hf Ht. unfold Put_file.
  assert (∀ s1 (w : option nat), dirset s1 = dirset s → fds (os s1) !! fd = Some t → tidy nothing (os s1) →
    wp (if negb (bool_decide (w = Some (length data))) then
          sys (fs_remove t);; mret (IoErr "Failed to write chunk data", Some fd)
        else
          synced ← sys (internal_fsync fd);
          if negb synced then sys (fs_remove t);; mret (IoErr "Failed to fsync temporary file", Some fd)
          else
            let '(n, released) := ScopedFd_release (Some fd) in
            (match n with Some n => sys (sys_close n) | None => mret tt end);;
            r ← Put_publish id data (shard id) t (final id);
            mret (r, released)) (left_tidy new_chunk) s1) as Hrest.
  { intros s1 w Hd Ho1 Ht1. assert (scratch s1 t) as Hsc1 by (destruct Hsc; by split; [rewrite Hd|]).
    case_bool_decide; cbn [negb]; [|by apply remove_scratch].
    apply wp_bind. eapply wp_fsync; [exact Ho1|apply Hsc1|..].
    - intros _. by apply left_tidy_of.
    - cbn [negb ScopedFd_release]. match goal with |- context [upd_fs ?F s1] => set (s2 := upd_fs F s1) end.
      assert (tidy nothing (os s2)) as Ht2 by (apply (scratch_file s1 t); [done|intros q Hq; by apply lookup_alter_ne|done]).
      assert (dirset s2 = dirset s) as Hd2 by (rewrite <- Hd; done). clearbody s2. clear dependent s1.
      apply wp_bind, wp_close.
      + intros _. by apply left_tidy_of.
      + apply wp_bind. eapply wp_mono; [apply publish_tidy|].
        * destruct Hsc. split; [|done]. change (t ∉ dirset s2). by rewrite Hd2.
        * change (final id ∉ dirset s2). by rewrite Hd2.
        * change (shard id ∈ dirset s2). by rewrite Hd2.
        * by eapply tidy_same.
        * intros [] s3 Hs3; done.
    - intros Hbad. by apply not_failed in Hbad; [|right]. }
  destruct data as [|b data]; [apply wp_bind, wp_ret; by apply Hrest|].
  apply wp_bind. eapply wp_write; [exact Ho|exact Hf|..].
  - intros _. by apply left_tidy_of.
  - intros n _. apply Hrest; [done|done|]. apply (scratch_file s t); [done| |done]. intros q Hq. by apply lookup_insert_ne.
  - intros _. by apply Hrest.
Qed.

(** Making the shard directory: what is new is no chunk. *)
Lemma mkdir_tidy s :
  layout root (fs (os s)) → tidy nothing (os s) →
  tidy nothing (os (upd_fs (MkFs (files (fs (os s))) (list_to_set (prefixes (shard id)) ∪ dirs (fs (os s)))) s)).
Proof.
  intros Hl. apply tidy_step; cbn.
  - set_solver.
  - intros i Hi [[_ Hq]%elem_of_list_to_set%elem_of_prefixes|Hin]%elem_of_union; [|done].
    apply prefix_length in Hq. unfold final_of in Hq. rewrite length_final, length_shard in Hq. lia.
  - done.
  - done.
Qed.

Lemma new_tidy data s :
  layout root (fs (os s)) → tidy nothing (os s) → wp (Put_new root id data) (left_tidy new_chunk) s.
Proof.
  intros Hl Ht. unfold Put_new. apply wp_bind, wp_lift.
  rewrite (ShardDirFor_eq root) by done. apply wp_bind, wp_create_directories.
  - intros _. by apply left_tidy_of.
  - intros _. set (s1 := upd_fs _ s). assert (tidy nothing (os s1)) as Ht1 by (by apply mkdir_tidy).
    assert (layout root (fs (os s1))) as Hl1 by (by apply layout_mkdir).
    assert (shard id ∈ dirset s1) as Hsd.
    { apply elem_of_union_l, elem_of_list_to_set. by eapply shard_in_prefixes. }
    clearbody s1. clear dependent s.
    apply wp_bind, wp_uuid, wp_bind, wp_lift. rewrite (FinalPathFor_eq root) by done. cbn [uuids_drawn].
    set (u := uuid_at _). change (shard_path root (ChunkId.ToHexString id) ++ _) with (tmp_path root (hex_of id) u).
    apply wp_bind, wp_open_create; [set_solver..| | |].
    + intros _. by apply left_tidy_of.
    + intros Hd. match goal with |- wp _ _ ?S2 => set (s2 := S2) end.
      assert (scratch s2 (tmp_path root (hex_of id) u)) as Hsc.
      { split; [done|]. intros i Hi. apply tmp_path_not_final. by rewrite !hex_length. }
      assert (tidy nothing (os s2)) as Ht2.
      { apply (tidy_same nothing (os (upd_fs (with_files (<[tmp_path root (hex_of id) u:=File [] false]>) (fs (os s1))) s1)));
          [done|done|]. apply (scratch_file s1 (tmp_path root (hex_of id) u)); [done| |done].
        intros q Hq. by apply lookup_insert_ne. }
      apply wp_bind. eapply wp_mono; [eapply (file_tidy data _ _ s2 (File [] false))|].
      * exact Hsc.
      * exact (layout_final_dir root _ (hex_of id) Hl1).
      * exact Hsd.
      * apply lookup_insert_eq.
      * apply lookup_insert_eq.
      * exact Ht2.
      * intros [rf|e| |] s3 Ht3; try done. apply wp_bind. destruct rf as [r [n|]]; cbn [snd fst ScopedFd_destroy].
        -- eapply wp_mono; [apply inert_wp; [apply inert_close|exact Ht3]|]. by intros [] s4.
        -- by apply wp_sys_ret.
    + intros _. by apply left_tidy_of.
  - intros msg _. by apply left_tidy_of.
Qed.

Lemma guard_tidy {A} z (m : M Disk A) s :
  (∀ l, wp m (left_tidy new_chunk) (set_held l s)) → tidy nothing (os s) →
  wp (lock_guard z m) (left_tidy new_chunk) s.
Proof.
  intros Hm Ht. apply wp_lock_guard; [by intros|by intros|]. intros _.
  eapply wp_mono; [apply Hm|]. by intros [] s'.
Qed.

Lemma put_tidy data s :
  layout root (fs (os s)) → tidy nothing (os s) → wp (Put root id data) (left_tidy new_chunk) s.
Proof.
  intros Hl Ht. unfold Put. destruct (HashBytes_done data) as (d & -> & _).
  apply wp_bind, wp_lift. case_bool_decide; cbn [negb].
  - apply guard_tidy; [|done]. intros l. apply wp_bind.
    destruct (exists_inert id (set_held l s)) as [Hf Hp]. unfold wp at 1.
    destruct (Exists root id (set_held l s)) as [[ex|e| |] s1]; cbn [fst snd] in *;
      (assert (tidy nothing (os s1)) as Ht1 by (by eapply tidy_same)); [|done|done|by apply left_tidy_of].
    destruct ex; [apply inert_wp; [|done]; apply inert_bind; [apply inert_runtime|intros _; apply inert_ret]|].
    apply new_tidy; [by rewrite Hf|done].
  - apply inert_wp; [|done]. apply inert_bind; [apply inert_runtime|intros _; apply inert_ret].
Qed.

Lemma delete_tidy s : layout root (fs (os s)) → tidy nothing (os s) → wp (Delete root id) (left_tidy new_chunk) s.
Proof.
  intros Hl Ht. apply guard_tidy; [|done]. intros l. apply wp_bind, wp_lift. rewrite (FinalPathFor_eq root) by done.
  apply wp_bind. apply wp_file_size; [intros _; by apply left_tidy_of| |intros msg _; by apply left_tidy_of].
  intros f _. apply wp_bind, wp_remove; [exact (layout_final_dir root _ (hex_of id) Hl)|intros _; by apply left_tidy_of|..].
  - intros f' _. apply inert_wp.
    + apply inert_bind; [done|]. intros _. apply inert_bind; [apply inert_runtime|intros _; apply inert_ret].
    + apply (tidy_file nothing (tick (set_held l s)) (final id)); [exact (layout_final_dir root _ (hex_of id) Hl)| | |done].
      * intros q Hq. by apply lookup_delete_ne.
      * right. right. apply lookup_delete_eq.
  - intros _. by apply left_tidy_of.
  - intros msg _. by apply left_tidy_of.
Qed.

End Writers.

(** The chunk an operation is about to change. *)
Definition op_target (op : op) : option ChunkId.t :=
  match op with OpPut id _ | OpDelete id => Some id | _ => None end.

Definition targeted (op : op) : path → Prop :=
  λ p, match op_target op with Some id => p = final id | None => False end.

Lemma ignore_tidy {A} (m : M Disk A) X s : wp m (left_tidy X) s → wp (ignore m) (left_tidy X) s.
Proof. intros Hm. apply wp_ignore. eapply wp_mono; [exact Hm|]. by intros [] s'. Qed.

Lemma op_tidy op s :
  sync_reliable → op_valid op → healthy root s → tidy nothing (os s) → wp (run_op root op) (left_tidy (targeted op)) s.
Proof.
  intros Hsync Hv [Hl _ _ _] Ht. destruct op as [id data|id|id|id|id| |]; apply ignore_tidy.
  - by apply (put_tidy Hsync id Hv).
  - by apply inert_wp; [apply get_inert|].
  - by apply inert_wp; [apply verify_inert|].
  - by apply (delete_tidy id Hv).
  - by apply inert_wp; [apply exists_inert|].
  - by apply inert_wp; [apply stats_inert|].
  - by apply inert_wp; [apply list_inert|].
Qed.

(** ** Sequences of operations *)

Lemma run_ops_tidy ops s :
  sync_reliable → Forall op_valid ops → healthy root s → intact root (tree s) → tidy nothing (os s) →
  wp (run_ops root ops) (λ out s', match out with
    | Done _ => healthy root s' ∧ intact root (tree s') ∧ tidy nothing (os s')
    | _ => True
    end) s.
Proof.
  intros Hsync Hall. revert s. induction ops as [|op ops IH]; intros s Hs Hi Ht; [by apply wp_ret|].
  apply Forall_cons in Hall as [Hv Hall]. cbn. apply wp_bind. unfold wp at 1, attempt.
  pose proof (op_tidy op s Hsync Hv Hs Ht) as Hw. unfold wp in Hw.
  pose proof (op_effect root op s Hs Hv) as He. unfold wp in He.
  destruct (run_op root op s) as [out s1]. destruct He as [Hch Hout]. cbn [fst snd] in *.
  assert (sound root s1) as [Hl1 Hp1 Hi1]
    by (apply (sound_change root op s s1); [done|done|split; [apply Hs|apply Hs|done]]).
  destruct out; cbn; try done; destruct Hout as (Hh & Hf & Hok);
    (apply IH; [done|split; [done|done|rewrite Hh; apply Hs|done]|done|done]).
Qed.

(** ** Losing power

    As [power_loss], but what was synced survives: a synced file every entry
    on whose path was synced. *)
Definition anchored o (p : path) : Prop := ∀ q, q ∈ prefixes p → q ∉ pending o.

Definition loss o (m' : gmap path file) : Prop :=
  power_loss (files (fs o)) m' ∧
  ∀ p x, files (fs o) !! p = Some x → durable x = true → anchored o p → m' !! p = Some x.

(** The worst case: only what must survive does. *)
Definition worst_loss o : gmap path file :=
  filter (λ px, durable px.2 = true ∧ Forall (λ q, q ∉ pending o) (prefixes px.1)) (files (fs o)).

Lemma worst_loss_is_loss o : loss o (worst_loss o).
Proof.
  split.
  - intros p x [Hx _]%map_lookup_filter_Some. by exists x.
  - intros p x Hx Hd Ha. apply map_lookup_filter_Some. split; [done|]. split; [done|]. by apply Forall_forall.
Qed.

Lemma final_anchored X o id :
  D id → tidy X o → ¬ X (final id) → is_Some (files (fs o) !! final id) → anchored o (final id).
Proof.
  intros Hv [Hr Hs] HX Hx q [Hne [k Hq]]%elem_of_prefixes.
  destruct k as [|y k _] using rev_ind.
  - rewrite app_nil_r in Hq. subst q. by apply Hs.
  - unfold final_of, final_path in Hq. rewrite app_assoc in Hq. apply app_inj_tail in Hq as [Hq _].
    apply (Hr id Hv). apply elem_of_prefixes. split; [done|]. by exists k.
Qed.

(** What there is of the chunks in [D] survives. *)
Lemma tidy_survives s id m' :
  D id → sound root s → tidy nothing (os s) → loss (os s) m' → is_Some (tree s !! final id) → m' !! final id = tree s !! final id.
Proof.
  intros HD Hso Ht [_ Hkeep] [x Hx]. destruct (sound_intact _ _ Hso id x (D_valid id HD) Hx) as [Hdur _].
  rewrite Hx. apply Hkeep; [exact Hx|exact Hdur|]. apply (final_anchored nothing); [done|done|by intros []|by eexists].
Qed.

Lemma op_keeps_others op id s s' :
  op_valid op → ChunkId.valid id → op_target op ≠ Some id → op_change root op s s' →
  tree s' !! final id = tree s !! final id.
Proof.
  intros Hvo Hv Ht [Hf|[(i & data & -> & _ & _ & Hput)|(i & -> & _ & Hdel)]].
  - unfold tree. by rewrite Hf.
  - eapply put_other; [exact Hvo|exact Hv| |exact Hput]. intros ->. by apply Ht.
  - rewrite Hdel. apply lookup_delete_ne. intros E. apply Ht. cbn. f_equal. by eapply final_of_inj.
Qed.

Lemma loss_keeps X op s s' m' id c :
  D id → ¬ X (final id) → op_target op ≠ Some id → op_valid op →
  sound root s' → tidy X (os s') → op_change root op s s' → loss (os s') m' →
  view root s !! ChunkId.ToHexString id = Some c → view root (reboot m' s') !! ChunkId.ToHexString id = Some c.
Proof.
  intros HD HX Ht Hvo Hso Htidy Hch [_ Hkeep]. pose proof (D_valid id HD) as Hv.
  rewrite !view_at by done. rewrite <- (op_keeps_others op id s s') by done.
  destruct (tree s' !! final id) as [x|] eqn:Hx; [|done]. intros [= <-].
  destruct (sound_intact _ _ Hso id x Hv Hx) as [Hdur _].
  assert (tree (reboot m' s') !! final id = Some x) as ->; [|done].
  apply Hkeep; [exact Hx|exact Hdur|]. by eapply final_anchored; [..|by eexists].
Qed.

(** What was acknowledged is durable. Take the chunks in any shard
    directories that exist and have reached the disk. After any sequence of
    completed operations and a further one cut short at any system call by a
    crash, a power loss that destroys everything not synced, contents and
    directory entries, still leaves every one of those chunks that the
    completed operations left in the store, unless the last operation was
    about it; [open] and [fsync] must not have failed ([Put] only warns when
    the directory could not be synced). *)
Theorem chunks_durable (ops : list op) (op : op) (s s1 s2 : Disk) (out : outcome unit) (m' : gmap path file)
  (id : ChunkId.t) (c : list byte) :
  sync_reliable → Forall op_valid ops → op_valid op →
  healthy root s → intact root (tree s) → tidy nothing (os s) →
  run_ops root ops s = (Done tt, s1) → run_op root op s1 = (out, s2) → loss (os s2) m' →
  D id → op_target op ≠ Some id →
  view root s1 !! ChunkId.ToHexString id = Some c → view root (reboot m' s2) !! ChunkId.ToHexString id = Some c.
Proof.
  intros Hsync Hall Hvo Hs Hi Ht E1 E2 Hl HD Hne.
  destruct (wp_run _ _ _ _ _ E1 (run_ops_tidy ops s Hsync Hall Hs Hi Ht)) as (Hs1 & Hi1 & Ht1).
  pose proof (wp_run _ _ _ _ _ E2 (op_tidy op s1 Hsync Hvo Hs1 Ht1)) as Ht2.
  destruct (wp_run _ _ _ _ _ E2 (op_effect root op s1 Hs1 Hvo)) as [Hch _].
  eapply (loss_keeps (targeted op)); try done.
  - unfold targeted. destruct (op_target op) as [i|] eqn:Hop; [|by intros []]. intros Heq. apply Hne. f_equal.
    eapply final_of_inj; [|by apply D_valid|done]. by destruct op; simplify_eq/=.
  - apply (sound_change root op s1 s2); [done|done|split; [apply Hs1|apply Hs1|done]].
  - destruct out; cbn in Ht2; try done; apply (tidy_weaken nothing); try done; by intros p [].
Qed.

End Durability.

(** ** Concrete runs *)

Section Examples.

#[local] Existing Instance toy_evp.
#[local] Existing Instance toy_uuid.
#[local] Existing Instance toy_evp_laws.
#[local] Existing Instance toy_uuid_laws.

(** A store with one chunk, and the same store with everything on disk. *)
Definition a_put : op := OpPut sample_chunk sample_data.

Definition written_disk : Disk := (@run_op toy_evp toy_good toy_uuid ["data"] a_put fresh_disk).2.

Definition all_synced (s : Disk) : Disk := set_os (MkOs (fs (os s)) 0 ∅ 3 ∅) (set_held [] s).

Definition settled_disk : Disk := all_synced written_disk.

Lemma all_synced_sound root s : sound root s → healthy root (all_synced s) ∧ intact root (tree (all_synced s)).
Proof. intros [Hl Hp Hi]. split; [|exact Hi]. split; [exact Hl| |done|exact Hp]. intros n _. apply lookup_empty. Qed.

Lemma written_sound : sound ["data"] written_disk.
Proof.
  pose proof (@op_effect toy_evp toy_good toy_uuid ["data"] toy_evp_laws toy_uuid_laws a_put fresh_disk fresh_healthy sample_chunk_valid) as [Hch _].
  refine (sound_change ["data"] a_put fresh_disk _ sample_chunk_valid Hch _).
  split; [apply fresh_healthy|apply fresh_healthy|exact fresh_intact].
Qed.

Lemma settled_sound : healthy ["data"] settled_disk ∧ intact ["data"] (tree settled_disk).
Proof. exact (all_synced_sound _ _ written_sound). Qed.

Definition the_chunk : ChunkId.t → Prop := λ id, id = sample_chunk.

Lemma the_chunk_valid id : the_chunk id → ChunkId.valid id.
Proof. intros ->. exact sample_chunk_valid. Qed.

Lemma all_synced_tidy s :
  Forall (λ q, q ∈ dirs (fs (os s))) (prefixes (shard_path ["data"] (hex_of sample_chunk))) →
  tidy ["data"] the_chunk nothing (os (all_synced s)).
Proof.
  intros Hall. split.
  - intros id -> q Hq. split; [|apply not_elem_of_empty]. by eapply Forall_forall in Hall.
  - intros id -> _ _. apply not_elem_of_empty.
Qed.

Lemma settled_tidy : tidy ["data"] the_chunk nothing (os settled_disk).
Proof. apply all_synced_tidy. by eapply bool_decide_eq_true_1; vm_compute. Qed.

(** A store without chunks, whose shard directory is on disk. *)
Definition emptied_disk : Disk :=
  all_synced (@run_op toy_evp toy_good toy_uuid ["data"] (OpDelete sample_chunk) settled_disk).2.

Lemma emptied_sound : healthy ["data"] emptied_disk ∧ intact ["data"] (tree emptied_disk).
Proof.
  apply all_synced_sound. destruct settled_sound as [Hh Hi].
  pose proof (@op_effect toy_evp toy_good toy_uuid ["data"] toy_evp_laws toy_uuid_laws (OpDelete sample_chunk) settled_disk
    Hh sample_chunk_valid) as [Hch _].
  refine (sound_change ["data"] (OpDelete sample_chunk) settled_disk _ sample_chunk_valid Hch _).
  split; [apply Hh|apply Hh|exact Hi].
Qed.

Lemma emptied_tidy : tidy ["data"] the_chunk nothing (os emptied_disk).
Proof. apply all_synced_tidy. by eapply bool_decide_eq_true_1; vm_compute. Qed.

(** The machine stops at the first [rename]. *)
Definition crash_at_rename : Platform :=
  {| sys_event n c := if bool_decide (c = SysRename) then EvCrash else EvOk;
     space_available _ := 0%Z; relock := RelockReenters |}.

Lemma crash_at_rename_syncs : @sync_reliable crash_at_rename.
Proof. intros n c msg Hc. cbn. by case_bool_decide. Qed.

Definition other_data : list byte := [x61; x62; x63].
Definition other_chunk : ChunkId.t := ChunkId.FromDigest (toy_digest other_data).

Lemma other_chunk_valid : ChunkId.valid other_chunk.
Proof. apply ChunkId.FromDigest_valid, toy_digest_length. Qed.

(** The chunk is read; then the upload of another chunk is interrupted before
    its rename, and everything that can be lost is lost. *)
Definition completed : list op := [OpGet sample_chunk; OpStats].
Definition interrupted : op := OpPut other_chunk other_data.

Lemma chunks_durable_witness :
  let P := crash_at_rename in
  let r1 := @run_ops toy_evp P toy_uuid ["data"] completed settled_disk in
  let r2 := @run_op toy_evp P toy_uuid ["data"] interrupted r1.2 in
  r1.1 = Done tt ∧ r2.1 = Crashed ∧ size (tree r2.2) = 2 ∧
  view ["data"] (reboot (worst_loss (os r2.2)) r2.2) !! ChunkId.ToHexString sample_chunk = Some sample_data.
Proof.
  intros P r1 r2. assert (r1.1 = Done tt) as E by (by vm_compute).
  split; [exact E|]. split; [by vm_compute|]. split; [by vm_compute|].
  apply (@chunks_durable toy_evp P toy_uuid toy_evp_laws toy_uuid_laws ["data"] the_chunk the_chunk_valid completed interrupted
    settled_disk r1.2 r2.2 r2.1 (worst_loss (os r2.2)) sample_chunk sample_data).
  - exact crash_at_rename_syncs.
  - apply Forall_cons_2; [exact sample_chunk_valid|apply Forall_cons_2; [exact I|exact (Forall_nil_2 _)]].
  - exact other_chunk_valid.
  - exact (proj1 settled_sound).
  - exact (proj2 settled_sound).
  - exact settled_tidy.
  - exact (eq_trans (surjective_pairing r1) (f_equal (λ o, (o, r1.2)) E)).
  - exact (surjective_pairing r2).
  - apply worst_loss_is_loss.
  - exact eq_refl.
  - intros Heq. assert (bool_decide (ChunkId.ToHexString other_chunk = ChunkId.ToHexString sample_chunk) = false) as Hb
      by (by vm_compute). apply bool_decide_eq_false_1 in Hb. exact (Hb (f_equal (from_option ChunkId.ToHexString "") Heq)).
  - by vm_compute.
Defined.

(** The first chunk of a shard is not durable: nothing failed, the file and
    the shard directory are synced and [Put] has returned success, but the
    directory that holds the shard directory was never synced, and the chunk
    may be gone after a power loss. *)
Lemma first_of_shard_not_durable :
  let s1 := (@Put toy_evp toy_good toy_uuid ["data"] sample_chunk sample_data fresh_disk).2 in
  (@Put toy_evp toy_good toy_uuid ["data"] sample_chunk sample_data fresh_disk).1 = Done (Ok tt) ∧
  is_Some (view ["data"] s1 !! ChunkId.ToHexString sample_chunk) ∧
  loss (os s1) (worst_loss (os s1)) ∧
  view ["data"] (reboot (worst_loss (os s1)) s1) !! ChunkId.ToHexString sample_chunk = None.
Proof.
  split; [by vm_compute|]. split; [by eapply bool_decide_eq_true_1; vm_compute|]. split; [apply worst_loss_is_loss|].
  by vm_compute.
Qed.

End Examples.
