(* ===== verification/DiskCounters.v ===== *)
(** * The counters of the store on disk

    [chunk_count_] and [bytes_used_] against the files they count: from the
    constructor's scan on, through every sequence of operations, as long as
    the [exists] query of [Put] is reliable; and what happens when it is not. *)

From S2P Require Import Prelude Result Cxx Sha256 ChunkId Logger IChunkStore Posix LocalDisk DiskRules DiskLayout DiskEffects DiskTheorems DiskContract DiskSafety.
Import LocalDisk.

(** ** Arithmetic of the atomic counters *)

Lemma wrap64_add a b : wrap64 (wrap64 a + b) = wrap64 (a + b).
Proof. unfold wrap64. by rewrite Zplus_mod_idemp_l. Qed.

Lemma wrap64_sub a b : wrap64 (wrap64 a - b) = wrap64 (a - b).
Proof. unfold wrap64. by rewrite Zminus_mod_idemp_l. Qed.

Section Counters.
Context `{Evp, Platform, UuidSource, !EvpLaws, !UuidLaws}.
Variable root : path.
Implicit Types s : Disk.

(** What the counters should say for a tree. *)
Definition counts (m : gmap path file) (c b : Z) : Prop :=
  c = wrap64 (Z.of_nat (size (chunk_files root m))) ∧
  b = wrap64 (Z.of_nat (total_bytes (chunk_files root m))).

Lemma counts_ext m m' c b : (∀ p, counted root p → m' !! p = m !! p) → counts m c b → counts m' c b.
Proof. intros Hm. unfold counts. by rewrite (chunk_files_ext root m m' Hm). Qed.

Lemma counts_insert m p x c b : counted root p → m !! p = None → counts m c b →
  counts (<[p := x]> m) (wrap64 (c + 1)) (wrap64 (b + Z.of_nat (length (content x)))).
Proof.
  intros Hp Hm [-> ->]. unfold counts. rewrite chunk_files_insert by done.
  assert (chunk_files root m !! p = None) as Hn by (by rewrite chunk_files_lookup).
  rewrite map_size_insert_None, total_bytes_insert by done. rewrite !wrap64_add.
  split; f_equal; lia.
Qed.

Lemma counts_delete m p x c b : counted root p → m !! p = Some x → counts m c b →
  counts (delete p m) (wrap64 (c - 1)) (wrap64 (b - Z.of_nat (length (content x)))).
Proof.
  intros Hp Hm [-> ->]. unfold counts. rewrite chunk_files_delete.
  assert (chunk_files root m !! p = Some x) as Hs by (by rewrite chunk_files_lookup).
  rewrite !wrap64_sub, (total_bytes_delete p x _ Hs).
  assert (size (chunk_files root m) = S (size (delete p (chunk_files root m)))) as ->.
  { rewrite map_size_delete_Some by (by eexists). assert (size (chunk_files root m) ≠ 0); [|lia].
    intros Hz%map_size_empty_inv. by rewrite Hz in Hs. }
  split; f_equal; lia.
Qed.

Lemma counters_ok_counts s : counters_ok root s ↔ counts (tree s) (chunk_count_ s) (bytes_used_ s).
Proof. done. Qed.

Lemma quiet_counters s s' : quiet s s' → counters_ok root s → counters_ok root s'.
Proof. intros (_ & _ & _ & Hf & _ & _ & Hc & Hb). unfold counters_ok. by rewrite Hf, Hc, Hb. Qed.

(** ** Operations *)

Definition kept s (out : outcome unit) s' : Prop :=
  match out with Done _ | Throws _ => counters_ok root s' | _ => True end.

Hypothesis exists_reliable : ¬ stat_fault SysExists.

Lemma put_kept id data s :
  healthy root s → ChunkId.valid id → counters_ok root s → wp (run_op root (OpPut id data)) (kept s) s.
Proof.
  intros Hs Hv Hc. apply wp_ignore. destruct (HashBytes_done data) as (d & Hd & _).
  pose proof Hs as [Hlay Hok _ _]. pose proof (healthy_not_held _ _ id Hs) as Hnh.
  destruct (decide (d = ChunkId.RawDigest id)) as [->|Hne].
  - eapply wp_mono; [by apply put_match_effect|]. intros o s' Ho.
    destruct o as [r|e| |]; cbn [match_post] in Ho; [|by eapply quiet_counters; [apply Ho|]|done..].
    destruct Ho as [_ [(_ & _ & Hq)|([Hno|?] & _ & _ & Ho)]]; [by eapply quiet_counters| |done].
    apply counters_ok_counts in Hc. apply counters_ok_counts. destruct r as [u|e].
    + destruct Ho as (Ht & [-> ->] & _). rewrite Ht. unfold published.
      apply (counts_insert _ _ (File data true)); [by apply counted_final|..].
      * rewrite lookup_delete_ne by (by apply tmp_not_final). done.
      * apply (counts_ext (tree s)); [|done]. intros p Hp. apply lookup_delete_ne.
        intros <-. by apply (not_counted_tmp root id s).
    + destruct Ho as (_ & Ht & [-> ->] & _). apply (counts_ext (tree s)); [|done]. intros p Hp.
      eapply delete_lookup_same; [done|]. intros <-. by apply (not_counted_tmp root id s).
  - eapply wp_mono; [by eapply put_mismatch_effect|]. intros o s' (-> & Hq & Hh). by eapply quiet_counters.
Qed.

Lemma delete_kept id s :
  healthy root s → ChunkId.valid id → counters_ok root s → wp (run_op root (OpDelete id)) (kept s) s.
Proof.
  intros Hs Hv Hc. apply wp_ignore. pose proof Hs as [Hlay Hok _ _].
  eapply wp_mono; [by apply delete_effect; [..|apply (healthy_not_held _ _ id Hs)]|].
  intros [[u|e]|e| |] s' Ho; try done; cbn in Ho.
  - destruct Ho as [_ [[Hq _]|(f & Hf & _ & _ & Ht & _ & _ & Hcc & Hbb)]]; [by eapply quiet_counters|].
    apply counters_ok_counts. rewrite Ht, Hcc, Hbb. apply counts_delete; [by apply counted_final|done|done].
  - by eapply quiet_counters; [apply Ho|].
Qed.

Lemma looks_kept {A} (m : M Disk A) s : looks m → counters_ok root s → wp (ignore m) (kept s) s.
Proof.
  intros Hm Hc. apply wp_ignore. unfold wp. destruct (Hm s) as [Hq _].
  destruct ((m s).1); try done; by eapply quiet_counters.
Qed.

Lemma op_kept o s : healthy root s → op_valid o → counters_ok root s → wp (run_op root o) (kept s) s.
Proof.
  intros Hs Hv Hc. pose proof Hs as [Hlay Hok _ _].
  destruct o as [id data|id|id|id|id| |].
  - by apply put_kept.
  - apply wp_ignore. eapply wp_mono; [by apply get_effect; [..|apply (healthy_not_held _ _ id Hs)]|].
    intros [r|e| |] s' Ho; try done. by eapply quiet_counters; [apply Ho|].
  - apply wp_ignore. eapply wp_mono; [by apply verify_effect; [..|apply (healthy_not_held _ _ id Hs)]|].
    intros [r|e| |] s' Ho; try done. destruct Ho as (r' & Ho & _). by eapply quiet_counters; [apply Ho|].
  - by apply delete_kept.
  - apply wp_ignore. eapply wp_mono; [by apply exists_effect|]. intros o s' (Hq & Ho).
    destruct o; try done; by eapply quiet_counters.
  - apply looks_kept; [apply stats_looks|done].
  - apply looks_kept; [apply list_looks|done].
Qed.

Lemma run_ops_kept ops s :
  Forall op_valid ops → healthy root s → intact root (tree s) → counters_ok root s →
  wp (run_ops root ops) (kept s) s.
Proof.
  revert s. induction ops as [|o ops IH]; intros s Hall Hs Hi Hc; [done|].
  apply Forall_cons in Hall as [Hv Hall]. cbn. apply wp_bind. unfold wp at 1, attempt.
  pose proof (op_kept o s Hs Hv Hc) as Hk. pose proof (op_effect root o s Hs Hv) as Hw. unfold wp in Hk, Hw.
  destruct (run_op root o s) as [out s1]. destruct Hw as [Hch Hout]. cbn [fst snd] in *.
  assert (sound root s1) as [Hl1 Hp1 Hi1]
    by (apply (sound_change root o s s1); [done|done|split; [apply Hs|apply Hs|done]]).
  assert (given_back s s1 → healthy root s1) as Hs1.
  { intros (Hh & _ & Hok). split; [done|done|rewrite Hh; apply Hs|done]. }
  destruct out; cbn; try done; apply IH; auto.
Qed.

End Counters.

(** ** The constructor's scan *)

Section Scan.
Context `{Evp, Platform, UuidSource}.
Variable root : path.
Implicit Types s : Disk.

Lemma chunk_files_list (m : gmap path file) :
  map_to_list (chunk_files root m) ≡ₚ filter (λ pf, counted root pf.1) (map_to_list m).
Proof.
  apply NoDup_Permutation; [apply NoDup_map_to_list|apply NoDup_filter, NoDup_map_to_list|].
  intros [p x]. unfold chunk_files.
  rewrite list_elem_of_filter, !elem_of_map_to_list, map_lookup_filter_Some. cbn. tauto.
Qed.

Definition bytes_of (l : list (path * file)) : nat := sum_list_with (λ pf, length (content pf.2)) l.

Lemma total_bytes_list m : total_bytes m = bytes_of (map_to_list m).
Proof.
  unfold total_bytes, bytes_of. rewrite map_fold_foldr.
  induction (map_to_list m) as [|[p x] l IH]; cbn; [done|]. by rewrite IH.
Qed.

Lemma bytes_of_perm l l' : l ≡ₚ l' → bytes_of l = bytes_of l'.
Proof. unfold bytes_of. by intros ->. Qed.

(** The entries the scan counts. *)
Definition scanned (entries : list (path * file)) : list (path * file) :=
  filter (λ pf, is_chunk pf.1 = true) entries.

Lemma scanned_below f :
  scanned (below root f) ≡ₚ map_to_list (chunk_files root (files f)).
Proof.
  rewrite chunk_files_list. unfold scanned, below, counted.
  rewrite list_filter_filter. apply reflexive_eq, list_filter_iff. tauto.
Qed.

Lemma CountLoop_scan entries c b s :
  (∀ p x, (p, x) ∈ entries → tree s !! p = Some x) →
  wp (CountLoop entries (wrap64 c) (wrap64 b)) (λ o s', quiet s s' ∧ held s' = held s ∧
    match o with
    | Done cb => cb = (wrap64 (c + Z.of_nat (length (scanned entries))),
                       wrap64 (b + Z.of_nat (bytes_of (scanned entries))))
    | Throws _ => stat_fault SysFileSize
    | Blocks => False
    | Crashed => True
    end) s.
Proof.
  revert c b s. induction entries as [|[p x] l IH]; intros c b s Hin; cbn [CountLoop].
  - apply wp_ret. split; [done|]. split; [done|]. cbn. by rewrite !Z.add_0_r.
  - unfold scanned in *. rewrite filter_cons. cbn.
    destruct (is_chunk p) eqn:Hp; [rewrite decide_True by done|rewrite decide_False by done].
    2: { apply IH. intros q y Hq. apply Hin. by right. }
    apply wp_bind, wp_file_size.
    + done.
    + intros f Hf. assert (f = x) as ->.
      { assert (tree s !! p = Some x) as Hx by (apply Hin; by left). unfold tree in Hx. congruence. }
      rewrite !wrap64_add. eapply wp_mono; [apply IH; intros q y Hq; by apply Hin; right|].
      intros o s' (Hq & Hh & Ho). split; [exact Hq|]. split; [exact Hh|].
      destruct o as [cb| | |]; try done. rewrite Ho. unfold bytes_of. cbn [length sum_list_with snd]. f_equal; f_equal; lia.
    + intros msg Hbad. apply wp_lift. split; [done|]. split; [done|]. destruct Hbad as [Hno|Hf].
      * assert (tree s !! p = Some x) as Hx by (apply Hin; by left). unfold tree in Hx. congruence.
      * by eapply failed_stat.
Qed.

End Scan.

(** ** Theorems *)

Section Theorems.
Context `{Evp, Platform, UuidSource, !EvpLaws, !UuidLaws}.
Variable root : path.

Lemma ctor_counts (s : Disk) :
  healthy root s →
  wp (LocalDiskChunkStore root) (λ o s', fs (os s') = fs (os s) ∧
    match o with
    | Done _ => counters_ok root s' ∧ healthy root s' ∧ fds (os s') = fds (os s)
    | Throws _ => io_fault
    | Blocks => False
    | Crashed => True
    end) s.
Proof.
  intros Hs. pose proof Hs as [Hlay Hok _ _]. unfold LocalDiskChunkStore. apply wp_bind.
  assert (path_exists (fs (os s)) root = true) as Hroot.
  { unfold path_exists. rewrite orb_true_iff. right. apply bool_decide_eq_true.
    apply (layout_root _ _ Hlay). apply elem_of_prefixes. split; [by apply (layout_nonempty _ _ Hlay)|done]. }
  apply wp_bind, wp_exists; [done| |].
  2: { intros msg Hf. apply wp_lift. split; [done|]. by eapply failed_fault. }
  rewrite Hroot. apply wp_ret. apply wp_bind, wp_bind. unfold iterate_or_throw. apply wp_bind.
  apply wp_sys_call; [done|]. intros e He Hne. cbn in He.
  assert (∀ s1, quiet s s1 → held s1 = held s →
    wp (CountLoop (below root (fs (os s1))) 0 0) (λ o s', match o with
      | Done cb => wp (modify (set_counters cb.1 cb.2)) (λ o s', fs (os s') = fs (os s) ∧
          match o with
          | Done _ => counters_ok root s' ∧ healthy root s' ∧ fds (os s') = fds (os s)
          | Throws _ => io_fault | Blocks => False | Crashed => True end) s'
      | Throws e => fs (os s') = fs (os s) ∧ io_fault
      | Blocks => False
      | Crashed => fs (os s') = fs (os s)
      end) s1) as Hscan.
  { intros s1 Hq1 Hh1. eapply wp_mono.
    - change 0%Z with (wrap64 0). apply (CountLoop_scan _ _ _ s1). intros p x.
      unfold below. rewrite list_elem_of_filter, elem_of_map_to_list. by intros [_ ?].
    - intros o s2 (Hq2 & Hh2 & Ho). assert (quiet s s2) as Hq by (by etrans).
      pose proof (quiet_fs _ _ Hq) as Hf. destruct o as [cb|e'| |]; [|split; [done|]|done|done].
      + subst cb. apply wp_modify. split; [done|]. split_and!.
        * rewrite !Z.add_0_l. unfold counters_ok. cbn. rewrite (bytes_of_perm _ _ (scanned_below root _)).
          rewrite (Permutation_length (scanned_below root _)), length_map_to_list, total_bytes_list.
          by rewrite Hf, (quiet_fs _ _ Hq1).
        * destruct (quiet_healthy root s s2 Hq ltac:(congruence) Hs) as [? ? ? ?]. by split.
        * apply Hq.
      + destruct Ho as (n & msg & Hm). exists n, SysFileSize. by rewrite Hm. }
  destruct e as [|msg|n|]; try done; cbn.
  - apply wp_sys_gets, wp_ret. eapply wp_mono; [by apply Hscan|]. by intros [] ?.
  - apply wp_sys_ret, wp_lift. split; [done|]. exists (S (now (os s))), SysIterate. by rewrite He.
  - apply wp_sys_gets, wp_ret. eapply wp_mono; [by apply Hscan|]. by intros [] ?.
Qed.

(** C22: The statistics are exact (modulo 2^64), provided that the [exists]
    query does not fail: from the constructor's scan of a well-formed, intact
    tree on, after any sequence of operations by one thread that run to their
    end, whatever other calls of the system failed, [GetStats] reports the
    number of chunk files below the root and the sum of their sizes. (After a
    failing [exists] they need not be: [Put] writes and counts a chunk that is
    there a second time.) *)
Theorem stats_exact (ops : list op) (s s1 s2 s3 : Disk) (st : ChunkStoreStats) :
  ¬ stat_fault SysExists → healthy root s → intact root (tree s) → Forall op_valid ops →
  LocalDiskChunkStore root s = (Done tt, s1) → run_ops root ops s1 = (Done tt, s2) →
  GetStats root s2 = (Done st, s3) →
  chunk_count st = wrap64 (Z.of_nat (size (chunk_files root (tree s2)))) ∧
  bytes_used st = wrap64 (Z.of_nat (total_bytes (chunk_files root (tree s2)))).
Proof.
  intros Hst Hs Hi Hall E1 E2 E3.
  destruct (wp_run _ _ _ _ _ E1 (ctor_counts s Hs)) as (Hf & Hc1 & Hs1 & _).
  assert (intact root (tree s1)) as Hi1 by (unfold tree; by rewrite Hf).
  pose proof (wp_run _ _ _ _ _ E2 (run_ops_kept root Hst ops s1 Hall Hs1 Hi1 Hc1)) as Hc2.
  assert (chunk_count st = chunk_count_ s2 ∧ bytes_used st = bytes_used_ s2) as [-> ->]; [|done].
  unfold GetStats, gets, sys, zoom, fs_space, syscall, mbind, M_bind, mret, M_ret, gets in E3.
  destruct (sys_event (now (os s2)) SysSpace); cbn in E3; by simplify_eq.
Qed.

(** When the [file_size] query of [Delete] fails, for whatever reason,
    [Delete] reports success and the chunk stays. *)
Theorem Delete_ok_without_deleting (id : ChunkId.t) (s : Disk) (msg : string) :
  healthy root s → ChunkId.valid id → sys_event (now (os s)) SysFileSize = EvFail msg →
  ∃ s', Delete root id s = (Done (Ok tt), s') ∧ view root s' = view root s.
Proof.
  intros Hs Hv He. pose proof (healthy_not_held _ _ id Hs) as Hnh.
  unfold Delete, lock_guard, lock, state, scoped, lift, unlock, modify, sys, zoom, fs_file_size, syscall.
  unfold mbind, M_bind, mret, M_ret. rewrite bool_decide_false by done. cbn -[FinalPathFor].
  rewrite FinalPathFor_eq by done. cbn. rewrite He. cbn. by eexists.
Qed.

End Theorems.

Definition drift_platform : Platform := toy_platform (λ c, bool_decide (c = SysExists)) (EvFail "stale handle") RelockReenters.

(** The counters drift: when the [exists] query fails on a chunk that is
    there, [Put] writes it again, reports success and counts it again. *)
Theorem counters_drift :
  let put := @Put toy_evp drift_platform toy_uuid ["data"] sample_chunk sample_data in
  let s := (put ≫= λ _, put) fresh_disk in
  s.1 = Done (Ok tt) ∧ chunk_count_ s.2 = 2%Z ∧ size (chunk_files ["data"] (tree s.2)) = 1.
Proof. by vm_compute. Qed.

Definition sample_ops : list op :=
  [OpPut sample_chunk sample_data; OpPut sample_chunk sample_data; OpDelete sample_chunk;
   OpGet sample_chunk; OpPut sample_chunk sample_data; OpStats].

Lemma sample_ops_all_valid : Forall op_valid sample_ops.
Proof.
  repeat (apply Forall_cons_2; [first [exact sample_chunk_valid|exact I]|]). exact (Forall_nil_2 _).
Qed.

Lemma run_ends {A} (m : M Disk A) s o : (m s).1 = o → m s = (o, (m s).2).
Proof. intros <-. apply surjective_pairing. Qed.

Lemma toy_no_exists_fault : ¬ @stat_fault toy_good SysExists.
Proof. by intros (n & msg & Hm). Qed.

Lemma stats_exact_witness :
  let s1 := (@LocalDiskChunkStore toy_good ["data"] fresh_disk).2 in
  let s2 := (@run_ops toy_evp toy_good toy_uuid ["data"] sample_ops s1).2 in
  (@GetStats toy_good ["data"] s2).1 = Done (Stats 1 2 1000000) ∧
  1%Z = wrap64 (Z.of_nat (size (chunk_files ["data"] (tree s2)))) ∧
  2%Z = wrap64 (Z.of_nat (total_bytes (chunk_files ["data"] (tree s2)))).
Proof.
  intros s1 s2. split; [vm_compute; reflexivity|].
  refine (@stats_exact toy_evp toy_good toy_uuid toy_evp_laws toy_uuid_laws ["data"] sample_ops fresh_disk s1 s2 _
    (Stats 1 2 1000000) toy_no_exists_fault fresh_healthy fresh_intact sample_ops_all_valid
    (run_ends _ _ _ _) (run_ends _ _ _ _) (run_ends _ _ _ _)); vm_compute; reflexivity.
Defined.

Lemma Delete_ok_without_deleting_witness :
  let P := toy_platform (λ c, bool_decide (c = SysFileSize)) (EvFail "stale handle") RelockReenters in
  ∃ s', @Delete P ["data"] sample_chunk fresh_disk = (Done (Ok tt), s') ∧ view ["data"] s' = view ["data"] fresh_disk.
Proof.
  exact (@Delete_ok_without_deleting toy_evp (toy_platform (λ c, bool_decide (c = SysFileSize)) (EvFail "stale handle") RelockReenters)
    toy_uuid toy_evp_laws toy_uuid_laws ["data"] sample_chunk fresh_disk "stale handle" fresh_healthy sample_chunk_valid eq_refl).
Defined.
