(* ===== verification/Programs.v ===== *)
(** * Threads as programs

    What a thread executes, cut into its atomic actions: a system call, an
    access to an atomic counter, a log line, the drawing of a UUID, taking and
    releasing a stripe, a message on a stream. A program is a tree of actions;
    the operations of [LocalDisk] are written a second time as programs, and run
    by one thread alone they are the operations of [LocalDisk]. *)

From S2P Require Import Prelude Result Cxx Sha256 ChunkId Logger IChunkStore Posix LocalDisk.

(** ** Programs

    After an action the program goes on with its result ([k]) or with the
    exception it threw ([h]). [Lock] is an action of its own because whether
    it can be taken depends on the other threads, [Await] because it takes
    the other side of a stream: a message has to come in, or to be taken. *)
Inductive prog (A : Type) : Type :=
  | Ret (a : A)
  | Raise (e : exn)
  | Act {B : Type} (m : M LocalDisk.Disk B) (k : B → prog A) (h : exn → prog A)
  | Lock (z : Z) (k : prog A) (h : exn → prog A)
  | Await (k : prog A).
Arguments Ret {A}.
Arguments Raise {A}.
Arguments Act {A B}.
Arguments Lock {A}.
Arguments Await {A}.

Fixpoint bind {A B} (p : prog A) (f : A → prog B) : prog B :=
  match p with
  | Ret a => f a
  | Raise e => Raise e
  | Act m k h => Act m (λ b, bind (k b) f) (λ e, bind (h e) f)
  | Lock z k h => Lock z (bind k f) (λ e, bind (h e) f)
  | Await k => Await (bind k f)
  end.

#[export] Instance prog_ret : MRet prog := @Ret.
#[export] Instance prog_bind : MBind prog := λ A B f p, bind p f.

Definition act {A} (m : M LocalDisk.Disk A) : prog A := Act m Ret Raise.

(** A call of [Read], [Write] or [Finish]. *)
Definition message_passes : prog unit := Await (Ret tt).

(** A block with a destructor, as [Prelude.scoped]. *)
Fixpoint protect {A} (fin : prog unit) (p : prog A) : prog A :=
  match p with
  | Ret a => bind fin (λ _, Ret a)
  | Raise e => bind fin (λ _, Raise e)
  | Act m k h => Act m (λ b, protect fin (k b)) (λ e, protect fin (h e))
  | Lock z k h => Lock z (protect fin k) (λ e, protect fin (h e))
  | Await k => Await (protect fin k)
  end.

(** At most [n] actions, messages not counted. *)
Fixpoint within {A} (n : nat) (p : prog A) {struct p} : Prop :=
  match p with
  | Ret _ | Raise _ => True
  | Act m k h => match n with O => False | S n' => (∀ b, within n' (k b)) ∧ (∀ e, within n' (h e)) end
  | Lock z k h => match n with O => False | S n' => within n' k ∧ (∀ e, within n' (h e)) end
  | Await k => within n k
  end.

Lemma within_mono {A} n n' (p : prog A) : within n p → n ≤ n' → within n' p.
Proof.
  revert n n'. induction p as [a|e|B m k IHk h IHh|z k IHk h IHh|k IHk]; intros n n' Hp Hn; [exact I|exact I|..|by eapply IHk].
  - destruct n as [|n]; [destruct Hp|]. destruct n' as [|n']; [lia|]. destruct Hp as [Hk Hh].
    split; [intros b; eapply IHk|intros e; eapply IHh]; try done; lia.
  - destruct n as [|n]; [destruct Hp|]. destruct n' as [|n']; [lia|]. destruct Hp as [Hk Hh].
    split; [eapply IHk|intros e; eapply IHh]; try done; lia.
Qed.

Lemma within_bind {A B} n m (p : prog A) (f : A → prog B) :
  within n p → (∀ a, within m (f a)) → within (n + m) (p ≫= f).
Proof.
  intros Hp Hf. unfold mbind, prog_bind. revert n Hp.
  induction p as [a|e|B' a k IHk h IHh|z k IHk h IHh|k IHk]; intros n Hp; cbn.
  - eapply within_mono; [apply Hf|lia].
  - done.
  - destruct n as [|n]; [done|]. destruct Hp as [Hk Hh]. split; intros ?; [by apply IHk|by apply IHh].
  - destruct n as [|n]; [done|]. destruct Hp as [Hk Hh]. split; [by apply IHk|]. intros ?. by apply IHh.
  - by apply IHk.
Qed.

Lemma within_protect {A} n m (fin : prog unit) (p : prog A) :
  within m fin → within n p → within (n + m) (protect fin p).
Proof.
  intros Hf. revert n. induction p as [a|e|B' a k IHk h IHh|z k IHk h IHh|k IHk]; intros n Hp; cbn.
  - change (within (n + m) (fin ≫= λ _, Ret a)). eapply within_mono; [eapply (within_bind m 0); [done|by intros]|lia].
  - change (within (n + m) (fin ≫= λ _, @Raise A e)). eapply within_mono; [eapply (within_bind m 0); [done|by intros]|lia].
  - destruct n as [|n]; [done|]. destruct Hp as [Hk Hh]. split; intros ?; [by apply IHk|by apply IHh].
  - destruct n as [|n]; [done|]. destruct Hp as [Hk Hh]. split; [by apply IHk|]. intros ?. by apply IHh.
  - by apply IHk.
Qed.

(** No messages. *)
Fixpoint mute {A} (p : prog A) {struct p} : Prop :=
  match p with
  | Ret _ | Raise _ => True
  | Act m k h => (∀ b, mute (k b)) ∧ (∀ e, mute (h e))
  | Lock z k h => mute k ∧ (∀ e, mute (h e))
  | Await k => False
  end.

Lemma mute_bind {A B} (p : prog A) (f : A → prog B) : mute p → (∀ a, mute (f a)) → mute (p ≫= f).
Proof.
  intros Hp Hf. unfold mbind, prog_bind. revert Hp.
  induction p as [a|e|B' m k IHk h IHh|z k IHk h IHh|k IHk]; cbn; [by auto|done|..|done];
    intros [Hk Hh]; split; auto.
Qed.

(** Counts the actions on every path of a program. *)
Ltac count :=
  repeat first
    [ progress cbn
    | done
    | match goal with
      | |- _ ∧ _ => split
      | |- ∀ _, _ => intros ?
      | |- context [match ?x with _ => _ end] => destruct x
      end ].

(** ** Equality of computations, state by state *)

Definition same_run {S A} (m m' : M S A) : Prop := ∀ s, m s = m' s.

#[export] Instance same_run_equivalence {S A} : Equivalence (@same_run S A).
Proof. split; [by intros m s|by intros m m' E s|]. intros m m' m'' E E' s. by rewrite E. Qed.

#[export] Instance same_run_bind {S A B} :
  Proper (pointwise_relation A same_run ==> same_run ==> same_run) (@mbind (M S) _ A B).
Proof.
  intros f f' Hf m m' Hm s. unfold mbind, M_bind. rewrite (Hm s).
  destruct (m' s) as [[a| | |] s']; [apply Hf|done..].
Qed.

#[export] Instance same_run_scoped {S A} : Proper (same_run ==> same_run ==> same_run) (@scoped S A).
Proof.
  intros fin fin' Hf m m' Hm s. unfold scoped. rewrite (Hm s). unfold mbind, M_bind.
  destruct (m' s) as [[a|e| |] s']; try done; by rewrite (Hf s').
Qed.

(** ** One thread alone *)

Section Run.
Context `{Platform}.

Fixpoint run {A} (p : prog A) : M LocalDisk.Disk A := λ s,
  match p with
  | Ret a => (Done a, s)
  | Raise e => (Throws e, s)
  | Act m k h =>
      match m s with
      | (Done b, s') => run (k b) s'
      | (Throws e, s') => run (h e) s'
      | (Blocks, s') => (Blocks, s')
      | (Crashed, s') => (Crashed, s')
      end
  | Lock z k h =>
      match LocalDisk.lock z s with
      | (Done _, s') => run k s'
      | (Throws e, s') => run (h e) s'
      | (Blocks, s') => (Blocks, s')
      | (Crashed, s') => (Crashed, s')
      end
  | Await k => run k s
  end.

Lemma run_bind {A B} (p : prog A) (f : A → prog B) :
  same_run (run (p ≫= f)) (run p ≫= λ a, run (f a)).
Proof.
  unfold mbind at 1, prog_bind. intros s. revert s.
  induction p as [a|e|B' m k IHk h IHh|z k IHk h IHh|k IHk]; intros s; [done|done|..];
    cbn; unfold mbind, M_bind; cbn.
  - destruct (m s) as [[b|e| |] s']; [apply IHk|apply IHh|done|done].
  - destruct (LocalDisk.lock z s) as [[b|e| |] s']; [apply IHk|apply IHh|done|done].
  - apply IHk.
Qed.

Lemma run_act {A} (m : M LocalDisk.Disk A) : same_run (run (act m)) m.
Proof. intros s. cbn. by destruct (m s) as [[] s']. Qed.

Lemma run_protect {A} (fin : prog unit) (p : prog A) :
  same_run (run (protect fin p)) (scoped (run fin) (run p)).
Proof.
  intros s. revert s. induction p as [a|e|B' m k IHk h IHh|z k IHk h IHh|k IHk]; intros s; cbn.
  - exact (run_bind fin (λ _, Ret a) s).
  - exact (run_bind fin (λ _, Raise e) s).
  - unfold scoped. cbn. destruct (m s) as [[b|e| |] s']; [apply IHk|apply IHh|done|done].
  - unfold scoped. cbn. destruct (LocalDisk.lock z s) as [[b|e| |] s']; [apply IHk|apply IHh|done|done].
  - apply IHk.
Qed.

End Run.

(** ** The operations of the disk store *)

Module Threaded.
Import LocalDisk.

Local Open Scope Z_scope.

Section Threaded.
Context `{Evp, Platform, UuidSource}.
Variable data_root_ : path.

Definition lock_guard {A} (stripe : Z) (body : prog A) : prog A :=
  Lock stripe (protect (act (unlock stripe)) body) Raise.

Definition Exists (id : ChunkId.t) : prog bool :=
  lock_guard (LockFor id) (
    final_path ← act (lift (FinalPathFor data_root_ id));
    r ← act (sys (fs_exists final_path));
    mret (match r with inl b => b | inr _ => false end)).

(** Two atomic variables, each updated by itself. *)
Definition fetch_add_count : M Disk unit :=
  modify (λ s, set_counters (wrap64 (chunk_count_ s + 1)) (bytes_used_ s) s).
Definition fetch_add_bytes (size : Z) : M Disk unit :=
  modify (λ s, set_counters (chunk_count_ s) (wrap64 (bytes_used_ s + size)) s).
Definition fetch_sub_count : M Disk unit :=
  modify (λ s, set_counters (wrap64 (chunk_count_ s - 1)) (bytes_used_ s) s).
Definition fetch_sub_bytes (size : Z) : M Disk unit :=
  modify (λ s, set_counters (chunk_count_ s) (wrap64 (bytes_used_ s - size)) s).

Definition Put_publish (id : ChunkId.t) (data : list byte) (shard_dir tmp_path final_path : path) :
  prog (Result unit ChunkStoreErrorDetail) :=
  r ← act (sys (fs_rename tmp_path final_path));
  match r with
  | inr _ =>
      act (sys (fs_remove tmp_path));;
      mret (IoErr "Failed to atomically rename chunk file")
  | inl _ =>
      dir_fd ← act (sys (internal_open shard_dir [O_RDONLY; O_DIRECTORY; O_CLOEXEC]));
      (match dir_fd with
       | Some d =>
           synced ← act (sys (internal_fsync d));
           if negb synced then act (Warn ("Failed to fsync directory " +:+ path_string shard_dir)) else mret tt
       | None => act (Warn ("Failed to open directory for fsync " +:+ path_string shard_dir))
       end);;
      act fetch_add_count;;
      act (fetch_add_bytes (Z.of_nat (length data)));;
      act (Debug ("Successfully wrote chunk " +:+ ChunkId.ToHexString id));;
      act (sys (ScopedFd_destroy dir_fd));;
      mret (Ok tt)
  end.

Definition Put_file (id : ChunkId.t) (data : list byte) (shard_dir tmp_path final_path : path) (fd : nat) :
  prog (Result unit ChunkStoreErrorDetail * ScopedFd) :=
  written ← (match data with
             | [] => mret (Some 0%nat)
             | _ => act (sys (sys_write fd data))
             end);
  if negb (bool_decide (written = Some (length data))) then
    act (sys (fs_remove tmp_path));;
    mret (IoErr "Failed to write chunk data", Some fd)
  else
    synced ← act (sys (internal_fsync fd));
    if negb synced then
      act (sys (fs_remove tmp_path));;
      mret (IoErr "Failed to fsync temporary file", Some fd)
    else
      let '(n, released) := ScopedFd_release (Some fd) in
      (match n with Some n => act (sys (sys_close n)) | None => mret tt end);;
      r ← Put_publish id data shard_dir tmp_path final_path;
      mret (r, released).

Definition Put_new (id : ChunkId.t) (data : list byte) : prog (Result unit ChunkStoreErrorDetail) :=
  shard_dir ← act (lift (ShardDirFor data_root_ id));
  r ← act (sys (fs_create_directories shard_dir));
  match r with
  | inr msg => mret (IoErr ("Failed to create shard directory: " +:+ msg))
  | inl _ =>
      uuid ← act GenerateUuidV4;
      let tmp_path := shard_dir ++ [ChunkId.ToHexString id +:+ ".tmp." +:+ uuid] in
      final_path ← act (lift (FinalPathFor data_root_ id));
      fd ← act (sys (internal_open tmp_path [O_WRONLY; O_CREAT; O_TRUNC; O_CLOEXEC]));
      match fd with
      | None => mret (IoErr "Failed to open temporary file for write")
      | Some n =>
          rf ← Put_file id data shard_dir tmp_path final_path n;
          act (sys (ScopedFd_destroy rf.2));;
          mret rf.1
      end
  end.

Definition Put (id : ChunkId.t) (data : list byte) : prog (Result unit ChunkStoreErrorDetail) :=
  actual_hash ← act (lift (HashBytes data));
  if negb (bool_decide (actual_hash = ChunkId.RawDigest id)) then
    act (LogError ("ChecksumMismatch on Put for chunk " +:+ ChunkId.ToHexString id));;
    mret (Err (Detail ChecksumMismatch "Provided chunk data does not match the ChunkId"))
  else
    lock_guard (LockFor id) (
      ex ← Exists id;
      if (ex : bool) then
        act (Debug ("Chunk already exists, deduplicating: " +:+ ChunkId.ToHexString id));;
        mret (Ok tt)
      else Put_new id data).

Definition Get_read (id : ChunkId.t) (file_size : nat) (fd : nat) :
  prog (Result (list byte) ChunkStoreErrorDetail) :=
  bytes_read ← (if (0 <? file_size)%nat then act (sys (sys_read fd file_size)) else mret (Some []));
  match bytes_read with
  | Some data =>
      if negb (length data =? file_size)%nat then mret (IoErr "Failed to read full chunk file")
      else
        actual_hash ← act (lift (HashBytes data));
        if negb (bool_decide (actual_hash = ChunkId.RawDigest id)) then
          act (LogError ("CorruptionDetected for chunk " +:+ ChunkId.ToHexString id));;
          mret (Err (Detail CorruptionDetected "Chunk data on disk does not match its ID"))
        else
          act (Debug ("Successfully read chunk " +:+ ChunkId.ToHexString id));;
          mret (Ok data)
  | None => mret (IoErr "Failed to read full chunk file")
  end.

Definition Get (id : ChunkId.t) : prog (Result (list byte) ChunkStoreErrorDetail) :=
  lock_guard (LockFor id) (
    final_path ← act (lift (FinalPathFor data_root_ id));
    r ← act (sys (fs_file_size final_path));
    match r with
    | inr _ => mret (Err (Detail NotFound "Chunk file not found or inaccessible"))
    | inl file_size =>
        fd ← act (sys (internal_open final_path [O_RDONLY; O_CLOEXEC]));
        match fd with
        | None => mret (IoErr "Failed to open chunk file for read")
        | Some n => protect (act (sys (ScopedFd_destroy (Some n)))) (Get_read id file_size n)
        end
    end).

Definition VerifyOnly (id : ChunkId.t) : prog (Result unit ChunkStoreErrorDetail) :=
  res ← Get id;
  mret (match res with Err e => Err e | Ok _ => Ok tt end).

Definition Delete (id : ChunkId.t) : prog (Result unit ChunkStoreErrorDetail) :=
  lock_guard (LockFor id) (
    final_path ← act (lift (FinalPathFor data_root_ id));
    r ← act (sys (fs_file_size final_path));
    match r with
    | inr _ => mret (Ok tt)
    | inl size_before =>
        r ← act (sys (fs_remove final_path));
        match r with
        | inl true =>
            act fetch_sub_count;;
            act (fetch_sub_bytes (Z.of_nat size_before));;
            act (Debug ("Successfully deleted chunk " +:+ ChunkId.ToHexString id));;
            mret (Ok tt)
        | inl false => mret (IoErr "Failed to delete chunk file: Success")
        | inr msg => mret (IoErr ("Failed to delete chunk file: " +:+ msg))
        end
    end).

(** Two loads of atomic variables. *)
Definition GetStats : prog ChunkStoreStats :=
  r ← act (sys (fs_space data_root_));
  count ← act (gets chunk_count_);
  bytes ← act (gets bytes_used_);
  mret (Stats count bytes (match r with inl free => free | inr _ => 0 end)).

(** ** One thread alone runs the operations of [LocalDisk] *)

Lemma run_add n (p : prog (Result unit ChunkStoreErrorDetail)) m :
  same_run (run p) m →
  same_run (run (act fetch_add_count;; act (fetch_add_bytes n);; p)) (fetch_add_counters n;; m).
Proof. intros Hp s. cbn. by rewrite (Hp _). Qed.

Lemma run_sub n (p : prog (Result unit ChunkStoreErrorDetail)) m :
  same_run (run p) m →
  same_run (run (act fetch_sub_count;; act (fetch_sub_bytes n);; p)) (fetch_sub_counters n;; m).
Proof. intros Hp s. cbn. by rewrite (Hp _). Qed.

(** Goes through a program and the computation it stands for, side by side. *)
Ltac alone :=
  repeat match goal with
  | |- same_run (run (act _)) _ => apply run_act
  | |- same_run (run (mret _)) _ => intros ?; reflexivity
  | |- same_run (run (protect _ _)) _ => etransitivity; [apply run_protect|]; apply same_run_scoped
  | |- same_run (run (mbind _ (act fetch_add_count))) _ => apply run_add
  | |- same_run (run (mbind _ (act fetch_sub_count))) _ => apply run_sub
  | |- same_run (run (mbind _ (act _))) (mbind _ _) =>
      etransitivity; [apply run_bind|]; apply same_run_bind; [intros ?|apply run_act]
  | |- same_run (run (mbind _ _)) (mbind _ _) =>
      etransitivity; [apply run_bind|]; apply same_run_bind; [intros ?|]
  | |- same_run (run (match ?x with _ => _ end)) _ => destruct x
  | |- same_run (run ?p) ?m => progress cbn [fst snd ScopedFd_release]
  end.

Lemma run_lock_guard {A} z (p : prog A) (m : M Disk A) :
  same_run (run p) m → same_run (run (lock_guard z p)) (LocalDisk.lock_guard z m).
Proof.
  intros Hp s. unfold LocalDisk.lock_guard, mbind, M_bind. cbn.
  destruct (lock z s) as [[u|e| |] s']; try done.
  etransitivity; [apply run_protect|]. apply same_run_scoped; [apply run_act|done].
Qed.

Lemma run_Exists id : same_run (run (Exists id)) (LocalDisk.Exists data_root_ id).
Proof. apply run_lock_guard. alone. Qed.

Lemma run_Put_publish id data d t f :
  same_run (run (Put_publish id data d t f)) (LocalDisk.Put_publish id data d t f).
Proof. unfold Put_publish, LocalDisk.Put_publish. alone. Qed.

Lemma run_Put_file id data d t f fd :
  same_run (run (Put_file id data d t f fd)) (LocalDisk.Put_file id data d t f fd).
Proof. pose proof (run_Put_publish id data d t f). unfold Put_file, LocalDisk.Put_file. alone. done. Qed.

Lemma run_Put_new id data : same_run (run (Put_new id data)) (LocalDisk.Put_new data_root_ id data).
Proof. unfold Put_new, LocalDisk.Put_new. alone. apply run_Put_file. Qed.

Lemma run_Put id data : same_run (run (Put id data)) (LocalDisk.Put data_root_ id data).
Proof.
  unfold Put, LocalDisk.Put. alone. apply run_lock_guard.
  etransitivity; [apply run_bind|]. apply same_run_bind; [intros []|apply run_Exists]; [alone|apply run_Put_new].
Qed.

Lemma run_Get_read id n fd : same_run (run (Get_read id n fd)) (LocalDisk.Get_read id n fd).
Proof. unfold Get_read, LocalDisk.Get_read. alone. Qed.

Lemma run_Get id : same_run (run (Get id)) (LocalDisk.Get data_root_ id).
Proof. apply run_lock_guard. alone. apply run_Get_read. Qed.

Lemma run_VerifyOnly id : same_run (run (VerifyOnly id)) (LocalDisk.VerifyOnly data_root_ id).
Proof. unfold VerifyOnly, LocalDisk.VerifyOnly. alone. apply run_Get. Qed.

Lemma run_Delete id : same_run (run (Delete id)) (LocalDisk.Delete data_root_ id).
Proof. apply run_lock_guard. alone. Qed.

Lemma run_GetStats : same_run (run GetStats) (LocalDisk.GetStats data_root_).
Proof. unfold GetStats, LocalDisk.GetStats. alone. by intros s. Qed.

(** ** How many actions *)

Ltac count_operation :=
  intros; unfold Put, Put_new, Put_file, Put_publish, VerifyOnly, Get, Get_read, Delete, Exists, GetStats,
    lock_guard, mbind, prog_bind; count.

Lemma Put_within id data : within 24%nat (Put id data).
Proof. count_operation. Qed.

Lemma Get_within id : within 9%nat (Get id).
Proof. count_operation. Qed.

Lemma VerifyOnly_within id : within 9%nat (VerifyOnly id).
Proof. count_operation. Qed.

Lemma Delete_within id : within 8%nat (Delete id).
Proof. count_operation. Qed.

Lemma Exists_within id : within 4%nat (Exists id).
Proof. count_operation. Qed.

Lemma GetStats_within : within 3%nat GetStats.
Proof. count_operation. Qed.

(** The store has no streams. *)
Lemma Put_mute id data : mute (Put id data).
Proof. count_operation. Qed.

Lemma Get_mute id : mute (Get id).
Proof. count_operation. Qed.

Lemma VerifyOnly_mute id : mute (VerifyOnly id).
Proof. count_operation. Qed.

Lemma Delete_mute id : mute (Delete id).
Proof. count_operation. Qed.

Lemma Exists_mute id : mute (Exists id).
Proof. count_operation. Qed.

Lemma GetStats_mute : mute GetStats.
Proof. count_operation. Qed.

End Threaded.
End Threaded.
