(* ===== verification/Threads.v ===== *)
(** * Many threads on one disk store

    A pool of threads over one [Disk]: each thread runs the program of one
    call, one action at a time, in any order. A stripe is taken only when no
    other thread holds it; what a thread owns besides its program are the
    stripes it holds and its correlation id, which is thread-local in the
    code. A thread at a stream goes on when a message passes, which is an
    event of the run. The machine may crash inside any action. Beside it, the system it
    should be indistinguishable from: an abstract store on which each call
    takes effect at one instant between its invocation and its return. What
    the threads run is given by a [Client]: the operations of the store
    themselves ([ThreadTheorems]) or the handlers of the node ([NodeThreads]). *)

From S2P Require Import Prelude Result Cxx Sha256 ChunkId Logger IChunkStore Posix LocalDisk DiskRules DiskLayout DiskEffects Programs.
Import LocalDisk.

(** ** Requests and replies *)

Inductive request :=
  | ReqPut (id : ChunkId.t) (data : list byte)
  | ReqGet (id : ChunkId.t)
  | ReqVerify (id : ChunkId.t)
  | ReqDelete (id : ChunkId.t)
  | ReqExists (id : ChunkId.t)
  | ReqStats.

Inductive reply :=
  | RepDone (r : Result unit ChunkStoreErrorDetail)
  | RepData (r : Result (list byte) ChunkStoreErrorDetail)
  | RepBool (b : bool)
  | RepStats (st : ChunkStoreStats).

Definition request_valid (q : request) : Prop :=
  match q with
  | ReqPut id _ | ReqGet id | ReqVerify id | ReqDelete id | ReqExists id => ChunkId.valid id
  | ReqStats => True
  end.

(** What a request may answer and do to the abstract store, at one instant. *)
Definition request_spec `{Evp} (io_may_fail : Prop) (q : request) (m : store) (r : reply) (m' : store) : Prop :=
  match q, r with
  | ReqPut id data, RepDone r => put_spec io_may_fail m id data r m'
  | ReqGet id, RepData r => m' = m ∧ get_spec io_may_fail m id r
  | ReqVerify id, RepDone r => m' = m ∧ verify_spec io_may_fail m id r
  | ReqDelete id, RepDone r => delete_spec io_may_fail m id r m'
  | ReqExists id, RepBool b => m' = m ∧ b = bool_decide (is_Some (m !! ChunkId.ToHexString id))
  | ReqStats, RepStats _ => m' = m
  | _, _ => False
  end.

(** The request takes the chunk with this name away. *)
Definition removes (key : string) (q : request) : Prop :=
  match q with ReqDelete id => ChunkId.ToHexString id = key | _ => False end.

Lemma request_keeps `{Evp} fault q m r m' key :
  request_spec fault q m r m' → ¬ removes key q → is_Some (m !! key) → is_Some (m' !! key).
Proof.
  intros Hspec Hq Hm. destruct q as [id data|id|id|id|id|], r as [r|r|b|st]; try done; cbn in Hspec, Hq;
    try (by destruct Hspec as [-> _]); try (by subst m').
  - destruct r as [u|e]; [|by destruct Hspec as [-> _]]. destruct Hspec as [_ ->]. case_match; [done|].
    destruct (decide (ChunkId.ToHexString id = key)) as [->|Hne]; [by rewrite lookup_insert_eq|by rewrite lookup_insert_ne].
  - destruct r as [u|e]; [|by destruct Hspec as [-> _]]. cbn in Hspec. subst m'. by rewrite lookup_delete_ne.
Qed.

(** ** Clients

    A client makes calls ([session]); a call runs a program, asks the store
    for at most one operation, and answers what [says] relates to the store's
    reply ([None]: the store was not asked). *)
Class Client := {
  session : Type;
  answer : Type;
  session_valid : session → Prop;
  code : session → prog answer;
  asks : session → option request;
  says : session → option reply → answer → Prop;
  longest : nat;
  code_within q : within longest (code q)
}.

(** ** Runs

    What the outside sees of a run are its calls and returns, and the
    messages that pass on the stream of a call. *)
Inductive event `{Client} := Call (i : nat) (q : session) | Return (i : nat) (r : answer) | Message (i : nat).

(** [runs step n w tr w']: [n] steps from [w] to [w'] with the events [tr]. *)
Inductive runs {E W} (step : W → option E → W → Prop) : nat → W → list E → W → Prop :=
  | runs_nil w : runs step 0 w [] w
  | runs_snoc n w tr w1 l w2 : runs step n w tr w1 → step w1 l w2 → runs step (S n) w (tr ++ option_list l) w2.

Lemma runs_app {E W} (st : W → option E → W → Prop) n n' w tr w1 tr' w2 :
  runs st n w tr w1 → runs st n' w1 tr' w2 → runs st (n' + n) w (tr ++ tr') w2.
Proof.
  intros Hr Hr'. induction Hr' as [|n' w1 tr' w2 l w3 Hr' IH Hs]; [by rewrite app_nil_r|].
  rewrite app_assoc. eapply runs_snoc; [by apply IH|done].
Qed.

(** The step of an event that a run has. *)
Lemma runs_event {E W} (st : W → option E → W → Prop) n w w' tr t e t' :
  runs st n w tr w' → tr = t ++ e :: t' →
  ∃ n1 n2 w1 w2, runs st n1 w t w1 ∧ st w1 (Some e) w2 ∧ runs st n2 w2 t' w'.
Proof.
  intros Hr. revert t'. induction Hr as [w|n w tr w1 l w2 Hr IH Hs]; intros t' Ht.
  - by destruct t.
  - destruct l as [e0|]; cbn in Ht.
    + destruct t' as [|e' t' _] using rev_ind.
      * apply app_inj_tail in Ht as [-> ->]. exists n, 0, w1, w2. split_and!; [done|done|constructor].
      * rewrite app_comm_cons, app_assoc in Ht. apply app_inj_tail in Ht as [-> ->].
        destruct (IH t' eq_refl) as (n1 & n2 & w3 & w4 & Ha & Hb & Hc).
        exists n1, (S n2), w3, w4. split_and!; [done|done|]. exact (runs_snoc st n2 w4 t' w1 (Some e') w2 Hc Hs).
    + rewrite app_nil_r in Ht. subst tr. destruct (IH t' eq_refl) as (n1 & n2 & w3 & w4 & Ha & Hb & Hc).
      exists n1, (S n2), w3, w4. split_and!; [done|done|].
      rewrite <- (app_nil_r t'). exact (runs_snoc st n2 w4 t' w1 None w2 Hc Hs).
Qed.

(** What every step keeps whose event is allowed. *)
Lemma runs_keep {E W} (st : W → option E → W → Prop) (I : W → Prop) (allowed : E → Prop) n w tr w' :
  (∀ w l w', I w → (∀ e, l = Some e → allowed e) → st w l w' → I w') →
  runs st n w tr w' → Forall allowed tr → I w → I w'.
Proof.
  intros Hst Hr. induction Hr as [w|n w tr w1 l w2 Hr IH Hs]; [done|].
  intros [Htr Hl]%Forall_app HI. eapply Hst; [by apply IH| |done].
  intros e ->. by apply Forall_cons in Hl as [? _].
Qed.

Definition is_call `{Client} (e : event) : bool := match e with Call _ _ => true | _ => false end.
Definition is_message `{Client} (e : event) : bool := match e with Message _ => true | _ => false end.
Definition calls `{Client} (tr : list event) : nat := length (filter (λ e, is_call e = true) tr).
Definition messages `{Client} (tr : list event) : nat := length (filter (λ e, is_message e = true) tr).

(** ** The pool *)

Section Pool.
Context `{C : Client, P : Platform}.

Record Thread := MkThread {
  t_session : session;
  t_held : list Z;
  t_cid : string;
  t_code : prog answer
}.

Record World := MkWorld { disk : Disk; threads : gmap nat Thread; alive : bool }.

(** The store as a thread sees it, and the thread after an action. *)
Definition load (th : Thread) (s : Disk) : Disk :=
  set_held (t_held th) (set_rt (set_correlation_id (t_cid th) (rt s)) s).

Definition save (th : Thread) (s : Disk) (p : prog answer) : Thread :=
  MkThread (t_session th) (held s) (t_correlation_id (rt s)) p.

(** No other thread holds the stripe. *)
Definition free_for (i : nat) (z : Z) (ths : gmap nat Thread) : Prop :=
  ∀ j th, j ≠ i → ths !! j = Some th → z ∉ t_held th.

Inductive step : World → option event → World → Prop :=
  | step_call i q cid s ths :
      ths !! i = None → session_valid q →
      step (MkWorld s ths true) (Some (Call i q)) (MkWorld s (<[i := MkThread q [] cid (code q)]> ths) true)
  | step_act i th {B} (m : M Disk B) k h b s s' ths :
      ths !! i = Some th → t_code th = Act m k h → m (load th s) = (Done b, s') →
      step (MkWorld s ths true) None (MkWorld s' (<[i := save th s' (k b)]> ths) true)
  | step_throw i th {B} (m : M Disk B) k h e s s' ths :
      ths !! i = Some th → t_code th = Act m k h → m (load th s) = (Throws e, s') →
      step (MkWorld s ths true) None (MkWorld s' (<[i := save th s' (h e)]> ths) true)
  | step_crash i th {B} (m : M Disk B) k h s s' ths :
      ths !! i = Some th → t_code th = Act m k h → m (load th s) = (Crashed, s') →
      step (MkWorld s ths true) None (MkWorld s' ths false)
  | step_lock i th z k h s s' ths :
      ths !! i = Some th → t_code th = Lock z k h → free_for i z ths → lock z (load th s) = (Done tt, s') →
      step (MkWorld s ths true) None (MkWorld s' (<[i := save th s' k]> ths) true)
  | step_lock_throw i th z k h e s s' ths :
      ths !! i = Some th → t_code th = Lock z k h → lock z (load th s) = (Throws e, s') →
      step (MkWorld s ths true) None (MkWorld s' (<[i := save th s' (h e)]> ths) true)
  | step_message i th k s ths :
      ths !! i = Some th → t_code th = Await k →
      step (MkWorld s ths true) (Some (Message i)) (MkWorld (load th s) (<[i := save th (load th s) k]> ths) true)
  | step_return i th r s ths :
      ths !! i = Some th → t_code th = Ret r →
      step (MkWorld s ths true) (Some (Return i r)) (MkWorld s (delete i ths) true).

(** A scheduler: who is invoked or goes on next. A thread that cannot go on,
    because its stripe is taken, is passed over. *)
Inductive choice := Invoke (i : nat) (q : session) (cid : string) | GoOn (i : nat).

Definition choice_valid (c : choice) : Prop :=
  match c with Invoke _ q _ => session_valid q | GoOn _ => True end.

Definition free_forb (i : nat) (z : Z) (ths : gmap nat Thread) : bool :=
  bool_decide (map_Forall (λ j th, j = i ∨ z ∉ t_held th) ths).

Definition go_on (i : nat) (th : Thread) (w : World) : option (option event * World) :=
  let ran s' p := Some (None, MkWorld s' (<[i := save th s' p]> (threads w)) true) in
  match t_code th with
  | Ret r => Some (Some (Return i r), MkWorld (disk w) (delete i (threads w)) true)
  | Raise _ => None
  | Act m k h =>
      match m (load th (disk w)) with
      | (Done b, s') => ran s' (k b)
      | (Throws e, s') => ran s' (h e)
      | (Crashed, s') => Some (None, MkWorld s' (threads w) false)
      | (Blocks, _) => None
      end
  | Lock z k h =>
      match lock z (load th (disk w)) with
      | (Done _, s') => if free_forb i z (threads w) then ran s' k else None
      | (Throws e, s') => ran s' (h e)
      | _ => None
      end
  | Await k =>
      Some (Some (Message i), MkWorld (load th (disk w)) (<[i := save th (load th (disk w)) k]> (threads w)) true)
  end.

Definition advance (c : choice) (w : World) : option (option event * World) :=
  if negb (alive w) then None else
  match c, threads w !! match c with Invoke i _ _ | GoOn i => i end with
  | Invoke i q cid, None => Some (Some (Call i q), MkWorld (disk w) (<[i := MkThread q [] cid (code q)]> (threads w)) true)
  | GoOn i, Some th => go_on i th w
  | _, _ => None
  end.

Fixpoint exec (cs : list choice) (n : nat) (tr : list event) (w : World) : nat * list event * World :=
  match cs with
  | [] => (n, tr, w)
  | c :: cs =>
      match advance c w with
      | Some (l, w') => exec cs (S n) (tr ++ option_list l) w'
      | None => exec cs n tr w
      end
  end.

Lemma free_forb_true i z ths : free_forb i z ths = true → free_for i z ths.
Proof. intros Hf%bool_decide_eq_true_1 j th Hne Hj. by destruct (Hf j th Hj). Qed.

Lemma go_on_step i th w l w' :
  alive w = true → threads w !! i = Some th → go_on i th w = Some (l, w') → step w l w'.
Proof.
  destruct w as [s ths al]. cbn. intros -> Hi. unfold go_on. cbn.
  destruct (t_code th) as [r|e|B m k h|z k h|k] eqn:Hc.
  - intros [= <- <-]. by eapply step_return.
  - done.
  - destruct (m (load th s)) as [[b|e| |] s'] eqn:Hm; intros [= <- <-];
      [by eapply step_act|by eapply step_throw|by eapply step_crash].
  - destruct (lock z (load th s)) as [[[]|e| |] s'] eqn:Hl; [|intros [= <- <-]; by eapply step_lock_throw|done..].
    destruct (free_forb i z ths) eqn:Hf; [|done]. intros [= <- <-]. eapply step_lock; [done|done|by apply free_forb_true|done].
  - intros [= <- <-]. by eapply step_message.
Qed.

(** The thread waits for the other side of its stream. *)
Definition awaits (th : Thread) : bool := match t_code th with Await _ => true | _ => false end.

Lemma free_forb_false i z ths : free_for i z ths → free_forb i z ths = true.
Proof.
  intros Hf. apply bool_decide_eq_true_2. intros j th Hj. destruct (decide (j = i)); [by left|right]. by eapply Hf.
Qed.

Lemma advance_step c w l w' : choice_valid c → advance c w = Some (l, w') → step w l w'.
Proof.
  intros Hv. unfold advance. destruct (alive w) eqn:Hal; [|done]. cbn.
  destruct c as [i q cid|i], (threads w !! i) as [th|] eqn:Hi; try done.
  - intros [= <- <-]. destruct w as [s ths al]. cbn in *. subst al. by apply step_call.
  - by apply go_on_step.
Qed.

Lemma go_on_no_call i w l w' : advance (GoOn i) w = Some (l, w') → step w l w' ∧ calls (option_list l) = 0.
Proof.
  intros E. split; [by apply (advance_step (GoOn i))|]. unfold advance in E. destruct (alive w); [|done]. cbn in E.
  destruct (threads w !! i) as [th|]; [|done]. unfold go_on in E. repeat case_match; simplify_eq; done.
Qed.

(** What the scheduler does is a run. *)
Lemma exec_runs cs n tr w0 w :
  Forall choice_valid cs → runs step n w0 tr w →
  let '(n', tr', w') := exec cs n tr w in runs step n' w0 tr' w'.
Proof.
  revert n tr w. induction cs as [|c cs IH]; intros n tr w Hall Hr; [done|].
  apply Forall_cons in Hall as [Hv Hall]. cbn. destruct (advance c w) as [[l w']|] eqn:E; [|by apply IH].
  apply IH; [done|]. eapply runs_snoc; [done|by eapply advance_step].
Qed.

End Pool.

(** ** The atomic store *)

Section Atomic.
Context `{C : Client, E : Evp}.

Record Atomic := MkAtomic { contents : store; pending : gmap nat (session * option reply) }.

Inductive atomic_step (io_may_fail : Prop) : Atomic → option event → Atomic → Prop :=
  | atomic_call i q m ps :
      ps !! i = None → atomic_step io_may_fail (MkAtomic m ps) (Some (Call i q)) (MkAtomic m (<[i := (q, None)]> ps))
  | atomic_commit i q rq r m m' ps :
      ps !! i = Some (q, None) → asks q = Some rq → request_spec io_may_fail rq m r m' →
      atomic_step io_may_fail (MkAtomic m ps) None (MkAtomic m' (<[i := (q, Some r)]> ps))
  | atomic_message i qc m ps :
      ps !! i = Some qc → atomic_step io_may_fail (MkAtomic m ps) (Some (Message i)) (MkAtomic m ps)
  | atomic_return i q c a m ps :
      ps !! i = Some (q, c) → says q c a →
      atomic_step io_may_fail (MkAtomic m ps) (Some (Return i a)) (MkAtomic m (delete i ps)).

End Atomic.

(** ** Every run ends *)

Section Ends.
Context `{C : Client, P : Platform}.

(** What is left of a program after its next action. *)
Definition left_over {A} (p' p : prog A) : Prop :=
  match p with
  | Ret _ | Raise _ => False
  | Act _ k h => (∃ b, p' = k b) ∨ ∃ e, p' = h e
  | Lock _ k h => p' = k ∨ ∃ e, p' = h e
  | Await k => p' = k
  end.

Lemma left_over_acc {A} (p : prog A) : Acc left_over p.
Proof.
  induction p as [a|e|B m k IHk h IHh|z k IHk h IHh|k IHk]; constructor; intros p' Hp; cbn in Hp.
  - destruct Hp.
  - destruct Hp.
  - destruct Hp as [[b ->]|[e ->]]; [apply IHk|apply IHh].
  - destruct Hp as [->|[e ->]]; [apply IHk|apply IHh].
  - subst p'. apply IHk.
Qed.

(** The programs of a pool after a step: one of them has gone on or ended. *)
Definition shrunk {A} (ps' ps : gmap nat (prog A)) : Prop :=
  ∃ i p, ps !! i = Some p ∧ (ps' = delete i ps ∨ ∃ p', left_over p' p ∧ ps' = <[i := p']> ps).

Lemma shrunk_insert {A} i (p : prog A) ps ps' :
  ps !! i = None → shrunk ps' (<[i := p]> ps) →
  ps' = ps ∨ (∃ p', left_over p' p ∧ ps' = <[i := p']> ps) ∨
  ∃ ps1, shrunk ps1 ps ∧ ps1 !! i = None ∧ ps' = <[i := p]> ps1.
Proof.
  intros Hi (j & q & Hj & Hps). destruct (decide (j = i)) as [->|Hne].
  - rewrite lookup_insert_eq in Hj. injection Hj as <-. destruct Hps as [->|(p' & Hp & ->)].
    + left. by rewrite delete_insert_eq, delete_id.
    + right. left. exists p'. by rewrite insert_insert_eq.
  - rewrite lookup_insert_ne in Hj by done. right. right. destruct Hps as [->|(p' & Hp & ->)].
    + exists (delete j ps). split_and!; [by exists j, q; split; [|left]|by rewrite lookup_delete_ne|by rewrite delete_insert_ne].
    + exists (<[j := p']> ps). split_and!; [exists j, q; split; [done|right; by exists p']|by rewrite lookup_insert_ne|by rewrite insert_insert_ne].
Qed.

Lemma shrunk_acc {A} (ps : gmap nat (prog A)) : Acc shrunk ps.
Proof.
  induction ps as [|i p ps Hi IH] using map_ind.
  { constructor. intros ps' (i & p & Hi & _). by rewrite lookup_empty in Hi. }
  revert Hi p. induction IH as [ps Hacc IH]. intros Hi p. induction (left_over_acc p) as [p _ IHp]. constructor.
  intros ps' Hs. destruct (shrunk_insert i p ps ps' Hi Hs) as [->|[(p' & Hp & ->)|(ps1 & Hs1 & Hi1 & ->)]].
  - by constructor.
  - by apply IHp.
  - by apply IH.
Qed.

(** A step other than a new call. *)
Definition goes_on (w' w : World) : Prop := ∃ l, step w l w' ∧ calls (option_list l) = 0.

Lemma goes_on_shrunk w' w : goes_on w' w → alive w' = true → shrunk (t_code <$> threads w') (t_code <$> threads w).
Proof.
  intros (l & Hs & Hl) Hal.
  assert (∀ i th th' (ths : gmap nat Thread), ths !! i = Some th → left_over (t_code th') (t_code th) →
    shrunk (t_code <$> <[i := th']> ths) (t_code <$> ths)) as Hgo.
  { intros i th th' ths Hi Ho. exists i, (t_code th). rewrite lookup_fmap, Hi. split; [done|]. right.
    exists (t_code th'). by rewrite fmap_insert. }
  destruct Hs; cbn [threads alive] in *; try done; try (by eapply Hgo; [done|]; match goal with E : t_code _ = _ |- _ => rewrite E end; cbn; eauto).
  exists i, (t_code th). rewrite lookup_fmap, fmap_delete. match goal with E : _ !! i = _ |- _ => rewrite E end. split; [done|by left].
Qed.

(** No run goes on for ever without new calls. *)
Lemma no_endless_run w : Acc goes_on w.
Proof.
  assert (∀ ps, Acc shrunk ps → ∀ w, t_code <$> threads w = ps → Acc goes_on w) as Hacc; [|by eapply Hacc; [apply shrunk_acc|]].
  clear w. induction 1 as [ps _ IH]. intros w <-. constructor. intros w' Hw. destruct (alive w') eqn:Hal.
  - by eapply IH; [apply goes_on_shrunk|].
  - constructor. intros w2 (l & Hs & _). by destruct Hs.
Qed.

End Ends.

(** ** The length of runs *)

Section Length.
Context `{C : Client, P : Platform}.

(** Bounds on what is left for each thread to do. *)
Definition bounded_by (B : gmap nat nat) (ths : gmap nat Thread) : Prop :=
  ∀ i, match ths !! i, B !! i with
       | Some th, Some b => within b (t_code th)
       | None, None => True
       | _, _ => False
       end.

Definition left_to_do (B : gmap nat nat) : Z := map_sum (λ b, Z.of_nat (S b)) B.

Lemma bounded_at B ths i th : bounded_by B ths → ths !! i = Some th → ∃ b, B !! i = Some b ∧ within b (t_code th).
Proof. intros HB Hi. specialize (HB i). rewrite Hi in HB. destruct (B !! i) as [b|]; [by exists b|done]. Qed.

Lemma bounded_insert B ths i th b : bounded_by B ths → within b (t_code th) → bounded_by (<[i := b]> B) (<[i := th]> ths).
Proof.
  intros HB Hw j. destruct (decide (j = i)) as [->|Hne].
  - by rewrite !lookup_insert_eq.
  - rewrite !lookup_insert_ne by done. apply HB.
Qed.

Lemma bounded_delete B ths i : bounded_by B ths → bounded_by (delete i B) (delete i ths).
Proof.
  intros HB j. destruct (decide (j = i)) as [->|Hne].
  - by rewrite !lookup_delete_eq.
  - rewrite !lookup_delete_ne by done. apply HB.
Qed.

Lemma calls_app tr tr' : calls (tr ++ tr') = calls tr + calls tr'.
Proof. unfold calls. by rewrite filter_app, length_app. Qed.

Lemma messages_app tr tr' : messages (tr ++ tr') = messages tr + messages tr'.
Proof. unfold messages. by rewrite filter_app, length_app. Qed.

Lemma bounded_step w l w' B :
  step w l w' → bounded_by B (threads w) →
  ∃ B', bounded_by B' (threads w') ∧
    (left_to_do B' + (if alive w' then 1 else 0) + 1 ≤
     left_to_do B + (if alive w then 1 else 0) + (Z.of_nat longest + 2) * Z.of_nat (calls (option_list l)) +
     Z.of_nat (messages (option_list l)))%Z.
Proof.
  intros Hstep HB.
  assert (∀ i th p s s' (ths : gmap nat Thread), ths !! i = Some th → bounded_by B ths →
    (∀ b, within b (t_code th) → ∃ b', b = S b' ∧ within b' p) →
    ∃ B', bounded_by B' (threads (MkWorld s' (<[i := save th s p]> ths) true)) ∧
      (left_to_do B' + 1 + 1 ≤ left_to_do B + 1 + (Z.of_nat longest + 2) * Z.of_nat 0 + Z.of_nat 0)%Z) as Hgo.
  { intros i th p s s' ths Hi HB' Hp. destruct (bounded_at B ths i th HB' Hi) as (b & Hb & Hw).
    destruct (Hp b Hw) as (b' & -> & Hw'). exists (<[i := b']> B). split; [by apply bounded_insert|].
    unfold left_to_do. rewrite (map_sum_update _ _ _ _ _ Hb). lia. }
  destruct Hstep as [i q cid s ths Hi Hv|i th B0 m k h b s s' ths Hi Hc Hm|i th B0 m k h e s s' ths Hi Hc Hm
    |i th B0 m k h s s' ths Hi Hc Hm|i th z k h s s' ths Hi Hc Hfree Hl|i th z k h e s s' ths Hi Hc Hl|i th k s ths Hi Hc|i th r s ths Hi Hc]; cbn [threads alive] in *.
  - exists (<[i := longest]> B). split; [apply bounded_insert; [done|apply code_within]|].
    assert (B !! i = None) as Hn by (specialize (HB i); rewrite Hi in HB; by destruct (B !! i)).
    change (calls (option_list (Some (Call i q)))) with 1. change (messages (option_list (Some (Call i q)))) with 0.
    unfold left_to_do. rewrite map_sum_insert by done. lia.
  - change (calls (option_list None)) with 0. change (messages (option_list None)) with 0. eapply Hgo; try done. intros n Hw. rewrite Hc in Hw. destruct n as [|n]; [destruct Hw|].
    exists n. split; [done|]. by apply Hw.
  - change (calls (option_list None)) with 0. change (messages (option_list None)) with 0. eapply Hgo; try done. intros n Hw. rewrite Hc in Hw. destruct n as [|n]; [destruct Hw|].
    exists n. split; [done|]. by apply Hw.
  - exists B. split; [done|]. change (calls (option_list None)) with 0. change (messages (option_list None)) with 0. lia.
  - change (calls (option_list None)) with 0. change (messages (option_list None)) with 0. eapply Hgo; try done. intros n Hw. rewrite Hc in Hw. destruct n as [|n]; [destruct Hw|].
    exists n. split; [done|]. by apply Hw.
  - change (calls (option_list None)) with 0. change (messages (option_list None)) with 0. eapply Hgo; try done. intros n Hw. rewrite Hc in Hw. destruct n as [|n]; [destruct Hw|].
    exists n. split; [done|]. by apply Hw.
  - destruct (bounded_at B ths i th HB Hi) as (b & Hb & Hw). rewrite Hc in Hw. exists B. split.
    + rewrite <- (insert_id B i b Hb). by apply bounded_insert.
    + change (calls (option_list (Some (Message i)))) with 0. change (messages (option_list (Some (Message i)))) with 1. lia.
  - exists (delete i B). split; [by apply bounded_delete|].
    destruct (bounded_at B ths i th HB Hi) as (b & Hb & _).
    unfold left_to_do. rewrite (map_sum_delete _ B i b Hb).
    change (calls (option_list (Some (Return i r)))) with 0. change (messages (option_list (Some (Return i r)))) with 0. lia.
Qed.

Lemma left_to_do_nonneg B : (0 ≤ left_to_do B)%Z.
Proof.
  unfold left_to_do. induction B as [|i b B Hi IH] using map_ind; [by rewrite map_sum_empty|].
  rewrite map_sum_insert by done. lia.
Qed.

Lemma runs_bounded n w0 tr w : threads w0 = ∅ → alive w0 = true → runs step n w0 tr w →
  ∃ B, bounded_by B (threads w) ∧
    (Z.of_nat n + left_to_do B + (if alive w then 1 else 0) ≤ (Z.of_nat longest + 2) * Z.of_nat (calls tr) + Z.of_nat (messages tr) + 1)%Z.
Proof.
  intros Hno Hal Hr. induction Hr as [w|n w tr w1 l w2 Hr IH Hstep].
  - exists ∅. rewrite Hno, Hal. split; [by intros i; rewrite !lookup_empty|].
    unfold left_to_do. rewrite map_sum_empty. cbn. lia.
  - destruct IH as (B & HB & Hle); [done|done|]. destruct (bounded_step _ _ _ B Hstep HB) as (B' & HB' & Hle').
    exists B'. split; [done|]. rewrite calls_app, messages_app. lia.
Qed.

Definition all_mute (w : World) : Prop := map_Forall (λ _ th, mute (t_code th)) (threads w).

Lemma mute_step w l w' : (∀ q, mute (code q)) → step w l w' → all_mute w → all_mute w' ∧ messages (option_list l) = 0.
Proof.
  intros Hq Hstep Hall.
  destruct Hstep as [i q cid s ths Hi Hv|i th B m k h b s s' ths Hi Hc Hm|i th B m k h e s s' ths Hi Hc Hm
    |i th B m k h s s' ths Hi Hc Hm|i th z k h s s' ths Hi Hc Hfree Hl|i th z k h e s s' ths Hi Hc Hl|i th k s ths Hi Hc|i th r s ths Hi Hc];
    unfold all_mute in *; cbn [threads] in *; try (pose proof (Hall i th Hi) as Hth; cbn in Hth; rewrite Hc in Hth);
    try done; (split; [|done]).
  - by apply map_Forall_insert_2; [apply Hq|].
  - apply map_Forall_insert_2; [apply Hth|done].
  - apply map_Forall_insert_2; [apply Hth|done].
  - apply map_Forall_insert_2; [apply Hth|done].
  - apply map_Forall_insert_2; [apply Hth|done].
  - by apply map_Forall_delete.
Qed.

Lemma runs_mute n w0 tr w : (∀ q, mute (code q)) → runs step n w0 tr w → all_mute w0 → messages tr = 0.
Proof.
  intros Hq Hr H0. assert (all_mute w ∧ messages tr = 0) as [_ ?]; [|done].
  induction Hr as [w|n w tr w1 l w2 Hr IH Hs]; [done|]. destruct (IH H0) as [Hall Hm].
  destruct (mute_step _ _ _ Hq Hs Hall) as [Hall' Hl]. by rewrite messages_app, Hm, Hl.
Qed.

End Length.
