(* ===== verification/ThreadRules.v ===== *)
(** * Reasoning about one thread among others

    A rely-guarantee logic for the programs of [Threads]. [interf] is what the
    other threads may do to the shared store between two actions of a thread;
    [guar] is what an action of the thread does in turn. [safe] says that a
    program keeps the guarantee at every action, whatever interferes, and that
    its request takes effect at one instant. Ghost state records the
    descriptors a thread has, what it still has to count, and the chunk whose
    directory entry it has not synced yet, which it does while it holds the
    stripe of the chunk. *)

From S2P Require Import Prelude Result Cxx Sha256 ChunkId Logger IChunkStore Posix LocalDisk DiskRules DiskLayout DiskEffects DiskTheorems DiskContract DiskSafety DiskDurability DiskCounters Programs Threads.
Import LocalDisk.

Section Rely.
Context `{Evp, Platform, UuidSource, !EvpLaws, !UuidLaws}.
Variable root : path.
Implicit Types s : Disk.

(** ** The shared invariant *)

Record inv s : Prop := {
  inv_sound : sound root s;
  inv_fds : fds_ok s;
  inv_count : (0 ≤ chunk_count_ s < 2 ^ 64)%Z;
  inv_bytes : (0 ≤ bytes_used_ s < 2 ^ 64)%Z
}.

(** The files only the holder of a stripe may touch: the chunks of the stripe
    and their temporary files. *)
Definition owned (l : list Z) (p : path) : Prop :=
  ∃ id, ChunkId.valid id ∧ LockFor id ∈ l ∧
    (p = final_of root id ∨ ∃ n, p = tmp_path root (hex_of id) (uuid_at n)).

(** What a thread has besides its program: the descriptors it opened, how far
    the counters lag behind what it did to the tree, and the chunk it has put
    in place without having synced the directory yet. *)
Record Ghost := MkGhost { own : gset nat; debt_count : Z; debt_bytes : Z; unsettled : option path }.

Definition no_ghost : Ghost := MkGhost ∅ 0 0 None.

(** The entries touched since their directory was synced, and the chunks among
    them: a power loss may take these. *)
Definition unsynced s : gset path := Posix.pending (os s).

Definition loose s (p : path) : Prop :=
  (∃ id, ChunkId.valid id ∧ p = final_of root id) ∧ is_Some (tree s !! p) ∧ p ∈ unsynced s.

Definition file_count s : Z := Z.of_nat (size (chunk_files root (tree s))).
Definition byte_count s : Z := Z.of_nat (total_bytes (chunk_files root (tree s))).

Definition drift_count (d : Z) s : Z := wrap64 (chunk_count_ s - file_count s + d).
Definition drift_bytes (d : Z) s : Z := wrap64 (bytes_used_ s - byte_count s + d).

Record interf (F : gset nat) s s1 : Prop := {
  i_inv : inv s1;
  i_held : held s1 = held s;
  i_dirs : dirset s ⊆ dirset s1;
  i_files p : owned (held s) p → tree s1 !! p = tree s !! p;
  i_fds n : n ∈ F → fds (os s1) !! n = fds (os s) !! n
}.

Record guar (g g' : Ghost) s1 s2 : Prop := {
  g_inv : inv s2;
  g_held : held s2 ⊆ held s1;
  g_dirs : dirset s1 ⊆ dirset s2;
  g_files p : tree s2 !! p ≠ tree s1 !! p → owned (held s1) p;
  g_fds n : n ∉ own g → (n < next_fd (os s1))%nat → fds (os s2) !! n = fds (os s1) !! n;
  g_next : (next_fd (os s1) ≤ next_fd (os s2))%nat;
  g_own n : n ∈ own g' → n ∈ own g ∨ (next_fd (os s1) ≤ n < next_fd (os s2))%nat;
  g_open n : is_Some (fds (os s2) !! n) → n ∈ own g ∨ (next_fd (os s1) ≤ n)%nat → n ∈ own g';
  g_count : drift_count (debt_count g') s2 = drift_count (debt_count g) s1;
  g_bytes : drift_bytes (debt_bytes g') s2 = drift_bytes (debt_bytes g) s1;
  g_synced p : p ∈ dirset s1 → p ∉ unsynced s1 → p ∉ unsynced s2;
  g_loose : sync_reliable → ∀ p, loose s2 p → unsettled g' = Some p ∨ (loose s1 p ∧ unsettled g ≠ Some p)
}.

Lemma interf_refl F s : inv s → interf F s s.
Proof. by split. Qed.

Lemma interf_trans F s1 s2 s3 : interf F s1 s2 → interf F s2 s3 → interf F s1 s3.
Proof.
  intros [? Hh Hd Hf Hn] [? Hh' Hd' Hf' Hn']. split; [done|congruence|set_solver|..].
  - intros p Hp. rewrite Hf'; [by apply Hf|by rewrite Hh].
  - intros n Hin. rewrite Hn' by done. by apply Hn.
Qed.

(** Different stripes, different files. *)
Lemma owned_disjoint l l' p : owned l p → owned l' p → ∃ z, z ∈ l ∧ z ∈ l'.
Proof.
  intros (id & Hv & Hl & Hp) (id' & Hv' & Hl' & Hp'). exists (LockFor id). split; [done|].
  assert (id = id') as ->; [|done]. assert (∀ n, tmp_path root (hex_of id) (uuid_at n) ≠ final_of root id') as Ht.
  { intros n. apply tmp_path_not_final. by rewrite !hex_length. }
  assert (∀ n, tmp_path root (hex_of id') (uuid_at n) ≠ final_of root id) as Ht'.
  { intros n. apply tmp_path_not_final. by rewrite !hex_length. }
  destruct Hp as [->|[n ->]], Hp' as [Hp'|[n' Hp']].
  - by eapply final_of_inj.
  - by destruct (Ht' n').
  - by destruct (Ht n).
  - unfold tmp_path in Hp'. apply app_inj_2 in Hp' as [_ Hp']; [|done]. injection Hp' as Hp'.
    apply append_inj_length in Hp' as [Hp' _]; [|by rewrite !hex_length]. by apply ChunkId.valid_hex_inj.
Qed.

(** ** Safety of a program *)

Section Safe.

(** What the program will ask of the store, if anything. *)
Variable q : option request.

(** A [Put] succeeds with its stripe held. *)
Definition locked_put rq r s : Prop :=
  match rq, r with ReqPut id _, RepDone (Ok _) => LockFor id ∈ held s | _, _ => True end.

(** The request takes effect now, or nothing visible happens. *)
Definition commits s1 (c : option reply) s2 (c' : option reply) : Prop :=
  (c' = c ∧ view root s2 = view root s1) ∨
  (c = None ∧ ∃ rq r, q = Some rq ∧ c' = Some r ∧ request_spec io_fault rq (view root s1) r (view root s2) ∧
     locked_put rq r s1).

(** A chunk becomes unsettled by the [Put] that makes it, and the thread
    settles it before it gives its stripe back. *)
Definition marks g s1 g' s2 : Prop :=
  ∀ p, unsettled g' = Some p → (unsettled g = Some p ∧ held s1 ⊆ held s2) ∨
    (tree s1 !! p = None ∧ owned (held s2) p ∧
     ∃ id data, ChunkId.valid id ∧ q = Some (ReqPut id data) ∧ p = final_of root id).

Definition effect g s1 c g' s2 c' : Prop := marks g s1 g' s2 ∧ commits s1 c s2 c'.

Fixpoint safe {A} (p : prog A) (Q : A → Ghost → option reply → Disk → Prop)
  (g : Ghost) (c : option reply) (s : Disk) {struct p} : Prop :=
  match p with
  | Ret a => Q a g c s
  | Raise _ => False
  | Act m k h => ∀ s1, interf (own g) s s1 →
      wp m (λ o s2, match o with
        | Done b => ∃ g' c', guar g g' s1 s2 ∧ effect g s1 c g' s2 c' ∧ safe (k b) Q g' c' s2
        | Crashed => fs (os s2) = fs (os s1) ∧ unsynced s2 = unsynced s1
        | _ => False
        end) s1
  | Lock z k h => Forall (eq z) (held s) ∧
      ∀ s1, interf (own g) s s1 → z ∉ held s1 ∨ relock = RelockReenters →
        safe k Q g c (set_held (z :: held s1) s1)
  | Await k => held s = [] ∧ ∀ s1, interf (own g) s s1 → safe k Q g c s1
  end.

Lemma safe_mono {A} (p : prog A) (Q Q' : A → Ghost → option reply → Disk → Prop) g c s :
  safe p Q g c s → (∀ a g c s, Q a g c s → Q' a g c s) → safe p Q' g c s.
Proof.
  intros Hp HQ. revert g c s Hp. induction p as [a|e|B m k IHk h IHh|z k IHk h IHh|k IHk]; intros g c s; cbn.
  - apply HQ.
  - done.
  - intros Hp s1 Hi. eapply wp_mono; [by apply Hp|]. intros [b|e| |] s2; try done.
    intros (g' & c' & Hg & Hc & Hk). exists g', c'. split_and!; [done|done|by apply IHk].
  - intros [Hz Hp]. split; [done|]. intros s1 Hi Hor. by apply IHk, Hp.
  - intros [Hh Hp]. split; [done|]. intros s1 Hi. by apply IHk, Hp.
Qed.

Lemma safe_bind {A B} (p : prog A) (f : A → prog B) (Q : B → Ghost → option reply → Disk → Prop) g c s :
  safe p (λ a, safe (f a) Q) g c s → safe (p ≫= f) Q g c s.
Proof.
  unfold mbind, prog_bind. revert g c s. induction p as [a|e|B' m k IHk h IHh|z k IHk h IHh|k IHk]; intros g c s; cbn.
  - done.
  - done.
  - intros Hp s1 Hi. eapply wp_mono; [by apply Hp|]. intros [b|e| |] s2; try done.
    intros (g' & c' & Hg & Hc & Hk). exists g', c'. split_and!; [done|done|by apply IHk].
  - intros [Hz Hp]. split; [done|]. intros s1 Hi Hor. by apply IHk, Hp.
  - intros [Hh Hp]. split; [done|]. intros s1 Hi. by apply IHk, Hp.
Qed.

Lemma safe_protect {A} (fin : prog unit) (p : prog A) (Q : A → Ghost → option reply → Disk → Prop) g c s :
  safe p (λ a, safe fin (λ _, Q a)) g c s → safe (protect fin p) Q g c s.
Proof.
  revert g c s. induction p as [a|e|B' m k IHk h IHh|z k IHk h IHh|k IHk]; intros g c s; cbn.
  - intros Hf. by apply (safe_bind fin (λ _, Ret a) Q).
  - done.
  - intros Hp s1 Hi. eapply wp_mono; [by apply Hp|]. intros [b|e| |] s2; try done.
    intros (g' & c' & Hg & Hc & Hk). exists g', c'. split_and!; [done|done|by apply IHk].
  - intros [Hz Hp]. split; [done|]. intros s1 Hi Hor. by apply IHk, Hp.
  - intros [Hh Hp]. split; [done|]. intros s1 Hi. by apply IHk, Hp.
Qed.

(** Interference before the next action changes nothing. *)
Lemma safe_interf {A} (p : prog A) (Q : A → Ghost → option reply → Disk → Prop) g c s s' :
  (∀ a g c s s', Q a g c s → interf (own g) s s' → Q a g c s') →
  safe p Q g c s → interf (own g) s s' → safe p Q g c s'.
Proof.
  intros HQ. destruct p as [a|e|B m k h|z k h|k]; cbn.
  - intros. by eapply HQ.
  - done.
  - intros Hp Hi s1 Hi1. apply Hp. by eapply interf_trans.
  - intros [Hz Hp] Hi. split; [by rewrite (i_held _ _ _ Hi)|]. intros s1 Hi1. apply Hp. by eapply interf_trans.
  - intros [Hh Hp] Hi. split; [by rewrite (i_held _ _ _ Hi)|]. intros s1 Hi1. apply Hp. by eapply interf_trans.
Qed.

(** A thread that waits for its peer holds no stripe. *)
Lemma safe_message (Q : unit → Ghost → option reply → Disk → Prop) g c s :
  held s = [] → (∀ s1, interf (own g) s s1 → Q tt g c s1) → safe message_passes Q g c s.
Proof. by split. Qed.

Lemma safe_act {A} (m : M Disk A) (Q : A → Ghost → option reply → Disk → Prop) g c s :
  (∀ s1, interf (own g) s s1 →
    wp m (λ o s2, match o with
      | Done b => ∃ g' c', guar g g' s1 s2 ∧ effect g s1 c g' s2 c' ∧ Q b g' c' s2
      | Crashed => fs (os s2) = fs (os s1) ∧ unsynced s2 = unsynced s1
      | _ => False
      end) s1) →
  safe (act m) Q g c s.
Proof. done. Qed.

(** ** Actions that change nothing the others can see *)

Definition still s1 s2 : Prop :=
  fs (os s2) = fs (os s1) ∧ fds (os s2) = fds (os s1) ∧ next_fd (os s2) = next_fd (os s1) ∧
  chunk_count_ s2 = chunk_count_ s1 ∧ bytes_used_ s2 = bytes_used_ s1 ∧ unsynced s2 = unsynced s1.

Lemma still_inv s1 s2 : still s1 s2 → inv s1 → inv s2.
Proof.
  intros (Hf & Hd & Hn & Hc & Hb & _) [[Hl Hp Hi] Hok Hcc Hbb]. split; [|intros n; rewrite Hd, Hn; apply Hok|congruence|congruence].
  split; unfold tree; by rewrite Hf.
Qed.

Lemma loose_same g g' s1 s2 p :
  unsettled g' = unsettled g → fs (os s2) = fs (os s1) → unsynced s2 = unsynced s1 → loose s2 p →
  unsettled g' = Some p ∨ (loose s1 p ∧ unsettled g ≠ Some p).
Proof.
  intros -> Hf Hu. unfold loose, tree. rewrite Hf, Hu. destruct (decide (unsettled g = Some p)); tauto.
Qed.

Lemma still_guar g s1 s2 : still s1 s2 → held s2 ⊆ held s1 → inv s1 → guar g g s1 s2.
Proof.
  intros Hs Hh Hi. pose proof (still_inv _ _ Hs Hi). destruct Hs as (Hf & Hd & Hn & Hc & Hb & Hu).
  assert (tree s2 = tree s1) as Ht by (unfold tree; by rewrite Hf).
  split; try done; rewrite ?Hd, ?Hn, ?Ht; try done.
  - unfold dirset. by rewrite Hf.
  - by left.
  - intros n [x Hx] [?|Hle]; [done|]. by rewrite (inv_fds _ Hi) in Hx.
  - unfold drift_count, file_count. by rewrite Ht, Hc.
  - unfold drift_bytes, byte_count. by rewrite Ht, Hb.
  - by rewrite Hu.
  - intros _ p. by apply loose_same.
Qed.

Lemma still_view s1 s2 : still s1 s2 → view root s2 = view root s1.
Proof. intros (Hf & _). unfold view. by rewrite Hf. Qed.

Lemma commits_same s1 c s2 : view root s2 = view root s1 → commits s1 c s2 c.
Proof. by left. Qed.

Lemma commits_now s1 s2 rq r :
  q = Some rq → request_spec io_fault rq (view root s1) r (view root s2) → locked_put rq r s1 →
  commits s1 None s2 (Some r).
Proof. intros Hq Hr Hl. right. split; [done|]. by exists rq, r. Qed.

Lemma effect_same g s1 c g' s2 :
  unsettled g' = unsettled g → held s2 = held s1 → view root s2 = view root s1 → effect g s1 c g' s2 c.
Proof. intros Hu Hh Hvw. split; [|by left]. intros p Hp. left. rewrite <- Hu. by rewrite Hh. Qed.

Lemma effect_now g s1 g' s2 rq r :
  q = Some rq → unsettled g' = None → request_spec io_fault rq (view root s1) r (view root s2) → locked_put rq r s1 →
  effect g s1 None g' s2 (Some r).
Proof. intros Hq Hu Hr Hl. split; [intros p; by rewrite Hu|by eapply commits_now]. Qed.

Lemma effect_commits g s c s' c' : unsettled g = None → commits s c s' c' → effect g s c g s' c'.
Proof. intros Hu Hc. split; [intros p; by rewrite Hu|done]. Qed.

Lemma safe_still {A} (m : M Disk A) (Q : A → Ghost → option reply → Disk → Prop) g c s :
  (∀ s1, interf (own g) s s1 →
    wp m (λ o s2, match o with
      | Done b => still s1 s2 ∧ held s2 = held s1 ∧ Q b g c s2
      | Crashed => fs (os s2) = fs (os s1) ∧ unsynced s2 = unsynced s1
      | _ => False
      end) s1) →
  safe (act m) Q g c s.
Proof.
  intros Hm. apply safe_act. intros s1 Hi. eapply wp_mono; [by apply Hm|].
  intros [b|e| |] s2; try done. intros (Hs & Hh & HQ). exists g, c.
  split_and!; [|by apply effect_same; [| |apply still_view]|done].
  apply still_guar; [done|by rewrite Hh|by apply (i_inv _ _ _ Hi)].
Qed.

Lemma safe_lift {A} (o : outcome A) a (Q : A → Ghost → option reply → Disk → Prop) g c s :
  o = Done a → (∀ s1, interf (own g) s s1 → Q a g c s1) → safe (act (lift o)) Q g c s.
Proof. intros -> HQ. apply safe_still. intros s1 Hi. apply wp_lift. split_and!; [done|done|by apply HQ]. Qed.

Lemma safe_log lvl msg (Q : unit → Ghost → option reply → Disk → Prop) g c s :
  (∀ s1 r, interf (own g) s s1 → Q tt g c (set_rt r s1)) →
  safe (act (on_runtime (log lvl msg []))) Q g c s.
Proof. intros HQ. apply safe_still. intros s1 Hi. apply wp_log. intros r _. split_and!; [done|done|by apply HQ]. Qed.

(** A critical section: the request may take effect when the stripe is given
    back, for by then the answer is known and the files are still ours. *)
Lemma safe_guard {A} z (body : prog A) (Q : A → Ghost → option reply → Disk → Prop) g c s :
  Forall (eq z) (held s) →
  (∀ s1, interf (own g) s s1 →
    safe body (λ a g' c' s2, ∀ s3, interf (own g') s2 s3 →
      unsettled g' = None ∧ ∃ c'', commits s3 c' s3 c'' ∧ Q a g' c'' (set_held (release_one z (held s3)) s3)) g c
      (set_held (z :: held s1) s1)) →
  safe (Threaded.lock_guard z body) Q g c s.
Proof.
  intros Hz Hbody. split; [done|]. intros s1 Hi _. apply safe_protect.
  eapply safe_mono; [by apply Hbody|]. cbn beta. intros a g' c' s2 Hend. apply safe_act. intros s3 Hi3.
  destruct (Hend s3 Hi3) as (Hu & c'' & Hc & HQ). apply wp_modify. exists g', c''.
  split_and!; [|apply (effect_commits g' s3 c' _ c'' Hu); exact Hc|done].
  apply still_guar; [done| |by apply (i_inv _ _ _ Hi3)]. cbn. intros x. generalize (held s3) as l.
  induction l as [|y l IH]; cbn; [done|]. case_bool_decide; [by right|].
  rewrite !elem_of_cons. naive_solver.
Qed.

End Safe.

(** ** Safe clients

    The end of a call: everything is given back, and the answer is what the
    client says to the reply of the store. A client is safe when each of its
    calls is, from every state in which its thread holds nothing: this is what
    the pool relies on ([ThreadCoupling]). *)
Definition finished `{Client} (q : session) (a : answer) (g : Ghost) (c : option reply) s : Prop :=
  g = no_ghost ∧ says q c a ∧ held s = [].

Class SafeClient `{Client} : Prop :=
  client_safe q s : session_valid q → held s = [] → safe (asks q) (code q) (finished q) no_ghost None s.

(** ** Descriptors *)

Definition with_own (F : gset nat) (g : Ghost) : Ghost := MkGhost F (debt_count g) (debt_bytes g) (unsettled g).

(** What an action does to the descriptors: it may close its own and open new
    ones, which are then its own. *)
Record fd_step (g g' : Ghost) s1 s2 : Prop := {
  fd_ok : fds_ok s2;
  fd_others n : n ∉ own g → (n < next_fd (os s1))%nat → fds (os s2) !! n = fds (os s1) !! n;
  fd_next : (next_fd (os s1) ≤ next_fd (os s2))%nat;
  fd_own n : n ∈ own g' → n ∈ own g ∨ (next_fd (os s1) ≤ n < next_fd (os s2))%nat;
  fd_open n : is_Some (fds (os s2) !! n) → n ∈ own g ∨ (next_fd (os s1) ≤ n)%nat → n ∈ own g'
}.

Lemma fd_step_same g s1 s2 :
  fds (os s2) = fds (os s1) → next_fd (os s2) = next_fd (os s1) → fds_ok s1 → fd_step g g s1 s2.
Proof.
  intros Hf Hn Hok. split; rewrite ?Hf, ?Hn; try done.
  - intros n. rewrite Hf, Hn. apply Hok.
  - by left.
  - intros n [x Hx] [?|Hle]; [done|]. by rewrite Hok in Hx.
Qed.

Lemma fd_step_open g p f s : own g = ∅ → fds_ok s → fd_step g (with_own {[next_fd (os s)]} g) s (with_fd p f s).
Proof.
  intros Hg Hok. split; cbn.
  - intros n Hle. cbn in *. rewrite lookup_insert_ne by lia. apply Hok. lia.
  - intros n _ Hlt. rewrite lookup_insert_ne by lia. done.
  - lia.
  - intros n ->%elem_of_singleton. right. lia.
  - intros n [x Hx] [Hin|Hle]; [by rewrite Hg in Hin|]. apply elem_of_singleton.
    destruct (decide (n = next_fd (os s))) as [|Hne]; [done|].
    rewrite lookup_insert_ne in Hx by done. by rewrite Hok in Hx.
Qed.

Definition closed (n : nat) s : Disk := set_os (set_fds (delete n (fds (os s))) (step_time (os s))) s.

Lemma fd_step_close g n s : own g = {[n]} → fds_ok s → fd_step g (with_own ∅ g) s (closed n s).
Proof.
  intros Hg Hok. split; cbn.
  - intros k Hle. cbn in *. rewrite lookup_delete. case_decide; [done|]. by apply Hok.
  - intros k Hk _. rewrite lookup_delete_ne; [done|]. rewrite Hg in Hk. set_solver.
  - lia.
  - set_solver.
  - intros k [x Hx] [Hin|Hle]; exfalso; rewrite lookup_delete in Hx; case_decide; try done.
    + rewrite Hg in Hin. set_solver.
    + by rewrite Hok in Hx.
Qed.

(** Only descriptors move. *)
Lemma guar_fds g g' s1 s2 :
  inv s1 → fd_step g g' s1 s2 → fs (os s2) = fs (os s1) → held s2 = held s1 →
  chunk_count_ s2 = chunk_count_ s1 → bytes_used_ s2 = bytes_used_ s1 →
  debt_count g' = debt_count g → debt_bytes g' = debt_bytes g → unsettled g' = unsettled g →
  unsynced s2 = unsynced s1 → guar g g' s1 s2.
Proof.
  intros [[Hl Hp Hi] Hok Hcc Hbb] [Hok2 ? ? ? ?] Hf Hh Hc Hb Hdc Hdb Hug Hu.
  assert (tree s2 = tree s1) as Ht by (unfold tree; by rewrite Hf).
  split; try done; rewrite ?Ht, ?Hh; try done.
  - split; [|done|congruence|congruence]. split; unfold tree; by rewrite Hf.
  - unfold dirset. by rewrite Hf.
  - unfold drift_count, file_count. by rewrite Ht, Hc, Hdc.
  - unfold drift_bytes, byte_count. by rewrite Ht, Hb, Hdb.
  - by rewrite Hu.
  - intros _ p. by apply loose_same.
Qed.

(** ** The counters

    A thread pays its debt to one counter at a time. *)
Definition paid_count (d : Z) (g : Ghost) : Ghost := MkGhost (own g) (debt_count g - d) (debt_bytes g) (unsettled g).
Definition paid_bytes (d : Z) (g : Ghost) : Ghost := MkGhost (own g) (debt_count g) (debt_bytes g - d) (unsettled g).

Lemma drift_paid a f b d : wrap64 (wrap64 (a + d) - f + (b - d)) = wrap64 (a - f + b).
Proof.
  replace (wrap64 (a + d) - f + (b - d))%Z with (wrap64 (a + d) + (b - d - f))%Z by lia.
  rewrite wrap64_add. f_equal. lia.
Qed.

Lemma guar_count d g s : inv s →
  guar g (paid_count d g) s (set_counters (wrap64 (chunk_count_ s + d)) (bytes_used_ s) s).
Proof.
  intros [Hso Hok Hc Hb]. split; try done.
  - split; [by destruct Hso|exact Hok|apply wrap64_range|exact Hb].
  - by left.
  - intros n [y Hy] [?|Hle]; [done|]. cbn in Hy. by rewrite Hok in Hy.
  - unfold drift_count. cbn. apply drift_paid.
  - intros _ p. by apply loose_same.
Qed.

Lemma guar_bytes d g s : inv s →
  guar g (paid_bytes d g) s (set_counters (chunk_count_ s) (wrap64 (bytes_used_ s + d)) s).
Proof.
  intros [Hso Hok Hc Hb]. split; try done.
  - split; [by destruct Hso|exact Hok|exact Hc|apply wrap64_range].
  - by left.
  - intros n [y Hy] [?|Hle]; [done|]. cbn in Hy. by rewrite Hok in Hy.
  - unfold drift_bytes. cbn. apply drift_paid.
  - intros _ p. by apply loose_same.
Qed.

(** ** Knowledge about a chunk whose stripe is held *)

Section Pinned.
Variable (id : ChunkId.t).
Hypothesis Hv : ChunkId.valid id.

Record pinned (l : list Z) (x : option file) s : Prop := {
  p_inv : inv s;
  p_held : held s = l;
  p_final : tree s !! final_of root id = x
}.

Lemma owned_final l : LockFor id ∈ l → owned l (final_of root id).
Proof. intros Hl. exists id. split_and!; [done|done|by left]. Qed.

Lemma owned_tmp l n : LockFor id ∈ l → owned l (tmp_path root (hex_of id) (uuid_at n)).
Proof. intros Hl. exists id. split_and!; [done|done|right; by exists n]. Qed.

Lemma pinned_interf F l x s s1 : LockFor id ∈ l → pinned l x s → interf F s s1 → pinned l x s1.
Proof.
  intros Hl [Hi Hh Hx] Hint. split; [by apply Hint|by rewrite (i_held _ _ _ Hint)|].
  rewrite (i_files _ _ _ Hint); [done|]. rewrite Hh. by apply owned_final.
Qed.

Lemma pinned_still l x s s1 : pinned l x s → still s s1 → held s1 = held s → pinned l x s1.
Proof.
  intros [Hi Hh Hx] Hs Hh'. split; [by eapply still_inv|congruence|].
  destruct Hs as (Hf & _). unfold tree. by rewrite Hf.
Qed.

Lemma pinned_view l x s : pinned l x s → view root s !! ChunkId.ToHexString id = content <$> x.
Proof. intros [_ _ Hx]. by rewrite view_at, Hx. Qed.

(** A stripe that was just taken. *)
Lemma pinned_start F s s1 :
  interf F s s1 → pinned (LockFor id :: held s1) (tree s1 !! final_of root id) (set_held (LockFor id :: held s1) s1).
Proof. intros Hi. split; [by apply (still_inv s1); [|apply Hi]|done|done]. Qed.

(** ** Changing the tree below a held stripe *)

(** What a change of the tree leaves unsynced. *)
Definition logged s1 s2 : Prop := unsynced s2 ⊆ unsynced s1 ∪ touched (fs (os s1)) (fs (os s2)).

Lemma logged_upd f s : logged s (upd_fs f s).
Proof. unfold logged, unsynced. cbn. done. Qed.

Lemma logged_with_fd p f s : logged s (with_fd p f s).
Proof. unfold logged, unsynced. cbn. done. Qed.

Lemma logged_same s1 s2 : unsynced s2 = unsynced s1 → logged s1 s2.
Proof. unfold logged. intros ->. apply union_subseteq_l. Qed.

Lemma logged_tick s : logged s (tick s).
Proof. by apply logged_same. Qed.

Lemma unsynced_with_fd p s : unsynced (with_fd p (fs (os s)) s) = unsynced s.
Proof. by rewrite with_fd_same. Qed.

Lemma logged_new s1 s2 p :
  logged s1 s2 → p ∉ unsynced s1 → p ∈ unsynced s2 →
  tree s2 !! p ≠ tree s1 !! p ∨ (p ∈ dirset s1 ∧ p ∉ dirset s2) ∨ (p ∈ dirset s2 ∧ p ∉ dirset s1).
Proof.
  intros Hlog Hno [?|Ht]%Hlog%elem_of_union; [done|]. apply elem_of_touched in Ht. unfold dirset, tree.
  destruct Ht as [Hne|[?|?]]; [left; congruence|tauto..].
Qed.

(** [s] with the generator at its [n]-th UUID: the temporary file of a [Put]
    that drew that one. *)
Definition at_uuid (n : nat) s : Disk :=
  set_rt {| impl_ := impl_ (rt s); t_correlation_id := t_correlation_id (rt s); op_lines := op_lines (rt s);
            audit_lines := audit_lines (rt s); uuids_drawn := n |} s.

Lemma guar_tree l x g g' s1 s2 :
  LockFor id ∈ l → pinned l x s1 → sound root s2 → fd_step g g' s1 s2 → held s2 = held s1 → dirset s1 ⊆ dirset s2 →
  chunk_count_ s2 = chunk_count_ s1 → bytes_used_ s2 = bytes_used_ s1 →
  (∀ p, tree s2 !! p ≠ tree s1 !! p → p = final_of root id ∨ ∃ n, p = tmp_path root (hex_of id) (uuid_at n)) →
  (debt_count g' - file_count s2 = debt_count g - file_count s1)%Z →
  (debt_bytes g' - byte_count s2 = debt_bytes g - byte_count s1)%Z →
  logged s1 s2 → unsettled g = None →
  (tree s2 !! final_of root id ≠ x → is_Some (tree s2 !! final_of root id) → unsettled g' = Some (final_of root id)) →
  guar g g' s1 s2.
Proof.
  intros Hl [[Hso Hok Hcc Hbb] Hh Hx] Hs2 [? ? ? ? ?] Hh2 Hd2 Hc2 Hb2 Hp Hdc Hdb Hlog Hug Hug'.
  split; try done.
  - by split; rewrite ?Hc2, ?Hb2.
  - by rewrite Hh2.
  - intros p Hne. exists id. rewrite Hh. split_and!; [done|done|by apply Hp].
  - unfold drift_count. rewrite Hc2. f_equal. lia.
  - unfold drift_bytes. rewrite Hb2. f_equal. lia.
  - intros p Hin Hno Hin2. destruct (logged_new s1 s2 p Hlog Hno Hin2) as [Hne|[[_ Hout]|[_ ?]]]; [|by destruct Hout; apply Hd2|done].
    destruct (Hp p Hne) as [->|[n ->]]; [apply layout_final_dir in Hin|apply layout_tmp_dir in Hin]; try done; by apply sound_layout.
  - intros _ p ((i & Hvi & ->) & Hsome & Hin2). rewrite Hug.
    destruct (decide (tree s2 !! final_of root i = tree s1 !! final_of root i)) as [E|Hne].
    + right. split; [|done]. split; [by exists i|]. split; [by rewrite <- E|].
      destruct (decide (final_of root i ∈ unsynced s1)) as [|Hno]; [done|exfalso].
      destruct (logged_new s1 s2 _ Hlog Hno Hin2) as [?|[[Hin _]|[Hin _]]]; [done|..];
        (apply layout_final_dir in Hin; [done|by apply sound_layout]).
    + left. destruct (Hp _ Hne) as [Hi|[n Hi]].
      * rewrite Hi in *. rewrite Hx in Hne. by apply Hug'.
      * symmetry in Hi. by apply tmp_path_not_final in Hi; [|rewrite !hex_length].
Qed.

Lemma put_trees_changes n data s m' p :
  put_trees root id data (at_uuid n s) m' → m' !! p ≠ tree s !! p →
  p = final_of root id ∨ ∃ n, p = tmp_path root (hex_of id) (uuid_at n).
Proof.
  intros Hm Hne. destruct (decide (p = tmp_of root id (at_uuid n s))) as [->|Hnt]; [right; by exists n|].
  destruct Hm as [Hm| ->].
  - by rewrite (delete_lookup_same _ _ _ _ Hm) in Hne.
  - rewrite published_lookup in Hne. case_decide; [by left|]. by rewrite decide_False in Hne.
Qed.

Lemma sound_put n data s s' :
  digest_matches id data → sound root s → grown (final_of root id) s s' →
  put_trees root id data (at_uuid n s) (tree s') → sound root s'.
Proof.
  intros Hd [Hl Hp Hi] Hgr Hm. split.
  - by apply (layout_put root id data (at_uuid n s)).
  - by apply (placed_put root id data (at_uuid n s)).
  - by apply (intact_put root id data (at_uuid n s)).
Qed.

(** The numbers of files and bytes. *)
Lemma counts_tmp n m m' :
  delete (tmp_path root (hex_of id) (uuid_at n)) m' = delete (tmp_path root (hex_of id) (uuid_at n)) m →
  chunk_files root m' = chunk_files root m.
Proof.
  intros Hm. apply chunk_files_ext. intros p Hp. eapply delete_lookup_same; [exact Hm|].
  intros <-. destruct Hp as [_ Hp]. by rewrite is_chunk_tmp in Hp.
Qed.

Lemma counts_published n data s :
  tree s !! final_of root id = None →
  size (chunk_files root (published s (tmp_path root (hex_of id) (uuid_at n)) (final_of root id) data)) =
    S (size (chunk_files root (tree s))) ∧
  total_bytes (chunk_files root (published s (tmp_path root (hex_of id) (uuid_at n)) (final_of root id) data)) =
    length data + total_bytes (chunk_files root (tree s)).
Proof.
  intros Hx. unfold published. pose proof (counted_final root id Hv) as Hc.
  rewrite chunk_files_insert by done.
  rewrite (counts_tmp n (tree s) (delete _ _)) by apply delete_delete_eq.
  rewrite map_size_insert_None, total_bytes_insert by (by rewrite chunk_files_lookup). done.
Qed.

Lemma counts_removed f m :
  m !! final_of root id = Some f →
  S (size (chunk_files root (delete (final_of root id) m))) = size (chunk_files root m) ∧
  length (content f) + total_bytes (chunk_files root (delete (final_of root id) m)) = total_bytes (chunk_files root m).
Proof.
  intros Hx. pose proof (counted_final root id Hv) as Hc. rewrite chunk_files_delete.
  assert (chunk_files root m !! final_of root id = Some f) as Hf by (by rewrite chunk_files_lookup).
  rewrite (total_bytes_delete _ _ _ Hf). split; [|done].
  rewrite <- (map_size_insert_None _ f) by apply lookup_delete_eq. by rewrite insert_delete_id.
Qed.

End Pinned.
End Rely.

#[export] Hint Resolve logged_upd logged_with_fd logged_tick unsynced_with_fd : core.
