(* ===== verification/ThreadOps.v ===== *)
(** * Each operation of the disk store among other threads

    The programs of [Programs] are [safe] in the sense of [ThreadRules]: every
    action keeps the shared invariant and leaves the files of other stripes
    alone, and the request takes effect at one instant. *)

From S2P Require Import Prelude Result Cxx Sha256 ChunkId Logger IChunkStore Posix LocalDisk DiskRules DiskLayout DiskEffects DiskTheorems DiskContract DiskSafety DiskDurability Programs Threads ThreadRules.
Import LocalDisk.

Section Ops.
Context `{Evp, Platform, UuidSource, !EvpLaws, !UuidLaws}.
Variable root : path.
Implicit Types s : Disk.

Hypothesis no_exists_fault : ¬ stat_fault SysExists.
Hypothesis no_size_fault : ¬ stat_fault SysFileSize.

(** The end of an operation: everything is given back and the reply is the
    one the operation took effect with. *)
Definition ended (r : reply) (g : Ghost) (c : option reply) s : Prop :=
  g = no_ghost ∧ c = Some r ∧ held s = [].

Section Request.
Variable q : option request.
Variable id : ChunkId.t.
Hypothesis Hv : ChunkId.valid id.

Abbreviation z := (LockFor id).

(** [fs_exists] on the final path. *)
Lemma safe_exists_call l x (Q : ec bool → Ghost → option reply → Disk → Prop) g c s :
  z ∈ l → pinned root id l x s →
  (∀ s', pinned root id l x s' → Q (inl (bool_decide (is_Some x))) g c s') →
  safe root q (act (sys (fs_exists (final_of root id)))) Q g c s.
Proof.
  intros Hl Hp HQ. apply safe_still. intros s1 Hi. pose proof (pinned_interf _ _ Hv _ _ _ _ _ Hl Hp Hi) as Hp1.
  assert (path_exists (fs (os s1)) (final_of root id) = bool_decide (is_Some x)) as Hex.
  { unfold path_exists. rewrite (bool_decide_false (_ ∈ _))
      by (apply layout_final_dir, (sound_layout _ _ (inv_sound _ _ (p_inv _ _ _ _ _ Hp1)))).
    rewrite orb_false_r. by rewrite <- (p_final _ _ _ _ _ Hp1). }
  apply wp_exists.
  - done.
  - rewrite Hex. split_and!; [done|done|]. apply HQ. by eapply pinned_still.
  - intros msg Hf. by apply failed_stat in Hf.
Qed.

Lemma safe_final_path l x (Q : path → Ghost → option reply → Disk → Prop) g c s :
  z ∈ l → pinned root id l x s →
  (∀ s', pinned root id l x s' → Q (final_of root id) g c s') →
  safe root q (act (lift (FinalPathFor root id))) Q g c s.
Proof.
  intros Hl Hp HQ. apply (safe_lift root q _ (final_of root id)); [by apply FinalPathFor_eq|].
  intros s1 Hi. apply HQ. by eapply pinned_interf.
Qed.

(** [fs_file_size] on the final path. *)
Lemma safe_size_call l x (Q : ec nat → Ghost → option reply → Disk → Prop) g c s :
  z ∈ l → pinned root id l x s →
  (∀ s', pinned root id l x s' →
     match x with
     | Some f => Q (inl (length (content f))) g c s'
     | None => ∀ msg, Q (inr msg) g c s'
     end) →
  safe root q (act (sys (fs_file_size (final_of root id)))) Q g c s.
Proof.
  intros Hl Hp HQ. apply safe_still. intros s1 Hi. pose proof (pinned_interf _ _ Hv _ _ _ _ _ Hl Hp Hi) as Hp1.
  pose proof (p_final _ _ _ _ _ Hp1) as Hx. unfold tree in Hx. specialize (HQ (tick s1)).
  apply wp_file_size.
  - done.
  - intros f Hf. split_and!; [done|done|]. rewrite Hf in Hx. rewrite <- Hx in HQ. apply HQ.
    rewrite Hx. by eapply pinned_still.
  - intros msg [Hn|Hf]; [|by apply failed_stat in Hf]. split_and!; [done|done|].
    rewrite Hn in Hx. rewrite <- Hx in HQ. apply HQ. rewrite Hx. by eapply pinned_still.
Qed.

(** The body of [Exists], under its lock guard. *)
Lemma safe_Exists (Q : bool → Ghost → option reply → Disk → Prop) g c s :
  Forall (eq z) (held s) → unsettled g = None →
  (∀ s1 x s3, interf root (own g) s s1 → pinned root id (z :: held s1) x s3 →
     (held s1 ≠ [] → x = tree s1 !! final_of root id) →
     ∃ c', commits root q s3 c s3 c' ∧ Q (bool_decide (is_Some x)) g c' (set_held (held s1) s3)) →
  safe root q (Threaded.Exists root id) Q g c s.
Proof.
  intros Hz Hu HQ. apply safe_guard; [done|]. intros s1 Hi.
  pose proof (pinned_start root id _ _ _ Hi) as Hp.
  apply safe_bind. eapply safe_final_path; [by left|exact Hp|]. clear Hp. intros s2 Hp.
  apply safe_bind. eapply safe_exists_call; [by left|exact Hp|]. clear Hp. intros s2' Hp.
  intros s3 Hi3. pose proof (pinned_interf _ _ Hv _ _ _ _ _ ltac:(by left) Hp Hi3) as Hp3.
  destruct (HQ s1 _ s3 Hi Hp3) as (c' & Hc & HQ'); [done|]. split; [done|].
  exists c'. split; [done|]. rewrite (p_held _ _ _ _ _ Hp3), release_one_head. exact HQ'.
Qed.

(** Closing the one descriptor the thread has. *)
Lemma safe_close n l x (Q : unit → Ghost → option reply → Disk → Prop) g c s :
  z ∈ l → own g = {[n]} → pinned root id l x s →
  (∀ s', pinned root id l x s' → Q tt (with_own ∅ g) c s') →
  safe root q (act (sys (sys_close n))) Q g c s.
Proof.
  intros Hl Hg Hp HQ. apply safe_act. intros s1 Hi. pose proof (pinned_interf _ _ Hv _ _ _ _ _ Hl Hp Hi) as Hp1.
  apply wp_close; [done|]. exists (with_own ∅ g), c. pose proof (p_inv _ _ _ _ _ Hp1) as Hinv.
  pose proof (fd_step_close g n s1 Hg (inv_fds _ _ Hinv)) as Hfd.
  assert (guar root g (with_own ∅ g) s1 (closed n s1)) as Hguar by (by apply guar_fds).
  split; [exact Hguar|]. split; [by apply effect_same|]. apply HQ.
  split; [by apply (g_inv _ _ _ _ _ Hguar)|apply Hp1|apply Hp1].
Qed.

(** What [Get] answers about a file it has read. *)
Definition read_result (f : file) (r : Result (list byte) ChunkStoreErrorDetail) : Prop :=
  match r with
  | Ok data => data = content f ∧ digest_matches id data
  | Err e => (kind e = CorruptionDetected ∧ ¬ digest_matches id (content f)) ∨ (kind e = IoError ∧ io_fault)
  end.

Lemma safe_Get_read l f n (Q : Result (list byte) ChunkStoreErrorDetail → Ghost → option reply → Disk → Prop) g c s :
  z ∈ l → n ∈ own g → pinned root id l (Some f) s → fds (os s) !! n = Some (final_of root id) →
  (∀ r s', read_result f r → pinned root id l (Some f) s' → Q r g c s') →
  safe root q (Threaded.Get_read id (length (content f)) n) Q g c s.
Proof.
  intros Hl Hn Hp Hfd HQ. unfold Threaded.Get_read. apply safe_bind.
  assert (∀ (data : list byte) s', pinned root id l (Some f) s' →
    data = content f ∨ (length data ≠ length (content f) ∧ io_fault) →
    safe root q (
      if negb (length data =? length (content f)) then mret (IoErr "Failed to read full chunk file")
      else
        actual_hash ← act (lift (HashBytes data));
        if negb (bool_decide (actual_hash = ChunkId.RawDigest id)) then
          act (LogError ("CorruptionDetected for chunk " +:+ ChunkId.ToHexString id));;
          mret (Err (Detail CorruptionDetected "Chunk data on disk does not match its ID"))
        else
          act (Debug ("Successfully read chunk " +:+ ChunkId.ToHexString id));;
          mret (Ok data)) Q g c s') as Hrest.
  { intros data s' Hp' Ho.
    destruct (Nat.eqb_spec (length data) (length (content f))) as [Hlen|Hlen]; cbn [negb];
      [|apply HQ; [right; destruct Ho as [->|[_ ?]]; done|done]].
    assert (data = content f) as -> by (destruct Ho as [?|[? _]]; done).
    destruct (HashBytes_done (content f)) as (d & Hd & _).
    apply safe_bind, (safe_lift _ _ _ d); [done|]. intros s1 Hi.
    pose proof (pinned_interf _ _ Hv _ _ _ _ _ Hl Hp' Hi) as Hp1.
    case_bool_decide as Hdig; cbn [negb]; apply safe_bind, safe_log; intros s2 r Hi2;
      pose proof (pinned_interf _ _ Hv _ _ _ _ _ Hl Hp1 Hi2) as Hp2; apply HQ; try (by eapply pinned_still).
    - split; [done|]. unfold digest_matches. by rewrite Hd, Hdig.
    - left. split; [done|]. unfold digest_matches. rewrite Hd. congruence. }
  destruct (Nat.ltb_spec 0 (length (content f))) as [Hpos|Hzero].
  - apply safe_still. intros s1 Hi. pose proof (pinned_interf _ _ Hv _ _ _ _ _ Hl Hp Hi) as Hp1.
    eapply wp_read; [by rewrite (i_fds _ _ _ _ Hi)|apply (p_final _ _ _ _ _ Hp1)|done|..].
    + intros k Hk. (split; [done|]; split; [done|]). refine (Hrest (take k (content f)) (tick s1) _ _); [by eapply pinned_still|].
      destruct (decide (length (content f) ≤ k)) as [?|Hlt]; [left; by apply take_ge|].
      right. destruct Hk as [->|(j & Hj & ->)]; [lia|]. split.
      * rewrite length_take. lia.
      * eexists _, SysRead. by rewrite Hj.
    + intros Hfl. (split; [done|]; split; [done|]). refine (HQ _ (tick s1) _ _); [|by eapply pinned_still].
      right. split; [done|by eapply failed_fault].
  - apply (Hrest [] s); [done|]. left. destruct (content f); [done|]. cbn in Hzero. lia.
Qed.

(** Opening the file for reading. *)
Lemma safe_open_read l f (Q : option nat → Ghost → option reply → Disk → Prop) g c s :
  z ∈ l → own g = ∅ → pinned root id l (Some f) s →
  (∀ n s', pinned root id l (Some f) s' → fds (os s') !! n = Some (final_of root id) → Q (Some n) (with_own {[n]} g) c s') →
  (∀ s', io_fault → pinned root id l (Some f) s' → Q None g c s') →
  safe root q (act (sys (internal_open (final_of root id) [O_RDONLY; O_CLOEXEC]))) Q g c s.
Proof.
  intros Hl Hg Hp Hsome Hnone. apply safe_act. intros s1 Hi. pose proof (pinned_interf _ _ Hv _ _ _ _ _ Hl Hp Hi) as Hp1.
  pose proof (p_inv _ _ _ _ _ Hp1) as Hinv. apply wp_open_read; [set_solver..|done| |].
  - intros _. exists (with_own {[next_fd (os s1)]} g), c.
    pose proof (fd_step_open g (final_of root id) (fs (os s1)) s1 Hg (inv_fds _ _ Hinv)) as Hfd.
    assert (guar root g (with_own {[next_fd (os s1)]} g) s1 (with_fd (final_of root id) (fs (os s1)) s1)) as Hguar
      by (by apply guar_fds).
    split; [exact Hguar|]. split; [by apply effect_same|]. apply Hsome; [|apply lookup_insert_eq].
    split; [by apply (g_inv _ _ _ _ _ Hguar)|apply Hp1|apply Hp1].
  - intros Hbad. exists g, c. assert (still s1 (tick s1)) as Hst by done.
    split; [by apply still_guar|]. split; [by apply effect_same|]. apply Hnone; [|by eapply pinned_still].
    destruct Hbad as [Hno|?]; [|by eapply failed_fault].
    pose proof (p_final _ _ _ _ _ Hp1) as Hx. unfold tree in Hx. congruence.
Qed.

(** What [Get] answers about the chunk as it is on disk. *)
Definition get_result (x : option file) (r : Result (list byte) ChunkStoreErrorDetail) : Prop :=
  match x with
  | Some f => read_result f r ∨ ∃ e, r = Err e ∧ kind e = IoError ∧ io_fault
  | None => ∃ e, r = Err e ∧ kind e = NotFound
  end.

Lemma get_result_spec l x r s : pinned root id l x s → get_result x r → get_spec io_fault (view root s) id r.
Proof.
  intros Hp Hr. pose proof (pinned_view _ _ Hv _ _ _ Hp) as Hview. unfold get_spec. rewrite Hview.
  destruct x as [f|]; cbn in *.
  - destruct Hr as [Hr|(e & -> & Hk & Hf)]; [|right; right; split_and!; [done|by eexists|done]].
    destruct r as [data|e]; [by destruct Hr as [-> ?]|]. right.
    destruct Hr as [[Hk Hn]|[Hk Hf]]; [left; split; [done|by exists (content f)]|right; split_and!; [done|by eexists|done]].
  - destruct Hr as (e & -> & Hk). by left.
Qed.

Lemma safe_Get (Q : Result (list byte) ChunkStoreErrorDetail → Ghost → option reply → Disk → Prop) c s :
  held s = [] →
  (∀ r s', inv root s' → held s' = [z] → get_spec io_fault (view root s') id r →
     ∃ c', commits root q s' c s' c' ∧ Q r no_ghost c' (set_held [] s')) →
  safe root q (Threaded.Get root id) Q no_ghost c s.
Proof.
  intros Hs HQ. apply safe_guard; [by rewrite Hs|]. intros s1 Hi.
  pose proof (pinned_start root id _ _ _ Hi) as Hp. rewrite (i_held _ _ _ _ Hi), Hs in Hp |- *.
  revert Hp. generalize (tree s1 !! final_of root id) as x. intros x Hp.
  match goal with |- safe _ _ _ ?R _ _ _ => set (end_ := R) end.
  assert (∀ r s2, pinned root id [z] x s2 → get_result x r → end_ r no_ghost c s2) as Hend.
  { intros r s2 Hp2 Hr s3 Hi3. pose proof (pinned_interf _ _ Hv _ _ _ _ _ ltac:(by left) Hp2 Hi3) as Hp3.
    destruct (HQ r s3) as (c' & Hc & HQ'); [apply Hp3|apply Hp3|by eapply get_result_spec|].
    split; [done|]. exists c'. rewrite (p_held _ _ _ _ _ Hp3), release_one_head. done. }
  clearbody end_. clear HQ.
  apply safe_bind. eapply safe_final_path; [by left|exact Hp|]. clear dependent s1. intros s1 Hp1.
  apply safe_bind. eapply safe_size_call; [by left|exact Hp1|]. clear dependent s1. intros s1 Hp1.
  destruct x as [f|]; [|intros msg; apply Hend; [done|by eexists]].
  apply safe_bind. eapply safe_open_read; [by left|done|exact Hp1|..]; clear dependent s1.
  - intros n s1 Hp1 Hn. apply safe_protect.
    eapply safe_Get_read; [by left|cbn; set_solver|exact Hp1|done|]. intros r s2 Hr Hp2.
    eapply safe_close; [by left|done|exact Hp2|]. intros s3 Hp3. apply Hend; [done|by left].
  - intros s1 Hf Hp1. apply Hend; [done|]. right. by eexists.
Qed.

(** Paying a debt. *)
Lemma safe_count d l x (Q : unit → Ghost → option reply → Disk → Prop) g c s :
  z ∈ l → pinned root id l x s →
  (∀ s', pinned root id l x s' → Q tt (paid_count d g) c s') →
  safe root q (act (modify (λ s, set_counters (wrap64 (chunk_count_ s + d)) (bytes_used_ s) s))) Q g c s.
Proof.
  intros Hl Hp HQ. apply safe_act. intros s1 Hi. pose proof (pinned_interf _ _ Hv _ _ _ _ _ Hl Hp Hi) as Hp1.
  apply wp_modify. exists (paid_count d g), c. pose proof (guar_count root d g s1 (p_inv _ _ _ _ _ Hp1)) as Hg.
  split; [exact Hg|]. split; [by apply effect_same|]. apply HQ. split; [apply (g_inv _ _ _ _ _ Hg)|apply Hp1|apply Hp1].
Qed.

Lemma safe_bytes d l x (Q : unit → Ghost → option reply → Disk → Prop) g c s :
  z ∈ l → pinned root id l x s →
  (∀ s', pinned root id l x s' → Q tt (paid_bytes d g) c s') →
  safe root q (act (modify (λ s, set_counters (chunk_count_ s) (wrap64 (bytes_used_ s + d)) s))) Q g c s.
Proof.
  intros Hl Hp HQ. apply safe_act. intros s1 Hi. pose proof (pinned_interf _ _ Hv _ _ _ _ _ Hl Hp Hi) as Hp1.
  apply wp_modify. exists (paid_bytes d g), c. pose proof (guar_bytes root d g s1 (p_inv _ _ _ _ _ Hp1)) as Hg.
  split; [exact Hg|]. split; [by apply effect_same|]. apply HQ. split; [apply (g_inv _ _ _ _ _ Hg)|apply Hp1|apply Hp1].
Qed.

(** Removing the chunk: the instant at which [Delete] takes effect. *)
Definition removed (f : file) : Ghost := MkGhost ∅ (-1) (- Z.of_nat (length (content f))) None.

Lemma sound_removed s s' :
  sound root s → dirset s' = dirset s → tree s' = delete (final_of root id) (tree s) → sound root s'.
Proof. intros Hs Hd Ht. apply (sound_change root (OpDelete id) s s'); [exact Hv| |done]. right. right. by exists id. Qed.

Lemma guar_removed l f s :
  z ∈ l → pinned root id l (Some f) s →
  guar root no_ghost (removed f) s (upd_fs (with_files (delete (final_of root id)) (fs (os s))) s).
Proof.
  intros Hl Hp. destruct (counts_removed root id Hv f (tree s) (p_final _ _ _ _ _ Hp)) as [Hc Hb].
  eapply guar_tree; [exact Hv|exact Hl|exact Hp|..]; try done.
  - apply (sound_removed s); [apply (p_inv _ _ _ _ _ Hp)|done|done].
  - split; cbn; try done; [apply (p_inv _ _ _ _ _ Hp)|].
    intros n [y Hy] [?|Hle]; [done|]. by rewrite (inv_fds _ _ (p_inv _ _ _ _ _ Hp)) in Hy.
  - intros p Hne. left. destruct (decide (p = final_of root id)) as [|Hnf]; [done|].
    cbn in Hne. by rewrite lookup_delete_ne in Hne.
  - unfold file_count. change (tree (upd_fs _ s)) with (delete (final_of root id) (tree s)). cbn [debt_count removed no_ghost]. lia.
  - unfold byte_count. change (tree (upd_fs _ s)) with (delete (final_of root id) (tree s)). cbn [debt_bytes removed no_ghost]. lia.
  - intros _ [y Hy]. cbn in Hy. by rewrite lookup_delete_eq in Hy.
Qed.

(** What is left of a [Delete] once the chunk is gone. *)
Lemma safe_count_down {A} f (a : A) r s :
  pinned root id [z] None s →
  safe root q
    (act Threaded.fetch_sub_count;; act (Threaded.fetch_sub_bytes (Z.of_nat (length (content f))));;
     act (Debug ("Successfully deleted chunk " +:+ ChunkId.ToHexString id));; mret a)
    (λ a' g c s', a' = a ∧ g = no_ghost ∧ c = r ∧ pinned root id [z] None s') (removed f) r s.
Proof.
  intros Hp. apply safe_bind. eapply (safe_count (-1)); [by left|exact Hp|]. clear s Hp. intros s Hp.
  apply safe_bind. eapply (safe_bytes (- Z.of_nat (length (content f)))); [by left|exact Hp|]. clear s Hp. intros s Hp.
  assert (paid_bytes (- Z.of_nat (length (content f))) (paid_count (-1) (removed f)) = no_ghost) as ->
    by (unfold paid_bytes, paid_count, no_ghost; cbn; f_equal; lia).
  apply safe_bind, safe_log. intros s1 rt1 Hi. split; [done|]. split; [done|]. split; [done|].
  eapply pinned_still; [eapply pinned_interf; [exact Hv| |exact Hp|exact Hi]|done|done]. by left.
Qed.

(** ** Writing a chunk *)

Variable data : list byte.
Hypothesis Hd : digest_matches id data.
Hypothesis Hq : q = Some (ReqPut id data).

Abbreviation shard := (shard_path root (hex_of id)).
Abbreviation tmp n := (tmp_path root (hex_of id) (uuid_at n)).
Abbreviation final := (final_of root id).

(** Directories are made and the temporary file changes. *)
Lemma kept_tmp n l x g g' s1 s2 :
  z ∈ l → pinned root id l x s1 → grown final s1 s2 → delete (tmp n) (tree s2) = delete (tmp n) (tree s1) →
  fd_step g g' s1 s2 → held s2 = held s1 → chunk_count_ s2 = chunk_count_ s1 → bytes_used_ s2 = bytes_used_ s1 →
  debt_count g' = debt_count g → debt_bytes g' = debt_bytes g → logged s1 s2 → unsettled g = None →
  guar root g g' s1 s2 ∧ pinned root id l x s2 ∧ view root s2 = view root s1.
Proof.
  intros Hl Hp Hgr Ht Hfd Hh Hc Hb Hdc Hdb Hlog Hug.
  assert (put_trees root id data (at_uuid n s1) (tree s2)) as Hput by (by left).
  assert (guar root g g' s1 s2) as Hg.
  { eapply guar_tree; [exact Hv|exact Hl|exact Hp|exact (sound_put root id Hv n data s1 s2 Hd (inv_sound _ _ (p_inv _ _ _ _ _ Hp)) Hgr Hput)|try done..].
    - destruct Hgr as [->| ->]; set_solver.
    - intros p. by apply (put_trees_changes root id n data).
    - unfold file_count. rewrite (counts_tmp root id n _ _ Ht). lia.
    - unfold byte_count. rewrite (counts_tmp root id n _ _ Ht). lia.
    - intros []. rewrite <- (p_final _ _ _ _ _ Hp).
      eapply delete_lookup_same; [exact Ht|]. by apply (tmp_not_final root id id (at_uuid n s1)). }
  split; [exact Hg|]. split; [|by apply (view_put_kept root id (at_uuid n s1))].
  split; [apply Hg|rewrite Hh; apply Hp|]. rewrite <- (p_final _ _ _ _ _ Hp).
  eapply delete_lookup_same; [exact Ht|]. by apply (tmp_not_final root id id (at_uuid n s1)).
Qed.

(** The state of a [Put] once its shard directory is there. *)
Record writing (n : nat) (x : option file) s : Prop := {
  w_pinned : pinned root id [z] None s;
  w_shard : shard ∈ dirset s;
  w_tmp : tree s !! tmp n = x
}.

Lemma writing_interf F n x s s1 : writing n x s → interf root F s s1 → writing n x s1.
Proof.
  intros [Hp Hsh Ht] Hi. split; [eapply pinned_interf; [exact Hv|by left|exact Hp|exact Hi]|by apply (i_dirs _ _ _ _ Hi)|].
  rewrite (i_files _ _ _ _ Hi); [done|]. rewrite (p_held _ _ _ _ _ Hp). apply (owned_tmp root id Hv). by left.
Qed.

Lemma writing_tmp_dir n x s : writing n x s → tmp n ∉ dirset s.
Proof. intros Hw. apply layout_tmp_dir, (sound_layout _ _ (inv_sound _ _ (p_inv _ _ _ _ _ (w_pinned _ _ _ Hw)))). Qed.

Lemma tree_shard l x s : pinned root id l x s → tree s !! shard = None.
Proof. intros Hp. apply layout_shard_file, (sound_layout _ _ (inv_sound _ _ (p_inv _ _ _ _ _ Hp))). Qed.

(** A step of the temporary file. *)
Lemma writing_step n x y g g' s1 s2 :
  writing n x s1 → dirset s2 = dirset s1 → delete (tmp n) (tree s2) = delete (tmp n) (tree s1) → tree s2 !! tmp n = y →
  fd_step g g' s1 s2 → held s2 = held s1 → chunk_count_ s2 = chunk_count_ s1 → bytes_used_ s2 = bytes_used_ s1 →
  debt_count g' = debt_count g → debt_bytes g' = debt_bytes g → logged s1 s2 → unsettled g = None →
  guar root g g' s1 s2 ∧ writing n y s2 ∧ view root s2 = view root s1.
Proof.
  intros Hw Hdir Ht Hy Hfd Hh Hc Hb Hdc Hdb Hlog Hug.
  destruct (kept_tmp n [z] None g g' s1 s2) as (Hg & Hp & Hvw); try done; [by left|apply (w_pinned _ _ _ Hw)|by left|].
  split; [done|]. split; [|done]. split; [done|rewrite Hdir; apply (w_shard _ _ _ Hw)|done].
Qed.

(** Where a [Put] stands when its write path is left: it has taken effect, or
    it failed and nothing has changed. *)
Definition put_left (r : Result unit ChunkStoreErrorDetail) (c : option reply) : Prop :=
  c = Some (RepDone r) ∨ (c = None ∧ ∃ e, r = Err e ∧ kind e = IoError ∧ io_fault).

Definition put_end (r : Result unit ChunkStoreErrorDetail) (g : Ghost) (c : option reply) s : Prop :=
  g = no_ghost ∧ put_left r c ∧ ∃ x, pinned root id [z] x s.

Lemma failed_end msg c s : c = None → io_fault → (∃ x, pinned root id [z] x s) → put_end (IoErr msg) no_ghost c s.
Proof. intros -> Hf Hp. split; [done|]. split; [|done]. right. split; [done|]. by eexists. Qed.

(** The thread has nothing left to sync. *)
Definition settled (g : Ghost) : Ghost := MkGhost (own g) (debt_count g) (debt_bytes g) None.

Lemma guar_settled g g' s1 s2 :
  guar root g g' s1 s2 → (sync_reliable → ∀ p, loose root s2 p → loose root s1 p ∧ unsettled g ≠ Some p) →
  guar root g (settled g') s1 s2.
Proof. intros [] Hs. split; try done. intros Hsync p Hp. right. by apply Hs. Qed.

Lemma effect_settled g g' s1 c s2 :
  view root s2 = view root s1 → effect root q g s1 c (settled g') s2 c.
Proof. intros Hvw. split; [by intros p|by left]. Qed.

Lemma guar_synced g s :
  unsettled g = Some final → inv root s → guar root g (settled g) s (set_os (settle shard (step_time (os s))) s).
Proof.
  intros Hun [Hso Hok Hc Hb].
  assert (∀ p, p ∈ unsynced (set_os (settle shard (step_time (os s))) s) ↔ parent p ≠ shard ∧ p ∈ unsynced s) as Hu
    by (intros p; unfold unsynced; cbn; by rewrite elem_of_filter).
  split; try done.
  - split; [by destruct Hso|done..].
  - by left.
  - intros n [y Hy] [?|Hle]; [done|]. cbn in Hy. by rewrite Hok in Hy.
  - intros p _ Hno. rewrite Hu. tauto.
  - intros _ p (Hf & Hx & [Hne Hin]%Hu). right. split; [by split_and!|]. rewrite Hun. intros [= <-].
    apply Hne. unfold final_of. by rewrite parent_final.
Qed.

(** Opening and syncing the shard directory: afterwards the chunk is settled,
    unless a call failed. *)
Lemma safe_open_dir l x (Q : option nat → Ghost → option reply → Disk → Prop) g c s :
  z ∈ l → own g = ∅ → pinned root id l x s → shard ∈ dirset s →
  (∀ n s', pinned root id l x s' → fds (os s') !! n = Some shard → shard ∈ dirset s' →
     Q (Some n) (with_own {[n]} g) c s') →
  (∀ s', pinned root id l x s' → Q None (settled g) c s') →
  safe root q (act (sys (internal_open shard [O_RDONLY; O_DIRECTORY; O_CLOEXEC]))) Q g c s.
Proof.
  intros Hl Hg Hp Hdir Hsome Hnone. apply safe_act. intros s1 Hi. pose proof (pinned_interf _ _ Hv _ _ _ _ _ Hl Hp Hi) as Hp1.
  apply (i_dirs _ _ _ _ Hi) in Hdir. pose proof (p_inv _ _ _ _ _ Hp1) as Hinv. apply wp_open_dir; [set_solver..|done| |].
  - intros _. exists (with_own {[next_fd (os s1)]} g), c.
    pose proof (fd_step_open g shard (fs (os s1)) s1 Hg (inv_fds _ _ Hinv)) as Hfd.
    assert (guar root g (with_own {[next_fd (os s1)]} g) s1 (with_fd shard (fs (os s1)) s1)) as Hguar
      by (by apply guar_fds).
    split; [exact Hguar|]. split; [by apply effect_same|]. apply Hsome; [|apply lookup_insert_eq|exact Hdir].
    split; [by apply (g_inv _ _ _ _ _ Hguar)|apply Hp1|apply Hp1].
  - intros Hbad. exists (settled g), c. assert (still s1 (tick s1)) as Hst by done.
    split; [|split; [by apply effect_settled|apply Hnone; by eapply pinned_still]].
    apply guar_settled; [by apply still_guar|]. intros Hsync. destruct Hbad as [?|[msg Hf]]; [done|].
    by destruct (Hsync _ _ _ ltac:(by left) Hf).
Qed.

Lemma safe_fsync_dir d l x (Q : bool → Ghost → option reply → Disk → Prop) g c s :
  z ∈ l → d ∈ own g → pinned root id l x s → fds (os s) !! d = Some shard → shard ∈ dirset s →
  unsettled g = Some final →
  (∀ b s', pinned root id l x s' → Q b (settled g) c s') →
  safe root q (act (sys (internal_fsync d))) Q g c s.
Proof.
  intros Hl Hg Hp Hfd Hdir Hun HQ. apply safe_act. intros s1 Hi. pose proof (pinned_interf _ _ Hv _ _ _ _ _ Hl Hp Hi) as Hp1.
  assert (shard ∈ dirset s1) as Hdir1 by (by apply (i_dirs _ _ _ _ Hi)).
  pose proof (p_inv _ _ _ _ _ Hp1) as Hinv.
  eapply wp_fsync_dir; [by rewrite (i_fds _ _ _ _ Hi)|exact Hdir1|done|..].
  - exists (settled g), c. match goal with |- context [guar _ _ _ s1 ?S2] => set (s2 := S2) end.
    assert (guar root g (settled g) s1 s2) as Hguar by (apply guar_synced; [done|exact Hinv]).
    split; [exact Hguar|]. split; [by apply effect_settled|]. apply HQ.
    split; [apply (g_inv _ _ _ _ _ Hguar)|apply Hp1|apply Hp1].
  - intros [msg Hf]. exists (settled g), c. assert (still s1 (tick s1)) as Hst by done.
    split; [|split; [by apply effect_settled|apply HQ; by eapply pinned_still]].
    apply guar_settled; [by apply still_guar|]. intros Hsync. by destruct (Hsync _ _ _ ltac:(by right) Hf).
Qed.

Definition added (F : gset nat) : Ghost := MkGhost F 1 (Z.of_nat (length data)) None.

(** ... and before its directory is synced. *)
Definition placed_by (F : gset nat) : Ghost := MkGhost F 1 (Z.of_nat (length data)) (Some final).

(** What is left of a [Put] once the chunk is in place. *)
Lemma safe_count_and_close (o : option nat) r s F :
  match o with Some d => F = {[d]} | None => F = ∅ end → pinned root id [z] (Some (File data true)) s →
  safe root q
    (act Threaded.fetch_add_count;; act (Threaded.fetch_add_bytes (Z.of_nat (length data)));;
     act (Debug ("Successfully wrote chunk " +:+ ChunkId.ToHexString id));;
     act (sys (ScopedFd_destroy o));; mret r) put_end (added F) (Some (RepDone r)) s.
Proof.
  intros HF Hp. apply safe_bind. eapply (safe_count 1); [by left|exact Hp|]. clear s Hp. intros s Hp.
  apply safe_bind. eapply (safe_bytes (Z.of_nat (length data))); [by left|exact Hp|]. clear s Hp. intros s Hp.
  assert (paid_bytes (Z.of_nat (length data)) (paid_count 1 (added F)) = with_own F no_ghost) as ->
    by (unfold paid_bytes, paid_count, with_own; cbn; f_equal; lia).
  apply safe_bind, safe_log. intros s1 rt1 Hi. pose proof (pinned_interf _ _ Hv _ _ _ _ _ ltac:(by left) Hp Hi) as Hp1.
  assert (pinned root id [z] (Some (File data true)) (set_rt rt1 s1)) as Hp2 by (by eapply pinned_still).
  apply safe_bind. destruct o as [d|]; subst F.
  - eapply safe_close; [by left|done|exact Hp2|]. intros s2 Hp3. split; [done|]. split; [by left|by eexists].
  - apply safe_still. intros s2 Hi2. apply wp_sys_ret. split; [done|]. split; [done|].
    split; [done|]. split; [by left|]. eexists. eapply pinned_interf; [done| |exact Hp2|exact Hi2]. by left.
Qed.

(** The rename: the instant at which [Put] takes effect. *)
Definition renamed n s : Disk :=
  upd_fs (with_files (λ m, <[final := File data true]> (delete (tmp n) m)) (fs (os s))) s.

Lemma renamed_step n s :
  writing n (Some (File data true)) s →
  guar root no_ghost (placed_by ∅) s (renamed n s) ∧ pinned root id [z] (Some (File data true)) (renamed n s) ∧
  view root (renamed n s) = <[ChunkId.ToHexString id := data]> (view root s).
Proof.
  intros Hw. pose proof (w_pinned _ _ _ Hw) as Hp. pose proof (p_inv _ _ _ _ _ Hp) as Hinv.
  assert (put_trees root id data (at_uuid n s) (tree (renamed n s))) as Hput by (by right).
  destruct (counts_published root id Hv n data s (p_final _ _ _ _ _ Hp)) as [Hc Hb].
  assert (guar root no_ghost (placed_by ∅) s (renamed n s)) as Hg.
  { eapply guar_tree; [exact Hv| |exact Hp|eapply sound_put; [exact Hv|exact Hd|apply Hinv|by left|exact Hput]|try done..].
    - by left.
    - split; cbn; try done; [apply Hinv|]. intros k [y Hy] [?|Hle]; [done|]. by rewrite (inv_fds _ _ Hinv) in Hy.
    - intros p. by apply (put_trees_changes root id n data).
    - unfold file_count. change (tree (renamed n s)) with (published s (tmp n) final data). cbn [debt_count placed_by no_ghost]. lia.
    - unfold byte_count. change (tree (renamed n s)) with (published s (tmp n) final data). cbn [debt_bytes placed_by no_ghost]. lia.
    - exact (logged_upd _ s). }
  split; [exact Hg|]. split; [|by apply (view_put_published root id data (at_uuid n s))].
  split; [apply Hg|apply Hp|apply lookup_insert_eq].
Qed.

(** Removing the temporary file after a failed step. *)
Lemma safe_remove_tmp n x (Q : ec bool → Ghost → option reply → Disk → Prop) g c s :
  writing n x s → unsettled g = None →
  (∀ o y s', writing n y s' → (∀ k, k ∈ own g → fds (os s') !! k = fds (os s) !! k) → Q o g c s') →
  safe root q (act (sys (fs_remove (tmp n)))) Q g c s.
Proof.
  intros Hw Hug HQ. apply safe_act. intros s1 Hi. pose proof (writing_interf _ _ _ _ _ Hw Hi) as Hw1.
  pose proof (inv_fds _ _ (p_inv _ _ _ _ _ (w_pinned _ _ _ Hw1))) as Hok.
  assert (∀ o y s2, rt s2 = rt s1 → held s2 = held s1 → chunk_count_ s2 = chunk_count_ s1 → bytes_used_ s2 = bytes_used_ s1 →
    dirset s2 = dirset s1 → fds (os s2) = fds (os s1) → next_fd (os s2) = next_fd (os s1) →
    delete (tmp n) (tree s2) = delete (tmp n) (tree s1) → tree s2 !! tmp n = y → logged s1 s2 →
    ∃ g' c', guar root g g' s1 s2 ∧ effect root q g s1 c g' s2 c' ∧ Q o g' c' s2) as Hgo.
  { intros o y s2 _ Hh Hc Hb Hdir Hf Hn Ht Hy Hlog. exists g, c.
    destruct (writing_step n x y g g s1 s2) as (Hg & Hw2 & Hvw); try done; [by apply fd_step_same|].
    split; [exact Hg|]. split; [by apply effect_same|]. eapply HQ; [exact Hw2|].
    intros k Hk. rewrite Hf. by apply (i_fds _ _ _ _ Hi). }
  apply wp_remove; [by eapply writing_tmp_dir|done|..].
  - intros f _. eapply (Hgo _ None); try done; [apply delete_delete_eq|apply lookup_delete_eq].
  - intros _. eapply Hgo; try done; apply logged_tick.
  - intros msg _. eapply Hgo; try done; apply logged_tick.
Qed.

Lemma safe_Put_publish n s :
  writing n (Some (File data true)) s →
  safe root q (Threaded.Put_publish id data shard (tmp n) final) put_end no_ghost None s.
Proof.
  intros Hw. unfold Threaded.Put_publish. apply safe_bind, safe_act. intros s1 Hi.
  pose proof (writing_interf _ _ _ _ _ Hw Hi) as Hw1. clear dependent s. pose proof (w_pinned _ _ _ Hw1) as Hp1.
  apply wp_rename.
  - done.
  - intros f Hf _ _. pose proof (w_tmp _ _ _ Hw1) as Htmp. unfold tree in Htmp. rewrite Htmp in Hf. injection Hf as <-.
    change (upd_fs _ s1) with (renamed n s1). destruct (renamed_step n s1 Hw1) as (Hg & Hp2 & Hvw).
    exists (placed_by ∅), (Some (RepDone (Ok tt))). split; [exact Hg|]. split; [split|].
    { intros p Hp. injection Hp as <-. right. split_and!; [exact (p_final _ _ _ _ _ Hp1)| |by exists id, data].
      rewrite (p_held _ _ _ _ _ Hp2). apply (owned_final root id Hv). by left. }
    { apply (commits_now _ _ _ _ _ _ Hq); [|cbn; rewrite (p_held _ _ _ _ _ Hp1); by left].
      split; [done|]. rewrite (pinned_view _ _ Hv _ _ _ Hp1). exact Hvw. }
    assert (shard ∈ dirset (renamed n s1)) as Hsh by apply (w_shard _ _ _ Hw1).
    clear Hg Hvw. revert Hp2 Hsh. generalize (renamed n s1) as s2. intros s2 Hp2 Hsh.
    apply safe_bind. eapply safe_open_dir; [by left|done|exact Hp2|exact Hsh|..]; clear dependent s1 s2.
    + intros d s3 Hp3 Hfd Hdir. apply safe_bind. apply safe_bind.
      eapply (safe_fsync_dir d); [by left|cbn; set_solver|exact Hp3|exact Hfd|exact Hdir|done|]. clear dependent s3. intros b s3 Hp3.
      destruct b; [by apply (safe_count_and_close (Some d))|]. cbn [negb]. apply safe_log. intros s4 r Hi4.
      apply (safe_count_and_close (Some d)); [done|]. eapply pinned_still; [eapply pinned_interf; [done| |exact Hp3|exact Hi4]|done|done]. by left.
    + intros s3 Hp3. apply safe_bind, safe_log. intros s4 r Hi4.
      apply (safe_count_and_close None); [done|]. eapply pinned_still; [eapply pinned_interf; [done| |exact Hp3|exact Hi4]|done|done]. by left.
  - intros msg Hbad. exists no_ghost, None. assert (still s1 (tick s1)) as Hst by done.
    split; [apply still_guar; [done|done|apply Hp1]|]. split; [by apply effect_same|].
    assert io_fault as Hfault.
    { pose proof (w_tmp _ _ _ Hw1) as Htmp. pose proof (w_shard _ _ _ Hw1) as Hsh. unfold tree, dirset in *.
      destruct Hbad as [Hn|[Hn|[Hn|Hn]]]; [congruence| |by unfold final_of in Hn; rewrite parent_final in Hn|by eapply failed_fault].
      apply layout_final_dir in Hn; [done|apply (inv_sound _ _ (p_inv _ _ _ _ _ Hp1))]. }
    apply safe_bind. eapply (safe_remove_tmp n _ _ no_ghost None (tick s1)).
    { split; [by eapply pinned_still; [exact Hp1|..]|exact (w_shard _ _ _ Hw1)|exact (w_tmp _ _ _ Hw1)]. }
    { done. }
    intros o y s2 Hw2 _. apply failed_end; [done|done|]. eexists. exact (w_pinned _ _ _ Hw2).
Qed.

(** The temporary file is open. *)
Section Opened.
Variable fd : nat.

Definition opened : Ghost := with_own {[fd]} no_ghost.

Definition at_work n x s : Prop := writing n x s ∧ fds (os s) !! fd = Some (tmp n).

Definition file_end (rf : Result unit ChunkStoreErrorDetail * ScopedFd) (g : Ghost) (c : option reply) s : Prop :=
  match rf.2 with
  | Some k => k = fd ∧ g = opened ∧ put_left rf.1 c ∧ ∃ x, pinned root id [z] x s
  | None => put_end rf.1 g c s
  end.

Lemma at_work_interf n x s s1 : at_work n x s → interf root (own opened) s s1 → at_work n x s1.
Proof.
  intros [Hw Hfd] Hi. split; [by eapply writing_interf|]. rewrite (i_fds _ _ _ _ Hi); [done|]. cbn. set_solver.
Qed.

(** A step that changes the temporary file and nothing else. *)
Lemma at_work_step n x y s1 s2 :
  at_work n x s1 → dirset s2 = dirset s1 → delete (tmp n) (tree s2) = delete (tmp n) (tree s1) → tree s2 !! tmp n = y →
  fds (os s2) = fds (os s1) → next_fd (os s2) = next_fd (os s1) → held s2 = held s1 →
  chunk_count_ s2 = chunk_count_ s1 → bytes_used_ s2 = bytes_used_ s1 → logged s1 s2 →
  guar root opened opened s1 s2 ∧ effect root q opened s1 None opened s2 None ∧ at_work n y s2.
Proof.
  intros [Hw Hfd] Hdir Ht Hy Hf Hn Hh Hc Hb Hlog.
  destruct (writing_step n x y opened opened s1 s2) as (Hg & Hw2 & Hvw); try done.
  { apply fd_step_same; [done|done|apply (p_inv _ _ _ _ _ (w_pinned _ _ _ Hw))]. }
  split; [exact Hg|]. split; [by apply effect_same|]. split; [done|by rewrite Hf].
Qed.

Lemma safe_write n (Q : option nat → Ghost → option reply → Disk → Prop) s :
  at_work n (Some (File [] false)) s →
  (∀ w content s', at_work n (Some (File content false)) s' →
     (w = Some (length data) → content = data) → (w ≠ Some (length data) → io_fault) → Q w opened None s') →
  safe root q (match data with [] => mret (Some 0) | _ => act (sys (sys_write fd data)) end) Q opened None s.
Proof.
  intros Hw HQ.
  assert (safe root q (act (sys (sys_write fd data))) Q opened None s) as Hwrite.
  { apply safe_act. intros s1 Hi. pose proof (at_work_interf _ _ _ _ Hw Hi) as Hw1.
    pose proof Hw1 as [Hw1' Hfd1]. eapply wp_write; [exact Hfd1|exact (w_tmp _ _ _ Hw1')|done|..].
    - intros k Hk. match goal with |- context [upd_fs ?F s1] => set (s2 := upd_fs F s1) end.
      destruct (at_work_step n _ (Some (File (take k data) false)) s1 s2 Hw1) as (Hg & Hc & Hw2); try done;
        [apply delete_insert_eq|apply lookup_insert_eq|exact (logged_upd _ s1)|].
      exists opened, None. split; [exact Hg|]. split; [exact Hc|]. eapply HQ; [exact Hw2|..].
      + intros [= ->]. apply firstn_all.
      + intros Hne. destruct Hk as [->|(j & Hj & _)]; [done|]. eexists _, SysWrite. by rewrite Hj.
    - intros Hf. destruct (at_work_step n _ (Some (File [] false)) s1 (tick s1) Hw1) as (Hg & Hc & Hw2); try done;
        [exact (w_tmp _ _ _ Hw1')|].
      exists opened, None. split; [exact Hg|]. split; [exact Hc|]. eapply HQ; [exact Hw2|done|]. intros _. by eapply failed_fault. }
  destruct data as [|b data']; [|exact Hwrite]. by eapply HQ.
Qed.

(** Giving up: the temporary file is removed, the descriptor still open. *)
Lemma safe_give_up msg n x s :
  at_work n x s → io_fault →
  safe root q (act (sys (fs_remove (tmp n)));; mret (IoErr msg, Some fd)) file_end opened None s.
Proof.
  intros [Hw Hfd] Hf. apply safe_bind. eapply safe_remove_tmp; [exact Hw|done|]. intros o y s' Hw' _.
  split; [done|]. split; [done|]. split; [right; split; [done|by eexists]|]. eexists. exact (w_pinned _ _ _ Hw').
Qed.

Lemma safe_Put_file n s :
  at_work n (Some (File [] false)) s →
  safe root q (Threaded.Put_file id data shard (tmp n) final fd) file_end opened None s.
Proof.
  intros Hw. unfold Threaded.Put_file. apply safe_bind. eapply safe_write; [exact Hw|].
  clear dependent s. intros w content s Hw Hall Hfault.
  destruct (decide (w = Some (length data))) as [->|Hne];
    [rewrite bool_decide_true by done|rewrite bool_decide_false by done]; cbn [negb]; [|eapply safe_give_up; [exact Hw|by apply Hfault]].
  rewrite (Hall eq_refl) in Hw. apply safe_bind, safe_act. intros s1 Hi. pose proof (at_work_interf _ _ _ _ Hw Hi) as Hw1.
  clear dependent s. pose proof Hw1 as [Hw1' Hfd1]. eapply wp_fsync; [exact Hfd1|by eapply writing_tmp_dir|done|..].
  - match goal with |- context [upd_fs ?F s1] => set (s2 := upd_fs F s1) end.
    destruct (at_work_step n _ (Some (File data true)) s1 s2 Hw1) as (Hg & Hc & Hw2); try done;
      [apply delete_alter_same|unfold s2, tree; cbn; rewrite lookup_alter_eq; fold (tree s1); by rewrite (w_tmp _ _ _ Hw1')|exact (logged_upd _ s1)|].
    exists opened, None. split; [exact Hg|]. split; [exact Hc|]. cbn [negb ScopedFd_release]. clearbody s2. clear dependent s1.
    destruct Hw2 as [Hw2 _]. apply safe_bind, safe_act. intros s3 Hi3. pose proof (writing_interf _ _ _ _ _ Hw2 Hi3) as Hw3.
    apply wp_close; [done|].
    destruct (writing_step n (Some (File data true)) (Some (File data true)) opened no_ghost s3 (closed fd s3)) as (Hg4 & Hw4 & Hvw);
      try done; [exact (w_tmp _ _ _ Hw3)|apply fd_step_close; [done|apply (p_inv _ _ _ _ _ (w_pinned _ _ _ Hw3))]|by apply logged_same|].
    exists no_ghost, None. split; [exact Hg4|]. split; [by apply effect_same|].
    apply safe_bind. eapply safe_mono; [by apply safe_Put_publish|]. done.
  - intros Hf. exists opened, None.
    destruct (at_work_step n _ (Some (File data false)) s1 (tick s1) Hw1) as (Hg & Hc & Hw2); try done;
      [exact (w_tmp _ _ _ Hw1')|].
    split; [exact Hg|]. split; [exact Hc|]. cbn [negb]. eapply safe_give_up; [exact Hw2|by eapply failed_fault].
Qed.

End Opened.

Lemma safe_mkdir (Q : ec unit → Ghost → option reply → Disk → Prop) s :
  pinned root id [z] None s →
  (∀ s', pinned root id [z] None s' → shard ∈ dirset s' → Q (inl tt) no_ghost None s') →
  (∀ msg s', pinned root id [z] None s' → io_fault → Q (inr msg) no_ghost None s') →
  safe root q (act (sys (fs_create_directories shard))) Q no_ghost None s.
Proof.
  intros Hp Hok Hbad. apply safe_act. intros s1 Hi. pose proof (pinned_interf _ _ Hv _ _ _ _ _ ltac:(by left) Hp Hi) as Hp1.
  pose proof (p_inv _ _ _ _ _ Hp1) as Hinv. pose proof (sound_layout _ _ (inv_sound _ _ Hinv)) as Hlay.
  apply wp_create_directories.
  - done.
  - intros _. match goal with |- context [upd_fs ?F s1] => set (s2 := upd_fs F s1) end.
    destruct (kept_tmp 0 [z] None no_ghost no_ghost s1 s2) as (Hg & Hp2 & Hvw); try done.
    + by left.
    + right. unfold final_of. rewrite parent_final. done.
    + apply fd_step_same; [done|done|apply Hinv].
    + exact (logged_upd _ s1).
    + exists no_ghost, None. split; [exact Hg|]. split; [by apply effect_same|]. apply Hok; [done|].
      apply elem_of_union_l, elem_of_list_to_set. by eapply shard_in_prefixes.
  - intros msg Hm. exists no_ghost, None. assert (still s1 (tick s1)) as Hst by done.
    split; [by apply still_guar|]. split; [by apply effect_same|]. apply Hbad; [by eapply pinned_still|].
    destruct Hm as [(p & f & Hin & Hf)|Hm]; [|by eapply failed_fault].
    by rewrite (layout_shard_prefix root _ _ _ Hlay Hin) in Hf.
Qed.

Lemma safe_create n x (Q : option nat → Ghost → option reply → Disk → Prop) s :
  writing n x s →
  (∀ fd s', at_work fd n (Some (File [] false)) s' → Q (Some fd) (opened fd) None s') →
  (∀ s', writing n x s' → io_fault → Q None no_ghost None s') →
  safe root q (act (sys (internal_open (tmp n) [O_WRONLY; O_CREAT; O_TRUNC; O_CLOEXEC]))) Q no_ghost None s.
Proof.
  intros Hw Hsome Hnone. apply safe_act. intros s1 Hi. pose proof (writing_interf _ _ _ _ _ Hw Hi) as Hw1.
  pose proof (inv_fds _ _ (p_inv _ _ _ _ _ (w_pinned _ _ _ Hw1))) as Hok.
  apply wp_open_create; [set_solver..|done| |].
  - intros _. match goal with |- context [with_fd ?P ?F s1] => set (s2 := with_fd P F s1) end.
    destruct (writing_step n x (Some (File [] false)) no_ghost (opened (next_fd (os s1))) s1 s2) as (Hg & Hw2 & Hvw); try done.
    + apply delete_insert_eq.
    + apply lookup_insert_eq.
    + exact (fd_step_open no_ghost (tmp n) _ s1 eq_refl Hok).
    + exact (logged_with_fd _ _ s1).
    + eexists _, None. split; [exact Hg|]. split; [by apply effect_same|]. apply Hsome. split; [done|apply lookup_insert_eq].
  - intros Hbad. destruct (writing_step n x x no_ghost no_ghost s1 (tick s1)) as (Hg & Hw2 & Hvw); try done;
      [exact (w_tmp _ _ _ Hw1)|by apply fd_step_same|].
    exists no_ghost, None. split; [exact Hg|]. split; [by apply effect_same|]. apply Hnone; [done|].
    pose proof (writing_tmp_dir _ _ _ Hw1) as Hnd. pose proof (w_shard _ _ _ Hw1) as Hsh. unfold dirset in *.
    destruct Hbad as [?|[Hn|?]]; [done|by rewrite parent_tmp in Hn|by eapply failed_fault].
Qed.

Lemma safe_Put_new s :
  pinned root id [z] None s → safe root q (Threaded.Put_new root id data) put_end no_ghost None s.
Proof.
  intros Hp. unfold Threaded.Put_new. apply safe_bind, (safe_lift _ _ _ shard); [by apply ShardDirFor_eq|].
  intros s1 Hi. pose proof (pinned_interf _ _ Hv _ _ _ _ _ ltac:(by left) Hp Hi) as Hp1. clear dependent s.
  apply safe_bind, safe_mkdir; [exact Hp1|clear dependent s1; intros s Hp Hsh|intros msg s Hp Hf; by apply failed_end; [| |eexists]].
  apply safe_bind, safe_still. intros s1 Hi. apply wp_uuid. split; [done|]. split; [done|].
  pose proof (pinned_interf _ _ Hv _ _ _ _ _ ltac:(by left) Hp Hi) as Hp1.
  set (n := uuids_drawn (rt s1)). set (s2 := set_rt _ s1).
  assert (writing n (tree s1 !! tmp n) s2) as Hw
    by (split; [by eapply pinned_still|by apply (i_dirs _ _ _ _ Hi)|done]).
  clearbody s2. revert Hw. generalize (tree s1 !! tmp n) as x. clearbody n. clear dependent s s1. intros x Hw.
  apply safe_bind, (safe_lift _ _ _ final); [by apply FinalPathFor_eq|]. intros s Hi.
  pose proof (writing_interf _ _ _ _ _ Hw Hi) as Hw1. clear dependent s2.
  apply safe_bind. eapply safe_create; [exact Hw1|..]; clear dependent s.
  - intros fd s Hw. apply safe_bind. eapply safe_mono; [by apply safe_Put_file|].
    clear dependent s. intros [r [k|]] g c s Hend; apply safe_bind.
    + destruct Hend as (-> & -> & Hl & y & Hp). eapply safe_close; [by left|done|exact Hp|].
      intros s' Hp'. split; [done|]. split; [done|]. by exists y.
    + destruct Hend as (-> & Hl & y & Hp). apply safe_still. intros s' Hi. apply wp_sys_ret. split; [done|]. split; [done|].
      split; [done|]. split; [done|]. exists y. eapply pinned_interf; [exact Hv| |exact Hp|exact Hi]. by left.
  - intros s Hw Hf. apply failed_end; [done|done|]. eexists. exact (w_pinned _ _ _ Hw).
Qed.

End Request.

Lemma exists_safe id s : ChunkId.valid id → held s = [] →
  safe root (Some (ReqExists id)) (Threaded.Exists root id) (λ r, ended (RepBool r)) no_ghost None s.
Proof.
  intros Hv Hh. apply safe_Exists; [done|by rewrite Hh|done|]. intros s1 x s3 Hi Hp _.
  exists (Some (RepBool (bool_decide (is_Some x)))). split.
  - eapply commits_now; [done| |done]. split; [done|]. rewrite (pinned_view root id Hv _ _ _ Hp). by destruct x.
  - cbn. split_and!; [done|done|]. by rewrite (i_held _ _ _ _ Hi).
Qed.

Lemma get_safe id s : ChunkId.valid id → held s = [] →
  safe root (Some (ReqGet id)) (Threaded.Get root id) (λ r, ended (RepData r)) no_ghost None s.
Proof.
  intros Hv Hh. apply safe_Get; [done|done|]. intros r s' Hi Hh' Hr.
  exists (Some (RepData r)). split; [by eapply commits_now|done].
Qed.

Lemma verify_safe id s : ChunkId.valid id → held s = [] →
  safe root (Some (ReqVerify id)) (Threaded.VerifyOnly root id) (λ r, ended (RepDone r)) no_ghost None s.
Proof.
  intros Hv Hh. unfold Threaded.VerifyOnly. apply safe_bind, safe_Get; [done|done|]. intros r s' Hi Hh' Hr.
  exists (Some (RepDone (forget r))). split; [|by destruct r].
  eapply commits_now; [done| |done]. split; [done|]. by exists r.
Qed.

Lemma delete_safe id s : ChunkId.valid id → held s = [] →
  safe root (Some (ReqDelete id)) (Threaded.Delete root id) (λ r, ended (RepDone r)) no_ghost None s.
Proof.
  intros Hv Hs. apply safe_guard; [by rewrite Hs|]. intros s1 Hi.
  pose proof (pinned_start root id _ _ _ Hi) as Hp. rewrite (i_held _ _ _ _ Hi), Hs in Hp |- *.
  revert Hp. generalize (tree s1 !! final_of root id) as x. intros x Hp.
  match goal with |- safe _ _ _ ?R _ _ _ => set (end_ := R) end.
  assert (∀ r s2, pinned root id [LockFor id] x s2 →
    (∀ m, m !! ChunkId.ToHexString id = content <$> x → delete_spec io_fault m id r m) → end_ r no_ghost None s2) as Hend.
  { intros r s2 Hp2 Hr s3 Hi3. pose proof (pinned_interf _ _ Hv _ _ _ _ _ ltac:(by left) Hp2 Hi3) as Hp3.
    split; [done|]. exists (Some (RepDone r)). split; [eapply commits_now; [done| |done]; apply Hr; by eapply pinned_view|].
    rewrite (p_held _ _ _ _ _ Hp3), release_one_head. by split_and!. }
  assert (∀ r x' s2, pinned root id [LockFor id] x' s2 → end_ r no_ghost (Some (RepDone r)) s2) as Hdone.
  { intros r x' s2 Hp2 s3 Hi3. pose proof (pinned_interf _ _ Hv _ _ _ _ _ ltac:(by left) Hp2 Hi3) as Hp3.
    split; [done|]. exists (Some (RepDone r)). split; [by apply commits_same|].
    rewrite (p_held _ _ _ _ _ Hp3), release_one_head. by split_and!. }
  clearbody end_.
  apply safe_bind. eapply safe_final_path; [done|by left|exact Hp|]. clear dependent s1. intros s1 Hp1.
  apply safe_bind. eapply safe_size_call; [done|by left|exact Hp1|]. clear dependent s1. intros s1 Hp1.
  destruct x as [f|]; [|intros msg; apply Hend; [done|]; intros m Hm; cbn in *; by rewrite delete_id].
  apply safe_bind, safe_act. intros s2 Hi2. pose proof (pinned_interf _ _ Hv _ _ _ _ _ ltac:(by left) Hp1 Hi2) as Hp2.
  pose proof (p_final _ _ _ _ _ Hp2) as Hx. clear dependent s1.
  apply wp_remove.
  - apply (layout_final_dir root (fs (os s2))), (sound_layout _ _ (inv_sound _ _ (p_inv _ _ _ _ _ Hp2))).
  - done.
  - intros f' _. match goal with |- context [upd_fs ?F s2] => set (s3 := upd_fs F s2) end.
    pose proof (guar_removed id Hv [LockFor id] f s2 ltac:(by left) Hp2) as Hg.
    exists (removed f), (Some (RepDone (Ok tt))). split; [exact Hg|]. split.
    { eapply effect_now; [done|done| |done]. cbn. by apply (view_deleted root id s2). }
    eapply safe_mono.
    { eapply (safe_count_down _ id Hv f). by split; [apply (g_inv _ _ _ _ _ Hg)|apply Hp2|apply lookup_delete_eq]. }
    intros a g c s4 (-> & -> & -> & Hp4). by eapply Hdone.
  - unfold tree in Hx. congruence.
  - intros msg Hf. exists no_ghost, None. assert (still s2 (tick s2)) as Hst by done.
    split; [apply still_guar; [done|done|apply Hp2]|]. split; [by apply effect_same|].
    apply Hend; [by eapply pinned_still|]. intros m Hm. split_and!; [done|done|by rewrite Hm; eexists|by eapply failed_fault].
Qed.

(** [Put] on data that match: deduplicated, written, or failed. *)
Lemma safe_Put_locked id data (Q : Result unit ChunkStoreErrorDetail → Ghost → option reply → Disk → Prop) s :
  ChunkId.valid id → digest_matches id data → held s = [] →
  (∀ r s', Q r no_ghost (Some (RepDone r)) (set_held [] s')) →
  safe root (Some (ReqPut id data)) (Threaded.lock_guard (LockFor id) (
    ex ← Threaded.Exists root id;
    if (ex : bool) then
      act (Debug ("Chunk already exists, deduplicating: " +:+ ChunkId.ToHexString id));; mret (Ok tt)
    else Threaded.Put_new root id data)) Q no_ghost None s.
Proof.
  intros Hv Hd Hs HQ. apply safe_guard; [by rewrite Hs|]. intros s1 Hi. rewrite (i_held _ _ _ _ Hi), Hs.
  match goal with |- safe _ _ _ ?R _ _ _ => set (end_ := R) end.
  assert (∀ r c x s2, pinned root id [LockFor id] x s2 →
    c = Some (RepDone r) ∨ c = None ∧ (∀ m, m !! ChunkId.ToHexString id = content <$> x → put_spec io_fault m id data r m) →
    end_ r no_ghost c s2) as Hend.
  { intros r c x s2 Hp2 Hr s3 Hi3. pose proof (pinned_interf _ _ Hv _ _ _ _ _ ltac:(by left) Hp2 Hi3) as Hp3.
    rewrite (p_held _ _ _ _ _ Hp3), release_one_head. split; [done|]. exists (Some (RepDone r)). split; [|by apply HQ].
    destruct Hr as [->|[-> Hr]]; [by apply commits_same|]. eapply commits_now; [done|apply Hr; by eapply pinned_view|].
    destruct r; [|done]. cbn. rewrite (p_held _ _ _ _ _ Hp3). by left. }
  clearbody end_. clear HQ. apply safe_bind, safe_Exists; [done|by apply Forall_singleton|done|].
  intros s2 x s3 Hi2 Hp _. exists None. split; [by apply commits_same|].
  rewrite (i_held _ _ _ _ Hi2) in Hp |- *. cbn [held set_held] in Hp |- *.
  assert (pinned root id [LockFor id] x (set_held [LockFor id] s3)) as Hp3.
  { split; [apply (still_inv root s3); [done|apply Hp]|done|apply Hp]. }
  revert Hp3. generalize (set_held [LockFor id] s3) as s4. intros s4 Hp4. clear dependent s s1 s2 s3.
  destruct x as [f|]; [rewrite bool_decide_true by (by eexists)|rewrite bool_decide_false by (by intros [])].
  - apply safe_bind, safe_log. intros s5 r Hi5. eapply (Hend _ _ (Some f)).
    + eapply pinned_still; [eapply pinned_interf; [exact Hv| |exact Hp4|exact Hi5]|done|done]. by left.
    + right. split; [done|]. intros m Hm. split; [done|]. by rewrite Hm.
  - eapply safe_mono; [by eapply safe_Put_new|]. intros r g c s (-> & Hl & x & Hp). eapply Hend; [exact Hp|].
    destruct Hl as [->|(-> & e & -> & Hk & Hf)]; [by left|right]. split; [done|]. intros m _. split; [done|]. by right.
Qed.

Lemma put_safe id data s : ChunkId.valid id → held s = [] →
  safe root (Some (ReqPut id data)) (Threaded.Put root id data) (λ r, ended (RepDone r)) no_ghost None s.
Proof.
  intros Hv Hh. unfold Threaded.Put. destruct (HashBytes_done data) as (d & Hd & _).
  apply safe_bind, (safe_lift _ _ _ d); [done|]. intros s1 Hi. pose proof (i_held _ _ _ _ Hi) as Hh1.
  case_bool_decide as Hdig; cbn [negb].
  - apply safe_Put_locked; [done|unfold digest_matches; congruence|congruence|done].
  - apply safe_bind, safe_act. intros s2 Hi2. apply wp_log. intros r _.
    exists no_ghost, (Some (RepDone (Err (Detail ChecksumMismatch "Provided chunk data does not match the ChunkId")))).
    assert (still s2 (set_rt r s2)) as Hst by done. split; [apply still_guar; [done|done|apply Hi2]|]. split.
    + eapply effect_now; [done|done| |done]. split; [done|]. left. split; [done|]. unfold digest_matches. congruence.
    + split; [done|]. split; [done|]. rewrite <- Hh, <- (i_held _ _ _ _ Hi). by rewrite <- (i_held _ _ _ _ Hi2).
Qed.

Lemma stats_safe s : held s = [] →
  safe root (Some ReqStats) (Threaded.GetStats root) (λ r, ended (RepStats r)) no_ghost None s.
Proof.
  intros Hh. unfold Threaded.GetStats. apply safe_bind. apply safe_still.
  intros s1 Hi1. pose proof (i_held _ _ _ _ Hi1) as Hh1.
  assert (∀ (free : Z) s', held s' = [] → safe root (Some ReqStats)
    (count ← act (gets chunk_count_); bytes ← act (gets bytes_used_);
     mret (Stats count bytes free))
    (λ st, ended (RepStats st)) no_ghost None s') as Hrest.
  { intros free s' Hs'. apply safe_bind. apply safe_still. intros s2 Hi2. apply wp_gets. split_and!; [done|done|].
    apply safe_bind. apply safe_act. intros s3 Hi3. apply wp_gets. eexists no_ghost, (Some (RepStats _)). split_and!.
    - apply still_guar; [done..|apply Hi3].
    - by eapply effect_now.
    - cbn. split_and!; [done|done|]. rewrite (i_held _ _ _ _ Hi3), (i_held _ _ _ _ Hi2). done. }
  apply wp_sys_call; [done|]. intros [|msg|n|] _ ?; [..|done]; first [apply wp_sys_ret|apply wp_sys_gets];
    (split; [done|]; split; [done|]); apply Hrest; cbn; congruence.
Qed.

End Ops.
