(* ===== verification/ThreadCoupling.v ===== *)
(** * The pool against the atomic store

    The relation between a pool of threads and the atomic store, with what
    each thread owns (descriptors, stripes) and owes (counter updates, a
    directory to sync) as ghost state, and its preservation by every step of
    the pool. Beside it the chunks that are known to have been put and that
    nobody deletes: nobody has anything to sync about them. *)

From S2P Require Import Prelude Result Cxx Sha256 ChunkId Logger IChunkStore Posix LocalDisk DiskRules DiskLayout DiskEffects DiskTheorems DiskContract DiskSafety DiskDurability DiskCounters Programs Threads ThreadRules ThreadOps.
Import LocalDisk.

Section Coupling.
Context `{Evp, Platform, UuidSource, !EvpLaws, !UuidLaws, C : Client}.
Variable root : path.
Implicit Types (s : Disk) (ths : gmap nat Thread) (G : gmap nat (Ghost * option reply)).

(** What the theorems about threads assume of the system: the two status
    queries are reliable, and the mutex does not report the relock of [Put]
    as an error. Every other call may fail, and the machine may crash. *)
Record fair : Prop := {
  fair_exists : ¬ stat_fault SysExists;
  fair_size : ¬ stat_fault SysFileSize;
  fair_lock : relock ≠ RelockThrows
}.

Hypothesis Hfair : fair.
Hypothesis Hclient : SafeClient root.

Abbreviation debts f G := (map_sum (λ gc : Ghost * option reply, f gc.1) G).

(** The start: a process that has scanned its store and has no threads yet. *)
Record idle s : Prop := {
  idle_healthy : healthy root (set_held [] s);
  idle_intact : intact root (tree s);
  idle_counters : counters_ok root s;
  idle_fds : fds (os s) = ∅
}.

(** The constructor makes a process idle. *)
Lemma ctor_idle s s1 :
  healthy root s → intact root (tree s) → fds (os s) = ∅ → LocalDiskChunkStore root s = (Done tt, s1) →
  idle s1 ∧ view root s1 = view root s.
Proof.
  intros Hs Hi Hf E. destruct (wp_run _ _ _ _ _ E (ctor_counts root s Hs)) as (Hfs & Hc & [Hl Hok Hh Hp] & Hf1).
  split; [|unfold view; by rewrite Hfs]. split; [by split|unfold tree; by rewrite Hfs|done|by rewrite Hf1].
Qed.

(** ** The coupling, from the start of a run *)

Section From.
Variable start : Disk.

(** The chunks that nobody deletes, and those of them that are known to be
    put. *)
Variables kept acked : ChunkId.t → Prop.

(** A call that does not take a kept chunk away. *)
Definition spares (q : session) : Prop :=
  ∀ id rq, kept id → asks q = Some rq → ¬ removes (ChunkId.ToHexString id) rq.

Definition spared (e : event) : Prop := match e with Call _ q => spares q | _ => True end.

(** The chunk is known to be put, or a [Put] of thread [o] has succeeded that
    has yet to return. *)
Definition acknowledged ths G (o : option nat) (id : ChunkId.t) : Prop :=
  match o with
  | None => acked id
  | Some i => ∃ th g data, ths !! i = Some th ∧ asks (t_session th) = Some (ReqPut id data) ∧
      G !! i = Some (g, Some (RepDone (Ok tt)))
  end.

(** Nobody but [o] has yet to sync the chunk. *)
Definition sealed (o : option nat) (id : ChunkId.t) s G : Prop :=
  is_Some (tree s !! final_of root id) ∧
  ∀ j g c, o ≠ Some j → G !! j = Some (g, c) → unsettled g ≠ Some (final_of root id).

Record coupled s ths G (a : Atomic) : Prop := {
  c_inv : inv root s;
  c_threads i : match ths !! i, G !! i with
    | Some th, Some (g, c) =>
        safe root (asks (t_session th)) (t_code th) (finished (t_session th)) g c (load th s) ∧ pending a !! i = Some (t_session th, c)
    | None, None => pending a !! i = None
    | _, _ => False
    end;
  c_held i j th th' z : i ≠ j → ths !! i = Some th → ths !! j = Some th' → z ∈ t_held th → z ∉ t_held th';
  c_own i j g g' c c' n : i ≠ j → G !! i = Some (g, c) → G !! j = Some (g', c') → n ∈ own g → n ∉ own g';
  c_next i g c n : G !! i = Some (g, c) → n ∈ own g → (n < next_fd (os s))%nat;
  c_open n : is_Some (fds (os s) !! n) → ∃ i g c, G !! i = Some (g, c) ∧ n ∈ own g;
  c_count : drift_count root (debts debt_count G) s = 0%Z;
  c_bytes : drift_bytes root (debts debt_bytes G) s = 0%Z;
  c_view : contents a = view root s;
  (** what was synced at the start of the run, and what is loose now *)
  c_synced p : p ∈ dirset start → p ∉ unsynced start → p ∈ dirset s ∧ p ∉ unsynced s;
  c_loose : sync_reliable → ∀ p, loose root s p →
    loose root start p ∨ ∃ i g c, G !! i = Some (g, c) ∧ unsettled g = Some p;
  c_marks i th g c p : ths !! i = Some th → G !! i = Some (g, c) → unsettled g = Some p →
    ∃ id data, ChunkId.valid id ∧ asks (t_session th) = Some (ReqPut id data) ∧ p = final_of root id;
  (** a thread that has yet to sync a chunk has its stripe *)
  c_stripe i th g c p : ths !! i = Some th → G !! i = Some (g, c) → unsettled g = Some p → owned root (t_held th) p;
  c_spares i th : ths !! i = Some th → spares (t_session th);
  c_sealed o id : ChunkId.valid id → kept id → acknowledged ths G o id → sealed o id s G
}.

Lemma coupled_thread s ths G a i th : coupled s ths G a → ths !! i = Some th →
  ∃ g c, G !! i = Some (g, c) ∧ pending a !! i = Some (t_session th, c) ∧
    safe root (asks (t_session th)) (t_code th) (finished (t_session th)) g c (load th s).
Proof.
  intros Hc Hi. pose proof (c_threads _ _ _ _ Hc i) as Ht. rewrite Hi in Ht.
  destruct (G !! i) as [[g c]|]; [|done]. exists g, c. by destruct Ht.
Qed.

Lemma coupled_absent s ths G a i : coupled s ths G a → ths !! i = None → G !! i = None ∧ pending a !! i = None.
Proof.
  intros Hc Hi. pose proof (c_threads _ _ _ _ Hc i) as Ht. rewrite Hi in Ht. by destruct (G !! i) as [[g c]|].
Qed.

(** ** The state as a thread sees it *)

Lemma load_save th s p : load (save th s p) s = s.
Proof. by destruct s as [o [] h cc bb]. Qed.

Lemma inv_load th s : inv root s → inv root (load th s).
Proof. intros Hi. by apply (still_inv root s). Qed.

(** A step of thread [i] is interference for the others. *)
Lemma interf_other s s' ths G a i j th thj g g' gj c cj :
  coupled s ths G a → i ≠ j → ths !! i = Some th → ths !! j = Some thj → G !! i = Some (g, c) → G !! j = Some (gj, cj) →
  guar root g g' (load th s) (set_held (t_held th) s') → interf root (own gj) (load thj s) (load thj s').
Proof.
  intros Hc Hne Hi Hj Hgi Hgj Hg. split.
  - apply (still_inv root (set_held (t_held th) s')); [done|apply (g_inv _ _ _ _ _ Hg)].
  - done.
  - apply (g_dirs _ _ _ _ _ Hg).
  - intros p Hp. apply dec_stable. intros Hd. pose proof (g_files _ _ _ _ _ Hg p Hd) as Hp'.
    destruct (owned_disjoint root _ _ p Hp' Hp) as (z & Hz & Hz'). by apply (c_held _ _ _ _ Hc i j th thj z).
  - intros n Hn. apply (g_fds _ _ _ _ _ Hg).
    + intros Hn'. by apply (c_own _ _ _ _ Hc i j g gj c cj n).
    + by apply (c_next _ _ _ _ Hc j gj cj).
Qed.

Lemma finished_interf q r g c s s' : finished q r g c s → interf root (own g) s s' → finished q r g c s'.
Proof. intros (-> & Hsays & Hh) Hi. split; [done|]. split; [done|]. by rewrite (i_held _ _ _ _ Hi). Qed.

(** ** The sum of the debts *)

Lemma wrap64_exchange x y a b d :
  wrap64 (x + a) = wrap64 (y + b) → wrap64 (x + (d - b + a)) = wrap64 (y + d).
Proof.
  intros He. replace (x + (d - b + a))%Z with ((x + a) + (d - b))%Z by lia.
  rewrite <- wrap64_add, He, wrap64_add. f_equal. lia.
Qed.

(** ** Steps *)

(** Thread [i] goes from [th], [g] to [th'], [g']: what it may have taken. *)
Section Acts.
Variables (s s' : Disk) (ths : gmap nat Thread) (G : gmap nat (Ghost * option reply)) (a : Atomic).
Variables (i : nat) (th th' : Thread) (g g' : Ghost) (c c' : option reply).
Hypothesis Hc : coupled s ths G a.
Hypothesis Hi : ths !! i = Some th.
Hypothesis HG : G !! i = Some (g, c).
Hypothesis Hg : guar root g g' (load th s) (set_held (t_held th) s').

Lemma acts_loose : sync_reliable → ∀ p, loose root s' p →
  loose root start p ∨ ∃ j gj cj, <[i := (g', c')]> G !! j = Some (gj, cj) ∧ unsettled gj = Some p.
Proof.
  intros Hsync p Hp. destruct (g_loose _ _ _ _ _ Hg Hsync p Hp) as [Hu|[Hl Hn]].
  - right. exists i, g', c'. by rewrite lookup_insert_eq.
  - destruct (c_loose _ _ _ _ Hc Hsync p Hl) as [?|(j & gj & cj & Hj & Hu)]; [by left|right].
    exists j, gj, cj. rewrite lookup_insert_ne; [done|]. intros <-. rewrite HG in Hj. by injection Hj as <- <-.
Qed.

Lemma acts_marks : marks root (asks (t_session th)) g (load th s) g' s' → t_session th' = t_session th →
  ∀ j thj gj cj p, <[i := th']> ths !! j = Some thj → <[i := (g', c')]> G !! j = Some (gj, cj) → unsettled gj = Some p →
    ∃ id data, ChunkId.valid id ∧ asks (t_session thj) = Some (ReqPut id data) ∧ p = final_of root id.
Proof.
  intros Hm Hs j thj gj cj p. destruct (decide (j = i)) as [->|Hne].
  - rewrite !lookup_insert_eq. intros [= <-] [= <- <-] Hu. rewrite Hs.
    destruct (Hm p Hu) as [[Hu' _]|(_ & _ & id & data & Hvi & Hq & Hp)]; [by apply (c_marks _ _ _ _ Hc i th g c)|by exists id, data].
  - rewrite !lookup_insert_ne by done. apply (c_marks _ _ _ _ Hc).
Qed.

Lemma acts_stripe : marks root (asks (t_session th)) g (load th s) g' s' → t_held th' = held s' →
  ∀ j thj gj cj p, <[i := th']> ths !! j = Some thj → <[i := (g', c')]> G !! j = Some (gj, cj) → unsettled gj = Some p →
    owned root (t_held thj) p.
Proof.
  intros Hm Hh j thj gj cj p. destruct (decide (j = i)) as [->|Hne].
  - rewrite !lookup_insert_eq. intros [= <-] [= <- <-] Hu. rewrite Hh. destruct (Hm p Hu) as [[Hu' Hsub]|(_ & Ho & _)]; [|done].
    destruct (c_stripe _ _ _ _ Hc i th g c p Hi HG Hu') as (id & Hvi & Hin & Hp). exists id. split_and!; [done|by apply Hsub|done].
  - rewrite !lookup_insert_ne by done. apply (c_stripe _ _ _ _ Hc).
Qed.

Lemma acts_spares : t_session th' = t_session th → ∀ j thj, <[i := th']> ths !! j = Some thj → spares (t_session thj).
Proof.
  intros Hs j thj [[<- <-]|[_ Hj]]%lookup_insert_Some; [rewrite Hs; by apply (c_spares _ _ _ _ Hc i)|by apply (c_spares _ _ _ _ Hc j)].
Qed.

Lemma acts_sealed :
  effect root (asks (t_session th)) g (load th s) c g' s' c' → t_session th' = t_session th →
  ∀ o id, ChunkId.valid id → kept id → acknowledged (<[i := th']> ths) (<[i := (g', c')]> G) o id →
    sealed o id s' (<[i := (g', c')]> G).
Proof.
  intros [Hm Hcom] Hs o id Hvi Hk Hack.
  assert (is_Some (tree s !! final_of root id) → is_Some (tree s' !! final_of root id)) as Hpr.
  { rewrite <- !(view_at_some root) by done. destruct Hcom as [[_ ->]|(_ & rq & r & Hq & _ & Hspec & _)]; [done|].
    eapply request_keeps; [exact Hspec|]. by apply (c_spares _ _ _ _ Hc i th Hi id). }
  assert (∀ o, sealed o id s G → sealed o id s' (<[i := (g', c')]> G)) as Hold.
  { intros o' [Hsome Hno]. split; [by apply Hpr|]. intros j gj cj Hoj [[<- [= <- <-]]|[_ Hj]]%lookup_insert_Some; [|by eapply Hno].
    intros Hu. destruct (Hm _ Hu) as [[Hu' _]|(Hnone & _)]; [by apply (Hno i g c)|].
    destruct Hsome as [x Hx]. unfold tree in *. cbn in Hnone. congruence. }
  destruct o as [j|]; [|by apply Hold, (c_sealed _ _ _ _ Hc)].
  destruct Hack as (thj & gj & data & Hj & Hq & HGj). destruct (decide (j = i)) as [->|Hne].
  - rewrite lookup_insert_eq in Hj. rewrite lookup_insert_eq in HGj. injection Hj as <-. injection HGj as <- Hc'. rewrite Hs in Hq.
    destruct Hcom as [[E _]|(_ & rq & r & Hq' & E & Hspec & Hlock)].
    + apply Hold, (c_sealed _ _ _ _ Hc); [done..|]. exists th, g, data. split_and!; [done|done|]. rewrite HG. congruence.
    + rewrite Hq in Hq'. injection Hq' as <-. rewrite Hc' in E. injection E as <-. destruct Hspec as [_ Hput]. split.
      * rewrite <- (view_at_some root), Hput by done. case_match eqn:E; [by rewrite E|by rewrite lookup_insert_eq].
      * intros k gk ck Hki [[<- _]|[Hne Hk']]%lookup_insert_Some Hu; [done|].
        pose proof (c_threads _ _ _ _ Hc k) as Ht. rewrite Hk' in Ht. destruct (ths !! k) as [thk|] eqn:Hthk; [|done].
        pose proof (c_stripe _ _ _ _ Hc k thk gk ck _ Hthk Hk' Hu) as Ho.
        destruct (owned_disjoint root _ _ _ (owned_final root id Hvi _ Hlock) Ho) as (z & Hz & Hz').
        by apply (c_held _ _ _ _ Hc i k th thk z).
  - rewrite lookup_insert_ne in Hj by done. rewrite lookup_insert_ne in HGj by done. apply Hold, (c_sealed _ _ _ _ Hc); [done..|]. by exists thj, gj, data.
Qed.

Lemma acts_held :
  (∀ z, z ∈ t_held th' → z ∈ t_held th ∨ free_for i z ths) →
  ∀ j k thj thk z, j ≠ k → <[i := th']> ths !! j = Some thj → <[i := th']> ths !! k = Some thk →
    z ∈ t_held thj → z ∉ t_held thk.
Proof.
  intros Hheld. assert (∀ k thk z, k ≠ i → ths !! k = Some thk → z ∈ t_held th' → z ∉ t_held thk) as Hother.
  { intros k thk z Hki Hk Hz. destruct (Hheld z Hz) as [Hz'|Hfree]; [by apply (c_held _ _ _ _ Hc i k th thk)|by apply (Hfree k thk)]. }
  intros j k thj thk z Hne [[<- <-]|[Hji Hj]]%lookup_insert_Some [[<- <-]|[Hki Hk]]%lookup_insert_Some.
  - done.
  - by apply (Hother k).
  - intros Hz Hz'. by apply (Hother j thj z).
  - by apply (c_held _ _ _ _ Hc j k).
Qed.

Lemma acts_own :
  ∀ j k gj gk cj ck n, j ≠ k → <[i := (g', c')]> G !! j = Some (gj, cj) → <[i := (g', c')]> G !! k = Some (gk, ck) →
    n ∈ own gj → n ∉ own gk.
Proof.
  assert (∀ k gk ck n, k ≠ i → G !! k = Some (gk, ck) → n ∈ own g' → n ∉ own gk) as Hother.
  { intros k gk ck n Hki Hk Hn Hnk. destruct (g_own _ _ _ _ _ Hg n Hn) as [Hn'|[Hn' _]].
    - by apply (c_own _ _ _ _ Hc i k g gk c ck n).
    - pose proof (c_next _ _ _ _ Hc _ _ _ _ Hk Hnk). cbn in Hn'. lia. }
  intros j k gj gk cj ck n Hne [[<- [= <- <-]]|[Hji Hj]]%lookup_insert_Some [[<- [= <- <-]]|[Hki Hk]]%lookup_insert_Some.
  - done.
  - by apply (Hother k gk ck).
  - intros Hn Hn'. by apply (Hother j gj cj n).
  - by apply (c_own _ _ _ _ Hc j k gj gk cj ck).
Qed.

Lemma acts_next : ∀ j gj cj n, <[i := (g', c')]> G !! j = Some (gj, cj) → n ∈ own gj → (n < next_fd (os s'))%nat.
Proof.
  intros j gj cj n Hj Hn. pose proof (g_next _ _ _ _ _ Hg) as Hnext. cbn in Hnext.
  apply lookup_insert_Some in Hj as [[<- [= <- <-]]|[Hji Hj]].
  - destruct (g_own _ _ _ _ _ Hg n Hn) as [Hn'|[_ Hn']]; [|done]. pose proof (c_next _ _ _ _ Hc _ _ _ _ HG Hn'). lia.
  - pose proof (c_next _ _ _ _ Hc _ _ _ _ Hj Hn). lia.
Qed.

Lemma acts_open : ∀ n, is_Some (fds (os s') !! n) → ∃ j gj cj, <[i := (g', c')]> G !! j = Some (gj, cj) ∧ n ∈ own gj.
Proof.
  intros n Hn. destruct (decide (n ∈ own g ∨ (next_fd (os s) ≤ n)%nat)) as [Hor|Hnor].
  - exists i, g', c'. split; [apply lookup_insert_eq|]. by apply (g_open _ _ _ _ _ Hg n).
  - pose proof (g_fds _ _ _ _ _ Hg n ltac:(tauto) ltac:(cbn; lia)) as Heq. cbn in Heq. rewrite Heq in Hn.
    destruct (c_open _ _ _ _ Hc n Hn) as (j & gj & cj & Hj & Hnj).
    assert (j ≠ i) as Hji by (intros ->; rewrite HG in Hj; injection Hj as -> ->; tauto).
    exists j, gj, cj. by rewrite lookup_insert_ne.
Qed.

End Acts.

(** A thread has acted: the others are as they were, and the atomic store has
    made at most one step. *)
Lemma coupled_acts s s' ths G a i th g g' c c' p :
  coupled s ths G a → ths !! i = Some th → G !! i = Some (g, c) →
  guar root g g' (load th s) (set_held (t_held th) s') →
  effect root (asks (t_session th)) g (load th s) c g' s' c' →
  (∀ z, z ∈ held s' → z ∈ t_held th ∨ free_for i z ths) →
  safe root (asks (t_session th)) p (finished (t_session th)) g' c' s' →
  ∃ a', (a' = a ∨ atomic_step io_fault a None a') ∧
    coupled s' (<[i := save th s' p]> ths) (<[i := (g', c')]> G) a'.
Proof.
  intros Hc Hi HG Hg [Hmk Hcom] Hheld Hsafe.
  destruct (coupled_thread _ _ _ _ _ _ Hc Hi) as (g0 & c0 & HG0 & Hpi & _). rewrite HG in HG0. injection HG0 as <- <-.
  pose proof (conj Hmk Hcom : effect root (asks (t_session th)) g (load th s) c g' s' c') as Heff.
  exists (MkAtomic (view root s') (<[i := (t_session th, c')]> (pending a))). split.
  { destruct a as [m ps]. pose proof (c_view _ _ _ _ Hc) as Hm. cbn in Hpi, Hm |- *. subst m.
    destruct Hcom as [[-> Hvw]|(-> & rq & r & Hq & -> & Hr & _)].
    - left. f_equal; [done|by apply insert_id].
    - right. by apply (atomic_commit io_fault i (t_session th) rq r). }
  split; cbn [contents pending]; try done.
  - apply (still_inv root (set_held (t_held th) s')); [done|apply (g_inv _ _ _ _ _ Hg)].
  - intros j. destruct (decide (j = i)) as [->|Hne].
    + rewrite !lookup_insert_eq. split; [|done]. by rewrite load_save.
    + rewrite !lookup_insert_ne by done. pose proof (c_threads _ _ _ _ Hc j) as Hj.
      destruct (ths !! j) as [thj|] eqn:Hthj; [|done]. destruct (G !! j) as [[gj cj]|] eqn:HGj; [|done].
      destruct Hj as [Hsj Hpj]. split; [|done].
      eapply safe_interf; [|exact Hsj|]; [intros; by eapply finished_interf|]. by eapply (interf_other s s' ths G a i j).
  - intros j k thj thk z. by apply (acts_held s ths G a i th (save th s' p)).
  - intros j k gj gk cj ck n. by eapply (acts_own s s' ths G a i th g g' c c').
  - by eapply acts_next.
  - by eapply acts_open.
  - rewrite (map_sum_update _ _ _ _ (g', c') HG). rewrite <- (c_count _ _ _ _ Hc).
    by apply wrap64_exchange, (g_count _ _ _ _ _ Hg).
  - rewrite (map_sum_update _ _ _ _ (g', c') HG). rewrite <- (c_bytes _ _ _ _ Hc).
    by apply wrap64_exchange, (g_bytes _ _ _ _ _ Hg).
  - intros e Hd Hp. destruct (c_synced _ _ _ _ Hc e Hd Hp) as [Hd' Hp'].
    split; [by apply (g_dirs _ _ _ _ _ Hg)|by apply (g_synced _ _ _ _ _ Hg)].
  - by eapply acts_loose.
  - by eapply acts_marks.
  - by eapply acts_stripe.
  - by eapply acts_spares.
  - by eapply acts_sealed.
Qed.

Lemma coupled_act s s' ths G a i th {B} (m : M Disk B) k h o :
  coupled s ths G a → ths !! i = Some th → t_code th = Act m k h → m (load th s) = (o, s') →
  match o with
  | Done b => ∃ G' a', (a' = a ∨ atomic_step io_fault a None a') ∧ coupled s' (<[i := save th s' (k b)]> ths) G' a'
  | Crashed => fs (os s') = fs (os s) ∧ unsynced s' = unsynced s
  | _ => False
  end.
Proof.
  intros Hc Hi Hcode E. destruct (coupled_thread _ _ _ _ _ _ Hc Hi) as (g & c & HG & Hp & Hsafe).
  rewrite Hcode in Hsafe. pose proof (inv_load th s (c_inv _ _ _ _ Hc)) as Hinv.
  pose proof (wp_run _ _ _ _ _ E (Hsafe _ (interf_refl root _ _ Hinv))) as Hpost. destruct o as [b|e| |]; try done.
  destruct Hpost as (g' & c' & Hg & Hcom & Hk).
  destruct (coupled_acts s s' ths G a i th g g' c c' (k b)) as (a' & Ha & Hc'); try done.
  - destruct Hg as [Hi' ? ? ? ? ? ? ? ? ? ? ?]. split; try done. by apply (still_inv root s').
  - intros z Hz. left. by apply (g_held _ _ _ _ _ Hg).
  - by exists (<[i := (g', c')]> G), a'.
Qed.

Lemma lock_done z s s' : lock z s = (Done tt, s') → s' = set_held (z :: held s) s ∧ (z ∉ held s ∨ relock = RelockReenters).
Proof.
  unfold lock, state. case_bool_decide; [destruct relock eqn:E|]; intros [= <-]; (split; [done|]); [by right|by left].
Qed.

Lemma coupled_lock s s' ths G a i th z k h :
  coupled s ths G a → ths !! i = Some th → t_code th = Lock z k h → free_for i z ths → lock z (load th s) = (Done tt, s') →
  ∃ G' a', (a' = a ∨ atomic_step io_fault a None a') ∧ coupled s' (<[i := save th s' k]> ths) G' a'.
Proof.
  intros Hc Hi Hcode Hfree [-> Hor]%lock_done. destruct (coupled_thread _ _ _ _ _ _ Hc Hi) as (g & c & HG & Hp & Hsafe).
  rewrite Hcode in Hsafe. pose proof (inv_load th s (c_inv _ _ _ _ Hc)) as Hinv.
  destruct Hsafe as [_ Hsafe]. specialize (Hsafe _ (interf_refl root _ _ Hinv) Hor).
  destruct (coupled_acts s (set_held (z :: t_held th) (load th s)) ths G a i th g g c c k) as (a' & Ha & Hc'); try done.
  - apply still_guar; [done|by intros ?|exact Hinv].
  - split; [|by left]. intros p Hu. left. split; [done|]. intros x Hx. by right.
  - intros z' [->|Hz']%elem_of_cons; [by right|by left].
  - by exists (<[i := (g, c)]> G), a'.
Qed.

Lemma coupled_message s ths G a i th k :
  coupled s ths G a → ths !! i = Some th → t_code th = Await k →
  ∃ G' a' qc, (a' = a ∨ atomic_step io_fault a None a') ∧ pending a' !! i = Some qc ∧
    coupled (load th s) (<[i := save th (load th s) k]> ths) G' a'.
Proof.
  intros Hc Hi Hcode. destruct (coupled_thread _ _ _ _ _ _ Hc Hi) as (g & c & HG & Hp & Hsafe).
  rewrite Hcode in Hsafe. pose proof (inv_load th s (c_inv _ _ _ _ Hc)) as Hinv. destruct Hsafe as [_ Hsafe].
  specialize (Hsafe _ (interf_refl root _ _ Hinv)).
  destruct (coupled_acts s (load th s) ths G a i th g g c c k) as (a' & Ha & Hc'); try done.
  - by apply still_guar.
  - by apply effect_same.
  - intros z Hz. by left.
  - destruct (coupled_thread _ _ _ _ i (save th (load th s) k) Hc') as (g' & c' & _ & Hp' & _); [apply lookup_insert_eq|].
    by eexists _, a', _.
Qed.

Lemma coupled_call s ths G a i q cid :
  coupled s ths G a → ths !! i = None → session_valid q → spares q →
  ∃ G' a', atomic_step io_fault a (Some (Call i q)) a' ∧
    coupled s (<[i := MkThread q [] cid (code q)]> ths) G' a'.
Proof.
  intros Hc Hi Hq Hsp. destruct (coupled_absent _ _ _ _ _ Hc Hi) as [HG Hp]. destruct a as [m ps]. cbn in Hp.
  exists (<[i := (no_ghost, None)]> G), (MkAtomic m (<[i := (q, None)]> ps)). split; [by constructor|].
  destruct Hc as [Hinv Hth Hheld Hown Hnext Hopen Hcount Hbytes Hview Hsynced Hloose Hmarks Hstripe Hspares Hsealed]. split; cbn [contents pending]; try done.
  - intros j. destruct (decide (j = i)) as [->|Hne].
    + rewrite !lookup_insert_eq. split; [|done].
      by apply Hclient.
    + rewrite !lookup_insert_ne by done. apply Hth.
  - intros j k thj thk z Hne Hj Hk. destruct (decide (j = i)) as [->|Hji].
    { rewrite lookup_insert_eq in Hj. injection Hj as <-. cbn. by intros ?%elem_of_nil. }
    rewrite lookup_insert_ne in Hj by done. destruct (decide (k = i)) as [->|Hki].
    { rewrite lookup_insert_eq in Hk. injection Hk as <-. cbn. by intros _ ?%elem_of_nil. }
    rewrite lookup_insert_ne in Hk by done. by apply (Hheld j k thj thk z).
  - intros j k gj gk cj ck n Hne Hj Hk. destruct (decide (j = i)) as [->|Hji].
    { rewrite lookup_insert_eq in Hj. injection Hj as <- <-. cbn. set_solver. }
    rewrite lookup_insert_ne in Hj by done. destruct (decide (k = i)) as [->|Hki].
    { rewrite lookup_insert_eq in Hk. injection Hk as <- <-. cbn. set_solver. }
    rewrite lookup_insert_ne in Hk by done. by apply (Hown j k gj gk cj ck n).
  - intros j gj cj n Hj. destruct (decide (j = i)) as [->|Hji].
    { rewrite lookup_insert_eq in Hj. injection Hj as <- <-. cbn. set_solver. }
    rewrite lookup_insert_ne in Hj by done. by eapply Hnext.
  - intros n Hn. destruct (Hopen n Hn) as (j & gj & cj & Hj & Hnj). exists j, gj, cj. split; [|done].
    rewrite lookup_insert_ne; [done|]. congruence.
  - by rewrite map_sum_insert.
  - by rewrite map_sum_insert.
  - intros Hsync p Hlo. destruct (Hloose Hsync p Hlo) as [?|(j & gj & cj & Hj & Hu)]; [by left|right].
    exists j, gj, cj. split; [|done]. rewrite lookup_insert_ne; [done|]. congruence.
  - intros j thj gj cj p. destruct (decide (j = i)) as [->|Hne].
    + rewrite !lookup_insert_eq. by intros _ [= <- <-].
    + rewrite !lookup_insert_ne by done. apply Hmarks.
  - intros j thj gj cj p. destruct (decide (j = i)) as [->|Hne].
    + rewrite !lookup_insert_eq. by intros _ [= <- <-].
    + rewrite !lookup_insert_ne by done. apply Hstripe.
  - intros j thj [[<- <-]|[_ Hj]]%lookup_insert_Some; [done|by apply (Hspares j)].
  - intros o id Hvi Hk Hack.
    assert (acknowledged ths G o id) as Hold.
    { destruct o as [j|]; [|done]. destruct Hack as (thj & gj & data & Hj & Hq' & HGj). exists thj, gj, data.
      destruct (decide (j = i)) as [->|Hne]; [by rewrite lookup_insert_eq in HGj|rewrite lookup_insert_ne in Hj by done; by rewrite lookup_insert_ne in HGj]. }
    destruct (Hsealed o id Hvi Hk Hold) as [Hx Hno]. split; [done|].
    intros j gj cj Hoj [[<- [= <- <-]]|[_ Hj]]%lookup_insert_Some; [done|by eapply Hno].
Qed.

Lemma coupled_return s ths G a i th r :
  coupled s ths G a → ths !! i = Some th → t_code th = Ret r →
  ∃ G' a', atomic_step io_fault a (Some (Return i r)) a' ∧ coupled s (delete i ths) G' a' ∧
    ∃ c, says (t_session th) c r ∧ ∀ id data, ChunkId.valid id → kept id → asks (t_session th) = Some (ReqPut id data) →
      c = Some (RepDone (Ok tt)) → sealed None id s G'.
Proof.
  intros Hc Hi Hcode. destruct (coupled_thread _ _ _ _ _ _ Hc Hi) as (g & c & HG & Hp & Hsafe).
  rewrite Hcode in Hsafe. destruct Hsafe as (-> & Hsays & _). destruct a as [m ps]. cbn in Hp.
  exists (delete i G), (MkAtomic m (delete i ps)). split; [by econstructor|]. split.
  2: { exists c. split; [done|]. intros id data Hvi Hk Hq ->.
       destruct (c_sealed _ _ _ _ Hc (Some i) id Hvi Hk) as [Hx Hno]; [by exists th, no_ghost, data|].
       split; [done|]. intros j gj cj _ [Hne Hj]%lookup_delete_Some. eapply Hno; [|exact Hj]. by intros [= ->]. }
  destruct Hc as [Hinv Hth Hheld Hown Hnext Hopen Hcount Hbytes Hview Hsynced Hloose Hmarks Hstripe Hspares Hsealed]. split; cbn [contents pending]; try done.
  - intros j. destruct (decide (j = i)) as [->|Hne]; [by rewrite !lookup_delete_eq|].
    rewrite !lookup_delete_ne by done. apply Hth.
  - intros j k thj thk z Hne [_ Hj]%lookup_delete_Some [_ Hk]%lookup_delete_Some. by apply (Hheld j k thj thk z).
  - intros j k gj gk cj ck n Hne [_ Hj]%lookup_delete_Some [_ Hk]%lookup_delete_Some. by apply (Hown j k gj gk cj ck n).
  - intros j gj cj n [_ Hj]%lookup_delete_Some. by eapply Hnext.
  - intros n Hn. destruct (Hopen n Hn) as (j & gj & cj & Hj & Hnj). exists j, gj, cj. split; [|done].
    rewrite lookup_delete_ne; [done|]. intros <-. rewrite HG in Hj. injection Hj as <- <-. cbn in Hnj. set_solver.
  - rewrite (map_sum_delete _ _ _ _ HG) in Hcount. done.
  - rewrite (map_sum_delete _ _ _ _ HG) in Hbytes. done.
  - intros Hsync p Hlo. destruct (Hloose Hsync p Hlo) as [?|(j & gj & cj & Hj & Hu)]; [by left|right].
    exists j, gj, cj. split; [|done]. rewrite lookup_delete_ne; [done|]. intros <-. rewrite HG in Hj. by injection Hj as <- <-.
  - intros j thj gj cj p [_ Hj]%lookup_delete_Some [_ Hk]%lookup_delete_Some. by apply (Hmarks j thj gj cj).
  - intros j thj gj cj p [_ Hj]%lookup_delete_Some [_ Hk]%lookup_delete_Some. by apply (Hstripe j thj gj cj).
  - intros j thj [_ Hj]%lookup_delete_Some. by apply (Hspares j).
  - intros o id Hvi Hk Hack.
    assert (acknowledged ths G o id ∧ o ≠ Some i) as [Hold Hoi].
    { destruct o as [j|]; [|done]. destruct Hack as (thj & gj & data & Hj & Hq' & HGj).
      apply lookup_delete_Some in Hj as [Hne Hj]. apply lookup_delete_Some in HGj as [_ HGj]. split; [by exists thj, gj, data|]. by intros [= ->]. }
    destruct (Hsealed o id Hvi Hk Hold) as [Hx Hno]. split; [done|].
    intros j gj cj Hoj [_ Hj]%lookup_delete_Some. by eapply Hno.
Qed.

(** ** Runs *)

(** What a power loss could take: a chunk that was not safe at the start, or
    that a [Put] under way has just put in place, and nobody has been told. *)
Definition accounted (w : World) : Prop :=
  (∀ p, p ∈ dirset start → p ∉ unsynced start → p ∈ dirset (disk w) ∧ p ∉ unsynced (disk w)) ∧
  (sync_reliable → ∀ p, loose root (disk w) p → loose root start p ∨
     ∃ i th id data, threads w !! i = Some th ∧ ChunkId.valid id ∧ asks (t_session th) = Some (ReqPut id data) ∧
       p = final_of root id ∧ ¬ (kept id ∧ acked id)).

Definition related (w : World) (a : Atomic) : Prop :=
  if alive w then ∃ G, coupled (disk w) (threads w) G a
  else sound root (disk w) ∧ contents a = view root (disk w) ∧ accounted w.

Lemma coupled_accounted s ths G a b : coupled s ths G a → accounted (MkWorld s ths b).
Proof.
  intros Hc. split; [apply (c_synced _ _ _ _ Hc)|]. intros Hsync p Hp.
  destruct (c_loose _ _ _ _ Hc Hsync p Hp) as [?|(i & g & c & Hi & Hu)]; [by left|right].
  pose proof (c_threads _ _ _ _ Hc i) as Ht. rewrite Hi in Ht. destruct (ths !! i) as [th|] eqn:Hth; [|done].
  destruct (c_marks _ _ _ _ Hc i th g c p Hth Hi Hu) as (id & data & Hvi & Hq & Hp').
  exists i, th, id, data. split_and!; [done..|]. intros [Hk Ha].
  destruct (c_sealed _ _ _ _ Hc None id Hvi Hk Ha) as [_ Hno]. apply (Hno i g c); [done|done|congruence].
Qed.

Lemma runs_silent a a' : a' = a ∨ atomic_step io_fault a None a' → ∃ n, runs (atomic_step io_fault) n a [] a'.
Proof. intros [->|Ha]; [exists 0; constructor|]. exists 1. by apply (runs_snoc _ 0 a [] a None a'); [constructor|]. Qed.

Lemma runs_one a l a' : atomic_step io_fault a l a' → runs (atomic_step io_fault) 1 a (option_list l) a'.
Proof. intros Ha. apply (runs_snoc _ 0 a [] a l a'); [constructor|done]. Qed.

Lemma step_related w l w' a :
  step w l w' → (∀ e, l = Some e → spared e) → related w a → ∃ n a', runs (atomic_step io_fault) n a (option_list l) a' ∧ related w' a'.
Proof.
  intros Hstep Hsp Hrel. destruct Hstep as [i q cid s ths Hi Hv|i th B m k h b s s' ths Hi Hc Hm|i th B m k h e s s' ths Hi Hc Hm
    |i th B m k h s s' ths Hi Hc Hm|i th z k h s s' ths Hi Hc Hfree Hl|i th z k h e s s' ths Hi Hc Hl|i th k s ths Hi Hc|i th r s ths Hi Hc];
    destruct Hrel as [G HG]; cbn [disk threads] in HG.
  - destruct (coupled_call _ _ _ _ i q cid HG Hi Hv (Hsp _ eq_refl)) as (G' & a' & Ha & HG'). exists 1, a'. split; [by apply runs_one|by exists G'].
  - destruct (coupled_act _ _ _ _ _ i th m k h _ HG Hi Hc Hm) as (G' & a' & Ha & HG').
    destruct (runs_silent _ _ Ha) as [n Hn]. exists n, a'. split; [done|by exists G'].
  - destruct (coupled_act _ _ _ _ _ i th m k h _ HG Hi Hc Hm).
  - pose proof (coupled_act _ _ _ _ _ i th m k h _ HG Hi Hc Hm) as [Hfs Hun]. cbn in Hfs. exists 0, a. split; [constructor|].
    pose proof (coupled_accounted _ _ _ _ true HG) as [Hsy Hlo].
    destruct (inv_sound _ _ (c_inv _ _ _ _ HG)) as [Hlay Hpl Hin]. split.
    + split; unfold tree; cbn; by rewrite Hfs.
    + split; [rewrite (c_view _ _ _ _ HG); unfold view; cbn; by rewrite Hfs|].
      unfold accounted, loose, tree, dirset in *. cbn [disk threads] in *. by rewrite Hfs, Hun.
  - destruct (coupled_lock _ _ _ _ _ i th z k h HG Hi Hc Hfree Hl) as (G' & a' & Ha & HG').
    destruct (runs_silent _ _ Ha) as [n Hn]. exists n, a'. split; [done|by exists G'].
  - unfold lock, state in Hl. pose proof (fair_lock Hfair). by repeat case_match.
  - destruct (coupled_message _ _ _ _ i th k HG Hi Hc) as (G' & a' & qc & Ha & Hqc & HG').
    destruct (runs_silent _ _ Ha) as [n Hn]. exists (S n), a'. split; [|by exists G'].
    apply (runs_snoc _ n a [] a' (Some (Message i))); [done|]. destruct a' as [m ps]. by econstructor.
  - destruct (coupled_return _ _ _ _ i th r HG Hi Hc) as (G' & a' & Ha & HG' & _). exists 1, a'. split; [by apply runs_one|by exists G'].
Qed.

Lemma runs_related n w tr w' a :
  runs (step) n w tr w' → Forall spared tr → related w a → ∃ n' a', runs (atomic_step io_fault) n' a tr a' ∧ related w' a'.
Proof.
  intros Hr. revert a. induction Hr as [w|n w tr w1 l w2 Hr IH Hs]; intros a Hsp Ha; [exists 0, a; by split; [constructor|]|].
  apply Forall_app in Hsp as [Hsp Hl]. destruct (IH a Hsp Ha) as (n1 & a1 & Hr1 & Ha1).
  assert (∀ e, l = Some e → spared e) as Hl' by (intros e ->; by apply Forall_cons in Hl as [? _]).
  destruct (step_related _ _ _ _ Hs Hl' Ha1) as (n2 & a2 & Hr2 & Ha2).
  exists (n2 + n1), a2. split; [by eapply runs_app|done].
Qed.

Lemma idle_related :
  idle start → (∀ id, acked id → is_Some (tree start !! final_of root id)) →
  related (MkWorld start ∅ true) (MkAtomic (view root start) ∅).
Proof.
  intros [[Hlay Hok _ Hpl] Hin [Hc Hb] Hf] Hthere. exists ∅. split; cbn [disk threads contents pending]; try done.
  - split; [done|done|rewrite Hc; apply wrap64_range|rewrite Hb; apply wrap64_range].
  - intros n Hn. rewrite Hf, lookup_empty in Hn. by destruct Hn.
  - unfold drift_count, file_count. rewrite map_sum_empty, Hc. unfold tree.
    by replace (_ - _ + 0)%Z with (wrap64 (Z.of_nat (size (chunk_files root (files (fs (os start)))))) - Z.of_nat (size (chunk_files root (files (fs (os start))))))%Z by lia;
       rewrite wrap64_sub, Z.sub_diag.
  - unfold drift_bytes, byte_count. rewrite map_sum_empty, Hb. unfold tree.
    by replace (_ - _ + 0)%Z with (wrap64 (Z.of_nat (total_bytes (chunk_files root (files (fs (os start)))))) - Z.of_nat (total_bytes (chunk_files root (files (fs (os start))))))%Z by lia;
       rewrite wrap64_sub, Z.sub_diag.
  - intros _ p Hp. by left.
  - intros [i|] id _ _ Hack; [by destruct Hack as (th & g & data & Hi & _)|]. split; [by apply Hthere|].
    intros j g c _ Hj. by rewrite lookup_empty in Hj.
Qed.

Lemma wrap64_zero c x : (0 ≤ c < 2 ^ 64)%Z → wrap64 (c - x + 0)%Z = 0%Z → c = wrap64 x.
Proof.
  intros Hc Hz. assert (wrap64 (wrap64 (c - x + 0) + x) = wrap64 c) as He by (rewrite wrap64_add; f_equal; lia).
  rewrite Hz, Z.add_0_l in He. rewrite He. unfold wrap64. by rewrite Z.mod_small.
Qed.

(** When every call has returned the store is idle again. *)
Lemma related_idle w a : related w a → alive w = true → threads w = ∅ → idle (disk w).
Proof.
  intros Hr Hal Hno. unfold related in Hr. rewrite Hal, Hno in Hr. destruct Hr as [G HG].
  assert (G = ∅) as ->.
  { apply map_eq. intros i. pose proof (c_threads _ _ _ _ HG i) as Hi. rewrite !lookup_empty in *. by destruct (G !! i). }
  pose proof (c_count _ _ _ _ HG) as Hcc. pose proof (c_bytes _ _ _ _ HG) as Hbb. rewrite !map_sum_empty in *.
  destruct (c_inv _ _ _ _ HG) as [[Hlay Hpl Hin] Hok Hc Hb]. split.
  - by split.
  - done.
  - split; by apply wrap64_zero.
  - apply map_eq. intros n. rewrite lookup_empty. apply eq_None_not_Some. intros Hn.
    destruct (c_open _ _ _ _ HG n Hn) as (i & g & c & Hi & _). by rewrite lookup_empty in Hi.
Qed.

Lemma related_sound w a : related w a → sound root (disk w).
Proof. unfold related. destruct (alive w); [intros [G HG]; apply (c_inv _ _ _ _ HG)|by intros [? _]]. Qed.

Lemma related_view w a : related w a → contents a = view root (disk w).
Proof. unfold related. destruct (alive w); [intros [G HG]; apply (c_view _ _ _ _ HG)|by intros (_ & ? & _)]. Qed.

Lemma related_accounted w a : related w a → accounted w.
Proof.
  unfold related. destruct w as [s ths []]; cbn; [intros [G HG]; by eapply coupled_accounted|by intros (_ & _ & ?)].
Qed.

(** ** Nobody waits for ever *)

Lemma free_for_dec i z ths : free_for i z ths ∨ ∃ j th, j ≠ i ∧ ths !! j = Some th ∧ z ∈ t_held th.
Proof.
  destruct (decide (map_Forall (λ j th, j = i ∨ z ∉ t_held th) ths)) as [Hf|Hn].
  - left. intros j th Hne Hj. by destruct (Hf j th Hj).
  - right. apply map_not_Forall in Hn as (j & th & Hj & Hno); [|apply _]. exists j, th.
    split; [tauto|]. split; [done|]. apply dec_stable. tauto.
Qed.

Lemma progress_of s ths G a i th :
  relock = RelockReenters → coupled s ths G a → ths !! i = Some th →
  (∀ z k h, t_code th = Lock z k h → free_for i z ths) → is_Some (advance (GoOn i) (MkWorld s ths true)).
Proof.
  intros Hre Hc Hi Hfree. unfold advance. cbn [alive negb threads]. rewrite Hi. unfold go_on. cbn [disk threads].
  destruct (t_code th) as [r|e|B m k h|z k h|k] eqn:Hcode.
  - by eexists.
  - destruct (coupled_thread _ _ _ _ _ _ Hc Hi) as (g & c & _ & _ & Hs). by rewrite Hcode in Hs.
  - destruct (m (load th s)) as [o s'] eqn:E. pose proof (coupled_act _ _ _ _ _ i th m k h _ Hc Hi Hcode E) as Ho.
    destruct o; try done; by eexists.
  - rewrite (free_forb_false _ _ _ (Hfree _ _ _ eq_refl)). unfold lock, state. rewrite Hre. case_bool_decide; by eexists.
  - by eexists.
Qed.

(** Whoever cannot go on waits for the holder of a stripe, who can, and does
    not wait for the other side of a stream. *)
Lemma progress s ths G a i th :
  relock = RelockReenters → coupled s ths G a → ths !! i = Some th → awaits th = false →
  ∃ j thj, ths !! j = Some thj ∧ awaits thj = false ∧ is_Some (advance (GoOn j) (MkWorld s ths true)).
Proof.
  intros Hre Hc Hi Haw. destruct (t_code th) as [r|e|B m k h|z k h|k] eqn:Hcode.
  4: destruct (free_for_dec i z ths) as [Hfree|(j & thj & Hne & Hj & Hz)].
  5: { exists j, thj. destruct (coupled_thread _ _ _ _ _ _ Hc Hj) as (g & c & _ & _ & Hs). split; [done|]. split.
       - unfold awaits. destruct (t_code thj) as [| | | |k'] eqn:Hcj; try done. destruct Hs as [Hnone _].
         cbn in Hnone. rewrite Hnone in Hz. by apply elem_of_nil in Hz.
       - eapply progress_of; [done|done|exact Hj|]. intros z' k' h' Hcj. rewrite Hcj in Hs. destruct Hs as [Hs _].
         rewrite Forall_forall in Hs. specialize (Hs z Hz) as ->. intros x thx Hxj Hx Hz'.
         by apply (c_held _ _ _ _ Hc x j thx thj z). }
  all: exists i, th; split; [done|]; split; [done|]; (eapply progress_of; [done|done|exact Hi|]); rewrite Hcode; try done.
  by intros ? ? ? [= <- _ _].
Qed.

(** The chunk and its directories are on disk when they were at the start,
    unless a [Put] of it is under way and nobody has been told that it is
    there. *)
Lemma related_tidy w a id :
  sync_reliable → ChunkId.valid id → tidy root (λ i, i = id) nothing (os start) → related w a →
  (kept id ∧ acked id) ∨ (∀ i th data, threads w !! i = Some th → asks (t_session th) ≠ Some (ReqPut id data)) →
  tidy root (λ i, i = id) nothing (os (disk w)).
Proof.
  intros Hsync Hv [Hready Hset] Hrel Hno. destruct (related_accounted _ _ Hrel) as [Hsy Hlo].
  split; [intros i -> q Hq; by apply Hsy; apply (Hready id eq_refl)|]. intros i -> _ Hx Hin.
  destruct (Hlo Hsync (final_of root id)) as [(_ & Hx0 & Hin0)|(j & th & i & data & Hj & Hvi & Hq & He & Hnack)];
    [by split; [exists id|]|exact (Hset id eq_refl (λ f, f) Hx0 Hin0)|].
  apply final_of_inj in He as ->; [|done|done]. destruct Hno as [?|Hno]; [done|by apply (Hno j th data)].
Qed.

Lemma related_durable w a m' id c :
  sync_reliable → ChunkId.valid id → tidy root (λ i, i = id) nothing (os start) →
  related w a → loss (os (disk w)) m' →
  (kept id ∧ acked id) ∨ (∀ i th data, threads w !! i = Some th → asks (t_session th) ≠ Some (ReqPut id data)) →
  view root (disk w) !! ChunkId.ToHexString id = Some c →
  view root (reboot m' (disk w)) !! ChunkId.ToHexString id = Some c.
Proof.
  intros Hsync Hv Ht Hrel Hloss Hno Hc. pose proof (related_tidy w a id Hsync Hv Ht Hrel Hno) as Htidy.
  assert (is_Some (tree (disk w) !! final_of root id)) as Hx by (by rewrite <- (view_at_some root), Hc).
  rewrite view_at in Hc |- * by done. rewrite <- Hc. f_equal.
  by apply (tidy_survives root (λ i, i = id) (λ i E, eq_ind_r ChunkId.valid Hv E) (disk w)); [|eapply related_sound|..].
Qed.

End From.

(** Once the [Put] of a kept chunk has returned successfully it is known to
    be there. *)
Lemma coupled_acked start kept acked s ths G a id0 :
  coupled start kept acked s ths G a → sealed None id0 s G → coupled start kept (λ id, id = id0) s ths G a.
Proof.
  intros [] Hid. split; try done. intros [i|] id Hv Hk Hack; [|by rewrite Hack].
  by match goal with H : ∀ o id, _ |- _ => apply (H (Some i) id) end.
Qed.

Lemma return_acked start kept acked w1 a1 i x w2 th id data :
  step w1 (Some (Return i x)) w2 → related start kept acked w1 a1 → threads w1 !! i = Some th →
  asks (t_session th) = Some (ReqPut id data) → (∀ c, says (t_session th) c x → c = Some (RepDone (Ok tt))) →
  ChunkId.valid id → kept id → ∃ a2, related start kept (λ j, j = id) w2 a2.
Proof.
  intros Hs. inversion Hs as [| | | | | | |i' th' x' s ths Hi Hcode]; subst. cbn [threads].
  intros Hrel Hi' Hq Hsays Hv Hk. rewrite Hi in Hi'. injection Hi' as ->. destruct Hrel as [G HG].
  destruct (coupled_return start kept acked s ths G a1 i th x HG Hi Hcode) as (G' & a2 & _ & Hc & c & Hc1 & Hc2).
  exists a2, G'. apply (coupled_acked _ _ acked); [done|]. eapply Hc2; [done|done|done|by apply Hsays].
Qed.

(** ** Every safe client

    A run from an idle store is a run of the atomic store with the same calls
    and returns, and it ends in a related state; what follows from that. *)

Definition no_chunk (id : ChunkId.t) : Prop := False.

Definition plainly_related s : World → Atomic → Prop := related s no_chunk no_chunk.

Lemma none_spared tr : Forall (spared no_chunk) tr.
Proof. apply Forall_forall. intros [i q|i r|i] _; [|done..]. by intros id rq []. Qed.

Lemma step_plainly_related s w l w' a :
  step w l w' → plainly_related s w a → ∃ n a', runs (atomic_step io_fault) n a (option_list l) a' ∧ plainly_related s w' a'.
Proof.
  intros Hs. apply (step_related s no_chunk no_chunk w l w' a Hs). intros e ->.
  by apply Forall_singleton, (none_spared [e]).
Qed.

Lemma idle_plainly_related s : idle s → plainly_related s (MkWorld s ∅ true) (MkAtomic (view root s) ∅).
Proof. intros Hs. by apply idle_related; [|intros ? []]. Qed.

Lemma run_related s n tr w :
  idle s → runs step n (MkWorld s ∅ true) tr w →
  ∃ n' a, runs (atomic_step io_fault) n' (MkAtomic (view root s) ∅) tr a ∧ plainly_related s w a.
Proof.
  intros Hs Hr. exact (runs_related s no_chunk no_chunk n _ tr w _ Hr (none_spared tr) (idle_plainly_related s Hs)).
Qed.

Lemma client_linearizable s n tr w :
  idle s → runs step n (MkWorld s ∅ true) tr w →
  ∃ n' a, runs (atomic_step io_fault) n' (MkAtomic (view root s) ∅) tr a ∧ contents a = view root (disk w).
Proof.
  intros Hs Hr. destruct (run_related s n tr w Hs Hr) as (n' & a & Ha & Hrel).
  exists n', a. split; [done|]. by apply (related_view s no_chunk no_chunk).
Qed.

(** What a power loss leaves of a run that stopped anywhere. *)
Definition recovered s (tr : list event) (w : World) (m' : gmap path file) : Prop :=
  healthy root (reboot m' (disk w)) ∧
  (∀ s2, LocalDiskChunkStore root (reboot m' (disk w)) = (Done tt, s2) → idle s2) ∧
  ∃ n' a, runs (atomic_step io_fault) n' (MkAtomic (view root s) ∅) tr a ∧
    ∀ id data, ChunkId.valid id → view root (reboot m' (disk w)) !! ChunkId.ToHexString id = Some data →
      contents a !! ChunkId.ToHexString id = Some data ∧ digest_matches id data.

Lemma client_recovers s n tr w m' :
  idle s → runs step n (MkWorld s ∅ true) tr w → power_loss (tree (disk w)) m' → recovered s tr w m'.
Proof.
  intros Hs Hr Hloss. destruct (run_related s n tr w Hs Hr) as (n' & a & Ha & Hrel).
  pose proof (related_sound _ _ _ _ _ Hrel) as Hso. destruct (reboot_sound root m' _ Hso Hloss) as [Hh Hi]. split; [done|].
  split; [intros s2 E; by destruct (ctor_idle (reboot m' (disk w)) s2 Hh Hi eq_refl E)|].
  exists n', a. split; [done|]. intros id data Hv Hd. rewrite view_at in Hd by done.
  apply fmap_Some in Hd as (x' & Hx' & ->). destruct (Hi id x' Hv Hx') as [_ Hdig]. split; [|done].
  destruct (Hloss _ _ Hx') as (x & Hx & Hkeep). rewrite (related_view _ _ _ _ _ Hrel), view_at, Hx by done.
  destruct (sound_intact _ _ Hso id x Hv Hx) as [Hdur _]. by destruct (Hkeep Hdur) as [-> _].
Qed.

(** What is there is durable, unless a [Put] of it is under way. *)
Lemma client_durable s n tr w m' id c :
  sync_reliable → idle s → ChunkId.valid id → tidy root (λ i, i = id) nothing (os s) →
  runs step n (MkWorld s ∅ true) tr w → loss (os (disk w)) m' →
  (∀ i th data, threads w !! i = Some th → asks (t_session th) ≠ Some (ReqPut id data)) →
  view root (disk w) !! ChunkId.ToHexString id = Some c →
  view root (reboot m' (disk w)) !! ChunkId.ToHexString id = Some c.
Proof.
  intros Hsync Hs Hv Ht Hr Hloss Hno. destruct (run_related s n tr w Hs Hr) as (n' & a & _ & Hrel).
  apply (related_durable s no_chunk no_chunk w a m' id c); [done..|by right].
Qed.

(** After a successful [Put] the chunk is known to be there, whatever goes on,
    while nobody deletes it. *)
Lemma client_put_related s n1 t1 w1 i x w2 n2 t2 w th id data :
  idle s → ChunkId.valid id →
  Forall (spared (λ j, j = id)) t1 → Forall (spared (λ j, j = id)) t2 →
  runs step n1 (MkWorld s ∅ true) t1 w1 → step w1 (Some (Return i x)) w2 → runs step n2 w2 t2 w →
  threads w1 !! i = Some th → asks (t_session th) = Some (ReqPut id data) →
  (∀ c, says (t_session th) c x → c = Some (RepDone (Ok tt))) →
  ∃ a, related s (λ j, j = id) (λ j, j = id) w a.
Proof.
  intros Hs Hv Hsp1 Hsp2 Hr1 Hstep Hr2 Hth Hq Hsays.
  assert (related s (λ j, j = id) no_chunk (MkWorld s ∅ true) (MkAtomic (view root s) ∅)) as Hrel0
    by (by apply idle_related; [|intros ? []]).
  destruct (runs_related s _ no_chunk _ _ _ _ _ Hr1 Hsp1 Hrel0) as (k1 & a1 & _ & Hrel1).
  destruct (return_acked _ _ _ _ _ _ _ _ _ _ _ Hstep Hrel1 Hth Hq Hsays Hv eq_refl) as (a2 & Hrel2).
  destruct (runs_related s _ _ _ _ _ _ _ Hr2 Hsp2 Hrel2) as (k2 & a & _ & Hrel). by exists a.
Qed.

(** So is a chunk that was there at the start. *)
Lemma client_there_related s n t w id :
  idle s → Forall (spared (λ j, j = id)) t → is_Some (tree s !! final_of root id) → runs step n (MkWorld s ∅ true) t w →
  ∃ a, related s (λ j, j = id) (λ j, j = id) w a.
Proof.
  intros Hs Hsp Hx Hr.
  assert (related s (λ j, j = id) (λ j, j = id) (MkWorld s ∅ true) (MkAtomic (view root s) ∅)) as Hrel0
    by (apply idle_related; [done|by intros i ->]).
  destruct (runs_related s _ _ _ _ _ _ _ Hr Hsp Hrel0) as (k & a & _ & Hrel). by exists a.
Qed.

Lemma client_quiescent s n tr w :
  idle s → runs step n (MkWorld s ∅ true) tr w → alive w = true → threads w = ∅ → idle (disk w).
Proof. intros Hs Hr. destruct (run_related s n tr w Hs Hr) as (n' & a & _ & Hrel). by apply (related_idle s no_chunk no_chunk w a). Qed.

(** While a call is under way that does not wait for the other side of its
    stream, such a call can go on. *)
Lemma client_progress s n tr w i th :
  relock = RelockReenters → idle s → runs step n (MkWorld s ∅ true) tr w → alive w = true →
  threads w !! i = Some th → awaits th = false →
  ∃ j thj, threads w !! j = Some thj ∧ awaits thj = false ∧ is_Some (advance (GoOn j) w).
Proof.
  intros Hre Hs Hr Hal Hi Haw. destruct (run_related s n tr w Hs Hr) as (n' & a & _ & Hrel).
  unfold plainly_related, related in Hrel. rewrite Hal in Hrel. destruct Hrel as [G HG].
  destruct w as [s' ths al]. cbn in *. subst al. by eapply progress.
Qed.

Lemma client_terminates s n tr w :
  relock = RelockReenters → idle s → runs step n (MkWorld s ∅ true) tr w →
  n ≤ (longest + 2) * calls tr + messages tr + 1 ∧
  (alive w = true → threads w ≠ ∅ → ∃ l w', step w l w' ∧ calls (option_list l) = 0).
Proof.
  intros Hre Hs Hr. split.
  - destruct (runs_bounded n (MkWorld s ∅ true) tr w eq_refl eq_refl Hr) as (B & _ & Hle).
    pose proof (left_to_do_nonneg B). destruct (alive w); lia.
  - intros Hal (i & th & Hi)%map_choose. destruct (awaits th) eqn:Haw.
    + destruct w as [s' ths al]. cbn in *. subst al. unfold awaits in Haw. destruct (t_code th) as [| | | |k] eqn:Hcode; try done.
      by eexists _, _; split; [by eapply step_message|].
    + destruct (client_progress s n tr w i th Hre Hs Hr Hal Hi Haw) as (j & _ & _ & _ & [[l w'] E]).
      exists l, w'. by apply go_on_no_call in E.
Qed.

(** Programs without messages run without messages. *)
Lemma client_mute n s tr w :
  (∀ q, mute (code q)) → runs step n (MkWorld s ∅ true) tr w → messages tr = 0.
Proof.
  intros Hmute Hr. apply (runs_mute n (MkWorld s ∅ true) tr w Hmute); [done|]. apply map_Forall_empty.
Qed.

End Coupling.
