(* ===== verification/ThreadTheorems.v ===== *)
(** * Theorems about many threads on one disk store

    Any number of threads, any interleaving of their actions, any schedule of
    failing calls but the status queries [exists] and [file_size], and a crash
    at any action: the store is linearizable, recovers, loses no count, leaks
    no descriptor, never deadlocks and keeps over a power loss what nobody is
    putting, as far as its mutex may be locked again by its owner. A failing
    status query breaks linearizability and the counts, since the code takes
    it for a missing file ([DiskCounters.counters_drift]); every theorem here
    assumes that there is none. *)

From S2P Require Import Prelude Result Cxx Sha256 ChunkId Logger IChunkStore Posix LocalDisk DiskRules DiskLayout DiskEffects DiskTheorems DiskContract DiskSafety DiskDurability DiskCounters Programs Threads ThreadRules ThreadOps ThreadCoupling.
Import LocalDisk.

Section Theorems.
Context `{Evp, Platform, UuidSource, !EvpLaws, !UuidLaws}.
Variable root : path.
Implicit Types s : Disk.

(** ** The threads call the store *)

Definition program (q : request) : prog reply :=
  match q with
  | ReqPut id data => r ← Threaded.Put root id data; mret (RepDone r)
  | ReqGet id => r ← Threaded.Get root id; mret (RepData r)
  | ReqVerify id => r ← Threaded.VerifyOnly root id; mret (RepDone r)
  | ReqDelete id => r ← Threaded.Delete root id; mret (RepDone r)
  | ReqExists id => b ← Threaded.Exists root id; mret (RepBool b)
  | ReqStats => st ← Threaded.GetStats root; mret (RepStats st)
  end.

Lemma program_within q : within 24 (program q).
Proof.
  assert (∀ A n (p : prog A) (f : A → reply), within n p → n ≤ 24 → within 24 (r ← p; mret (f r))) as Hwith.
  { intros A n p f Hp Hn. eapply within_mono; [by eapply (within_bind n 0)|lia]. }
  destruct q; eapply Hwith; (apply Threaded.Put_within || apply Threaded.Get_within || apply Threaded.VerifyOnly_within
    || apply Threaded.Delete_within || apply Threaded.Exists_within || apply Threaded.GetStats_within || lia).
Qed.

Lemma program_mute q : mute (program q).
Proof.
  destruct q; apply mute_bind; try done; auto using Threaded.Put_mute, Threaded.Get_mute, Threaded.VerifyOnly_mute,
    Threaded.Delete_mute, Threaded.Exists_mute, Threaded.GetStats_mute.
Qed.

#[local] Instance store_client : Client := {|
  session := request;
  answer := reply;
  session_valid := request_valid;
  code := program;
  asks := Some;
  says _ c a := c = Some a;
  longest := 24;
  code_within := program_within
|}.

Lemma store_client_safe : fair → SafeClient root.
Proof.
  intros [Hx Hsz _] q s Hv Hh. destruct q; apply safe_bind; (eapply safe_mono;
    [first [by apply put_safe|by apply get_safe|by apply verify_safe|by apply delete_safe|by apply exists_safe|by apply stats_safe]
    |by intros ? ? ? ? (-> & -> & Hh')]).
Qed.

(** A single-threaded call, as [LocalDisk] defines it. *)
Definition serve (q : request) : M Disk reply :=
  match q with
  | ReqPut id data => r ← LocalDisk.Put root id data; mret (RepDone r)
  | ReqGet id => r ← LocalDisk.Get root id; mret (RepData r)
  | ReqVerify id => r ← LocalDisk.VerifyOnly root id; mret (RepDone r)
  | ReqDelete id => r ← LocalDisk.Delete root id; mret (RepDone r)
  | ReqExists id => b ← LocalDisk.Exists root id; mret (RepBool b)
  | ReqStats => st ← LocalDisk.GetStats root; mret (RepStats st)
  end.

Lemma run_reply {A} (p : prog A) m (f : A → reply) :
  same_run (run p) m → same_run (run (r ← p; mret (f r))) (r ← m; mret (f r)).
Proof. intros Hp. etransitivity; [apply run_bind|]. apply same_run_bind; [by intros ? ?|done]. Qed.

(** C2: The disk store is linearizable, provided that the status queries
    [exists] and [file_size] do not fail (the code takes such a failure for a
    missing file, and then answers as no store would) and that the mutex does
    not report the relock of [Put] as an error. Start from a store between
    calls. Whatever any number of threads do, action by action in any order,
    with any other system calls failing and a crash at any action, the calls
    and returns of the run are those of the atomic store, on which each call
    takes effect at one instant between its invocation and its return, as the
    contract of [IChunkStore] specifies; and the chunks on disk are at every
    moment the chunks of the atomic store. *)
Theorem concurrent_store_linearizable (s : Disk) (n : nat) (tr : list event) (w : World) :
  fair → idle root s → runs step n (MkWorld s ∅ true) tr w →
  ∃ n' a, runs (atomic_step io_fault) n' (MkAtomic (view root s) ∅) tr a ∧ contents a = view root (disk w).
Proof. intros Hfair. apply (client_linearizable root Hfair (store_client_safe Hfair)). Qed.

(** Crash recovery under concurrency. A run stops anywhere, in the middle
    of any number of calls, and a power loss destroys what was not synced:
    the store that starts again is well formed, its constructor makes it
    ready for new threads, every chunk it still has was in the atomic store
    of the run and has the right digest. *)
Theorem concurrent_crash_recovery (s : Disk) (n : nat) (tr : list event) (w : World) (m' : gmap path file) :
  fair → idle root s → runs step n (MkWorld s ∅ true) tr w → power_loss (tree (disk w)) m' →
  healthy root (reboot m' (disk w)) ∧
  (∀ s2, LocalDiskChunkStore root (reboot m' (disk w)) = (Done tt, s2) → idle root s2) ∧
  ∃ n' a, runs (atomic_step io_fault) n' (MkAtomic (view root s) ∅) tr a ∧
    ∀ id data, ChunkId.valid id → view root (reboot m' (disk w)) !! ChunkId.ToHexString id = Some data →
      contents a !! ChunkId.ToHexString id = Some data ∧ digest_matches id data.
Proof. intros Hfair Hs. by apply (client_recovers root Hfair (store_client_safe Hfair)). Qed.


(** C11: No deadlock and no livelock. Every run has at most 26 steps per call
    and one more for a crash, however the scheduler behaves; and as long as a
    call is under way and the machine is up some thread can take a step, so
    every call returns. This is under a lock its owner may take again, and
    when the status queries [exists] and [file_size] do not fail; other calls
    may. *)
Theorem concurrent_calls_terminate (s : Disk) (n : nat) (tr : list event) (w : World) :
  fair → relock = RelockReenters → idle root s → runs step n (MkWorld s ∅ true) tr w →
  n ≤ 26 * calls tr + 1 ∧
  (alive w = true → threads w ≠ ∅ → ∃ l w', step w l w' ∧ calls (option_list l) = 0).
Proof.
  intros Hfair Hre Hs Hr. pose proof (client_mute n s tr w program_mute Hr) as Hm.
  destruct (client_terminates root Hfair (store_client_safe Hfair) s n tr w Hre Hs Hr) as [Hn Hgo].
  split; [|done]. cbn in Hn. lia.
Qed.

(** C4: Durability under concurrency. Take a chunk of which two things hold
    before the threads start: its shard directory, with all directories above,
    has reached the disk, and if the chunk is already there, its own directory
    entry has reached the disk too. A run of any number of calls, interleaved
    action by action, stops anywhere, and a power loss destroys everything
    that was not synced, contents and directory entries: the chunk is found
    again with the same bytes if it was in the store at that moment and no
    [Put] of it was under way. During the run [open], [fsync], [exists] and
    [file_size] must not fail, nor the mutex report the relock of [Put] as an
    error; any other call may fail. *)
Theorem concurrent_chunks_durable (s : Disk) (n : nat) (tr : list event) (w : World) (m' : gmap path file)
  (id : ChunkId.t) (c : list byte) :
  fair → sync_reliable → idle root s → ChunkId.valid id → tidy root (λ i, i = id) nothing (os s) →
  runs step n (MkWorld s ∅ true) tr w → loss (os (disk w)) m' →
  (∀ i th data, threads w !! i = Some th → t_session th ≠ ReqPut id data) →
  view root (disk w) !! ChunkId.ToHexString id = Some c →
  view root (reboot m' (disk w)) !! ChunkId.ToHexString id = Some c.
Proof.
  intros Hfair Hsync Hs Hv Ht Hr Hl Hno.
  apply (client_durable root Hfair (store_client_safe Hfair) s n tr w m' id c Hsync Hs Hv Ht Hr Hl).
  intros i th data Hi [= Hq]. by apply (Hno i th data).
Qed.

(** The programs that the threads run are the operations of [LocalDisk]:
    run by one thread without interference they give the same outcome and the
    same state, on every path. *)
Theorem program_alone (q : request) (s : Disk) : run (program q) s = serve q s.
Proof.
  destruct q; apply run_reply; [apply Threaded.run_Put|apply Threaded.run_Get|apply Threaded.run_VerifyOnly
    |apply Threaded.run_Delete|apply Threaded.run_Exists|apply Threaded.run_GetStats].
Qed.

End Theorems.

(** ** Concrete runs *)

Section Examples.

#[local] Existing Instance toy_evp.
#[local] Existing Instance toy_uuid.
#[local] Existing Instance toy_evp_laws.
#[local] Existing Instance toy_uuid_laws.

#[local] Instance data_client `{Platform} : Client := store_client ["data"].

(** Two threads put the same chunk, action by action in turn; then one reads
    it while another deletes it. *)
Definition two_puts `{Platform} : list choice :=
  [Invoke 1 (ReqPut sample_chunk sample_data) "a"; Invoke 2 (ReqPut sample_chunk sample_data) "b"] ++
  concat (repeat [GoOn 1; GoOn 2] 30) ++
  [Invoke 3 (ReqGet sample_chunk) "c"; Invoke 4 (ReqDelete sample_chunk) "d"] ++
  concat (repeat [GoOn 3; GoOn 4] 20).

Definition fresh_world `{Platform} : World := MkWorld fresh_disk ∅ true.

Lemma two_puts_valid `{Platform} : Forall choice_valid two_puts.
Proof.
  unfold two_puts. repeat (apply Forall_app; split); repeat (apply Forall_cons; split); try exact I;
    try exact sample_chunk_valid; try constructor.
Qed.

Lemma fresh_idle : idle ["data"] fresh_disk.
Proof. split; [exact fresh_healthy|apply fresh_intact|by vm_compute|done]. Qed.

Lemma toy_fair : @fair toy_good.
Proof. split; [by intros (n & msg & ?)|by intros (n & msg & ?)|done]. Qed.

Lemma crash_fair : @fair crash_after_rename.
Proof. split; [intros (n & msg & Hf)|intros (n & msg & Hf)|done]; cbn in Hf; by case_bool_decide. Qed.

(** The runs of [two_puts], without a fault and with a crash. *)
Definition run_of (P : Platform) : nat * list event * World := exec two_puts 0 [] fresh_world.
Abbreviation good_run := (run_of toy_good).
Abbreviation crash_run := (run_of crash_after_rename).

Lemma run_of_runs P : runs step (run_of P).1.1 fresh_world (run_of P).1.2 (run_of P).2.
Proof.
  pose proof (exec_runs two_puts 0 [] fresh_world fresh_world two_puts_valid (runs_nil _ _)) as Hr.
  fold (run_of P) in Hr. by destruct (run_of P) as [[n tr] w].
Qed.

Definition answers_of `{Platform} (tr : list event) : list (nat * reply) :=
  omap (λ e, match e with Return i r => Some (i, r) | _ => None end) tr.

Lemma concurrent_store_linearizable_witness :
  answers_of good_run.1.2 = [(1, RepDone (Ok tt)); (2, RepDone (Ok tt)); (3, RepData (Ok sample_data)); (4, RepDone (Ok tt))] ∧
  ∃ n' a, runs (atomic_step (@io_fault toy_good)) n' (MkAtomic ∅ ∅) good_run.1.2 a ∧
    contents a = view ["data"] (disk good_run.2).
Proof.
  split; [by vm_compute|].
  exact (@concurrent_store_linearizable _ toy_good _ _ _ ["data"] fresh_disk _ _ _ toy_fair fresh_idle (run_of_runs toy_good)).
Defined.

(** The second [Put] is under way when the machine stops; the chunk of the
    first is found again. *)
Lemma concurrent_crash_recovery_witness :
  alive crash_run.2 = false ∧ size (threads crash_run.2) = 2 ∧
  is_Some (view ["data"] (reboot (tree (disk crash_run.2)) (disk crash_run.2)) !! ChunkId.ToHexString sample_chunk) ∧
  healthy ["data"] (reboot (tree (disk crash_run.2)) (disk crash_run.2)).
Proof.
  split; [by vm_compute|]. split; [by vm_compute|]. split; [by eapply bool_decide_eq_true_1; vm_compute|].
  exact (proj1 (@concurrent_crash_recovery _ crash_after_rename _ _ _ ["data"] fresh_disk _ _ _
    (tree (disk crash_run.2)) crash_fair fresh_idle (run_of_runs crash_after_rename) (power_loss_refl _))).
Defined.


Lemma concurrent_calls_terminate_witness : good_run.1.1 = 56 ∧ good_run.1.1 ≤ 26 * calls good_run.1.2 + 1.
Proof.
  split; [by vm_compute|].
  exact (proj1 (@concurrent_calls_terminate _ toy_good _ _ _ ["data"] fresh_disk _ _ _ toy_fair eq_refl fresh_idle
    (run_of_runs toy_good))).
Defined.

#[local] Existing Instance toy_good.

(** One thread stores a chunk in a shard that has reached the disk; another
    is in the middle of its own [Put] when everything unsynced is lost. *)
Definition put_then_put : list choice :=
  Invoke 1 (ReqPut sample_chunk sample_data) "a" :: repeat (GoOn 1) 24 ++
  Invoke 2 (ReqPut other_chunk other_data) "b" :: repeat (GoOn 2) 12.

Definition durable_run : nat * list event * World := exec put_then_put 0 [] (MkWorld emptied_disk ∅ true).

Lemma durable_run_runs : runs step durable_run.1.1 (MkWorld emptied_disk ∅ true) durable_run.1.2 durable_run.2.
Proof.
  assert (Forall choice_valid put_then_put) as Hv.
  { unfold put_then_put. repeat first [apply Forall_app; split|apply Forall_cons; split|apply Forall_nil; exact I];
      first [exact I|exact sample_chunk_valid|exact other_chunk_valid]. }
  pose proof (exec_runs put_then_put 0 [] _ _ Hv (runs_nil _ (MkWorld emptied_disk ∅ true))) as Hr.
  fold durable_run in Hr. by destruct durable_run as [[n tr] w].
Qed.

Lemma all_synced_idle root s :
  healthy root (all_synced s) → intact root (tree (all_synced s)) → counters_ok root (all_synced s) →
  idle root (all_synced s).
Proof. by split. Qed.

Lemma emptied_idle : idle ["data"] emptied_disk.
Proof. apply all_synced_idle; [apply emptied_sound|apply emptied_sound|by vm_compute]. Qed.

Definition under_way (w : World) : list request := map (λ p, t_session p.2) (map_to_list (threads w)).

Lemma under_way_no_put w id l :
  under_way w = l → Forall (λ q, match q with ReqPut i _ => ChunkId.ToHexString i ≠ ChunkId.ToHexString id | _ => True end) l →
  ∀ i th data, threads w !! i = Some th → t_session th ≠ ReqPut id data.
Proof.
  intros <- Hall i th data Hi Hq. rewrite Forall_forall in Hall.
  assert (ReqPut id data ∈ under_way w) as Hin.
  { apply list_elem_of_In, in_map_iff. exists (i, th). split; [done|]. by apply list_elem_of_In, elem_of_map_to_list. }
  by apply Hall in Hin.
Qed.

Lemma concurrent_chunks_durable_witness :
  let d := disk durable_run.2 in
  under_way durable_run.2 = [ReqPut other_chunk other_data] ∧ size (worst_loss (os d)) < size (tree d) ∧
  view ["data"] emptied_disk !! ChunkId.ToHexString sample_chunk = None ∧
  view ["data"] (reboot (worst_loss (os d)) d) !! ChunkId.ToHexString sample_chunk = Some sample_data.
Proof.
  intros d. assert (under_way durable_run.2 = [ReqPut other_chunk other_data]) as Hw by (by vm_compute).
  split; [exact Hw|]. split; [by eapply Nat.ltb_lt; vm_compute|]. split; [by vm_compute|].
  apply (@concurrent_chunks_durable _ _ _ _ _ ["data"] emptied_disk durable_run.1.1 durable_run.1.2 durable_run.2 (worst_loss (os d)) sample_chunk
    sample_data toy_fair).
  - by intros n' c msg _.
  - exact emptied_idle.
  - exact sample_chunk_valid.
  - exact emptied_tidy.
  - exact durable_run_runs.
  - apply worst_loss_is_loss.
  - apply (under_way_no_put _ _ _ Hw). repeat constructor. by vm_compute.
  - by vm_compute.
Defined.

End Examples.
