(* ===== verification/Grounded.v ===== *)
(** * Trees in which every entry has its directory

    In a file system the directory that holds an entry is there. The model of
    [Posix] does not build that in; here it is an invariant of every system
    call, and so of every operation of the store among threads. *)

From S2P Require Import Prelude Result Cxx Sha256 ChunkId Logger IChunkStore Posix LocalDisk DiskRules DiskLayout DiskEffects DiskTheorems DiskContract DiskSafety DiskDurability Programs Threads ThreadTheorems.
Import LocalDisk.

Definition grounded (f : Fs) : Prop :=
  ∀ q, q ∈ dirs f ∨ is_Some (files f !! q) → parent q = [] ∨ parent q ∈ dirs f.

(** What is above an entry is a directory. *)
Lemma grounded_above f p k :
  grounded f → p ≠ [] → p ++ k ∈ dirs f ∨ is_Some (files f !! (p ++ k)) → k = [] ∨ p ∈ dirs f.
Proof.
  intros Hg Hne. induction k as [|x k IH] using rev_ind; [by left|]. rewrite app_assoc. intros Hin.
  apply Hg in Hin. rewrite parent_snoc in Hin. right.
  destruct Hin as [Hn|Hin]; [by apply app_eq_nil in Hn as [-> _]|].
  destruct IH as [->|?]; [by left|by rewrite app_nil_r in Hin|done].
Qed.

Definition groundedb (f : Fs) : bool :=
  forallb (λ q, bool_decide (parent q = [] ∨ parent q ∈ dirs f)) (elements (dirs f) ++ (map_to_list (files f)).*1).

Lemma groundedb_true f : groundedb f = true → grounded f.
Proof.
  intros Hall q Hq. unfold groundedb in Hall. rewrite forallb_forall in Hall.
  apply (bool_decide_eq_true_1 (parent q = [] ∨ parent q ∈ dirs f)), Hall, list_elem_of_In, elem_of_app.
  destruct Hq as [?|[x Hx]]; [left; by apply elem_of_elements|right]. apply list_elem_of_fmap. exists (q, x).
  split; [done|by apply elem_of_map_to_list].
Qed.

(** ** System calls *)

Definition grounds {A} (m : M Disk A) : Prop := ∀ s, grounded (fs (os s)) → grounded (fs (os (m s).2)).

Lemma inert_grounds {A} (m : M Disk A) : inert m → grounds m.
Proof. intros Hm s Hs. by destruct (Hm s) as [-> _]. Qed.

(** Adding or changing a file in a directory, or taking one away. *)
Lemma grounded_files f g :
  grounded f → (∀ q, is_Some (g (files f) !! q) → is_Some (files f !! q) ∨ q ∈ dirs f ∨ parent q ∈ dirs f) →
  grounded (with_files g f).
Proof.
  intros Hf Hg q [Hq|Hq]; cbn in *; [by apply Hf; left|]. destruct (Hg q Hq) as [?|[?|?]]; [by apply Hf; right|by apply Hf; left|by right].
Qed.

Section Grounds.
Context `{Platform}.

Lemma grounds_syscall {A} c (f : SysEvent → M Os A) :
  (∀ e o, grounded (fs o) → grounded (fs (f e o).2)) → grounds (sys (syscall c ≫= f)).
Proof.
  intros Hf s Hs. unfold sys, zoom, syscall, mbind, M_bind.
  destruct (sys_event (now (os s)) c) as [|msg|n|]; cbn; try done;
    match goal with |- context [f ?e ?o] => specialize (Hf e o Hs); destruct (f e o); done end.
Qed.

Lemma grounds_create_directories p : grounds (sys (fs_create_directories p)).
Proof.
  apply grounds_syscall.
  assert (∀ o, grounded (fs o) → grounded (MkFs (files (fs o)) (list_to_set (prefixes p) ∪ dirs (fs o)))) as Hg.
  { intros o Ho q. cbn. rewrite !elem_of_union, !elem_of_list_to_set, !elem_of_prefixes. intros [[[Hne [k ->]]|Hq]|Hq].
    - destruct q as [|x q _] using rev_ind; [done|]. rewrite parent_snoc. destruct (decide (q = [])) as [->|Hq]; [by left|].
      right. left. split; [done|]. exists (x :: k). by rewrite <- app_assoc.
    - destruct (Ho q (or_introl Hq)); tauto.
    - destruct (Ho q (or_intror Hq)); tauto. }
  intros e o Ho. destruct e; try done; unfold state; (destruct (existsb _ _); [done|by apply Hg]).
Qed.

Lemma grounds_open p flags : grounds (sys (internal_open p flags)).
Proof.
  apply grounds_syscall. intros e o Ho.
  assert (can_open (fs o) p flags = true → grounded (with_files (<[p:=File [] false]>) (fs o))) as Hg.
  { intros Hc. apply grounded_files; [done|]. intros q. destruct (decide (q = p)) as [->|Hne].
    - intros _. unfold can_open in Hc. repeat case_bool_decide; simplify_eq/=; tauto.
    - rewrite lookup_insert_ne by done. by left. }
  destruct e; try done; unfold state; (destruct (can_open _ _ _) eqn:E; [|done]); cbn;
    (destruct (_ || _); cbn; [by apply Hg|done]).
Qed.

Lemma grounds_write fd data : grounds (sys (sys_write fd data)).
Proof.
  apply grounds_syscall. intros e o Ho. destruct e; try done; unfold state;
    (destruct (fds o !! fd) as [p|]; [|done]); (destruct (files (fs o) !! p) as [x|] eqn:E; [|done]); cbn;
    apply grounded_files; try done; intros q; (destruct (decide (q = p)) as [->|Hne]; [rewrite E; by left; eexists|rewrite lookup_insert_ne by done; by left]).
Qed.

Lemma grounds_fsync fd : grounds (sys (internal_fsync fd)).
Proof.
  apply grounds_syscall. intros e o Ho. destruct e; try done; unfold state;
    (destruct (fds o !! fd) as [p|]; [|done]); (case_bool_decide; [done|]); cbn;
    apply grounded_files; try done; intros q; rewrite lookup_alter_is_Some; by left.
Qed.

Lemma grounds_rename p q : grounds (sys (fs_rename p q)).
Proof.
  apply grounds_syscall. intros e o Ho. destruct e; try done; unfold state;
    (destruct (files (fs o) !! p) as [x|]; [|done]); repeat (case_bool_decide; cbn; try done);
    apply grounded_files; try done; intros r; (destruct (decide (r = q)) as [->|Hne]; [by right; right|]);
    rewrite lookup_insert_ne by done; intros [y [_ Hy]%lookup_delete_Some]; left; by exists y.
Qed.

Lemma grounds_remove p : grounds (sys (fs_remove p)).
Proof.
  apply grounds_syscall. intros e o Ho.
  assert (has_children (fs o) p = false → grounded (MkFs (files (fs o)) (dirs (fs o) ∖ {[p]}))) as Hg.
  { intros Hc q Hq. cbn in Hq.
    assert (q ∈ dirs (fs o) ∨ is_Some (files (fs o) !! q)) as Hq' by set_solver.
    destruct (decide (parent q = [])) as [?|Hne]; [by left|]. destruct (Ho q Hq') as [?|Hp]; [by left|right].
    cbn. apply elem_of_difference. split; [done|].
    intros Hpq%elem_of_singleton. unfold has_children in Hc. apply not_true_iff_false in Hc. apply Hc, existsb_exists.
    exists q. split.
    - apply list_elem_of_In, elem_of_app. destruct Hq' as [?|[x Hx]]; [right; by apply elem_of_elements|left].
      apply list_elem_of_fmap. exists (q, x). split; [done|by apply elem_of_map_to_list].
    - apply andb_true_iff. split; [apply bool_decide_eq_true; rewrite <- Hpq; apply prefix_take|].
      apply negb_true_iff, bool_decide_eq_false. intros ->. clear Hc Hp. destruct p as [|x p _] using rev_ind; [done|].
      rewrite parent_snoc in Hpq. apply (f_equal length) in Hpq. rewrite length_app in Hpq. cbn in Hpq. lia. }
  destruct e; try done; unfold state; (case_bool_decide; [destruct (has_children _ _) eqn:E; [done|by apply Hg]|]);
    (destruct (files (fs o) !! p) as [x|] eqn:E; [|done]); apply grounded_files; try done;
    intros q [y [_ Hy]%lookup_delete_Some]; left; by exists y.
Qed.

End Grounds.

(** Programs all of whose actions do so. *)
Fixpoint stays_grounded {A} (p : prog A) {struct p} : Prop :=
  match p with
  | Ret _ | Raise _ => True
  | Act m k h => grounds m ∧ (∀ b, stays_grounded (k b)) ∧ (∀ e, stays_grounded (h e))
  | Lock z k h => stays_grounded k ∧ (∀ e, stays_grounded (h e))
  | Await k => stays_grounded k
  end.

Lemma grounded_bind {A B} (p : prog A) (f : A → prog B) :
  stays_grounded p → (∀ a, stays_grounded (f a)) → stays_grounded (p ≫= f).
Proof.
  intros Hp Hf. unfold mbind, prog_bind. induction p as [a|e|B' m k IHk h IHh|z k IHk h IHh|k IHk]; cbn in *.
  - apply Hf.
  - done.
  - destruct Hp as (Hm & Hk & Hh). split_and!; auto.
  - destruct Hp as [Hk Hh]. split; auto.
  - auto.
Qed.

Lemma grounded_protect {A} (fin : prog unit) (p : prog A) :
  stays_grounded fin → stays_grounded p → stays_grounded (protect fin p).
Proof.
  intros Hfin Hp. induction p as [a|e|B' m k IHk h IHh|z k IHk h IHh|k IHk]; cbn in *.
  - by apply (grounded_bind fin (λ _, Ret a)).
  - by apply (grounded_bind fin (λ _, @Raise A e)).
  - destruct Hp as (Hm & Hk & Hh). split_and!; auto.
  - destruct Hp as [Hk Hh]. split; auto.
  - auto.
Qed.

Lemma grounded_act {A} (m : M Disk A) : grounds m → stays_grounded (act m).
Proof. done. Qed.

Lemma grounded_guard {A} z (p : prog A) : stays_grounded p → stays_grounded (Threaded.lock_guard z p).
Proof. intros Hp. split; [|done]. apply grounded_protect; [|done]. apply grounded_act. by intros s Hs. Qed.

Section More.
Context `{Platform, UuidSource}.

Lemma grounds_uuid : grounds GenerateUuidV4.
Proof. apply inert_grounds, inert_runtime. Qed.

Lemma grounds_destroy (o : ScopedFd) : grounds (sys (ScopedFd_destroy o)).
Proof. destruct o; [apply inert_grounds, inert_close|by intros s Hs]. Qed.

End More.

Create HintDb grounds.
#[export] Hint Resolve grounds_create_directories grounds_open grounds_write grounds_fsync grounds_rename grounds_remove
  inert_exists inert_file_size inert_space inert_read inert_close inert_ret inert_lift inert_gets inert_runtime grounds_uuid grounds_destroy : grounds.
#[export] Hint Extern 2 (grounds _) => (apply inert_grounds; solve [eauto with grounds nocore]) : grounds.

Ltac grounds :=
  repeat lazymatch goal with
  | |- stays_grounded (act _) => apply grounded_act
  | |- stays_grounded (Threaded.lock_guard _ _) => apply grounded_guard
  | |- stays_grounded (protect _ _) => apply grounded_protect
  | |- stays_grounded (mbind _ _) => apply grounded_bind; [|intros ?]
  | |- stays_grounded (mret _) => exact I
  | |- stays_grounded (match ?x with _ => _ end) => destruct x
  | |- grounds (match ?x with _ => _ end) => destruct x
  end; solve [eauto with grounds nocore|intros ? Hgr; exact Hgr].

Section Store.
Context `{Evp, Platform, UuidSource}.
Variable root : path.

Lemma Put_grounded id data : stays_grounded (Threaded.Put root id data).
Proof. unfold Threaded.Put, Threaded.Put_new, Threaded.Put_file, Threaded.Put_publish, Threaded.Exists. grounds. Qed.

Lemma Get_grounded id : stays_grounded (Threaded.Get root id).
Proof. unfold Threaded.Get, Threaded.Get_read. grounds. Qed.

Lemma VerifyOnly_grounded id : stays_grounded (Threaded.VerifyOnly root id).
Proof. unfold Threaded.VerifyOnly, Threaded.Get, Threaded.Get_read. grounds. Qed.

Lemma Delete_grounded id : stays_grounded (Threaded.Delete root id).
Proof. unfold Threaded.Delete. grounds. Qed.

Lemma Exists_grounded id : stays_grounded (Threaded.Exists root id).
Proof. unfold Threaded.Exists. grounds. Qed.

Lemma GetStats_grounded : stays_grounded (Threaded.GetStats root).
Proof. unfold Threaded.GetStats. grounds. Qed.

Lemma program_grounded q : stays_grounded (program root q).
Proof.
  destruct q; (apply grounded_bind; [|by intros]);
    auto using Put_grounded, Get_grounded, VerifyOnly_grounded, Delete_grounded, Exists_grounded, GetStats_grounded.
Qed.

End Store.
