(* ===== verification/Listing.v ===== *)
(** * Listing the chunks while others put and delete

    [ListAllChunkIds] takes no lock: it walks the data directory entry by
    entry with [std::filesystem::recursive_directory_iterator], and the
    threads of the pool act between any two entries. So it shows no state the
    store ever had. What it does promise is proved here: a chunk that is there
    all the time is listed exactly once, and whatever is listed was there at
    some time.

    What a directory stream returns while the directory changes is what POSIX
    says of [readdir]: an entry that is there from the opening of the stream
    to its end is returned once; an entry added or removed in between may be
    returned or not. *)

From S2P Require Import Prelude Result Cxx Sha256 ChunkId Logger IChunkStore Posix LocalDisk DiskRules DiskLayout DiskEffects DiskTheorems DiskContract DiskSafety DiskDurability DiskCounters Programs Threads ThreadRules ThreadOps ThreadCoupling ThreadTheorems Grounded.
Import LocalDisk.

(** ** Directory streams *)

(** An entry of a directory, and whether it is a directory itself. *)
Definition entry : Type := path * bool.

Definition entries (f : Fs) (p : path) : gset entry :=
  set_map (λ q, (q, false)) (filter (λ q, parent q = p) (dom (files f))) ∪
  set_map (λ q, (q, true)) (filter (λ q, parent q = p) (dirs f)).

Lemma elem_of_entries f p q (k : bool) :
  (q, k) ∈ entries f p ↔ parent q = p ∧ if k then q ∈ dirs f else is_Some (files f !! q).
Proof.
  unfold entries. rewrite elem_of_union, !elem_of_map. setoid_rewrite elem_of_filter. setoid_rewrite elem_of_dom. split.
  - intros [(q' & [= -> ->] & ?)|(q' & [= -> ->] & ?)]; done.
  - intros [Hp Hk]. destruct k; [right|left]; by exists q.
Qed.

(** What was returned and is still there, what was there ever since the
    stream was opened, and what may be returned. *)
Record DirStream := MkStream { ds_path : path; given : gset entry; steady : gset entry; seen : gset entry }.

Definition open_stream (p : path) (f : Fs) : DirStream := MkStream p ∅ (entries f p) (entries f p).

(** The directory may have changed. An entry that was returned and is gone
    may be returned again when it comes back. *)
Definition watch (f : Fs) (d : DirStream) : DirStream :=
  let es := entries f (ds_path d) in
  MkStream (ds_path d) (given d ∩ es) (steady d ∩ es) ((seen d ∖ (given d ∖ es)) ∪ es).

Definition returned (e : entry) (d : DirStream) : DirStream :=
  MkStream (ds_path d) ({[e]} ∪ given d) (steady d) (seen d).

(** What [readdir] may return now: an entry, or the end. *)
Definition readdir_may (pick : option entry) (d : DirStream) : bool :=
  match pick with
  | Some e => bool_decide (e ∈ seen d ∧ e ∉ given d)
  | None => bool_decide (steady d ⊆ given d)
  end.

Section Streams.
Context `{Platform}.

Definition fs_opendir (p : path) : M Os (ec DirStream) :=
  e ← syscall SysIterate;
  match e with
  | EvFail msg => mret (inr msg)
  | _ => gets (λ o, if bool_decide (p ∈ dirs (fs o)) then inl (open_stream p (fs o)) else inr "No such file or directory")
  end.

Definition fs_readdir (pick : option entry) (d : DirStream) : M Os (ec DirStream) :=
  e ← syscall SysIterate;
  match e with
  | EvFail msg => mret (inr msg)
  | _ => mret (inl (match pick with Some e => returned e d | None => d end))
  end.

End Streams.

(** ** The listing thread *)

(** Where the loop is: before the test for the directory; about to open a
    directory; reading the innermost of the open directories; done. *)
Inductive Lister :=
  | Begin
  | Enter (p : path) (open : list DirStream) (result : list ChunkId.t)
  | Read (open : list DirStream) (result : list ChunkId.t)
  | Returns (result : list ChunkId.t)
  | Raises (e : exn).

(** The body of the loop, for a regular file. *)
Definition list_file (p : path) (result : list ChunkId.t) : list ChunkId.t :=
  if is_chunk p then
    match ChunkId.Parse (stem (file_name p)) with
    | Ok id => result ++ [id]
    | Err _ => result
    end
  else result.

Section Lister.
Context `{Platform}.
Variable data_root_ : path.

(** The next action of [ListAllChunkIds], when the system picks [pick]. *)
Definition list_next (pick : option entry) (l : Lister) : option (M Disk Lister) :=
  match l with
  | Begin => Some (
      ex ← exists_or_throw data_root_;
      mret (if (ex : bool) then Enter data_root_ [] [] else Returns []))
  | Enter p ds result => Some (
      r ← sys (fs_opendir p);
      match r with
      | inl d => mret (Read (d :: ds) result)
      | inr msg => lift (Throws (filesystem_error msg))
      end)
  | Read [] result => Some (mret (Returns result))
  | Read (d :: ds) result =>
      if readdir_may pick d then Some (
        r ← sys (fs_readdir pick d);
        match r, pick with
        | inl d', Some (q, true) => mret (Enter q (d' :: ds) result)
        | inl d', Some (q, false) => mret (Read (d' :: ds) (list_file q result))
        | inl _, None => mret (Read ds result)
        | inr msg, _ => lift (Throws (filesystem_error msg))
        end)
      else None
  | Returns _ | Raises _ => None
  end.

End Lister.

Definition watch_all (f : Fs) (l : Lister) : Lister :=
  match l with
  | Enter p ds result => Enter p (watch f <$> ds) result
  | Read ds result => Read (watch f <$> ds) result
  | _ => l
  end.

(** ** The listing beside a pool of threads *)

Section Beside.
Context `{C : Client, P : Platform}.
Variable root : path.

Record Pair := MkPair { pool : World; lister : Lister }.

Inductive list_step : Pair → Pair → Prop :=
  | list_does w pick l m o s' x :
      alive w = true → list_next root pick l = Some m → m (disk w) = (o, s') →
      x = match o with
          | Done l' => MkPair (MkWorld s' (threads w) true) l'
          | Throws e => MkPair (MkWorld s' (threads w) true) (Raises e)
          | _ => MkPair (MkWorld s' (threads w) false) l
          end →
      list_step (MkPair w l) x.

(** What a step leaves is a moment of the run. *)
Inductive pair_step : Pair → option Pair → Pair → Prop :=
  | pair_pool w e w' l x :
      step w e w' → x = MkPair w' (watch_all (fs (os (disk w'))) l) → pair_step (MkPair w l) (Some x) x
  | pair_list x x' : list_step x x' → pair_step x (Some x') x'.

End Beside.

(** ** The pool is not disturbed *)

Section Pool.
Context `{Evp, Platform, UuidSource, !EvpLaws, !UuidLaws, C : Client}.
Variable root : path.
Hypothesis Hfair : fair.
Hypothesis Hclient : SafeClient root.
Hypothesis Hgrounded : ∀ q, stays_grounded (code q).
Implicit Types s : Disk.

Lemma coupled_still start kept acked s s' ths G a :
  coupled root start kept acked s ths G a → still s s' → coupled root start kept acked s' ths G a.
Proof.
  intros Hc Hst. pose proof (still_inv root s s' Hst (c_inv _ _ _ _ _ _ _ _ Hc)) as Hinv.
  destruct Hst as (Hf & Hfds & Hn & Hcc & Hbb & Hu). destruct Hc as [_ Hth Hheld Hown Hnext Hopen Hcount Hbytes Hview Hsynced Hloose Hmarks Hstripe Hspares Hsealed].
  split; try done.
  - intros i. specialize (Hth i). destruct (ths !! i) as [th|]; [|done]. destruct (G !! i) as [[g c]|]; [|done].
    destruct Hth as [Hs Hp]. split; [|done].
    eapply safe_interf; [intros; by eapply finished_interf|exact Hs|].
    split; [by apply inv_load|done|by unfold dirset; cbn; rewrite Hf|intros p _; unfold tree; cbn; by rewrite Hf|intros n _; cbn; by rewrite Hfds].
  - by rewrite Hn.
  - by rewrite Hfds.
  - unfold drift_count, file_count, tree. rewrite Hf, Hcc. exact Hcount.
  - unfold drift_bytes, byte_count, tree. rewrite Hf, Hbb. exact Hbytes.
  - rewrite Hview. unfold view. by rewrite Hf.
  - unfold dirset. rewrite Hf, Hu. exact Hsynced.
  - intros Hsync p. unfold loose, tree. rewrite Hf, Hu. apply (Hloose Hsync p).
  - intros o id Hv Hk Ha. destruct (Hsealed o id Hv Hk Ha) as [Hx Hno]. split; [unfold tree; by rewrite Hf|done].
Qed.

(** A step of the pool only adds directories. *)
Lemma step_dirs start w l w' a :
  step w l w' → plainly_related root start w a → dirset (disk w) ⊆ dirset (disk w').
Proof.
  intros Hs Hrel. destruct Hs as [i q cid s ths Hi Hv|i th B m k h b s s' ths Hi Hc Hm|i th B m k h e s s' ths Hi Hc Hm
    |i th B m k h s s' ths Hi Hc Hm|i th z k h s s' ths Hi Hc Hfree Hl|i th z k h e s s' ths Hi Hc Hl|i th k s ths Hi Hc|i th r s ths Hi Hc];
    destruct Hrel as [G HG]; cbn [disk threads] in *; try done.
  1-3: destruct (coupled_thread _ _ _ _ _ _ _ _ _ _ HG Hi) as (g & c & _ & _ & Hsafe); rewrite Hc in Hsafe;
    pose proof (wp_run _ _ _ _ _ Hm (Hsafe _ (interf_refl root _ _ (inv_load root th s (c_inv _ _ _ _ _ _ _ _ HG))))) as Hpost; cbn in Hpost.
  - destruct Hpost as (g' & c' & Hg & _). exact (g_dirs _ _ _ _ _ Hg).
  - done.
  - destruct Hpost as [Hf _]. unfold dirset. by rewrite Hf.
  - apply lock_done in Hl as [-> _]. done.
  - unfold lock, state in Hl. pose proof (fair_lock Hfair). by repeat case_match.
Qed.

(** What holds of the pool at every moment. *)
Definition codes_grounded (w : World) : Prop := map_Forall (λ _ th, stays_grounded (t_code th)) (threads w).

Record well (start : Disk) (w : World) : Prop := {
  well_related : ∃ a, plainly_related root start w a;
  well_grounded : grounded (fs (os (disk w)));
  well_codes : codes_grounded w
}.

Lemma well_sound start w : well start w → sound root (disk w).
Proof. intros [[a Ha] _ _]. by eapply related_sound. Qed.

Lemma grounded_step w l w' :
  step w l w' → grounded (fs (os (disk w))) → codes_grounded w → grounded (fs (os (disk w'))) ∧ codes_grounded w'.
Proof.
  intros Hs Hg Hall. unfold codes_grounded in *.
  destruct Hs as [i q cid s ths Hi Hv|i th B m k h b s s' ths Hi Hc Hm|i th B m k h e s s' ths Hi Hc Hm
    |i th B m k h s s' ths Hi Hc Hm|i th z k h s s' ths Hi Hc Hfree Hl|i th z k h e s s' ths Hi Hc Hl|i th k s ths Hi Hc|i th r s ths Hi Hc];
    cbn [disk threads] in *; try (pose proof (Hall i th Hi) as Hth; cbn in Hth; rewrite Hc in Hth; cbn in Hth).
  - split; [done|]. by apply map_Forall_insert_2; [apply Hgrounded|].
  - destruct Hth as (Hm' & Hk & _). specialize (Hm' (load th s) Hg). rewrite Hm in Hm'. split; [done|]. apply map_Forall_insert_2; [apply Hk|done].
  - destruct Hth as (Hm' & _ & Hh). specialize (Hm' (load th s) Hg). rewrite Hm in Hm'. split; [done|]. apply map_Forall_insert_2; [apply Hh|done].
  - destruct Hth as (Hm' & _). specialize (Hm' (load th s) Hg). rewrite Hm in Hm'. done.
  - apply lock_done in Hl as [-> _]. destruct Hth as [Hk _]. split; [done|]. by apply map_Forall_insert_2.
  - unfold lock, state in Hl. pose proof (fair_lock Hfair). by repeat case_match.
  - split; [done|]. by apply map_Forall_insert_2.
  - split; [done|]. by apply map_Forall_delete.
Qed.

Lemma well_step start w l w' : step w l w' → well start w → well start w' ∧ dirset (disk w) ⊆ dirset (disk w').
Proof.
  intros Hs [[a Ha] Hg Hall]. split; [|by eapply step_dirs].
  destruct (grounded_step w l w' Hs Hg Hall) as [Hg' Hall'].
  destruct (step_plainly_related root Hfair Hclient start w l w' a Hs Ha) as (n & a' & _ & Ha'). split; [by exists a'|done..].
Qed.

Lemma well_still start w s' b : alive w = true → still (disk w) s' → well start w → well start (MkWorld s' (threads w) b).
Proof.
  intros Hal Hst [[a Ha] Hg Hall]. pose proof Hst as (Hf & _). split; [|cbn; by rewrite Hf|exact Hall].
  exists a. unfold plainly_related, related in Ha. rewrite Hal in Ha. destruct Ha as [G HG].
  pose proof (coupled_still _ _ _ _ _ _ _ _ HG Hst) as HG'. unfold plainly_related, related. cbn. destruct b; [by exists G|].
  split; [apply (inv_sound _ _ (c_inv _ _ _ _ _ _ _ _ HG'))|]. split; [apply (c_view _ _ _ _ _ _ _ _ HG')|].
  by eapply coupled_accounted.
Qed.

Lemma well_start start : idle root start → grounded (fs (os start)) → well start (MkWorld start ∅ true).
Proof.
  intros Hi Hg. split; [eexists; by apply idle_plainly_related|done|apply map_Forall_empty].
Qed.

End Pool.

(** ** The actions of the listing *)

Section Actions.
Context `{Platform}.
Variable root : path.
Implicit Types s : Disk.

(** What the next action may come to on a tree. *)
Definition list_post (pick : option entry) (f : Fs) (l : Lister) (o : outcome Lister) : Prop :=
  match o with
  | Done l' =>
      match l with
      | Begin => l' = if path_exists f root then Enter root [] [] else Returns []
      | Enter p ds result => p ∈ dirs f ∧ l' = Read (open_stream p f :: ds) result
      | Read [] result => l' = Returns result
      | Read (d :: ds) result => readdir_may pick d = true ∧
          l' = match pick with
               | None => Read ds result
               | Some (q, true) => Enter q (returned (q, true) d :: ds) result
               | Some (q, false) => Read (returned (q, false) d :: ds) (list_file q result)
               end
      | _ => False
      end
  | Throws _ => io_fault ∨ ∃ p ds result, l = Enter p ds result ∧ p ∉ dirs f
  | Blocks => False
  | Crashed => True
  end.

Lemma list_next_post pick l m s o s' :
  list_next root pick l = Some m → m s = (o, s') → still s s' ∧ list_post pick (fs (os s)) l o.
Proof.
  assert (∀ n c msg, sys_event n c = EvFail msg → io_fault) as Hfault by (intros n c msg E; exists n, c; by rewrite E).
  intros E E'. destruct l as [|p ds result|[|d ds] result|result|e]; cbn in E; try done.
  - injection E as <-. revert E'. unfold exists_or_throw, sys, zoom, fs_exists, syscall, gets, lift, mbind, M_bind, mret, M_ret.
    destruct (sys_event (now (os s)) SysExists) eqn:Hev; cbn; intros [= <- <-]; (split; [done|]); cbn; try done; left; by eapply Hfault.
  - injection E as <-. revert E'. unfold sys, zoom, fs_opendir, syscall, gets, lift, mbind, M_bind, mret, M_ret.
    destruct (sys_event (now (os s)) SysIterate) eqn:Hev; cbn; try (case_bool_decide; cbn); intros [= <- <-]; (split; [done|]); cbn; try done;
      first [left; by eapply Hfault|right; by exists p, ds, result].
  - injection E as <-. injection E' as <- <-. done.
  - destruct (readdir_may pick d) eqn:Hmay; [|done]. injection E as <-. revert E'.
    unfold sys, zoom, fs_readdir, syscall, gets, lift, mbind, M_bind, mret, M_ret.
    destruct (sys_event (now (os s)) SysIterate) eqn:Hev; cbn; destruct pick as [[q []]|]; cbn; intros [= <- <-]; (split; [done|]); cbn; try done;
      left; by eapply Hfault.
Qed.

End Actions.

(** ** What has been there *)

Section Seen.
Context `{Evp, Platform, UuidSource, !EvpLaws, !UuidLaws, C : Client}.
Variable root : path.
Hypothesis Hfair : fair.
Hypothesis Hclient : SafeClient root.
Hypothesis Hgrounded : ∀ q, stays_grounded (code q).
Variable start : Disk.
Implicit Types s : Disk.

Abbreviation at_pair x := (disk (pool x)).

Definition there (id : ChunkId.t) (x : Pair) : Prop := is_Some (tree (at_pair x) !! final_of root id).

Definition has_been (past : list Pair) (q : path) : Prop := ∃ y, y ∈ past ∧ is_Some (tree (at_pair y) !! q).

Record stream_ok (past : list Pair) (f : Fs) (d : DirStream) : Prop := {
  so_root : root `prefix_of` ds_path d;
  so_seen q k : (q, k) ∈ seen d → q ≠ [] ∧ parent q = ds_path d ∧ if (k : bool) then q ∈ dirs f else has_been past q;
  so_steady : steady d ⊆ seen d
}.

Definition listed_ok (past : list Pair) (result : list ChunkId.t) : Prop :=
  ∀ id, id ∈ result → ChunkId.valid id ∧ ∃ y, y ∈ past ∧ there id y.

Definition lister_ok (past : list Pair) (f : Fs) (l : Lister) : Prop :=
  match l with
  | Begin => True
  | Enter p ds result => root `prefix_of` p ∧ p ∈ dirs f ∧ Forall (stream_ok past f) ds ∧ listed_ok past result
  | Read ds result => Forall (stream_ok past f) ds ∧ listed_ok past result
  | Returns result => listed_ok past result
  | Raises _ => io_fault
  end.

Record moment_ok (past : list Pair) (x : Pair) : Prop := {
  mo_now : x ∈ past;
  mo_past y : y ∈ past → sound root (at_pair y);
  mo_well : well root start (pool x);
  mo_lister : lister_ok past (fs (os (at_pair x))) (lister x)
}.

Lemma stream_ok_later past past' f f' d :
  past ⊆ past' → dirs f ⊆ dirs f' → stream_ok past f d → stream_ok past' f' d.
Proof.
  intros Hpast Hd [Hr Hs Hst]. split; [done| |done]. intros q k Hin. destruct (Hs q k Hin) as (Hq & Hp & Hk). split; [done|]. split; [done|].
  destruct k; [by apply Hd|]. destruct Hk as (y & Hy & Hx). exists y. split; [by apply Hpast|done].
Qed.

(** The entries of a directory below the root, at a moment. *)
Lemma entries_ok past x p :
  x ∈ past → root ≠ [] → root `prefix_of` p → ∀ q k, (q, k) ∈ entries (fs (os (at_pair x))) p →
  q ≠ [] ∧ parent q = p ∧ if (k : bool) then q ∈ dirs (fs (os (at_pair x))) else has_been past q.
Proof.
  intros Hx Hne Hr q k [Hp Hk]%elem_of_entries. split; [|split; [done|]].
  - intros ->. subst p. cbn in Hr. by apply prefix_nil_inv in Hr.
  - destruct k; [done|]. by exists x.
Qed.

Lemma stream_ok_open past x p :
  x ∈ past → root ≠ [] → root `prefix_of` p → stream_ok past (fs (os (at_pair x))) (open_stream p (fs (os (at_pair x)))).
Proof. intros Hx Hne Hr. split; [done| |done]. by apply entries_ok. Qed.

Lemma stream_ok_watch past x d :
  x ∈ past → root ≠ [] → stream_ok past (fs (os (at_pair x))) d →
  stream_ok past (fs (os (at_pair x))) (watch (fs (os (at_pair x))) d).
Proof.
  intros Hx Hne [Hr Hs Hst]. split; [done| |].
  - intros q k [[Hin _]%elem_of_difference|Hin]%elem_of_union; [by apply Hs|by apply entries_ok].
  - cbn. set_solver.
Qed.

Lemma stream_ok_returned past f e d : stream_ok past f d → stream_ok past f (returned e d).
Proof. by intros [Hr Hs Hst]. Qed.

Lemma listed_ok_later past past' result : past ⊆ past' → listed_ok past result → listed_ok past' result.
Proof. intros Hp Hl id Hid. destruct (Hl id Hid) as (Hv & y & Hy & Hx). split; [done|]. exists y. split; [by apply Hp|done]. Qed.

Lemma lister_ok_watch past past' x l f :
  past ⊆ past' → x ∈ past' → root ≠ [] → dirs f ⊆ dirs (fs (os (at_pair x))) → lister_ok past f l →
  lister_ok past' (fs (os (at_pair x))) (watch_all (fs (os (at_pair x))) l).
Proof.
  intros Hp Hx Hne Hd.
  assert (∀ ds, Forall (stream_ok past f) ds → Forall (stream_ok past' (fs (os (at_pair x)))) (watch (fs (os (at_pair x))) <$> ds)) as Hds.
  { intros ds Hall. apply Forall_fmap. eapply Forall_impl; [exact Hall|]. intros d Hok. cbn. apply stream_ok_watch; [done|done|].
    by eapply stream_ok_later. }
  destruct l as [|p ds result|ds result|result|e]; cbn; try done.
  - intros (Hr & Hin & Hall & Hl). split; [done|]. split; [by apply Hd|]. split; [by apply Hds|by eapply listed_ok_later].
  - intros (Hall & Hl). split; [by apply Hds|by eapply listed_ok_later].
  - by apply listed_ok_later.
Qed.

(** A file that has been below the root is a chunk if the loop takes it for
    one. *)
Lemma list_file_cases past q result :
  (∀ y, y ∈ past → sound root (at_pair y)) → root `prefix_of` q → has_been past q →
  list_file q result = result ∨
  ∃ id, ChunkId.valid id ∧ q = final_of root id ∧ list_file q result = result ++ [id] ∧ ∃ y, y ∈ past ∧ there id y.
Proof.
  intros Hso Hr (y & Hy & [x Hx]). unfold list_file. destruct (is_chunk q) eqn:Hc; [|by left].
  destruct (sound_placed _ _ (Hso y Hy) q x) as (id & Hv & ->); [done|done|]. right. exists id.
  split; [done|]. split; [done|]. pose proof (list_entry_final root id x Hv) as Hl. unfold list_entry in Hl. cbn in Hl. rewrite Hc in Hl.
  destruct (ChunkId.Parse _) as [id'|]; [|done]. injection Hl as ->. split; [done|]. exists y. split; [done|by exists x].
Qed.

(** Every action of the listing keeps what is known of it. *)
Lemma lister_ok_next past past' f pick l l' :
  past ⊆ past' → (∀ y, y ∈ past → sound root (at_pair y)) → root ≠ [] → root ∈ dirs f →
  (∃ x, x ∈ past' ∧ fs (os (at_pair x)) = f) →
  lister_ok past f l → list_post root pick f l (Done l') → lister_ok past' f l'.
Proof.
  intros Hp Hso Hne Hroot (x & Hx & Hf).
  assert (∀ d, stream_ok past f d → stream_ok past' f d) as Hlater by (intros d; by apply stream_ok_later).
  assert (∀ ds, Forall (stream_ok past f) ds → Forall (stream_ok past' f) ds) as Hlaters by (intros ds Hds; by eapply Forall_impl).
  destruct l as [|p ds result|[|d ds] result|result|e]; cbn; try done.
  - intros _ ->. destruct (path_exists f root); [|by intros ? ?%elem_of_nil]. cbn. split_and!; [done|done|constructor|by intros ? ?%elem_of_nil].
  - intros (Hr & Hin & Hall & Hl) [_ ->]. cbn. split; [|by eapply listed_ok_later].
    apply Forall_cons_2; [subst f; by apply stream_ok_open|by apply Hlaters].
  - intros (_ & Hl) ->. by eapply listed_ok_later.
  - intros ([Hd Hall]%Forall_cons & Hl) [Hmay ->]. apply Hlaters in Hall. pose proof (listed_ok_later past past' result Hp Hl) as Hl'.
    destruct pick as [[q []]|]; cbn in Hmay |- *; [| |done].
    + apply bool_decide_eq_true in Hmay as [Hin _]. destruct (so_seen _ _ _ Hd q true Hin) as (Hq & Hpq & Hk).
      split; [etrans; [exact (so_root _ _ _ Hd)|rewrite <- Hpq; apply prefix_take]|].
      split; [done|]. split; [|done]. apply Forall_cons_2; [by apply stream_ok_returned, Hlater|done].
    + apply bool_decide_eq_true in Hmay as [Hin _]. destruct (so_seen _ _ _ Hd q false Hin) as (Hq & Hpq & Hk).
      split; [apply Forall_cons_2; [by apply stream_ok_returned, Hlater|done]|].
      assert (root `prefix_of` q) as Hr by (etrans; [exact (so_root _ _ _ Hd)|rewrite <- Hpq; apply prefix_take]).
      destruct (list_file_cases past q result Hso Hr Hk) as [->|(id & Hv & _ & -> & y & Hy & Ht)]; [done|].
      intros i [Hi|Hi%list_elem_of_singleton]%elem_of_app; [by apply Hl'|subst i]. split; [done|]. exists y. split; [by apply Hp|done].
Qed.

Lemma moment_ok_step past x l x' : pair_step root x l x' → moment_ok past x → moment_ok (past ++ [x']) x'.
Proof.
  intros Hs [Hnow Hpast Hwell Hlist].
  assert (past ⊆ past ++ [x']) as Hsub by (intros y Hy; apply elem_of_app; by left).
  assert (x' ∈ past ++ [x']) as Hin by (apply elem_of_app; right; by left).
  pose proof (sound_layout _ _ (well_sound root start _ Hwell)) as Hlay. pose proof (layout_nonempty _ _ Hlay) as Hne.
  assert (root ∈ dirset (at_pair x)) as Hroot by (by apply sound_root, (well_sound root start)).
  assert (well root start (pool x') → lister_ok (past ++ [x']) (fs (os (at_pair x'))) (lister x') → moment_ok (past ++ [x']) x') as Hdone.
  { intros Hw Hl. split; [done| |done|done]. intros y [Hy|Hy%list_elem_of_singleton]%elem_of_app; [by apply Hpast|subst y; by apply (well_sound root start)]. }
  destruct Hs as [w e w' l x' Hs Hx'|x x' Hs]; [|destruct Hs as [w pick l m o s' x' Hal Hnext Hm Hx']]; cbn [pool lister] in *.
  - destruct (well_step root Hfair Hclient Hgrounded start w e w' Hs Hwell) as [Hw Hd].
    assert (lister x' = watch_all (fs (os (at_pair x'))) l) as El by (by subst x').
    apply Hdone; [by subst x'|]. rewrite El. apply (lister_ok_watch past _ _ _ (fs (os (disk w)))); try done. by subst x'.
  - destruct (list_next_post root pick l m (disk w) o s' Hnext Hm) as [Hst Hpost].
    assert (fs (os s') = fs (os (disk w))) as Hf by apply Hst.
    assert (∀ b, well root start (MkWorld s' (threads w) b)) as Hw by (intros b; by apply well_still).
    destruct o as [l'|e| |]; [| |done|].
    + apply Hdone; [subst x'; apply Hw|]. subst x'. cbn [pool lister disk]. rewrite Hf.
      eapply (lister_ok_next past); [done|done|done|done|by eexists; split; [exact Hin|]|exact Hlist|exact Hpost].
    + apply Hdone; [subst x'; apply Hw|]. subst x'. cbn.
      destruct Hpost as [?|(p & ds & result & -> & Hno)]; [done|]. by destruct Hlist as (_ & Hp & _).
    + apply Hdone; [subst x'; apply Hw|]. subst x'. cbn [pool lister disk]. rewrite Hf.
      destruct l as [|p ds result|ds result|result|e]; cbn in Hlist |- *; try done.
      * destruct Hlist as (Hr & Hp & Hall & Hl). split; [done|]. split; [done|].
        split; [by eapply Forall_impl; [exact Hall|]; intros d; apply stream_ok_later|by eapply listed_ok_later].
      * destruct Hlist as (Hall & Hl). split; [by eapply Forall_impl; [exact Hall|]; intros d; apply stream_ok_later|by eapply listed_ok_later].
Qed.

End Seen.

(** ** A chunk that is there all the time *)

Section Once.
Context `{Evp, Platform, UuidSource, !EvpLaws, !UuidLaws, C : Client}.
Variable root : path.
Variable id : ChunkId.t.
Hypothesis Hid : ChunkId.valid id.

Abbreviation final := (final_of root id).

(** The entry of the directory [p] on the way to the chunk. *)
Definition next_of (p : path) : entry :=
  let q := take (S (length p)) final in (q, bool_decide (q ≠ final)).

Definition on_the_way (p : path) : Prop := p `prefix_of` final ∧ p ≠ final.

#[local] Instance on_the_way_dec p : Decision (on_the_way p).
Proof. unfold on_the_way. apply _. Defined.

(** How often the chunk has been listed, or will be for what is open. *)
Definition times (result : list ChunkId.t) : nat := length (filter (λ i, i = id) result).

Definition owes (d : DirStream) : nat := Nat.b2n (bool_decide (on_the_way (ds_path d) ∧ next_of (ds_path d) ∉ given d)).

Definition owed (l : Lister) : nat :=
  match l with
  | Begin | Raises _ => 1
  | Enter p ds result => Nat.b2n (bool_decide (on_the_way p)) + sum_list_with owes ds + times result
  | Read ds result => sum_list_with owes ds + times result
  | Returns result => times result
  end.

Definition kept_in (d : DirStream) : Prop := on_the_way (ds_path d) → next_of (ds_path d) ∈ steady d.

Definition opened (l : Lister) : list DirStream := match l with Enter _ ds _ | Read ds _ => ds | _ => [] end.

Definition on_time (l : Lister) : Prop := owed l = 1 ∧ Forall kept_in (opened l).

Lemma next_parent p : on_the_way p → parent (next_of p).1 = p.
Proof.
  intros [[k Hk] Hne]. unfold next_of. cbn [fst]. rewrite Hk. destruct k as [|x k]; [by rewrite app_nil_r in Hk|].
  assert (take (S (length p)) (p ++ x :: k) = p ++ [x]) as ->; [|by rewrite parent_snoc].
  rewrite take_app_ge by lia. by replace (S (length p) - length p)%nat with 1%nat by lia.
Qed.

(** An entry of a directory that leads to the chunk is the next one. *)
Lemma next_unique q : q ≠ [] → q `prefix_of` final → on_the_way (parent q) ∧ next_of (parent q) = (q, bool_decide (q ≠ final)).
Proof.
  destruct q as [|x q _] using rev_ind; [done|]. intros _ [k Hk]. rewrite parent_snoc.
  assert (take (S (length q)) final = q ++ [x]) as E.
  { rewrite Hk, <- app_assoc, take_app_ge by lia. by replace (S (length q) - length q)%nat with 1%nat by lia. }
  split; [|unfold next_of; by rewrite E]. split; [exists (x :: k); by rewrite Hk, <- app_assoc|].
  intros Heq. rewrite Hk in Heq. apply (f_equal length) in Heq. rewrite !length_app in Heq. cbn in Heq. lia.
Qed.

(** It is there. *)
Lemma next_there f p :
  grounded f → is_Some (files f !! final) → on_the_way p → next_of p ∈ entries f p.
Proof.
  intros Hg Hx Hp. pose proof (next_parent p Hp) as Hpar. unfold next_of in *. cbn [fst] in Hpar. apply elem_of_entries. split; [done|].
  case_bool_decide as Hne; [|by rewrite Hne].
  assert (take (S (length p)) final ≠ []) as Hnil.
  { intros E. apply (f_equal length) in E. rewrite length_take in E. change (length (@nil string)) with 0%nat in E. destruct Hp as [Hp Hpf].
    assert (length final = 0)%nat as E0 by lia. apply nil_length_inv in E0. rewrite E0 in Hp, Hpf. by apply prefix_nil_inv in Hp. }
  destruct (grounded_above f _ (drop (S (length p)) final) Hg Hnil) as [E|?]; [right; by rewrite take_drop| |done].
  destruct Hne. rewrite <- (take_drop (S (length p)) final) at 2. by rewrite E, app_nil_r.
Qed.

Lemma list_file_final result : list_file final result = result ++ [id].
Proof.
  pose proof (list_entry_final root id (File [] true) Hid) as Hl. unfold list_entry in Hl. cbn in Hl. unfold list_file.
  destruct (is_chunk _); [|done]. destruct (ChunkId.Parse _) as [id'|]; [|done]. by injection Hl as ->.
Qed.

Lemma times_snoc result i : times (result ++ [i]) = times result + Nat.b2n (bool_decide (i = id)).
Proof. unfold times. rewrite filter_app, length_app. f_equal. rewrite filter_cons, filter_nil. by repeat case_decide; repeat case_bool_decide. Qed.

(** The others change the directory. *)
Lemma owes_watch f d :
  grounded f → is_Some (files f !! final) → kept_in d → owes (watch f d) = owes d ∧ kept_in (watch f d).
Proof.
  intros Hg Hx Hk. split.
  - unfold owes. cbn. f_equal. apply bool_decide_ext. split; intros [Hp Hn]; (split; [done|]);
      pose proof (next_there f _ Hg Hx Hp); set_solver.
  - intros Hp. cbn in *. pose proof (next_there f _ Hg Hx Hp). specialize (Hk Hp). set_solver.
Qed.

Lemma on_time_watch f l : grounded f → is_Some (files f !! final) → on_time l → on_time (watch_all f l).
Proof.
  intros Hg Hx [Ho Hk].
  assert (∀ ds, Forall kept_in ds → sum_list_with owes (watch f <$> ds) = sum_list_with owes ds ∧ Forall kept_in (watch f <$> ds)) as Hds.
  { induction 1 as [|d ds Hd Hds [IH IH']]; [done|]. destruct (owes_watch f d Hg Hx Hd) as [E Hk']. cbn. rewrite E, IH. by split; [|constructor]. }
  destruct l as [|p ds result|ds result|result|e]; try done; destruct (Hds ds Hk) as [E Hk']; split; try done; cbn; by rewrite E.
Qed.

(** The loop takes an entry. *)
Lemma owes_directory past f d q :
  stream_ok root past f d → final ∉ dirs f → (q, true) ∈ seen d → (q, true) ∉ given d →
  owes d = (owes (returned (q, true) d) + Nat.b2n (bool_decide (on_the_way q)))%nat.
Proof.
  intros Hd Hfd Hin Hout. destruct (so_seen _ _ _ _ Hd q true Hin) as (Hq & Hpar & Hk). unfold owes. cbn.
  assert (q ≠ final) as Hne by (intros ->; done).
  destruct (decide (q `prefix_of` final)) as [Hpre|Hpre].
  - destruct (next_unique q Hq Hpre) as [Hw Hn]. rewrite Hpar in Hw, Hn. rewrite (bool_decide_eq_true_2 (q ≠ final)) in Hn by done.
    rewrite Hn, (bool_decide_eq_true_2 (_ ∧ (q, true) ∉ given d)) by done.
    rewrite bool_decide_eq_false_2 by set_solver. by rewrite bool_decide_eq_true_2.
  - rewrite (bool_decide_eq_false_2 (on_the_way q)) by (by intros [? _]). rewrite Nat.add_0_r. f_equal.
    apply bool_decide_ext. split; intros [Hw Hn]; (split; [done|]); [|set_solver]. rewrite elem_of_union, elem_of_singleton.
    intros [E|?]; [|done]. apply Hpre. unfold next_of in E. injection E as <- _. apply prefix_take.
Qed.

Lemma owes_file past f d q result :
  (∀ y, y ∈ past → sound root (disk (pool y))) → stream_ok root past f d → (q, false) ∈ seen d → (q, false) ∉ given d →
  (owes d + times result = owes (returned (q, false) d) + times (list_file q result))%nat.
Proof.
  intros Hso Hd Hin Hout. destruct (so_seen _ _ _ _ Hd q false Hin) as (Hq & Hpar & Hk).
  assert (root `prefix_of` q) as Hr by (etrans; [exact (so_root _ _ _ _ Hd)|rewrite <- Hpar; apply prefix_take]).
  destruct (decide (q = final)) as [->|Hne].
  - destruct (next_unique final Hq) as [Hw Hn]; [done|]. rewrite Hpar in Hw, Hn. rewrite bool_decide_eq_false_2 in Hn by tauto.
    rewrite list_file_final, times_snoc, (bool_decide_eq_true_2 (id = id)) by done. unfold owes. cbn.
    rewrite Hn, (bool_decide_eq_true_2 (_ ∧ (final, false) ∉ given d)) by done.
    rewrite bool_decide_eq_false_2 by set_solver. cbn. lia.
  - assert (times (list_file q result) = times result) as ->.
    { destruct (list_file_cases root past q result Hso Hr Hk) as [->|(i & Hv & -> & -> & _)]; [done|].
      rewrite times_snoc, bool_decide_eq_false_2; [cbn; lia|]. by intros ->. }
    f_equal. unfold owes. cbn. f_equal. apply bool_decide_ext. split; intros [Hw Hn]; (split; [done|]); [|set_solver].
    rewrite elem_of_union, elem_of_singleton. intros [E|?]; [|done]. unfold next_of in E. injection E as <- E.
    apply bool_decide_eq_false in E. tauto.
Qed.

Lemma on_time_next past f pick l l' :
  (∀ y, y ∈ past → sound root (disk (pool y))) → layout root f → grounded f → is_Some (files f !! final) →
  lister_ok root past f l → list_post root pick f l (Done l') → on_time l → on_time l'.
Proof.
  intros Hso Hlay Hg Hx Hok Hpost [Ho Hk]. assert (final ∉ dirs f) as Hfd by (by apply layout_final_dir).
  destruct l as [|p ds result|[|d ds] result|result|e]; cbn in Hpost, Hok, Ho, Hk; try done.
  - assert (path_exists f root = true) as Hroot.
    { unfold path_exists. apply orb_true_iff. right. apply bool_decide_eq_true. apply (layout_root _ _ Hlay).
      apply elem_of_prefixes. split; [by apply (layout_nonempty _ _ Hlay)|done]. }
    rewrite Hroot in Hpost. subst l'. split; [|constructor]. cbn. rewrite bool_decide_eq_true_2; [done|].
    split; [apply root_final|]. intros E. apply Hfd. rewrite <- E. apply (layout_root _ _ Hlay).
    apply elem_of_prefixes. split; [by apply (layout_nonempty _ _ Hlay)|done].
  - destruct Hpost as [Hp ->]. split; cbn.
    + rewrite <- Ho. unfold owes at 1. cbn. f_equal. f_equal. f_equal. apply bool_decide_ext. split; [by intros [? _]|].
      intros Hw. split; [done|set_solver].
    + constructor; [|done]. intros Hw. by apply next_there.
  - by subst l'.
  - destruct Hok as [[Hd Hall]%Forall_cons Hl]. apply Forall_cons in Hk as [Hkd Hk]. destruct Hpost as [Hmay ->].
    destruct pick as [[q []]|]; cbn in Hmay; apply bool_decide_eq_true in Hmay.
    + destruct Hmay as [Hin Hout]. split; [|constructor; [exact Hkd|exact Hk]].
      pose proof (owes_directory past f d q Hd Hfd Hin Hout). cbn. lia.
    + destruct Hmay as [Hin Hout]. split; [|constructor; [exact Hkd|exact Hk]].
      pose proof (owes_file past f d q result Hso Hd Hin Hout). cbn. lia.
    + split; [|exact Hk]. cbn. unfold owes at 1 in Ho. rewrite bool_decide_eq_false_2 in Ho; [cbn in Ho; lia|]. intros [Hw Hn]. apply Hn, Hmay, Hkd, Hw.
Qed.

Hypothesis Hfair : fair.
Hypothesis Hclient : SafeClient root.
Hypothesis Hgrounded : ∀ q, stays_grounded (code q).
Variable start : Disk.

Lemma on_time_step past x l x' :
  pair_step root x l x' → moment_ok root start past x → moment_ok root start (past ++ [x']) x' →
  there root id x → there root id x' → on_time (lister x) → on_time (lister x').
Proof.
  intros Hs Hmo Hmo' Hx Hx' Hot.
  destruct Hs as [w e w' l x' Hs Ex|x x' Hs]; [|destruct Hs as [w pick l m o s' x' Hal Hnext Hm Ex]]; cbn [pool lister] in *.
  - assert (lister x' = watch_all (fs (os (disk (pool x')))) l) as -> by (by subst x').
    apply on_time_watch; [apply (well_grounded _ _ _ (mo_well _ _ _ _ Hmo'))|exact Hx'|exact Hot].
  - destruct (list_next_post root pick l m (disk w) o s' Hnext Hm) as [_ Hpost].
    destruct o as [l'|e| |]; subst x'; cbn; try done.
    eapply (on_time_next past (fs (os (disk w)))); [apply Hmo|apply sound_layout, (well_sound root start w), Hmo
      |apply (well_grounded _ _ _ (mo_well _ _ _ _ Hmo))|exact Hx|apply (mo_lister _ _ _ _ Hmo)|exact Hpost|exact Hot].
Qed.

End Once.

(** ** Runs *)

Section Runs.
Context `{Evp, Platform, UuidSource, !EvpLaws, !UuidLaws, C : Client}.
Variable root : path.
Hypothesis Hfair : fair.
Hypothesis Hclient : SafeClient root.
Hypothesis Hgrounded : ∀ q, stays_grounded (code q).
Variable start : Disk.

Lemma runs_moments n x0 tr x :
  runs (pair_step root) n x0 tr x → moment_ok root start [x0] x0 → moment_ok root start (x0 :: tr) x.
Proof.
  intros Hr Hst. induction Hr as [x0|n x0 tr x1 l x2 Hr IH Hs]; [done|].
  assert (l = Some x2) as -> by (by destruct Hs). change (moment_ok root start ((x0 :: tr) ++ [x2]) x2).
  by eapply moment_ok_step; [..|exact Hs|apply IH].
Qed.

Lemma runs_on_time id n x0 tr x :
  ChunkId.valid id → runs (pair_step root) n x0 tr x → moment_ok root start [x0] x0 → on_time root id (lister x0) →
  (∀ y, y ∈ x0 :: tr → there root id y) → on_time root id (lister x).
Proof.
  intros Hv Hr Hst Hot. induction Hr as [x0|n x0 tr x1 l x2 Hr IH Hs]; [done|]. intros Hall.
  pose proof (runs_moments _ _ _ _ Hr Hst) as Hmo.
  assert (l = Some x2) as -> by (by destruct Hs). cbn in Hall.
  assert (∀ y, y ∈ x0 :: tr → there root id y) as Hall' by (intros y Hy; apply Hall; rewrite app_comm_cons; apply elem_of_app; by left).
  assert (moment_ok root start ((x0 :: tr) ++ [x2]) x2) as Hmo' by (by eapply moment_ok_step).
  eapply (on_time_step root id Hv start (x0 :: tr) x1); [exact Hs|exact Hmo|exact Hmo'|apply Hall', (mo_now _ _ _ _ Hmo)| |by apply IH].
  apply Hall. rewrite app_comm_cons. apply elem_of_app. right. by left.
Qed.

Lemma runs_well n w tr w' : runs step n w tr w' → well root start w → well root start w'.
Proof.
  intros Hr Hw. induction Hr as [w|n w tr w1 l w2 Hr IH Hs]; [done|]. by apply (well_step root Hfair Hclient Hgrounded start w1 l); [|apply IH].
Qed.

Lemma begin_ok w : well root start w → moment_ok root start [MkPair w Begin] (MkPair w Begin).
Proof.
  intros Hw. split; [by left| |done|done]. intros y ->%list_elem_of_singleton. by apply (well_sound root start).
Qed.

Lemma begin_on_time id : on_time root id Begin.
Proof. split; [done|constructor]. Qed.

Definition walking (l : Lister) : bool := match l with Returns _ | Raises _ => false | _ => true end.

(** The listing can always go on, whatever the others wait for. *)
Lemma listing_goes_on past x :
  moment_ok root start past x → alive (pool x) = true → walking (lister x) = true → ∃ x', list_step root x x'.
Proof.
  intros Hmo Hal Hw. destruct x as [w l]. cbn in *.
  assert (∀ pick m, list_next root pick l = Some m → ∃ x', list_step root (MkPair w l) x') as Hgo.
  { intros pick m Hm. destruct (m (disk w)) as [o s'] eqn:E. eexists. by eapply list_does. }
  destruct l as [|p ds result|[|d ds] result|result|e]; try done; try (by apply (Hgo None _ eq_refl)).
  destruct (mo_lister _ _ _ _ Hmo) as [[Hd _]%Forall_cons _]. destruct (decide (steady d ⊆ given d)) as [Hend|Hmore].
  - eapply (Hgo None). cbn. by rewrite bool_decide_eq_true_2.
  - assert (¬ set_Forall (λ e, e ∈ given d) (steady d)) as Hne by done.
    apply not_set_Forall_Exists in Hne as (e & He & Hout); [|apply _].
    eapply (Hgo (Some e)). cbn. rewrite bool_decide_eq_true_2; [done|]. split; [by apply (so_steady _ _ _ _ Hd)|done].
Qed.

(** ** The listing ends when the others pause *)

Definition all_entries (f : Fs) : gset entry :=
  set_map (λ q, (q, false)) (dom (files f)) ∪ set_map (λ q, (q, true)) (dirs f).

Lemma entries_bounded f p : size (entries f p) ≤ size (all_entries f).
Proof. apply subseteq_size. unfold entries, all_entries. set_solver. Qed.

(** What an unread entry of a directory costs at most, an open directory, one
    that is about to be opened, and what is left to do. *)
Definition entry_cost (f : Fs) (p : path) : nat := (size (all_entries f) + 3) ^ (length root + 2 - length p).
Definition open_cost (f : Fs) (d : DirStream) : nat := 1 + size (seen d ∖ given d) * entry_cost f (ds_path d).
Definition enter_cost (f : Fs) (p : path) : nat := size (all_entries f) * entry_cost f p + 3.

Definition left_to_list (f : Fs) (l : Lister) : nat :=
  match l with
  | Begin => 2 + enter_cost f root
  | Enter p ds _ => enter_cost f p + sum_list_with (open_cost f) ds
  | Read ds _ => 1 + sum_list_with (open_cost f) ds
  | Returns _ | Raises _ => 0
  end.

Lemma entry_cost_pos f p : 1 ≤ entry_cost f p.
Proof. unfold entry_cost. pose proof (Nat.pow_nonzero (size (all_entries f) + 3) (length root + 2 - length p)). lia. Qed.

Lemma entry_cost_step f p q :
  length q = S (length p) → length q ≤ length root + 2 → entry_cost f p = (size (all_entries f) + 3) * entry_cost f q.
Proof.
  intros Hl Hle. unfold entry_cost. replace (length root + 2 - length p)%nat with (S (length root + 2 - length q)) by lia. done.
Qed.

Lemma unread_less d e : e ∈ seen d → e ∉ given d → size (seen d ∖ given d) = S (size (seen d ∖ given (returned e d))).
Proof.
  intros Hin Hout. change (given (returned e d)) with ({[e]} ∪ given d).
  assert (seen d ∖ ({[e]} ∪ given d) = (seen d ∖ given d) ∖ {[e]}) as -> by (apply set_eq; set_solver).
  assert (e ∈ seen d ∖ given d) as He by (by apply elem_of_difference).
  rewrite (size_difference (seen d ∖ given d) {[e]}) by (by apply singleton_subseteq_l). rewrite size_singleton.
  assert (size (seen d ∖ given d) ≠ 0%nat); [|lia]. intros Hz%size_empty_inv. by apply Hz in He as ?%not_elem_of_empty.
Qed.

Lemma returned_cost f d e :
  e ∈ seen d → e ∉ given d → open_cost f d = (open_cost f (returned e d) + entry_cost f (ds_path d))%nat.
Proof. intros Hin Hout. unfold open_cost. rewrite (unread_less d e Hin Hout). cbn [returned ds_path seen]. lia. Qed.

Lemma list_less past f pick l l' :
  layout root f → lister_ok root past f l → list_post root pick f l (Done l') → left_to_list f l' < left_to_list f l.
Proof.
  intros Hlay Hok Hpost.
  assert (∀ p, (3 ≤ enter_cost f p)%nat) as Hpos by (intros p; unfold enter_cost; lia).
  destruct l as [|p ds result|[|d ds] result|result|e]; cbn in Hpost, Hok; try done.
  - subst l'. cbn. destruct (path_exists f root); cbn; specialize (Hpos root); lia.
  - destruct Hpost as [_ ->]. cbn [left_to_list sum_list_with]. unfold enter_cost.
    assert (open_cost f (open_stream p f) = 1 + size (entries f p) * entry_cost f p)%nat as ->
      by (unfold open_cost; cbn [open_stream ds_path seen given]; by rewrite difference_empty_L).
    pose proof (Nat.mul_le_mono_r _ _ (entry_cost f p) (entries_bounded f p)). lia.
  - subst l'. cbn. lia.
  - destruct Hok as [[Hd _]%Forall_cons _]. destruct Hpost as [Hmay ->].
    destruct pick as [[q k]|]; cbn in Hmay; apply bool_decide_eq_true in Hmay; cbn [left_to_list sum_list_with]; [|assert (1 ≤ open_cost f d)%nat by (unfold open_cost; lia); lia].
    destruct Hmay as [Hin Hout]. rewrite (returned_cost f d (q, k) Hin Hout). pose proof (entry_cost_pos f (ds_path d)).
    destruct k; cbn [left_to_list sum_list_with]; [|lia]. destruct (so_seen _ _ _ _ Hd q true Hin) as (Hq & Hpar & Hk).
    assert (root `prefix_of` q) as Hr by (etrans; [exact (so_root _ _ _ _ Hd)|rewrite <- Hpar; apply prefix_take]).
    pose proof (layout_dirs _ _ Hlay q Hr Hk) as Hle.
    assert (length q = S (length (ds_path d))) as Hl.
    { rewrite <- Hpar. destruct q as [|x q _] using rev_ind; [done|]. rewrite parent_snoc, length_app. cbn. lia. }
    rewrite (entry_cost_step f _ q Hl Hle). unfold enter_cost. pose proof (entry_cost_pos f q). lia.
Qed.

Lemma listing_pauses past x : moment_ok root start past x → Acc (λ x' x, list_step root x x') x.
Proof.
  remember (left_to_list (fs (os (disk (pool x)))) (lister x)) as k eqn:Hk. revert past x Hk.
  induction k as [k IH] using lt_wf_ind. intros past x Hk Hmo. constructor. intros x' Hs.
  pose proof (moment_ok_step root Hfair Hclient Hgrounded start past x (Some x') x' (pair_list _ _ _ Hs) Hmo) as Hmo'.
  destruct Hs as [w pick l m o s' x' Hal Hnext Hm Ex]. cbn [pool lister] in *.
  destruct (list_next_post root pick l m (disk w) o s' Hnext Hm) as [[Hf _] Hpost].
  destruct o as [l'|e| |]; [| |done|]; subst x'.
  - refine (IH _ _ _ _ eq_refl Hmo'). cbn [pool disk lister]. rewrite Hf, Hk.
    apply (list_less past _ pick); [|apply (mo_lister _ _ _ _ Hmo)|exact Hpost].
    apply sound_layout, (well_sound root start w), Hmo.
  - constructor. intros x' Hs. inversion Hs; subst. done.
  - constructor. intros x' Hs. inversion Hs; subst. done.
Qed.

End Runs.

(** ** The listing beside calls of the store *)

Section Theorems.
Context `{Evp, Platform, UuidSource, !EvpLaws, !UuidLaws}.
Variable root : path.

#[local] Instance the_store : Client := store_client root.

Lemma beside_ok (s : Disk) n tr w k moments x :
  fair → idle root s → grounded (fs (os s)) →
  runs step n (MkWorld s ∅ true) tr w → runs (pair_step root) k (MkPair w Begin) moments x →
  moment_ok root s [MkPair w Begin] (MkPair w Begin) ∧ moment_ok root s (MkPair w Begin :: moments) x.
Proof.
  intros Hfair Hs Hg Hr Hp. pose proof (store_client_safe root Hfair) as Hsafe.
  assert (well root s w) as Hw by (eapply (runs_well root Hfair Hsafe (program_grounded root)); [exact Hr|by apply well_start]).
  pose proof (begin_ok root s w Hw) as Hb. split; [done|].
  by eapply (runs_moments root Hfair Hsafe (program_grounded root)).
Qed.

(** What is listed was there; what is there all the time is listed once. *)
Lemma listed_been (s : Disk) n tr w k moments x result :
  fair → idle root s → grounded (fs (os s)) →
  runs step n (MkWorld s ∅ true) tr w → runs (pair_step root) k (MkPair w Begin) moments x → lister x = Returns result →
  ∀ id, id ∈ result → ChunkId.valid id ∧
    ∃ y, y ∈ MkPair w Begin :: moments ∧ is_Some (view root (disk (pool y)) !! ChunkId.ToHexString id).
Proof.
  intros Hfair Hs Hg Hr Hp El id Hid. destruct (beside_ok s n tr w k moments x Hfair Hs Hg Hr Hp) as [_ Hmo].
  pose proof (mo_lister _ _ _ _ Hmo) as Hl. rewrite El in Hl. destruct (Hl id Hid) as (Hv & y & Hy & Hx).
  split; [done|]. exists y. split; [done|]. by apply view_at_some.
Qed.

Lemma listed_once (s : Disk) n tr w k moments x result id :
  fair → idle root s → grounded (fs (os s)) →
  runs step n (MkWorld s ∅ true) tr w → runs (pair_step root) k (MkPair w Begin) moments x → lister x = Returns result →
  ChunkId.valid id →
  (∀ y, y ∈ MkPair w Begin :: moments → is_Some (view root (disk (pool y)) !! ChunkId.ToHexString id)) → times id result = 1.
Proof.
  intros Hfair Hs Hg Hr Hp El Hv Hall. destruct (beside_ok s n tr w k moments x Hfair Hs Hg Hr Hp) as [Hb _].
  pose proof (store_client_safe root Hfair) as Hsafe. apply (eq_trans (f_equal (owed root id) (eq_sym El))).
  apply (runs_on_time root Hfair Hsafe (program_grounded root) s id k _ moments x Hv Hp Hb (begin_on_time root id)).
  intros y Hy. by apply (view_at_some root id), Hall.
Qed.

(** C9: The listing is regular. It takes no lock and shows no state the store
    ever had, but whatever the other threads put and delete while it walks the
    directory, with failing calls and a crash anywhere ([exists] and
    [file_size] alone must not fail, nor the mutex report a relock as an
    error): what it returns are chunks each of which was in the store at some
    moment of the walk, and a chunk that was in the store at all of them is in
    it, once. It throws only when a system call failed. *)
Theorem listing_regular (s : Disk) (n : nat) (tr : list event) (w : World) (k : nat) (moments : list Pair) (x : Pair) :
  fair → idle root s → grounded (fs (os s)) →
  runs step n (MkWorld s ∅ true) tr w → runs (pair_step root) k (MkPair w Begin) moments x →
  match lister x with
  | Returns result =>
      (∀ id, id ∈ result → ChunkId.valid id ∧
         ∃ y, y ∈ MkPair w Begin :: moments ∧ is_Some (view root (disk (pool y)) !! ChunkId.ToHexString id)) ∧
      (∀ id, ChunkId.valid id →
         (∀ y, y ∈ MkPair w Begin :: moments → is_Some (view root (disk (pool y)) !! ChunkId.ToHexString id)) →
         times id result = 1)
  | Raises _ => io_fault
  | _ => True
  end.
Proof.
  intros Hfair Hs Hg Hr Hp. destruct (beside_ok s n tr w k moments x Hfair Hs Hg Hr Hp) as [_ Hmo].
  pose proof (mo_lister _ _ _ _ Hmo) as Hl. destruct (lister x) as [| | |result|e] eqn:El; try done. split.
  - by apply (listed_been s n tr w k moments x).
  - intros id. by apply (listed_once s n tr w k moments x).
Qed.

Definition alone (x : Pair) (l : option Pair) (x' : Pair) : Prop := l = Some x' ∧ list_step root x x'.

Lemma alone_beside k x0 moments x :
  runs alone k x0 moments x →
  runs (pair_step root) k x0 moments x ∧ ∀ y, y ∈ x0 :: moments → fs (os (disk (pool y))) = fs (os (disk (pool x0))).
Proof.
  intros Hr. enough (runs (pair_step root) k x0 moments x ∧ fs (os (disk (pool x))) = fs (os (disk (pool x0))) ∧
    ∀ y, y ∈ x0 :: moments → fs (os (disk (pool y))) = fs (os (disk (pool x0)))) by tauto.
  induction Hr as [x0|n x0 tr x1 l x2 Hr (IH & Hf & Hall) [-> Hs]].
  - split; [constructor|]. split; [done|]. by intros y ->%list_elem_of_singleton.
  - assert (fs (os (disk (pool x2))) = fs (os (disk (pool x0)))) as Hf2.
    { rewrite <- Hf. destruct Hs as [w pick l m o s' x2 Hal Hnext Hm ->].
      destruct (list_next_post root pick l m (disk w) o s' Hnext Hm) as [[Hsame _] _]. by destruct o. }
    split; [by eapply runs_snoc; [|apply pair_list]|]. split; [done|].
    intros y [->|[Hy|Hy%list_elem_of_singleton]%elem_of_app]%elem_of_cons; [done|apply Hall; by right|by subst y].
Qed.

Lemma once_each (l : list ChunkId.t) : (∀ i, i ∈ l → times i l = 1) → NoDup l.
Proof.
  intros Hl. apply NoDup_alt. intros a b i Ha Hb. destruct (decide (a = b)) as [|Hne]; [done|]. exfalso.
  assert (∀ a b, a < b → l !! a = Some i → l !! b = Some i → False)%nat as Hno.
  { clear a b Ha Hb Hne. intros a b Hlt Ha Hb. pose proof (Hl i (list_elem_of_lookup_2 _ _ _ Ha)) as Hone. unfold times in Hone.
    rewrite <- (take_drop_middle l a i Ha) in Hone. rewrite filter_app, filter_cons, decide_True, length_app in Hone by done. cbn in Hone.
    assert (i ∈ filter (λ j, j = i) (drop (S a) l)) as Hin.
    { apply list_elem_of_filter. split; [done|]. apply (list_elem_of_lookup_2 _ (b - S a)). rewrite lookup_drop. rewrite <- Hb. f_equal. lia. }
    destruct (filter (λ j, j = i) (drop (S a) l)); [by apply elem_of_nil in Hin|cbn in Hone; lia]. }
  destruct (Nat.lt_gt_cases a b) as [[?|?] _]; [done|by eapply Hno|by eapply Hno].
Qed.

(** When nobody else acts the walk returns what [LocalDisk.ListAllChunkIds]
    does, in some order. *)
Lemma listing_alone (s : Disk) k moments x result :
  fair → idle root s → grounded (fs (os s)) →
  runs alone k (MkPair (MkWorld s ∅ true) Begin) moments x → lister x = Returns result →
  result ≡ₚ ListLoop (below root (fs (os s))) [].
Proof.
  intros Hfair Hs Hg [Hr Hf]%alone_beside El.
  pose proof (listed_been s 0 [] (MkWorld s ∅ true) k moments x result Hfair Hs Hg (runs_nil _ _) Hr El) as Hin.
  pose proof (λ id, listed_once s 0 [] (MkWorld s ∅ true) k moments x result id Hfair Hs Hg (runs_nil _ _) Hr El) as Honce.
  assert (∀ y, y ∈ MkPair (MkWorld s ∅ true) Begin :: moments → view root (disk (pool y)) = view root s) as Hview
    by (intros y Hy; unfold view; by rewrite (Hf y Hy)).
  assert (∀ id, id ∈ result → ChunkId.valid id ∧ is_Some (view root s !! ChunkId.ToHexString id)) as Hin'.
  { intros id Hid. destruct (Hin id Hid) as (Hv & y & Hy & Hx). by rewrite (Hview y Hy) in Hx. }
  destruct (list_exact root (set_held [] s) (idle_healthy _ _ Hs)) as [Hnd Hall]. apply NoDup_Permutation; [|exact Hnd|].
  - apply once_each. intros id Hid. destruct (Hin' id Hid) as [Hv Hx]. apply (Honce id Hv). intros y Hy. by rewrite (Hview y Hy).
  - intros id. rewrite (Hall id). split; [apply Hin'|]. intros [Hv Hx].
    assert (times id result = 1) as Ht by (apply (Honce id Hv); intros y Hy; by rewrite (Hview y Hy)).
    unfold times in Ht. destruct (filter _ result) as [|i l] eqn:E; [done|].
    assert (i ∈ filter (λ i, i = id) result) as [-> Hi]%list_elem_of_filter by (rewrite E; by left). done.
Qed.

(** C10: The listing ends. It never waits for another thread, and when the
    others pause, at whatever point of their calls, it cannot go on for ever:
    it returns, throws, or stops with the machine. (The run before it is as in
    the theorem before: [exists] and [file_size] do not fail and the mutex
    does not report a relock as an error.) *)
Theorem listing_ends (s : Disk) (n : nat) (tr : list event) (w : World) (k : nat) (moments : list Pair) (x : Pair) :
  fair → idle root s → grounded (fs (os s)) →
  runs step n (MkWorld s ∅ true) tr w → runs (pair_step root) k (MkPair w Begin) moments x →
  Acc (λ x' x, list_step root x x') x ∧
  (alive (pool x) = true → walking (lister x) = true → ∃ x', list_step root x x').
Proof.
  intros Hfair Hs Hg Hr Hp. destruct (beside_ok s n tr w k moments x Hfair Hs Hg Hr Hp) as [_ Hmo].
  pose proof (store_client_safe root Hfair) as Hsafe. split.
  - by apply (listing_pauses root Hfair Hsafe (program_grounded root) s (MkPair w Begin :: moments)).
  - by apply (listing_goes_on root s (MkPair w Begin :: moments)).
Qed.

(** The others are not disturbed: when their calls have returned the store is
    ready again. *)
Lemma listing_disturbs_nobody (s : Disk) n tr w k moments x :
  fair → idle root s → grounded (fs (os s)) →
  runs step n (MkWorld s ∅ true) tr w → runs (pair_step root) k (MkPair w Begin) moments x →
  alive (pool x) = true → threads (pool x) = ∅ → idle root (disk (pool x)).
Proof.
  intros Hfair Hs Hg Hr Hp Hal Hno. destruct (beside_ok s n tr w k moments x Hfair Hs Hg Hr Hp) as [_ Hmo].
  destruct (well_related _ _ _ (mo_well _ _ _ _ Hmo)) as [a Ha]. exact (related_idle root _ _ _ _ _ Ha Hal Hno).
Qed.

End Theorems.

(** ** A concrete walk *)

Section Examples.

#[local] Existing Instance toy_evp.
#[local] Existing Instance toy_good.
#[local] Existing Instance toy_uuid.
#[local] Existing Instance toy_evp_laws.
#[local] Existing Instance toy_uuid_laws.
#[local] Hint Extern 0 Client => exact (the_store ["data"]) : typeclass_instances.

(** A scheduler for both; the system returns the first entry it may. *)
Inductive turn := Others (c : choice) | Walks.

Definition first_unread (l : Lister) : option entry :=
  match l with Read (d :: _) _ => head (elements (seen d ∖ given d)) | _ => None end.

Definition take_turn (t : turn) (x : Pair) : option Pair :=
  match t with
  | Others c =>
      match advance c (pool x) with
      | Some (_, w) => Some (MkPair w (watch_all (fs (os (disk w))) (lister x)))
      | None => None
      end
  | Walks =>
      if negb (alive (pool x)) then None else
      match list_next ["data"] (first_unread (lister x)) (lister x) with
      | Some m =>
          match m (disk (pool x)) with
          | (Done l, s) => Some (MkPair (MkWorld s (threads (pool x)) true) l)
          | (Throws e, s) => Some (MkPair (MkWorld s (threads (pool x)) true) (Raises e))
          | (_, s) => Some (MkPair (MkWorld s (threads (pool x)) false) (lister x))
          end
      | None => None
      end
  end.

Definition turn_valid (t : turn) : Prop := match t with Others c => choice_valid c | Walks => True end.

Lemma take_turn_step t x x' :
  turn_valid t → take_turn t x = Some x' → pair_step ["data"] x (Some x') x'.
Proof.
  destruct x as [w l], t as [c|]; cbn; intros Hv.
  - destruct (advance c w) as [[e w']|] eqn:E; [|done]. intros [= <-]. eapply pair_pool; [by eapply advance_step|done].
  - destruct (alive w) eqn:Hal; [|done]. cbn. destruct (list_next _ _ l) as [m|] eqn:Hm; [|done].
    intros E. apply pair_list. destruct (m (disk w)) as [o s] eqn:Ho. eapply list_does; [done|exact Hm|exact Ho|].
    by destruct o; injection E as <-.
Qed.

Fixpoint walk (ts : list turn) (n : nat) (past : list Pair) (x : Pair) : nat * list Pair * Pair :=
  match ts with
  | [] => (n, past, x)
  | t :: ts =>
      match take_turn t x with
      | Some x' => walk ts (S n) (past ++ [x']) x'
      | None => walk ts n past x
      end
  end.

Lemma walk_runs ts n past x0 x :
  Forall turn_valid ts → runs (pair_step ["data"]) n x0 past x →
  let '(n', past', x') := walk ts n past x in runs (pair_step ["data"]) n' x0 past' x'.
Proof.
  revert n past x. induction ts as [|t ts IH]; intros n past x Hall Hr; [done|]. apply Forall_cons in Hall as [Hv Hall]. cbn.
  destruct (take_turn t x) as [x'|] eqn:E; [|by apply IH]. apply IH; [done|].
  exact (runs_snoc _ n x0 past x (Some x') x' Hr (take_turn_step t x x' Hv E)).
Qed.

(** One chunk is there; another is put while the directory is walked. *)
Definition walked_turns : list turn :=
  Others (Invoke 1 (ReqPut other_chunk other_data) "a") ::
  concat (repeat [Walks; Others (GoOn 1); Others (GoOn 1); Others (GoOn 1)] 30).

Definition begins : Pair := MkPair (MkWorld settled_disk ∅ true) Begin.

Lemma walked_turns_valid : Forall turn_valid walked_turns.
Proof.
  assert (request_valid (ReqPut other_chunk other_data)) as Hv by exact other_chunk_valid.
  unfold walked_turns. apply Forall_cons_2; [exact Hv|]. clear Hv. apply Forall_forall. intros t Ht. apply list_elem_of_In, in_concat in Ht as (l & Hl & Ht).
  apply repeat_spec in Hl as ->. by repeat (destruct Ht as [<-|Ht]; [exact I|]).
Qed.

Lemma walked_run k : let r := walk (take k walked_turns) 0 [] begins in runs (pair_step ["data"]) r.1.1 begins r.1.2 r.2.
Proof.
  pose proof (walk_runs (take k walked_turns) 0 [] begins begins (Forall_take _ _ _ walked_turns_valid) (runs_nil _ begins)) as Hr.
  cbn zeta. by destruct (walk _ 0 [] begins) as [[n past] x].
Qed.

Lemma settled_idle : idle ["data"] settled_disk.
Proof. apply all_synced_idle; [apply settled_sound|apply settled_sound|by vm_compute]. Qed.

Lemma settled_grounded : grounded (fs (os settled_disk)).
Proof. apply groundedb_true. by vm_compute. Qed.

Definition listed (l : Lister) : option (list string) :=
  match l with Returns result => Some (ChunkId.ToHexString <$> result) | _ => None end.

(** The walk is over, and the first chunk was there all the time. *)
Definition walk_over : nat * list Pair * Pair := walk (take 200 walked_turns) 0 [] begins.

Lemma walk_over_listed :
  listed (lister walk_over.2) = Some [ChunkId.ToHexString sample_chunk; ChunkId.ToHexString other_chunk].
Proof. by vm_compute. Qed.

Lemma walk_over_there :
  forallb (λ y, bool_decide (is_Some (view ["data"] (disk (pool y)) !! ChunkId.ToHexString sample_chunk))) (begins :: walk_over.1.2) = true.
Proof. by vm_compute. Qed.

Definition regular (past : list Pair) (l : Lister) : Prop :=
  match l with
  | Returns result =>
      (∀ id, id ∈ result → ChunkId.valid id ∧
         ∃ y, y ∈ past ∧ is_Some (view ["data"] (disk (pool y)) !! ChunkId.ToHexString id)) ∧
      (∀ id, ChunkId.valid id →
         (∀ y, y ∈ past → is_Some (view ["data"] (disk (pool y)) !! ChunkId.ToHexString id)) → times id result = 1)
  | Raises _ => io_fault
  | _ => True
  end.

Lemma regular_once past l hexes id :
  regular past l → listed l = Some hexes → ChunkId.valid id →
  forallb (λ y, bool_decide (is_Some (view ["data"] (disk (pool y)) !! ChunkId.ToHexString id))) past = true →
  ∃ result, ChunkId.ToHexString <$> result = hexes ∧ times id result = 1 ∧ ∀ i, i ∈ result → ChunkId.valid i.
Proof.
  intros Hreg Hl Hv Ht. destruct l as [| | |result|]; try discriminate Hl. injection Hl as Hl. destruct Hreg as [Hin Honce].
  exists result. split; [exact Hl|]. split; [|intros i Hi; apply (Hin i Hi)]. apply (Honce id Hv). intros y Hy.
  rewrite forallb_forall in Ht. apply (bool_decide_eq_true_1 (is_Some _)), Ht. by apply list_elem_of_In.
Qed.

Lemma listing_regular_witness :
  ∃ result, ChunkId.ToHexString <$> result = [ChunkId.ToHexString sample_chunk; ChunkId.ToHexString other_chunk] ∧
    times sample_chunk result = 1 ∧ ∀ id, id ∈ result → ChunkId.valid id.
Proof.
  exact (regular_once (begins :: walk_over.1.2) (lister walk_over.2) _ sample_chunk
    (listing_regular ["data"] settled_disk 0 [] (MkWorld settled_disk ∅ true) walk_over.1.1 walk_over.1.2 walk_over.2
      toy_fair settled_idle settled_grounded (runs_nil _ _) (walked_run 200))
    walk_over_listed sample_chunk_valid walk_over_there).
Defined.

(** In the middle of the walk, with the other call in the middle of its work. *)
Definition halfway : nat * list Pair * Pair := walk (take 15 walked_turns) 0 [] begins.

Lemma listing_ends_witness :
  alive (pool halfway.2) = true ∧ walking (lister halfway.2) = true ∧
  Acc (λ x' x, list_step ["data"] x x') halfway.2 ∧ ∃ x', list_step ["data"] halfway.2 x'.
Proof.
  pose proof (listing_ends ["data"] settled_disk 0 [] (MkWorld settled_disk ∅ true) halfway.1.1 halfway.1.2 halfway.2
    toy_fair settled_idle settled_grounded (runs_nil _ _) (walked_run 15)) as [Hacc Hgo].
  assert (alive (pool halfway.2) = true) as Hal by (by vm_compute).
  assert (walking (lister halfway.2) = true) as Hw by (by vm_compute).
  split; [exact Hal|]. split; [exact Hw|]. split; [exact Hacc|exact (Hgo Hal Hw)].
Defined.

End Examples.
