(* ===== verification/FaultStore.v ===== *)
(** * [nimbus::storage_node::FaultInjectingChunkStore]

    Models [services/storage_node/src/fault_injecting_chunk_store.cpp]: the
    decorator that delays calls and replaces them by errors on demand, over
    any implementation of [IChunkStore.Ops]. *)

From S2P Require Import Prelude Result Cxx Sha256 ChunkId Logger IChunkStore Posix LocalDisk DiskEffects DiskTheorems DiskContract DiskSafety.

Local Open Scope Z_scope.

Module FaultStore.

(** The members, and the sleeps taken (in milliseconds). *)
Record t (S : Type) := Mk {
  delegate_ : S;
  pending_one_shot_fault_ : option ChunkStoreError;
  pending_nth_call_fault_ : option (Z * ChunkStoreError);
  call_counter_ : Z;
  pending_latency_ : Z;
  slept : list Z
}.
#[global] Arguments Mk {S}.
#[global] Arguments delegate_ {S}.
#[global] Arguments pending_one_shot_fault_ {S}.
#[global] Arguments pending_nth_call_fault_ {S}.
#[global] Arguments call_counter_ {S}.
#[global] Arguments pending_latency_ {S}.
#[global] Arguments slept {S}.

Section Store.
Context {S : Type} `{IChunkStore.Ops S}.

Definition FaultInjectingChunkStore (delegate : S) : t S := Mk delegate None None 0 0 [].

Definition set_delegate (d : S) (s : t S) : t S :=
  Mk d (pending_one_shot_fault_ s) (pending_nth_call_fault_ s) (call_counter_ s) (pending_latency_ s) (slept s).

Definition on_delegate {A} (m : M S A) : M (t S) A := zoom delegate_ set_delegate m.

(** ** The controls *)

Definition InjectFailureOnNextCall (error_to_inject : ChunkStoreError) : M (t S) unit :=
  modify (λ s, Mk (delegate_ s) (Some error_to_inject) (pending_nth_call_fault_ s) (call_counter_ s)
    (pending_latency_ s) (slept s)).

Definition InjectFailureAfterNCalls (n : Z) (error_to_inject : ChunkStoreError) : M (t S) unit :=
  modify (λ s, Mk (delegate_ s) (pending_one_shot_fault_ s) (Some (n, error_to_inject)) 0
    (pending_latency_ s) (slept s)).

Definition InjectLatency (latency : Z) : M (t S) unit :=
  modify (λ s, Mk (delegate_ s) (pending_one_shot_fault_ s) (pending_nth_call_fault_ s) (call_counter_ s)
    latency (slept s)).

Definition ClearInjectedFaults : M (t S) unit :=
  modify (λ s, Mk (delegate_ s) None None 0 0 (slept s)).

(** The error to inject, when there is one: a one-shot fault is used up, a
    fault after [n] calls stays. *)
Definition ShouldInjectFault : M (t S) (option ChunkStoreError) := state $ λ s,
  let counter := wrap64 (call_counter_ s + 1) in
  match pending_one_shot_fault_ s with
  | Some e => (Done (Some e),
      Mk (delegate_ s) None (pending_nth_call_fault_ s) counter (pending_latency_ s) (slept s))
  | None =>
      let s' := Mk (delegate_ s) None (pending_nth_call_fault_ s) counter (pending_latency_ s) (slept s) in
      match pending_nth_call_fault_ s with
      | Some (n, e) => if n <? counter then (Done (Some e), s') else (Done None, s')
      | None => (Done None, s')
      end
  end.

Definition ApplyLatency : M (t S) unit :=
  modify (λ s,
    if 0 <? pending_latency_ s then
      Mk (delegate_ s) (pending_one_shot_fault_ s) (pending_nth_call_fault_ s) (call_counter_ s)
        (pending_latency_ s) (slept s ++ [pending_latency_ s])
    else s).

(** ** The operations *)

Definition Injected (e : ChunkStoreError) {A} : Result A ChunkStoreErrorDetail := Err (Detail e "Injected Fault").

Definition Put (id : ChunkId.t) (data : list byte) : M (t S) (Result unit ChunkStoreErrorDetail) :=
  ApplyLatency;;
  fault ← ShouldInjectFault;
  match fault with
  | Some injected_error => mret (Injected injected_error)
  | None => on_delegate (IChunkStore.Put id data)
  end.

Definition Get (id : ChunkId.t) : M (t S) (Result (list byte) ChunkStoreErrorDetail) :=
  ApplyLatency;;
  fault ← ShouldInjectFault;
  match fault with
  | Some injected_error => mret (Injected injected_error)
  | None => on_delegate (IChunkStore.Get id)
  end.

Definition VerifyOnly (id : ChunkId.t) : M (t S) (Result unit ChunkStoreErrorDetail) :=
  ApplyLatency;;
  fault ← ShouldInjectFault;
  match fault with
  | Some injected_error => mret (Injected injected_error)
  | None => on_delegate (IChunkStore.VerifyOnly id)
  end.

Definition Delete (id : ChunkId.t) : M (t S) (Result unit ChunkStoreErrorDetail) :=
  ApplyLatency;;
  fault ← ShouldInjectFault;
  match fault with
  | Some injected_error => mret (Injected injected_error)
  | None => on_delegate (IChunkStore.Delete id)
  end.

Definition Exists (id : ChunkId.t) : M (t S) bool :=
  ApplyLatency;;
  fault ← ShouldInjectFault;
  match fault with
  | Some _ => mret false
  | None => on_delegate (IChunkStore.Exists id)
  end.

Definition GetStats : M (t S) ChunkStoreStats :=
  ApplyLatency;;
  fault ← ShouldInjectFault;
  match fault with
  | Some _ => mret (Stats 0 0 0)
  | None => on_delegate IChunkStore.GetStats
  end.

Definition ListAllChunkIds : M (t S) (list ChunkId.t) :=
  ApplyLatency;;
  fault ← ShouldInjectFault;
  match fault with
  | Some _ => mret []
  | None => on_delegate IChunkStore.ListAllChunkIds
  end.

#[global] Instance ops : IChunkStore.Ops (t S) :=
  {| IChunkStore.Put := Put;
     IChunkStore.Get := Get;
     IChunkStore.VerifyOnly := VerifyOnly;
     IChunkStore.Delete := Delete;
     IChunkStore.Exists := Exists;
     IChunkStore.GetStats := GetStats;
     IChunkStore.ListAllChunkIds := ListAllChunkIds |}.

End Store.

(** The runtime of the decorator is its delegate's. *)
#[global] Instance runtime_of {S} `{HasRuntime S} : HasRuntime (t S).
Proof.
  refine {| runtime s := runtime (delegate_ s); set_runtime r s := set_delegate (set_runtime r (delegate_ s)) s |};
    intros; destruct_and?; cbn; repeat match goal with s : t S |- _ => destruct s end; cbn.
  - apply runtime_set.
  - by rewrite set_runtime_set.
  - by rewrite set_runtime_get.
Defined.

(** ** Sequences of calls through the interface *)

Inductive call :=
  | CPut (id : ChunkId.t) (data : list byte)
  | CGet (id : ChunkId.t)
  | CVerify (id : ChunkId.t)
  | CDelete (id : ChunkId.t)
  | CExists (id : ChunkId.t)
  | CStats
  | CList.

Inductive response :=
  | RUnit (r : Result unit ChunkStoreErrorDetail)
  | RData (r : Result (list byte) ChunkStoreErrorDetail)
  | RBool (b : bool)
  | RStats (st : ChunkStoreStats)
  | RList (ids : list ChunkId.t).

Definition issue {S} `{IChunkStore.Ops S} (c : call) : M S response :=
  match c with
  | CPut id data => r ← IChunkStore.Put id data; mret (RUnit r)
  | CGet id => r ← IChunkStore.Get id; mret (RData r)
  | CVerify id => r ← IChunkStore.VerifyOnly id; mret (RUnit r)
  | CDelete id => r ← IChunkStore.Delete id; mret (RUnit r)
  | CExists id => r ← IChunkStore.Exists id; mret (RBool r)
  | CStats => r ← IChunkStore.GetStats; mret (RStats r)
  | CList => r ← IChunkStore.ListAllChunkIds; mret (RList r)
  end.

Fixpoint issue_all {S} `{IChunkStore.Ops S} (cs : list call) : M S (list response) :=
  match cs with
  | [] => mret []
  | c :: cs' => r ← issue c; rs ← issue_all cs'; mret (r :: rs)
  end.

(** The response of an injected failure. *)
Definition injected (e : ChunkStoreError) (c : call) : response :=
  match c with
  | CPut _ _ | CVerify _ | CDelete _ => RUnit (Injected e)
  | CGet _ => RData (Injected e)
  | CExists _ => RBool false
  | CStats => RStats (Stats 0 0 0)
  | CList => RList []
  end.

Section Calls.
Context {S : Type} `{IChunkStore.Ops S}.
Implicit Types s : t S.

(** The decision [ShouldInjectFault] takes in a state. *)
Definition fault_of s : option ChunkStoreError :=
  match pending_one_shot_fault_ s with
  | Some e => Some e
  | None =>
      match pending_nth_call_fault_ s with
      | Some (n, e) => if n <? wrap64 (call_counter_ s + 1) then Some e else None
      | None => None
      end
  end.

(** The state after the two preliminary steps of a call. *)
Definition called s : t S :=
  Mk (delegate_ s) None (pending_nth_call_fault_ s) (wrap64 (call_counter_ s + 1)) (pending_latency_ s)
    (if 0 <? pending_latency_ s then slept s ++ [pending_latency_ s] else slept s).

Lemma preliminaries {A} s (k : option ChunkStoreError → M (t S) A) :
  (ApplyLatency;; ShouldInjectFault ≫= k) s = k (fault_of s) (called s).
Proof.
  unfold ApplyLatency, ShouldInjectFault, modify, state, fault_of, called, mbind, M_bind.
  destruct s as [d o nth c l sl]. cbn. destruct (0 <? l); cbn; destruct o as [e|]; try done;
    destruct nth as [[n e]|]; try done; by destruct (n <? _).
Qed.

(** A call either fails as told, the delegate untouched, or is the
    delegate's. *)
Lemma issue_eq c s :
  issue c s =
    match fault_of s with
    | Some e => (Done (injected e c), called s)
    | None => on_delegate (issue c) (called s)
    end.
Proof.
  destruct c; cbn [issue]; unfold mbind at 1, M_bind at 1; cbn [IChunkStore.Put IChunkStore.Get
    IChunkStore.VerifyOnly IChunkStore.Delete IChunkStore.Exists IChunkStore.GetStats
    IChunkStore.ListAllChunkIds ops];
    unfold Put, Get, VerifyOnly, Delete, Exists, GetStats, ListAllChunkIds; rewrite preliminaries;
    destruct (fault_of s); cbn; try done;
    unfold on_delegate, zoom, mbind, M_bind; cbn;
    match goal with |- context [?m (delegate_ s)] => by destruct (m (delegate_ s)) as [[] ?] end.
Qed.

Lemma issue_all_cons (c : call) (cs : list call) s r s1 :
  issue c s = (Done r, s1) →
  issue_all (c :: cs) s = (issue_all cs ≫= λ rs, mret (r :: rs)) s1.
Proof. intros E. cbn [issue_all]. by rewrite (M_bind_done _ _ _ _ _ E). Qed.

Lemma failing_calls cs s n e :
  pending_one_shot_fault_ s = None → pending_nth_call_fault_ s = Some (n, e) →
  n <= call_counter_ s → 0 <= call_counter_ s → call_counter_ s + Z.of_nat (length cs) < 2 ^ 64 →
  ∃ s', issue_all cs s = (Done (map (injected e) cs), s') ∧ delegate_ s' = delegate_ s ∧
    call_counter_ s' = call_counter_ s + Z.of_nat (length cs).
Proof.
  revert s. induction cs as [|c cs IH]; intros s Hone Hnth Hn Hc Hb.
  - exists s. split; [done|]. split; [done|cbn; lia].
  - cbn [length] in Hb. assert (wrap64 (call_counter_ s + 1) = call_counter_ s + 1) as Hw by (apply wrap64_small; lia).
    assert (fault_of s = Some e) as Hf.
    { unfold fault_of. rewrite Hone, Hnth, Hw. destruct (Z.ltb_spec n (call_counter_ s + 1)); [done|lia]. }
    destruct (IH (called s)) as (s' & E & Hd & Hcc); [done|done|cbn; rewrite Hw; lia..|].
    exists s'. erewrite issue_all_cons by (by rewrite issue_eq, Hf). cbn.
    unfold mbind, M_bind. rewrite E. split; [done|]. split; [done|]. rewrite Hcc. cbn. rewrite Hw. lia.
Qed.

Lemma counted_calls cs s (n : nat) e rs d' :
  pending_one_shot_fault_ s = None → pending_nth_call_fault_ s = Some (call_counter_ s + Z.of_nat n, e) →
  0 <= call_counter_ s → call_counter_ s + Z.of_nat (length cs) < 2 ^ 64 →
  issue_all (take n cs) (delegate_ s) = (Done rs, d') →
  ∃ s', issue_all cs s = (Done (rs ++ map (injected e) (drop n cs)), s') ∧ delegate_ s' = d' ∧
    call_counter_ s' = call_counter_ s + Z.of_nat (length cs).
Proof.
  revert s n rs. induction cs as [|c cs IH]; intros s n rs Hone Hnth Hc Hb E.
  - rewrite take_nil in E. rewrite drop_nil. injection E as <- <-. exists s. split; [done|]. split; [done|cbn; lia].
  - destruct n as [|n].
    + injection E as <- <-. rewrite drop_0. rewrite Z.add_0_r in Hnth. by apply (failing_calls (c :: cs) s (call_counter_ s) e).
    + cbn [length] in Hb. assert (wrap64 (call_counter_ s + 1) = call_counter_ s + 1) as Hw by (apply wrap64_small; lia).
      assert (fault_of s = None) as Hf.
      { unfold fault_of. rewrite Hone, Hnth, Hw. destruct (Z.ltb_spec (call_counter_ s + Z.of_nat (Datatypes.S n)) (call_counter_ s + 1)); [lia|done]. }
      cbn [take issue_all] in E. unfold mbind, M_bind in E.
      destruct (issue c (delegate_ s)) as [[r| | |] d1] eqn:Ec; try done.
      destruct (issue_all (take n cs) d1) as [[rs'| | |] d2] eqn:Er; try done. injection E as <- <-.
      destruct (IH (set_delegate d1 (called s)) n rs') as (s' & E' & Hd & Hcc);
        [done|cbn; rewrite Hnth, Hw; do 2 f_equal; lia|cbn; rewrite Hw; lia..|done|].
      exists s'. erewrite issue_all_cons by (rewrite issue_eq, Hf; unfold on_delegate, zoom; cbn; by rewrite Ec).
      cbn. unfold mbind, M_bind. rewrite E'. split; [done|]. split; [done|]. rewrite Hcc. cbn. rewrite Hw. lia.
Qed.

(** No fault is pending. *)
Definition disarmed s : Prop := pending_one_shot_fault_ s = None ∧ pending_nth_call_fault_ s = None.

Lemma disarmed_fault s : disarmed s → fault_of s = None.
Proof. unfold fault_of. by intros [-> ->]. Qed.

Lemma disarmed_called d s : disarmed s → disarmed (set_delegate d (called s)).
Proof. intros [_ Hn]. by split. Qed.

Lemma disarmed_calls cs s rs d' :
  disarmed s → issue_all cs (delegate_ s) = (Done rs, d') →
  ∃ s', issue_all cs s = (Done rs, s') ∧ delegate_ s' = d' ∧ disarmed s'.
Proof.
  revert s rs. induction cs as [|c cs IH]; intros s rs Hdis E.
  - injection E as <- <-. by exists s.
  - cbn [issue_all] in E. unfold mbind, M_bind in E.
    destruct (issue c (delegate_ s)) as [[r| | |] d1] eqn:Ec; try done.
    destruct (issue_all cs d1) as [[rs'| | |] d2] eqn:Er; try done. injection E as <- <-.
    destruct (IH (set_delegate d1 (called s)) rs') as (s' & E' & Hd & Hdis'); [by apply disarmed_called|done|].
    exists s'. erewrite issue_all_cons
      by (rewrite issue_eq, (disarmed_fault _ Hdis); unfold on_delegate, zoom; cbn; by rewrite Ec).
    unfold mbind, M_bind. by rewrite E'.
Qed.

(** ** Theorems *)

(** After [InjectFailureAfterNCalls(n, e)] exactly the first [n] calls,
    of whatever operations, are the delegate's, and every later call fails
    with [e] without reaching the delegate, until the faults are cleared. *)
Theorem fails_after_n_calls (n : nat) (e : ChunkStoreError) (cs : list call) (s : t S) (rs : list response) (d' : S) :
  pending_one_shot_fault_ s = None → Z.of_nat (length cs) < 2 ^ 64 →
  issue_all (take n cs) (delegate_ s) = (Done rs, d') →
  ∃ s', (InjectFailureAfterNCalls (Z.of_nat n) e;; issue_all cs) s =
      (Done (rs ++ map (injected e) (drop n cs)), s') ∧ delegate_ s' = d'.
Proof.
  intros Hone Hb E.
  destruct (counted_calls cs (Mk (delegate_ s) (pending_one_shot_fault_ s) (Some (Z.of_nat n, e)) 0
    (pending_latency_ s) (slept s)) n e rs d') as (s' & E' & Hd & _); [done..|].
  by exists s'.
Qed.

(** A one-shot fault hits the next call, of whatever operation, and no
    other: it comes first even when a fault after [n] calls is armed as
    well, and the calls after it are the delegate's. *)
Theorem one_shot_fault (e : ChunkStoreError) (c : call) (cs : list call) (s : t S) (rs : list response) (d' : S) :
  pending_nth_call_fault_ s = None → issue_all cs (delegate_ s) = (Done rs, d') →
  ∃ s', (InjectFailureOnNextCall e;; issue_all (c :: cs)) s = (Done (injected e c :: rs), s') ∧
    delegate_ s' = d' ∧ disarmed s'.
Proof.
  intros Hnth E. set (s0 := Mk (delegate_ s) (Some e) None (call_counter_ s) (pending_latency_ s) (slept s)).
  destruct (disarmed_calls cs (called s0) rs d') as (s' & E' & Hd & Hdis); [done|done|].
  exists s'. split; [|done].
  assert ((InjectFailureOnNextCall e;; issue_all (c :: cs)) s = issue_all (c :: cs) s0) as ->
    by (destruct s; cbn in Hnth; by subst).
  rewrite (issue_all_cons c cs s0 (injected e c) (called s0)) by (by rewrite issue_eq).
  unfold mbind, M_bind. by rewrite E'.
Qed.

End Calls.

(** An operation of a disarmed decorator. *)
Lemma disarmed_op {S A} `{IChunkStore.Ops S} (m : M S A) (f : ChunkStoreError → A) s (o : outcome A) d' :
  disarmed s → m (delegate_ s) = (o, d') →
  (ApplyLatency;; fault ← ShouldInjectFault;
   match fault with Some e => mret (f e) | None => on_delegate m end) s = (o, set_delegate d' (called s)).
Proof.
  intros Hdis E. rewrite preliminaries, (disarmed_fault _ Hdis). unfold on_delegate, zoom. cbn. by rewrite E.
Qed.

(** A decorator with no fault pending is as good as the store it wraps:
    it keeps the contract of [IChunkStore], whatever latency is set. *)
Theorem disarmed_contract {S} `{HasRuntime S, IChunkStore.Ops S, Evp} (io_may_fail : Prop)
  (healthy : S → Prop) (view : S → store) :
  ChunkStoreContract S io_may_fail healthy view →
  ChunkStoreContract (t S) io_may_fail (λ s, healthy (delegate_ s) ∧ disarmed s) (λ s, view (delegate_ s)).
Proof.
  intros C. split; cbn.
  - intros r s. by rewrite healthy_runtime.
  - intros r s. apply view_runtime.
  - intros id data s [Hs Hdis] Hv. destruct (put_ok id data _ Hs Hv) as (r & d' & E & Hd' & Hc & Hspec).
    eexists r, _. split; [by apply (disarmed_op _ (λ e, Injected e)); [|exact E]|].
    split; [split; [done|by apply disarmed_called]|done].
  - intros id s [Hs Hdis] Hv. destruct (get_ok id _ Hs Hv) as (r & d' & E & Hd' & Hc & Hspec).
    eexists r, _. split; [by apply (disarmed_op _ (λ e, Injected e)); [|exact E]|].
    split; [split; [done|by apply disarmed_called]|done].
  - intros id s [Hs Hdis] Hv. destruct (verify_ok id _ Hs Hv) as (r & d' & E & Hd' & Hc & Hspec).
    eexists r, _. split; [by apply (disarmed_op _ (λ e, Injected e)); [|exact E]|].
    split; [split; [done|by apply disarmed_called]|done].
  - intros id s [Hs Hdis] Hv. destruct (delete_ok id _ Hs Hv) as (r & d' & E & Hd' & Hc & Hspec).
    eexists r, _. split; [by apply (disarmed_op _ (λ e, Injected e)); [|exact E]|].
    split; [split; [done|by apply disarmed_called]|done].
  - intros id s [Hs Hdis] Hv. destruct (exists_ok id _ Hs Hv) as (d' & E & Hd' & Hc & Hspec).
    eexists. split; [by apply (disarmed_op _ (λ e, false)); [|exact E]|].
    split; [split; [done|by apply disarmed_called]|done].
  - intros s [Hs Hdis]. destruct (stats_ok _ Hs) as (st & d' & E & Hd' & Hc & Hvw).
    eexists st, _. split; [by apply (disarmed_op _ (λ e, Stats 0 0 0)); [|exact E]|].
    split; [split; [done|by apply disarmed_called]|done].
  - intros s [Hs Hdis]. destruct (list_ok _ Hs) as (o & d' & E & Hd' & Hc & Hspec).
    eexists o, _. split; [by apply (disarmed_op _ (λ e, [])); [|exact E]|].
    split; [split; [done|by apply disarmed_called]|done].
Qed.

End FaultStore.

(** ** Witnesses: the decorator over the store on disk *)

Definition toy_ops : IChunkStore.Ops LocalDisk.Disk := @LocalDisk.ops toy_evp toy_good toy_uuid ["data"].

Definition faulty_disk : FaultStore.t LocalDisk.Disk := FaultStore.FaultInjectingChunkStore stored_disk.

Definition sample_calls : list FaultStore.call :=
  [FaultStore.CGet sample_chunk; FaultStore.CDelete sample_chunk; FaultStore.CExists sample_chunk;
   FaultStore.CPut sample_chunk sample_data].

Lemma calls_end {S A} (m : M S A) s o : (m s).1 = o → m s = (o, (m s).2).
Proof. intros <-. apply surjective_pairing. Qed.

Lemma fails_after_n_calls_witness :
  let d' := (@FaultStore.issue_all _ toy_ops (take 2 sample_calls) stored_disk).2 in
  ∃ s', (@FaultStore.InjectFailureAfterNCalls _ 2 IoError ≫=
         λ _, @FaultStore.issue_all _ (@FaultStore.ops _ toy_ops) sample_calls) faulty_disk =
      (Done [FaultStore.RData (Ok sample_data); FaultStore.RUnit (Ok tt); FaultStore.RBool false;
             FaultStore.RUnit (Err (Detail IoError "Injected Fault"))], s') ∧ FaultStore.delegate_ s' = d'.
Proof.
  intros d'.
  refine (@FaultStore.fails_after_n_calls _ toy_ops 2 IoError sample_calls faulty_disk
    [FaultStore.RData (Ok sample_data); FaultStore.RUnit (Ok tt)] d' eq_refl eq_refl (calls_end _ _ _ _)).
  vm_compute. reflexivity.
Defined.

Lemma one_shot_fault_witness :
  let d' := (@FaultStore.issue_all _ toy_ops [FaultStore.CGet sample_chunk] stored_disk).2 in
  ∃ s', (@FaultStore.InjectFailureOnNextCall _ CorruptionDetected ≫=
         λ _, @FaultStore.issue_all _ (@FaultStore.ops _ toy_ops)
                [FaultStore.CGet sample_chunk; FaultStore.CGet sample_chunk]) faulty_disk =
      (Done [FaultStore.RData (Err (Detail CorruptionDetected "Injected Fault"));
             FaultStore.RData (Ok sample_data)], s') ∧ FaultStore.delegate_ s' = d' ∧ FaultStore.disarmed s'.
Proof.
  intros d'.
  refine (@FaultStore.one_shot_fault _ toy_ops CorruptionDetected (FaultStore.CGet sample_chunk)
    [FaultStore.CGet sample_chunk] faulty_disk [FaultStore.RData (Ok sample_data)] d' eq_refl (calls_end _ _ _ _)).
  vm_compute. reflexivity.
Defined.

Lemma disarmed_contract_witness :
  @ChunkStoreContract (FaultStore.t LocalDisk.Disk) toy_evp _ (@FaultStore.ops _ toy_ops) (@io_fault toy_good)
    (λ s, healthy ["data"] (FaultStore.delegate_ s) ∧ FaultStore.disarmed s)
    (λ s, view ["data"] (FaultStore.delegate_ s)) ∧
  healthy ["data"] (FaultStore.delegate_ (FaultStore.FaultInjectingChunkStore fresh_disk)).
Proof.
  split; [|apply fresh_healthy].
  refine (@FaultStore.disarmed_contract _ _ toy_ops toy_evp _ _ _
    (@local_disk_contract toy_evp toy_good toy_uuid toy_evp_laws toy_uuid_laws ["data"] _)).
  by apply toy_reliable.
Defined.
