(* ===== verification/FaultThreads.v ===== *)
(** * The fault-injecting decorator under many threads

    Models [fault_injecting_chunk_store.cpp] as concurrent callers meet it: a
    call takes the mutex twice, to read the latency and to decide whether it
    fails, and then runs the delegate's operation without it; the controls of
    a test change the members in between. The delegate is any store given by
    its steps: the pool of threads on the disk store, or the atomic store. *)

From S2P Require Import Prelude Result Cxx Sha256 ChunkId Logger IChunkStore Posix LocalDisk DiskRules DiskLayout DiskEffects DiskTheorems DiskContract DiskSafety DiskDurability DiskCounters Programs Threads ThreadRules ThreadOps ThreadCoupling ThreadTheorems FaultStore.

Local Open Scope Z_scope.

Module FaultThreads.
Import FaultStore.

(** The members of the decorator but the delegate, which has its own state. *)
Abbreviation members := (FaultStore.t unit).

(** ** The controls *)

Inductive control :=
  | OnNextCall (e : ChunkStoreError)
  | AfterNCalls (n : Z) (e : ChunkStoreError)
  | WithLatency (latency : Z)
  | Clear.

Definition set_control (c : control) : M members unit :=
  match c with
  | OnNextCall e => InjectFailureOnNextCall e
  | AfterNCalls n e => InjectFailureAfterNCalls n e
  | WithLatency latency => InjectLatency latency
  | Clear => ClearInjectedFaults
  end.

(** ** One call, alone

    The reply of a call that is made to fail. *)
Definition injected_reply (e : ChunkStoreError) (q : request) : reply :=
  match q with
  | ReqPut _ _ | ReqVerify _ | ReqDelete _ => RepDone (Injected e)
  | ReqGet _ => RepData (Injected e)
  | ReqExists _ => RepBool false
  | ReqStats => RepStats (Stats 0 0 0)
  end.

(** An operation of any store as a request with its reply. *)
Definition request_op {S} `{IChunkStore.Ops S} (q : request) : M S reply :=
  match q with
  | ReqPut id data => r ← IChunkStore.Put id data; mret (RepDone r)
  | ReqGet id => r ← IChunkStore.Get id; mret (RepData r)
  | ReqVerify id => r ← IChunkStore.VerifyOnly id; mret (RepDone r)
  | ReqDelete id => r ← IChunkStore.Delete id; mret (RepDone r)
  | ReqExists id => b ← IChunkStore.Exists id; mret (RepBool b)
  | ReqStats => st ← IChunkStore.GetStats; mret (RepStats st)
  end.

(** The three stretches of a call: what the threads below take one by one. *)
Definition one_call {S} `{IChunkStore.Ops S} (q : request) : M (FaultStore.t S) reply :=
  ApplyLatency;;
  fault ← ShouldInjectFault;
  match fault with
  | Some e => mret (injected_reply e q)
  | None => on_delegate (request_op q)
  end.

Lemma call_reply {S A B} `{IChunkStore.Ops S} (m : M S A) (g : ChunkStoreError → A) (k : A → B) s :
  ((ApplyLatency;; fault ← ShouldInjectFault;
    match fault with Some e => mret (g e) | None => on_delegate m end) ≫= λ r, mret (k r)) s =
  (ApplyLatency;; fault ← ShouldInjectFault;
   match fault with Some e => mret (k (g e)) | None => on_delegate (r ← m; mret (k r)) end) s.
Proof.
  rewrite preliminaries. unfold mbind at 1, M_bind at 1. rewrite preliminaries. destruct (fault_of s); [done|].
  unfold on_delegate, zoom, mbind, M_bind. by destruct (m _) as [[] ?].
Qed.

Lemma one_call_alone {S} `{IChunkStore.Ops S} (q : request) : same_run (one_call q) (request_op (S:=FaultStore.t S) q).
Proof. intros s. symmetry. destruct q; apply call_reply. Qed.

(** ** Many calls *)

Inductive fevent :=
  | FCall (i : nat) (q : request)
  | FReturn (i : nat) (r : reply)
  | FControl (c : control).

(** Where a call stands: it has come in; it has slept; the delegate has it;
    its reply is known. *)
Inductive phase := Arrived (q : request) | Slept (q : request) | Delegated (q : request) | Replying (q : request) (r : reply).

(** A decision of [ShouldInjectFault], for the history. *)
Record decision := MkDecision { d_thread : nat; d_request : request; d_fault : option ChunkStoreError }.

Record FWorld (D : Type) := MkF {
  f_members : members;
  f_delegate : D;
  f_calls : gmap nat phase;
  f_decided : list decision      (** all decisions taken so far, in order *)
}.
Arguments MkF {D}.
Arguments f_members {D}.
Arguments f_delegate {D}.
Arguments f_calls {D}.
Arguments f_decided {D}.

Section Decorated.
Context `{Evp, Platform, UuidSource}.
Variable root : path.

#[local] Instance pool_client : Client := store_client root.

Section Steps.
Context {D : Type}.
Variable dstep : D → option event → D → Prop.
Variable up : D → Prop.       (** the machine has not crashed *)

Inductive fstep : FWorld D → option fevent → FWorld D → Prop :=
  | f_control c m m' d ps log :
      up d → set_control c m = (Done tt, m') →
      fstep (MkF m d ps log) (Some (FControl c)) (MkF m' d ps log)
  | f_call i q m d ps log :
      up d → ps !! i = None → request_valid q →
      fstep (MkF m d ps log) (Some (FCall i q)) (MkF m d (<[i := Arrived q]> ps) log)
  | f_latency i q m m' d ps log :
      up d → ps !! i = Some (Arrived q) → ApplyLatency m = (Done tt, m') →
      fstep (MkF m d ps log) None (MkF m' d (<[i := Slept q]> ps) log)
  | f_inject i q e m m' d ps log :
      up d → ps !! i = Some (Slept q) → ShouldInjectFault m = (Done (Some e), m') →
      fstep (MkF m d ps log) None
        (MkF m' d (<[i := Replying q (injected_reply e q)]> ps) (log ++ [MkDecision i q (Some e)]))
  | f_pass i q m m' d d' ps log :
      ps !! i = Some (Slept q) → ShouldInjectFault m = (Done None, m') → dstep d (Some (Call i q)) d' →
      fstep (MkF m d ps log) None (MkF m' d' (<[i := Delegated q]> ps) (log ++ [MkDecision i q None]))
  | f_inside m d d' ps log :
      dstep d None d' → fstep (MkF m d ps log) None (MkF m d' ps log)
  | f_back i q r m d d' ps log :
      ps !! i = Some (Delegated q) → dstep d (Some (Return i r)) d' →
      fstep (MkF m d ps log) None (MkF m d' (<[i := Replying q r]> ps) log)
  | f_return i q r m d ps log :
      up d → ps !! i = Some (Replying q r) →
      fstep (MkF m d ps log) (Some (FReturn i r)) (MkF m d (delete i ps) log).

(** A decorator that has just been put around a delegate. *)
Definition around (m : members) (d : D) : FWorld D := MkF m d ∅ [].

End Steps.

Arguments f_control {D dstep up}.
Arguments f_call {D dstep up}.
Arguments f_latency {D dstep up}.
Arguments f_inject {D dstep up}.
Arguments f_pass {D dstep up}.
Arguments f_inside {D dstep up}.
Arguments f_back {D dstep up}.
Arguments f_return {D dstep up}.

(** ** A delegate that refines another one *)

Section Refines.
Context {D A : Type}.
Variables (dstep : D → option event → D → Prop) (astep : A → option event → A → Prop) (up : D → Prop).
Variable R : D → A → Prop.
Hypothesis simulates : ∀ d l d' a, dstep d l d' → R d a → ∃ n a', runs astep n a (option_list l) a' ∧ R d' a'.

Abbreviation fsteps := (fstep dstep up).
Abbreviation asteps := (fstep astep (λ _, True)).

Record decorated (w : FWorld D) (a : FWorld A) : Prop := {
  dec_members : f_members a = f_members w;
  dec_calls : f_calls a = f_calls w;
  dec_decided : f_decided a = f_decided w;
  dec_delegate : R (f_delegate w) (f_delegate a)
}.

Lemma runs_inside n m a l a' ps log :
  runs astep n a l a' → l = [] → runs asteps n (MkF m a ps log) [] (MkF m a' ps log).
Proof.
  induction 1 as [a|n a tr a1 l a2 Hr IH Hs]; intros Hl; [constructor|].
  destruct l as [e|]; [by destruct tr|]. cbn in Hl. rewrite app_nil_r in Hl.
  apply (runs_snoc asteps n _ [] (MkF m a1 ps log) None); [by apply IH|by apply f_inside].
Qed.

(** One event of the delegate among its silent steps. *)
Lemma runs_around (m m' : members) n (a a' : A) e ps ps' log log' :
  runs astep n a [e] a' →
  (∀ a1 a2, astep a1 (Some e) a2 → asteps (MkF m a1 ps log) None (MkF m' a2 ps' log')) →
  ∃ k, runs asteps k (MkF m a ps log) [] (MkF m' a' ps' log').
Proof.
  intros Hr He. destruct (runs_event _ _ _ _ _ [] e [] Hr eq_refl) as (n1 & n2 & a1 & a2 & R1 & Hs & R2).
  exists (n2 + S n1)%nat. apply (runs_app asteps _ _ _ [] (MkF m' a2 ps' log') []).
  - apply (runs_snoc asteps n1 _ [] (MkF m a1 ps log) None); [by eapply runs_inside|by apply He].
  - by eapply runs_inside.
Qed.

Lemma runs_single w l w' : asteps w l w' → runs asteps 1 w (option_list l) w'.
Proof. intros Hs. exact (runs_snoc asteps 0 w [] w l w' (runs_nil _ _) Hs). Qed.

Lemma decorated_step w l w' a :
  fsteps w l w' → decorated w a → ∃ n a', runs asteps n a (option_list l) a' ∧ decorated w' a'.
Proof.
  destruct a as [am ad aps alog]. intros Hs [Hm Hp Hl Hd]. cbn in Hm, Hp, Hl, Hd. subst am aps alog.
  destruct Hs; cbn [f_members f_delegate f_calls f_decided] in *.
  - exists 1%nat, (MkF m' ad ps log). split; [by apply runs_single, f_control|done].
  - eexists 1%nat, _. split; [by apply runs_single, f_call|done].
  - eexists 1%nat, (MkF m' ad _ log). split; [apply (runs_single _ None); by apply f_latency|done].
  - eexists 1%nat, (MkF m' ad _ _). split; [apply (runs_single _ None); by eapply f_inject|done].
  - match goal with Hd' : dstep _ _ _ |- _ => destruct (simulates _ _ _ _ Hd' Hd) as (n & ad' & Hr & Hd2) end.
    destruct (runs_around m m' n ad ad' _ ps (<[i := Delegated q]> ps) log (log ++ [MkDecision i q None]) Hr)
      as [k Hk]; [intros a1 a2 Ha; by eapply f_pass|].
    by exists k, (MkF m' ad' (<[i := Delegated q]> ps) (log ++ [MkDecision i q None])).
  - match goal with Hd' : dstep _ _ _ |- _ => destruct (simulates _ _ _ _ Hd' Hd) as (n & ad' & Hr & Hd2) end.
    exists n, (MkF m ad' ps log). split; [by eapply runs_inside|done].
  - match goal with Hd' : dstep _ _ _ |- _ => destruct (simulates _ _ _ _ Hd' Hd) as (n & ad' & Hr & Hd2) end.
    destruct (runs_around m m n ad ad' _ ps (<[i := Replying q r]> ps) log log Hr)
      as [k Hk]; [intros a1 a2 Ha; by eapply f_back|].
    by exists k, (MkF m ad' (<[i := Replying q r]> ps) log).
  - eexists 1%nat, (MkF m ad (delete i ps) log). split; [by eapply runs_single, f_return|done].
Qed.

Lemma decorated_runs n w tr w' a :
  runs fsteps n w tr w' → decorated w a → ∃ k a', runs asteps k a tr a' ∧ decorated w' a'.
Proof.
  intros Hr. revert a. induction Hr as [w|n w tr w1 l w2 Hr IH Hs]; intros a Ha; [exists 0%nat, a; by split; [constructor|]|].
  destruct (IH a Ha) as (k1 & a1 & Hr1 & Ha1). destruct (decorated_step _ _ _ _ Hs Ha1) as (k2 & a2 & Hr2 & Ha2).
  exists (k2 + k1)%nat, a2. split; [by eapply runs_app|done].
Qed.

End Refines.

(** ** What the delegate sees, and what the callers are told *)

Section Delegate.
Context {D : Type}.
Variables (dstep : D → option event → D → Prop) (up : D → Prop).

Abbreviation fsteps := (fstep dstep up).

(** The calls the delegate gets: those that were not made to fail. *)
Definition passed (log : list decision) : list (nat * request) :=
  omap (λ x, match d_fault x with None => Some (d_thread x, d_request x) | Some _ => None end) log.

Definition calls_made (tr : list event) : list (nat * request) :=
  omap (λ e, match e with Call i q => Some (i, q) | _ => None end) tr.

Lemma passed_snoc log x :
  passed (log ++ [x]) = passed log ++ match d_fault x with None => [(d_thread x, d_request x)] | Some _ => [] end.
Proof. unfold passed. rewrite omap_app. cbn. by destruct (d_fault x). Qed.

Lemma calls_made_app tr tr' : calls_made (tr ++ tr') = calls_made tr ++ calls_made tr'.
Proof. unfold calls_made. by rewrite omap_app. Qed.

Definition latest (i : nat) (log : list decision) : option decision := last (filter (λ x, d_thread x = i) log).

Lemma latest_snoc i x log : latest i (log ++ [x]) = if decide (d_thread x = i) then Some x else latest i log.
Proof.
  unfold latest. rewrite filter_app, filter_cons, filter_nil. case_decide; [apply last_snoc|by rewrite app_nil_r].
Qed.

(** A reply is the injected error when that was decided for its call, and
    the delegate's otherwise. *)
Definition answered (dtr : list event) (log : list decision) (i : nat) (p : phase) : Prop :=
  match p with
  | Arrived _ | Slept _ => True
  | Delegated q => latest i log = Some (MkDecision i q None)
  | Replying q r => ∃ fault, latest i log = Some (MkDecision i q fault) ∧
      match fault with Some e => r = injected_reply e q | None => Return i r ∈ dtr end
  end.

Definition delegated (d0 : D) (w : FWorld D) : Prop :=
  ∃ n dtr, runs dstep n d0 dtr (f_delegate w) ∧ calls_made dtr = passed (f_decided w) ∧
    map_Forall (answered dtr (f_decided w)) (f_calls w).

Lemma answered_more dtr dtr' log i p : answered dtr log i p → answered (dtr ++ dtr') log i p.
Proof.
  destruct p as [q|q|q|q r]; try done. intros (fault & Hl & Hf). exists fault. split; [done|].
  destruct fault; [done|]. apply elem_of_app. by left.
Qed.

Lemma answered_other dtr log x i p : d_thread x ≠ i → answered dtr log i p → answered dtr (log ++ [x]) i p.
Proof. intros Hne. unfold answered. by rewrite latest_snoc, decide_False. Qed.

(** The others keep what they had when thread [j] decides. *)
Lemma answered_decide dtr log x j p (ps : gmap nat phase) :
  d_thread x = j → answered dtr (log ++ [x]) j p → map_Forall (answered dtr log) ps →
  map_Forall (answered dtr (log ++ [x])) (<[j := p]> ps).
Proof.
  intros Hx Hp Hall i p' [[<- <-]|[Hne Hi]]%lookup_insert_Some; [done|].
  apply answered_other; [congruence|by apply Hall].
Qed.

Lemma delegated_step d0 w l w' : fsteps w l w' → delegated d0 w → delegated d0 w'.
Proof.
  intros Hs (n & dtr & Hr & Hc & Ha). unfold delegated. destruct Hs; cbn [f_members f_delegate f_calls f_decided] in *.
  - by exists n, dtr.
  - exists n, dtr. split_and!; [done|done|]. by apply map_Forall_insert_2.
  - exists n, dtr. split_and!; [done|done|]. by apply map_Forall_insert_2.
  - exists n, dtr. split_and!; [done|by rewrite passed_snoc, app_nil_r|].
    apply answered_decide; [done| |done]. exists (Some e). by rewrite latest_snoc, decide_True.
  - exists (S n), (dtr ++ option_list (Some (@Call pool_client i q))). split_and!.
    + by eapply runs_snoc.
    + by rewrite calls_made_app, passed_snoc, Hc.
    + apply answered_decide; [done| |by intros j p Hj; apply answered_more, Ha]. cbn. by rewrite latest_snoc, decide_True.
  - exists (S n), (dtr ++ option_list None). rewrite app_nil_r. split_and!; [|done|done].
    rewrite <- (app_nil_r dtr). by apply (runs_snoc dstep n d0 dtr d None d').
  - exists (S n), (dtr ++ option_list (Some (@Return pool_client i r))). split_and!.
    + by eapply runs_snoc.
    + by rewrite calls_made_app, app_nil_r.
    + apply map_Forall_insert_2; [|by intros j p Hj; apply answered_more, Ha].
      exists None. split; [by apply (Ha i (Delegated q))|]. apply elem_of_app. right. by left.
  - exists n, dtr. split_and!; [done|done|]. by apply map_Forall_delete.
Qed.

Lemma delegated_runs m d n tr w : runs fsteps n (around m d) tr w → delegated d w.
Proof.
  intros Hr. apply (runs_keep fsteps (delegated d) (λ _, True) n (around m d) tr w); [|done|by apply Forall_true|].
  - intros w1 l w2 Hw _ Hs. by eapply delegated_step.
  - exists 0%nat, []. split_and!; [constructor|done|apply map_Forall_empty].
Qed.

(** ** Which calls fail *)

Definition counted (m : members) : members :=
  Mk (delegate_ m) None (pending_nth_call_fault_ m) (wrap64 (call_counter_ m + 1)) (pending_latency_ m) (slept m).

Lemma should_inject m : ShouldInjectFault m = (Done (fault_of m), counted m).
Proof.
  unfold ShouldInjectFault, state, fault_of, counted. destruct m as [d [e|] [[n e']|] c l sl]; cbn; try done. by case_match.
Qed.

(** The decisions so far, and what the members remember of them. *)
Definition no_control (e : fevent) : Prop := match e with FControl _ => False | _ => True end.

Lemma decisions_run (P : members → list decision → Prop) m d n tr w :
  (∀ m m' log, P m log → ApplyLatency m = (Done tt, m') → P m' log) →
  (∀ m i q log, P m log → P (counted m) (log ++ [MkDecision i q (fault_of m)])) →
  P m [] → runs fsteps n (around m d) tr w → Forall no_control tr → P (f_members w) (f_decided w).
Proof.
  intros Hlat Hdec Hstart Hr Hall.
  apply (runs_keep fsteps (λ w, P (f_members w) (f_decided w)) no_control n (around m d) tr w); try done.
  intros w1 l w2 Hw Hl Hs.
  destruct Hs; cbn [f_members f_delegate f_calls f_decided] in *; try done; try (by eapply Hlat).
  - by destruct (Hl _ eq_refl).
  - match goal with Hf : ShouldInjectFault _ = _ |- _ => rewrite should_inject in Hf; injection Hf as Hf <-; rewrite <- Hf end.
    by apply Hdec.
  - match goal with Hf : ShouldInjectFault _ = _ |- _ => rewrite should_inject in Hf; injection Hf as Hf <-; rewrite <- Hf end.
    by apply Hdec.
Qed.

Lemma ApplyLatency_members (m m' : members) : ApplyLatency m = (Done tt, m') →
  pending_one_shot_fault_ m' = pending_one_shot_fault_ m ∧ pending_nth_call_fault_ m' = pending_nth_call_fault_ m ∧
  call_counter_ m' = call_counter_ m.
Proof. unfold ApplyLatency, modify. intros [= <-]. by destruct (_ <? _). Qed.

(** The fault of the [j]-th call to reach its decision (from 0). *)
Definition after_n (n : Z) (e : ChunkStoreError) (j : nat) : option ChunkStoreError :=
  if n <? wrap64 (Z.of_nat j + 1) then Some e else None.

Definition all_as (f : nat → option ChunkStoreError) (log : list decision) : Prop :=
  ∀ j x, log !! j = Some x → d_fault x = f j.

Lemma all_as_snoc f log x : all_as f log → d_fault x = f (length log) → all_as f (log ++ [x]).
Proof.
  intros Hall Hx j y Hj. apply lookup_snoc_Some in Hj as [[_ Hj]|[-> <-]]; [by apply Hall|done].
Qed.

Lemma after_n_run n e m d k tr w :
  pending_one_shot_fault_ m = None → pending_nth_call_fault_ m = Some (n, e) → call_counter_ m = 0 →
  runs fsteps k (around m d) tr w → Forall no_control tr → all_as (after_n n e) (f_decided w).
Proof.
  intros Hone Hnth Hcnt Hr Hno.
  apply (decisions_run (λ m log, (pending_one_shot_fault_ m = None ∧ pending_nth_call_fault_ m = Some (n, e)) ∧
    call_counter_ m = wrap64 (Z.of_nat (length log)) ∧ all_as (after_n n e) log) m d k tr w); [| | |done|done].
  - intros m1 m2 log HP (E1 & E2 & E3)%ApplyLatency_members. by rewrite E1, E2, E3.
  - intros m1 i q log ((E1 & E2) & E3 & Hall).
    assert (wrap64 (call_counter_ m1 + 1) = wrap64 (Z.of_nat (length log) + 1)) as Hc by (by rewrite E3, wrap64_add).
    split; [done|]. split.
    + cbn. rewrite Hc, length_app. f_equal. cbn. lia.
    + apply all_as_snoc; [done|]. cbn. unfold fault_of, after_n. by rewrite E1, E2, Hc.
  - split; [done|]. by split.
Qed.

(** Only the first decision meets a one-shot fault. *)
Definition one_shot (e : ChunkStoreError) (j : nat) : option ChunkStoreError :=
  match j with O => Some e | S _ => None end.

Lemma one_shot_run e m d k tr w :
  pending_one_shot_fault_ m = Some e → pending_nth_call_fault_ m = None →
  runs fsteps k (around m d) tr w → Forall no_control tr → all_as (one_shot e) (f_decided w).
Proof.
  intros Hone Hnth Hr Hno.
  apply (decisions_run (λ m log, pending_nth_call_fault_ m = None ∧
    pending_one_shot_fault_ m = one_shot e (length log) ∧ all_as (one_shot e) log) m d k tr w); [| | |done|done].
  - intros m1 m2 log HP (E1 & E2 & E3)%ApplyLatency_members. by rewrite E1, E2.
  - intros m1 i q log (E2 & E1 & Hall). split; [done|]. split; [by rewrite length_app, Nat.add_comm|].
    apply all_as_snoc; [done|]. cbn. unfold fault_of. rewrite E1, E2. by destruct (length log).
  - by split.
Qed.

Lemma disarmed_run m d k tr w :
  disarmed m → runs fsteps k (around m d) tr w → Forall no_control tr → all_as (λ _, None) (f_decided w).
Proof.
  intros Hm Hr Hno.
  apply (decisions_run (λ m log, disarmed m ∧ all_as (λ _, None) log) m d k tr w); [| | |done|done].
  - intros m1 m2 log HP (E1 & E2 & E3)%ApplyLatency_members. unfold disarmed. by rewrite E1, E2.
  - intros m1 i q log [Hd Hall]. split; [by destruct Hd|]. apply all_as_snoc; [done|]. by apply disarmed_fault.
  - by split.
Qed.

(** C32: Which calls fail, in every interleaving of any number of calls and
    until the next control: after [InjectFailureAfterNCalls], when no one-shot
    fault was armed, exactly those whose number, counted modulo 2^64 in the
    order in which the calls reach their decision, is beyond [n]; after
    [InjectFailureOnNextCall], when no fault after [n] calls was armed, the
    first one to get there and no other; after [ClearInjectedFaults] none, and
    none when only the latency was set and nothing was armed. The delegate
    gets exactly the calls that do not fail (a call counts as the delegate's
    from its decision on; its first action there may come at any time later),
    and every reply is the injected error for a call that was to fail and the
    delegate's own reply for any other. *)
Theorem faults_hit_exactly (c : control) (m : members) (d : D) (k : nat) (tr : list fevent) (w : FWorld D) :
  runs fsteps k (around (set_control c m).2 d) tr w → Forall no_control tr →
  delegated d w ∧
  match c with
  | AfterNCalls n e => pending_one_shot_fault_ m = None → all_as (after_n n e) (f_decided w)
  | OnNextCall e => pending_nth_call_fault_ m = None → all_as (one_shot e) (f_decided w)
  | Clear => all_as (λ _, None) (f_decided w)
  | WithLatency _ => disarmed m → all_as (λ _, None) (f_decided w)
  end.
Proof.
  intros Hr Hno. split; [by eapply delegated_runs|].
  destruct c as [e|n e|latency|]; [intros Hm|intros Hm|intros Hm|].
  - exact (one_shot_run e (set_control (OnNextCall e) m).2 d k tr w eq_refl Hm Hr Hno).
  - exact (after_n_run n e (set_control (AfterNCalls n e) m).2 d k tr w Hm eq_refl eq_refl Hr Hno).
  - exact (disarmed_run (set_control (WithLatency latency) m).2 d k tr w Hm Hr Hno).
  - exact (disarmed_run (set_control Clear m).2 d k tr w (conj eq_refl eq_refl) Hr Hno).
Qed.

End Delegate.

(** ** A scheduler for the decorated disk store *)

Inductive fchoice := FInvoke (i : nat) (q : request) | FSet (c : control) | FGo (i : nat).

Definition request_of (p : phase) : request :=
  match p with Arrived q | Slept q | Delegated q | Replying q _ => q end.

Definition fgo (i : nat) (p : phase) (w : FWorld World) : option (option fevent * FWorld World) :=
  let '(MkF m d ps log) := w in
  match p with
  | Arrived q => Some (None, MkF (ApplyLatency m).2 d (<[i := Slept q]> ps) log)
  | Slept q =>
      match fault_of m with
      | Some e => Some (None, MkF (counted m) d (<[i := Replying q (injected_reply e q)]> ps) (log ++ [MkDecision i q (Some e)]))
      | None =>
          match advance (Invoke i q "") d with
          | Some (_, d') => Some (None, MkF (counted m) d' (<[i := Delegated q]> ps) (log ++ [MkDecision i q None]))
          | None => None
          end
      end
  | Delegated q =>
      match advance (GoOn i) d with
      | Some (None, d') => Some (None, MkF m d' ps log)
      | Some (Some (Return j r), d') => if decide (j = i) then Some (None, MkF m d' (<[i := Replying q r]> ps) log) else None
      | _ => None
      end
  | Replying q r => Some (Some (FReturn i r), MkF m d (delete i ps) log)
  end.

Definition fadvance (c : fchoice) (w : FWorld World) : option (option fevent * FWorld World) :=
  let '(MkF m d ps log) := w in
  if negb (alive d) then None else
  match c with
  | FSet c => Some (Some (FControl c), MkF (set_control c m).2 d ps log)
  | FInvoke i q =>
      match ps !! i with
      | None => Some (Some (FCall i q), MkF m d (<[i := Arrived q]> ps) log)
      | Some _ => None
      end
  | FGo i => match ps !! i with Some p => fgo i p w | None => None end
  end.

Fixpoint fexec (cs : list fchoice) (n : nat) (tr : list fevent) (w : FWorld World) : nat * list fevent * FWorld World :=
  match cs with
  | [] => (n, tr, w)
  | c :: cs =>
      match fadvance c w with
      | Some (l, w') => fexec cs (S n) (tr ++ option_list l) w'
      | None => fexec cs n tr w
      end
  end.

#[local] Abbreviation decorated_pool := (fstep step (λ w, alive w = true)).

Definition fvalid (w : FWorld World) : Prop := map_Forall (λ _ p, request_valid (request_of p)) (f_calls w).

Definition fchoice_valid (c : fchoice) : Prop := match c with FInvoke _ q => request_valid q | _ => True end.

Lemma fgo_step i p w l w' :
  alive (f_delegate w) = true → fvalid w → f_calls w !! i = Some p → fgo i p w = Some (l, w') →
  decorated_pool w l w' ∧ fvalid w'.
Proof.
  destruct w as [m d ps log]. unfold fvalid. cbn. intros Hup Hv Hi.
  assert (∀ p', request_of p' = request_of p → map_Forall (λ _ p, request_valid (request_of p)) (<[i := p']> ps)) as Hput.
  { intros p' Hp'. apply map_Forall_insert_2; [|done]. rewrite Hp'. by apply (Hv i). }
  destruct p as [q|q|q|q r].
  - intros [= <- <-]. split; [by apply f_latency|by apply Hput].
  - pose proof (should_inject m) as Hs. destruct (fault_of m) as [e|].
    + intros [= <- <-]. split; [by eapply f_inject|by apply Hput].
    + destruct (advance _ d) as [[l' d']|] eqn:E; [|done]. intros [= <- <-]. split; [|by apply Hput].
      assert (l' = Some (@Call pool_client i q)) as ->.
      { unfold advance in E. rewrite Hup in E. cbn in E. destruct (threads d !! i); [done|]. by injection E. }
      eapply f_pass; [done|done|]. refine (advance_step _ _ _ _ _ E). exact (Hv i _ Hi).
  - destruct (advance _ d) as [[[[j q'|j r|j]|] d']|] eqn:E; try done.
    + case_decide; [|done]. subst j. intros [= <- <-]. split; [|by apply Hput].
      eapply f_back; [done|]. by refine (advance_step _ _ _ _ _ E).
    + intros [= <- <-]. split; [|done]. apply f_inside. by refine (advance_step _ _ _ _ _ E).
  - intros [= <- <-]. split; [by eapply f_return|by apply map_Forall_delete].
Qed.

Lemma fadvance_step c w l w' :
  fchoice_valid c → fvalid w → fadvance c w = Some (l, w') → decorated_pool w l w' ∧ fvalid w'.
Proof.
  destruct w as [m d ps log]. intros Hc Hv. cbn. destruct (alive d) eqn:Hup; [|done]. cbn. destruct c as [i q|c|i].
  - destruct (ps !! i) as [p|] eqn:Hi; [done|]. intros [= <- <-]. split; [by apply f_call|by apply map_Forall_insert_2].
  - intros [= <- <-]. split; [apply f_control; [done|by destruct c]|done].
  - destruct (ps !! i) as [p|] eqn:Hi; [|done]. intros E. exact (fgo_step i p (MkF m d ps log) l w' Hup Hv Hi E).
Qed.

Lemma fexec_runs cs n tr w0 w :
  Forall fchoice_valid cs → fvalid w → runs decorated_pool n w0 tr w →
  let '(n', tr', w') := fexec cs n tr w in runs decorated_pool n' w0 tr' w'.
Proof.
  revert n tr w. induction cs as [|c cs IH]; intros n tr w Hall Hv Hr; [done|].
  apply Forall_cons in Hall as [Hc Hall]. cbn [fexec]. destruct (fadvance c w) as [[l w']|] eqn:E; [|by apply IH].
  destruct (fadvance_step c w l w' Hc Hv E) as [Hs Hv']. apply IH; [done|done|]. by eapply runs_snoc.
Qed.

(** ** The decorated disk store *)

#[local] Abbreviation decorated_atomic := (fstep (atomic_step io_fault) (λ _, True)).

(** Under the decorator the pool may be replaced by the atomic store: same
    calls, replies, controls, decisions, members and chunks. *)
Lemma decorated_over_atomic `{!EvpLaws, !UuidLaws} (s : LocalDisk.Disk) (m : members) (n : nat) (tr : list fevent)
  (w : FWorld World) :
  fair → idle root s → runs decorated_pool n (around m (MkWorld s ∅ true)) tr w →
  ∃ k a, runs decorated_atomic k (around m (MkAtomic (view root s) ∅)) tr a ∧
    f_members a = f_members w ∧ f_decided a = f_decided w ∧ f_calls a = f_calls w ∧
    contents (f_delegate a) = view root (disk (f_delegate w)).
Proof.
  intros Hfair Hs Hr.
  assert (∀ d l d' a, step d l d' → plainly_related root s d a →
    ∃ n a', runs (atomic_step io_fault) n a (option_list l) a' ∧ plainly_related root s d' a') as Hsim.
  { intros d l d' a Hd Ha. by eapply (step_plainly_related root Hfair (store_client_safe root Hfair) s). }
  destruct (decorated_runs step (atomic_step io_fault) (λ w, alive w = true) (plainly_related root s) Hsim n _ tr w
    (around m (MkAtomic (view root s) ∅)) Hr) as (k & a & Ha & [Hm Hc Hd Hrel]).
  - split; [done..|]. by apply idle_plainly_related.
  - exists k, a. split_and!; try done. by eapply related_view, Hrel.
Qed.

End Decorated.

(** ** Concrete runs *)

Section Examples.

#[local] Existing Instance toy_evp.
#[local] Existing Instance toy_uuid.
#[local] Existing Instance toy_good.
#[local] Existing Instance toy_evp_laws.
#[local] Existing Instance toy_uuid_laws.
#[local] Instance example_pool : Client := store_client ["data"].

Definition fresh_members : members := FaultInjectingChunkStore tt.

Definition run_from (m : members) (cs : list fchoice) : nat * list fevent * FWorld World :=
  fexec ["data"] cs 0 [] (around m (MkWorld fresh_disk ∅ true)).

Lemma run_from_runs m cs : Forall fchoice_valid cs →
  runs (fstep ["data"] step (λ w, alive w = true)) (run_from m cs).1.1 (around m (MkWorld fresh_disk ∅ true)) (run_from m cs).1.2
    (run_from m cs).2.
Proof.
  intros Hv. pose proof (fexec_runs ["data"] cs 0 [] _ (around m (MkWorld fresh_disk ∅ true)) Hv
    (map_Forall_empty _) (runs_nil _ _)) as Hr.
  fold (run_from m cs) in Hr. by destruct (run_from m cs) as [[n tr] w].
Qed.

(** A [Put] and a [Get] in turn; the [Put] came first, but the [Get] is the
    first to decide. *)
Definition overtaken : list fchoice :=
  [FInvoke 1 (ReqPut sample_chunk sample_data); FInvoke 2 (ReqGet sample_chunk); FGo 1; FGo 2; FGo 2] ++
  concat (repeat [FGo 1; FGo 2] 12).

Lemma overtaken_valid : Forall fchoice_valid overtaken.
Proof.
  unfold overtaken. repeat first [apply Forall_app; split|apply Forall_cons; split|apply Forall_nil; exact I];
    first [exact I|exact sample_chunk_valid].
Qed.

Definition after_one : control := AfterNCalls 1 IoError.

Lemma faults_hit_exactly_witness :
  let r := run_from (set_control after_one fresh_members).2 overtaken in
  r.1.2 = [FCall 1 (ReqPut sample_chunk sample_data); FCall 2 (ReqGet sample_chunk);
           FReturn 1 (RepDone (Injected IoError));
           FReturn 2 (RepData (Err (Detail NotFound "Chunk file not found or inaccessible")))] ∧
  f_decided r.2 = [MkDecision 2 (ReqGet sample_chunk) None; MkDecision 1 (ReqPut sample_chunk sample_data) (Some IoError)] ∧
  all_as (after_n 1 IoError) (f_decided r.2).
Proof.
  intros r. assert (r.1.2 = [FCall 1 (ReqPut sample_chunk sample_data); FCall 2 (ReqGet sample_chunk);
    FReturn 1 (RepDone (Injected IoError));
    FReturn 2 (RepData (Err (Detail NotFound "Chunk file not found or inaccessible")))]) as E by (by vm_compute).
  split; [exact E|]. split; [by vm_compute|].
  apply (proj2 (faults_hit_exactly ["data"] step (λ w, alive w = true) after_one fresh_members (MkWorld fresh_disk ∅ true)
    _ _ _ (run_from_runs _ overtaken overtaken_valid) ltac:(fold r; rewrite E; by repeat constructor)) eq_refl).
Defined.

End Examples.

End FaultThreads.
