(* ===== verification/FaultHistory.v ===== *)
(** * What the fault-injecting decorator promises

    A description of the decorator that knows nothing of its members: only the
    history of what a test told it and what it decided since, newest first.
    From the history alone follow the fault of the next call and its delay.
    Around the atomic store this is the abstract specification of
    [fault_injecting_chunk_store.cpp] over [local_disk_chunk_store.cpp], and
    the decorated disk store, with its members, its mutex taken twice by a
    call, and the threads underneath, refines it. *)

From S2P Require Import Prelude Result Cxx Sha256 ChunkId Logger IChunkStore Posix LocalDisk DiskRules DiskLayout DiskEffects DiskTheorems DiskContract DiskSafety DiskDurability DiskCounters Programs Threads ThreadRules ThreadOps ThreadCoupling ThreadTheorems FaultStore FaultThreads.

Local Open Scope Z_scope.

Module FaultHistory.
Import FaultStore FaultThreads.

(** ** Histories *)

(** A control was called; a call was decided; a call slept. *)
Inductive happening :=
  | Told (c : control)
  | Decided (x : decision)
  | Waited (l : Z).

(** A one-shot fault is due from [InjectFailureOnNextCall] until the next
    decision, unless the faults were cleared. *)
Fixpoint one_shot_due (h : list happening) : option ChunkStoreError :=
  match h with
  | [] => None
  | Told (OnNextCall e) :: _ => Some e
  | Told Clear :: _ => None
  | Decided _ :: _ => None
  | _ :: h => one_shot_due h
  end.

(** The last [InjectFailureAfterNCalls] that was not cleared, and the number
    of decisions since. *)
Fixpoint after_n_due (h : list happening) : option (Z * ChunkStoreError * nat) :=
  match h with
  | [] => None
  | Told (AfterNCalls n e) :: _ => Some (n, e, 0%nat)
  | Told Clear :: _ => None
  | Decided _ :: h => (λ '(n, e, k), (n, e, S k)) <$> after_n_due h
  | _ :: h => after_n_due h
  end.

(** The fault of the call that is decided next. A one-shot fault comes first;
    the other hits every call after the first [n], which a 64-bit counter
    counts. *)
Definition fault_due (h : list happening) : option ChunkStoreError :=
  match one_shot_due h, after_n_due h with
  | Some e, _ => Some e
  | None, Some (n, e, k) => if n <? (Z.of_nat k + 1) mod 2 ^ 64 then Some e else None
  | None, None => None
  end.

(** How long a call that comes in now sleeps. *)
Fixpoint latency_due (h : list happening) : Z :=
  match h with
  | [] => 0
  | Told (WithLatency l) :: _ => l
  | Told Clear :: _ => 0
  | _ :: h => latency_due h
  end.

Definition after_sleep (h : list happening) : list happening :=
  if 0 <? latency_due h then Waited (latency_due h) :: h else h.

(** The decisions and the sleeps of a history, in the order of time. *)
Definition decisions (h : list happening) : list decision :=
  omap (λ x, match x with Decided x => Some x | _ => None end) (reverse h).

Definition sleeps (h : list happening) : list Z :=
  omap (λ x, match x with Waited l => Some l | _ => None end) (reverse h).

(** The reply to a call that is made to fail. *)
Definition refusal (e : ChunkStoreError) (q : request) : reply :=
  match q with
  | ReqPut _ _ | ReqVerify _ | ReqDelete _ => RepDone (Err (Detail e "Injected Fault"))
  | ReqGet _ => RepData (Err (Detail e "Injected Fault"))
  | ReqExists _ => RepBool false
  | ReqStats => RepStats (Stats 0 0 0)
  end.

(** ** The specification *)

Section Spec.
Context `{Evp, Platform, UuidSource}.
Variable root : path.

#[local] Instance pool_client : Client := store_client root.

Record Described (A : Type) := MkDescribed { history : list happening; described : A; calling : gmap nat phase }.
Arguments MkDescribed {A}.
Arguments history {A}.
Arguments described {A}.
Arguments calling {A}.

Section Steps.
Context {A : Type}.
Variable astep : A → option event → A → Prop.

(** A call comes in, sleeps for what was set when it looked, is decided, and
    fails or is the store's. *)
Inductive spec_step : Described A → option fevent → Described A → Prop :=
  | spec_control c h a ps :
      spec_step (MkDescribed h a ps) (Some (FControl c)) (MkDescribed (Told c :: h) a ps)
  | spec_call i q h a ps :
      ps !! i = None → request_valid q →
      spec_step (MkDescribed h a ps) (Some (FCall i q)) (MkDescribed h a (<[i := Arrived q]> ps))
  | spec_sleep i q h a ps :
      ps !! i = Some (Arrived q) →
      spec_step (MkDescribed h a ps) None (MkDescribed (after_sleep h) a (<[i := Slept q]> ps))
  | spec_refuse i q e h a ps :
      ps !! i = Some (Slept q) → fault_due h = Some e →
      spec_step (MkDescribed h a ps) None
        (MkDescribed (Decided (MkDecision i q (Some e)) :: h) a (<[i := Replying q (refusal e q)]> ps))
  | spec_admit i q h a a' ps :
      ps !! i = Some (Slept q) → fault_due h = None → astep a (Some (Call i q)) a' →
      spec_step (MkDescribed h a ps) None
        (MkDescribed (Decided (MkDecision i q None) :: h) a' (<[i := Delegated q]> ps))
  | spec_inside h a a' ps :
      astep a None a' → spec_step (MkDescribed h a ps) None (MkDescribed h a' ps)
  | spec_back i q r h a a' ps :
      ps !! i = Some (Delegated q) → astep a (Some (Return i r)) a' →
      spec_step (MkDescribed h a ps) None (MkDescribed h a' (<[i := Replying q r]> ps))
  | spec_return i q r h a ps :
      ps !! i = Some (Replying q r) →
      spec_step (MkDescribed h a ps) (Some (FReturn i r)) (MkDescribed h a (delete i ps)).

End Steps.

(** ** The members know what the history tells *)

Record remembers (m : members) (h : list happening) : Prop := {
  rem_one_shot : pending_one_shot_fault_ m = one_shot_due h;
  rem_after_n :
    match after_n_due h with
    | Some (n, e, k) => pending_nth_call_fault_ m = Some (n, e) ∧ call_counter_ m = wrap64 (Z.of_nat k)
    | None => pending_nth_call_fault_ m = None
    end;
  rem_latency : pending_latency_ m = latency_due h;
  rem_slept : slept m = sleeps h
}.

Lemma decisions_cons x h :
  decisions (x :: h) = decisions h ++ match x with Decided x => [x] | _ => [] end.
Proof. unfold decisions. rewrite reverse_cons, omap_app. by destruct x. Qed.

Lemma sleeps_cons x h : sleeps (x :: h) = sleeps h ++ match x with Waited l => [l] | _ => [] end.
Proof. unfold sleeps. rewrite reverse_cons, omap_app. by destruct x. Qed.

Lemma decisions_after_sleep h : decisions (after_sleep h) = decisions h.
Proof. unfold after_sleep. case_match; [by rewrite decisions_cons, app_nil_r|done]. Qed.

Lemma remembers_new : remembers (FaultInjectingChunkStore tt) [].
Proof. done. Qed.

Lemma remembers_control c m m' h : set_control c m = (Done tt, m') → remembers m h → remembers m' (Told c :: h).
Proof.
  intros E [Hone Hnth Hlat Hsl]. destruct c; injection E as <-; split; rewrite ?sleeps_cons, ?app_nil_r; done.
Qed.

Lemma remembers_sleep m m' h : ApplyLatency m = (Done tt, m') → remembers m h → remembers m' (after_sleep h).
Proof.
  intros E [Hone Hnth Hlat Hsl]. unfold after_sleep. unfold ApplyLatency, modify in E. injection E as <-. rewrite <- Hlat.
  destruct (0 <? pending_latency_ m); [|done]. split; try done. by rewrite sleeps_cons, <- Hsl.
Qed.

Lemma remembers_fault m h : remembers m h → fault_of m = fault_due h.
Proof.
  intros [Hone Hnth _ _]. unfold fault_of, fault_due. rewrite Hone. destruct (one_shot_due h); [done|].
  destruct (after_n_due h) as [[[n e] k]|]; [|by rewrite Hnth]. destruct Hnth as [-> ->]. by rewrite wrap64_add.
Qed.

Lemma remembers_decision m h x : remembers m h → remembers (counted m) (Decided x :: h).
Proof.
  intros [Hone Hnth Hlat Hsl]. split; [done| |done|by rewrite sleeps_cons, app_nil_r].
  cbn. destruct (after_n_due h) as [[[n e] k]|]; cbn; [|done]. destruct Hnth as [-> ->]. split; [done|].
  rewrite wrap64_add. f_equal. lia.
Qed.

Lemma refusal_injected e q : injected_reply e q = refusal e q.
Proof. by destruct q. Qed.

(** ** Refinement *)

Section Refines.
Context {A : Type}.
Variable astep : A → option event → A → Prop.

Record agrees (w : FWorld A) (x : Described A) : Prop := {
  agrees_members : remembers (f_members w) (history x);
  agrees_decided : decisions (history x) = f_decided w;
  agrees_store : described x = f_delegate w;
  agrees_calls : calling x = f_calls w
}.

#[local] Ltac fields := cbn [history described calling f_members f_delegate f_calls f_decided].

Lemma step_agrees w l w' x :
  fstep root astep (λ _, True) w l w' → agrees w x → ∃ x', spec_step astep x l x' ∧ agrees w' x'.
Proof.
  destruct x as [h a0 ps0]. intros Hs [Hm Hd Ha Hc]. cbn [history described calling] in *. subst a0 ps0.
  destruct Hs; cbn [f_members f_delegate f_calls f_decided] in *;
    try match goal with Hf : ShouldInjectFault _ = _ |- _ =>
      rewrite should_inject, (remembers_fault _ _ Hm) in Hf; injection Hf as Hf <- end.
  - eexists. split; [by apply spec_control|]. split; fields; [by eapply remembers_control|by rewrite decisions_cons, app_nil_r|done..].
  - eexists. split; [by apply spec_call|]. by split; fields.
  - eexists. split; [by apply spec_sleep|]. split; fields; [by eapply remembers_sleep|by rewrite decisions_after_sleep|done..].
  - eexists. split; [by eapply spec_refuse|].
    split; fields; [by apply remembers_decision|by rewrite decisions_cons, Hd|done|by rewrite (refusal_injected e q)].
  - eexists. split; [by eapply spec_admit|]. split; fields; [by apply remembers_decision|by rewrite decisions_cons, Hd|done..].
  - eexists. split; [by apply spec_inside|]. by split; fields.
  - eexists. split; [by eapply spec_back|]. by split; fields.
  - eexists. split; [by eapply spec_return|]. by split; fields.
Qed.

Lemma runs_agree n w tr w' x :
  runs (fstep root astep (λ _, True)) n w tr w' → agrees w x → ∃ x', runs (spec_step astep) n x tr x' ∧ agrees w' x'.
Proof.
  intros Hr. revert x. induction Hr as [w|n w tr w1 l w2 Hr IH Hs]; intros x Hx; [exists x; by split; [constructor|]|].
  destruct (IH x Hx) as (x1 & Hr1 & Hx1). destruct (step_agrees _ _ _ _ Hs Hx1) as (x2 & Hs2 & Hx2).
  exists x2. split; [by eapply runs_snoc|done].
Qed.

End Refines.

#[local] Abbreviation decorated_pool := (fstep root step (λ w, alive w = true)).

(** C31: The decorated disk store, made as the constructor makes it, refines
    its description: any interleaving of calls, controls and actions of the
    threads on the disk store underneath has the calls, replies and controls
    of the description over the atomic store. There a call sleeps for the
    latency that was told last and not cleared since; fails, at one instant,
    exactly when a one-shot fault was told and neither met nor cleared since,
    or [n] calls were decided since a fault after [n] calls was told (a 64-bit
    count), with the error that was told and without reaching the store; and
    otherwise takes effect on the store at one instant. The decisions and
    sleeps of the history are those of the run, and the chunks on disk those
    of the atomic store. Failing system calls and a crash may come anywhere,
    but the status queries [exists] and [file_size] must not fail (the store
    takes that for a missing file), nor the mutex report the relock of [Put]
    as an error. *)
Theorem decorated_store_linearizable `{!EvpLaws, !UuidLaws} (s : LocalDisk.Disk) (n : nat) (tr : list fevent) (w : FWorld World) :
  fair → idle root s →
  runs decorated_pool n (around (FaultInjectingChunkStore tt) (MkWorld s ∅ true)) tr w →
  ∃ k x, runs (spec_step (atomic_step io_fault)) k (MkDescribed [] (MkAtomic (view root s) ∅) ∅) tr x ∧
    decisions (history x) = f_decided w ∧ sleeps (history x) = slept (f_members w) ∧ calling x = f_calls w ∧
    contents (described x) = view root (disk (f_delegate w)).
Proof.
  intros Hfair Hs Hr.
  destruct (decorated_over_atomic root s _ n tr w Hfair Hs Hr) as (k & a & Ha & Hm & Hd & Hc & Hv).
  destruct (runs_agree (atomic_step io_fault) k _ tr a (MkDescribed [] (MkAtomic (view root s) ∅) ∅) Ha) as (x & Hx & Hagree);
    [by split|].
  exists k, x. split; [done|]. destruct Hagree as [Hrem Hdec Hst Hcall]. split_and!.
  - by rewrite Hdec.
  - transitivity (slept (f_members a)); [symmetry; apply Hrem|exact (f_equal slept Hm)].
  - by rewrite Hcall.
  - by rewrite Hst.
Qed.

End Spec.

Arguments MkDescribed {A}.
Arguments history {A}.
Arguments described {A}.
Arguments calling {A}.

(** ** A concrete run *)

Section Examples.

#[local] Existing Instance toy_evp.
#[local] Existing Instance toy_uuid.
#[local] Existing Instance toy_good.
#[local] Existing Instance toy_evp_laws.
#[local] Existing Instance toy_uuid_laws.
#[local] Instance example_pool : Client := store_client ["data"].

(** A fault armed, and a latency set, in the middle of a [Put]: they meet the
    [Get] that comes after, not the [Put]. *)
Definition armed_in_between : list fchoice :=
  [FInvoke 1 (ReqPut sample_chunk sample_data); FGo 1; FGo 1; FGo 1; FSet (OnNextCall CorruptionDetected);
   FSet (WithLatency 5); FInvoke 2 (ReqGet sample_chunk)] ++ concat (repeat [FGo 1; FGo 2] 30).

Lemma armed_in_between_valid : Forall fchoice_valid armed_in_between.
Proof.
  unfold armed_in_between. repeat first [apply Forall_app; split|apply Forall_cons; split|apply Forall_nil; exact I];
    first [exact I|exact sample_chunk_valid].
Qed.

Lemma decorated_store_linearizable_witness :
  let r := run_from fresh_members armed_in_between in
  r.1.2 = [FCall 1 (ReqPut sample_chunk sample_data); FControl (OnNextCall CorruptionDetected); FControl (WithLatency 5);
           FCall 2 (ReqGet sample_chunk); FReturn 2 (RepData (Injected CorruptionDetected)); FReturn 1 (RepDone (Ok tt))] ∧
  slept (f_members r.2) = [5] ∧
  ∃ k x, runs (spec_step ["data"] (atomic_step io_fault)) k (MkDescribed [] (MkAtomic ∅ ∅) ∅) r.1.2 x ∧
    decisions (history x) = f_decided r.2 ∧ sleeps (history x) = slept (f_members r.2) ∧ calling x = f_calls r.2 ∧
    contents (described x) = view ["data"] (disk (f_delegate r.2)).
Proof.
  intros r. split; [by vm_compute|]. split; [by vm_compute|].
  exact (decorated_store_linearizable ["data"] fresh_disk _ _ _ toy_fair fresh_idle
    (run_from_runs fresh_members armed_in_between armed_in_between_valid)).
Defined.

End Examples.

End FaultHistory.
