(* ===== verification/Proto.v ===== *)
(** * Messages and the gRPC surface of the storage node

    The messages and the enumeration of [proto/storage_node/storage_node.proto]
    with protobuf's defaults, the parts of gRPC the handlers touch (status,
    server context, streams), and the constants of
    [grpc_metadata_keys.h] and [stream_frame_config.h]. *)

From S2P Require Import Prelude.

Local Open Scope Z_scope.

(** ** Constants *)

Definition kCorrelationIdMetadataKey : string := "x-nimbus-correlation-id".

Definition kStreamFrameSizeBytes : Z := 256 * 1024.

(** ** Statuses *)

Module ChunkStatus.
Inductive t :=
  | OK | CHECKSUM_MISMATCH | CHUNK_TOO_LARGE | CAPABILITY_DENIED | IO_ERROR | NOT_FOUND
  | CORRUPTION_DETECTED | SOURCE_UNREACHABLE.

#[global] Instance t_eq_dec : EqDecision t.
Proof. solve_decision. Defined.

(** The enumerators' numbers. *)
Definition number (s : t) : Z :=
  match s with
  | OK => 0 | CHECKSUM_MISMATCH => 1 | CHUNK_TOO_LARGE => 2 | CAPABILITY_DENIED => 3
  | IO_ERROR => 4 | NOT_FOUND => 5 | CORRUPTION_DETECTED => 6 | SOURCE_UNREACHABLE => 7
  end.
End ChunkStatus.

Module StatusCode.
Inductive t :=
  | OK | CANCELLED | UNKNOWN | INVALID_ARGUMENT | DEADLINE_EXCEEDED | PERMISSION_DENIED
  | RESOURCE_EXHAUSTED | FAILED_PRECONDITION | INTERNAL | UNAVAILABLE.

#[global] Instance t_eq_dec : EqDecision t.
Proof. solve_decision. Defined.
End StatusCode.

(** [grpc::Status]. *)
Record Status := MkStatus { error_code : StatusCode.t; error_message : string }.

#[export] Instance Status_eq_dec : EqDecision Status.
Proof. solve_decision. Defined.

Definition Status_OK : Status := MkStatus StatusCode.OK "".
Definition ok (s : Status) : bool := bool_decide (error_code s = StatusCode.OK).

(** ** Contexts

    The metadata of a call: a multimap; [find] gives the first entry. *)
Record ServerContext := { client_metadata : list (string * string) }.

Fixpoint metadata_find (k : string) (m : list (string * string)) : option string :=
  match m with
  | [] => None
  | (k', v) :: m' => if String.eqb k k' then Some v else metadata_find k m'
  end.

(** ** Messages *)

Record PutChunkMetadata := MkPutMeta {
  put_chunk_id : string; put_capability_token : string; put_total_size_bytes : Z }.

(** The [oneof]: which member is set, if any. *)
Inductive PutPayload :=
  | PutMetadata (m : PutChunkMetadata)
  | PutDataChunk (data : list byte)
  | PutPayloadNotSet.

Record PutChunkRequest := MkPutReq { put_protocol_version : Z; put_payload : PutPayload }.

Record PutChunkResponse := MkPutResp {
  putr_protocol_version : Z; putr_status : ChunkStatus.t; putr_message : string }.

Record GetChunkRequest := MkGetReq { get_protocol_version : Z; get_chunk_id : string }.

Record GetChunkMetadata := MkGetMeta { get_total_size_bytes : Z; get_status : ChunkStatus.t }.

Inductive GetPayload :=
  | GetMetadata (m : GetChunkMetadata)
  | GetDataChunk (data : list byte)
  | GetPayloadNotSet.

Record GetChunkResponse := MkGetResp { getr_protocol_version : Z; getr_payload : GetPayload }.

(** [metadata()]: the default instance when the member is not set. *)
Definition getr_metadata (r : GetChunkResponse) : GetChunkMetadata :=
  match getr_payload r with GetMetadata m => m | _ => MkGetMeta 0 ChunkStatus.OK end.

Definition getr_has_metadata (r : GetChunkResponse) : bool :=
  match getr_payload r with GetMetadata _ => true | _ => false end.

Record VerifyChunkRequest := MkVerReq { ver_protocol_version : Z; ver_chunk_id : string }.

Record VerifyChunkResponse := MkVerResp {
  verr_protocol_version : Z; verr_is_valid : bool; verr_status : ChunkStatus.t }.

Record DeleteChunkRequest := MkDelReq {
  del_protocol_version : Z; del_chunk_id : string; del_capability_token : string }.

Record DeleteChunkResponse := MkDelResp { delr_protocol_version : Z; delr_status : ChunkStatus.t }.

Record ReplicateChunkRequest := MkRepReq {
  rep_protocol_version : Z; rep_chunk_id : string; rep_source_node_address : string }.

Record ReplicateChunkResponse := MkRepResp { repr_protocol_version : Z; repr_status : ChunkStatus.t }.

Record GetNodeStatsRequest := MkStatsReq { stats_protocol_version : Z }.

Record GetNodeStatsResponse := MkStatsResp {
  statsr_protocol_version : Z; statsr_chunk_count : Z; statsr_bytes_used : Z; statsr_bytes_free : Z }.

(** Freshly constructed messages. *)
Definition PutChunkResponse_new : PutChunkResponse := MkPutResp 0 ChunkStatus.OK "".
Definition VerifyChunkResponse_new : VerifyChunkResponse := MkVerResp 0 false ChunkStatus.OK.
Definition DeleteChunkResponse_new : DeleteChunkResponse := MkDelResp 0 ChunkStatus.OK.
Definition ReplicateChunkResponse_new : ReplicateChunkResponse := MkRepResp 0 ChunkStatus.OK.
Definition GetNodeStatsResponse_new : GetNodeStatsResponse := MkStatsResp 0 0 0 0.

(** ** The world around a handler

    What a stub for a remote node gives for a [GetChunk] call: the messages
    read, in order, and the final status of the call. *)
Class Peers := {
  remote_GetChunk : string (** address *) → list (string * string) (** metadata *) →
    GetChunkRequest → list GetChunkResponse * Status
}.

(** The steady clock, in nanoseconds, at its n-th reading. *)
Class SteadyClock := { steady_now : nat → Z }.
