(* ===== verification/Greeter.v ===== *)
(** * The greeter demo

    Models [services/greeter_demo/greeter_server_main.cpp] (the handler
    [SayHello]) and [greeter_client_main.cpp] (what [main] does once it has
    its configuration): the scaffold on which correlation ids and protocol
    versions cross a gRPC call for the first time. The stub is an argument of
    the client; the theorem at the end connects it to the handler. *)

From S2P Require Import Prelude Result Cxx Time Logger Proto.

Local Open Scope Z_scope.

Module Greeter.

(** ** The messages of [proto/greeter/greeter.proto] *)

Record HelloRequest := MkHelloReq { req_protocol_version : Z; name : string }.
Record HelloResponse := MkHelloResp { resp_protocol_version : Z; resp_message : string }.

Definition HelloResponse_new : HelloResponse := MkHelloResp 0 "".

Section Calls.
Context {S : Type} `{HasRuntime S, UuidSource}.

(** ** The server *)

Definition SayHello (context : ServerContext) (request : HelloRequest) : M S (Status * HelloResponse) :=
  correlation_id ← match metadata_find kCorrelationIdMetadataKey (client_metadata context) with
                   | Some v => mret v
                   | None => GenerateUuidV4
                   end;
  with_scope correlation_id (
    Info ("Received SayHello request from " +:+ name request);;
    let version_check :=
      CheckProtocolVersion (req_protocol_version request) kCurrentProtocolVersion kCurrentProtocolVersion in
    if negb (IsOk version_check) then
      Warn "Protocol version mismatch";;
      mret (MkStatus StatusCode.FAILED_PRECONDITION "Unsupported protocol version", HelloResponse_new)
    else
      let reply := MkHelloResp kCurrentProtocolVersion
        ("Hello, " +:+ name request +:+ "! (from greeter_server)") in
      Info "Sending SayHello reply";;
      mret (Status_OK, reply)).

(** ** The client

    [SayHello_stub] is [stub->SayHello]: it gets the metadata of the client
    context. The result is what the program prints. *)
Definition greeter_client (target_address : string)
  (SayHello_stub : list (string * string) → HelloRequest → M S (Status * HelloResponse)) : M S (list string) :=
  Info ("Client connecting to " +:+ target_address);;
  let request := MkHelloReq kCurrentProtocolVersion "NimbusFS-Client" in
  correlation_id ← GenerateUuidV4;
  let metadata := [(kCorrelationIdMetadataKey, correlation_id)] in
  with_scope correlation_id (
    Info "Sending SayHello request";;
    '(status, reply) ← SayHello_stub metadata request;
    if ok status then
      Info ("Received reply: " +:+ resp_message reply);;
      mret ["Greeter received: " +:+ resp_message reply]
    else
      LogError ("RPC failed: " +:+ error_message status);;
      mret ["RPC failed. Error: " +:+ error_message status]).

End Calls.

(** ** Two processes *)

Record World := MkWorld { client : Runtime; server : Runtime }.

#[global] Instance World_runtime : HasRuntime World.
Proof. refine {| runtime := client; set_runtime r w := MkWorld r (server w) |}; try done. by intros [??]. Defined.

Section Demo.
Context `{UuidSource}.

(** A call that gRPC delivers: the handler runs in the server process with
    the metadata the client sent. *)
Definition delivered (metadata : list (string * string)) (request : HelloRequest) : M World (Status * HelloResponse) :=
  zoom server (λ r w, MkWorld (client w) r) (SayHello {| client_metadata := metadata |} request).

(** [n] operational lines with the identifier [cid] in front. *)
Definition tagged (cid : string) (ms : list (spdlog_level * string)) : list (spdlog_level * string) :=
  map (λ '(l, m), (l, FormatOpMessage cid m [])) ms.

Lemma log_line lvl m r l :
  op_logger (impl_ r) = Some l →
  log lvl m [] r = (Done tt, add_op_line (ToSpdlogLevel lvl, FormatOpMessage (t_correlation_id r) m []) r).
Proof. unfold log. by intros ->. Qed.

(** The handler, in closed form, for a call that brings a correlation id. *)
Lemma SayHello_run cid (rest : list (string * string)) (request : HelloRequest) (r : Runtime) :
  is_Some (op_logger (impl_ r)) →
  SayHello {| client_metadata := (kCorrelationIdMetadataKey, cid) :: rest |} request r =
    let accepted := bool_decide (req_protocol_version request = kCurrentProtocolVersion) in
    (Done (if accepted
           then (Status_OK, MkHelloResp kCurrentProtocolVersion ("Hello, " +:+ name request +:+ "! (from greeter_server)"))
           else (MkStatus StatusCode.FAILED_PRECONDITION "Unsupported protocol version", HelloResponse_new)),
     add_op_lines (tagged cid
       [(spd_info, "Received SayHello request from " +:+ name request);
        (if accepted then (spd_info, "Sending SayHello reply") else (spd_warn, "Protocol version mismatch"))]) r).
Proof.
  intros [l Hl]. destruct r as [impl cid0 ops audit drawn]. cbn in Hl.
  unfold SayHello. cbn [client_metadata metadata_find]. rewrite String.eqb_refl.
  unfold with_scope, scoped, WithCorrelationId, ScopedCorrelationId_destroy, Info, Warn, on_runtime, zoom,
    modify, mret, M_ret, mbind, M_bind. cbn [runtime set_runtime Runtime_runtime fst snd].
  rewrite (log_line _ _ _ l) by exact Hl. rewrite CheckProtocolVersion_current.
  case_bool_decide; cbn [negb]; rewrite (log_line _ _ _ l) by exact Hl;
    unfold set_correlation_id, add_op_line, add_op_lines; cbn; by rewrite <- app_assoc.
Qed.

(** One call of the demo, end to end. The client draws one UUID; every
    line either process logs for the call carries it, the line before the
    call does not; the reply is the greeting, the client prints it, and both
    processes have their own correlation ids back afterwards. *)
Theorem demo_call (target_address : string) (w : World) :
  is_Some (op_logger (impl_ (client w))) → is_Some (op_logger (impl_ (server w))) →
  let cid := uuid_at (uuids_drawn (client w)) in
  let greeting := "Hello, NimbusFS-Client! (from greeter_server)" in
  greeter_client target_address delivered w =
    (Done ["Greeter received: " +:+ greeting],
     MkWorld
       (draw_uuid (add_op_lines
         (tagged (t_correlation_id (client w)) [(spd_info, "Client connecting to " +:+ target_address)] ++
          tagged cid [(spd_info, "Sending SayHello request"); (spd_info, "Received reply: " +:+ greeting)])
         (client w)))
       (add_op_lines
         (tagged cid [(spd_info, "Received SayHello request from NimbusFS-Client");
                      (spd_info, "Sending SayHello reply")])
         (server w))).
Proof.
  intros [l Hl] Hs cid greeting. destruct w as [[impl cid0 ops audit drawn] sv]. cbn in Hl, Hs.
  unfold greeter_client, Info, LogError, GenerateUuidV4, with_scope, scoped, WithCorrelationId,
    ScopedCorrelationId_destroy, on_runtime, delivered, zoom, modify, mret, M_ret, mbind, M_bind.
  cbn [runtime set_runtime World_runtime client server fst snd].
  repeat (rewrite (log_line _ _ _ l) by exact Hl;
          cbn [runtime set_runtime World_runtime client server fst snd t_correlation_id uuids_drawn draw_uuid
               add_op_line set_correlation_id]).
  rewrite SayHello_run by exact Hs.
  cbn [negb]. rewrite bool_decide_eq_true_2 by done. change (ok Status_OK) with true.
  cbn [runtime set_runtime World_runtime client server fst snd req_protocol_version name resp_message].
  rewrite (log_line _ _ _ l) by exact Hl. unfold add_op_lines, add_op_line, draw_uuid, set_correlation_id. cbn -[String.append].
  by rewrite <- !app_assoc.
Qed.

End Demo.

Lemma demo_call_witness :
  (@greeter_client World _ toy_uuid "localhost:50051" (@delivered toy_uuid) (MkWorld sample_runtime sample_runtime)).1 =
    Done ["Greeter received: Hello, NimbusFS-Client! (from greeter_server)"].
Proof.
  rewrite (@demo_call toy_uuid "localhost:50051" (MkWorld sample_runtime sample_runtime) (ex_intro _ _ eq_refl) (ex_intro _ _ eq_refl)).
  reflexivity.
Defined.

End Greeter.
