(* ===== verification/Service.v ===== *)
(** * [nimbus::storage_node::StorageNodeServiceImpl]

    Models [services/storage_node/src/storage_node_service_impl.cpp]: the six
    gRPC handlers over any chunk store, with the preamble, the correlation id
    scope and every early return. A handler returns the [grpc::Status] and the
    response as filled in so far; [GetChunk] the messages it managed to write.
    A reader is the list of messages the peer sends before its stream ends. *)

From S2P Require Import Prelude Result Cxx Sha256 ChunkId Time Logger IChunkStore Proto.

Local Open Scope Z_scope.

Module Service.

(** The object and the readings of the clock it has taken. *)
Record Node (S : Type) := MkNode {
  chunk_store_ : S;
  max_chunk_bytes_ : Z;
  clock_reads : nat
}.
#[global] Arguments MkNode {S}.
#[global] Arguments chunk_store_ {S}.
#[global] Arguments max_chunk_bytes_ {S}.
#[global] Arguments clock_reads {S}.

Definition set_store {S} (c : S) (n : Node S) : Node S := MkNode c (max_chunk_bytes_ n) (clock_reads n).

#[global] Instance Node_runtime {S} `{HasRuntime S} : HasRuntime (Node S).
Proof.
  refine {| runtime n := runtime (chunk_store_ n); set_runtime r n := set_store (set_runtime r (chunk_store_ n)) n |};
    intros; repeat match goal with n : Node S |- _ => destruct n end; unfold set_store; cbn.
  - apply runtime_set.
  - by rewrite set_runtime_set.
  - by rewrite set_runtime_get.
Defined.

(** [ValidateCapabilityToken]: the stub of [capability_token.cpp]. *)
Inductive CapabilityError := Denied.

Definition ValidateCapabilityToken (token : string) (scoped_chunk_id : ChunkId.t) : Result unit CapabilityError := Ok tt.

Definition MapStoreError (err : ChunkStoreError) : ChunkStatus.t :=
  match err with
  | ChecksumMismatch => ChunkStatus.CHECKSUM_MISMATCH
  | CorruptionDetected => ChunkStatus.CORRUPTION_DETECTED
  | NotFound => ChunkStatus.NOT_FOUND
  | IoError => ChunkStatus.IO_ERROR
  end.

(** The constructor: [configured] is what the configuration gives for
    [max_chunk_bytes], a signed integer converted to [uint64_t]. *)
Definition StorageNodeServiceImpl {S} (chunk_store : S) (configured : option Z) : Node S :=
  MkNode chunk_store (wrap64 (match configured with Some n => n | None => 4 * 1024 * 1024 end)) 0.

(** [std::vector<std::byte>::reserve]: more than [max_size()] throws
    [std::length_error]. *)
Definition reserve (n : Z) : outcome unit :=
  if 2 ^ 63 - 1 <? n then Throws (logic_error "vector::reserve") else Done tt.

Section Service.
Context {S : Type} `{HasRuntime S, IChunkStore.Ops S, UuidSource, SteadyClock, Peers}.

Definition on_store {A} (m : M S A) : M (Node S) A := zoom chunk_store_ set_store m.

Definition read_clock : M (Node S) Z := state $ λ n,
  (Done (steady_now (clock_reads n)), MkNode (chunk_store_ n) (max_chunk_bytes_ n) (Datatypes.S (clock_reads n))).

Definition milliseconds (start_time end_time : Z) : Z := Z.quot (end_time - start_time) 1000000.

Definition GetCorrelationId (context : ServerContext) : M (Node S) string :=
  match metadata_find kCorrelationIdMetadataKey (client_metadata context) with
  | Some v => mret v
  | None => GenerateUuidV4
  end.

Definition RunPreamble (received_protocol_version : Z) (capability_token : option string)
  (token_scoped_chunk_id : option ChunkId.t) : M (Node S) (option Status) :=
  let version_check := CheckProtocolVersion received_protocol_version kCurrentProtocolVersion kCurrentProtocolVersion in
  if negb (IsOk version_check) then
    mret (Some (MkStatus StatusCode.FAILED_PRECONDITION "Unsupported protocol version"))
  else
    match capability_token, token_scoped_chunk_id with
    | Some token, Some id =>
        if negb (IsOk (ValidateCapabilityToken token id)) then
          Warn ("CAPABILITY_DENIED for chunk " +:+ ChunkId.ToHexString id);;
          mret (Some (MkStatus StatusCode.PERMISSION_DENIED "CAPABILITY_DENIED"))
        else mret None
    | _, _ => mret None
    end.

(** ** [PutChunk] *)

(** The loop over the frames: the payload, or nothing when the limit was
    exceeded. *)
Fixpoint CollectFrames (max : Z) (frames : list PutChunkRequest) (payload : list byte) : option (list byte) :=
  match frames with
  | [] => Some payload
  | frame :: rest =>
      match put_payload frame with
      | PutDataChunk data =>
          if max <? wrap64 (Z.of_nat (length payload) + Z.of_nat (length data)) then None
          else CollectFrames max rest (payload ++ data)
      | _ => CollectFrames max rest payload
      end
  end.

Definition PutChunk (context : ServerContext) (reader : list PutChunkRequest) : M (Node S) (Status * PutChunkResponse) :=
  cid ← GetCorrelationId context;
  with_scope cid (
    start_time ← read_clock;
    let response := MkPutResp kCurrentProtocolVersion (putr_status PutChunkResponse_new) (putr_message PutChunkResponse_new) in
    match reader with
    | [] =>
        LogError "PutChunk failed: stream closed before metadata";;
        mret (MkStatus StatusCode.INVALID_ARGUMENT "Missing metadata", response)
    | first_req :: frames =>
        match put_payload first_req with
        | PutMetadata metadata =>
            match ChunkId.Parse (put_chunk_id metadata) with
            | Err _ =>
                LogError "PutChunk failed: invalid chunk_id";;
                mret (MkStatus StatusCode.INVALID_ARGUMENT "Invalid chunk_id", response)
            | Ok chunk_id =>
                preamble_err ← RunPreamble (put_protocol_version first_req)
                  (Some (put_capability_token metadata)) (Some chunk_id);
                match preamble_err with
                | Some err =>
                    if String.eqb (error_message err) "CAPABILITY_DENIED" then
                      mret (Status_OK, MkPutResp (putr_protocol_version response)
                        ChunkStatus.CAPABILITY_DENIED "Capability token denied")
                    else mret (err, response)
                | None =>
                    max_chunk_bytes_ ← gets max_chunk_bytes_;
                    let total_size := put_total_size_bytes metadata in
                    if max_chunk_bytes_ <? total_size then
                      Warn ("CHUNK_TOO_LARGE: requested " +:+ pretty total_size +:+ " > " +:+ pretty max_chunk_bytes_);;
                      mret (MkStatus StatusCode.RESOURCE_EXHAUSTED "Chunk too large",
                        MkPutResp (putr_protocol_version response) ChunkStatus.CHUNK_TOO_LARGE "Chunk too large")
                    else
                      lift (reserve total_size);;
                      match CollectFrames max_chunk_bytes_ frames [] with
                      | None =>
                          Warn "CHUNK_TOO_LARGE during streaming";;
                          mret (MkStatus StatusCode.RESOURCE_EXHAUSTED "Streamed chunk too large",
                            MkPutResp (putr_protocol_version response) ChunkStatus.CHUNK_TOO_LARGE "Streamed chunk too large")
                      | Some payload =>
                          put_res ← on_store (IChunkStore.Put chunk_id payload);
                          end_time ← read_clock;
                          let duration_ms := milliseconds start_time end_time in
                          match put_res with
                          | Ok _ =>
                              Info ("PutChunk successful for " +:+ ChunkId.ToHexString chunk_id +:+ " in " +:+ pretty duration_ms +:+ "ms");;
                              mret (Status_OK, MkPutResp (putr_protocol_version response) ChunkStatus.OK "Success")
                          | Err e =>
                              (if bool_decide (kind e = IoError) || bool_decide (kind e = CorruptionDetected)
                               then LogError ("PutChunk failed: " +:+ message e)
                               else Warn ("PutChunk domain error: " +:+ message e));;
                              mret (Status_OK, MkPutResp (putr_protocol_version response) (MapStoreError (kind e)) (message e))
                          end
                      end
                end
            end
        | _ =>
            LogError "PutChunk failed: first message missing metadata";;
            mret (MkStatus StatusCode.INVALID_ARGUMENT "First message must contain metadata", response)
        end
    end).

(** ** [GetChunk] *)

(** The writer accepts the messages with [writable i], [i] the number of the
    write; the result is what was accepted. *)
Definition write (writable : nat → bool) (i : nat) (m : GetChunkResponse) : list GetChunkResponse :=
  if writable i then [m] else [].

(** The loop that sends [data] from an offset on ([rest]), [fuel] bounding
    the iterations; the flag tells whether the stream was broken. *)
Fixpoint SendFrames (fuel : nat) (writable : nat → bool) (i : nat) (rest : list byte) : list GetChunkResponse * bool :=
  match fuel with
  | O => ([], false)
  | Datatypes.S fuel' =>
      match rest with
      | [] => ([], false)
      | _ =>
          let chunk_size := Z.to_nat (Z.min kStreamFrameSizeBytes (Z.of_nat (length rest))) in
          let frame := MkGetResp kCurrentProtocolVersion (GetDataChunk (take chunk_size rest)) in
          if negb (writable i) then ([], true)
          else
            let '(sent, broken) := SendFrames fuel' writable (Datatypes.S i) (drop chunk_size rest) in
            (frame :: sent, broken)
      end
  end.

Definition GetChunk (context : ServerContext) (request : GetChunkRequest) (writable : nat → bool) :
  M (Node S) (Status * list GetChunkResponse) :=
  cid ← GetCorrelationId context;
  with_scope cid (
    start_time ← read_clock;
    preamble_err ← RunPreamble (get_protocol_version request) None None;
    match preamble_err with
    | Some err => mret (err, [])
    | None =>
        match ChunkId.Parse (get_chunk_id request) with
        | Err _ => mret (MkStatus StatusCode.INVALID_ARGUMENT "Invalid chunk_id", [])
        | Ok chunk_id =>
            get_res ← on_store (IChunkStore.Get chunk_id);
            match get_res with
            | Err e =>
                let status := MapStoreError (kind e) in
                let sent := write writable 0 (MkGetResp kCurrentProtocolVersion (GetMetadata (MkGetMeta 0 status))) in
                (if bool_decide (status = ChunkStatus.CORRUPTION_DETECTED) || bool_decide (status = ChunkStatus.IO_ERROR)
                 then LogError ("GetChunk failed for " +:+ ChunkId.ToHexString chunk_id +:+ ": " +:+ message e)
                 else Info ("GetChunk completed with " +:+ message e));;
                mret (Status_OK, sent)
            | Ok data =>
                let sent := write writable 0 (MkGetResp kCurrentProtocolVersion
                  (GetMetadata (MkGetMeta (Z.of_nat (length data)) ChunkStatus.OK))) in
                let '(frames, broken) := SendFrames (length data) writable 1 data in
                (if (broken : bool) then Warn "GetChunk stream broken by client" else mret tt);;
                end_time ← read_clock;
                let duration_ms := milliseconds start_time end_time in
                Info ("GetChunk successful for " +:+ ChunkId.ToHexString chunk_id +:+ " in " +:+ pretty duration_ms +:+ "ms");;
                mret (Status_OK, sent ++ frames)
            end
        end
    end).

(** ** [VerifyChunk] and [DeleteChunk] *)

Definition VerifyChunk (context : ServerContext) (request : VerifyChunkRequest) :
  M (Node S) (Status * VerifyChunkResponse) :=
  cid ← GetCorrelationId context;
  with_scope cid (
    let response := MkVerResp kCurrentProtocolVersion (verr_is_valid VerifyChunkResponse_new) (verr_status VerifyChunkResponse_new) in
    preamble_err ← RunPreamble (ver_protocol_version request) None None;
    match preamble_err with
    | Some err => mret (err, response)
    | None =>
        match ChunkId.Parse (ver_chunk_id request) with
        | Err _ => mret (MkStatus StatusCode.INVALID_ARGUMENT "Invalid chunk_id", response)
        | Ok chunk_id =>
            ver_res ← on_store (IChunkStore.VerifyOnly chunk_id);
            match ver_res with
            | Ok _ =>
                Debug ("VerifyChunk OK for " +:+ ChunkId.ToHexString chunk_id);;
                mret (Status_OK, MkVerResp (verr_protocol_version response) true ChunkStatus.OK)
            | Err e =>
                Debug ("VerifyChunk failed for " +:+ ChunkId.ToHexString chunk_id +:+ ": " +:+ message e);;
                mret (Status_OK, MkVerResp (verr_protocol_version response) false (MapStoreError (kind e)))
            end
        end
    end).

Definition DeleteChunk (context : ServerContext) (request : DeleteChunkRequest) :
  M (Node S) (Status * DeleteChunkResponse) :=
  cid ← GetCorrelationId context;
  with_scope cid (
    start_time ← read_clock;
    let response := MkDelResp kCurrentProtocolVersion (delr_status DeleteChunkResponse_new) in
    match ChunkId.Parse (del_chunk_id request) with
    | Err _ => mret (MkStatus StatusCode.INVALID_ARGUMENT "Invalid chunk_id", response)
    | Ok chunk_id =>
        preamble_err ← RunPreamble (del_protocol_version request) (Some (del_capability_token request)) (Some chunk_id);
        match preamble_err with
        | Some err =>
            if String.eqb (error_message err) "CAPABILITY_DENIED" then
              mret (Status_OK, MkDelResp (delr_protocol_version response) ChunkStatus.CAPABILITY_DENIED)
            else mret (err, response)
        | None =>
            del_res ← on_store (IChunkStore.Delete chunk_id);
            end_time ← read_clock;
            let duration_ms := milliseconds start_time end_time in
            match del_res with
            | Ok _ =>
                Info ("DeleteChunk successful for " +:+ ChunkId.ToHexString chunk_id +:+ " in " +:+ pretty duration_ms +:+ "ms");;
                mret (Status_OK, MkDelResp (delr_protocol_version response) ChunkStatus.OK)
            | Err e =>
                LogError ("DeleteChunk failed for " +:+ ChunkId.ToHexString chunk_id +:+ ": " +:+ message e);;
                mret (Status_OK, MkDelResp (delr_protocol_version response) (MapStoreError (kind e)))
            end
        end
    end).

(** ** [ReplicateChunk] *)

(** The loop over the rest of the source's stream. *)
Fixpoint CollectSource (msgs : list GetChunkResponse) (payload : list byte) : list byte :=
  match msgs with
  | [] => payload
  | get_resp :: rest =>
      match getr_payload get_resp with
      | GetDataChunk data => CollectSource rest (payload ++ data)
      | _ => CollectSource rest payload
      end
  end.

(** From the first message of the source on: [reader] is its stream,
    [finish] the final status of the call. *)
Definition ReplicateStream (chunk_id : ChunkId.t) (start_time : Z) (response : ReplicateChunkResponse)
  (reader : list GetChunkResponse) (finish : Status) : M (Node S) (Status * ReplicateChunkResponse) :=
  match reader with
  | [] =>
      LogError "ReplicateChunk failed: SOURCE_UNREACHABLE";;
      mret (Status_OK, MkRepResp (repr_protocol_version response) ChunkStatus.SOURCE_UNREACHABLE)
  | get_resp :: msgs =>
      let metadata := getr_metadata get_resp in
      if getr_has_metadata get_resp && negb (bool_decide (get_status metadata = ChunkStatus.OK)) then
        LogError ("ReplicateChunk source returned status: " +:+ pretty (ChunkStatus.number (get_status metadata)));;
        mret (Status_OK, MkRepResp (repr_protocol_version response) (get_status metadata))
      else
        max_chunk_bytes_ ← gets max_chunk_bytes_;
        let expected_size := get_total_size_bytes metadata in
        if max_chunk_bytes_ <? expected_size then
          Warn "ReplicateChunk source offered chunk too large";;
          mret (Status_OK, MkRepResp (repr_protocol_version response) ChunkStatus.CHUNK_TOO_LARGE)
        else
          lift (reserve expected_size);;
          let payload := CollectSource msgs [] in
          if negb (ok finish) then
            LogError ("ReplicateChunk RPC failed: " +:+ error_message finish);;
            mret (Status_OK, MkRepResp (repr_protocol_version response) ChunkStatus.SOURCE_UNREACHABLE)
          else
            put_res ← on_store (IChunkStore.Put chunk_id payload);
            end_time ← read_clock;
            let duration_ms := milliseconds start_time end_time in
            match put_res with
            | Ok _ =>
                Info ("ReplicateChunk successful for " +:+ ChunkId.ToHexString chunk_id +:+ " in " +:+ pretty duration_ms +:+ "ms");;
                mret (Status_OK, MkRepResp (repr_protocol_version response) ChunkStatus.OK)
            | Err e =>
                LogError ("ReplicateChunk Put failed: " +:+ message e);;
                mret (Status_OK, MkRepResp (repr_protocol_version response) (MapStoreError (kind e)))
            end
  end.

Definition ReplicateChunk (context : ServerContext) (request : ReplicateChunkRequest) :
  M (Node S) (Status * ReplicateChunkResponse) :=
  cid ← GetCorrelationId context;
  with_scope cid (
    start_time ← read_clock;
    let response := MkRepResp kCurrentProtocolVersion (repr_status ReplicateChunkResponse_new) in
    preamble_err ← RunPreamble (rep_protocol_version request) None None;
    match preamble_err with
    | Some err => mret (err, response)
    | None =>
        match ChunkId.Parse (rep_chunk_id request) with
        | Err _ => mret (MkStatus StatusCode.INVALID_ARGUMENT "Invalid chunk_id", response)
        | Ok chunk_id =>
            Info ("ReplicateChunk requested for " +:+ ChunkId.ToHexString chunk_id +:+ " from " +:+ rep_source_node_address request);;
            cid' ← GetCorrelationId context;
            let get_req := MkGetReq kCurrentProtocolVersion (ChunkId.ToHexString chunk_id) in
            let '(reader, finish) :=
              remote_GetChunk (rep_source_node_address request) [(kCorrelationIdMetadataKey, cid')] get_req in
            ReplicateStream chunk_id start_time response reader finish
        end
    end).

(** ** [GetNodeStats] *)

Definition GetNodeStats (context : ServerContext) (request : GetNodeStatsRequest) :
  M (Node S) (Status * GetNodeStatsResponse) :=
  cid ← GetCorrelationId context;
  with_scope cid (
    let response := MkStatsResp kCurrentProtocolVersion (statsr_chunk_count GetNodeStatsResponse_new)
      (statsr_bytes_used GetNodeStatsResponse_new) (statsr_bytes_free GetNodeStatsResponse_new) in
    preamble_err ← RunPreamble (stats_protocol_version request) None None;
    match preamble_err with
    | Some err => mret (err, response)
    | None =>
        stats ← on_store IChunkStore.GetStats;
        Debug "GetNodeStats completed";;
        mret (Status_OK, MkStatsResp (statsr_protocol_version response)
          (chunk_count stats) (bytes_used stats) (bytes_free stats))
    end).

End Service.

End Service.
