(* ===== verification/ServiceRules.v ===== *)
(** * Reasoning about the handlers

    Weakest-precondition rules for what the handlers of [Service] do, against
    the contract of the chunk store: the handlers are verified for every store
    that keeps it. *)

From S2P Require Import Prelude Result Cxx Sha256 ChunkId Time Logger IChunkStore Proto Service.
Import Service.

Local Open Scope Z_scope.

(** ** The preamble *)

Section Preamble.
Context {S : Type} `{HasRuntime S}.

Definition unsupported : Status := MkStatus StatusCode.FAILED_PRECONDITION "Unsupported protocol version".

Lemma RunPreamble_eq (v : Z) tok id :
  RunPreamble (S:=S) v tok id =
    mret (if bool_decide (v = kCurrentProtocolVersion) then None else Some unsupported).
Proof.
  unfold RunPreamble. rewrite CheckProtocolVersion_current.
  case_bool_decide; cbn; [|done]. by destruct tok, id.
Qed.

End Preamble.

(** ** Rules *)

Section Rules.
Context {S : Type} `{HasRuntime S, IChunkStore.Ops S, UuidSource, SteadyClock, Evp}.
Context {io_may_fail : Prop} {healthy : S → Prop} {view : S → store}.
Context `{!ChunkStoreContract S io_may_fail healthy view}.
Implicit Types n : Node S.

Definition nhealthy n : Prop := healthy (chunk_store_ n).
Definition nview n : store := view (chunk_store_ n).

Lemma nhealthy_runtime r n : nhealthy (set_runtime r n) ↔ nhealthy n.
Proof. apply (healthy_runtime r (chunk_store_ n)). Qed.

Lemma nview_runtime r n : nview (set_runtime r n) = nview n.
Proof. apply (view_runtime r (chunk_store_ n)). Qed.

(** What every handler leaves alone: the limit, the caller's correlation id
    and logger, and the well-formedness of the store. *)
Definition served n n' : Prop :=
  max_chunk_bytes_ n' = max_chunk_bytes_ n ∧ same_caller n n' ∧ (nhealthy n → nhealthy n').

(** Logging, reading the clock and drawing UUIDs leave the store alone too. *)
Definition calm n n' : Prop := served n n' ∧ nview n' = nview n.

#[export] Instance served_refl : Reflexive served.
Proof. by intros n. Qed.

#[export] Instance served_trans : Transitive served.
Proof.
  intros n1 n2 n3 (Hm & Hc & Hh) (Hm' & Hc' & Hh'). split; [congruence|]. split; [by etrans|auto].
Qed.

#[export] Instance calm_refl : Reflexive calm.
Proof. by intros n. Qed.

#[export] Instance calm_trans : Transitive calm.
Proof. intros n1 n2 n3 [Hs Hv] [Hs' Hv']. split; [by etrans|congruence]. Qed.

(** Changing only the runtime. *)
Lemma calm_runtime r n :
  t_correlation_id r = t_correlation_id (runtime n) → impl_ r = impl_ (runtime n) → calm n (set_runtime r n).
Proof.
  intros Hc Hi. split; [|apply nview_runtime]. split; [done|]. split.
  - unfold same_caller. by rewrite runtime_set.
  - intros Hh. by apply nhealthy_runtime.
Qed.

Lemma wp_nlog lvl m (Q : outcome unit → Node S → Prop) n :
  (∀ n', calm n n' → Q (Done tt) n') → wp (on_runtime (log lvl m [])) Q n.
Proof.
  intros HQ. apply wp_zoom. unfold wp, log. destruct (op_logger (impl_ (runtime n))); cbn.
  - by apply HQ, calm_runtime.
  - by apply HQ, calm_runtime.
Qed.

Lemma wp_clock (Q : outcome Z → Node S → Prop) n :
  (∀ t n', calm n n' → Q (Done t) n') → wp read_clock Q n.
Proof. intros HQ. unfold wp, read_clock, state. cbn. by apply HQ. Qed.

Lemma wp_correlation (context : ServerContext) (Q : outcome string → Node S → Prop) n :
  (∀ cid n', calm n n' → Q (Done cid) n') → wp (GetCorrelationId context) Q n.
Proof.
  intros HQ. unfold GetCorrelationId. destruct (metadata_find _ _); [by apply HQ|].
  apply wp_zoom. unfold wp. cbn. by apply HQ, calm_runtime.
Qed.

(** The scope of a handler: inside, another correlation id is in force; the
    caller's is back at the end. *)
Lemma wp_handler {A} (context : ServerContext) (body : M (Node S) A) (Q : outcome A → Node S → Prop) n :
  (∀ n1, max_chunk_bytes_ n1 = max_chunk_bytes_ n → (nhealthy n → nhealthy n1) → nview n1 = nview n →
     wp body (λ o n2, match o with
       | Done _ | Throws _ => ∀ n3, (served n1 n2 → served n n3) → nview n3 = nview n2 → Q o n3
       | _ => Q o n2
       end) n1) →
  wp (cid ← GetCorrelationId context; with_scope cid body) Q n.
Proof.
  intros Hbody. apply wp_bind, wp_correlation. intros cid n0 [(Hm0 & [Hc0 Hi0] & Hh0) Hv0].
  unfold with_scope. apply wp_bind. apply wp_zoom. unfold wp at 1. cbn [fst snd].
  apply wp_scoped. set (n1 := set_runtime _ n0). eapply wp_mono.
  - apply (Hbody n1).
    + exact Hm0.
    + intros Hh. by apply nhealthy_runtime, Hh0.
    + rewrite <- Hv0. apply nview_runtime.
  - assert (∀ n2, let n3 := set_runtime (set_correlation_id (t_correlation_id (runtime n0)) (runtime n2)) n2 in
      (served n1 n2 → served n n3) ∧ nview n3 = nview n2) as Hexit.
    { intros n2. split; [|apply nview_runtime]. intros (Hm & [Hc Hi] & Hh). split; [cbn; by rewrite Hm|]. split.
      - unfold same_caller. rewrite runtime_set. cbn. split; [done|].
        etrans; [exact Hi|]. etrans; [|exact Hi0]. unfold n1. by rewrite runtime_set.
      - intros Hn. apply nhealthy_runtime, Hh. apply nhealthy_runtime. by apply Hh0. }
    intros [a|e| |] n2 Ho; try done; apply wp_bind; apply wp_zoom; unfold wp; cbn;
      destruct (Hexit n2) as [Hs Hv]; by apply Ho.
Qed.

(** ** The store's operations *)

Lemma same_caller_node n (d : S) : same_caller (chunk_store_ n) d → same_caller n (set_store d n).
Proof. done. Qed.

Lemma wp_put id data (Q : outcome (Result unit ChunkStoreErrorDetail) → Node S → Prop) n :
  nhealthy n → ChunkId.valid id →
  (∀ r n', served n n' → put_spec io_may_fail (nview n) id data r (nview n') → Q (Done r) n') →
  wp (on_store (IChunkStore.Put id data)) Q n.
Proof.
  intros Hh Hv HQ. apply wp_zoom. destruct (put_ok id data (chunk_store_ n) Hh Hv) as (r & d & E & Hd & Hc & Hspec).
  unfold wp. rewrite E. by apply HQ.
Qed.

Lemma wp_get id (Q : outcome (Result (list byte) ChunkStoreErrorDetail) → Node S → Prop) n :
  nhealthy n → ChunkId.valid id →
  (∀ r n', calm n n' → get_spec io_may_fail (nview n) id r → Q (Done r) n') →
  wp (on_store (IChunkStore.Get id)) Q n.
Proof.
  intros Hh Hv HQ. apply wp_zoom. destruct (get_ok id (chunk_store_ n) Hh Hv) as (r & d & E & Hd & Hc & Hvw & Hspec).
  unfold wp. rewrite E. by apply HQ.
Qed.

Lemma wp_verify id (Q : outcome (Result unit ChunkStoreErrorDetail) → Node S → Prop) n :
  nhealthy n → ChunkId.valid id →
  (∀ r n', calm n n' → verify_spec io_may_fail (nview n) id r → Q (Done r) n') →
  wp (on_store (IChunkStore.VerifyOnly id)) Q n.
Proof.
  intros Hh Hv HQ. apply wp_zoom. destruct (verify_ok id (chunk_store_ n) Hh Hv) as (r & d & E & Hd & Hc & Hvw & Hspec).
  unfold wp. rewrite E. by apply HQ.
Qed.

Lemma wp_delete id (Q : outcome (Result unit ChunkStoreErrorDetail) → Node S → Prop) n :
  nhealthy n → ChunkId.valid id →
  (∀ r n', served n n' → delete_spec io_may_fail (nview n) id r (nview n') → Q (Done r) n') →
  wp (on_store (IChunkStore.Delete id)) Q n.
Proof.
  intros Hh Hv HQ. apply wp_zoom. destruct (delete_ok id (chunk_store_ n) Hh Hv) as (r & d & E & Hd & Hc & Hspec).
  unfold wp. rewrite E. by apply HQ.
Qed.

Lemma wp_stats (Q : outcome ChunkStoreStats → Node S → Prop) n :
  nhealthy n → (∀ st n', calm n n' → Q (Done st) n') → wp (on_store IChunkStore.GetStats) Q n.
Proof.
  intros Hh HQ. apply wp_zoom. destruct (stats_ok (chunk_store_ n) Hh) as (st & d & E & Hd & Hc & Hvw).
  unfold wp. rewrite E. by apply HQ.
Qed.

End Rules.
