(* ===== verification/ServiceTheorems.v ===== *)
(** * What the storage node's handlers do

    The handlers of [Service] against the contract of the chunk store: the
    outcome of every request, the limits on size, the framing of streams, and
    round trips through the node and between nodes. *)

From S2P Require Import Prelude Result Cxx Sha256 ChunkId Time Logger IChunkStore Proto Service ServiceRules.
Import Service.

Local Open Scope Z_scope.

(** ** Frames *)

(** The bytes carried by a client's frames. *)
Definition put_bytes (r : PutChunkRequest) : list byte :=
  match put_payload r with PutDataChunk data => data | _ => [] end.

Definition put_data (frames : list PutChunkRequest) : list byte := concat (map put_bytes frames).

(** Protocol buffers limit a message to 2 GiB. *)
Definition small (frames : list PutChunkRequest) : Prop :=
  Forall (λ r, Z.of_nat (length (put_bytes r)) < 2 ^ 31) frames.

(** The loop that enforces the limit frame by frame is a check of the total. *)
Lemma CollectFrames_eq max frames payload :
  0 <= max < 2 ^ 63 → Z.of_nat (length payload) <= max → small frames →
  CollectFrames max frames payload =
    (if Z.of_nat (length (payload ++ put_data frames)) <=? max
     then Some (payload ++ put_data frames) else None).
Proof.
  intros Hmax. revert payload. induction frames as [|r frames IH]; intros payload Hp Hsm.
  - unfold put_data. cbn. rewrite app_nil_r. by destruct (Z.leb_spec (Z.of_nat (length payload)) max); [|lia].
  - apply Forall_cons in Hsm as [Hr Hsm]. unfold put_data in *. cbn [CollectFrames map concat].
    unfold put_bytes in Hr. unfold put_bytes at 1 3.
    destruct (put_payload r) as [m|data|]; cbn [app] in *; [by apply IH| |by apply IH].
    rewrite wrap64_small by lia. destruct (Z.ltb_spec max (Z.of_nat (length payload) + Z.of_nat (length data))) as [Hlt|Hge].
    + rewrite !length_app. destruct (Z.leb_spec (Z.of_nat (length payload + (length data +
        length (concat (map put_bytes frames))))) max); [lia|done].
    + rewrite IH by (try rewrite length_app; done || lia). by rewrite <- app_assoc.
Qed.

(** The bytes carried by a server's frames. *)
Definition get_bytes (r : GetChunkResponse) : list byte :=
  match getr_payload r with GetDataChunk data => data | _ => [] end.

Definition get_data (msgs : list GetChunkResponse) : list byte := concat (map get_bytes msgs).

Lemma CollectSource_eq msgs payload : CollectSource msgs payload = payload ++ get_data msgs.
Proof.
  revert payload. induction msgs as [|r msgs IH]; intros payload; unfold get_data in *; cbn; [by rewrite app_nil_r|].
  unfold get_bytes at 1. destruct (getr_payload r); rewrite IH; cbn; [done|by rewrite app_assoc|done].
Qed.

(** A well-formed data frame: some bytes, at most 256 KiB. *)
Definition good_frame (r : GetChunkResponse) : Prop :=
  getr_protocol_version r = kCurrentProtocolVersion ∧
  ∃ data, getr_payload r = GetDataChunk data ∧ 1 <= Z.of_nat (length data) <= kStreamFrameSizeBytes.

(** Sending with enough fuel: frames are well formed; what was sent is a
    prefix of the data, all of it unless the stream broke. *)
Lemma SendFrames_eq fuel writable i rest :
  (length rest ≤ fuel)%nat →
  let '(sent, broken) := SendFrames fuel writable i rest in
  Forall good_frame sent ∧ (get_data sent) `prefix_of` rest ∧
  (broken = false → get_data sent = rest) ∧ ((∀ j, writable j = true) → broken = false).
Proof.
  revert i rest. induction fuel as [|fuel IH]; intros i rest Hl.
  - destruct rest; [|cbn in Hl; lia]. cbn. split_and!; [constructor|apply prefix_nil|done|done].
  - destruct rest as [|b rest']; [cbn; split_and!; [constructor|apply prefix_nil|done|done]|].
    set (rest := b :: rest') in *. cbn [SendFrames].
    change (match rest with [] => _ | _ => ?x end) with x.
    set (k := Z.to_nat (Z.min kStreamFrameSizeBytes (Z.of_nat (length rest)))).
    assert (1 <= Z.of_nat k <= kStreamFrameSizeBytes ∧ (k ≤ length rest)%nat) as [Hk Hk'].
    { unfold k, rest, kStreamFrameSizeBytes. cbn [length]. lia. }
    destruct (writable i) eqn:Hw; cbn [negb].
    2: { split_and!; [constructor|apply prefix_nil|done|]. intros Hall. by rewrite Hall in Hw. }
    specialize (IH (Datatypes.S i) (drop k rest)). rewrite length_drop in IH.
    destruct (SendFrames fuel writable (Datatypes.S i) (drop k rest)) as [sent broken].
    destruct IH as (Hg & Hp & Hall & Hb); [lia|].
    assert (get_data (MkGetResp kCurrentProtocolVersion (GetDataChunk (take k rest)) :: sent) =
            take k rest ++ get_data sent) as -> by done.
    split_and!.
    + constructor; [|done]. split; [done|]. exists (take k rest). split; [done|]. rewrite length_take. lia.
    + rewrite <- (take_drop k rest) at 2. by apply prefix_app.
    + intros Hbr. rewrite Hall by done. apply take_drop.
    + done.
Qed.

(** ** The outcome of each request *)

(** What becomes of a [PutChunk] stream before the store is involved. *)
Inductive put_decision :=
  | PutReject (st : Status) (status : ChunkStatus.t) (msg : string)
  | PutStore (id : ChunkId.t) (payload : list byte).

Definition too_large (msg : string) : put_decision :=
  PutReject (MkStatus StatusCode.RESOURCE_EXHAUSTED msg) ChunkStatus.CHUNK_TOO_LARGE msg.

Definition invalid (msg : string) : put_decision :=
  PutReject (MkStatus StatusCode.INVALID_ARGUMENT msg) ChunkStatus.OK "".

Definition decide_put (max : Z) (reader : list PutChunkRequest) : put_decision :=
  match reader with
  | [] => invalid "Missing metadata"
  | MkPutReq version (PutMetadata (MkPutMeta chunk_id _ total_size)) :: frames =>
      match ChunkId.Parse chunk_id with
      | Err _ => invalid "Invalid chunk_id"
      | Ok id =>
          if negb (bool_decide (version = kCurrentProtocolVersion)) then PutReject unsupported ChunkStatus.OK ""
          else if max <? total_size then too_large "Chunk too large"
          else if max <? Z.of_nat (length (put_data frames)) then too_large "Streamed chunk too large"
          else PutStore id (put_data frames)
      end
  | _ => invalid "First message must contain metadata"
  end.

Definition put_reply (r : Result unit ChunkStoreErrorDetail) : PutChunkResponse :=
  match r with
  | Ok _ => MkPutResp kCurrentProtocolVersion ChunkStatus.OK "Success"
  | Err e => MkPutResp kCurrentProtocolVersion (MapStoreError (kind e)) (message e)
  end.

(** The requests that name a chunk and are checked for their version first. *)
Definition accept (version : Z) (chunk_id : string) : Status + ChunkId.t :=
  if negb (bool_decide (version = kCurrentProtocolVersion)) then inl unsupported
  else match ChunkId.Parse chunk_id with
  | Err _ => inl (MkStatus StatusCode.INVALID_ARGUMENT "Invalid chunk_id")
  | Ok id => inr id
  end.

(** What a [GetChunk] stream says about the store's answer. *)
Definition metadata_message (size : Z) (status : ChunkStatus.t) : GetChunkResponse :=
  MkGetResp kCurrentProtocolVersion (GetMetadata (MkGetMeta size status)).

Definition get_reply (writable : nat → bool) (r : Result (list byte) ChunkStoreErrorDetail)
  (msgs : list GetChunkResponse) : Prop :=
  match r with
  | Err e => msgs = write writable 0 (metadata_message 0 (MapStoreError (kind e)))
  | Ok data => ∃ frames,
      msgs = write writable 0 (metadata_message (Z.of_nat (length data)) ChunkStatus.OK) ++ frames ∧
      Forall good_frame frames ∧ get_data frames `prefix_of` data ∧
      ((∀ j, writable j = true) → get_data frames = data)
  end.

Definition verify_reply (r : Result unit ChunkStoreErrorDetail) : VerifyChunkResponse :=
  match r with
  | Ok _ => MkVerResp kCurrentProtocolVersion true ChunkStatus.OK
  | Err e => MkVerResp kCurrentProtocolVersion false (MapStoreError (kind e))
  end.

(** The status that reports the result of an operation. *)
Definition status_of {A} (r : Result A ChunkStoreErrorDetail) : ChunkStatus.t :=
  match r with Ok _ => ChunkStatus.OK | Err e => MapStoreError (kind e) end.

(** What becomes of a source's stream before the store is involved: the
    status reported, or the bytes to store. *)
Definition decide_source (max : Z) (stream : list GetChunkResponse * Status) : ChunkStatus.t + list byte :=
  match stream.1 with
  | [] => inl ChunkStatus.SOURCE_UNREACHABLE
  | r :: msgs =>
      if getr_has_metadata r && negb (bool_decide (get_status (getr_metadata r) = ChunkStatus.OK))
      then inl (get_status (getr_metadata r))
      else if max <? get_total_size_bytes (getr_metadata r) then inl ChunkStatus.CHUNK_TOO_LARGE
      else if negb (ok stream.2) then inl ChunkStatus.SOURCE_UNREACHABLE
      else inr (get_data msgs)
  end.

Lemma Parse_valid s id : ChunkId.Parse s = Ok id → ChunkId.valid id.
Proof. by intros [? _]%ChunkId.Parse_ok. Qed.

Section Handlers.
Context {S : Type} `{HasRuntime S, IChunkStore.Ops S, UuidSource, SteadyClock, Peers, Evp}.
Context {io_may_fail : Prop} {healthy : S → Prop} {view : S → store}.
Context `{!ChunkStoreContract S io_may_fail healthy view}.
Implicit Types n : Node S.

#[local] Abbreviation nhealthy := (ServiceRules.nhealthy (healthy:=healthy)).
#[local] Abbreviation nview := (ServiceRules.nview (view:=view)).
#[local] Abbreviation served := (ServiceRules.served (healthy:=healthy)).
#[local] Abbreviation wp_nlog := (ServiceRules.wp_nlog (healthy:=healthy) (view:=view)).
#[local] Abbreviation wp_clock := (ServiceRules.wp_clock (healthy:=healthy) (view:=view)).
#[local] Abbreviation wp_handler := (ServiceRules.wp_handler (healthy:=healthy) (view:=view)).
#[local] Abbreviation wp_put := (ServiceRules.wp_put (healthy:=healthy) (view:=view)).
#[local] Abbreviation wp_get := (ServiceRules.wp_get (healthy:=healthy) (view:=view)).
#[local] Abbreviation wp_verify := (ServiceRules.wp_verify (healthy:=healthy) (view:=view)).
#[local] Abbreviation wp_delete := (ServiceRules.wp_delete (healthy:=healthy) (view:=view)).
#[local] Abbreviation wp_stats := (ServiceRules.wp_stats (healthy:=healthy) (view:=view)).
#[local] Abbreviation wp_correlation := (ServiceRules.wp_correlation (healthy:=healthy) (view:=view)).

(** Goes through a run of [served] steps, and through the views along it. *)
Ltac chain := repeat match goal with
  | H : ServiceRules.served ?a ?b |- ServiceRules.served ?a _ => etrans; [exact H|clear H]
  | |- ServiceRules.served ?a ?a => reflexivity
  end.
Ltac leave := intros ? Hleave Hview; cbn; split; [apply Hleave; chain|]; rewrite Hview; try congruence.

Definition put_post (max : Z) (reader : list PutChunkRequest) n (o : outcome (Status * PutChunkResponse)) n' : Prop :=
  match o with
  | Done (st, resp) => served n n' ∧
      match decide_put max reader with
      | PutReject st' status msg =>
          st = st' ∧ resp = MkPutResp kCurrentProtocolVersion status msg ∧ nview n' = nview n
      | PutStore id payload =>
          st = Status_OK ∧ ∃ r, resp = put_reply r ∧ put_spec io_may_fail (nview n) id payload r (nview n')
      end
  | _ => False
  end.

Lemma PutChunk_effect (context : ServerContext) (reader : list PutChunkRequest) n :
  nhealthy n → 0 <= max_chunk_bytes_ n < 2 ^ 63 → small reader →
  wp (PutChunk context reader) (put_post (max_chunk_bytes_ n) reader n) n.
Proof.
  intros Hn Hmax Hsm. apply wp_handler. intros n1 Hm1 Hh1 Hv1.
  apply wp_bind, wp_clock. intros t n2 [Hs2 Hv2].
  destruct reader as [|[version payload] frames].
  { apply wp_bind, wp_nlog. intros n3 [Hs3 Hv3]. apply wp_ret. leave. split_and!; congruence. }
  cbn [put_payload]. destruct payload as [[cid tok total]|data|].
  2,3: apply wp_bind, wp_nlog; intros n3 [Hs3 Hv3]; apply wp_ret; leave; split_and!; congruence.
  cbn [put_chunk_id put_capability_token put_total_size_bytes put_protocol_version].
  unfold put_post. cbn [decide_put]. destruct (ChunkId.Parse cid) as [id|e] eqn:Hid.
  2: { apply wp_bind, wp_nlog. intros n3 [Hs3 Hv3]. apply wp_ret. leave. split_and!; congruence. }
  rewrite RunPreamble_eq. apply wp_bind, wp_ret. case_bool_decide as Hver; cbn [negb].
  2: { cbn. apply wp_ret. leave. split_and!; congruence. }
  apply wp_bind, wp_gets.
  assert (max_chunk_bytes_ n2 = max_chunk_bytes_ n) as -> by (rewrite <- Hm1; apply Hs2).
  destruct (Z.ltb_spec (max_chunk_bytes_ n) total) as [Hbig|Hfit].
  { apply wp_bind, wp_nlog. intros n3 [Hs3 Hv3]. apply wp_ret. leave. split_and!; congruence. }
  apply wp_bind, wp_lift. unfold reserve. destruct (Z.ltb_spec (2 ^ 63 - 1) total) as [?|_]; [lia|].
  apply Forall_cons in Hsm as [_ Hsm]. rewrite CollectFrames_eq by (try done; cbn; lia). cbn [app].
  destruct (Z.leb_spec (Z.of_nat (length (put_data frames))) (max_chunk_bytes_ n)) as [Hle|Hgt].
  2: { destruct (Z.ltb_spec (max_chunk_bytes_ n) (Z.of_nat (length (put_data frames)))); [|lia].
       apply wp_bind, wp_nlog. intros n3 [Hs3 Hv3]. apply wp_ret. leave. split_and!; congruence. }
  destruct (Z.ltb_spec (max_chunk_bytes_ n) (Z.of_nat (length (put_data frames)))); [lia|].
  apply wp_bind, wp_put; [apply Hs2; auto|by eapply Parse_valid|].
  intros r n3 Hs3 Hspec. rewrite Hv2, Hv1 in Hspec. apply wp_bind, wp_clock. intros t' n4 [Hs4 Hv4].
  destruct r as [u|e].
  - apply wp_bind, wp_nlog. intros n5 [Hs5 Hv5]. apply wp_ret. leave. split; [done|].
    exists (Ok u). split; [done|]. by rewrite Hv5, Hv4.
  - apply wp_bind. destruct (bool_decide (kind e = IoError) || bool_decide (kind e = CorruptionDetected));
      apply wp_nlog; intros n5 [Hs5 Hv5]; apply wp_ret; leave; (split; [done|]);
      exists (Err e); (split; [done|]); by rewrite Hv5, Hv4.
Qed.

Definition get_post (version : Z) (cid : string) (writable : nat → bool) n
  (o : outcome (Status * list GetChunkResponse)) n' : Prop :=
  match o with
  | Done (st, msgs) => served n n' ∧ nview n' = nview n ∧
      match accept version cid with
      | inl st' => st = st' ∧ msgs = []
      | inr id => st = Status_OK ∧ ∃ r, get_spec io_may_fail (nview n) id r ∧ get_reply writable r msgs
      end
  | _ => False
  end.

Lemma wp_sent (broken : bool) (Q : outcome unit → Node S → Prop) n :
  (∀ n', calm (healthy:=healthy) (view:=view) n n' → Q (Done tt) n') →
  wp (if broken then Warn "GetChunk stream broken by client" else mret tt) Q n.
Proof. intros HQ. destruct broken; [by apply wp_nlog|]. apply wp_ret. by apply HQ. Qed.

Lemma GetChunk_effect (context : ServerContext) (request : GetChunkRequest) (writable : nat → bool) n :
  nhealthy n →
  wp (GetChunk context request writable) (get_post (get_protocol_version request) (get_chunk_id request) writable n) n.
Proof.
  intros Hn. apply wp_handler. intros n1 Hm1 Hh1 Hv1.
  apply wp_bind, wp_clock. intros t n2 [Hs2 Hv2]. rewrite RunPreamble_eq. apply wp_bind, wp_ret.
  unfold get_post, accept. case_bool_decide as Hver; cbn [negb].
  2: { cbn. apply wp_ret. leave. split_and!; congruence. }
  destruct (ChunkId.Parse (get_chunk_id request)) as [id|e] eqn:Hid.
  2: { apply wp_ret. leave. split_and!; congruence. }
  apply wp_bind, wp_get; [apply Hs2; auto|by eapply Parse_valid|].
  intros r n3 [Hs3 Hv3] Hspec. rewrite Hv2, Hv1 in Hspec. destruct r as [data|e].
  - pose proof (SendFrames_eq (length data) writable 1 data ltac:(lia)) as Hsend.
    destruct (SendFrames (length data) writable 1 data) as [frames broken].
    destruct Hsend as (Hg & Hp & Hall & Hb).
    apply wp_bind. apply wp_sent. intros n4 [Hs4 Hv4].
    apply wp_bind, wp_clock. intros t' n5 [Hs5 Hv5].
    apply wp_bind, wp_nlog. intros n6 [Hs6 Hv6]. apply wp_ret. leave. split; [congruence|].
    split; [done|]. exists (Ok data). split; [done|]. exists frames. split_and!; auto.
  - apply wp_bind. destruct (bool_decide _ || bool_decide _); apply wp_nlog; intros n4 [Hs4 Hv4];
      apply wp_ret; leave; (split; [congruence|]); (split; [done|]); by exists (Err e).
Qed.

Definition verify_post (version : Z) (cid : string) n (o : outcome (Status * VerifyChunkResponse)) n' : Prop :=
  match o with
  | Done (st, resp) => served n n' ∧ nview n' = nview n ∧
      match accept version cid with
      | inl st' => st = st' ∧ resp = MkVerResp kCurrentProtocolVersion false ChunkStatus.OK
      | inr id => st = Status_OK ∧ ∃ r, verify_spec io_may_fail (nview n) id r ∧ resp = verify_reply r
      end
  | _ => False
  end.

Lemma VerifyChunk_effect (context : ServerContext) (request : VerifyChunkRequest) n :
  nhealthy n →
  wp (VerifyChunk context request) (verify_post (ver_protocol_version request) (ver_chunk_id request) n) n.
Proof.
  intros Hn. apply wp_handler. intros n1 Hm1 Hh1 Hv1. rewrite RunPreamble_eq. apply wp_bind, wp_ret.
  unfold verify_post, accept. case_bool_decide as Hver; cbn [negb].
  2: { cbn. apply wp_ret. leave. split_and!; congruence. }
  destruct (ChunkId.Parse (ver_chunk_id request)) as [id|e] eqn:Hid.
  2: { apply wp_ret. leave. split_and!; congruence. }
  apply wp_bind, wp_verify; [auto|by eapply Parse_valid|].
  intros r n3 [Hs3 Hv3] Hspec. rewrite Hv1 in Hspec.
  destruct r as [u|e]; apply wp_bind, wp_nlog; intros n4 [Hs4 Hv4]; apply wp_ret; leave;
    (split; [congruence|]); (split; [done|]); [by exists (Ok u)|by exists (Err e)].
Qed.

(** [DeleteChunk] parses the identifier before it checks the version. *)
Definition delete_post (version : Z) (cid : string) n (o : outcome (Status * DeleteChunkResponse)) n' : Prop :=
  match o with
  | Done (st, resp) => served n n' ∧
      match ChunkId.Parse cid with
      | Err _ => st = MkStatus StatusCode.INVALID_ARGUMENT "Invalid chunk_id" ∧
          resp = MkDelResp kCurrentProtocolVersion ChunkStatus.OK ∧ nview n' = nview n
      | Ok id =>
          if bool_decide (version = kCurrentProtocolVersion) then
            st = Status_OK ∧ ∃ r, delete_spec io_may_fail (nview n) id r (nview n') ∧
              resp = MkDelResp kCurrentProtocolVersion (status_of r)
          else st = unsupported ∧ resp = MkDelResp kCurrentProtocolVersion ChunkStatus.OK ∧ nview n' = nview n
      end
  | _ => False
  end.

Lemma DeleteChunk_effect (context : ServerContext) (request : DeleteChunkRequest) n :
  nhealthy n →
  wp (DeleteChunk context request) (delete_post (del_protocol_version request) (del_chunk_id request) n) n.
Proof.
  intros Hn. apply wp_handler. intros n1 Hm1 Hh1 Hv1.
  apply wp_bind, wp_clock. intros t n2 [Hs2 Hv2]. unfold delete_post.
  destruct (ChunkId.Parse (del_chunk_id request)) as [id|e] eqn:Hid.
  2: { apply wp_ret. leave. split_and!; congruence. }
  rewrite RunPreamble_eq. apply wp_bind, wp_ret. case_bool_decide as Hver.
  2: { cbn. apply wp_ret. leave. split_and!; congruence. }
  apply wp_bind, wp_delete; [apply Hs2; auto|by eapply Parse_valid|].
  intros r n3 Hs3 Hspec. rewrite Hv2, Hv1 in Hspec. apply wp_bind, wp_clock. intros t' n4 [Hs4 Hv4].
  destruct r as [u|e]; apply wp_bind, wp_nlog; intros n5 [Hs5 Hv5]; apply wp_ret; leave;
    (split; [done|]); [exists (Ok u)|exists (Err e)]; by rewrite Hv5, Hv4.
Qed.

Lemma GetNodeStats_effect (context : ServerContext) (request : GetNodeStatsRequest) n :
  nhealthy n →
  wp (GetNodeStats context request) (λ o n', match o with
    | Done (st, resp) => served n n' ∧ nview n' = nview n ∧
        statsr_protocol_version resp = kCurrentProtocolVersion ∧
        st = (if bool_decide (stats_protocol_version request = kCurrentProtocolVersion) then Status_OK else unsupported)
    | _ => False
    end) n.
Proof.
  intros Hn. apply wp_handler. intros n1 Hm1 Hh1 Hv1. rewrite RunPreamble_eq. apply wp_bind, wp_ret.
  case_bool_decide as Hver.
  2: { cbn. apply wp_ret. leave. split_and!; congruence. }
  apply wp_bind, wp_stats; [auto|]. intros st n3 [Hs3 Hv3].
  apply wp_bind, wp_nlog. intros n4 [Hs4 Hv4]. apply wp_ret. leave. split_and!; congruence.
Qed.

(** The request a node sends to the source, and what it gets. *)
Definition ask_source (cid : string) (addr : string) (id : ChunkId.t) : list GetChunkResponse * Status :=
  remote_GetChunk addr [(kCorrelationIdMetadataKey, cid)] (MkGetReq kCurrentProtocolVersion (ChunkId.ToHexString id)).

(** What a node answers when the source sent [stream]. *)
Definition stream_reply (max : Z) (m m' : store) (id : ChunkId.t) (stream : list GetChunkResponse * Status)
  (resp : ReplicateChunkResponse) : Prop :=
  match decide_source max stream with
  | inl status => resp = MkRepResp kCurrentProtocolVersion status ∧ m' = m
  | inr payload => ∃ r, put_spec io_may_fail m id payload r m' ∧
      resp = MkRepResp kCurrentProtocolVersion (status_of r)
  end.

Lemma stream_effect (id : ChunkId.t) (t : Z) (response : ReplicateChunkResponse) reader finish
  (Q : outcome (Status * ReplicateChunkResponse) → Node S → Prop) n :
  nhealthy n → ChunkId.valid id → 0 <= max_chunk_bytes_ n < 2 ^ 63 →
  repr_protocol_version response = kCurrentProtocolVersion →
  (∀ resp n', served n n' → stream_reply (max_chunk_bytes_ n) (nview n) (nview n') id (reader, finish) resp →
     Q (Done (Status_OK, resp)) n') →
  wp (ReplicateStream id t response reader finish) Q n.
Proof.
  intros Hn Hv Hmax Hver HQ. unfold ReplicateStream. rewrite Hver. clear Hver.
  unfold stream_reply, decide_source in HQ. cbn [fst snd] in HQ. destruct reader as [|r msgs].
  { apply wp_bind, wp_nlog. intros n' [Hs Hvw]. apply wp_ret. by apply HQ. }
  destruct (getr_has_metadata r && negb (bool_decide (get_status (getr_metadata r) = ChunkStatus.OK))).
  { apply wp_bind, wp_nlog. intros n' [Hs Hvw]. apply wp_ret. by apply HQ. }
  apply wp_bind, wp_gets.
  destruct (max_chunk_bytes_ n <? get_total_size_bytes (getr_metadata r)) eqn:Hlt.
  { apply wp_bind, wp_nlog. intros n' [Hs Hvw]. apply wp_ret. by apply HQ. }
  apply Z.ltb_ge in Hlt. apply wp_bind, wp_lift. unfold reserve.
  destruct (Z.ltb_spec (2 ^ 63 - 1) (get_total_size_bytes (getr_metadata r))) as [?|_]; [lia|].
  rewrite CollectSource_eq. cbn [app]. destruct (ok finish); cbn [negb] in *.
  2: { apply wp_bind, wp_nlog. intros n' [Hs Hvw]. apply wp_ret. by apply HQ. }
  apply wp_bind, wp_put; [done|done|]. intros res n1 Hs1 Hspec. apply wp_bind, wp_clock. intros t' n2 [Hs2 Hv2].
  destruct res as [u|e]; apply wp_bind, wp_nlog; intros n3 [Hs3 Hv3]; apply wp_ret; apply HQ; [chain| |chain|];
    [exists (Ok u)|exists (Err e)]; by rewrite Hv3, Hv2.
Qed.

Definition replicate_post (request : ReplicateChunkRequest) n (o : outcome (Status * ReplicateChunkResponse)) n' : Prop :=
  match o with
  | Done (st, resp) => served n n' ∧
      match accept (rep_protocol_version request) (rep_chunk_id request) with
      | inl st' => st = st' ∧ resp = MkRepResp kCurrentProtocolVersion ChunkStatus.OK ∧ nview n' = nview n
      | inr id => st = Status_OK ∧ ∃ cid,
          stream_reply (max_chunk_bytes_ n) (nview n) (nview n') id
            (ask_source cid (rep_source_node_address request) id) resp
      end
  | _ => False
  end.

Lemma ReplicateChunk_effect (context : ServerContext) (request : ReplicateChunkRequest) n :
  nhealthy n → 0 <= max_chunk_bytes_ n < 2 ^ 63 →
  wp (ReplicateChunk context request) (replicate_post request n) n.
Proof.
  intros Hn Hmax. apply wp_handler. intros n1 Hm1 Hh1 Hv1.
  apply wp_bind, wp_clock. intros t n2 [Hs2 Hv2]. rewrite RunPreamble_eq. apply wp_bind, wp_ret.
  unfold replicate_post, accept. case_bool_decide as Hver; cbn [negb].
  2: { cbn. apply wp_ret. leave. split_and!; congruence. }
  destruct (ChunkId.Parse (rep_chunk_id request)) as [id|e] eqn:Hid.
  2: { apply wp_ret. leave. split_and!; congruence. }
  apply wp_bind, wp_nlog. intros n3 [Hs3 Hv3]. apply wp_bind, wp_correlation. intros cid n4 [Hs4 Hv4].
  change (remote_GetChunk _ _ _) with (ask_source cid (rep_source_node_address request) id).
  destruct (ask_source cid (rep_source_node_address request) id) as [reader finish] eqn:Hask.
  assert (max_chunk_bytes_ n4 = max_chunk_bytes_ n) as Hm4.
  { rewrite <- Hm1. etrans; [apply Hs4|]. etrans; [apply Hs3|]. apply Hs2. }
  apply stream_effect; [by apply Hs4, Hs3, Hs2, Hh1|by eapply Parse_valid|by rewrite Hm4|done|].
  intros resp n5 Hs5 Hreply. leave. split; [done|]. exists cid.
  by rewrite Hask, <- Hm4, <- Hv1, <- Hv2, <- Hv3, <- Hv4.
Qed.

End Handlers.
