(* ===== verification/NodeTheorems.v ===== *)
(** * Properties of the storage node

    The theorems about the handlers, for every chunk store that keeps the
    contract, with their instances on the store on disk. *)

From S2P Require Import Prelude Result Cxx Sha256 ChunkId Time Logger IChunkStore Posix LocalDisk DiskEffects DiskTheorems DiskContract DiskSafety Proto Service ServiceRules ServiceTheorems.
Import Service.

Local Open Scope Z_scope.

Section Theorems.
Context {S : Type} `{HasRuntime S, IChunkStore.Ops S, UuidSource, SteadyClock, Peers, Evp}.
Context {io_may_fail : Prop} {healthy : S → Prop} {view : S → store}.
Context `{!ChunkStoreContract S io_may_fail healthy view}.
Implicit Types n : Node S.

#[local] Abbreviation nhealthy := (ServiceRules.nhealthy (healthy:=healthy)).
#[local] Abbreviation nview := (ServiceRules.nview (view:=view)).
#[local] Abbreviation served := (ServiceRules.served (healthy:=healthy)).

(** A complete upload. *)
Definition upload (hex tok : string) (total : Z) (frames : list PutChunkRequest) : list PutChunkRequest :=
  MkPutReq kCurrentProtocolVersion (PutMetadata (MkPutMeta hex tok total)) :: frames.

(** The view holds [data] for a chunk after a [put_spec] that cannot fail. *)
Lemma put_spec_stored (m m' : store) id data r :
  ¬ io_may_fail → digest_matches id data → m !! ChunkId.ToHexString id = None ∨ m !! ChunkId.ToHexString id = Some data →
  put_spec io_may_fail m id data r m' → r = Ok tt ∧ m' = <[ChunkId.ToHexString id := data]> m.
Proof.
  intros Hio Hd Hm Hr. destruct r as [[]|e].
  - destruct Hr as [_ ->]. split; [done|]. destruct Hm as [-> |Heq]; [done|]. rewrite Heq. by rewrite insert_id.
  - by destruct Hr as [_ [[_ ?]|(_ & _ & ?)]].
Qed.

(** What a [Get] that cannot fail gives for a stored, intact chunk. *)
Lemma get_spec_stored (m : store) id data r :
  ¬ io_may_fail → digest_matches id data → m !! ChunkId.ToHexString id = Some data →
  get_spec io_may_fail m id r → r = Ok data.
Proof.
  intros Hio Hd Hm Hr. unfold get_spec in Hr. rewrite Hm in Hr. destruct r as [d|e].
  - by destruct Hr as [[= ->] _].
  - destruct Hr as [[_ ?]|[(_ & d & [= ->] & ?)|(_ & _ & ?)]]; done.
Qed.

Lemma upload_decision (max : Z) hex tok total frames id :
  ChunkId.Parse hex = Ok id → total <= max → Z.of_nat (length (put_data frames)) <= max →
  decide_put max (upload hex tok total frames) = PutStore id (put_data frames).
Proof.
  intros Hid Ht Hl. cbn. rewrite Hid. destruct (Z.ltb_spec max total); [lia|].
  by destruct (Z.ltb_spec max (Z.of_nat (length (put_data frames)))); [lia|].
Qed.

Lemma upload_stored (context : ServerContext) hex tok total frames id n :
  ¬ io_may_fail → nhealthy n → 0 <= max_chunk_bytes_ n < 2 ^ 63 → small frames →
  ChunkId.Parse hex = Ok id → total <= max_chunk_bytes_ n →
  Z.of_nat (length (put_data frames)) <= max_chunk_bytes_ n → digest_matches id (put_data frames) →
  nview n !! hex = None →
  ∃ n', PutChunk context (upload hex tok total frames) n =
      (Done (Status_OK, MkPutResp kCurrentProtocolVersion ChunkStatus.OK "Success"), n') ∧
    served n n' ∧ nview n' = <[hex := put_data frames]> (nview n).
Proof.
  intros Hio Hn Hmax Hsm Hid Ht Hl Hd Hno.
  assert (small (upload hex tok total frames)) as Hsm' by (apply Forall_cons; split; [cbn; lia|done]).
  destruct (wp_elim _ _ _ (PutChunk_effect (healthy:=healthy) (view:=view) context _ n Hn Hmax Hsm')) as (o & n' & E & Ho).
  unfold put_post in Ho. rewrite (upload_decision _ _ _ _ _ id Hid Ht Hl) in Ho.
  destruct o as [[st resp]| | |]; try done. destruct Ho as (Hs & -> & r & -> & Hspec).
  pose proof Hid as [_ Hhex]%ChunkId.Parse_ok.
  assert (ChunkId.ToHexString id = hex) as Hhex' by done.
  destruct (put_spec_stored (nview n) (nview n') id (put_data frames) r Hio Hd) as [-> Hvw];
    [left; by rewrite Hhex'|done|].
  exists n'. split; [done|]. split; [done|]. by rewrite Hvw, Hhex'.
Qed.

Lemma download_stored (context : ServerContext) hex writable id data n :
  ¬ io_may_fail → nhealthy n → ChunkId.Parse hex = Ok id → digest_matches id data →
  nview n !! hex = Some data → (∀ j, writable j = true) →
  ∃ frames n', GetChunk context (MkGetReq kCurrentProtocolVersion hex) writable n =
      (Done (Status_OK, metadata_message (Z.of_nat (length data)) ChunkStatus.OK :: frames), n') ∧
    get_data frames = data ∧ Forall good_frame frames ∧ served n n' ∧ nview n' = nview n.
Proof.
  intros Hio Hn Hid Hd Hm Hw.
  destruct (wp_elim _ _ _ (GetChunk_effect (healthy:=healthy) (view:=view) context (MkGetReq kCurrentProtocolVersion hex) writable n Hn)) as (o & n' & E & Ho).
  unfold get_post, accept in Ho. cbn [get_protocol_version get_chunk_id] in Ho.
  rewrite bool_decide_true, Hid in Ho by done. cbn [negb] in Ho.
  destruct o as [[st msgs]| | |]; try done. destruct Ho as (Hs & Hvw & -> & r & Hspec & Hreply).
  assert (ChunkId.ToHexString id = hex) as Hhex by (by apply ChunkId.Parse_ok in Hid as [_ ?]).
  rewrite <- Hhex in Hm. rewrite (get_spec_stored _ _ _ _ Hio Hd Hm Hspec) in Hreply.
  destruct Hreply as (frames & Hmsgs & Hg & _ & Hall). exists frames, n'.
  assert (msgs = metadata_message (Z.of_nat (length data)) ChunkStatus.OK :: frames) as ->
    by (rewrite Hmsgs; unfold write; by rewrite Hw).
  split_and!; auto; apply Hs.
Qed.

(** ** Theorems *)

(** C14: A chunk uploaded in any framing is downloaded unchanged: when no call
    of the system fails and the chunk is not there yet, an upload within the
    limit whose bytes have the digest is accepted ([OK]/"Success"), and a
    later [GetChunk] sends the size and then the very same bytes, in frames of
    1 byte to 256 KiB. *)
Theorem upload_download (context context' : ServerContext) (hex tok : string) (total : Z)
  (frames : list PutChunkRequest) (writable : nat → bool) (id : ChunkId.t) n :
  ¬ io_may_fail → nhealthy n → 0 <= max_chunk_bytes_ n < 2 ^ 63 → small frames →
  ChunkId.Parse hex = Ok id → total <= max_chunk_bytes_ n →
  Z.of_nat (length (put_data frames)) <= max_chunk_bytes_ n → digest_matches id (put_data frames) →
  nview n !! hex = None → (∀ j, writable j = true) →
  ∃ n1 n2 sent,
    PutChunk context (upload hex tok total frames) n =
      (Done (Status_OK, MkPutResp kCurrentProtocolVersion ChunkStatus.OK "Success"), n1) ∧
    GetChunk context' (MkGetReq kCurrentProtocolVersion hex) writable n1 =
      (Done (Status_OK, metadata_message (Z.of_nat (length (put_data frames))) ChunkStatus.OK :: sent), n2) ∧
    get_data sent = put_data frames ∧ Forall good_frame sent.
Proof.
  intros Hio Hn Hmax Hsm Hid Ht Hl Hd Hno Hw.
  destruct (upload_stored context hex tok total frames id n) as (n1 & E1 & (_ & _ & Hh) & Hvw); [done..|].
  destruct (download_stored context' hex writable id (put_data frames) n1) as (sent & n2 & E2 & Hg & Hf & _);
    [done|by apply Hh|done|done|by rewrite Hvw, lookup_insert_eq|done|].
  by exists n1, n2, sent.
Qed.

(** C15: The outcome of [PutChunk] on every stream: it always returns; the
    limit on size holds for the declared and for the streamed bytes together;
    nothing reaches the store unless the metadata comes first, the identifier
    parses, the version is supported and both sizes fit; a rejected stream
    leaves the store as it is. *)
Theorem PutChunk_outcome (context : ServerContext) (reader : list PutChunkRequest) n :
  nhealthy n → 0 <= max_chunk_bytes_ n < 2 ^ 63 → small reader →
  ∃ st resp n', PutChunk context reader n = (Done (st, resp), n') ∧ served n n' ∧
    match decide_put (max_chunk_bytes_ n) reader with
    | PutReject st' status msg =>
        st = st' ∧ resp = MkPutResp kCurrentProtocolVersion status msg ∧ nview n' = nview n
    | PutStore id payload =>
        st = Status_OK ∧ ∃ r, resp = put_reply r ∧ put_spec io_may_fail (nview n) id payload r (nview n')
    end.
Proof.
  intros Hn Hmax Hsm.
  destruct (wp_elim _ _ _ (PutChunk_effect (view:=view) context reader n Hn Hmax Hsm)) as ([[st resp]| | |] & n' & E & Ho); try done.
  by exists st, resp, n'.
Qed.

(** C16: [GetChunk] on every request, with a client that may go away at any
    message: it always returns, leaves the store as it is, reports the
    store's answer in its first message, and sends only well-formed frames
    that make a prefix of a chunk whose digest is the identifier asked for. *)
Theorem GetChunk_outcome (context : ServerContext) (request : GetChunkRequest) (writable : nat → bool) n :
  nhealthy n →
  ∃ st msgs n', GetChunk context request writable n = (Done (st, msgs), n') ∧ served n n' ∧ nview n' = nview n ∧
    match accept (get_protocol_version request) (get_chunk_id request) with
    | inl st' => st = st' ∧ msgs = []
    | inr id => st = Status_OK ∧ ∃ r, get_spec io_may_fail (nview n) id r ∧ get_reply writable r msgs
    end.
Proof.
  intros Hn.
  destruct (wp_elim _ _ _ (GetChunk_effect (view:=view) context request writable n Hn)) as ([[st msgs]| | |] & n' & E & Ho); try done.
  by exists st, msgs, n'.
Qed.

(** [DeleteChunk] on every request: it always returns; the chunk is gone
    from the store exactly when the reply says [OK] for a supported version. *)
Theorem DeleteChunk_outcome (context : ServerContext) (request : DeleteChunkRequest) n :
  nhealthy n →
  ∃ st resp n', DeleteChunk context request n = (Done (st, resp), n') ∧ served n n' ∧
    match ChunkId.Parse (del_chunk_id request) with
    | Err _ => st = MkStatus StatusCode.INVALID_ARGUMENT "Invalid chunk_id" ∧ nview n' = nview n
    | Ok id =>
        if bool_decide (del_protocol_version request = kCurrentProtocolVersion) then
          st = Status_OK ∧
          (delr_status resp = ChunkStatus.OK ∧ nview n' = delete (ChunkId.ToHexString id) (nview n) ∨
           delr_status resp = ChunkStatus.IO_ERROR ∧ nview n' = nview n ∧ io_may_fail)
        else st = unsupported ∧ nview n' = nview n
    end.
Proof.
  intros Hn.
  destruct (wp_elim _ _ _ (DeleteChunk_effect (view:=view) context request n Hn)) as ([[st resp]| | |] & n' & E & Ho); try done.
  exists st, resp, n'. destruct Ho as [Hs Ho]. split; [done|]. split; [done|].
  destruct (ChunkId.Parse (del_chunk_id request)) as [id|e]; [|by destruct Ho as (? & _ & ?)].
  case_bool_decide; [|by destruct Ho as (? & _ & ?)].
  destruct Ho as (-> & r & Hspec & ->). split; [done|]. destruct r as [[]|e]; [by left|right].
  destruct Hspec as (-> & Hk & _ & ?). cbn. by rewrite Hk.
Qed.

(** C26: When no call of the system fails, a node that replicates a chunk it
    does not have from a peer which answers as the handler [GetChunk] of a
    node holding the chunk does (over an unbroken stream) ends up with the
    same bytes under the same identifier, provided they have its digest and
    fit its own limit. *)
Theorem replicate_from_node (context : ServerContext) (addr hex : string) (id : ChunkId.t) (data : list byte)
  (context' : string → ServerContext) n (peer : Node S) :
  ¬ io_may_fail → nhealthy n → 0 <= max_chunk_bytes_ n < 2 ^ 63 → nview n !! hex = None →
  nhealthy peer → nview peer !! hex = Some data →
  ChunkId.Parse hex = Ok id → digest_matches id data → Z.of_nat (length data) <= max_chunk_bytes_ n →
  (∀ cid, (GetChunk (context' cid) (MkGetReq kCurrentProtocolVersion hex) (λ _, true) peer).1 =
     match ask_source cid addr id with (msgs, finish) => Done (finish, msgs) end) →
  ∃ n', ReplicateChunk context (MkRepReq kCurrentProtocolVersion hex addr) n =
      (Done (Status_OK, MkRepResp kCurrentProtocolVersion ChunkStatus.OK), n') ∧
    nview n' = <[hex := data]> (nview n).
Proof.
  intros Hio Hn Hmax Hno Hp Hpd Hid Hd Hl Hpeer.
  destruct (wp_elim _ _ _ (ReplicateChunk_effect (view:=view) context (MkRepReq kCurrentProtocolVersion hex addr) n Hn Hmax))
    as ([[st resp]| | |] & n' & E & Ho); try done.
  destruct Ho as [Hs Ho]. unfold accept in Ho. cbn [rep_protocol_version rep_chunk_id rep_source_node_address] in Ho.
  rewrite bool_decide_true, Hid in Ho by done. cbn [negb] in Ho. destruct Ho as (-> & cid & Ho).
  destruct (download_stored (context' cid) hex (λ _, true) id data peer) as (sent & peer' & Eg & Hg & _);
    [done..|].
  specialize (Hpeer cid). rewrite Eg in Hpeer. unfold stream_reply, decide_source in Ho.
  destruct (ask_source cid addr id) as [msgs finish]. injection Hpeer as <- <-. cbn -[get_data] in Ho.
  destruct (Z.ltb_spec (max_chunk_bytes_ n) (Z.of_nat (length data))); [lia|].
  rewrite Hg in Ho. destruct Ho as (r & Hspec & ->).
  assert (ChunkId.ToHexString id = hex) as Hhex by (by apply ChunkId.Parse_ok in Hid as [_ ?]).
  destruct (put_spec_stored (nview n) (nview n') id data r Hio Hd) as [-> Hvw]; [left; by rewrite Hhex|done|].
  exists n'. split; [done|]. by rewrite Hvw, Hhex.
Qed.

(** More bytes than the limit, in whatever frames, are refused by [PutChunk]. *)
Lemma upload_refused (context : ServerContext) hex tok total frames id n :
  nhealthy n → 0 <= max_chunk_bytes_ n < 2 ^ 63 → small frames → ChunkId.Parse hex = Ok id →
  total <= max_chunk_bytes_ n → max_chunk_bytes_ n < Z.of_nat (length (put_data frames)) →
  ∃ n', PutChunk context (upload hex tok total frames) n =
      (Done (MkStatus StatusCode.RESOURCE_EXHAUSTED "Streamed chunk too large",
         MkPutResp kCurrentProtocolVersion ChunkStatus.CHUNK_TOO_LARGE "Streamed chunk too large"), n') ∧
    nview n' = nview n.
Proof.
  intros Hn Hmax Hsm Hid Ht Hbig.
  assert (small (upload hex tok total frames)) as Hsm' by (by apply Forall_cons).
  destruct (wp_elim _ _ _ (PutChunk_effect (view:=view) context (upload hex tok total frames) n Hn Hmax Hsm'))
    as ([[st resp]| | |] & n' & E & Ho); try done.
  destruct Ho as [_ Ho]. cbn in Ho. rewrite Hid in Ho.
  destruct (Z.ltb_spec (max_chunk_bytes_ n) total); [lia|].
  destruct (Z.ltb_spec (max_chunk_bytes_ n) (Z.of_nat (length (put_data frames)))); [|lia].
  destruct Ho as (-> & -> & Hvw). by exists n'.
Qed.

(** C40: [ReplicateChunk] bounds what a source announces, not what it sends.
    When nothing fails and the chunk is not there yet, a source that announces
    a size within [max_chunk_bytes_] and then delivers, in any frames, a chunk
    larger than that is accepted: the chunk is stored and the reply says OK.
    The same bytes uploaded to the same node, in any frames and with any
    announced size within the limit, are refused by [PutChunk] with
    RESOURCE_EXHAUSTED, and the store stays as it is. *)
Theorem replicate_exceeds_limit (context : ServerContext) (addr hex : string) (id : ChunkId.t) (announced : Z)
  (msgs : list GetChunkResponse) n :
  ¬ io_may_fail → nhealthy n → 0 <= max_chunk_bytes_ n < 2 ^ 63 → nview n !! hex = None →
  ChunkId.Parse hex = Ok id → digest_matches id (get_data msgs) →
  announced <= max_chunk_bytes_ n → max_chunk_bytes_ n < Z.of_nat (length (get_data msgs)) →
  (∀ cid, ask_source cid addr id = (metadata_message announced ChunkStatus.OK :: msgs, Status_OK)) →
  (∃ n', ReplicateChunk context (MkRepReq kCurrentProtocolVersion hex addr) n =
      (Done (Status_OK, MkRepResp kCurrentProtocolVersion ChunkStatus.OK), n') ∧
    nview n' = <[hex := get_data msgs]> (nview n)) ∧
  ∀ (context' : ServerContext) (tok : string) (total : Z) (frames : list PutChunkRequest),
    put_data frames = get_data msgs → small frames → total <= max_chunk_bytes_ n →
    ∃ n', PutChunk context' (upload hex tok total frames) n =
        (Done (MkStatus StatusCode.RESOURCE_EXHAUSTED "Streamed chunk too large",
           MkPutResp kCurrentProtocolVersion ChunkStatus.CHUNK_TOO_LARGE "Streamed chunk too large"), n') ∧
      nview n' = nview n.
Proof.
  intros Hio Hn Hmax Hno Hid Hd Ha Hbig Hask. split.
  - destruct (wp_elim _ _ _ (ReplicateChunk_effect (view:=view) context (MkRepReq kCurrentProtocolVersion hex addr) n Hn Hmax))
      as ([[st resp]| | |] & n' & E & Ho); try done.
    destruct Ho as [Hs Ho]. unfold accept in Ho. cbn [rep_protocol_version rep_chunk_id rep_source_node_address] in Ho.
    rewrite bool_decide_true, Hid in Ho by done. cbn [negb] in Ho. destruct Ho as (-> & cid & Ho).
    rewrite Hask in Ho. unfold stream_reply, decide_source in Ho. cbn -[get_data] in Ho.
    destruct (Z.ltb_spec (max_chunk_bytes_ n) announced); [lia|]. destruct Ho as (r & Hspec & ->).
    assert (ChunkId.ToHexString id = hex) as Hhex by (by apply ChunkId.Parse_ok in Hid as [_ ?]).
    destruct (put_spec_stored (nview n) (nview n') id (get_data msgs) r Hio Hd) as [-> Hvw]; [left; by rewrite Hhex|done|].
    exists n'. split; [done|]. by rewrite Hvw, Hhex.
  - intros context' tok total frames Heq Hsm Ht. apply (upload_refused context' hex tok total frames id n); try done.
    by rewrite Heq.
Qed.

End Theorems.
