(* ===== verification/Requests.v ===== *)
(** * All requests at once

    The six handlers as one function of a request: availability, the version
    check and the order of the checks, the capability token. *)

From S2P Require Import Prelude Result Cxx Sha256 ChunkId Time Logger IChunkStore Posix LocalDisk DiskEffects DiskTheorems DiskContract DiskSafety Proto Service ServiceRules ServiceTheorems.
Import Service.

Local Open Scope Z_scope.

Inductive rpc :=
  | RpcPut (context : ServerContext) (reader : list PutChunkRequest)
  | RpcGet (context : ServerContext) (request : GetChunkRequest) (writable : nat → bool)
  | RpcVerify (context : ServerContext) (request : VerifyChunkRequest)
  | RpcDelete (context : ServerContext) (request : DeleteChunkRequest)
  | RpcReplicate (context : ServerContext) (request : ReplicateChunkRequest)
  | RpcStats (context : ServerContext) (request : GetNodeStatsRequest).

(** The handlers, reduced to the status they return. *)
Definition serve {S} `{HasRuntime S, IChunkStore.Ops S, UuidSource, SteadyClock, Peers} (r : rpc) : M (Node S) Status :=
  match r with
  | RpcPut c reader => x ← PutChunk c reader; mret x.1
  | RpcGet c req w => x ← GetChunk c req w; mret x.1
  | RpcVerify c req => x ← VerifyChunk c req; mret x.1
  | RpcDelete c req => x ← DeleteChunk c req; mret x.1
  | RpcReplicate c req => x ← ReplicateChunk c req; mret x.1
  | RpcStats c req => x ← GetNodeStats c req; mret x.1
  end.

(** The protocol version a request carries, when it carries one. *)
Definition rpc_version (r : rpc) : option Z :=
  match r with
  | RpcPut _ (MkPutReq v (PutMetadata _) :: _) => Some v
  | RpcPut _ _ => None
  | RpcGet _ req _ => Some (get_protocol_version req)
  | RpcVerify _ req => Some (ver_protocol_version req)
  | RpcDelete _ req => Some (del_protocol_version req)
  | RpcReplicate _ req => Some (rep_protocol_version req)
  | RpcStats _ req => Some (stats_protocol_version req)
  end.

(** The identifier that [PutChunk] and [DeleteChunk] parse first. *)
Definition parsed_first (r : rpc) : option string :=
  match r with
  | RpcPut _ (MkPutReq _ (PutMetadata m) :: _) => Some (put_chunk_id m)
  | RpcDelete _ req => Some (del_chunk_id req)
  | _ => None
  end.

Definition rpc_small (r : rpc) : Prop :=
  match r with RpcPut _ reader => small reader | _ => True end.

(** ** Requests that never reach the store *)

Section Idle.
Context {S : Type} `{HasRuntime S, IChunkStore.Ops S, UuidSource, SteadyClock, Peers}.
Implicit Types n : Node S.

(** Nothing but the runtime of the store has moved: no operation was called. *)
Definition idle n n' : Prop := ∃ r, chunk_store_ n' = set_runtime r (chunk_store_ n).

#[export] Instance idle_refl : Reflexive idle.
Proof. intros n. exists (runtime (chunk_store_ n)). by rewrite set_runtime_get. Qed.

#[export] Instance idle_trans : Transitive idle.
Proof. intros n1 n2 n3 [r Hr] [r' Hr']. exists r'. by rewrite Hr', Hr, set_runtime_set. Qed.

Lemma idle_runtime r n : idle n (set_runtime r n).
Proof. by exists r. Qed.

Lemma wp_idle_log lvl m (Q : outcome unit → Node S → Prop) n :
  (∀ n', idle n n' → Q (Done tt) n') → wp (on_runtime (log lvl m [])) Q n.
Proof.
  intros HQ. apply wp_zoom. unfold wp, log.
  destruct (op_logger (impl_ (runtime n))); cbn; by apply HQ, idle_runtime.
Qed.

Lemma wp_idle_clock (Q : outcome Z → Node S → Prop) n :
  (∀ t n', idle n n' → Q (Done t) n') → wp read_clock Q n.
Proof. intros HQ. unfold wp, read_clock, state. cbn. apply HQ. exists (runtime (chunk_store_ n)). by rewrite set_runtime_get. Qed.

Lemma wp_idle_handler {A} (context : ServerContext) (body : M (Node S) A) (P : A → Prop) n :
  (∀ n1, idle n n1 → wp body (λ o n2, idle n n2 ∧ match o with Done a => P a | _ => False end) n1) →
  wp (cid ← GetCorrelationId context; with_scope cid body)
    (λ o n', idle n n' ∧ match o with Done a => P a | _ => False end) n.
Proof.
  intros Hbody. apply wp_bind.
  assert (∀ cid n1, idle n n1 → wp (with_scope cid body) (λ o n', idle n n' ∧ match o with Done a => P a | _ => False end) n1) as Hscope.
  { intros cid n1 Hi. unfold with_scope. apply wp_bind. apply wp_zoom. unfold wp at 1. cbn [fst snd].
    apply wp_scoped. eapply wp_mono; [apply Hbody; etrans; [exact Hi|apply idle_runtime]|].
    intros [a|e| |] n2 [Hi2 Ho]; try done. apply wp_bind. apply wp_zoom. unfold wp. cbn.
    split; [etrans; [exact Hi2|apply idle_runtime]|done]. }
  unfold GetCorrelationId. destruct (metadata_find _ _).
  - by apply wp_ret, Hscope.
  - apply wp_zoom. unfold wp at 1. cbn. apply Hscope, idle_runtime.
Qed.

End Idle.

(** ** Refused versions *)

Section Version.
Context {S : Type} `{HasRuntime S, IChunkStore.Ops S, UuidSource, SteadyClock, Peers}.
Implicit Types n : Node S.

(** What a request with an unsupported version is told. *)
Definition refusal (r : rpc) (st : Status) : Prop :=
  match parsed_first r with
  | Some hex =>
      match ChunkId.Parse hex with
      | Err _ => st = MkStatus StatusCode.INVALID_ARGUMENT "Invalid chunk_id"
      | Ok _ => st = unsupported
      end
  | None => st = unsupported
  end.

(** The reduction of a handler to its status. *)
Lemma wp_status {A} (m : M (Node S) (Status * A)) (P : Status → Prop) n :
  wp m (λ o n', idle n n' ∧ match o with Done a => P a.1 | _ => False end) n →
  wp (x ← m; mret x.1) (λ o n', idle n n' ∧ match o with Done st => P st | _ => False end) n.
Proof. intros Hw. apply wp_bind. eapply wp_mono; [exact Hw|]. by intros [a| | |] n' [? ?]. Qed.

Lemma not_current v : v ≠ kCurrentProtocolVersion → bool_decide (v = kCurrentProtocolVersion) = false.
Proof. intros Hv. by apply bool_decide_false. Qed.

Ltac idle := repeat match goal with
  | H : idle ?a ?b |- idle ?a _ => etrans; [exact H|clear H]
  | |- idle ?a ?a => reflexivity
  end.

Lemma put_refused context v m frames n :
  v ≠ kCurrentProtocolVersion →
  wp (PutChunk context (MkPutReq v (PutMetadata m) :: frames))
    (λ o n', idle n n' ∧ match o with Done a => refusal (RpcPut context (MkPutReq v (PutMetadata m) :: frames)) a.1 | _ => False end) n.
Proof.
  intros Hv. apply (wp_idle_handler context _ (λ a, refusal (RpcPut context _) a.1)). intros n1 Hi1.
  apply wp_bind, wp_idle_clock. intros t n2 Hi2. cbn [put_payload]. unfold refusal. cbn [parsed_first].
  destruct (ChunkId.Parse (put_chunk_id m)) as [id|e].
  - rewrite RunPreamble_eq. apply wp_bind, wp_ret. cbn [put_protocol_version]. rewrite not_current by done. cbn.
    apply wp_ret. split; [idle|done].
  - apply wp_bind, wp_idle_log. intros n3 Hi3. apply wp_ret. split; [idle|done].
Qed.

Lemma delete_refused context request n :
  del_protocol_version request ≠ kCurrentProtocolVersion →
  wp (DeleteChunk context request)
    (λ o n', idle n n' ∧ match o with Done a => refusal (RpcDelete context request) a.1 | _ => False end) n.
Proof.
  intros Hv. apply (wp_idle_handler context _ (λ a, refusal (RpcDelete context request) a.1)). intros n1 Hi1.
  apply wp_bind, wp_idle_clock. intros t n2 Hi2. unfold refusal. cbn [parsed_first].
  destruct (ChunkId.Parse (del_chunk_id request)) as [id|e].
  - rewrite RunPreamble_eq. apply wp_bind, wp_ret. rewrite not_current by done. cbn. apply wp_ret. split; [idle|done].
  - apply wp_ret. split; [idle|done].
Qed.

(** The other four check the version before anything else. *)
Lemma preamble_refused {A} (v : Z) (fail : Status → Status * A) (rest : M (Node S) (Status * A)) n n1 :
  v ≠ kCurrentProtocolVersion → (∀ st, (fail st).1 = st) → idle n n1 →
  wp (preamble_err ← RunPreamble v None None;
      match preamble_err with Some err => mret (fail err) | None => rest end)
    (λ o n2, idle n n2 ∧ match o with Done a => a.1 = unsupported | _ => False end) n1.
Proof.
  intros Hv Hf Hi. rewrite RunPreamble_eq. apply wp_bind, wp_ret. rewrite not_current by done. cbn.
  apply wp_ret. split; [done|apply Hf].
Qed.

Ltac refused c :=
  apply (wp_idle_handler c _ (λ a, a.1 = unsupported)); intros;
  try (apply wp_bind, wp_idle_clock; intros);
  eapply (preamble_refused _ (λ st, (st, _))); [done|reflexivity|idle].

(** C30: A request with an unsupported protocol version never reaches the
    store and is refused with FAILED_PRECONDITION, whichever handler it is
    for; but [PutChunk] and [DeleteChunk] parse the identifier before they
    look at the version, so there a malformed identifier is reported as
    INVALID_ARGUMENT instead. *)
Theorem version_refused (r : rpc) (v : Z) n :
  rpc_version r = Some v → v ≠ kCurrentProtocolVersion →
  ∃ st n', serve r n = (Done st, n') ∧ refusal r st ∧
    ∃ rt, chunk_store_ n' = set_runtime rt (chunk_store_ n).
Proof.
  intros Hr Hv.
  assert (wp (serve r) (λ o n', idle n n' ∧ match o with Done st => refusal r st | _ => False end) n) as Hw.
  { destruct r as [c [|[v' [m| |]] frames]|c req w|c req|c req|c req|c req]; try done;
      cbn in Hr; injection Hr as <-; cbn [serve]; apply wp_status.
    - by apply put_refused.
    - refused c.
    - refused c.
    - by apply delete_refused.
    - refused c.
    - refused c. }
  destruct (wp_elim _ _ _ Hw) as ([st| | |] & n' & E & [rt Hrt] & Ho); try done.
  exists st, n'. split_and!; [done|done|by exists rt].
Qed.

End Version.

(** ** Every request is served *)

Section Served.
Context {S : Type} `{HasRuntime S, IChunkStore.Ops S, UuidSource, SteadyClock, Peers, Evp}.
Context {io_may_fail : Prop} {healthy : S → Prop} {view : S → store}.
Context `{!ChunkStoreContract S io_may_fail healthy view}.
Implicit Types n : Node S.

#[local] Abbreviation served := (ServiceRules.served (healthy:=healthy)).

Lemma serve_effect (r : rpc) n :
  ServiceRules.nhealthy (healthy:=healthy) n → 0 <= max_chunk_bytes_ n < 2 ^ 63 → rpc_small r →
  wp (serve r) (λ o n', match o with Done _ => served n n' | _ => False end) n.
Proof.
  intros Hn Hmax Hsm. destruct r as [c reader|c req w|c req|c req|c req|c req]; cbn [serve]; apply wp_bind.
  - eapply wp_mono; [by apply (PutChunk_effect (view:=view))|]. intros [[st x]| | |] n' Ho; try done. apply wp_ret, Ho.
  - eapply wp_mono; [by apply (GetChunk_effect (view:=view))|]. intros [[st x]| | |] n' Ho; try done. apply wp_ret, Ho.
  - eapply wp_mono; [by apply (VerifyChunk_effect (view:=view))|]. intros [[st x]| | |] n' Ho; try done. apply wp_ret, Ho.
  - eapply wp_mono; [by apply (DeleteChunk_effect (view:=view))|]. intros [[st x]| | |] n' Ho; try done. apply wp_ret, Ho.
  - eapply wp_mono; [by apply (ReplicateChunk_effect (view:=view))|]. intros [[st x]| | |] n' Ho; try done. apply wp_ret, Ho.
  - eapply wp_mono; [by apply (GetNodeStats_effect (view:=view))|]. intros [[st x]| | |] n' Ho; try done. apply wp_ret, Ho.
Qed.

(** C17: Availability: over a store that keeps its contract, with a limit
    below 2^63, no request of any of the six handlers makes the node throw,
    hang or lose track: the handler returns a status, the store is well
    formed afterwards, and the thread has its caller's correlation id and
    logger back. *)
Theorem every_request_served (r : rpc) n :
  ServiceRules.nhealthy (healthy:=healthy) n → 0 <= max_chunk_bytes_ n < 2 ^ 63 → rpc_small r →
  ∃ st n', serve r n = (Done st, n') ∧ ServiceRules.nhealthy (healthy:=healthy) n' ∧
    max_chunk_bytes_ n' = max_chunk_bytes_ n ∧ same_caller n n'.
Proof.
  intros Hn Hmax Hsm. pose proof (serve_effect r n Hn Hmax Hsm) as Hw.
  destruct (wp_elim _ _ _ Hw) as ([st| | |] & n' & E & Ho); try done. destruct Ho as (Hm & Hc & Hh).
  exists st, n'. split_and!; auto; apply Hc.
Qed.

End Served.

(** ** Capability tokens *)

Section Tokens.
Context {S : Type} `{HasRuntime S, IChunkStore.Ops S, UuidSource, SteadyClock}.

(** Bodies that do the same make handlers that do the same. *)
Lemma handler_ext {A} (context : ServerContext) (body body' : M (Node S) A) (n : Node S) :
  (∀ n1, body n1 = body' n1) →
  (cid ← GetCorrelationId context; with_scope cid body) n =
  (cid ← GetCorrelationId context; with_scope cid body') n.
Proof.
  intros Hb. unfold mbind at 1 2, M_bind at 1 2. destruct (GetCorrelationId context n) as [[cid| | |] n0]; try done.
  unfold with_scope. unfold mbind at 1 2, M_bind at 1 2.
  destruct (WithCorrelationId cid n0) as [[p| | |] n1]; try done. unfold scoped. by rewrite Hb.
Qed.

Lemma bind_ext {A B} (m : M (Node S) A) (f g : A → M (Node S) B) n :
  (∀ a n1, f a n1 = g a n1) → (m ≫= f) n = (m ≫= g) n.
Proof. intros Hf. unfold mbind, M_bind. by destruct (m n) as [[] ?]. Qed.

(** Capability tokens have no effect: the validation is a stub that
    accepts everything, so whatever token a client sends, [PutChunk] and
    [DeleteChunk] do exactly the same. *)
Theorem capability_token_ignored (context : ServerContext) (v : Z) (hex tok tok' : string) (total : Z)
  (frames : list PutChunkRequest) (n : Node S) :
  PutChunk context (MkPutReq v (PutMetadata (MkPutMeta hex tok total)) :: frames) n =
    PutChunk context (MkPutReq v (PutMetadata (MkPutMeta hex tok' total)) :: frames) n ∧
  DeleteChunk context (MkDelReq v hex tok) n = DeleteChunk context (MkDelReq v hex tok') n.
Proof.
  split.
  - apply handler_ext. intros n1. apply bind_ext. intros t n2. cbn [put_payload put_chunk_id].
    destruct (ChunkId.Parse hex) as [id|e]; [|done]. by rewrite !RunPreamble_eq.
  - apply handler_ext. intros n1. apply bind_ext. intros t n2. cbn [del_chunk_id].
    destruct (ChunkId.Parse hex) as [id|e]; [|done]. by rewrite !RunPreamble_eq.
Qed.

End Tokens.
