(* ===== verification/Handlers.v ===== *)
(** * The handlers of the node as programs

    The six handlers of [Service] a second time, over the disk store, cut into
    the atomic actions of [Programs]: each log line, each UUID, each change of
    the thread's correlation id is an action, and the store's operations are
    the programs of [Threaded]. Each [Read] and each [Write] on a stream
    is an action that takes its time ([message_passes]). A call brings its own
    readings of the clock ([clock i] is the i-th), the messages its client
    will send and what a remote node will answer to it ([source]); they arrive
    one by one. Run by one thread alone the programs are the handlers of
    [Service]. *)

From S2P Require Import Prelude Result Cxx Sha256 ChunkId Time Logger IChunkStore Posix LocalDisk Proto Service Requests Programs.
Import LocalDisk.

Local Open Scope Z_scope.

Module Handlers.
Import Service.

(** What each handler returns. *)
Inductive rpc_reply :=
  | PutReply (st : Status) (response : PutChunkResponse)
  | GetReply (st : Status) (sent : list GetChunkResponse)
  | VerifyReply (st : Status) (response : VerifyChunkResponse)
  | DeleteReply (st : Status) (response : DeleteChunkResponse)
  | ReplicateReply (st : Status) (response : ReplicateChunkResponse)
  | StatsReply (st : Status) (response : GetNodeStatsResponse).

Section Handlers.
Context `{Evp, Platform, UuidSource}.
Variables (data_root_ : path) (max_chunk_bytes_ : Z).

(** One call's readings of the clock, and its answer from the source. *)
Variables (clock : nat → Z) (source : list GetChunkResponse * Status).

Definition with_scope {A} (correlation_id : string) (body : prog A) : prog A :=
  previous_value ← act (WithCorrelationId correlation_id);
  protect (act (ScopedCorrelationId_destroy previous_value)) body.

Definition GetCorrelationId (context : ServerContext) : prog string :=
  match metadata_find kCorrelationIdMetadataKey (client_metadata context) with
  | Some v => mret v
  | None => act GenerateUuidV4
  end.

Definition RunPreamble (received_protocol_version : Z) (capability_token : option string)
  (token_scoped_chunk_id : option ChunkId.t) : prog (option Status) :=
  let version_check := CheckProtocolVersion received_protocol_version kCurrentProtocolVersion kCurrentProtocolVersion in
  if negb (IsOk version_check) then
    mret (Some (MkStatus StatusCode.FAILED_PRECONDITION "Unsupported protocol version"))
  else
    match capability_token, token_scoped_chunk_id with
    | Some token, Some id =>
        if negb (IsOk (ValidateCapabilityToken token id)) then
          act (Warn ("CAPABILITY_DENIED for chunk " +:+ ChunkId.ToHexString id));;
          mret (Some (MkStatus StatusCode.PERMISSION_DENIED "CAPABILITY_DENIED"))
        else mret None
    | _, _ => mret None
    end.

(** The loops over the streams. The last [Read] finds the stream closed. *)
Fixpoint CollectFrames (frames : list PutChunkRequest) (payload : list byte) : prog (option (list byte)) :=
  message_passes;;
  match frames with
  | [] => mret (Some payload)
  | frame :: rest =>
      match put_payload frame with
      | PutDataChunk data =>
          if max_chunk_bytes_ <? wrap64 (Z.of_nat (length payload) + Z.of_nat (length data)) then mret None
          else CollectFrames rest (payload ++ data)
      | _ => CollectFrames rest payload
      end
  end.

Fixpoint SendFrames (fuel : nat) (writable : nat → bool) (i : nat) (rest : list byte) :
  prog (list GetChunkResponse * bool) :=
  match fuel with
  | O => mret ([], false)
  | Datatypes.S fuel' =>
      match rest with
      | [] => mret ([], false)
      | _ =>
          let chunk_size := Z.to_nat (Z.min kStreamFrameSizeBytes (Z.of_nat (length rest))) in
          let frame := MkGetResp kCurrentProtocolVersion (GetDataChunk (take chunk_size rest)) in
          message_passes;;
          if negb (writable i) then mret ([], true)
          else
            r ← SendFrames fuel' writable (Datatypes.S i) (drop chunk_size rest);
            mret (frame :: r.1, r.2)
      end
  end.

Fixpoint CollectSource (msgs : list GetChunkResponse) (payload : list byte) : prog (list byte) :=
  message_passes;;
  match msgs with
  | [] => mret payload
  | get_resp :: rest =>
      match getr_payload get_resp with
      | GetDataChunk data => CollectSource rest (payload ++ data)
      | _ => CollectSource rest payload
      end
  end.

(** [PutChunk] from the loop over the frames on. *)
Definition PutChunk_stream (chunk_id : ChunkId.t) (start_time : Z) (response : PutChunkResponse)
  (frames : list PutChunkRequest) : prog (Status * PutChunkResponse) :=
  collected ← CollectFrames frames [];
  match collected with
  | None =>
      act (Warn "CHUNK_TOO_LARGE during streaming");;
      mret (MkStatus StatusCode.RESOURCE_EXHAUSTED "Streamed chunk too large",
        MkPutResp (putr_protocol_version response) ChunkStatus.CHUNK_TOO_LARGE "Streamed chunk too large")
  | Some payload =>
      put_res ← Threaded.Put data_root_ chunk_id payload;
      let end_time := clock 1 in
      let duration_ms := milliseconds start_time end_time in
      match put_res with
      | Ok _ =>
          act (Info ("PutChunk successful for " +:+ ChunkId.ToHexString chunk_id +:+ " in " +:+ pretty duration_ms +:+ "ms"));;
          mret (Status_OK, MkPutResp (putr_protocol_version response) ChunkStatus.OK "Success")
      | Err e =>
          (if bool_decide (kind e = IoError) || bool_decide (kind e = CorruptionDetected)
           then act (LogError ("PutChunk failed: " +:+ message e))
           else act (Warn ("PutChunk domain error: " +:+ message e)));;
          mret (Status_OK, MkPutResp (putr_protocol_version response) (MapStoreError (kind e)) (message e))
      end
  end.

Definition PutChunk (context : ServerContext) (reader : list PutChunkRequest) : prog (Status * PutChunkResponse) :=
  cid ← GetCorrelationId context;
  with_scope cid (
    let start_time := clock 0 in
    let response := MkPutResp kCurrentProtocolVersion (putr_status PutChunkResponse_new) (putr_message PutChunkResponse_new) in
    message_passes;;
    match reader with
    | [] =>
        act (LogError "PutChunk failed: stream closed before metadata");;
        mret (MkStatus StatusCode.INVALID_ARGUMENT "Missing metadata", response)
    | first_req :: frames =>
        match put_payload first_req with
        | PutMetadata metadata =>
            match ChunkId.Parse (put_chunk_id metadata) with
            | Err _ =>
                act (LogError "PutChunk failed: invalid chunk_id");;
                mret (MkStatus StatusCode.INVALID_ARGUMENT "Invalid chunk_id", response)
            | Ok chunk_id =>
                preamble_err ← RunPreamble (put_protocol_version first_req)
                  (Some (put_capability_token metadata)) (Some chunk_id);
                match preamble_err with
                | Some err =>
                    if String.eqb (error_message err) "CAPABILITY_DENIED" then
                      mret (Status_OK, MkPutResp (putr_protocol_version response)
                        ChunkStatus.CAPABILITY_DENIED "Capability token denied")
                    else mret (err, response)
                | None =>
                    let total_size := put_total_size_bytes metadata in
                    if max_chunk_bytes_ <? total_size then
                      act (Warn ("CHUNK_TOO_LARGE: requested " +:+ pretty total_size +:+ " > " +:+ pretty max_chunk_bytes_));;
                      mret (MkStatus StatusCode.RESOURCE_EXHAUSTED "Chunk too large",
                        MkPutResp (putr_protocol_version response) ChunkStatus.CHUNK_TOO_LARGE "Chunk too large")
                    else
                      act (lift (reserve total_size));;
                      PutChunk_stream chunk_id start_time response frames
                end
            end
        | _ =>
            act (LogError "PutChunk failed: first message missing metadata");;
            mret (MkStatus StatusCode.INVALID_ARGUMENT "First message must contain metadata", response)
        end
    end).

Definition GetChunk (context : ServerContext) (request : GetChunkRequest) (writable : nat → bool) :
  prog (Status * list GetChunkResponse) :=
  cid ← GetCorrelationId context;
  with_scope cid (
    let start_time := clock 0 in
    preamble_err ← RunPreamble (get_protocol_version request) None None;
    match preamble_err with
    | Some err => mret (err, [])
    | None =>
        match ChunkId.Parse (get_chunk_id request) with
        | Err _ => mret (MkStatus StatusCode.INVALID_ARGUMENT "Invalid chunk_id", [])
        | Ok chunk_id =>
            get_res ← Threaded.Get data_root_ chunk_id;
            match get_res with
            | Err e =>
                let status := MapStoreError (kind e) in
                message_passes;;
                let sent := write writable 0 (MkGetResp kCurrentProtocolVersion (GetMetadata (MkGetMeta 0 status))) in
                (if bool_decide (status = ChunkStatus.CORRUPTION_DETECTED) || bool_decide (status = ChunkStatus.IO_ERROR)
                 then act (LogError ("GetChunk failed for " +:+ ChunkId.ToHexString chunk_id +:+ ": " +:+ message e))
                 else act (Info ("GetChunk completed with " +:+ message e)));;
                mret (Status_OK, sent)
            | Ok data =>
                message_passes;;
                let sent := write writable 0 (MkGetResp kCurrentProtocolVersion
                  (GetMetadata (MkGetMeta (Z.of_nat (length data)) ChunkStatus.OK))) in
                '(frames, broken) ← SendFrames (length data) writable 1 data;
                (if (broken : bool) then act (Warn "GetChunk stream broken by client") else mret tt);;
                let end_time := clock 1 in
                let duration_ms := milliseconds start_time end_time in
                act (Info ("GetChunk successful for " +:+ ChunkId.ToHexString chunk_id +:+ " in " +:+ pretty duration_ms +:+ "ms"));;
                mret (Status_OK, sent ++ frames)
            end
        end
    end).

Definition VerifyChunk (context : ServerContext) (request : VerifyChunkRequest) : prog (Status * VerifyChunkResponse) :=
  cid ← GetCorrelationId context;
  with_scope cid (
    let response := MkVerResp kCurrentProtocolVersion (verr_is_valid VerifyChunkResponse_new) (verr_status VerifyChunkResponse_new) in
    preamble_err ← RunPreamble (ver_protocol_version request) None None;
    match preamble_err with
    | Some err => mret (err, response)
    | None =>
        match ChunkId.Parse (ver_chunk_id request) with
        | Err _ => mret (MkStatus StatusCode.INVALID_ARGUMENT "Invalid chunk_id", response)
        | Ok chunk_id =>
            ver_res ← Threaded.VerifyOnly data_root_ chunk_id;
            match ver_res with
            | Ok _ =>
                act (Debug ("VerifyChunk OK for " +:+ ChunkId.ToHexString chunk_id));;
                mret (Status_OK, MkVerResp (verr_protocol_version response) true ChunkStatus.OK)
            | Err e =>
                act (Debug ("VerifyChunk failed for " +:+ ChunkId.ToHexString chunk_id +:+ ": " +:+ message e));;
                mret (Status_OK, MkVerResp (verr_protocol_version response) false (MapStoreError (kind e)))
            end
        end
    end).

Definition DeleteChunk (context : ServerContext) (request : DeleteChunkRequest) : prog (Status * DeleteChunkResponse) :=
  cid ← GetCorrelationId context;
  with_scope cid (
    let start_time := clock 0 in
    let response := MkDelResp kCurrentProtocolVersion (delr_status DeleteChunkResponse_new) in
    match ChunkId.Parse (del_chunk_id request) with
    | Err _ => mret (MkStatus StatusCode.INVALID_ARGUMENT "Invalid chunk_id", response)
    | Ok chunk_id =>
        preamble_err ← RunPreamble (del_protocol_version request) (Some (del_capability_token request)) (Some chunk_id);
        match preamble_err with
        | Some err =>
            if String.eqb (error_message err) "CAPABILITY_DENIED" then
              mret (Status_OK, MkDelResp (delr_protocol_version response) ChunkStatus.CAPABILITY_DENIED)
            else mret (err, response)
        | None =>
            del_res ← Threaded.Delete data_root_ chunk_id;
            let end_time := clock 1 in
            let duration_ms := milliseconds start_time end_time in
            match del_res with
            | Ok _ =>
                act (Info ("DeleteChunk successful for " +:+ ChunkId.ToHexString chunk_id +:+ " in " +:+ pretty duration_ms +:+ "ms"));;
                mret (Status_OK, MkDelResp (delr_protocol_version response) ChunkStatus.OK)
            | Err e =>
                act (LogError ("DeleteChunk failed for " +:+ ChunkId.ToHexString chunk_id +:+ ": " +:+ message e));;
                mret (Status_OK, MkDelResp (delr_protocol_version response) (MapStoreError (kind e)))
            end
        end
    end).

Definition ReplicateStream (chunk_id : ChunkId.t) (start_time : Z) (response : ReplicateChunkResponse)
  (reader : list GetChunkResponse) (finish : Status) : prog (Status * ReplicateChunkResponse) :=
  message_passes;;
  match reader with
  | [] =>
      act (LogError "ReplicateChunk failed: SOURCE_UNREACHABLE");;
      mret (Status_OK, MkRepResp (repr_protocol_version response) ChunkStatus.SOURCE_UNREACHABLE)
  | get_resp :: msgs =>
      let metadata := getr_metadata get_resp in
      if getr_has_metadata get_resp && negb (bool_decide (get_status metadata = ChunkStatus.OK)) then
        act (LogError ("ReplicateChunk source returned status: " +:+ pretty (ChunkStatus.number (get_status metadata))));;
        mret (Status_OK, MkRepResp (repr_protocol_version response) (get_status metadata))
      else
        let expected_size := get_total_size_bytes metadata in
        if max_chunk_bytes_ <? expected_size then
          act (Warn "ReplicateChunk source offered chunk too large");;
          mret (Status_OK, MkRepResp (repr_protocol_version response) ChunkStatus.CHUNK_TOO_LARGE)
        else
          act (lift (reserve expected_size));;
          payload ← CollectSource msgs [];
          message_passes;;
          if negb (ok finish) then
            act (LogError ("ReplicateChunk RPC failed: " +:+ error_message finish));;
            mret (Status_OK, MkRepResp (repr_protocol_version response) ChunkStatus.SOURCE_UNREACHABLE)
          else
            put_res ← Threaded.Put data_root_ chunk_id payload;
            let end_time := clock 1 in
            let duration_ms := milliseconds start_time end_time in
            match put_res with
            | Ok _ =>
                act (Info ("ReplicateChunk successful for " +:+ ChunkId.ToHexString chunk_id +:+ " in " +:+ pretty duration_ms +:+ "ms"));;
                mret (Status_OK, MkRepResp (repr_protocol_version response) ChunkStatus.OK)
            | Err e =>
                act (LogError ("ReplicateChunk Put failed: " +:+ message e));;
                mret (Status_OK, MkRepResp (repr_protocol_version response) (MapStoreError (kind e)))
            end
  end.

Definition ReplicateChunk (context : ServerContext) (request : ReplicateChunkRequest) :
  prog (Status * ReplicateChunkResponse) :=
  cid ← GetCorrelationId context;
  with_scope cid (
    let start_time := clock 0 in
    let response := MkRepResp kCurrentProtocolVersion (repr_status ReplicateChunkResponse_new) in
    preamble_err ← RunPreamble (rep_protocol_version request) None None;
    match preamble_err with
    | Some err => mret (err, response)
    | None =>
        match ChunkId.Parse (rep_chunk_id request) with
        | Err _ => mret (MkStatus StatusCode.INVALID_ARGUMENT "Invalid chunk_id", response)
        | Ok chunk_id =>
            act (Info ("ReplicateChunk requested for " +:+ ChunkId.ToHexString chunk_id +:+ " from " +:+ rep_source_node_address request));;
            cid' ← GetCorrelationId context;
            let '(reader, finish) := source in
            ReplicateStream chunk_id start_time response reader finish
        end
    end).

Definition GetNodeStats (context : ServerContext) (request : GetNodeStatsRequest) : prog (Status * GetNodeStatsResponse) :=
  cid ← GetCorrelationId context;
  with_scope cid (
    let response := MkStatsResp kCurrentProtocolVersion (statsr_chunk_count GetNodeStatsResponse_new)
      (statsr_bytes_used GetNodeStatsResponse_new) (statsr_bytes_free GetNodeStatsResponse_new) in
    preamble_err ← RunPreamble (stats_protocol_version request) None None;
    match preamble_err with
    | Some err => mret (err, response)
    | None =>
        stats ← Threaded.GetStats data_root_;
        act (Debug "GetNodeStats completed");;
        mret (Status_OK, MkStatsResp (statsr_protocol_version response)
          (chunk_count stats) (bytes_used stats) (bytes_free stats))
    end).

(** What the thread of a call executes. *)
Definition handle (r : rpc) : prog rpc_reply :=
  match r with
  | RpcPut c reader => x ← PutChunk c reader; mret (PutReply x.1 x.2)
  | RpcGet c req w => x ← GetChunk c req w; mret (GetReply x.1 x.2)
  | RpcVerify c req => x ← VerifyChunk c req; mret (VerifyReply x.1 x.2)
  | RpcDelete c req => x ← DeleteChunk c req; mret (DeleteReply x.1 x.2)
  | RpcReplicate c req => x ← ReplicateChunk c req; mret (ReplicateReply x.1 x.2)
  | RpcStats c req => x ← GetNodeStats c req; mret (StatsReply x.1 x.2)
  end.

End Handlers.

(** ** One thread alone runs the handlers of [Service] *)

Section Alone.
Context `{Evp, Platform, UuidSource, SteadyClock, Peers}.
Variables (data_root_ : path) (max : Z) (read : nat).

#[local] Instance store_ops : IChunkStore.Ops Disk := LocalDisk.ops data_root_.

(** The handlers of [Service] over the disk store. *)
Definition handle_node (r : rpc) : M (Node Disk) rpc_reply :=
  match r with
  | RpcPut c reader => x ← Service.PutChunk c reader; mret (PutReply x.1 x.2)
  | RpcGet c req w => x ← Service.GetChunk c req w; mret (GetReply x.1 x.2)
  | RpcVerify c req => x ← Service.VerifyChunk c req; mret (VerifyReply x.1 x.2)
  | RpcDelete c req => x ← Service.DeleteChunk c req; mret (DeleteReply x.1 x.2)
  | RpcReplicate c req => x ← Service.ReplicateChunk c req; mret (ReplicateReply x.1 x.2)
  | RpcStats c req => x ← Service.GetNodeStats c req; mret (StatsReply x.1 x.2)
  end.

(** A program beside a computation that does not look at the clock, and
    beside one that starts with [i] readings of the call taken. *)
Definition keeps {A} (p : prog A) (m : M (Node Disk) A) : Prop :=
  ∀ d k, m (MkNode d max k) = ((run p d).1, MkNode (run p d).2 max k).

Definition beside {A} (i : nat) (p : prog A) (m : M (Node Disk) A) : Prop :=
  ∀ d, ∃ k, m (MkNode d max (read + i)) = ((run p d).1, MkNode (run p d).2 max k).

Lemma keeps_act {A} (m : M Runtime A) : keeps (act (on_runtime m)) (on_runtime m).
Proof.
  intros d k. rewrite run_act. unfold on_runtime, zoom. cbn. by destruct (m (rt d)).
Qed.

Lemma keeps_lift {A} (o : outcome A) : keeps (act (lift o)) (lift o).
Proof. intros d k. by rewrite run_act. Qed.

Lemma keeps_store {A} (p : prog A) (m : M Disk A) : same_run (run p) m → keeps p (on_store m).
Proof. intros Hp d k. rewrite (Hp d). unfold on_store, zoom. cbn. by destruct (m d). Qed.

Lemma keeps_bind {A B} (p : prog A) m (f : A → prog B) f' :
  keeps p m → (∀ a, keeps (f a) (f' a)) → keeps (p ≫= f) (m ≫= f').
Proof.
  intros Hp Hf d k. rewrite (run_bind p f d). unfold mbind at 1, M_bind at 1. rewrite (Hp d k).
  unfold mbind, M_bind. destruct (run p d) as [[a|e| |] d']; cbn; [apply Hf|done..].
Qed.

Lemma beside_keeps {A} i (p : prog A) m : keeps p m → beside i p m.
Proof. intros Hp d. exists (read + i)%nat. apply Hp. Qed.

Lemma beside_bind {A B} i (p : prog A) m (f : A → prog B) f' :
  keeps p m → (∀ a, beside i (f a) (f' a)) → beside i (p ≫= f) (m ≫= f').
Proof.
  intros Hp Hf d. rewrite (run_bind p f d). unfold mbind at 1, M_bind at 1. rewrite (Hp d _).
  unfold mbind, M_bind. destruct (run p d) as [[a|e| |] d']; cbn; [apply Hf|by eexists..].
Qed.

Lemma beside_map {A B} i (p : prog A) m (f : A → B) : beside i p m → beside i (x ← p; mret (f x)) (x ← m; mret (f x)).
Proof.
  intros Hp d. destruct (Hp d) as [k E]. exists k. rewrite (run_bind p _ d). unfold mbind, M_bind. rewrite E.
  by destruct (run p d) as [[a|e| |] d'].
Qed.

Lemma beside_scope {A} i cid (p : prog A) m :
  beside i p m → beside i (with_scope cid p) (Logger.with_scope cid m).
Proof.
  intros Hp. apply beside_bind; [apply keeps_act|]. intros prev d. destruct (Hp d) as [k E].
  exists k. rewrite (run_protect _ p d). unfold scoped. rewrite E.
  destruct (run p d) as [[a|e| |] d']; try done; cbn [fst snd];
    unfold mbind, M_bind; rewrite (keeps_act _ d' k);
    by destruct (run (act (ScopedCorrelationId_destroy prev)) d') as [[[]|?| |] ?].
Qed.

Lemma beside_clock {A} i (p : prog A) (f : Z → M (Node Disk) A) :
  beside (S i) p (f (steady_now (read + i))) → beside i p (read_clock ≫= f).
Proof. intros Hp d. destruct (Hp d) as [k E]. exists k. rewrite <- E. by rewrite Nat.add_succ_r. Qed.

Lemma beside_limit {A} i (p : prog A) (f : Z → M (Node Disk) A) :
  beside i p (f max) → beside i p (gets max_chunk_bytes_ ≫= f).
Proof. intros Hp d. destruct (Hp d) as [k E]. by exists k. Qed.

Lemma keeps_correlation c : keeps (GetCorrelationId c) (Service.GetCorrelationId c).
Proof. unfold GetCorrelationId, Service.GetCorrelationId. destruct (metadata_find _ _); [done|apply keeps_act]. Qed.

Lemma keeps_preamble v tok id : keeps (RunPreamble v tok id) (Service.RunPreamble v tok id).
Proof. unfold RunPreamble, Service.RunPreamble. destruct (negb _), tok, id; done. Qed.

(** Alone a thread never waits for a message. *)
Lemma beside_pure {A B} i (p : prog A) (a : A) (f : A → prog B) m :
  same_run (run p) (mret a) → beside i (f a) m → beside i (p ≫= f) m.
Proof.
  intros Hp Hf d. destruct (Hf d) as [k E]. exists k. rewrite (run_bind p f d).
  unfold mbind, M_bind. rewrite (Hp d). exact E.
Qed.

Lemma beside_message {B} i (f : unit → prog B) m : beside i (f tt) m → beside i (message_passes ≫= f) m.
Proof. by apply beside_pure. Qed.

Lemma run_CollectFrames frames payload :
  same_run (run (CollectFrames max frames payload)) (mret (Service.CollectFrames max frames payload)).
Proof.
  intros d. revert payload. induction frames as [|frame rest IH]; intros payload; [done|]. cbn.
  destruct (put_payload frame) as [m|data|]; [apply IH| |apply IH]. destruct (_ <? _); [done|apply IH].
Qed.

Lemma run_SendFrames fuel writable i rest :
  same_run (run (SendFrames fuel writable i rest)) (mret (Service.SendFrames fuel writable i rest)).
Proof.
  intros d. revert i rest. induction fuel as [|fuel IH]; intros i rest; [done|]. destruct rest as [|b rest]; [done|].
  cbn [SendFrames Service.SendFrames]. rewrite (run_bind message_passes _ d). cbn [run message_passes].
  unfold mbind at 1, M_bind at 1. cbn. destruct (writable i); [|done]. cbn [negb].
  rewrite (run_bind _ _ d). unfold mbind, M_bind. rewrite IH. by destruct (Service.SendFrames _ _ _ _).
Qed.

Lemma run_CollectSource msgs payload :
  same_run (run (CollectSource msgs payload)) (mret (Service.CollectSource msgs payload)).
Proof.
  intros d. revert payload. induction msgs as [|resp rest IH]; intros payload; [done|]. cbn.
  destruct (getr_payload resp); apply IH.
Qed.

(** Goes through a handler and its program, side by side. *)
Ltac alone :=
  repeat match goal with
  | |- beside _ _ (mbind _ read_clock) => apply beside_clock
  | |- beside _ _ (mbind _ (gets max_chunk_bytes_)) => apply beside_limit
  | |- beside _ (mret _) (mret _) => by apply beside_keeps
  | |- beside _ (with_scope _ _) _ => apply beside_scope
  | |- beside _ (match ?x with _ => _ end) _ => destruct x eqn:?
  | |- keeps (GetCorrelationId _) _ => apply keeps_correlation
  | |- keeps (RunPreamble _ _ _) _ => apply keeps_preamble
  | |- keeps (act (lift _)) _ => apply keeps_lift
  | |- keeps (act _) _ => apply keeps_act
  | |- keeps (mret _) _ => by intros ? ?
  | |- keeps (match ?x with _ => _ end) _ => destruct x
  | |- beside _ (mbind _ message_passes) _ => apply beside_message
  | |- beside _ (mbind _ (CollectFrames _ _ _)) _ => eapply beside_pure; [apply run_CollectFrames|]
  | |- beside _ (mbind _ (SendFrames _ _ _ _)) _ => eapply beside_pure; [apply run_SendFrames|]
  | |- beside _ (mbind _ (CollectSource _ _)) _ => eapply beside_pure; [apply run_CollectSource|]
  | |- beside _ (mbind _ _) (mbind _ _) => apply beside_bind; [|intros ?]
  | |- keeps _ (on_store _) => apply keeps_store
  | |- _ => progress cbv zeta beta
  end.

(** What the source answers to the request that [ReplicateChunk] sends it. *)
Definition answers (r : rpc) (source : list GetChunkResponse * Status) : Prop :=
  match r with
  | RpcReplicate _ req => ∀ cid id, ChunkId.Parse (rep_chunk_id req) = Ok id →
      remote_GetChunk (rep_source_node_address req) [(kCorrelationIdMetadataKey, cid)]
        (MkGetReq kCurrentProtocolVersion (ChunkId.ToHexString id)) = source
  | _ => True
  end.

Lemma handle_beside (r : rpc) source :
  answers r source → beside 0 (handle data_root_ max (λ i, steady_now (read + i)) source r) (handle_node r).
Proof.
  intros Hsrc. destruct r; apply beside_map.
  - unfold PutChunk, PutChunk_stream, Service.PutChunk. alone. apply Threaded.run_Put.
  - unfold GetChunk, Service.GetChunk. alone. apply Threaded.run_Get.
  - unfold VerifyChunk, Service.VerifyChunk. alone. apply Threaded.run_VerifyOnly.
  - unfold DeleteChunk, Service.DeleteChunk. alone. apply Threaded.run_Delete.
  - unfold ReplicateChunk, Service.ReplicateChunk. alone. rewrite Hsrc by done.
    unfold ReplicateStream, Service.ReplicateStream. destruct source as [reader finish]. alone. apply Threaded.run_Put.
  - unfold GetNodeStats, Service.GetNodeStats. alone. apply Threaded.run_GetStats.
Qed.

(** C24: The programs of the handlers are the handlers: run by one thread
    without interference, with the clock and the source of the node, they give
    the same reply and leave the same store, on every path, errors of the
    store included. *)
Theorem handlers_alone (r : rpc) (source : list GetChunkResponse * Status) (d : Disk) :
  answers r source →
  ∃ k, handle_node r (MkNode d max read) =
    ((run (handle data_root_ max (λ i, steady_now (read + i)) source r) d).1,
     MkNode (run (handle data_root_ max (λ i, steady_now (read + i)) source r) d).2 max k).
Proof. intros Hs. destruct (handle_beside r source Hs d) as [k E]. exists k. by rewrite Nat.add_0_r in E. Qed.

End Alone.
End Handlers.
