(* ===== verification/NodeThreads.v ===== *)
(** * The node under many threads

    gRPC runs every call in a thread of its own, and the calls share one disk
    store. The threads of [Threads] run the programs of [Handlers]; the node
    is linearizable: each call acts as if it met the abstract store at one
    instant between its invocation and its return, and replies what the
    handler says to what the store answered there. The messages of a call's
    stream pass one by one, between the actions of the other calls. As for the
    store, all this is on the assumption that its status queries do not
    fail. *)

From S2P Require Import Prelude Result Cxx Sha256 ChunkId Time Logger IChunkStore Posix LocalDisk DiskEffects DiskTheorems DiskContract DiskSafety Proto Service ServiceRules Requests Programs Threads ThreadRules ThreadOps ThreadCoupling ThreadTheorems Handlers.
Import LocalDisk Handlers.

Local Open Scope Z_scope.

(** ** What a call asks of the store, and what it replies *)

Inductive plan :=
  | Refuses (a : rpc_reply)
  | Asks (q : request) (respond : reply → option rpc_reply).

Definition plan_asks (pl : plan) : option request :=
  match pl with Refuses _ => None | Asks q _ => Some q end.

Definition plan_says (pl : plan) (c : option reply) (a : rpc_reply) : Prop :=
  match pl, c with
  | Refuses a', None => a = a'
  | Asks _ respond, Some r => respond r = Some a
  | _, _ => False
  end.

Definition on_done (f : Result unit ChunkStoreErrorDetail → rpc_reply) (r : reply) : option rpc_reply :=
  match r with RepDone r => Some (f r) | _ => None end.

(** The status of a reply about a store's result. *)
Definition store_status {A} (r : Result A ChunkStoreErrorDetail) : ChunkStatus.t :=
  match r with Ok _ => ChunkStatus.OK | Err e => Service.MapStoreError (kind e) end.

Definition put_message (r : Result unit ChunkStoreErrorDetail) : string :=
  match r with Ok _ => "Success" | Err e => message e end.

(** The version is looked at before or after the identifier, by handler. *)
Definition with_version (v : Z) (refuse : Status → rpc_reply) (k : plan) : plan :=
  if bool_decide (v = kCurrentProtocolVersion) then k else Refuses (refuse unsupported).

Definition with_id (hex : string) (refuse : Status → rpc_reply) (k : ChunkId.t → plan) : plan :=
  match ChunkId.Parse hex with
  | Ok id => k id
  | Err _ => Refuses (refuse (MkStatus StatusCode.INVALID_ARGUMENT "Invalid chunk_id"))
  end.

Definition put_plan (max : Z) (reader : list PutChunkRequest) : plan :=
  let refuse st := PutReply st (MkPutResp kCurrentProtocolVersion ChunkStatus.OK "") in
  let too_large m := Refuses (PutReply (MkStatus StatusCode.RESOURCE_EXHAUSTED m)
    (MkPutResp kCurrentProtocolVersion ChunkStatus.CHUNK_TOO_LARGE m)) in
  match reader with
  | [] => Refuses (refuse (MkStatus StatusCode.INVALID_ARGUMENT "Missing metadata"))
  | MkPutReq v (PutMetadata m) :: frames =>
      with_id (put_chunk_id m) refuse (λ id, with_version v refuse (
        if max <? put_total_size_bytes m then too_large "Chunk too large"
        else
          match Service.CollectFrames max frames [] with
          | None => too_large "Streamed chunk too large"
          | Some payload => Asks (ReqPut id payload) (on_done (λ r,
              PutReply Status_OK (MkPutResp kCurrentProtocolVersion (store_status r) (put_message r))))
          end))
  | _ => Refuses (refuse (MkStatus StatusCode.INVALID_ARGUMENT "First message must contain metadata"))
  end.

(** What [GetChunk] sends for a result of the store. *)
Definition get_messages (writable : nat → bool) (r : Result (list byte) ChunkStoreErrorDetail) : list GetChunkResponse :=
  let metadata n st := MkGetResp kCurrentProtocolVersion (GetMetadata (MkGetMeta n st)) in
  match r with
  | Ok data => Service.write writable 0 (metadata (Z.of_nat (length data)) ChunkStatus.OK) ++
      (Service.SendFrames (length data) writable 1 data).1
  | Err e => Service.write writable 0 (metadata 0 (Service.MapStoreError (kind e)))
  end.

Definition replicate_plan (max : Z) (source : list GetChunkResponse * Status) (id : ChunkId.t) : plan :=
  let answer st := ReplicateReply Status_OK (MkRepResp kCurrentProtocolVersion st) in
  match source.1 with
  | [] => Refuses (answer ChunkStatus.SOURCE_UNREACHABLE)
  | first :: msgs =>
      let metadata := getr_metadata first in
      if getr_has_metadata first && negb (bool_decide (get_status metadata = ChunkStatus.OK))
      then Refuses (answer (get_status metadata))
      else if max <? get_total_size_bytes metadata then Refuses (answer ChunkStatus.CHUNK_TOO_LARGE)
      else if negb (ok source.2) then Refuses (answer ChunkStatus.SOURCE_UNREACHABLE)
      else Asks (ReqPut id (Service.CollectSource msgs [])) (on_done (λ r, answer (store_status r)))
  end.

Definition rpc_plan (max : Z) (source : list GetChunkResponse * Status) (r : rpc) : plan :=
  match r with
  | RpcPut _ reader => put_plan max reader
  | RpcGet _ req w =>
      let refuse st := GetReply st [] in
      with_version (get_protocol_version req) refuse (with_id (get_chunk_id req) refuse (λ id,
        Asks (ReqGet id) (λ r, match r with RepData x => Some (GetReply Status_OK (get_messages w x)) | _ => None end)))
  | RpcVerify _ req =>
      let refuse st := VerifyReply st (MkVerResp kCurrentProtocolVersion false ChunkStatus.OK) in
      with_version (ver_protocol_version req) refuse (with_id (ver_chunk_id req) refuse (λ id,
        Asks (ReqVerify id) (on_done (λ r,
          VerifyReply Status_OK (MkVerResp kCurrentProtocolVersion (IsOk r) (store_status r))))))
  | RpcDelete _ req =>
      let refuse st := DeleteReply st (MkDelResp kCurrentProtocolVersion ChunkStatus.OK) in
      with_id (del_chunk_id req) refuse (λ id, with_version (del_protocol_version req) refuse (
        Asks (ReqDelete id) (on_done (λ r, DeleteReply Status_OK (MkDelResp kCurrentProtocolVersion (store_status r))))))
  | RpcReplicate _ req =>
      let refuse st := ReplicateReply st (MkRepResp kCurrentProtocolVersion ChunkStatus.OK) in
      with_version (rep_protocol_version req) refuse (with_id (rep_chunk_id req) refuse (replicate_plan max source))
  | RpcStats _ req =>
      with_version (stats_protocol_version req) (λ st, StatsReply st (MkStatsResp kCurrentProtocolVersion 0 0 0))
        (Asks ReqStats (λ r, match r with
          | RepStats s => Some (StatsReply Status_OK
              (MkStatsResp kCurrentProtocolVersion (chunk_count s) (bytes_used s) (bytes_free s)))
          | _ => None
          end))
  end.

(** ** Safety of the handlers *)

Section Safety.
Context `{Evp, Platform, UuidSource, !EvpLaws, !UuidLaws}.
Variable root : path.
Implicit Types s : Disk.

(** A stretch of a call during which the thread holds nothing: it starts with
    the reply [c] of the store, if it has asked, and ends with [P]. *)
Definition stretch {A} (q : option request) (c : option reply) (p : prog A) (P : A → option reply → Prop) : Prop :=
  ∀ s, held s = [] → safe root q p (λ a g c' s', g = no_ghost ∧ P a c' ∧ held s' = []) no_ghost c s.

Section Rules.
Variables (q : option request) (c : option reply).

Lemma stretch_ret {A} (a : A) (P : A → option reply → Prop) : P a c → stretch q c (mret a) P.
Proof. intros HP s Hs. by split_and!. Qed.

Lemma stretch_bind {A B} (p : prog A) (f : A → prog B) (P : B → option reply → Prop) :
  stretch q c p (λ a c', stretch q c' (f a) P) → stretch q c (p ≫= f) P.
Proof.
  intros Hp s Hs. apply safe_bind. eapply safe_mono; [by apply Hp|].
  intros a g c' s' (-> & Hf & Hs'). by apply Hf.
Qed.

Lemma stretch_mono {A} (p : prog A) (P P' : A → option reply → Prop) :
  stretch q c p P → (∀ a c', P a c' → P' a c') → stretch q c p P'.
Proof.
  intros Hp HP s Hs. eapply safe_mono; [by apply Hp|]. intros a g c' s' (-> & Ha & Hs').
  split_and!; [done|by apply HP|done].
Qed.

Lemma stretch_quiet {A} (m : M Runtime A) (P : A → option reply → Prop) :
  (∀ r, ∃ a, (m r).1 = Done a ∧ P a c) → stretch q c (act (on_runtime m)) P.
Proof.
  intros Hm s Hs. apply safe_still. intros s1 Hi. apply wp_zoom. unfold wp.
  destruct (Hm (runtime s1)) as (a & -> & HP). split_and!; [done|done|done|done|].
  cbn. by rewrite (i_held _ _ _ _ Hi).
Qed.

Lemma stretch_log lvl msg (P : unit → option reply → Prop) : P tt c → stretch q c (act (on_runtime (log lvl msg []))) P.
Proof. intros HP. apply stretch_quiet. intros r. exists tt. unfold log. by destruct (op_logger _). Qed.

Lemma stretch_lift {A} (o : outcome A) a (P : A → option reply → Prop) :
  o = Done a → P a c → stretch q c (act (lift o)) P.
Proof.
  intros Ho HP s Hs. eapply safe_lift; [exact Ho|]. intros s1 Hi. split_and!; [done|done|].
  by rewrite (i_held _ _ _ _ Hi).
Qed.

Lemma stretch_message (P : unit → option reply → Prop) : P tt c → stretch q c message_passes P.
Proof.
  intros HP s Hs. apply safe_message; [done|]. intros s1 Hi. split_and!; [done|done|]. by rewrite (i_held _ _ _ _ Hi).
Qed.

Lemma stretch_correlation context (P : string → option reply → Prop) :
  (∀ cid, P cid c) → stretch q c (GetCorrelationId context) P.
Proof.
  intros HP. unfold GetCorrelationId. destruct (metadata_find _ _); [by apply stretch_ret|].
  apply stretch_quiet. by eexists.
Qed.

Lemma stretch_preamble v tok id (P : option Status → option reply → Prop) :
  P (if bool_decide (v = kCurrentProtocolVersion) then None else Some unsupported) c →
  stretch q c (RunPreamble v tok id) P.
Proof.
  unfold RunPreamble. rewrite CheckProtocolVersion_current. case_bool_decide; cbn; intros HP.
  - destruct tok, id; by apply stretch_ret.
  - by apply stretch_ret.
Qed.

End Rules.

(** The loops over the streams compute what the loops of [Service] do. *)
Lemma stretch_CollectFrames q c max frames payload (P : option (list byte) → option reply → Prop) :
  P (Service.CollectFrames max frames payload) c → stretch q c (CollectFrames max frames payload) P.
Proof.
  revert payload. induction frames as [|frame rest IH]; intros payload HP; apply stretch_bind, stretch_message.
  - by apply stretch_ret.
  - cbn in HP. destruct (put_payload frame) as [m|data|]; [by apply IH| |by apply IH].
    destruct (_ <? _); [by apply stretch_ret|by apply IH].
Qed.

Lemma stretch_SendFrames q c fuel writable i rest (P : list GetChunkResponse * bool → option reply → Prop) :
  P (Service.SendFrames fuel writable i rest) c → stretch q c (SendFrames fuel writable i rest) P.
Proof.
  revert i rest P. induction fuel as [|fuel IH]; intros i rest P HP; [by apply stretch_ret|].
  destruct rest as [|b rest]; [by apply stretch_ret|]. apply stretch_bind, stretch_message. cbn in HP.
  destruct (writable i); [|by apply stretch_ret]. cbn [negb] in *. apply stretch_bind, IH, stretch_ret.
  by destruct (Service.SendFrames _ _ _ _).
Qed.

Lemma stretch_CollectSource q c msgs payload (P : list byte → option reply → Prop) :
  P (Service.CollectSource msgs payload) c → stretch q c (CollectSource msgs payload) P.
Proof.
  revert payload. induction msgs as [|resp rest IH]; intros payload HP; apply stretch_bind, stretch_message.
  - by apply stretch_ret.
  - cbn in HP. destruct (getr_payload resp); by apply IH.
Qed.

Lemma stretch_scope {A} q c cid (p : prog A) (P : A → option reply → Prop) :
  stretch q c p P → stretch q c (with_scope cid p) P.
Proof.
  intros Hp. unfold with_scope. apply stretch_bind, stretch_quiet. intros r. eexists. split; [done|].
  intros s Hs. apply safe_protect. eapply safe_mono; [by apply Hp|]. intros a g c' s' (-> & HP & Hs').
  by apply (stretch_quiet q c' (modify (set_correlation_id (t_correlation_id r))) (λ _, P a)); [by eexists|].
Qed.

(** The operations of the store end with their reply. *)
Lemma stretch_store {A} q (p : prog A) (f : A → reply) (P : A → option reply → Prop) :
  (∀ s, held s = [] → safe root q p (λ r, ended (f r)) no_ghost None s) →
  (∀ r, P r (Some (f r))) → stretch q None p P.
Proof.
  intros Hp HP s Hs. eapply safe_mono; [by apply Hp|]. intros a g c' s' (-> & -> & Hs'). by split_and!.
Qed.

End Safety.

Section Node.
Context `{Evp, Platform, UuidSource, !EvpLaws, !UuidLaws}.
Variables (root : path) (max : Z).
Implicit Types s : Disk.
Hypothesis max_small : max < 2 ^ 63.

Lemma reserve_ok n : (max <? n) = false → Service.reserve n = Done tt.
Proof. intros Hn%Z.ltb_ge. unfold Service.reserve. destruct (Z.ltb_spec (2 ^ 63 - 1) n); [lia|done]. Qed.

Section Calls.
Variables (clock : nat → Z) (source : list GetChunkResponse * Status).
Hypothesis no_exists_fault : ¬ stat_fault SysExists.
Hypothesis no_size_fault : ¬ stat_fault SysFileSize.

(** Goes through a handler; stops at the store. *)
Ltac quiet :=
  repeat match goal with
  | |- stretch _ _ _ (mret _) _ => apply stretch_ret
  | |- stretch _ _ _ (mbind _ _) _ => apply stretch_bind
  | |- stretch _ _ _ (GetCorrelationId _) _ => apply stretch_correlation; intros ?
  | |- stretch _ _ _ (with_scope _ _) _ => apply stretch_scope
  | |- stretch _ _ _ (act (lift (Service.reserve _))) _ => eapply stretch_lift; [by apply reserve_ok|]
  | |- stretch _ _ _ (act _) _ => apply stretch_log
  | |- stretch _ _ _ message_passes _ => apply stretch_message
  | |- stretch _ _ _ (RunPreamble _ _ _) _ => apply stretch_preamble
  | |- stretch _ _ _ (match ?x with _ => _ end) _ => destruct x eqn:?
  | |- _ => progress cbv zeta beta
  end.

Lemma put_handled context reader (P : Status * PutChunkResponse → option reply → Prop) :
  (∀ x c, plan_says (put_plan max reader) c (PutReply x.1 x.2) → P x c) →
  stretch root (plan_asks (put_plan max reader)) None (PutChunk root max clock context reader) P.
Proof.
  intros HP. unfold PutChunk. apply stretch_bind, stretch_correlation. intros cid. apply stretch_scope.
  apply stretch_bind, stretch_message.
  destruct reader as [|[v [m|data|]] frames]; cbn [put_payload put_protocol_version]; [quiet; by apply HP| |quiet; by apply HP..].
  unfold put_plan, with_id, with_version in *.
  destruct (ChunkId.Parse (put_chunk_id m)) as [id|e] eqn:Hid; [|quiet; by apply HP].
  apply ChunkId.Parse_ok in Hid as [Hv _]. apply stretch_bind, stretch_preamble.
  case_bool_decide; [|quiet; by apply HP].
  destruct (max <? put_total_size_bytes m) eqn:Hmax; [quiet; by apply HP|].
  quiet. unfold PutChunk_stream. apply stretch_bind, stretch_CollectFrames.
  destruct (Service.CollectFrames max frames []) as [payload|]; [|quiet; by apply HP].
  apply stretch_bind. eapply stretch_store; [intros s Hs; by apply put_safe|]. intros r. cbv zeta.
  destruct r; quiet; by apply HP.
Qed.

Lemma get_handled context req w (P : Status * list GetChunkResponse → option reply → Prop) :
  let pl := rpc_plan max source (RpcGet context req w) in
  (∀ x c, plan_says pl c (GetReply x.1 x.2) → P x c) →
  stretch root (plan_asks pl) None (GetChunk root clock context req w) P.
Proof.
  intros pl HP. unfold GetChunk. apply stretch_bind, stretch_correlation. intros cid. apply stretch_scope.
  apply stretch_bind, stretch_preamble. unfold pl, rpc_plan, with_id, with_version in *. clear pl.
  case_bool_decide; [|quiet; by apply HP].
  destruct (ChunkId.Parse (get_chunk_id req)) as [id|e] eqn:Hid; [|quiet; by apply HP].
  apply ChunkId.Parse_ok in Hid as [Hv _].
  apply stretch_bind. eapply stretch_store; [intros s Hs; by apply get_safe|]. intros r. cbv zeta.
  destruct r as [data|e]; [|quiet; by apply HP].
  apply stretch_bind, stretch_message, stretch_bind, stretch_SendFrames.
  destruct (Service.SendFrames _ _ _ _) as [frames broken] eqn:Hf; quiet; apply HP; cbn; by rewrite Hf.
Qed.

Lemma verify_handled context req (P : Status * VerifyChunkResponse → option reply → Prop) :
  let pl := rpc_plan max source (RpcVerify context req) in
  (∀ x c, plan_says pl c (VerifyReply x.1 x.2) → P x c) →
  stretch root (plan_asks pl) None (VerifyChunk root context req) P.
Proof.
  intros pl HP. unfold VerifyChunk. apply stretch_bind, stretch_correlation. intros cid. apply stretch_scope.
  apply stretch_bind, stretch_preamble. unfold pl, rpc_plan, with_id, with_version in *. clear pl.
  case_bool_decide; [|quiet; by apply HP].
  destruct (ChunkId.Parse (ver_chunk_id req)) as [id|e] eqn:Hid; [|quiet; by apply HP].
  apply ChunkId.Parse_ok in Hid as [Hv _].
  apply stretch_bind. eapply stretch_store; [intros s Hs; by apply verify_safe|]. intros r. cbv zeta.
  destruct r; quiet; by apply HP.
Qed.

Lemma delete_handled context req (P : Status * DeleteChunkResponse → option reply → Prop) :
  let pl := rpc_plan max source (RpcDelete context req) in
  (∀ x c, plan_says pl c (DeleteReply x.1 x.2) → P x c) →
  stretch root (plan_asks pl) None (DeleteChunk root clock context req) P.
Proof.
  intros pl HP. unfold DeleteChunk. apply stretch_bind, stretch_correlation. intros cid. apply stretch_scope.
  unfold pl, rpc_plan, with_id, with_version in *. clear pl.
  destruct (ChunkId.Parse (del_chunk_id req)) as [id|e] eqn:Hid; [|quiet; by apply HP].
  apply ChunkId.Parse_ok in Hid as [Hv _]. apply stretch_bind, stretch_preamble.
  case_bool_decide; [|quiet; by apply HP].
  apply stretch_bind. eapply stretch_store; [intros s Hs; by apply delete_safe|]. intros r. cbv zeta.
  destruct r; quiet; by apply HP.
Qed.

Lemma replicate_handled context req (P : Status * ReplicateChunkResponse → option reply → Prop) :
  let pl := rpc_plan max source (RpcReplicate context req) in
  (∀ x c, plan_says pl c (ReplicateReply x.1 x.2) → P x c) →
  stretch root (plan_asks pl) None (ReplicateChunk root max clock source context req) P.
Proof.
  intros pl HP. unfold ReplicateChunk. apply stretch_bind, stretch_correlation. intros cid. apply stretch_scope.
  apply stretch_bind, stretch_preamble. unfold pl, rpc_plan, with_id, with_version in *. clear pl.
  case_bool_decide; [|quiet; by apply HP].
  destruct (ChunkId.Parse (rep_chunk_id req)) as [id|e] eqn:Hid; [|quiet; by apply HP].
  apply ChunkId.Parse_ok in Hid as [Hv _].
  apply stretch_bind, stretch_log, stretch_bind, stretch_correlation. intros cid'.
  unfold replicate_plan in *. destruct source as [reader finish]. cbn [fst snd] in *.
  unfold ReplicateStream. cbv iota beta zeta. apply stretch_bind, stretch_message.
  destruct reader as [|first msgs]; [quiet; by apply HP|]. cbv zeta.
  destruct (getr_has_metadata first && _); [quiet; by apply HP|].
  destruct (max <? get_total_size_bytes (getr_metadata first)) eqn:Hmax; [quiet; by apply HP|].
  apply stretch_bind. eapply stretch_lift; [by apply reserve_ok|].
  apply stretch_bind, stretch_CollectSource, stretch_bind, stretch_message.
  destruct (negb (ok finish)); [quiet; by apply HP|].
  apply stretch_bind. eapply stretch_store; [intros s Hs; by apply put_safe|]. intros r. cbv zeta.
  destruct r; quiet; by apply HP.
Qed.

Lemma stats_handled context req (P : Status * GetNodeStatsResponse → option reply → Prop) :
  let pl := rpc_plan max source (RpcStats context req) in
  (∀ x c, plan_says pl c (StatsReply x.1 x.2) → P x c) →
  stretch root (plan_asks pl) None (GetNodeStats root context req) P.
Proof.
  intros pl HP. unfold GetNodeStats. apply stretch_bind, stretch_correlation. intros cid. apply stretch_scope.
  apply stretch_bind, stretch_preamble. unfold pl, rpc_plan, with_id, with_version in *. clear pl.
  case_bool_decide; [|quiet; by apply HP].
  apply stretch_bind. eapply stretch_store; [intros s Hs; by apply stats_safe|]. intros r.
  quiet. by apply HP.
Qed.

Lemma handled (r : rpc) :
  stretch root (plan_asks (rpc_plan max source r)) None (handle root max clock source r)
    (λ a c, plan_says (rpc_plan max source r) c a).
Proof.
  destruct r; apply stretch_bind;
    [apply put_handled|apply get_handled|apply verify_handled|apply delete_handled|apply replicate_handled|apply stats_handled];
    intros x c Hx; by apply stretch_ret.
Qed.

End Calls.

(** ** How long a handler is *)

Lemma within_after {A B} n k (p : prog A) (f : A → prog B) :
  within n p → (n ≤ k)%nat → (∀ a, within (k - n) (f a)) → within k (p ≫= f).
Proof. intros Hp Hn Hf. rewrite <- (Nat.sub_add n k), Nat.add_comm by done. by apply within_bind. Qed.

Lemma within_act {A} k (m : M Disk A) : within (S k) (act m).
Proof. by split. Qed.

Lemma within_scope {A} k cid (p : prog A) : within k p → within (S (S k)) (with_scope cid p).
Proof.
  intros Hp. split; [intros prev|done]. rewrite <- Nat.add_1_r. by apply within_protect.
Qed.

Lemma correlation_within context : within 1 (GetCorrelationId context).
Proof. unfold GetCorrelationId. by destruct (metadata_find _ _). Qed.

Lemma preamble_within v tok id : within 0 (RunPreamble v tok id).
Proof. unfold RunPreamble. destruct (negb _), tok, id; done. Qed.

Lemma CollectFrames_within frames payload : within 0 (CollectFrames max frames payload).
Proof.
  revert payload. induction frames as [|frame rest IH]; intros payload; [done|]. cbn.
  destruct (put_payload frame) as [m|data|]; [apply IH| |apply IH]. destruct (_ <? _); [done|apply IH].
Qed.

Lemma SendFrames_within fuel writable i rest : within 0 (SendFrames fuel writable i rest).
Proof.
  revert i rest. induction fuel as [|fuel IH]; intros i rest; [done|]. destruct rest as [|b rest]; [done|].
  cbn [SendFrames]. apply (within_bind 0 0); [done|]. intros _. destruct (negb (writable i)); [done|].
  by apply (within_bind 0 0).
Qed.

Lemma CollectSource_within msgs payload : within 0 (CollectSource msgs payload).
Proof.
  revert payload. induction msgs as [|resp rest IH]; intros payload; [done|]. cbn. destruct (getr_payload resp); apply IH.
Qed.

Ltac measured n H := apply (within_after n); [apply H|lia|intros ?; cbn [Nat.sub]].

Ltac measure :=
  repeat lazymatch goal with
  | |- within _ (mret _) => exact I
  | |- within _ (act _) => apply within_act
  | |- within _ (with_scope _ _) => apply within_scope
  | |- within _ (mbind _ (mret _)) => apply (within_after 0); [exact I|lia|intros ?]
  | |- within _ (mbind _ (act _)) => measured 1%nat (@within_act)
  | |- within _ (mbind _ (GetCorrelationId _)) => measured 1%nat correlation_within
  | |- within _ (mbind _ (RunPreamble _ _ _)) => measured 0%nat preamble_within
  | |- within _ (mbind _ message_passes) => apply (within_after 0); [exact I|lia|intros ?; cbn [Nat.sub]]
  | |- within _ (mbind _ (CollectFrames _ _ _)) => measured 0%nat CollectFrames_within
  | |- within _ (mbind _ (SendFrames _ _ _ _)) => measured 0%nat SendFrames_within
  | |- within _ (mbind _ (CollectSource _ _)) => measured 0%nat CollectSource_within
  | |- within _ (mbind _ (Threaded.Put _ _ _)) => measured 24%nat @Threaded.Put_within
  | |- within _ (mbind _ (Threaded.Get _ _)) => measured 9%nat @Threaded.Get_within
  | |- within _ (mbind _ (Threaded.VerifyOnly _ _)) => measured 9%nat @Threaded.VerifyOnly_within
  | |- within _ (mbind _ (Threaded.Delete _ _)) => measured 8%nat @Threaded.Delete_within
  | |- within _ (mbind _ (Threaded.GetStats _)) => measured 3%nat @Threaded.GetStats_within
  | |- within _ (mbind _ (match ?x with _ => _ end)) => destruct x
  | |- within _ (match ?x with _ => _ end) => destruct x
  | |- _ => progress cbv zeta beta
  end.

Lemma handle_within clock source r : within 32 (handle root max clock source r).
Proof.
  assert (∀ A (p : prog A) (f : A → rpc_reply), within 32 p → within 32 (x ← p; mret (f x))) as Hwith.
  { intros A p f Hp. eapply (within_bind 32 0); [done|by intros]. }
  destruct r; apply Hwith.
  - unfold PutChunk, PutChunk_stream. measure.
  - unfold GetChunk. measure.
  - unfold VerifyChunk. measure.
  - unfold DeleteChunk. measure.
  - unfold ReplicateChunk, ReplicateStream. measure.
  - unfold GetNodeStats. measure.
Qed.

(** ** The client *)

Record call := MkCall { c_rpc : rpc; c_clock : nat → Z; c_source : list GetChunkResponse * Status }.

Definition call_plan (c : call) : plan := rpc_plan max (c_source c) (c_rpc c).

#[local] Instance node_client : Client := {|
  session := call;
  answer := rpc_reply;
  session_valid _ := True;
  code c := handle root max (c_clock c) (c_source c) (c_rpc c);
  asks c := plan_asks (call_plan c);
  says c := plan_says (call_plan c);
  longest := 32;
  code_within c := handle_within (c_clock c) (c_source c) (c_rpc c)
|}.

Lemma node_client_safe : fair → SafeClient root.
Proof.
  intros [Hx Hsz _] c s _ Hs. eapply safe_mono; [by apply handled|].
  intros a g c' s' (-> & Ha & Hs'). by split_and!.
Qed.

(** C3: The node is linearizable, on the same two conditions as its store: the
    status queries [exists] and [file_size] do not fail (the code takes such a
    failure for a missing file), and the mutex does not report the relock of
    [Put] as an error. gRPC may run any number of calls to the six handlers at
    once, their actions interleaved in any order, with any other calls of the
    system failing and a crash at any action: the calls and replies of the run
    are those of the atomic store, on which each call takes effect at one
    instant between its invocation and its return, as the plan of its handler
    says, or not at all when the handler refuses it; and the chunks on disk
    are at every moment the chunks of that store. *)
Theorem node_linearizable s (n : nat) (tr : list event) (w : World) :
  fair → idle root s → runs step n (MkWorld s ∅ true) tr w →
  ∃ n' a, runs (atomic_step io_fault) n' (MkAtomic (view root s) ∅) tr a ∧ contents a = view root (disk w).
Proof. intros Hfair. apply (client_linearizable root Hfair (node_client_safe Hfair)). Qed.

(** C13: The node serves every call under concurrency, provided that its lock
    is one its owner may take again and that the status queries [exists] and
    [file_size] do not fail (the counters would drift); other calls may fail.
    No interleaving deadlocks two handlers or makes one throw; every run has
    at most 34 steps per call, one for each message on a stream and one for a
    crash, and none goes on for ever without new calls. A client or a source
    that stalls in the middle of its stream holds up nobody else: while a call
    is under way that does not wait for its peer, such a call can go on. When
    all have returned the store is as it must be between calls, its counters
    exact. *)
Theorem node_calls_served s (n : nat) (tr : list event) (w : World) :
  fair → relock = RelockReenters → idle root s → runs step n (MkWorld s ∅ true) tr w →
  (n ≤ 34 * calls tr + messages tr + 1)%nat ∧ Acc goes_on w ∧
  (alive w = true → ∀ i th, threads w !! i = Some th → awaits th = false →
     ∃ j thj, threads w !! j = Some thj ∧ awaits thj = false ∧ is_Some (advance (GoOn j) w)) ∧
  (alive w = true → threads w = ∅ → idle root (disk w)).
Proof.
  intros Hfair Hre Hs Hr. pose proof (node_client_safe Hfair) as Hsafe.
  destruct (client_terminates root Hfair Hsafe s n tr w Hre Hs Hr) as [Hn _].
  split_and!; [done|apply no_endless_run|intros Hal i th; by apply (client_progress root Hfair Hsafe s n tr w i th Hre Hs Hr)|]. by apply (client_quiescent root Hfair (node_client_safe Hfair) s n tr).
Qed.

End Node.

(** ** A concrete run *)

Section Examples.

#[local] Existing Instance toy_evp.
#[local] Existing Instance toy_uuid.
#[local] Existing Instance toy_evp_laws.
#[local] Existing Instance toy_uuid_laws.

#[local] Instance example_client `{Platform} : Client := node_client ["data"] 100.

Definition a_call (r : rpc) : call := MkCall r (λ n, Z.of_nat n * 2500000) ([], Status_OK).

Definition a_context : ServerContext := {| client_metadata := [("x-nimbus-correlation-id", "req-1")] |}.

Definition an_upload (v : Z) : rpc :=
  RpcPut a_context
    [MkPutReq v (PutMetadata (MkPutMeta (ChunkId.ToHexString sample_chunk) "" 2));
     MkPutReq v (PutDataChunk [x68]); MkPutReq v (PutDataChunk [x69])].

(** Two uploads of the same chunk action by action in turn, then a download
    in turn with a deletion and an upload of another version. The download is
    called first, but draws a UUID while the deletion takes the stripe. *)
Definition node_schedule `{Platform} : list choice :=
  [Invoke 1 (a_call (an_upload 1)) "a"; Invoke 2 (a_call (an_upload 1)) "b"] ++
  concat (repeat [GoOn 1; GoOn 2] 40) ++
  [Invoke 3 (a_call (RpcGet {| client_metadata := [] |} (MkGetReq 1 (ChunkId.ToHexString sample_chunk)) (λ _, true))) "c";
   Invoke 4 (a_call (RpcDelete a_context (MkDelReq 1 (ChunkId.ToHexString sample_chunk) ""))) "d";
   Invoke 5 (a_call (an_upload 2)) "e"] ++
  concat (repeat [GoOn 3; GoOn 4; GoOn 5] 30).

Definition node_world `{Platform} : World := MkWorld fresh_disk ∅ true.

Lemma node_schedule_valid `{Platform} : Forall choice_valid node_schedule.
Proof. apply Forall_forall. by intros [i q cid|i] _. Qed.

Definition node_run_of (P : Platform) : nat * list event * World := exec node_schedule 0 [] node_world.
Abbreviation node_run := (node_run_of toy_good).

Lemma node_run_runs P : runs step (node_run_of P).1.1 node_world (node_run_of P).1.2 (node_run_of P).2.
Proof.
  pose proof (exec_runs node_schedule 0 [] node_world node_world node_schedule_valid (runs_nil _ _)) as Hr.
  fold (node_run_of P) in Hr. by destruct (node_run_of P) as [[n tr] w].
Qed.

Definition replies_of `{Platform} (tr : list event) : list (nat * rpc_reply) :=
  omap (λ e, match e with Return i r => Some (i, r) | _ => None end) tr.

Lemma node_linearizable_witness :
  replies_of node_run.1.2 =
    [(1%nat, PutReply Status_OK (MkPutResp 1 ChunkStatus.OK "Success"));
     (2%nat, PutReply Status_OK (MkPutResp 1 ChunkStatus.OK "Success"));
     (5%nat, PutReply unsupported (MkPutResp 1 ChunkStatus.OK ""));
     (4%nat, DeleteReply Status_OK (MkDelResp 1 ChunkStatus.OK));
     (3%nat, GetReply Status_OK [MkGetResp 1 (GetMetadata (MkGetMeta 0 ChunkStatus.NOT_FOUND))])] ∧
  ∃ n' a, runs (atomic_step (@io_fault toy_good)) n' (MkAtomic ∅ ∅) node_run.1.2 a ∧
    contents a = view ["data"] (disk node_run.2).
Proof.
  split; [by vm_compute|].
  exact (@node_linearizable _ toy_good _ _ _ ["data"] 100 eq_refl fresh_disk _ _ _ toy_fair fresh_idle (node_run_runs toy_good)).
Defined.

(** The client of an upload stalls after its first frame; a second upload of
    the same chunk is under way. *)
Definition stalled_schedule `{Platform} : list choice :=
  Invoke 1 (a_call (an_upload 1)) "a" :: repeat (GoOn 1) 4 ++ Invoke 2 (a_call (an_upload 1)) "b" :: repeat (GoOn 2) 12.

Definition stalled_run_of (P : Platform) : nat * list event * World := exec stalled_schedule 0 [] node_world.
Abbreviation stalled_run := (stalled_run_of toy_good).

Lemma stalled_run_runs P : runs step (stalled_run_of P).1.1 node_world (stalled_run_of P).1.2 (stalled_run_of P).2.
Proof.
  assert (Forall choice_valid stalled_schedule) as Hv by (apply Forall_forall; by intros [i q cid|i] _).
  pose proof (exec_runs stalled_schedule 0 [] node_world node_world Hv (runs_nil _ _)) as Hr.
  fold (stalled_run_of P) in Hr. by destruct (stalled_run_of P) as [[n tr] w].
Qed.

Definition waits_at (P : Platform) (i : nat) : option bool := awaits <$> threads (stalled_run_of P).2 !! i.

Definition another_goes_on (P : Platform) : Prop :=
  let w := (stalled_run_of P).2 in ∃ j th, threads w !! j = Some th ∧ awaits th = false ∧ is_Some (advance (GoOn j) w).

Lemma stalled_run_story :
  waits_at toy_good 1 = Some true ∧ waits_at toy_good 2 = Some false ∧ alive (stalled_run_of toy_good).2 = true.
Proof. by vm_compute. Qed.

Lemma node_calls_served_witness :
  calls node_run.1.2 = 5%nat ∧ messages node_run.1.2 = 10%nat ∧ (node_run.1.1 ≤ 34 * 5 + 10 + 1)%nat ∧
  idle ["data"] (disk node_run.2) ∧
  waits_at toy_good 1 = Some true ∧ another_goes_on toy_good.
Proof.
  assert (calls node_run.1.2 = 5%nat) as Hc by (by vm_compute).
  assert (messages node_run.1.2 = 10%nat) as Hm by (by vm_compute). split; [exact Hc|]. split; [exact Hm|].
  destruct (@node_calls_served _ toy_good _ _ _ ["data"] 100 eq_refl fresh_disk _ _ _ toy_fair eq_refl fresh_idle
    (node_run_runs toy_good)) as (Hn & _ & _ & Hidle).
  split; [exact (eq_ind _ (λ k, (_ ≤ 34 * 5 + k + 1)%nat) (eq_ind _ (λ k, (_ ≤ 34 * k + _ + 1)%nat) Hn _ Hc) _ Hm)|].
  split; [apply Hidle; [by vm_compute|apply map_size_empty_inv; by vm_compute]|].
  destruct stalled_run_story as (H1 & H2 & Hal). split; [exact H1|]. apply fmap_Some in H2 as (th & Hth & Haw).
  destruct (@node_calls_served _ toy_good _ _ _ ["data"] 100 eq_refl fresh_disk _ _ _ toy_fair eq_refl fresh_idle
    (stalled_run_runs toy_good)) as (_ & _ & Hgo & _).
  exact (Hgo Hal 2%nat th Hth (eq_sym Haw)).
Defined.

End Examples.
