(* ===== verification/NodeHistory.v ===== *)
(** * What a client of the node may rely on

    Consequences of linearizability for those who only see calls and replies:
    whoever has seen an upload acknowledged finds the chunk, from whatever
    thread and whatever else goes on, until somebody asks for its deletion,
    and a node that restarts after a power loss still has it, if its shard had
    reached the disk before the node started. The status queries of the store
    are assumed not to fail: the store takes their failure for a missing file,
    and the download would be answered NOT_FOUND. *)

From S2P Require Import Prelude Result Cxx Sha256 ChunkId Time Logger IChunkStore Posix LocalDisk DiskEffects DiskTheorems DiskContract DiskSafety DiskDurability Proto Service ServiceRules Requests Programs Threads ThreadRules ThreadOps ThreadCoupling ThreadTheorems Handlers NodeThreads.
Import LocalDisk Handlers.

Local Open Scope Z_scope.

Section History.
Context `{Evp, Platform, UuidSource, !EvpLaws, !UuidLaws}.
Variables (root : path) (max : Z).
Hypothesis max_small : max < 2 ^ 63.

#[local] Existing Instance node_client.
#[local] Instance the_client : Client := node_client root max.

Variable id : ChunkId.t.
Hypothesis Hid : ChunkId.valid id.

(** The call asks for the deletion of the chunk. *)
Definition deletes (c : call) : Prop := plan_asks (call_plan max c) = Some (ReqDelete id).

Definition no_deletion (e : event) : Prop :=
  match e with Call _ c => ¬ deletes c | _ => True end.

Definition elsewhere (i : nat) (e : event) : Prop :=
  match e with Call j _ | Return j _ => j ≠ i | Message _ => True end.

(** Requests that reach the store name valid identifiers. *)
Lemma plan_valid c q : plan_asks (call_plan max c) = Some q → request_valid q.
Proof.
  unfold call_plan, rpc_plan, put_plan, replicate_plan, with_id, with_version.
  repeat (case_match; try done); intros [= <-]; cbn;
    first [exact I|match goal with E : ChunkId.Parse _ = Ok _ |- _ => by apply ChunkId.Parse_ok in E as [? _] end].
Qed.

Definition honest (m : store) : Prop := ∀ d, m !! ChunkId.ToHexString id = Some d → digest_matches id d.

Definition present (m : store) : Prop := is_Some (m !! ChunkId.ToHexString id).

Lemma commit_keeps fault q m r m' :
  request_valid q → q ≠ ReqDelete id → request_spec fault q m r m' →
  (honest m → honest m') ∧ (present m → present m').
Proof.
  intros Hv Hne Hspec. destruct q as [id' data|id'|id'|id'|id'|], r as [r|r|b|st]; try done; cbn in Hspec, Hv;
    try (by destruct Hspec as [-> _]); try (by subst m').
  - destruct r as [u|e]; [|by destruct Hspec as [-> _]]. destruct Hspec as [Hd ->].
    destruct (m !! ChunkId.ToHexString id') as [x|] eqn:Hx; [done|]. unfold honest, present.
    destruct (decide (id' = id)) as [->|Hneq].
    + rewrite lookup_insert_eq. split; [by intros _ d [= <-]|done].
    + assert (ChunkId.ToHexString id' ≠ ChunkId.ToHexString id) by (intros E; by apply Hneq, ChunkId.valid_hex_inj).
      by rewrite lookup_insert_ne.
  - destruct r as [u|e]; [|by destruct Hspec as [-> _]]. cbn in Hspec. subst m'. unfold honest, present.
    assert (ChunkId.ToHexString id' ≠ ChunkId.ToHexString id)
      by (intros E; apply Hne; f_equal; by apply ChunkId.valid_hex_inj).
    by rewrite lookup_delete_ne.
Qed.

(** ** What the atomic store keeps while nobody deletes the chunk *)

Abbreviation astep := (atomic_step io_fault).

Definition calm (a : Atomic) : Prop :=
  honest (contents a) ∧ ∀ k c r, pending a !! k = Some (c, r) → ¬ deletes c.

Lemma calm_step a l a' :
  calm a → (∀ e, l = Some e → no_deletion e) → astep a l a' →
  calm a' ∧ (present (contents a) → present (contents a')).
Proof.
  intros [Hh Hp] Hl Hs. destruct Hs as [i c m ps Hi|i c q r m m' ps Hi Hq Hspec|i qc m ps Hi|i c r x m ps Hi Hsays]; cbn in *.
  - split; [|done]. split; [done|]. cbn. intros k c' r [[-> [= <- <-]]|[_ Hk]]%lookup_insert_Some; [|by eapply Hp].
    exact (Hl _ eq_refl).
  - destruct (commit_keeps io_fault q m r m') as [Hh' Hpr];
      [by eapply plan_valid|intros ->; by eapply Hp|done|].
    split; [|done]. split; [by apply Hh'|]. cbn.
    intros k c' r' [[-> [= <- <-]]|[_ Hk]]%lookup_insert_Some; by eapply Hp.
  - done.
  - split; [|done]. split; [done|]. cbn. intros k c' r' [_ Hk]%lookup_delete_Some. by eapply Hp.
Qed.

(** A call [c] of the thread [i] under way, with [R] about its reply. *)
Definition watched (i : nat) (c : call) (R : option reply → store → Prop) (a : Atomic) : Prop :=
  calm a ∧ ∃ r, pending a !! i = Some (c, r) ∧ R r (contents a).

Lemma watched_step i c (R : option reply → store → Prop) a l a' :
  (∀ r m m', R r m → (present m → present m') → R r m') →
  (∀ q x m m', plan_asks (call_plan max c) = Some q → R None m → honest m →
     request_spec io_fault q m x m' → R (Some x) m') →
  watched i c R a → (∀ e, l = Some e → no_deletion e ∧ elsewhere i e) → astep a l a' → watched i c R a'.
Proof.
  intros Hothers Hown [Hc (r & Hr & HR)] Hl Hs.
  destruct (calm_step a l a' Hc (λ e He, proj1 (Hl e He)) Hs) as [Hc' Hpr]. split; [done|].
  destruct Hs as [k c1 m ps Hk|k c1 q x m m' ps Hk Hq Hspec|k qc m ps Hk|k c1 r1 x m ps Hk Hsays]; cbn in *.
  - exists r. destruct (Hl _ eq_refl) as [_ Hne]. cbn in Hne. rewrite lookup_insert_ne by done. by split.
  - destruct (decide (k = i)) as [->|Hne].
    + rewrite Hr in Hk. injection Hk as -> ->. exists (Some x). rewrite lookup_insert_eq.
      split; [done|]. eapply Hown; [done|done|by destruct Hc|done].
    + exists r. rewrite lookup_insert_ne by done. split; [done|]. by eapply Hothers.
  - by exists r.
  - exists r. destruct (Hl _ eq_refl) as [_ Hne]. cbn in Hne. rewrite lookup_delete_ne by done. by split.
Qed.

Lemma calm_runs n a t a' :
  calm a → Forall no_deletion t → runs astep n a t a' → calm a' ∧ (present (contents a) → present (contents a')).
Proof.
  intros Ha Ht Hr.
  apply (runs_keep astep (λ b, calm b ∧ (present (contents a) → present (contents b))) no_deletion n a t a'); try done.
  intros b l b' [Hb Hp] Hl Hs. destruct (calm_step b l b' Hb Hl Hs) as [Hb' Hp']. auto.
Qed.

Lemma watched_call i c R a a' :
  calm a → astep a (Some (Call i c)) a' → no_deletion (Call i c) → R None (contents a) → watched i c R a'.
Proof.
  intros Ha Hs Hc HR. destruct (calm_step a (Some (Call i c)) a' Ha) as [Ha' _]; [by intros e [= <-]|done|].
  split; [done|]. inversion Hs; subst. exists None. cbn. by rewrite lookup_insert_eq.
Qed.

Lemma watched_runs i c (R : option reply → store → Prop) n a t a' :
  (∀ r m m', R r m → (present m → present m') → R r m') →
  (∀ q x m m', plan_asks (call_plan max c) = Some q → R None m → honest m →
     request_spec io_fault q m x m' → R (Some x) m') →
  watched i c R a → Forall no_deletion t → Forall (elsewhere i) t → runs astep n a t a' → watched i c R a'.
Proof.
  intros Hothers Hown Ha Hno Hel Hr.
  apply (runs_keep astep (watched i c R) (λ e, no_deletion e ∧ elsewhere i e) n a t a'); [|done|by apply Forall_and|done].
  intros b l b' Hb Hl Hs. by eapply watched_step.
Qed.

Lemma watched_return i c R a x a' :
  watched i c R a → astep a (Some (Return i x)) a' →
  ∃ r, plan_says (call_plan max c) r x ∧ R r (contents a) ∧ calm a' ∧ contents a' = contents a.
Proof.
  intros [Ha (r & Hr & HR)] Hs. destruct (calm_step a (Some (Return i x)) a' Ha) as [Ha' _]; [by intros e [= <-]|done|].
  exists r. inversion Hs; subst. cbn in *. by simplify_map_eq.
Qed.

(** ** An upload and a later download *)

Definition uploaded : rpc_reply := PutReply Status_OK (MkPutResp kCurrentProtocolVersion ChunkStatus.OK "Success").

(** The call uploads a chunk under the identifier. *)
Definition uploads (c : call) : Prop :=
  match c_rpc c with
  | RpcPut _ (MkPutReq _ (PutMetadata m) :: _) => ChunkId.Parse (put_chunk_id m) = Ok id
  | _ => False
  end.

(** The call downloads the chunk, in the current version of the protocol. *)
Definition downloads (c : call) (writable : nat → bool) : Prop :=
  ∃ context, c_rpc c = RpcGet context (MkGetReq kCurrentProtocolVersion (ChunkId.ToHexString id)) writable.

Lemma uploads_plan c : uploads c →
  match call_plan max c with
  | Refuses x => x ≠ uploaded
  | Asks q respond => ∃ data, q = ReqPut id data ∧
      ∀ r, respond r = Some uploaded → r = RepDone (Ok tt)
  end.
Proof.
  unfold uploads, call_plan. destruct (c_rpc c) as [? reader|?|?|?|?|?]; try done.
  destruct reader as [|[v [m|?|]] frames]; try done. intros Hp. cbn [rpc_plan]. unfold put_plan, with_id, with_version.
  rewrite Hp. case_bool_decide; [|done]. destruct (_ <? _); [done|].
  destruct (Service.CollectFrames _ _ _) as [payload|]; [|done]. exists payload. split; [done|]. intros [[[]|e]|?|?|?]; try done. cbn. intros [=]. by destruct (kind e).
Qed.

Lemma downloads_plan c w : downloads c w →
  call_plan max c = Asks (ReqGet id) (λ r, match r with RepData x => Some (GetReply Status_OK (get_messages w x)) | _ => None end).
Proof.
  intros [context Hc]. unfold call_plan. rewrite Hc. cbn. unfold with_version, with_id. cbn.
  assert (ChunkId.Parse (ChunkId.ToHexString id) = Ok id) as -> by (by apply ChunkId.Parse_ok). done.
Qed.

(** A chunk that is there is downloaded, unless reading fails. *)
Definition found (r : Result (list byte) ChunkStoreErrorDetail) : Prop :=
  match r with Ok data => digest_matches id data | Err e => kind e = IoError ∧ io_fault end.

Lemma present_found m r : present m → honest m → get_spec io_fault m id r → found r.
Proof.
  intros [d Hd] Hh. destruct r as [data|e]; cbn; [by intros [_ ?]|].
  intros [[_ Hn]|[(_ & d' & Hd' & Hne)|(Hk & _ & Hf)]]; [by rewrite Hd in Hn|by apply Hh in Hd'|done].
Qed.

(** When an upload is acknowledged the chunk is there. *)
Lemma acknowledged_present m n tr a t0 t1 t2 i up :
  honest m → runs astep n (MkAtomic m ∅) tr a → Forall no_deletion tr →
  tr = t0 ++ Call i up :: t1 ++ Return i uploaded :: t2 → Forall (elsewhere i) t1 → uploads up →
  (∃ data, plan_asks (call_plan max up) = Some (ReqPut id data)) ∧
  ∃ n2 a3, runs astep n2 a3 t2 a ∧ calm a3 ∧ present (contents a3) ∧ Forall no_deletion t2.
Proof.
  intros Hm Hr Hno Htr Hi Hup. rewrite Htr in Hno.
  apply Forall_app in Hno as [N0 [U0 [N1 [_ N2]%Forall_cons]%Forall_app]%Forall_cons].
  destruct (runs_event _ _ _ _ _ _ _ _ Hr Htr) as (n0 & k0 & a0 & a1 & R0 & S0 & Hr1).
  destruct (runs_event _ _ _ _ _ _ _ _ Hr1 eq_refl) as (n1 & k1 & a2 & a3 & R1 & S1 & Hr2).
  assert (calm (MkAtomic m ∅)) as C by (split; [done|]; intros ? ? ?; cbn; by rewrite lookup_empty).
  destruct (calm_runs _ _ _ _ C N0 R0) as [C0 _]. apply uploads_plan in Hup.
  pose (Rup := λ (r : option reply) (m : store), r = Some (RepDone (Ok tt)) → present m).
  assert (watched i up Rup a2) as W2.
  { eapply watched_runs; [| |apply (watched_call i up Rup a0 a1 C0 S0 U0); by intros [=]|exact N1|exact Hi|exact R1].
    - unfold Rup. auto.
    - intros q y m1 m1' Hq _ _ Hspec [= ->]. destruct (call_plan max up) as [|q' f]; [done|]. injection Hq as <-.
      destruct Hup as (data & -> & _). destruct Hspec as [_ ->]. unfold present.
      destruct (m1 !! ChunkId.ToHexString id) eqn:E; [by rewrite E|by rewrite lookup_insert_eq]. }
  destruct (watched_return _ _ _ _ _ _ W2 S1) as (r & Hr1' & HR & C3 & E3).
  assert (r = Some (RepDone (Ok tt)) ∧ ∃ data, plan_asks (call_plan max up) = Some (ReqPut id data)) as [-> Hasks].
  { clear W2 HR. destruct (call_plan max up) as [x'|q' f], r as [r|]; cbn in Hr1'; try done.
    destruct Hup as (data & -> & Hf). rewrite (Hf r Hr1'). split; [done|by exists data]. }
  split; [exact Hasks|]. specialize (HR eq_refl). rewrite <- E3 in HR. by exists k1, a3.
Qed.

(** A chunk that is there is found by every download. *)
Lemma present_found_runs a0 n tr a t0 t1 t2 j down w x :
  calm a0 → present (contents a0) → runs astep n a0 tr a → Forall no_deletion tr →
  tr = t0 ++ Call j down :: t1 ++ Return j x :: t2 → Forall (elsewhere j) t1 → downloads down w →
  ∃ r, found r ∧ x = GetReply Status_OK (get_messages w r).
Proof.
  intros C0 P0 Hr Hno Htr Hj Hdown. apply downloads_plan in Hdown. rewrite Htr in Hno.
  apply Forall_app in Hno as [N0 [D0 [N1 _]%Forall_app]%Forall_cons].
  destruct (runs_event _ _ _ _ _ _ _ _ Hr Htr) as (n2 & k2 & a4 & a5 & R2 & S2 & Hr3).
  destruct (runs_event _ _ _ _ _ _ _ _ Hr3 eq_refl) as (n3 & k3 & a6 & a7 & R3 & S3 & _).
  pose (Rdown := λ (r : option reply) (m : store), present m ∧ ∀ y, r = Some y → ∃ res, y = RepData res ∧ found res).
  destruct (calm_runs _ _ _ _ C0 N0 R2) as [C4 P4]. specialize (P4 P0).
  assert (watched j down Rdown a6) as W6.
  { eapply watched_runs; [| |apply (watched_call j down Rdown a4 a5 C4 S2 D0); by split|exact N1|exact Hj|exact R3].
    - intros r m1 m1' [Hp Hy] Hpr. split; auto.
    - intros q y m1 m1' Hq [Hp _] Hh Hspec. rewrite Hdown in Hq. injection Hq as <-.
      destruct y as [?|res|?|?]; try done. destruct Hspec as [-> Hspec]. split; [done|].
      intros y [= <-]. exists res. split; [done|]. by eapply present_found. }
  destruct (watched_return _ _ _ _ _ _ W6 S3) as (r & Hx & [_ Hy] & _).
  rewrite Hdown in Hx. destruct r as [y|]; [|done]. destruct (Hy y eq_refl) as (res & -> & Hres).
  exists res. split; [done|]. by injection Hx as <-.
Qed.

Lemma acknowledged_found_atomic m n tr a t0 t1 t2 t3 t4 i j up down w x :
  honest m → runs astep n (MkAtomic m ∅) tr a → Forall no_deletion tr →
  tr = t0 ++ Call i up :: t1 ++ Return i uploaded :: t2 ++ Call j down :: t3 ++ Return j x :: t4 →
  Forall (elsewhere i) t1 → Forall (elsewhere j) t3 → uploads up → downloads down w →
  ∃ r, found r ∧ x = GetReply Status_OK (get_messages w r).
Proof.
  intros Hm Hr Hno Htr Hi Hj Hup Hdown.
  destruct (acknowledged_present m n tr a _ _ _ i up Hm Hr Hno Htr Hi Hup) as (_ & k1 & a3 & Hr2 & C3 & HR & Hno2).
  eapply (present_found_runs a3 k1 _ a t2 t3 t4 j down w x C3 HR Hr2 Hno2 eq_refl); done.
Qed.

Lemma idle_honest s : idle root s → honest (view root s).
Proof.
  intros Hs d. rewrite view_at by done. destruct (tree s !! final_of root id) as [x|] eqn:Hx; [|done].
  intros [= <-]. by apply (idle_intact _ _ Hs id x).
Qed.

(** C8: An acknowledged chunk is found, provided that the status queries
    [exists] and [file_size] do not fail (the store takes such a failure for a
    missing file, and the answer would be NOT_FOUND) and that the mutex does
    not report the relock of [Put] as an error. Whatever other calls are under
    way, once a thread has seen the upload of a chunk answered with "Success",
    every download of the chunk that starts later, in whatever thread, is
    answered with bytes of the right digest (or with an I/O error when another
    call of the system failed or fell short), never with NOT_FOUND or a
    corruption, as long as nobody has asked for the deletion of the chunk. *)
Theorem acknowledged_chunk_found s (n : nat) (tr t0 t1 t2 t3 t4 : list event) (W : World) (i j : nat)
  (up down : call) (writable : nat → bool) (x : rpc_reply) :
  fair → idle root s → runs step n (MkWorld s ∅ true) tr W → Forall no_deletion tr →
  tr = t0 ++ Call i up :: t1 ++ Return i uploaded :: t2 ++ Call j down :: t3 ++ Return j x :: t4 →
  Forall (elsewhere i) t1 → Forall (elsewhere j) t3 → uploads up → downloads down writable →
  ∃ r, found r ∧ x = GetReply Status_OK (get_messages writable r).
Proof.
  intros Hfair Hs Hr Hno Htr Hi Hj Hup Hdown.
  destruct (client_linearizable root Hfair (node_client_safe root max max_small Hfair) s n tr W Hs Hr) as (n' & a & Ha & _).
  by eapply (acknowledged_found_atomic (view root s)); [apply idle_honest| | | | | | |].
Qed.

(** A call under way stays the call it is. *)
Lemma session_kept i up n u0 u1 t w :
  step u0 (Some (Call i up)) u1 → runs step n u1 t w → Forall (elsewhere i) t →
  ∃ th, threads w !! i = Some th ∧ t_session th = up.
Proof.
  intros Hs Hr Ht.
  apply (runs_keep step (λ w, ∃ th, threads w !! i = Some th ∧ t_session th = up) (elsewhere i) n u1 t w); [|done|done|].
  - intros w1 l w2 (th & Hth & Hup) Hl Hstep.
    destruct Hstep; cbn [threads] in *; try (by exists th);
      try (by match goal with |- context [<[?k := _]> _] => destruct (decide (k = i)) as [->|Hne] end;
           [eexists; split; [apply lookup_insert_eq|cbn; congruence]|exists th; by rewrite lookup_insert_ne]).
    specialize (Hl _ eq_refl). cbn in Hl. exists th. by rewrite lookup_delete_ne.
  - inversion Hs; subst. cbn. eexists. split; [apply lookup_insert_eq|done].
Qed.

Lemma no_deletion_spared tr : Forall no_deletion tr → Forall (spared (λ j, j = id)) tr.
Proof.
  intros Hall. eapply Forall_impl; [exact Hall|]. intros [i c|i x|i]; [|done..]. intros Hno j q -> Hq Hrem. destruct q as [| | |id'| |]; try done.
  apply Hno. unfold deletes. assert (id' = id) as <-; [|exact Hq].
  apply ChunkId.valid_hex_inj; [exact (plan_valid c _ Hq)|done|exact Hrem].
Qed.

(** ... and from the reply on the chunk is known to be there. *)
Lemma uploaded_related (s : Disk) n1 (t0 t1 t : list event) w1 i up w2 n2 t2 w data :
  fair → idle root s →
  t = t0 ++ Call i up :: t1 → Forall (elsewhere i) t1 → Forall no_deletion t → Forall no_deletion t2 →
  runs step n1 (MkWorld s ∅ true) t w1 → step w1 (Some (Return i uploaded)) w2 → runs step n2 w2 t2 w →
  uploads up → plan_asks (call_plan max up) = Some (ReqPut id data) →
  ∃ a, related root s (λ j, j = id) (λ j, j = id) w a.
Proof.
  intros Hfair Hs Et Hi Hno1 Hno2 R1 S1 R2 Hup Hasks.
  pose proof (node_client_safe root max max_small Hfair) as Hsafe.
  destruct (runs_event _ _ _ _ _ _ _ _ R1 Et) as (n3 & n4 & u0 & u1 & _ & S0 & R3).
  destruct (session_kept i up _ _ _ _ _ S0 R3 Hi) as (th & Hth & Hsess). apply uploads_plan in Hup.
  apply (client_put_related root Hfair Hsafe s n1 t w1 i uploaded w2 n2 t2 w th id data); try done.
  - by apply no_deletion_spared.
  - by apply no_deletion_spared.
  - rewrite <- Hasks. by rewrite <- Hsess.
  - intros r Hr. assert (plan_says (call_plan max up) r uploaded) as Hsays by (by rewrite <- Hsess).
    clear Hasks Hsess Hr. destruct (call_plan max up) as [x|q f], r as [r|]; cbn in Hsays; try done.
    destruct Hup as (_ & _ & Hf). by rewrite (Hf r Hsays).
Qed.

(** A life in which an upload is acknowledged: the chunk is known to be there
    when it ends, and it is. *)
Lemma acknowledged_related (s : Disk) (n : nat) (tr : list event) (w : World) (t0 t1 t2 : list event) (i : nat) (up : call) :
  fair → idle root s → runs step n (MkWorld s ∅ true) tr w → Forall no_deletion tr →
  tr = t0 ++ Call i up :: t1 ++ Return i uploaded :: t2 → Forall (elsewhere i) t1 → uploads up →
  (∃ a, related root s (λ j, j = id) (λ j, j = id) w a) ∧
  ∃ c, view root (disk w) !! ChunkId.ToHexString id = Some c ∧ digest_matches id c.
Proof.
  intros Hfair Hs Hr Hno Htr Hi Hup.
  destruct (client_linearizable root Hfair (node_client_safe root max max_small Hfair) s n tr w Hs Hr) as (n' & a & Ha & Hview).
  destruct (acknowledged_present (view root s) n' tr a t0 t1 t2 i up (idle_honest s Hs) Ha Hno Htr Hi Hup)
    as ([data Hasks] & k1 & a3 & Hr2 & C3 & HP & Hno2).
  destruct (calm_runs _ _ _ _ C3 Hno2 Hr2) as [[Hh _] P4]. destruct (P4 HP) as [c Hc]. split.
  - rewrite app_comm_cons, app_assoc in Htr. rewrite Htr in Hno. apply Forall_app in Hno as [Hno1 _].
    destruct (runs_event _ _ _ _ _ _ _ _ Hr Htr) as (n1 & n2 & w1 & w2 & R1 & S1 & R2).
    by apply (uploaded_related s n1 t0 t1 _ w1 i up w2 n2 t2 w data Hfair Hs eq_refl).
  - exists c. split; [exact (eq_trans (f_equal (lookup (ChunkId.ToHexString id)) (eq_sym Hview)) Hc)|by apply Hh].
Qed.

(** An acknowledged chunk is durable. Let the shard directory of the
    chunk have reached the disk before the calls start. When a thread has seen
    its upload answered with "Success", the machine may stop at any later
    moment, in the middle of whatever calls, further uploads of the chunk
    included, and lose everything that was not synced, contents and directory
    entries: the node that starts again has the chunk, with bytes of the right
    digest, if nobody asked for its deletion ([open] and [fsync] must not have
    failed). *)
Theorem acknowledged_chunk_durable (s : Disk) (n : nat) (tr : list event) (w : World) (m' : gmap path file)
  (t0 t1 t2 : list event) (i : nat) (up : call) :
  fair → sync_reliable → idle root s → tidy root (λ i, i = id) nothing (os s) →
  runs step n (MkWorld s ∅ true) tr w → loss (os (disk w)) m' → Forall no_deletion tr →
  tr = t0 ++ Call i up :: t1 ++ Return i uploaded :: t2 → Forall (elsewhere i) t1 → uploads up →
  ∃ c, view root (reboot m' (disk w)) !! ChunkId.ToHexString id = Some c ∧ digest_matches id c.
Proof.
  intros Hfair Hsync Hs Ht Hr Hl Hno Htr Hi Hup.
  destruct (acknowledged_related s n tr w t0 t1 t2 i up Hfair Hs Hr Hno Htr Hi Hup) as ([a Hrel] & c & Hc & Hd).
  exists c. split; [|done]. by apply (related_durable root s (λ j, j = id) (λ j, j = id) w a m' id c); [..|left|].
Qed.

End History.

(** ** A concrete history *)

Section Examples.

#[local] Existing Instance toy_evp.
#[local] Existing Instance toy_good.
#[local] Existing Instance toy_uuid.
#[local] Existing Instance toy_evp_laws.
#[local] Existing Instance toy_uuid_laws.

#[local] Instance example_client : Client := node_client ["data"] 100.

Definition a_download : rpc :=
  RpcGet {| client_metadata := [] |} (MkGetReq 1 (ChunkId.ToHexString sample_chunk)) (λ _, true).

(** Two uploads of the same chunk in turn; when both are acknowledged a
    download in turn with a third upload. *)
Definition found_schedule : list choice :=
  [Invoke 1 (a_call (an_upload 1)) "a"; Invoke 2 (a_call (an_upload 1)) "b"] ++
  concat (repeat [GoOn 1; GoOn 2] 40) ++
  [Invoke 3 (a_call a_download) "c"; Invoke 1 (a_call (an_upload 1)) "a"] ++
  concat (repeat [GoOn 1; GoOn 3] 30).

Definition found_run : nat * list event * World := exec found_schedule 0 [] (MkWorld fresh_disk ∅ true).

Lemma found_run_runs : runs step found_run.1.1 (MkWorld fresh_disk ∅ true) found_run.1.2 found_run.2.
Proof.
  assert (Forall choice_valid found_schedule) as Hv by (apply Forall_forall; by intros [i q cid|i] _).
  pose proof (exec_runs found_schedule 0 [] _ _ Hv (runs_nil _ (MkWorld fresh_disk ∅ true))) as Hr.
  fold found_run in Hr. by destruct found_run as [[n tr] w].
Qed.

(** The theorems ask for the places of some events in the trace, and that
    others are not there; both can be computed. *)
Lemma cut_at {A} k (l : list A) x : l !! k = Some x → l = take k l ++ x :: drop (S k) l.
Proof. intros Hk. symmetry. by apply take_drop_middle. Qed.

Definition elsewhereb (i : nat) (e : event) : bool :=
  match e with Call j _ | Return j _ => negb (Nat.eqb j i) | Message _ => true end.

Lemma elsewhereb_all i tr : forallb (elsewhereb i) tr = true → Forall (elsewhere ["data"] 100 i) tr.
Proof.
  intros Hall. apply Forall_forall. intros e He%list_elem_of_In. rewrite forallb_forall in Hall. specialize (Hall e He).
  destruct e as [j q|j r|j]; [..|done]; cbn in *; by apply negb_true_iff, Nat.eqb_neq in Hall.
Qed.

Definition spares_all (e : event) : bool :=
  match e with
  | Call _ c => match plan_asks (call_plan 100 c) with Some (ReqDelete _) => false | _ => true end
  | _ => true
  end.

Lemma spares_all_no_deletion id tr : forallb spares_all tr = true → Forall (no_deletion ["data"] 100 id) tr.
Proof.
  intros Hall. apply Forall_forall. intros e He%list_elem_of_In. rewrite forallb_forall in Hall. specialize (Hall e He).
  destruct e as [j c|j r|j]; [|done..]. intros Hc. cbn in Hall. by rewrite Hc in Hall.
Qed.

(** The first upload is the event 0 and its reply comes 10 events later; then
    the download starts, and is answered. *)
Definition found_story (tr : list event) : Prop :=
  let tr1 := drop 1 tr in let tr2 := drop 10 tr1 in let tr3 := drop 2 tr2 in
  match tr !! 0%nat, tr1 !! 9%nat, tr2 !! 1%nat, tr3 !! 7%nat with
  | Some (Call i up), Some (Return i' x1), Some (Call j down), Some (Return j' x) =>
      (i = 1 ∧ i' = 1 ∧ j = 3 ∧ j' = 3)%nat ∧
      x1 = uploaded ∧ x = GetReply Status_OK (get_messages (λ _, true) (Ok sample_data)) ∧
      uploads sample_chunk up ∧ c_rpc down = a_download ∧
      forallb (elsewhereb 1) (take 9 tr1) = true ∧ forallb (elsewhereb 3) (take 7 tr3) = true ∧ forallb spares_all tr = true
  | _, _, _, _ => False
  end.

Lemma found_run_story : found_story found_run.1.2.
Proof. vm_compute. by split_and!. Qed.

Lemma acknowledged_chunk_found_witness :
  ∃ r, found sample_chunk r ∧
    GetReply Status_OK (get_messages (λ _, true) (Ok sample_data)) = GetReply Status_OK (get_messages (λ _, true) r).
Proof.
  generalize found_run_story, found_run_runs. generalize found_run.1.2 as tr, found_run.1.1 as n, found_run.2 as w.
  intros tr n w Hs Hr. unfold found_story in Hs.
  destruct (tr !! 0%nat) as [[i up| |]|] eqn:E0; try done.
  destruct (drop 1 tr !! 9%nat) as [[|i' x1|]|] eqn:E1; try done.
  destruct (drop 10 (drop 1 tr) !! 1%nat) as [[j down| |]|] eqn:E2; try done.
  destruct (drop 2 (drop 10 (drop 1 tr)) !! 7%nat) as [[|j' x|]|] eqn:E3; try done.
  destruct Hs as ((-> & -> & -> & ->) & -> & -> & Hup & Hdown & H1 & H3 & Hno).
  apply cut_at in E0, E1, E2, E3. rewrite E3 in E2. rewrite E2 in E1. rewrite E1 in E0.
  eapply (acknowledged_chunk_found ["data"] 100 eq_refl sample_chunk sample_chunk_valid fresh_disk n tr
    _ _ _ _ _ w 1 3 up down (λ _, true) _ toy_fair fresh_idle Hr); [|exact E0| | |done|by eexists].
  - by apply spares_all_no_deletion.
  - by apply elsewhereb_all.
  - by apply elsewhereb_all.
Defined.

(** A chunk is uploaded to a shard that has reached the disk; a download and
    a second upload of it are in the middle of their work when everything
    unsynced is lost. *)
Definition durable_schedule : list choice :=
  Invoke 1 (a_call (an_upload 1)) "a" :: repeat (GoOn 1) 40 ++
  [Invoke 3 (a_call a_download) "c"; Invoke 2 (a_call (an_upload 1)) "b"] ++ concat (repeat [GoOn 2; GoOn 3] 6).

Definition durable_node : nat * list event * World := exec durable_schedule 0 [] (MkWorld emptied_disk ∅ true).

Lemma durable_node_runs : runs step durable_node.1.1 (MkWorld emptied_disk ∅ true) durable_node.1.2 durable_node.2.
Proof.
  assert (Forall choice_valid durable_schedule) as Hv by (apply Forall_forall; by intros [i q cid|i] _).
  pose proof (exec_runs durable_schedule 0 [] _ _ Hv (runs_nil _ (MkWorld emptied_disk ∅ true))) as Hr.
  fold durable_node in Hr. by destruct durable_node as [[n tr] w].
Qed.

Definition durable_story (tr : list event) : Prop :=
  let tr1 := drop 1 tr in
  match tr !! 0%nat, tr1 !! 4%nat with
  | Some (Call i up), Some (Return i' x) =>
      (i = 1 ∧ i' = 1)%nat ∧ x = uploaded ∧ uploads sample_chunk up ∧
      forallb (elsewhereb 1) (take 4 tr1) = true ∧ forallb spares_all tr = true
  | _, _ => False
  end.

Lemma durable_node_story : durable_story durable_node.1.2.
Proof. vm_compute. by split_and!. Qed.

Lemma durable_story_cut tr : durable_story tr → ∃ up t1 t2,
  tr = Call 1 up :: t1 ++ Return 1 uploaded :: t2 ∧ uploads sample_chunk up ∧ Forall (elsewhere ["data"] 100 1) t1 ∧
  Forall (no_deletion ["data"] 100 sample_chunk) tr.
Proof.
  unfold durable_story. intros Hs.
  destruct (tr !! 0%nat) as [[i up| |]|] eqn:E0; try done.
  destruct (drop 1 tr !! 4%nat) as [[|i' x|]|] eqn:E1; try done.
  destruct Hs as ((-> & ->) & -> & Hup & H1 & Hno). apply cut_at in E0, E1. rewrite E1 in E0.
  exists up, (take 4 (drop 1 tr)), (drop 5 (drop 1 tr)).
  split; [exact E0|]. split; [exact Hup|]. split; [by apply elsewhereb_all|by apply spares_all_no_deletion].
Qed.

(** What the threads under way have asked of the store. *)
Definition asked (w : World) : list (option request) :=
  map (λ p, plan_asks (call_plan 100 (t_session p.2))) (map_to_list (threads w)).

Lemma acknowledged_chunk_durable_witness :
  let d := disk durable_node.2 in
  Some (ReqPut sample_chunk sample_data) ∈ asked durable_node.2 ∧
  ∃ c, view ["data"] (reboot (worst_loss (os d)) d) !! ChunkId.ToHexString sample_chunk = Some c ∧
    digest_matches sample_chunk c.
Proof.
  assert (asked durable_node.2 = [Some (ReqPut sample_chunk sample_data); Some (ReqGet sample_chunk)]) as Hw by (by vm_compute).
  intros d. split; [rewrite Hw; by left|]. unfold d. clear d Hw.
  generalize durable_node_story, durable_node_runs. generalize durable_node.1.2 as tr, durable_node.1.1 as n, durable_node.2 as w.
  intros tr n w (up & t1 & t2 & Htr & Hup & H1 & Hno)%durable_story_cut Hr.
  apply (acknowledged_chunk_durable ["data"] 100 eq_refl sample_chunk sample_chunk_valid emptied_disk n tr w
    (worst_loss (os (disk w))) [] t1 t2 1 up toy_fair).
  - by intros n' c msg _.
  - exact emptied_idle.
  - exact emptied_tidy.
  - exact Hr.
  - apply worst_loss_is_loss.
  - exact Hno.
  - exact Htr.
  - exact H1.
  - exact Hup.
Defined.

End Examples.
