(* ===== verification/Lives.v ===== *)
(** * The lives of a node

    A data directory outlives the processes that use it. A life is what one
    process does with it: the constructor of the store, then any number of
    calls in threads, until the process ends, in good order, by a signal that
    cannot be caught, or because the power is cut, at any moment. The next
    process starts on what is left. This file composes such lives: what holds
    of the directory between any two of them, where the chunks in it come
    from, and that a chunk whose upload was acknowledged in one life is there
    in all later ones, if its shard and its own entry, where it was there
    already, had reached the disk before the first. The status queries of the
    store are assumed not to fail, nor, for what is acknowledged, [open] and
    [fsync]; [acknowledged_then_lost] shows that the condition on the entry is
    needed. *)

From S2P Require Import Prelude Result Cxx Sha256 ChunkId Logger IChunkStore Posix LocalDisk DiskRules DiskLayout DiskEffects DiskTheorems DiskContract DiskSafety DiskDurability DiskCounters Proto Service ServiceRules Requests Programs Threads ThreadRules ThreadOps ThreadCoupling ThreadTheorems Grounded Handlers NodeThreads NodeHistory.
Import LocalDisk Handlers.

Section Between.
Context `{Evp, Platform, UuidSource, !EvpLaws, !UuidLaws}.
Variable root : path.
Implicit Types s : Disk.

(** ** Between two processes *)

(** There is no data directory yet, and nothing in the way of making one. *)
Record blank s : Prop := {
  blank_nonempty : root ≠ [];
  blank_below p : root `prefix_of` p → p ∉ dirset s ∧ tree s !! p = None;
  blank_above q : q ∈ prefixes root → tree s !! q = None
}.

Record down s : Prop := {
  down_tree : sound root s ∨ blank s;
  down_held : held s = [];
  down_fds : fds (os s) = ∅
}.

Lemma sound_not_blank s : root ∈ dirset s → sound root s ∨ blank s → sound root s.
Proof. intros Hr [?|Hb]; [done|]. by destruct (blank_below s Hb root). Qed.

Lemma blank_final s id : blank s → tree s !! final_of root id = None.
Proof. intros Hb. apply (blank_below s Hb), root_final. Qed.

Lemma down_healthy s : down s → sound root s → healthy root s.
Proof. intros [_ Hh Hf] [Hl Hp _]. split; try done. intros n _. rewrite Hf. apply lookup_empty. Qed.

Lemma sound_blank_same s s' : fs (os s') = fs (os s) → sound root s ∨ blank s → sound root s' ∨ blank s'.
Proof.
  intros Hf [[Hl Hp Hi]|[Hne Hb Ha]]; [left|right]; split; unfold tree, dirset in *; by rewrite ?Hf.
Qed.

(** ** What the end of a process leaves

    When a process ends, the system keeps the tree and goes on knowing which
    entries have to be written. When the power is cut what was not synced may
    be lost: contents, files and directories, with everything below them. *)
Record outage (o : Os) (f : Fs) : Prop := {
  outage_loss : loss o (files f);
  outage_dirs q : q ∈ dirs f → q ∈ dirs (fs o);
  outage_anchored q : q ∈ dirs (fs o) → anchored o q → q ∈ dirs f;
  outage_grounded : grounded f
}.

Definition next_process (o : Os) s : Disk := MkDisk o (set_correlation_id "" (rt s)) [] 0 0.

Inductive ends s : Disk → Prop :=
  | ends_process : ends s (next_process (MkOs (fs (os s)) (now (os s)) ∅ 3 (Posix.pending (os s))) s)
  | ends_power f : outage (os s) f → ends s (next_process (MkOs f (now (os s)) ∅ 3 ∅) s).

(** In a tree whose entries all have their directories. *)
Lemma nothing_lost o : grounded (fs o) → outage o (fs o).
Proof. intros Hp. split; [split|..]; try done. apply power_loss_refl. Qed.

(** The worst case. *)
Definition worst_outage (o : Os) : Fs :=
  MkFs (worst_loss o) (filter (λ q, Forall (λ r, r ∉ Posix.pending o) (prefixes q)) (dirs (fs o))).

Lemma parent_prefixes q r : r ∈ prefixes (parent q) → r ∈ prefixes q.
Proof.
  intros [Hne Hr]%elem_of_prefixes. apply elem_of_prefixes. split; [done|]. etrans; [done|apply prefix_take].
Qed.

Lemma worst_outage_is_outage o : grounded (fs o) → outage o (worst_outage o).
Proof.
  intros Hg. split.
  - apply worst_loss_is_loss.
  - intros q [_ Hq]%elem_of_filter. done.
  - intros q Hq Ha. apply elem_of_filter. split; [by apply Forall_forall|done].
  - intros q Hin.
    assert ((q ∈ dirs (fs o) ∨ is_Some (files (fs o) !! q)) ∧ Forall (λ r, r ∉ Posix.pending o) (prefixes q)) as [Hin' Hall].
    { destruct Hin as [[Hall Hq]%elem_of_filter|[x [Hx [_ Hall]]%map_lookup_filter_Some]]; [tauto|]. split; [right; by exists x|done]. }
    destruct (Hg q Hin') as [?|Hp]; [by left|right]. apply elem_of_filter. split; [|done].
    apply Forall_forall. intros r Hr%parent_prefixes. rewrite Forall_forall in Hall. by apply Hall.
Qed.

(** A directory that is left has the directories above it. *)
Lemma outage_prefix o f p q : outage o f → p ∈ dirs f → q ∈ prefixes p → q ∈ dirs f.
Proof.
  intros Ho Hp [Hne [k ->]]%elem_of_prefixes.
  destruct (grounded_above f q k (outage_grounded _ _ Ho) Hne (or_introl Hp)) as [->|?]; [by rewrite app_nil_r in Hp|done].
Qed.

Lemma outage_tree s f s' :
  outage (os s) f → fs (os s') = f → sound root s ∨ blank s → sound root s' ∨ blank s'.
Proof.
  intros Ho <- Hs. pose proof (outage_loss _ _ Ho) as [Hpl _].
  assert (∀ p, tree s !! p = None → tree s' !! p = None) as Hnone.
  { intros p Hp. apply eq_None_not_Some. intros [x Hx]. destruct (Hpl p x Hx) as (y & Hy & _). unfold tree in Hp. congruence. }
  destruct Hs as [Hs|[Hne Hb Ha]].
  2: { right. split; [done| |auto]. intros p Hp. destruct (Hb p Hp) as [Hd Hf].
       split; [by intros Hin%(outage_dirs _ _ Ho)|auto]. }
  pose proof Hs as [Hl Hp Hi]. pose proof (layout_nonempty _ _ Hl) as Hne.
  assert (∀ q, q ∈ prefixes root → tree s' !! q = None) as Habove by (intros q Hq; apply Hnone; by apply (layout_root _ _ Hl)).
  destruct (decide (root ∈ dirset s')) as [Hr|Hr]; [left|right].
  - destruct (reboot_sound root (tree s') s Hs Hpl) as [[Hl' _ _ Hp'] Hi']. split; [|exact Hp'|exact Hi']. split; [done| | |].
    + intros q Hq. split; [by eapply outage_prefix|by apply Habove].
    + intros p x Hrp. apply (layout_files _ _ Hl' p x Hrp).
    + intros p Hrp Hd%(outage_dirs _ _ Ho). by apply (layout_dirs _ _ Hl).
  - split; [done| |done]. intros p [k ->].
    assert (root ++ k ∈ dirs (fs (os s')) ∨ is_Some (files (fs (os s')) !! (root ++ k)) → False) as Hno.
    { intros Hin. destruct (grounded_above _ _ _ (outage_grounded _ _ Ho) Hne Hin) as [->|?]; [|done]. rewrite app_nil_r in Hin.
      destruct Hin as [?|[x Hx]]; [done|]. unfold tree in Habove. rewrite Habove in Hx; [done|]. by apply elem_of_prefixes. }
    split; [by intros ?; apply Hno; left|apply eq_None_not_Some; by intros ?; apply Hno; right].
Qed.

Lemma ends_down s s' : sound root s ∨ blank s → ends s s' → down s'.
Proof. intros Hs [|f Hf]; split; try done; [by apply (sound_blank_same s)|by apply (outage_tree s f)]. Qed.

(** What is found was there. *)
Lemma ends_found s s' id c :
  sound root s ∨ blank s → ends s s' → ChunkId.valid id → view root s' !! ChunkId.ToHexString id = Some c →
  view root s !! ChunkId.ToHexString id = Some c.
Proof.
  intros Hs He Hv. rewrite !view_at by done. intros (x' & Hx' & ->)%fmap_Some.
  assert (∃ x, tree s !! final_of root id = Some x ∧ (durable x = true → content x' = content x)) as (x & Hx & Hc).
  { destruct He as [|f Hf]; [by exists x'|]. destruct (outage_loss _ _ Hf) as [Hpl _].
    destruct (Hpl _ _ Hx') as (x & Hx & Hd). exists x. split; [exact Hx|]. intros Hdur. by apply Hd. }
  destruct Hs as [Hs|Hb]; [|by rewrite blank_final in Hx].
  destruct (sound_intact _ _ Hs id x Hv Hx) as [Hdur _]. by rewrite Hx, (Hc Hdur).
Qed.

Lemma down_digest s id c :
  down s → ChunkId.valid id → view root s !! ChunkId.ToHexString id = Some c → digest_matches id c.
Proof.
  intros Hd Hv. rewrite view_at by done. intros (x & Hx & ->)%fmap_Some. destruct (down_tree s Hd) as [Hs|Hb].
  - by apply (sound_intact _ _ Hs id x).
  - by rewrite blank_final in Hx.
Qed.

(** ** The constructor *)

Lemma blank_counters s : blank s → chunk_files root (tree s) = ∅.
Proof.
  intros Hb. apply map_empty. intros p. apply map_lookup_filter_None. right. intros x Hx [Hp _].
  by rewrite (proj2 (blank_below s Hb p Hp)) in Hx.
Qed.

Lemma make_root s s' :
  blank s → tree s' = tree s → dirset s' = list_to_set (prefixes root) ∪ dirset s → sound root s'.
Proof.
  intros Hbl Ht Hd. pose proof Hbl as [Hne Hb Ha]. split.
  - split; [done| | |].
    + intros q Hq. split; [|by rewrite <- (Ha q Hq), <- Ht]. change (q ∈ dirset s'). rewrite Hd. set_solver.
    + intros p x Hp Hx. change (tree s' !! p = Some x) in Hx. by rewrite Ht, (proj2 (Hb p Hp)) in Hx.
    + intros p Hp Hin. change (p ∈ dirset s') in Hin. rewrite Hd in Hin.
      apply elem_of_union in Hin as [[_ Hq]%elem_of_list_to_set%elem_of_prefixes|Hin]; [apply prefix_length in Hq; lia|by apply Hb in Hp as []].
  - intros p x [Hp _] Hx. by rewrite Ht, (proj2 (Hb p Hp)) in Hx.
  - intros id x _ Hx. by rewrite Ht, blank_final in Hx.
Qed.

(** Whatever a process was left with, its constructor makes it ready for
    calls, and shows it the chunks that are there, or it leaves everything as
    it was. *)
Definition constructed s (o : outcome unit) s' : Prop :=
  match o with
  | Done _ => idle root s' ∧ view root s' = view root s
  | Throws _ => fs (os s') = fs (os s) ∧ io_fault
  | Blocks => False
  | Crashed => fs (os s') = fs (os s)
  end.

Lemma ctor_blank s : down s → blank s → wp (LocalDiskChunkStore root) (constructed s) s.
Proof.
  intros [_ Hh Hf] Hb. destruct (blank_below s Hb root) as [Hnd Hnf]; [done|].
  unfold LocalDiskChunkStore. apply wp_bind, wp_bind, wp_exists; [done| |].
  2: { intros msg Hx. apply wp_lift. split; [done|by eapply failed_fault]. }
  assert (path_exists (fs (os s)) root = false) as ->.
  { unfold path_exists. apply orb_false_iff. split; apply bool_decide_eq_false; [|done]. unfold tree in Hnf. rewrite Hnf. by intros []. }
  apply wp_ret. apply wp_bind, wp_bind, wp_create_directories; [done| |].
  - intros _. apply wp_ret, wp_modify. match goal with |- constructed _ _ ?S' => set (s' := S') end.
    assert (sound root s') as Hs' by (by eapply (make_root s)). split; [|by apply view_ext].
    split; [| | |exact Hf].
    + split; [apply Hs'| |done|apply Hs']. intros n _. cbn. rewrite Hf. apply lookup_empty.
    + apply Hs'.
    + assert (chunk_files root (tree s') = ∅) as Hnone by exact (blank_counters s Hb).
      unfold tree in Hnone. unfold counters_ok. by rewrite Hnone.
  - intros msg [(q & x & Hq & Hx)|Hx]; [|split; [done|by eapply failed_fault]].
    pose proof (blank_above s Hb q Hq) as Hn. unfold tree in Hn. cbn in Hx. congruence.
Qed.

Lemma ctor_down s : down s → wp (LocalDiskChunkStore root) (constructed s) s.
Proof.
  intros Hd. destruct (down_tree s Hd) as [Hs|Hb]; [|by apply ctor_blank].
  pose proof (down_healthy s Hd Hs) as Hh. unfold wp.
  destruct (LocalDiskChunkStore root s) as [o s1] eqn:E. destruct (wp_run _ _ _ _ _ E (ctor_counts root s Hh)) as [Hf Ho].
  destruct o as [[]|e| |]; try done. by apply ctor_idle; [|apply Hs|apply Hd|].
Qed.

End Between.

(** ** Where the chunks of the atomic store come from *)

Section Origin.
Context `{C : Client, E : Evp}.

(** Somebody has asked, in [tr], to put these bytes under this key. *)
Definition asked_for (tr : list event) (key : string) (c : list byte) : Prop :=
  ∃ i q id, Call i q ∈ tr ∧ asks q = Some (ReqPut id c) ∧ ChunkId.ToHexString id = key.

Lemma asked_for_app tr tr' key c : asked_for tr key c ∨ asked_for tr' key c → asked_for (tr ++ tr') key c.
Proof. intros [Ha|Ha]; destruct Ha as (i & q & id & Hin & Ha); exists i, q, id; rewrite elem_of_app; tauto. Qed.

Lemma atomic_origin fault n m tr a key c :
  runs (atomic_step fault) n (MkAtomic m ∅) tr a → contents a !! key = Some c → m !! key = Some c ∨ asked_for tr key c.
Proof.
  intros Hr. remember (MkAtomic m ∅) as a0 eqn:Ha0.
  assert ((∀ i q r, Threads.pending a !! i = Some (q, r) → Call i q ∈ tr) ∧
          (contents a !! key = Some c → m !! key = Some c ∨ asked_for tr key c)) as [_ ?]; [|done].
  induction Hr as [a|n a tr a1 l a2 Hr IH Hs]; [subst a; split; [intros i q r; cbn; by rewrite lookup_empty|by left]|].
  destruct (IH Ha0) as [Hp Hc]. clear IH Hr Ha0.
  assert (∀ i q r, Threads.pending a1 !! i = Some (q, r) → Call i q ∈ tr ++ option_list l) as Hp'
    by (intros i q r Hi; apply elem_of_app; left; by eapply Hp).
  assert (m !! key = Some c ∨ asked_for tr key c → m !! key = Some c ∨ asked_for (tr ++ option_list l) key c) as Hmono
    by (intros [?|?]; [by left|right; apply asked_for_app; by left]).
  destruct Hs as [i q m1 ps Hi|i q rq r m1 m2 ps Hi Hq Hspec|i qc m1 ps Hi|i q r x m1 ps Hi Hsays]; cbn [contents Threads.pending] in *.
  - split; [|auto]. intros j q' r [[-> [= <- <-]]|[_ Hj]]%lookup_insert_Some; [|by eapply Hp'].
    apply elem_of_app. right. by left.
  - split; [intros j q' r' [[-> [= <- <-]]|[_ Hj]]%lookup_insert_Some; by eapply Hp'|].
    destruct rq as [id' data|id'|id'|id'|id'|], r as [r|r|b|st]; try done; cbn in Hspec;
      try (by destruct Hspec as [-> _]; auto); try (by subst m2; auto).
    + destruct r as [u|e]; [|destruct Hspec as [-> _]; auto]. destruct Hspec as [_ ->].
      destruct (m1 !! ChunkId.ToHexString id') as [y|] eqn:Hy; [auto|].
      intros [[<- <-]|[_ Hk]]%lookup_insert_Some; [|auto]. right. apply asked_for_app. left. exists i, q, id'. eauto.
    + destruct r as [u|e]; [|destruct Hspec as [-> _]; auto]. cbn in Hspec. subst m2.
      intros [_ Hk]%lookup_delete_Some. auto.
  - split; [done|auto].
  - split; [|auto]. intros j q' r' [_ Hj]%lookup_delete_Some. by eapply Hp'.
Qed.

(** A key nobody asks to remove stays. *)
Lemma atomic_stays fault id n m tr a :
  runs (atomic_step fault) n (MkAtomic m ∅) tr a → Forall (spared (λ j, j = id)) tr →
  is_Some (m !! ChunkId.ToHexString id) → is_Some (contents a !! ChunkId.ToHexString id).
Proof.
  intros Hr Hsp Hm.
  enough ((∀ i q r, Threads.pending a !! i = Some (q, r) → spares (λ j, j = id) q) ∧ is_Some (contents a !! ChunkId.ToHexString id)) as [_ ?]; [done|].
  refine (runs_keep (atomic_step fault) (λ a, (∀ i q r, Threads.pending a !! i = Some (q, r) → spares (λ j, j = id) q) ∧
    is_Some (contents a !! ChunkId.ToHexString id)) (spared (λ j, j = id)) n _ tr a _ Hr Hsp _).
  2: { split; [|done]. intros i q r. cbn. by rewrite lookup_empty. }
  clear. intros a l a' [Hp Hc] Hl Hs.
  destruct Hs as [i q m1 ps Hi|i q rq r m1 m2 ps Hi Hq Hspec|i qc m1 ps Hi|i q r x m1 ps Hi Hsays]; cbn [contents Threads.pending] in *.
  - split; [|done]. intros j q' r [[-> [= <- <-]]|[_ Hj]]%lookup_insert_Some; [by apply (Hl _ eq_refl)|by eapply Hp].
  - split; [intros j q' r' [[-> [= <- <-]]|[_ Hj]]%lookup_insert_Some; by eapply Hp|].
    eapply request_keeps; [exact Hspec| |done]. by apply (Hp i q None Hi id).
  - done.
  - split; [|done]. intros j q' r' [_ Hj]%lookup_delete_Some. by eapply Hp.
Qed.

End Origin.

(** ** Lives *)

Section Lives.
Context `{Evp, Platform, UuidSource, !EvpLaws, !UuidLaws, C : Client}.
Variable root : path.
Implicit Types s : Disk.

(** One process: its constructor may fail, or be interrupted; otherwise calls
    are served, and it ends at any moment. *)
Inductive life s : list event → Disk → Prop :=
  | life_aborted o s1 s2 :
      LocalDiskChunkStore root s = (o, s1) → o ≠ Done tt → ends s1 s2 → life s [] s2
  | life_served s1 n tr w s2 :
      LocalDiskChunkStore root s = (Done tt, s1) → runs step n (MkWorld s1 ∅ true) tr w → ends (disk w) s2 →
      life s tr s2.

Inductive lives : Disk → list (list event) → Disk → Prop :=
  | lives_nil s : lives s [] s
  | lives_cons s tr s1 trs s2 : life s tr s1 → lives s1 trs s2 → lives s (tr :: trs) s2.

(** Every life keeps what every life keeps. *)
Lemma lives_keep (I : Disk → Prop) (allowed : list event → Prop) s trs s' :
  (∀ s tr s', I s → allowed tr → life s tr s' → I s') → lives s trs s' → Forall allowed trs → I s → I s'.
Proof.
  intros Hlife Hl. induction Hl as [s|s tr s1 trs s2 Hs Hl IH]; [done|].
  intros [Ha Hall]%Forall_cons HI. apply IH; [done|]. by eapply Hlife.
Qed.

Hypothesis Hfair : fair.
Hypothesis Hclient : SafeClient root.

Lemma constructed_kept s o s1 : down root s → LocalDiskChunkStore root s = (o, s1) → o ≠ Done tt → fs (os s1) = fs (os s).
Proof.
  intros Hd E Ho. pose proof (wp_run _ _ _ _ _ E (ctor_down root s Hd)) as Hc. destruct o as [[]|e| |]; try done. by destruct Hc.
Qed.

Lemma constructed_idle s s1 :
  down root s → LocalDiskChunkStore root s = (Done tt, s1) → idle root s1 ∧ view root s1 = view root s.
Proof. intros Hd E. apply (wp_run _ _ _ _ _ E (ctor_down root s Hd)). Qed.

Lemma run_sound s n tr w : idle root s → runs step n (MkWorld s ∅ true) tr w → sound root (disk w).
Proof.
  intros Hs Hr. destruct (run_related root Hfair Hclient s n tr w Hs Hr) as (n' & a & _ & Hrel). by eapply related_sound.
Qed.

Lemma life_down s tr s' : down root s → life s tr s' → down root s'.
Proof.
  intros Hd Hl. destruct Hl as [o s1 s2 E Ho He|s1 n tr w s2 E Hr He].
  - apply (ends_down root s1); [|done]. apply (sound_blank_same root s); [by eapply constructed_kept|apply Hd].
  - apply (ends_down root (disk w)); [|done]. left. apply (run_sound s1 n tr); [|done]. by apply (constructed_idle s).
Qed.

Lemma life_origin s tr s' id c :
  down root s → life s tr s' → ChunkId.valid id → view root s' !! ChunkId.ToHexString id = Some c →
  view root s !! ChunkId.ToHexString id = Some c ∨ asked_for tr (ChunkId.ToHexString id) c.
Proof.
  intros Hd Hl Hv Hc. destruct Hl as [o s1 s2 E Ho He|s1 n tr w s2 E Hr He].
  - left. pose proof (constructed_kept s o s1 Hd E Ho) as Hf.
    apply (ends_found root s1) in Hc; [|by apply (sound_blank_same root s); [|apply Hd]|done..].
    unfold view in *. by rewrite Hf in Hc.
  - destruct (constructed_idle s s1 Hd E) as [Hi Hview].
    apply (ends_found root (disk w)) in Hc; [|left; by eapply run_sound|done..].
    destruct (client_linearizable root Hfair Hclient s1 n tr w Hi Hr) as (n' & a & Ha & Hcon).
    rewrite <- Hcon in Hc. rewrite <- Hview. by eapply atomic_origin.
Qed.

Lemma lives_down s trs s' : down root s → lives s trs s' → down root s'.
Proof.
  intros Hd Hl. apply (lives_keep (down root) (λ _, True) s trs); [|done|by apply Forall_true|done].
  intros s1 tr s2 Hd1 _ Hl1. by eapply life_down.
Qed.

Lemma lives_origin s trs s' id c :
  down root s → lives s trs s' → ChunkId.valid id → view root s' !! ChunkId.ToHexString id = Some c →
  view root s !! ChunkId.ToHexString id = Some c ∨ ∃ tr, tr ∈ trs ∧ asked_for tr (ChunkId.ToHexString id) c.
Proof.
  intros Hd Hl Hv. revert Hd. induction Hl as [s|s tr s1 trs s2 Hs Hl IH]; intros Hd Hc; [by left|].
  destruct (IH (life_down s tr s1 Hd Hs) Hc) as [Hc1|(tr' & Hin & Ha)]; [|right; exists tr'; split; [by right|done]].
  destruct (life_origin s tr s1 id c Hd Hs Hv Hc1) as [?|Ha]; [by left|]. right. exists tr. split; [by left|done].
Qed.

(** ** A chunk that stays *)

Section Stays.
Variable id : ChunkId.t.
Hypothesis Hid : ChunkId.valid id.

Abbreviation this := (λ j : ChunkId.t, j = id).

(** The chunk is there and will survive a power loss. *)
Record safe_on_disk s : Prop := {
  on_disk_sound : sound root s;
  on_disk_tidy : tidy root this nothing (os s);
  on_disk_there : is_Some (tree s !! final_of root id)
}.

Lemma tidy_root s : tidy root this nothing (os s) → sound root s ∨ blank root s → sound root s.
Proof.
  intros [Hr _] Hs. destruct Hs as [?|Hb]; [done|]. pose proof (blank_nonempty _ _ Hb) as Hne. apply sound_not_blank; [|by right].
  apply (Hr id eq_refl root). apply elem_of_prefixes. split; [done|]. apply root_shard.
Qed.

Lemma this_valid i : this i → ChunkId.valid i.
Proof. by intros ->. Qed.

Lemma ends_on_disk s s' : safe_on_disk s → ends s s' → safe_on_disk s'.
Proof.
  intros [Hs Ht Hx] He. pose proof (ends_down root s s' (or_introl Hs) He) as Hd.
  assert (tidy root this nothing (os s') ∧ is_Some (tree s' !! final_of root id)) as [Ht' Hx'].
  { destruct He as [|f Hf]; [done|]. split.
    - destruct Ht as [Hr _]. split; [|intros i _ _ _; apply not_elem_of_empty].
      intros i -> q Hq. split; [|apply not_elem_of_empty]. apply (outage_anchored _ _ Hf); [by apply (Hr id eq_refl)|].
      intros q' Hq'. apply (Hr id eq_refl). apply elem_of_prefixes in Hq as [_ Hq], Hq' as [Hne Hq'].
      apply elem_of_prefixes. split; [done|]. by etrans.
    - assert (files f !! final_of root id = tree s !! final_of root id) as Hsame; [|by unfold tree; cbn; rewrite Hsame].
      apply (tidy_survives root this this_valid s); [done..|apply Hf|done]. }
  split; [|done..]. apply tidy_root; [done|apply Hd].
Qed.

(** A life in which nobody deletes the chunk. *)
Lemma life_on_disk s tr s' :
  sync_reliable → down root s ∧ safe_on_disk s → Forall (spared this) tr → life s tr s' → down root s' ∧ safe_on_disk s'.
Proof.
  intros Hsync [Hd Hs] Hsp Hl. split; [by eapply life_down|]. destruct Hs as [Hso Ht Hx].
  assert (path_exists (fs (os s)) root = true) as Hroot.
  { unfold path_exists. apply orb_true_iff. right. by apply bool_decide_eq_true, sound_root. }
  destruct Hl as [o s1 s2 E Ho He|s1 n tr w s2 E Hr He];
    destruct (wp_run _ _ _ _ _ E (ctor_looks root s Hroot)) as [Hf Hp].
  - apply (ends_on_disk s1); [|done]. split; [|by apply (tidy_same root this nothing (os s))|by unfold tree; rewrite Hf].
    apply (sound_not_blank root); [unfold dirset; rewrite Hf; by apply sound_root|]. apply (sound_blank_same root s); [done|by left].
  - apply (ends_on_disk (disk w)); [|done]. destruct (constructed_idle s s1 Hd E) as [Hi _].
    assert (is_Some (tree s1 !! final_of root id)) as Hx1 by (by unfold tree; rewrite Hf).
    destruct (client_there_related root Hfair Hclient s1 n tr w id Hi Hsp Hx1 Hr) as [a Hrel].
    assert (is_Some (tree (disk w) !! final_of root id)) as Hx'.
    { destruct (client_linearizable root Hfair Hclient s1 n tr w Hi Hr) as (n' & b & Hb & Hcon).
      rewrite <- (view_at_some root) in Hx1 |- * by done. rewrite <- Hcon. by eapply atomic_stays. }
    split; [by eapply related_sound| |done].
    apply (related_tidy root s1 this this w a id); [done|done|by apply (tidy_same root this nothing (os s))|done|by left].
Qed.

End Stays.

End Lives.

(** ** The lives of a storage node *)

Section NodeLives.
Context `{Evp, Platform, UuidSource, !EvpLaws, !UuidLaws}.
Variables (root : path) (max : Z).
Hypothesis max_small : (max < 2 ^ 63)%Z.

#[local] Existing Instance node_client.
#[local] Instance a_node : Client := node_client root max.

Abbreviation life := (Lives.life root).
Abbreviation lives := (Lives.lives root).

(** C7: A node comes up sound whatever happened to it before. Start from a
    machine without a data directory, or with one as the node leaves it, and
    let any number of processes live on it in turn: constructors that throw or
    are interrupted, calls in threads interleaved action by action, failing
    system calls, processes killed and power cuts at any moment, which lose
    contents, files and directories that were not synced. Then the next
    constructor counts the chunks and is ready for calls, or throws because a
    system call failed and leaves the disk as it was; every chunk there is has
    the right digest, and was there at the start or some call of some process
    uploaded or replicated it. (Of the system calls the status queries
    [exists] and [file_size] must not fail, nor the mutex report the relock of
    [Put] as an error.) *)
Theorem lives_sound (s s' : Disk) (trs : list (list event)) :
  fair → down root s → lives s trs s' →
  (∀ o s1, LocalDiskChunkStore root s' = (o, s1) → constructed root s' o s1) ∧
  ∀ id c, ChunkId.valid id → view root s' !! ChunkId.ToHexString id = Some c →
    digest_matches id c ∧
    (view root s !! ChunkId.ToHexString id = Some c ∨
     ∃ tr i q, tr ∈ trs ∧ Call i q ∈ tr ∧ plan_asks (call_plan max q) = Some (ReqPut id c)).
Proof.
  intros Hfair Hd Hl. pose proof (node_client_safe root max max_small Hfair) as Hsafe.
  pose proof (lives_down root Hfair Hsafe s trs s' Hd Hl) as Hd'. split.
  - intros o s1 E. exact (wp_run _ _ _ _ _ E (ctor_down root s' Hd')).
  - intros id c Hv Hc. split; [by apply (down_digest root s')|].
    destruct (lives_origin root Hfair Hsafe s trs s' id c Hd Hl Hv Hc) as [?|(tr & Hin & i & q & id' & Hq & Ha & Hhex)]; [by left|].
    right. exists tr, i, q. split_and!; [done..|]. rewrite <- (ChunkId.valid_hex_inj id' id); [done| |done|done].
    by apply (plan_valid max q) in Ha.
Qed.

Section Kept.
Variable id : ChunkId.t.
Hypothesis Hid : ChunkId.valid id.

Abbreviation no_deletion := (NodeHistory.no_deletion root max id).
Abbreviation elsewhere := (NodeHistory.elsewhere root max).

Lemma acknowledged_on_disk s (tr t0 t1 t2 : list event) s' (i : nat) (up : call) :
  fair → sync_reliable → down root s → tidy root (λ j, j = id) nothing (os s) → life s tr s' → Forall no_deletion tr →
  tr = t0 ++ Call i up :: t1 ++ Return i uploaded :: t2 → Forall (elsewhere i) t1 → uploads id up →
  down root s' ∧ safe_on_disk root id s'.
Proof.
  intros Hfair Hsync Hd Ht Hl Hno Htr Hi Hup. pose proof (node_client_safe root max max_small Hfair) as Hsafe.
  split; [by eapply life_down|]. destruct Hl as [o s1 s2 E Ho He|s1 n tr w s2 E Hr He]; [by destruct t0|].
  apply (ends_on_disk root id Hid (disk w)); [|done]. destruct (constructed_idle root s s1 Hd E) as [Hidle _].
  destruct (acknowledged_related root max max_small id Hid s1 n tr w t0 t1 t2 i up Hfair Hidle Hr Hno Htr Hi Hup) as ([a Hrel] & c & Hc & _).
  assert (path_exists (fs (os s)) root = true) as Hroot.
  { unfold path_exists. apply orb_true_iff. right.
    apply bool_decide_eq_true, (sound_root root s), (tidy_root root id); [done|by apply down_tree]. }
  destruct (wp_run _ _ _ _ _ E (ctor_looks root s Hroot)) as [Hf Hp].
  split; [by eapply related_sound| |exact (proj1 (view_at_some root id _ Hid) (ex_intro _ c Hc))].
  apply (related_tidy root s1 (λ j, j = id) (λ j, j = id) w a id); [done|done| |done|by left].
  by apply (tidy_same root (λ j, j = id) nothing (os s)).
Qed.

Lemma lives_on_disk s trs s' :
  fair → sync_reliable → down root s ∧ safe_on_disk root id s → lives s trs s' → Forall (Forall no_deletion) trs →
  down root s' ∧ safe_on_disk root id s'.
Proof.
  intros Hfair Hsync Hs Hl Hno. pose proof (node_client_safe root max max_small Hfair) as Hsafe.
  apply (lives_keep root (λ s, down root s ∧ safe_on_disk root id s) (Forall no_deletion) s trs); [|done..].
  intros s1 tr s2 Hs1 Htr Hl1. apply (life_on_disk root Hfair Hsafe id Hid s1 tr); [done..|by apply no_deletion_spared|done].
Qed.

(** C5: What was acknowledged is never lost, on these conditions. When the
    first process starts, on a data directory as the node leaves it, the shard
    directory of the chunk with all directories above has reached the disk,
    and if the chunk is already there, so has its own directory entry
    (otherwise the upload is acknowledged without a sync, see
    [acknowledged_then_lost]); in no life do [open], [fsync], [exists] or
    [file_size] fail or the mutex report the relock of [Put] as an error; and
    nobody asks for the deletion of the chunk. Let a thread of that process
    have seen an upload of the chunk answered with "Success". Whatever becomes
    of the process, and however many processes follow it, each ended in good
    order, killed or by a power cut, in the middle of whatever calls: the
    chunk is in the store, with bytes of the right digest. *)
Theorem never_lost (s s1 s2 : Disk) (tr t0 t1 t2 : list event) (trs : list (list event)) (i : nat) (up : call) :
  fair → sync_reliable → down root s → tidy root (λ j, j = id) nothing (os s) →
  life s tr s1 → lives s1 trs s2 → Forall (Forall no_deletion) (tr :: trs) →
  tr = t0 ++ Call i up :: t1 ++ Return i uploaded :: t2 → Forall (elsewhere i) t1 → uploads id up →
  ∃ c, view root s2 !! ChunkId.ToHexString id = Some c ∧ digest_matches id c.
Proof.
  intros Hfair Hsync Hd Ht Hl1 Hl2 [Hno1 Hno2]%Forall_cons Htr Hi Hup.
  destruct (lives_on_disk s1 trs s2 Hfair Hsync) as [Hd2 [_ _ Hx]]; [by eapply acknowledged_on_disk|done..|].
  rewrite <- (view_at_some root) in Hx by done. destruct Hx as [c Hc]. exists c. split; [done|]. by apply (down_digest root s2).
Qed.

(** C6: ... and later processes deliver it, on the same conditions: when the
    first process started, on a data directory as the node leaves it, the
    shard directory of the chunk with all directories above, and the chunk's
    own directory entry if the chunk was already there, had reached the disk;
    in no life do [open], [fsync], [exists] or [file_size] fail or the mutex
    report the relock of [Put] as an error; nobody asks for the deletion of
    the chunk. Then in every life after the one in which its upload was
    answered with "Success", every download of the chunk is answered with
    bytes of the right digest, or with an I/O error when another call of the
    system failed or fell short, whatever other calls are under way and
    however the processes in between ended. *)
Theorem found_in_later_lives (s s1 s2 s3 : Disk) (tr t0 t1 t2 : list event) (trs : list (list event)) (i : nat) (up : call)
  (n : nat) (tr' t3 t4 t5 : list event) (w : World) (j : nat) (down_call : call) (writable : nat → bool) (x : rpc_reply) :
  fair → sync_reliable → down root s → tidy root (λ j, j = id) nothing (os s) →
  life s tr s1 → lives s1 trs s2 → LocalDiskChunkStore root s2 = (Done tt, s3) → runs step n (MkWorld s3 ∅ true) tr' w →
  Forall (Forall no_deletion) (tr :: tr' :: trs) →
  tr = t0 ++ Call i up :: t1 ++ Return i uploaded :: t2 → Forall (elsewhere i) t1 → uploads id up →
  tr' = t3 ++ Call j down_call :: t4 ++ Return j x :: t5 → Forall (elsewhere j) t4 → downloads id down_call writable →
  ∃ r, found id r ∧ x = GetReply Status_OK (get_messages writable r).
Proof.
  intros Hfair Hsync Hd Ht Hl1 Hl2 E Hr [Hno1 [Hno' Hno2]%Forall_cons]%Forall_cons Htr Hi Hup Htr' Hj Hdown.
  pose proof (node_client_safe root max max_small Hfair) as Hsafe.
  destruct (lives_on_disk s1 trs s2 Hfair Hsync) as [Hd2 [_ _ Hx]]; [by eapply acknowledged_on_disk|done..|].
  destruct (constructed_idle root s2 s3 Hd2 E) as [Hidle Hview].
  destruct (client_linearizable root Hfair Hsafe s3 n tr' w Hidle Hr) as (n' & a & Ha & _).
  rewrite <- (view_at_some root), <- Hview in Hx by done.
  apply (present_found_runs root max id Hid (MkAtomic (view root s3) ∅) n' tr' a t3 t4 t5 j down_call writable x); try done.
  split; [by apply idle_honest|]. intros k c r. cbn. by rewrite lookup_empty.
Qed.

End Kept.

End NodeLives.

(** ** Concrete lives *)

Section Examples.

#[local] Existing Instance toy_evp.
#[local] Existing Instance toy_good.
#[local] Existing Instance toy_uuid.
#[local] Existing Instance toy_evp_laws.
#[local] Existing Instance toy_uuid_laws.

#[local] Existing Instance example_client.

(** A process that follows a schedule and is then killed, or loses power in
    the worst way. *)
Definition served (schedule : list choice) (s : Disk) : nat * list event * World :=
  exec schedule 0 [] (MkWorld (LocalDiskChunkStore ["data"] s).2 ∅ true).

Definition killed (r : nat * list event * World) : Disk :=
  let s := disk r.2 in next_process (MkOs (fs (os s)) (now (os s)) ∅ 3 (Posix.pending (os s))) s.

Definition power_cut (r : nat * list event * World) : Disk :=
  let s := disk r.2 in next_process (MkOs (worst_outage (os s)) (now (os s)) ∅ 3 ∅) s.

Lemma served_run schedule s :
  (LocalDiskChunkStore ["data"] s).1 = Done tt →
  let s1 := (LocalDiskChunkStore ["data"] s).2 in
  LocalDiskChunkStore ["data"] s = (Done tt, s1) ∧
  runs step (served schedule s).1.1 (MkWorld s1 ∅ true) (served schedule s).1.2 (served schedule s).2.
Proof.
  intros E s1. split; [by apply run_ends|].
  assert (Forall choice_valid schedule) as Hv by (apply Forall_forall; by intros [i q cid|i] _).
  pose proof (exec_runs schedule 0 [] _ _ Hv (runs_nil _ (MkWorld s1 ∅ true))) as Hr.
  unfold served. fold s1. by destruct (exec schedule 0 [] _) as [[n tr] w].
Qed.

Lemma served_life schedule s s' :
  (LocalDiskChunkStore ["data"] s).1 = Done tt → ends (disk (served schedule s).2) s' →
  life ["data"] s (served schedule s).1.2 s'.
Proof. intros E He. destruct (served_run schedule s E) as [E1 Hr]. by eapply life_served. Qed.

Lemma killed_life schedule s :
  (LocalDiskChunkStore ["data"] s).1 = Done tt → life ["data"] s (served schedule s).1.2 (killed (served schedule s)).
Proof. intros E. apply served_life; [done|]. apply ends_process. Qed.

Lemma power_cut_life schedule s :
  (LocalDiskChunkStore ["data"] s).1 = Done tt → groundedb (fs (os (disk (served schedule s).2))) = true →
  life ["data"] s (served schedule s).1.2 (power_cut (served schedule s)).
Proof. intros E Hg. apply served_life; [done|]. by apply ends_power, worst_outage_is_outage, groundedb_true. Qed.

(** Nothing is there but an empty file system. *)
Definition new_machine : Disk := MkDisk (MkOs (MkFs ∅ ∅) 0 ∅ 3 ∅) sample_runtime [] 0 0.

(** A process in which an upload is answered, and then a second upload and a
    download are under way when it is killed. *)
Definition first_life := served durable_schedule emptied_disk.

Lemma first_life_story : durable_story first_life.1.2.
Proof. vm_compute. by split_and!. Qed.

(** The process after it has gone some way into an upload when the power is
    cut. *)
Definition begins_upload (k : nat) : list choice := Invoke 1 (a_call (an_upload 1)) "a" :: repeat (GoOn 1) k.

Definition second_life := served (begins_upload 10) (killed first_life).

Lemma emptied_down : down ["data"] emptied_disk.
Proof.
  destruct emptied_sound as [Hh Hi]. split; [left|exact (healthy_held _ _ Hh)|done].
  split; [apply Hh|apply Hh|exact Hi].
Qed.

Lemma first_killed : life ["data"] emptied_disk first_life.1.2 (killed first_life).
Proof. apply killed_life. by vm_compute. Qed.

Lemma second_cut : lives ["data"] (killed first_life) [second_life.1.2] (power_cut second_life).
Proof.
  eapply lives_cons; [|apply lives_nil]. apply power_cut_life; by vm_compute.
Qed.

Lemma second_spares : forallb spares_all second_life.1.2 = true.
Proof. by vm_compute. Qed.

Lemma toy_syncs : sync_reliable.
Proof. by intros n c msg _. Qed.

Lemma never_lost_witness :
  ∃ c, view ["data"] (power_cut second_life) !! ChunkId.ToHexString sample_chunk = Some c ∧ digest_matches sample_chunk c.
Proof.
  destruct (durable_story_cut _ first_life_story) as (up & t1 & t2 & Htr & Hup & H1 & Hno).
  apply (never_lost ["data"] 100 eq_refl sample_chunk sample_chunk_valid emptied_disk (killed first_life) (power_cut second_life)
    first_life.1.2 [] t1 t2 [second_life.1.2] 1 up toy_fair toy_syncs emptied_down emptied_tidy first_killed second_cut).
  - exact (Forall_cons_2 _ _ _ Hno (Forall_cons_2 _ _ _ (spares_all_no_deletion _ _ second_spares) (Forall_nil_2 _))).
  - exact Htr.
  - exact H1.
  - exact Hup.
Defined.

(** A third process, asked for the chunk. *)
Definition asks_for_it : list choice := Invoke 3 (a_call a_download) "c" :: repeat (GoOn 3) 30.
Definition third_life := served asks_for_it (power_cut second_life).

Definition download_story (tr : list event) : Prop :=
  let tr1 := drop 1 tr in
  match tr !! 0%nat, tr1 !! 2%nat with
  | Some (Call j down), Some (Return j' x) =>
      (j = 3 ∧ j' = 3)%nat ∧ x = GetReply Status_OK (get_messages (λ _, true) (Ok sample_data)) ∧
      c_rpc down = a_download ∧ forallb (elsewhereb 3) (take 2 tr1) = true ∧ forallb spares_all tr = true
  | _, _ => False
  end.

Lemma third_life_story : download_story third_life.1.2.
Proof. vm_compute. by split_and!. Qed.

Lemma download_story_cut tr : download_story tr → ∃ down t1 t2,
  tr = Call 3 down :: t1 ++ Return 3 (GetReply Status_OK (get_messages (λ _, true) (Ok sample_data))) :: t2 ∧
  downloads sample_chunk down (λ _, true) ∧ Forall (elsewhere ["data"] 100 3) t1 ∧
  Forall (no_deletion ["data"] 100 sample_chunk) tr.
Proof.
  unfold download_story. intros Hs.
  destruct (tr !! 0%nat) as [[j down| |]|] eqn:E0; try done.
  destruct (drop 1 tr !! 2%nat) as [[|j' x|]|] eqn:E1; try done.
  destruct Hs as ((-> & ->) & -> & Hdown & H1 & Hno). apply cut_at in E0, E1. rewrite E1 in E0.
  exists down, (take 2 (drop 1 tr)), (drop 3 (drop 1 tr)).
  split; [exact E0|]. split; [by eexists|]. split; [by apply elsewhereb_all|by apply spares_all_no_deletion].
Qed.

Lemma third_life_starts : (LocalDiskChunkStore ["data"] (power_cut second_life)).1 = Done tt.
Proof. by vm_compute. Qed.

Lemma found_in_later_lives_witness :
  ∃ r, found sample_chunk r ∧
    GetReply Status_OK (get_messages (λ _, true) (Ok sample_data)) = GetReply Status_OK (get_messages (λ _, true) r).
Proof.
  destruct (durable_story_cut _ first_life_story) as (up & t1 & t2 & Htr & Hup & H1 & Hno).
  destruct (download_story_cut _ third_life_story) as (down_call & t4 & t5 & Htr' & Hdown & H3 & Hno').
  destruct (served_run asks_for_it (power_cut second_life) third_life_starts) as [E Hr]. fold third_life in Hr.
  apply (found_in_later_lives ["data"] 100 eq_refl sample_chunk sample_chunk_valid emptied_disk (killed first_life) (power_cut second_life) _
    first_life.1.2 [] t1 t2 [second_life.1.2] 1 up third_life.1.1 third_life.1.2 [] t4 t5 third_life.2 3 down_call (λ _, true) _
    toy_fair toy_syncs emptied_down emptied_tidy first_killed second_cut E Hr).
  - exact (Forall_cons_2 _ _ _ Hno (Forall_cons_2 _ _ _ Hno' (Forall_cons_2 _ _ _ (spares_all_no_deletion _ _ second_spares) (Forall_nil_2 _)))).
  - exact Htr.
  - exact H1.
  - exact Hup.
  - exact Htr'.
  - exact H3.
  - exact Hdown.
Defined.

(** A new machine: the first process makes the data directory and stores a
    chunk, the power is cut, and nothing is left of it; the next one stores
    the chunk again and is killed. *)
Definition new_machine_life := served (begins_upload 60) new_machine.
Definition next_life := served (begins_upload 60) (power_cut new_machine_life).

Lemma new_machine_down : down ["data"] new_machine.
Proof. split; [right|done..]. split; [done|by split; [apply not_elem_of_empty|apply lookup_empty]|intros q _; apply lookup_empty]. Qed.

Lemma new_machine_lives :
  lives ["data"] new_machine [new_machine_life.1.2; next_life.1.2] (killed next_life).
Proof.
  eapply lives_cons; [apply power_cut_life; by vm_compute|].
  eapply lives_cons; [apply killed_life; by vm_compute|]. apply lives_nil.
Qed.

Lemma lives_sound_witness :
  dirset (power_cut new_machine_life) = ∅ ∧
  view ["data"] (killed next_life) !! ChunkId.ToHexString sample_chunk = Some sample_data ∧
  digest_matches sample_chunk sample_data ∧
  (LocalDiskChunkStore ["data"] (killed next_life)).1 = Done tt ∧
  idle ["data"] (LocalDiskChunkStore ["data"] (killed next_life)).2.
Proof.
  assert (view ["data"] (killed next_life) !! ChunkId.ToHexString sample_chunk = Some sample_data) as Hc by (by vm_compute).
  destruct (lives_sound ["data"] 100 eq_refl new_machine (killed next_life) _ toy_fair new_machine_down new_machine_lives) as [Hctor Hall].
  assert ((LocalDiskChunkStore ["data"] (killed next_life)).1 = Done tt) as Hd by (by vm_compute).
  split; [by vm_compute|]. split; [exact Hc|]. split; [exact (proj1 (Hall sample_chunk sample_data sample_chunk_valid Hc))|].
  split; [exact Hd|]. exact (proj1 (Hctor (Done tt) _ (run_ends _ _ _ Hd))).
Defined.

(** ** An acknowledgement that promises too much

    Nothing fails. A process is killed between the rename of an upload and
    the sync of the directory. The next process is sent the chunk again,
    finds it there and answers "Success" without a sync; then the power is
    cut, and the chunk is gone. *)
Definition interrupted_life := served (begins_upload 21) emptied_disk.
Definition deduplicating_life := served (begins_upload 60) (killed interrupted_life).

Definition answers_uploaded (e : event) : bool :=
  match e with Return 1 (PutReply st r) => bool_decide (st = Status_OK) && bool_decide (putr_message r = "Success") | _ => false end.

Lemma acknowledged_then_lost :
  lives ["data"] emptied_disk [interrupted_life.1.2; deduplicating_life.1.2] (power_cut deduplicating_life) ∧
  existsb answers_uploaded deduplicating_life.1.2 = true ∧
  forallb spares_all (interrupted_life.1.2 ++ deduplicating_life.1.2) = true ∧
  view ["data"] (power_cut deduplicating_life) !! ChunkId.ToHexString sample_chunk = None.
Proof.
  split.
  - eapply lives_cons; [apply killed_life; by vm_compute|].
    eapply lives_cons; [apply power_cut_life; by vm_compute|]. apply lives_nil.
  - split_and!; by vm_compute.
Qed.

End Examples.
