(* ===== verification/Main.v ===== *)
(** * The programs

    Models [services/storage_node/src/main.cpp] from its signal handlers to
    its last line, and what the two programs of [services/greeter_demo] do
    around the handler and the call of [Greeter]. What they use and the
    repository does not have is a parameter: the class [Library] for the
    functions of the configuration and the logger that are called but not
    defined, [Grpc] for gRPC and for what arrives from outside. *)

From stdpp Require Import pretty.
From S2P Require Import Prelude Result Cxx Sha256 ChunkId Time Logger IChunkStore Posix LocalDisk DiskRules DiskLayout DiskEffects DiskTheorems DiskContract DiskSafety DiskCounters Proto Service ServiceRules Requests Greeter.
Import Service.

Local Open Scope Z_scope.

(** ** What is not in the repository *)

(** [Config::Load], the getters that return a result with [ValueOr], and the
    logger's constructor from two file names. The error of [Load] is what
    [operator<<] prints of it. *)
Class Library := {
  Config : Type;
  Load : string → Result Config string;
  GetNodeString : Config → string → option string;
  GetNodeInt : Config → string → option Z;
  GetClusterInt : Config → string → option Z;
  new_logger : string → string → Impl
}.

Definition ValueOr {T} (r : option T) (default : T) : T := match r with Some v => v | None => default end.

(** What a program sets on a [grpc::ServerBuilder] and its quota; [None]: it
    leaves gRPC's default. *)
Record ServerBuilder := MkBuilder {
  listening_port : string;
  max_receive_message_size : option Z;
  max_send_message_size : option Z;
  max_threads : option Z
}.

Inductive Signal := SIGINT | SIGTERM.

#[export] Instance Signal_eq_dec : EqDecision Signal.
Proof. solve_decision. Defined.

(** [BuildAndStart b]: whether it gives a server. Time is counted in polls of
    the shutdown flag: [arrives n] are the signals raised before poll [n] and
    after the previous one, [requests n] the calls gRPC delivers then. *)
Class Grpc := {
  BuildAndStart : ServerBuilder → bool;
  arrives : nat → list Signal;
  requests : nat → list rpc
}.

(** Conversion to [int]. *)
Definition to_int (z : Z) : Z := (z + 2 ^ 31) `mod` 2 ^ 32 - 2 ^ 31.

(** [std::filesystem::path] of a string: its components. *)
Fixpoint split_path (s cur : string) : path :=
  match s with
  | EmptyString => match cur with EmptyString => [] | _ => [cur] end
  | String c s' =>
      if Ascii.eqb c "/" then match cur with EmptyString => split_path s' "" | _ => cur :: split_path s' "" end
      else split_path s' (cur +:+ String c "")
  end.

Definition path_of (s : string) : path := split_path s "".

(** [std::make_shared<Logger>(op_file, audit_file)] *)
Definition use_logger {S} `{HasRuntime S, Library} (op_file audit_file : string) : M S unit :=
  on_runtime (modify (λ r,
    {| impl_ := new_logger op_file audit_file; t_correlation_id := t_correlation_id r;
       op_lines := op_lines r; audit_lines := audit_lines r; uuids_drawn := uuids_drawn r |})).

(** ** The programs of the greeter demo

    [configured]: what [GetNodeLocalString] gives for the one field of the
    schema, after a [LoadFromFile] whose result is ignored. *)

Module GreeterMain.
Section GreeterMain.
Context {S : Type} `{HasRuntime S, UuidSource, Library, Grpc}.

(** [main] of the server. [Wait] blocks until somebody shuts the server down,
    which nobody does; a server that did not start is a null pointer, and
    calling it ends the process. *)
Definition server_main (configured : option string) : M S Z :=
  use_logger "logs/greeter_server_op.log" "logs/greeter_server_audit.log";;
  let server_address := ValueOr configured "0.0.0.0:50051" in
  let server := BuildAndStart (MkBuilder server_address None None None) in
  Info ("Server listening on " +:+ server_address);;
  lift (if server then Blocks else Crashed).

(** [main] of the client: the exit status and what it prints. *)
Definition client_main (configured : option string)
  (SayHello_stub : list (string * string) → Greeter.HelloRequest → M S (Status * Greeter.HelloResponse)) : M S (Z * list string) :=
  use_logger "logs/greeter_client_op.log" "logs/greeter_client_audit.log";;
  let target_address := ValueOr configured "localhost:50051" in
  lines ← Greeter.greeter_client target_address SayHello_stub;
  mret (0, lines).

End GreeterMain.
End GreeterMain.

(** The greeter's server does not look at what [BuildAndStart] gives: bound
    or not, it logs that it is listening; then it waits for ever or, without
    a server, goes down. It never returns. *)
Theorem server_main_unchecked `{UuidSource, Library, Grpc} (configured : option string) (r : Runtime) :
  let impl := new_logger "logs/greeter_server_op.log" "logs/greeter_server_audit.log" in
  is_Some (op_logger impl) →
  let address := ValueOr configured "0.0.0.0:50051" in
  let (o, r') := GreeterMain.server_main configured r in
  o = (if BuildAndStart (MkBuilder address None None None) then Blocks else Crashed) ∧
  op_lines r' = op_lines r ++ [(spd_info, FormatOpMessage (t_correlation_id r) ("Server listening on " +:+ address) [])].
Proof.
  intros impl [l Hl] address. unfold GreeterMain.server_main, use_logger, Info, on_runtime, zoom, modify, lift, mbind, M_bind, log.
  cbn. fold impl. rewrite Hl. by destruct (BuildAndStart _).
Qed.

(** ** The process of the storage node *)

Module NodeMain.

Record Process := MkProcess {
  node : Node LocalDisk.Disk;
  g_shutdown_requested : bool;
  handlers : list Signal;
  cerr : list string;
  server : option ServerBuilder;
  polls : nat;
  answers : list Status
}.

Definition set_node (n : Node LocalDisk.Disk) (p : Process) : Process :=
  MkProcess n (g_shutdown_requested p) (handlers p) (cerr p) (server p) (polls p) (answers p).

#[export] Instance Process_runtime : HasRuntime Process.
Proof.
  refine {| runtime p := runtime (node p); set_runtime r p := set_node (set_runtime r (node p)) p |};
    intros; repeat match goal with p : Process |- _ => destruct p end; unfold set_node; cbn -[runtime set_runtime].
  - apply runtime_set.
  - by rewrite set_runtime_set.
  - by rewrite set_runtime_get.
Defined.

Definition set_server (b : option ServerBuilder) (p : Process) : Process :=
  MkProcess (node p) (g_shutdown_requested p) (handlers p) (cerr p) b (polls p) (answers p).
Definition print_cerr (msg : string) (p : Process) : Process :=
  MkProcess (node p) (g_shutdown_requested p) (handlers p) (cerr p ++ [msg]) (server p) (polls p) (answers p).
Definition answered (st : Status) (p : Process) : Process :=
  MkProcess (node p) (g_shutdown_requested p) (handlers p) (cerr p) (server p) (polls p) (answers p ++ [st]).
Definition next_poll (p : Process) : Process :=
  MkProcess (node p) (g_shutdown_requested p) (handlers p) (cerr p) (server p) (S (polls p)) (answers p).

Definition on_node {A} (m : M (Node LocalDisk.Disk) A) : M Process A := zoom node set_node m.
Definition on_disk {A} (m : M LocalDisk.Disk A) : M Process A := on_node (zoom chunk_store_ set_store m).

(** [SignalHandler] *)
Definition SignalHandler (signum : Signal) (p : Process) : Process :=
  MkProcess (node p) true (handlers p) (cerr p) (server p) (polls p) (answers p).

(** [std::signal(signum, SignalHandler)] *)
Definition signal (signum : Signal) (p : Process) : Process :=
  MkProcess (node p) (g_shutdown_requested p) (signum :: handlers p) (cerr p) (server p) (polls p) (answers p).

(** A signal arrives: without a handler it ends the process. *)
Definition raised (signum : Signal) : M Process unit := λ p,
  if bool_decide (signum ∈ handlers p) then (Done tt, SignalHandler signum p) else (Crashed, p).

Fixpoint deliver (signals : list Signal) : M Process unit :=
  match signals with
  | [] => mret tt
  | signum :: signals => raised signum;; deliver signals
  end.

Section Main.
Context `{Evp, Platform, UuidSource, SteadyClock, Peers, Library, Grpc}.

(** gRPC calls the handlers of the registered service. *)
Fixpoint serve_all (root : path) (rs : list rpc) : M Process unit :=
  match rs with
  | [] => mret tt
  | r :: rs =>
      st ← on_node (@serve _ _ (LocalDisk.ops root) _ _ _ r);
      modify (answered st);;
      serve_all root rs
  end.

(** [sleep_for(100ms)], and what happens meanwhile. *)
Definition sleep (root : path) : M Process unit :=
  modify next_poll;;
  n ← gets polls;
  serve_all root (requests n);;
  deliver (arrives n).

(** The loop that waits for the flag, at most [fuel] polls of it. *)
Fixpoint wait_for_shutdown (root : path) (fuel : nat) : M Process bool :=
  match fuel with
  | O => mret false
  | S fuel =>
      requested ← gets g_shutdown_requested;
      if (requested : bool) then mret true else sleep root;; wait_for_shutdown root fuel
  end.

Definition server_address (config : Config) : string :=
  ValueOr (GetNodeString config "listen_address") "0.0.0.0:50051".

Definition thread_pool_size (config : Config) : Z := to_int (ValueOr (GetNodeInt config "grpc_thread_pool_size") 8).

Definition configured_builder (config : Config) : ServerBuilder :=
  let max_message := 4 * 1024 * 1024 + 1024 in
  MkBuilder (server_address config) (Some max_message) (Some max_message) (Some (thread_pool_size config)).

Definition data_root (config : Config) : path :=
  path_of (ValueOr (GetNodeString config "data_directory") "/var/lib/nimbusfs/data").

(** From the loaded configuration to the started server; [None]: it runs,
    [Some c]: the program ends with exit status [c]. *)
Definition start (config : Config) : M Process (option Z) :=
  use_logger "logs/storage_node.log" "logs/storage_node_audit.log";;
  on_disk (LocalDisk.LocalDiskChunkStore (data_root config));;
  modify (λ p, set_node (StorageNodeServiceImpl (chunk_store_ (node p)) (GetClusterInt config "max_chunk_bytes")) p);;
  let builder := configured_builder config in
  if negb (BuildAndStart builder) then
    LogError ("Failed to bind to " +:+ server_address config);;
    mret (Some 1)
  else
    modify (set_server (Some builder));;
    Info ("Storage Node listening on " +:+ server_address config +:+
          " with thread pool size " +:+ pretty (thread_pool_size config));;
    mret None.

(** [main]; [None]: still waiting after [fuel] polls. *)
Definition main (argv : list string) (fuel : nat) : M Process (option Z) :=
  modify (signal SIGINT);;
  modify (signal SIGTERM);;
  let config_path := match argv with _ :: p :: _ => p | _ => "config.json" end in
  let config_res := Load config_path in
  if negb (IsOk config_res) then
    error ← lift (Error config_res);
    modify (print_cerr ("Failed to load config: " +:+ error +:+ String "010" ""));;
    mret (Some 1)
  else
    config ← lift (Value config_res);
    started ← start config;
    match started with
    | Some c => mret (Some c)
    | None =>
        deliver (arrives 0);;
        requested ← wait_for_shutdown (data_root config) fuel;
        if (requested : bool) then
          Info "Shutdown requested. Gracefully shutting down gRPC server...";;
          modify (set_server None);;
          Info "Shutdown complete.";;
          mret (Some 0)
        else mret None
    end.

End Main.

End NodeMain.

(** ** The life of the process *)

Section Life.
Context `{Evp, Platform, UuidSource, SteadyClock, Peers, Library, Grpc, !EvpLaws, !UuidLaws}.
Import NodeMain.
Implicit Types p : Process.

Hypothesis Hrel : reliable.
Hypothesis Hsmall : ∀ n, Forall rpc_small (requests n).

(** The number of calls delivered up to poll [k]. *)
Definition offered (k : nat) : nat := sum_list_with (λ n, length (requests n)) (seq 1 k).

Lemma offered_S k : offered (S k) = (offered k + length (requests (S k)))%nat.
Proof. unfold offered. rewrite seq_S, sum_list_with_app. cbn. lia. Qed.

(** The server runs: its store is well formed, every call delivered so far
    has been answered, and the flag says whether a signal has arrived. *)
Record up (root : path) (limit : Z) (b : ServerBuilder) (k : nat) (flag : bool) (p : Process) : Prop := {
  up_healthy : healthy root (chunk_store_ (node p));
  up_limit : max_chunk_bytes_ (node p) = limit;
  up_flag : g_shutdown_requested p = flag;
  up_handlers sig : sig ∈ handlers p;
  up_server : server p = Some b;
  up_polls : polls p = k
}.

Variables (root : path) (limit : Z) (b : ServerBuilder).
Hypothesis Hlimit : 0 <= limit < 2 ^ 63.

Lemma serve_all_up rs k flag p :
  Forall rpc_small rs → up root limit b k flag p →
  wp (serve_all root rs) (λ o p', o = Done tt ∧ up root limit b k flag p' ∧
    length (answers p') = (length (answers p) + length rs)%nat) p.
Proof.
  intros Hall. revert p. induction Hall as [|r rs Hr Hall IH]; intros p Hup; cbn [serve_all].
  - apply wp_ret. split; [done|]. split; [done|]. cbn. lia.
  - pose proof Hup as [Hh Hl Hf Hha Hs Hp]. apply wp_bind. unfold on_node. apply wp_zoom.
    eapply wp_mono.
    { pose proof (local_disk_contract root Hrel). apply (serve_effect (view:=view root)); [exact Hh|by rewrite Hl|done]. }
    intros [st| | |] n Ho; try done. destruct Ho as (Hm & Hc & Hhe). apply wp_bind, wp_modify.
    eapply wp_mono; [apply IH|].
    + split; cbn; try done; [by apply Hhe|congruence].
    + intros o p' (-> & Hup' & Hlen). split; [done|]. split; [done|]. rewrite Hlen. cbn. rewrite length_app. cbn. lia.
Qed.

Lemma deliver_up sigs k flag p :
  up root limit b k flag p →
  wp (deliver sigs) (λ o p', o = Done tt ∧ up root limit b k (flag || negb (bool_decide (sigs = []))) p' ∧
    answers p' = answers p) p.
Proof.
  revert flag p. induction sigs as [|sig sigs IH]; intros flag p Hup; cbn [deliver].
  - apply wp_ret. split; [done|]. by rewrite orb_false_r.
  - apply wp_bind. unfold wp at 1, raised. rewrite bool_decide_true by apply (up_handlers _ _ _ _ _ _ Hup). cbn.
    eapply wp_mono; [apply (IH true)|].
    + destruct Hup as [Hh Hl Hf Hha Hs Hp]. by split.
    + intros o p' (-> & Hup' & Ha). split; [done|]. split; [|done]. by rewrite orb_true_r.
Qed.

(** The first poll that sees the flag is the first after a signal. *)
Variable n : nat.
Hypothesis Hfirst : arrives n ≠ [].
Hypothesis Hnone : ∀ i, (i < n)%nat → arrives i = [].

Lemma flag_at k : (k ≤ n)%nat → negb (bool_decide (arrives k = [])) = bool_decide (k = n).
Proof.
  intros Hk. destruct (decide (k = n)) as [->|Hne]; [by rewrite bool_decide_false, bool_decide_true by done|].
  by rewrite Hnone, bool_decide_true, bool_decide_false by (done || lia).
Qed.

Lemma wait_up fuel k p :
  (k ≤ n)%nat → up root limit b k (bool_decide (k = n)) p → length (answers p) = offered k →
  wp (wait_for_shutdown root fuel) (λ o p',
    let k' := (n `min` (k + fuel))%nat in
    o = Done (bool_decide (n < k + fuel)%nat) ∧ up root limit b k' (bool_decide (k' = n)) p' ∧
    length (answers p') = offered k') p.
Proof.
  revert k p. induction fuel as [|fuel IH]; intros k p Hk Hup Hans; cbn [wait_for_shutdown].
  - apply wp_ret. cbn. rewrite Nat.add_0_r, Nat.min_r by done. split; [by rewrite bool_decide_false by lia|done].
  - apply wp_bind, wp_gets. rewrite (up_flag _ _ _ _ _ _ Hup). case_bool_decide as Hkn.
    + subst k. apply wp_ret. cbn. rewrite Nat.min_l by lia. split; [by rewrite bool_decide_true by lia|].
      by rewrite bool_decide_true in * by done.
    + apply wp_bind. unfold sleep. apply wp_bind, wp_modify. apply wp_bind, wp_gets. cbn.
      rewrite (up_polls _ _ _ _ _ _ Hup). apply wp_bind. eapply wp_mono; [apply (serve_all_up _ (S k) false); [done|]|].
      { destruct Hup as [Hh Hl Hf Hha Hs Hp]. split; cbn; try done; congruence. }
      intros o p1 (-> & Hup1 & Hlen1). eapply wp_mono; [by apply deliver_up|].
      intros o p2 (-> & Hup2 & Hans2). cbn [orb] in Hup2. rewrite flag_at in Hup2 by lia.
      eapply wp_mono; [apply (IH (S k)); [lia|done|]|].
      { rewrite Hans2, Hlen1, offered_S. cbn. by rewrite Hans. }
      intros o p3. by rewrite <- Nat.add_succ_comm.
Qed.

End Life.

(** ** Start-up *)

Section Start.
Context `{Evp, Platform, UuidSource, SteadyClock, Peers, Library, Grpc, !EvpLaws, !UuidLaws}.
Import NodeMain.
Implicit Types p : Process.

(** A process over a disk, before its first instruction. *)
Definition fresh_process (s : LocalDisk.Disk) : Process := MkProcess (MkNode s 0 0) false [] [] None 0 [].

Definition limit_of (config : Config) : Z := max_chunk_bytes_ (StorageNodeServiceImpl tt (GetClusterInt config "max_chunk_bytes")).

Lemma wp_on_disk {A} (m : M LocalDisk.Disk A) Q p :
  wp m (λ o s, Q o (set_node (set_store s (node p)) p)) (chunk_store_ (node p)) → wp (on_disk m) Q p.
Proof. intros Hw. unfold on_disk, on_node. by apply wp_zoom, wp_zoom. Qed.

Lemma wp_process_log lvl m Q p :
  (∀ r, logged (runtime p) r → Q (Done tt) (set_runtime r p)) → wp (on_runtime (log lvl m [])) Q p.
Proof.
  intros HQ. apply wp_zoom. unfold wp, log. destruct (op_logger (impl_ (runtime p))); cbn; by apply HQ.
Qed.

Lemma healthy_set_rt root r s : healthy root s → healthy root (LocalDisk.set_rt r s).
Proof. intros [? ? ? ?]. by split. Qed.

(** The store's constructor at start-up: it counts the chunks, or throws. *)
Lemma ctor_starts root s :
  reliable → healthy root s →
  wp (LocalDisk.LocalDiskChunkStore root) (λ o s', match o with
    | Done _ => healthy root s' ∧ counters_ok root s' ∧ view root s' = view root s
    | Throws _ => io_fault
    | _ => False
    end) s.
Proof.
  intros Hrel Hs. pose proof (ctor_counts root s Hs) as Hw. pose proof (ctor_crash_free root Hrel s) as Hnc.
  unfold wp in *. destruct (LocalDisk.LocalDiskChunkStore root s) as [o s']. cbn in *. destruct Hw as [Hf Ho].
  destruct o; try done. destruct Ho as (Hc & Hh & _). split; [done|]. split; [done|]. unfold view. by rewrite Hf.
Qed.

(** What [start] leaves behind: nothing when the store's constructor throws,
    the exit status 1 without a server, or a running server. *)
Definition started config (s : LocalDisk.Disk) p (o : outcome (option Z)) p' : Prop :=
  let b := configured_builder config in
  g_shutdown_requested p' = g_shutdown_requested p ∧ handlers p' = handlers p ∧ polls p' = polls p ∧
  answers p' = answers p ∧ cerr p' = cerr p ∧
  match o with
  | Done r =>
      r = (if BuildAndStart b then None else Some 1) ∧ server p' = (if BuildAndStart b then Some b else server p) ∧
      healthy (data_root config) (chunk_store_ (node p')) ∧ counters_ok (data_root config) (chunk_store_ (node p')) ∧
      view (data_root config) (chunk_store_ (node p')) = view (data_root config) s ∧
      max_chunk_bytes_ (node p') = limit_of config
  | Throws _ => io_fault ∧ server p' = server p
  | _ => False
  end.

Lemma start_effect config p :
  reliable → healthy (data_root config) (chunk_store_ (node p)) →
  wp (start config) (started config (chunk_store_ (node p)) p) p.
Proof.
  intros Hrel Hh. unfold start. apply wp_bind. apply wp_zoom, wp_modify. cbn.
  match goal with |- wp _ _ ?st => set (p1 := st) end.
  apply wp_bind, wp_on_disk. eapply wp_mono; [apply ctor_starts; [done|by apply healthy_set_rt]|].
  intros [u|e| |] s' Ho; try done. destruct Ho as (Hh' & Hc' & Hv').
  apply wp_bind, wp_modify. cbn [negb].
  destruct (BuildAndStart (configured_builder config)) eqn:Hb; cbn [negb].
  - apply wp_bind, wp_modify. apply wp_bind, wp_process_log. intros r _. apply wp_ret.
    unfold started. rewrite Hb. split_and!; try done. by apply healthy_set_rt.
  - apply wp_bind, wp_process_log. intros r _. apply wp_ret.
    unfold started. rewrite Hb. split_and!; try done. by apply healthy_set_rt.
Qed.

(** The path of the configuration file. *)
Definition config_path (argv : list string) : string := match argv with _ :: p :: _ => p | _ => "config.json" end.

(** How [main] ends when the port cannot be bound. *)
Definition refused config (s : LocalDisk.Disk) (o : outcome (option Z)) p : Prop :=
  match o with
  | Done r => r = Some 1 ∧ server p = None ∧ answers p = [] ∧
      view (data_root config) (chunk_store_ (node p)) = view (data_root config) s
  | Throws _ => io_fault ∧ server p = None
  | _ => False
  end.

(** How far [main] gets in [fuel] polls when the first signal arrives before
    poll [n]. *)
Definition lived config (fuel n : nat) (o : outcome (option Z)) p : Prop :=
  match o with
  | Done r =>
      let seen := bool_decide (n < fuel)%nat in
      r = (if seen then Some 0 else None) ∧
      server p = (if seen then None else Some (configured_builder config)) ∧
      polls p = (n `min` fuel)%nat ∧ length (answers p) = offered (n `min` fuel) ∧
      healthy (data_root config) (chunk_store_ (node p))
  | Throws _ => io_fault ∧ server p = None
  | _ => False
  end.

(** Start-up failures of the storage node: without a configuration
    [main] says so and returns 1 before it touches anything; when the port
    cannot be bound it returns 1 with the chunks as they were and no server
    left behind (or the scan of the store threw, on an I/O error). *)
Theorem main_start_fails (argv : list string) (fuel : nat) (s : LocalDisk.Disk) :
  match Load (config_path argv) with
  | Err error =>
      main argv fuel (fresh_process s) =
        (Done (Some 1), print_cerr ("Failed to load config: " +:+ error +:+ String "010" "")
           (signal SIGTERM (signal SIGINT (fresh_process s))))
  | Ok config =>
      BuildAndStart (configured_builder config) = false → reliable → healthy (data_root config) s →
      wp (main argv fuel) (refused config s) (fresh_process s)
  end.
Proof.
  destruct (Load (config_path argv)) as [config|error] eqn:Hc; [intros Hb Hrel Hs|];
    unfold main; fold (config_path argv); rewrite Hc; [|done].
  apply wp_bind, wp_modify. apply wp_bind, wp_modify. cbn [negb IsOk Value]. apply wp_bind, wp_lift. apply wp_bind.
  eapply wp_mono; [by apply start_effect|]. intros o p' (_ & _ & _ & Ha & _ & Ho). destruct o as [r|e| |]; try done.
  rewrite Hb in Ho. destruct Ho as (-> & Hsv & _ & _ & Hv & _). by apply wp_ret.
Qed.

(** C18: The storage node serves until it is told to stop: once its server has
    started, [main] polls as long as no signal has arrived and never returns
    before; with the first SIGINT or SIGTERM it leaves at the next poll, shuts
    the server down and returns 0. Every call that gRPC delivered in between
    has been answered, and the store is well formed. This is on a system that
    does not crash, whose [exists] and [file_size] do not fail, and with a
    mutex its owner may take again; other calls may fail. *)
Theorem main_serves_until_signal (argv : list string) (config : Config) (fuel n : nat) (s : LocalDisk.Disk) :
  reliable → Load (config_path argv) = Ok config → BuildAndStart (configured_builder config) = true →
  healthy (data_root config) s → 0 <= limit_of config < 2 ^ 63 → (∀ k, Forall rpc_small (requests k)) →
  arrives n ≠ [] → (∀ k, (k < n)%nat → arrives k = []) →
  wp (main argv fuel) (lived config fuel n) (fresh_process s).
Proof.
  intros Hrel Hc Hb Hs Hlim Hsm Hfirst Hnone. unfold main. fold (config_path argv). rewrite Hc.
  apply wp_bind, wp_modify. apply wp_bind, wp_modify. cbn [negb IsOk Value]. apply wp_bind, wp_lift. apply wp_bind.
  eapply wp_mono; [by apply start_effect|]. intros o p1 (Hf & Hha & Hp & Ha & _ & Ho). destruct o as [r|e| |]; try done.
  rewrite Hb in Ho. destruct Ho as (-> & Hsv & Hh & _ & _ & Hl).
  assert (up (data_root config) (limit_of config) (configured_builder config) 0 false p1) as Hup.
  { split; try done. intros sig. rewrite Hha. cbn. destruct sig; set_solver. }
  apply wp_bind. eapply wp_mono; [by apply deliver_up|]. intros o p2 (-> & Hup2 & Hans2).
  cbn [orb] in Hup2. rewrite (flag_at n Hfirst Hnone) in Hup2 by lia. apply wp_bind.
  eapply wp_mono; [apply (wait_up Hrel Hsm (data_root config) (limit_of config) (configured_builder config) Hlim n Hfirst Hnone fuel 0);
    [lia|exact Hup2|by rewrite Hans2, Ha]|].
  intros o p3 (-> & [Hh3 _ _ _ Hs3 Hp3] & Hans3). cbn [Nat.add] in *.
  destruct (bool_decide (n < fuel)%nat) eqn:Hn.
  - apply wp_bind, wp_process_log. intros r1 _. apply wp_bind, wp_modify. apply wp_bind, wp_process_log. intros r2 _.
    apply wp_ret. unfold lived. rewrite Hn. split_and!; try done. by apply healthy_set_rt, healthy_set_rt.
  - apply wp_ret. unfold lived. rewrite Hn. by split_and!.
Qed.

End Start.

(** ** Concrete runs *)

Section Examples.
Import NodeMain.

#[local] Existing Instance toy_evp.
#[local] Existing Instance toy_good.
#[local] Existing Instance toy_uuid.
#[local] Existing Instance toy_evp_laws.
#[local] Existing Instance toy_uuid_laws.

#[local] Instance still_clock : SteadyClock := {| steady_now n := Z.of_nat n |}.
#[local] Instance no_peers : Peers := {| remote_GetChunk _ _ _ := ([], Status_OK) |}.

(** A configuration is a list of settings; only [config.json] exists. *)
#[local] Instance toy_library : Library := {|
  Config := list (string * string);
  Load p := if String.eqb p "config.json" then Ok [("data_directory", "/data"); ("listen_address", "localhost:1")]
            else Err "FileNotFound";
  GetNodeString c k := snd <$> List.find (λ kv, String.eqb kv.1 k) c;
  GetNodeInt _ _ := None;
  GetClusterInt _ _ := None;
  new_logger op _ := (Logger_new (default_config op)).2
|}.

Definition toy_config : Config := [("data_directory", "/data"); ("listen_address", "localhost:1")].

(** One request is served before each poll; SIGTERM comes before the third. *)
Definition toy_grpc (bound : bool) : Grpc := {|
  BuildAndStart _ := bound;
  arrives n := if decide (n = 3%nat) then [SIGTERM] else [];
  requests _ := [RpcStats {| client_metadata := [] |} (MkStatsReq 1)]
|}.

Lemma server_main_unchecked_witness :
  let G := toy_grpc false in
  (GreeterMain.server_main (S:=Runtime) None sample_runtime).1 = Crashed ∧
  op_lines (GreeterMain.server_main (S:=Runtime) None sample_runtime).2 = [(spd_info, "Server listening on 0.0.0.0:50051")].
Proof. intros G. exact (server_main_unchecked None sample_runtime (mk_is_Some _ _ eq_refl)). Defined.

Lemma main_start_fails_witness :
  let G := toy_grpc false in
  (main ["storage_node"] 10 (fresh_process fresh_disk)).1 = Done (Some 1) ∧
  wp (main ["storage_node"] 10) (refused toy_config fresh_disk) (fresh_process fresh_disk) ∧
  main ["storage_node"; "other.json"] 10 (fresh_process fresh_disk) =
    (Done (Some 1), print_cerr ("Failed to load config: FileNotFound" +:+ String "010" "")
       (signal SIGTERM (signal SIGINT (fresh_process fresh_disk)))).
Proof.
  intros G. split; [by vm_compute|]. split.
  - exact (main_start_fails ["storage_node"] 10 fresh_disk eq_refl
      (toy_reliable (λ _, false) EvOk RelockReenters ltac:(discriminate) eq_refl eq_refl eq_refl) fresh_healthy).
  - exact (main_start_fails ["storage_node"; "other.json"] 10 fresh_disk).
Defined.

Lemma main_serves_until_signal_witness :
  let G := toy_grpc true in
  (main ["storage_node"] 10 (fresh_process fresh_disk)).1 = Done (Some 0) ∧
  (main ["storage_node"] 3 (fresh_process fresh_disk)).1 = Done None ∧
  wp (main ["storage_node"] 10) (lived toy_config 10 3) (fresh_process fresh_disk).
Proof.
  intros G. split; [by vm_compute|]. split; [by vm_compute|].
  refine (main_serves_until_signal ["storage_node"] toy_config 10 3 fresh_disk
    (toy_reliable (λ _, false) EvOk RelockReenters ltac:(discriminate) eq_refl eq_refl eq_refl) eq_refl eq_refl fresh_healthy _ _ _ _).
  - vm_compute. split; [discriminate|reflexivity].
  - intros k. apply Forall_cons_2; [exact I|constructor].
  - discriminate.
  - intros k Hk. unfold arrives, G, toy_grpc. rewrite decide_False by lia. done.
Defined.

End Examples.

