(* ===== verification/NodeExamples.v ===== *)
(** * The node on concrete runs

    A node over the store on disk, with the small SHA-256 stand-in and a
    system in which every call succeeds: the theorems about the handlers
    applied to concrete requests. *)

From S2P Require Import Prelude Result Cxx Sha256 ChunkId Time Logger IChunkStore Posix LocalDisk DiskEffects DiskTheorems DiskContract DiskSafety Proto Service ServiceRules ServiceTheorems NodeTheorems Requests Programs Handlers.
Import Service.

Local Open Scope Z_scope.

#[local] Existing Instance toy_evp.
#[local] Existing Instance toy_good.
#[local] Existing Instance toy_uuid.
#[local] Existing Instance toy_evp_laws.
#[local] Existing Instance toy_uuid_laws.

#[local] Instance toy_ops : IChunkStore.Ops LocalDisk.Disk := LocalDisk.ops ["data"].

#[local] Instance toy_clock : SteadyClock := {| steady_now n := Z.of_nat n * 2500000 |}.

Definition toy_peers (stream : list GetChunkResponse * Status) : Peers :=
  {| remote_GetChunk _ _ _ := stream |}.

#[local] Instance toy_contract :
  ChunkStoreContract LocalDisk.Disk io_fault (healthy ["data"]) (view ["data"]).
Proof. apply local_disk_contract. by apply toy_reliable. Qed.

Lemma toy_no_fault : ¬ io_fault.
Proof. intros (n & c & Hn). by apply Hn. Qed.

(** ** Requests *)

Definition ctx : ServerContext := {| client_metadata := [("x-nimbus-correlation-id", "req-1")] |}.
Definition node (max : Z) : Node LocalDisk.Disk := StorageNodeServiceImpl fresh_disk (Some max).
Definition sample_hex : string := ChunkId.ToHexString sample_chunk.
Definition sample_frames : list PutChunkRequest :=
  [MkPutReq 1 (PutDataChunk [x68]); MkPutReq 1 PutPayloadNotSet; MkPutReq 1 (PutDataChunk [x69])].
Definition sample_request : GetChunkRequest := MkGetReq kCurrentProtocolVersion sample_hex.

Lemma sample_parse : ChunkId.Parse sample_hex = Ok sample_chunk.
Proof. vm_compute. reflexivity. Qed.

Lemma node_healthy max : ServiceRules.nhealthy (healthy:=healthy ["data"]) (node max).
Proof. apply fresh_healthy. Qed.

Lemma frames_small : small sample_frames.
Proof. repeat constructor. Qed.

Lemma upload_small total : small (upload sample_hex "" total sample_frames).
Proof. repeat constructor. Qed.

Lemma node_empty max : ServiceRules.nview (view:=view ["data"]) (node max) !! sample_hex = None.
Proof. vm_compute. reflexivity. Qed.

Lemma node_limit : 0 <= max_chunk_bytes_ (node 100) < 2 ^ 63.
Proof. vm_compute. split; [discriminate|reflexivity]. Qed.

Lemma sample_fits : Z.of_nat (length (put_data sample_frames)) <= max_chunk_bytes_ (node 100).
Proof. vm_compute. discriminate. Qed.

Lemma frame_small data : Z.of_nat (length data) < 2 ^ 31 → small [MkPutReq 1 (PutDataChunk data)].
Proof. intros Hd. apply Forall_cons; split; [done|constructor]. Qed.

Lemma sample_digest : digest_matches sample_chunk sample_data.
Proof. vm_compute. reflexivity. Qed.

(** ** Witnesses *)

Lemma upload_download_witness :
  ∃ n1 n2 sent,
    PutChunk ctx (upload sample_hex "" 2 sample_frames) (node 100) =
      (Done (Status_OK, MkPutResp 1 ChunkStatus.OK "Success"), n1) ∧
    GetChunk ctx sample_request (λ _, true) n1 =
      (Done (Status_OK, metadata_message 2 ChunkStatus.OK :: sent), n2) ∧
    get_data sent = sample_data ∧ Forall good_frame sent.
Proof.
  exact (upload_download ctx ctx sample_hex "" 2 sample_frames (λ _, true) sample_chunk (node 100)
    toy_no_fault (node_healthy 100) node_limit frames_small sample_parse sample_fits sample_fits sample_digest
    (node_empty 100) (λ _, eq_refl)).
Defined.

(** Too many bytes for a limit of one. *)
Lemma PutChunk_outcome_witness :
  ∃ st resp n', PutChunk ctx (upload sample_hex "" 1 sample_frames) (node 1) = (Done (st, resp), n') ∧
    ServiceRules.served (healthy:=healthy ["data"]) (node 1) n' ∧
    st = MkStatus StatusCode.RESOURCE_EXHAUSTED "Streamed chunk too large" ∧
    resp = MkPutResp 1 ChunkStatus.CHUNK_TOO_LARGE "Streamed chunk too large" ∧
    ServiceRules.nview (view:=view ["data"]) n' = ServiceRules.nview (view:=view ["data"]) (node 1).
Proof.
  refine (PutChunk_outcome (view:=view ["data"]) ctx (upload sample_hex "" 1 sample_frames) (node 1) (node_healthy 1) _ _).
  - vm_compute. split; [discriminate|reflexivity].
  - exact (upload_small 1).
Defined.

Lemma GetChunk_outcome_witness :
  ∃ st msgs n', GetChunk ctx sample_request (λ _, true) (node 1) = (Done (st, msgs), n') ∧
    ServiceRules.served (healthy:=healthy ["data"]) (node 1) n' ∧
    ServiceRules.nview (view:=view ["data"]) n' = ServiceRules.nview (view:=view ["data"]) (node 1) ∧
    match accept 1 sample_hex with
    | inl st' => st = st' ∧ msgs = []
    | inr id => st = Status_OK ∧ ∃ r,
        get_spec io_fault (ServiceRules.nview (view:=view ["data"]) (node 1)) id r ∧ get_reply (λ _, true) r msgs
    end.
Proof. exact (GetChunk_outcome (view:=view ["data"]) ctx sample_request (λ _, true) (node 1) (node_healthy 1)). Defined.

Lemma DeleteChunk_outcome_witness :
  ∃ st resp n', DeleteChunk ctx (MkDelReq 2 sample_hex "") (node 1) = (Done (st, resp), n') ∧
    ServiceRules.served (healthy:=healthy ["data"]) (node 1) n' ∧ st = unsupported ∧
    ServiceRules.nview (view:=view ["data"]) n' = ServiceRules.nview (view:=view ["data"]) (node 1).
Proof.
  destruct (DeleteChunk_outcome (view:=view ["data"]) ctx (MkDelReq 2 sample_hex "") (node 1) (node_healthy 1))
    as (st & resp & n' & E & Hs & Ho).
  exists st, resp, n'. cbn [del_chunk_id del_protocol_version] in Ho. rewrite sample_parse in Ho. by destruct Ho.
Defined.

(** A peer that holds the chunk, and what it answers. *)
Definition peer : Node LocalDisk.Disk := MkNode stored_disk 100 0.

Definition peer_stream : list GetChunkResponse * Status :=
  ([metadata_message 2 ChunkStatus.OK; MkGetResp 1 (GetDataChunk sample_data)], Status_OK).

Lemma stored_healthy : healthy ["data"] stored_disk.
Proof.
  destruct (put_ok (healthy:=healthy ["data"]) sample_chunk sample_data fresh_disk fresh_healthy sample_chunk_valid)
    as (r & s' & E & Hs & _).
  change (IChunkStore.Put sample_chunk sample_data fresh_disk) with
    (LocalDisk.Put ["data"] sample_chunk sample_data fresh_disk) in E.
  unfold stored_disk. by rewrite E.
Qed.

Lemma replicate_from_node_witness :
  let P := toy_peers peer_stream in
  ∃ n', ReplicateChunk ctx (MkRepReq 1 sample_hex "peer:50052") (node 100) =
      (Done (Status_OK, MkRepResp 1 ChunkStatus.OK), n') ∧
    ServiceRules.nview (view:=view ["data"]) n' =
      <[sample_hex := sample_data]> (ServiceRules.nview (view:=view ["data"]) (node 100)).
Proof.
  intros P.
  refine (replicate_from_node (view:=view ["data"]) ctx "peer:50052" sample_hex sample_chunk sample_data (λ _, ctx)
    (node 100) peer toy_no_fault (node_healthy 100) node_limit (node_empty 100) stored_healthy _ sample_parse
    sample_digest sample_fits (λ _, _)); vm_compute; reflexivity.
Defined.

(** A source that announces nothing and sends two frames. *)
Definition oversized : list GetChunkResponse :=
  [MkGetResp 1 (GetDataChunk (take 1 sample_data)); MkGetResp 1 (GetDataChunk (drop 1 sample_data))].

Lemma replicate_exceeds_limit_witness :
  let P := toy_peers (metadata_message 0 ChunkStatus.OK :: oversized, Status_OK) in
  (∃ n', ReplicateChunk ctx (MkRepReq 1 sample_hex "peer:50052") (node 1) =
      (Done (Status_OK, MkRepResp 1 ChunkStatus.OK), n') ∧
    ServiceRules.nview (view:=view ["data"]) n' =
      <[sample_hex := sample_data]> (ServiceRules.nview (view:=view ["data"]) (node 1))) ∧
  ∃ n', PutChunk ctx (upload sample_hex "" 0 [MkPutReq 1 (PutDataChunk sample_data)]) (node 1) =
      (Done (MkStatus StatusCode.RESOURCE_EXHAUSTED "Streamed chunk too large",
         MkPutResp 1 ChunkStatus.CHUNK_TOO_LARGE "Streamed chunk too large"), n') ∧
    ServiceRules.nview (view:=view ["data"]) n' = ServiceRules.nview (view:=view ["data"]) (node 1).
Proof.
  intros P.
  assert (1 < Z.of_nat (length (get_data oversized))) as Hbig by (by vm_compute).
  destruct (replicate_exceeds_limit (view:=view ["data"]) ctx "peer:50052" sample_hex sample_chunk 0 oversized
    (node 1) toy_no_fault (node_healthy 1) ltac:(vm_compute; split; [discriminate|reflexivity]) (node_empty 1) sample_parse
    sample_digest ltac:(vm_compute; discriminate) Hbig (λ _, eq_refl)) as [Hstored Hrefused].
  split; [exact Hstored|]. apply (Hrefused ctx "" 0 [MkPutReq 1 (PutDataChunk sample_data)]).
  - by vm_compute.
  - repeat constructor; by vm_compute.
  - vm_compute. discriminate.
Defined.

(** Version 0, as an unset field reads. *)
Lemma version_refused_witness :
  let P := toy_peers ([], Status_OK) in
  ∃ st n', serve (RpcPut ctx [MkPutReq 0 (PutMetadata (MkPutMeta "nonsense" "" 0))]) (node 1) = (Done st, n') ∧
    st = MkStatus StatusCode.INVALID_ARGUMENT "Invalid chunk_id" ∧
    ∃ rt, chunk_store_ n' = LocalDisk.set_rt rt (chunk_store_ (node 1)).
Proof.
  intros P.
  exact (version_refused (RpcPut ctx [MkPutReq 0 (PutMetadata (MkPutMeta "nonsense" "" 0))]) 0 (node 1)
    eq_refl ltac:(discriminate)).
Defined.

Lemma every_request_served_witness :
  let P := toy_peers ([], Status_OK) in
  ∃ st n', serve (RpcReplicate ctx (MkRepReq 1 sample_hex "nowhere")) (node 100) = (Done st, n') ∧
    ServiceRules.nhealthy (healthy:=healthy ["data"]) n' ∧
    max_chunk_bytes_ n' = max_chunk_bytes_ (node 100) ∧ same_caller (node 100) n'.
Proof.
  intros P.
  exact (every_request_served (view:=view ["data"]) (RpcReplicate ctx (MkRepReq 1 sample_hex "nowhere")) (node 100)
    (node_healthy 100) node_limit I).
Defined.

(** The program of a replication, run alone beside the handler. *)
Lemma handlers_alone_witness :
  let P := toy_peers peer_stream in
  let r := RpcReplicate ctx (MkRepReq 1 sample_hex "peer:50051") in
  let p := Handlers.handle ["data"] 100 (λ i, steady_now (0 + i)) peer_stream r in
  (run p fresh_disk).1 = Done (Handlers.ReplicateReply Status_OK (MkRepResp 1 ChunkStatus.OK)) ∧
  ∃ k, Handlers.handle_node ["data"] r (MkNode fresh_disk 100 0) =
    ((run p fresh_disk).1, MkNode (run p fresh_disk).2 100 k).
Proof.
  intros P r p. split; [by vm_compute|].
  exact (Handlers.handlers_alone ["data"] 100 0 r peer_stream fresh_disk (λ _ _ _, eq_refl)).
Defined.
